(* ===== verification/_CoqProject ===== *)
-Q . S2P
Prelude.v
Bytes.v
Io.v
Crypto.v
Transaction.v
Wallet.v
Block.v
Encoding.v
Genesis.v
Ledger.v
Mempool.v
MempoolQueue.v
Blockchain.v
Storage.v
StorageSpec.v
Restart.v
PendingTx.v
BlockIndex.v
ReorgPlan.v
ReplaySandbox.v
Toml.v
Seen.v
PeerBook.v
DataDirBind.v
Wire.v
Node.v
Session.v
Quota.v
Dialogue.v
Connect.v
Slots.v
Args.v
Commands.v
Run.v
StartSpec.v
RunSpec.v
RunSafe.v
Server.v
SendSpec.v
InitSpec.v
Main.v
LiveSpec.v
Converge.v
DevUi.v
DevUiSpec.v
RunExample.v
NetExample.v
