(* ===== verification/Prelude.v ===== *)
(** * Trilogicon core: a verification library

    The program is a small blockchain node written in Rust ([src/node]) and a
    local test page ([src/dev-test-ui]). A node keeps a linear chain of blocks
    in memory and in an append-only file, a ledger of accounts that the chain
    determines, a bounded pool of transactions, and a book of peers. It accepts
    transactions from a queue file and from inbound sessions, seals blocks,
    catches up from peers and gossips sealed blocks. Modules under [v3] analyse
    hypothetical reorganisations without touching the live chain.

    ** How the code is modelled

    Rust functions are Rocq functions of the same name where possible.
    [Result<A, E>] and panics are the three-valued [Res E A]; [ST S E A] is a
    computation over a state [S] that may fail or panic and keeps the state it
    had reached, with the notations [let!], [;;!], [let?], [;;?]. Integers are
    [Z] with the checked, saturating and wrapping operations of their width
    written out. Bytes are [list byte], strings are byte strings with UTF-8
    validity as a predicate. Maps are [gmap]. Loops are structural recursion, or
    recursion on a fuel with a theorem that the fuel given by the code's own
    bounds is enough.

    The file system is [Io.Disk]: the files and a script of faults, where any
    call may fail, a write may stop after any number of bytes, and an existence
    check whose metadata call fails answers that the file is missing, as
    [Path::exists] does. Theorems hold for every disk; those that are false
    after a failed existence check assume [Io.stats_work], and
    [failed_check_forgets_chain] shows why. The clock that names a temporary
    file is an [option], [None] before 1970, where the code unwraps it and
    panics. Program arguments are byte strings.

    Third-party code is a parameter with its documented behaviour as laws:
    SHA-256, hexadecimal and Ed25519 are [Crypto.CryptoLib] with [CryptoLaws],
    the TOML library is [Toml.TomlDoc] with [TomlLaws] (what it prints, with
    comment and blank lines of printable text around it, parses back, and is
    UTF-8) and [StartSpec.TomlTotal]. Toy instances show that the laws can
    hold; the witnesses use them.

    ** Files and source

    - [Prelude], [Bytes], [Io]: results, state, automation and hint databases
      ([no_panic], [keeps]); bytes, UTF-8, number formatting; files, faults,
      paths, locks ([file_lock.rs], [operator_msg.rs]).
    - [Crypto], [Transaction], [Wallet], [Block]: [crypto.rs], [types.rs],
      [errors.rs], [transaction.rs], [wallet.rs], [block.rs], [consensus.rs].
    - [Encoding]: [encoding.rs], both codecs; the class [Codec] states the two
      directions of a codec and composes.
    - [Genesis], [Ledger]: [genesis.rs], [state.rs].
    - [Mempool], [MempoolQueue]: [mempool.rs] and its refinement to a queue.
    - [Blockchain]: [blockchain.rs] with [chain_inv] and the step relation
      [chain_step].
    - [Storage], [StorageSpec], [Restart]: [storage.rs], the file formats, torn
      writes, reloading.
    - [PendingTx]: [pending_tx_file.rs]. [Seen], [PeerBook], [DataDirBind],
      [Toml]: [seen.rs], [peer_book.rs], [data_dir_bind.rs].
    - [BlockIndex], [ReorgPlan], [ReplaySandbox]: [v3/*.rs].
    - [Wire], [Node], [Session], [Quota], [Connect], [Slots]: [network.rs]:
      frames and messages, the node behind its lock with [node_inv], inbound
      sessions and catching up, the frames a session reads as a log and the
      quotas on that log, outbound connections, the atomic slot counter as a
      transition system.
    - [Dialogue], [Converge]: a client on one end of a connection and the
      session of another node on the other; [conversation] ties what one writes
      to what the other reads.
    - [Args], [Commands], [Run], [Main]: [main.rs]: arguments, [init] and [send],
      [run] with its production loop, [main] with the exit status.
    - [Server]: the accept loop, the session threads and the production loop as
      one transition system over the shared node and the slot counter, each
      step labelled with the frames it reads.
    - [StartSpec], [RunSpec], [RunSafe], [SendSpec], [InitSpec], [LiveSpec]:
      the theorems about the commands. [DevUi], [DevUiSpec]: [dev-test-ui/src/main.rs].
      [RunExample], [NetExample]: witnesses on small data directories and
      networks.

    ** What the theorems show

    - The composed node: [run_safe] (whatever is on disk, fails or arrives, a run
      never panics, memory and the healthy file hold the same valid chain, and
      the chain only grows), [server_safe] (the same under every interleaving
      of accept loop, session threads and production loop, within the session
      cap, and with the frames read from each connection within the quotas),
      [queued_gets_sealed], [seal_only_synced], [seal_atomic],
      [network_block_atomic], [session_safe], [sync_safe], [slot_cap],
      [main_panics_iff] (the only panic left is an argument that is not UTF-8).
      A run assumes working existence checks, a clock after 1970, and that no
      other process writes to the block file.
    - Several nodes: [sync_converges] (a catch-up answered by the session loop of
      an honest peer ends with the peer's chain and ledger) and
      [sealed_block_spreads] (a pushed block is appended on the other side);
      [tip_hash_commits] (equal tip hashes mean equal histories and ledgers, or
      an explicit collision of SHA-256).
    - The ledger and the chain: [apply_transaction] refines its specification;
      every reachable chain satisfies [chain_inv], conserves the supply, has no
      double spend; append and rollback are exact.
    - The pool refines a bounded FIFO queue; sealing selects greedily.
    - Storage: the outcome of a torn append is determined by the bytes that
      reached the file and is never a wrong chain; reloading is exact but for
      the time policy, which is not stored; corruption is detected; the parsers
      are total and exact.
    - Formats: the codecs accept exactly the canonical encodings, the wire
      messages round-trip, the handshake agrees iff the genesis does.
    - Branch analysis: paths, forks, selection and plans are exact, and the
      replay sandbox predicts what the chain would do.
    - The commands and the test page: [init_readable], [send_queues],
      [run_args_exact], [ui_reads_only], [ui_chain_agrees].
    - Some theorems show defects: [genesis_commitment_newline_collision] (a
      newline in an address), [oversized_batch_stalls_sync] (64 blocks that do
      not fit into one frame are never served), [repair_races_append] (a load
      beside a running node, as [send] does, may cut off what the node is
      writing; so the theorems about a run assume that other processes leave
      the block file alone) and [failed_check_forgets_chain].

    ** Bounds and fuel

    Parsers of files get the length of the input as fuel, each iteration
    consumes at least four bytes; a session has one more step than the frame
    limit; catching up has one more than the round budget; walks in the block
    index have their own depth limit. Each has a theorem that this suffices. A
    run is a finite list of iterations of arbitrary length.

    ** Not modelled

    Memory allocation: it is taken to succeed, also for the untrusted count that
    [decode_block] passes to [Vec::with_capacity]. The operating-system calls behind sockets (resolving, connecting, binding
    and accepting are inputs, deadlines only choose the error that ends a
    stream); the memory model of atomics beyond sequential interleaving; printed
    lines, [diag.rs], usage texts; the HTTP server and the JSON of the test
    page; Windows variants of locks and renames; the tests. *)

From Stdlib Require Import ZArith Lia.
From stdpp Require Import base gmap strings list fin_maps sorting.

#[global] Open Scope Z_scope.

(** ** Results and panics

    [Res E A] is Rust's [Result<A, E>] together with the possibility that the
    thread panics ([expect], slice indexing out of range). *)

Inductive Res (E A : Type) : Type :=
| Ok (a : A)
| Err (e : E)
| Panic.
Arguments Ok {E A} a.
Arguments Err {E A} e.
Arguments Panic {E A}.

Definition rbind {E A B} (c : Res E A) (k : A → Res E B) : Res E B :=
  match c with
  | Ok a => k a
  | Err e => Err e
  | Panic => Panic
  end.

Definition ok_or {E A} (o : option A) (e : E) : Res E A :=
  match o with
  | Some a => Ok a
  | None => Err e
  end.

Definition map_err {E F A} (f : E → F) (c : Res E A) : Res F A :=
  match c with
  | Ok a => Ok a
  | Err e => Err (f e)
  | Panic => Panic
  end.

(** [r.expect(..)] on an option *)
Definition expect {E A} (o : option A) : Res E A :=
  match o with
  | Some a => Ok a
  | None => Panic
  end.

Definition is_ok {E A} (c : Res E A) : bool :=
  match c with
  | Ok _ => true
  | _ => false
  end.

(** ** Fallible operations on a mutable object: [&mut self] with a [Result]

    The state after the call is returned on every path, so that a partial
    mutation before an early return is visible. *)

Definition ST (S E A : Type) : Type := S → Res E A * S.

Definition sret {S E A} (a : A) : ST S E A := λ s, (Ok a, s).

Definition sbind {S E A B} (m : ST S E A) (k : A → ST S E B) : ST S E B :=
  λ s,
    match m s with
    | (Ok a, s') => k a s'
    | (Err e, s') => (Err e, s')
    | (Panic, s') => (Panic, s')
    end.

Definition sget {S E} : ST S E S := λ s, (Ok s, s).
Definition sput {S E} (s' : S) : ST S E unit := λ _, (Ok tt, s').
Definition sfail {S E A} (e : E) : ST S E A := λ s, (Err e, s).
Definition slift {S E A} (c : Res E A) : ST S E A := λ s, (c, s).

(** [map_err] on an operation with a mutable state. *)
Definition smap_err {S E F A} (f : E → F) (m : ST S E A) : ST S F A := λ s,
  let '(r, s') := m s in (map_err f r, s').

Declare Scope tril_scope.
Delimit Scope tril_scope with tril.
#[global] Open Scope tril_scope.

Notation "'let?' x := c 'in' k" := (rbind c (λ x, k))
  (at level 10, x pattern, k at level 200) : tril_scope.
Notation "c ';;?' k" := (rbind c (λ _, k))
  (at level 199, right associativity) : tril_scope.
Notation "'let!' x := c 'in' k" := (sbind c (λ x, k))
  (at level 10, x pattern, k at level 200) : tril_scope.
Notation "c ';;!' k" := (sbind c (λ _, k))
  (at level 199, right associativity) : tril_scope.

(** A loop [for x in l { f(x)?; }] *)
Fixpoint sfor {S E A} (f : A → ST S E unit) (l : list A) : ST S E unit :=
  match l with
  | [] => sret tt
  | x :: l' => f x ;;! sfor f l'
  end.

Fixpoint rfor {E A} (f : A → Res E unit) (l : list A) : Res E unit :=
  match l with
  | [] => Ok tt
  | x :: l' => f x ;;? rfor f l'
  end.

(** Run a computation on a clone of the state and keep the final state. *)
Definition exec_on {S E A} (m : ST S E A) (s : S) : Res E S :=
  match m s with
  | (Ok _, s') => Ok s'
  | (Err e, _) => Err e
  | (Panic, _) => Panic
  end.

(** ** Machine integers

    An unsigned integer of width [w] is a [Z] in range; checked, saturating
    and wrapping operations are written out. *)

Definition u16_max : Z := 65535.
Definition u32_max : Z := 4294967295.
Definition u64_max : Z := 18446744073709551615.

(** The largest length of a [Vec]. *)
Definition isize_max : Z := 9223372036854775807.

Definition in_u32 (z : Z) : Prop := 0 ≤ z ≤ u32_max.
Definition in_u64 (z : Z) : Prop := 0 ≤ z ≤ u64_max.

#[export] Instance in_u32_dec z : Decision (in_u32 z).
Proof. unfold in_u32. apply _. Defined.
#[export] Instance in_u64_dec z : Decision (in_u64 z).
Proof. unfold in_u64. apply _. Defined.

Definition checked_add (a b : Z) : option Z :=
  if a + b <=? u64_max then Some (a + b) else None.
Definition checked_sub (a b : Z) : option Z :=
  if b <=? a then Some (a - b) else None.
Definition saturating_add (a b : Z) : Z := Z.min (a + b) u64_max.
Definition saturating_sub (a b : Z) : Z := Z.max (a - b) 0.
Definition saturating_mul (a b : Z) : Z := Z.min (a * b) u64_max.
Definition wrapping_add (a b : Z) : Z := (a + b) mod (u64_max + 1).
Definition saturating_add32 (a b : Z) : Z := Z.min (a + b) u32_max.
Definition saturating_sub32 (a b : Z) : Z := Z.max (a - b) 0.

(** [Vec::len] as an integer *)
Definition zlen {A} (l : list A) : Z := Z.of_nat (length l).

Fixpoint drop_while {A} (p : A → bool) (l : list A) : list A :=
  match l with
  | [] => []
  | x :: l' => if p x then drop_while p l' else l
  end.

(** ** Stable sort by a string key ([slice::sort_by] with [str::cmp]) *)

Section sort_by_key.
Context {A : Type} (key : A → string).

Fixpoint insert_by_key (x : A) (l : list A) : list A :=
  match l with
  | [] => [x]
  | y :: l' => if String.leb (key x) (key y) then x :: y :: l' else y :: insert_by_key x l'
  end.

Fixpoint sort_by_key (l : list A) : list A :=
  match l with
  | [] => []
  | x :: l' => insert_by_key x (sort_by_key l')
  end.

Definition key_le (x y : A) : Prop := String.le (key x) (key y).

Lemma insert_by_key_perm x l : insert_by_key x l ≡ₚ x :: l.
Proof.
  induction l as [|y l IH]; simpl; [done|].
  case_match; [done|]. rewrite IH. apply Permutation_swap.
Qed.

Lemma sort_by_key_perm l : sort_by_key l ≡ₚ l.
Proof. induction l as [|x l IH]; simpl; [done|]. by rewrite insert_by_key_perm, IH. Qed.

Lemma insert_by_key_sorted x l :
  StronglySorted key_le l → StronglySorted key_le (insert_by_key x l).
Proof.
  induction 1 as [|y l Hl IH Hy]; simpl; [repeat constructor|].
  destruct (String.leb (key x) (key y)) eqn:Hle.
  - constructor; [by constructor|]. constructor.
    + by apply Is_true_true.
    + eapply Forall_impl; [exact Hy|]. intros z Hz. unfold key_le in *.
      etrans; [|exact Hz]. by apply Is_true_true.
  - constructor; [done|]. rewrite insert_by_key_perm. constructor; [|done].
    unfold key_le. destruct (total String.le (key x) (key y)) as [H|H]; [|done].
    apply Is_true_true in H. congruence.
Qed.

Lemma sort_by_key_sorted l : StronglySorted key_le (sort_by_key l).
Proof. induction l; simpl; [constructor|]. by apply insert_by_key_sorted. Qed.

(** Two permutations of a list with distinct keys sort to the same list. *)
Lemma sorted_perm_unique l1 l2 :
  StronglySorted key_le l1 → StronglySorted key_le l2 →
  NoDup (key <$> l1) → l1 ≡ₚ l2 → l1 = l2.
Proof.
  intros Hs. revert l2. induction Hs as [|x l1 Hl1 IH Hx]; intros l2 Hs2 Hnd Hp.
  { by apply Permutation_nil_l in Hp. }
  destruct l2 as [|y l2]; [by apply Permutation_nil_r in Hp|].
  rewrite fmap_cons in Hnd. apply NoDup_cons in Hnd as [Hni Hnd].
  inversion Hs2 as [|?? Hs2' Hy]; subst.
  assert (x = y) as <-.
  { assert (x ∈ y :: l2) as Hx2 by (rewrite <- Hp; left).
    assert (y ∈ x :: l1) as Hy1 by (rewrite Hp; left).
    apply elem_of_cons in Hx2 as [?|Hx2]; [done|].
    apply elem_of_cons in Hy1 as [?|Hy1]; [done|].
    destruct Hni. assert (key x = key y) as ->.
    { apply (anti_symm String.le).
      - rewrite Forall_forall in Hx. by apply Hx.
      - rewrite Forall_forall in Hy. by apply Hy. }
    by apply list_elem_of_fmap_2. }
  f_equal. apply IH; [done|done|]. by apply Permutation_cons_inv in Hp.
Qed.

Lemma sort_by_key_perm_eq l1 l2 :
  NoDup (key <$> l1) → l1 ≡ₚ l2 → sort_by_key l1 = sort_by_key l2.
Proof.
  intros Hnd Hp. apply sorted_perm_unique; [apply sort_by_key_sorted..| |].
  - by rewrite sort_by_key_perm.
  - by rewrite !sort_by_key_perm.
Qed.
End sort_by_key.

(** ** Automation *)

(** Case analysis on the scrutinee of a result, option or pair match in a
    hypothesis, discarding impossible branches. *)
Ltac unfold_monad :=
  unfold sbind, sret, sget, sput, sfail, slift, rbind, ok_or, map_err, expect in *; cbn beta iota in *.

Ltac simpl_res :=
  repeat match goal with
  | H : Ok _ = Ok _ |- _ => injection H as H
  | H : Err _ = Err _ |- _ => injection H as H
  | H : Some _ = Some _ |- _ => injection H as H
  | H : (_, _) = (_, _) |- _ => injection H as H
  | H : Ok _ = Err _ |- _ => discriminate H
  | H : Err _ = Ok _ |- _ => discriminate H
  | H : Ok _ = Panic |- _ => discriminate H
  | H : Panic = Ok _ |- _ => discriminate H
  | H : Err _ = Panic |- _ => discriminate H
  | H : Panic = Err _ |- _ => discriminate H
  end; subst; try done.

(** Case analysis on the outermost condition of the goal, closing the branch
    that is immediate. *)
Ltac next_guard :=
  match goal with |- context [if ?b then _ else _] => (destruct b; [done|]) || (destruct b; [|done]) end.

Create HintDb tril.

(** ** Shared lemmas *)

Lemma checked_add_Some a b c :
  checked_add a b = Some c ↔ a + b ≤ u64_max ∧ c = a + b.
Proof. unfold checked_add. destruct (Z.leb_spec (a + b) u64_max); naive_solver lia. Qed.

Lemma checked_add_None a b : checked_add a b = None ↔ u64_max < a + b.
Proof. unfold checked_add. destruct (Z.leb_spec (a + b) u64_max); naive_solver lia. Qed.

Lemma checked_sub_Some a b c :
  checked_sub a b = Some c ↔ b ≤ a ∧ c = a - b.
Proof. unfold checked_sub. destruct (Z.leb_spec b a); naive_solver lia. Qed.

(** A check that succeeds, followed by the rest. *)
Lemma rbind_unit_ok {E A} (c : Res E unit) (k : Res E A) a : (c ;;? k) = Ok a ↔ c = Ok tt ∧ k = Ok a.
Proof. destruct c as [[]| |]; simpl; naive_solver. Qed.

Lemma rfor_ok {E A} (f : A → Res E unit) l :
  rfor f l = Ok tt ↔ Forall (λ x, f x = Ok tt) l.
Proof.
  induction l as [|x l IH]; simpl; [by split|].
  unfold rbind. rewrite Forall_cons, <- IH.
  destruct (f x) as [[]| |]; split; intros; destruct_and?; done || auto.
Qed.

Lemma rfor_no_panic {E A} (f : A → Res E unit) l : (∀ x, f x ≠ Panic) → rfor f l ≠ Panic.
Proof. intros Hf. induction l as [|x l IH]; [done|]. simpl. specialize (Hf x). by destruct (f x). Qed.

Lemma rbind_no_panic {E A B} (c : Res E A) (k : A → Res E B) :
  c ≠ Panic → (∀ a, k a ≠ Panic) → rbind c k ≠ Panic.
Proof. intros Hc Hk. destruct c; [apply Hk|done|done]. Qed.

Lemma map_err_no_panic {E F A} (f : E → F) (c : Res E A) : c ≠ Panic → map_err f c ≠ Panic.
Proof. by destruct c. Qed.

Lemma ok_or_no_panic {E A} (o : option A) (e : E) : ok_or o e ≠ Panic.
Proof. by destruct o. Qed.

Create HintDb no_panic.
#[export] Hint Resolve rfor_no_panic map_err_no_panic ok_or_no_panic : no_panic.

(** An operation that never panics. *)
Definition panic_free {S E A} (m : ST S E A) : Prop := ∀ s, (m s).1 ≠ Panic.

Lemma panic_free_bind {S E A B} (m : ST S E A) (k : A → ST S E B) :
  panic_free m → (∀ a, panic_free (k a)) → panic_free (sbind m k).
Proof. intros Hm Hk s. unfold sbind. specialize (Hm s). destruct (m s) as [[a| |] s']; [apply Hk|done..]. Qed.

Lemma panic_free_lift {S E A} (c : Res E A) : c ≠ Panic → panic_free (slift (S := S) c).
Proof. intros Hc s. done. Qed.

Lemma panic_free_for {S E A} (f : A → ST S E unit) l :
  (∀ x, x ∈ l → panic_free (f x)) → panic_free (sfor f l).
Proof.
  induction l as [|x l IH]; intros Hf; [done|]. cbn [sfor]. apply panic_free_bind; [apply Hf; left|].
  intros _. apply IH. intros y Hy. apply Hf. by right.
Qed.

Lemma panic_free_smap {S E F A} (f : E → F) (m : ST S E A) : panic_free m → panic_free (smap_err f m).
Proof. intros Hm s. unfold smap_err. specialize (Hm s). destruct (m s) as [[]]; done. Qed.

Lemma panic_free_exec {S E A} (m : ST S E A) s : panic_free m → exec_on m s ≠ Panic.
Proof. intros Hm. unfold exec_on. specialize (Hm s). by destruct (m s) as [[]]. Qed.

#[export] Hint Resolve panic_free_lift panic_free_smap : no_panic.

Ltac solve_panic_free :=
  repeat lazymatch goal with
  | |- panic_free (sbind _ _) => apply panic_free_bind; [|intros ?]
  | |- panic_free (slift _) => apply panic_free_lift; repeat case_match; (done || auto with no_panic)
  | |- panic_free (if ?b then _ else _) => destruct b
  | |- panic_free _ => first [by eauto with no_panic | by intros ?]
  end.

(** A sequence of operations that succeeded. *)
Lemma sbind_ok {S E A B} (m : ST S E A) (k : A → ST S E B) s b s2 :
  sbind m k s = (Ok b, s2) ↔ ∃ a s1, m s = (Ok a, s1) ∧ k a s1 = (Ok b, s2).
Proof. unfold sbind. destruct (m s) as [[a|e|] s1]; naive_solver. Qed.

Lemma smap_ok {S E F A} (f : E → F) (m : ST S E A) s a s1 : smap_err f m s = (Ok a, s1) ↔ m s = (Ok a, s1).
Proof. unfold smap_err. destruct (m s) as [[x|e|] s2]; cbn [map_err]; naive_solver. Qed.

Lemma slift_ok {S E A} (c : Res E A) (s : S) a s1 : slift c s = (Ok a, s1) ↔ c = Ok a ∧ s1 = s.
Proof. unfold slift. naive_solver. Qed.

Lemma sfor_app {S E A} (f : A → ST S E unit) l1 l2 s :
  sfor f (l1 ++ l2) s = (sfor f l1 ;;! sfor f l2) s.
Proof.
  revert s. induction l1 as [|x l1 IH]; intros s; [done|].
  simpl. unfold sbind at 1 2 3. destruct (f x s) as [[[]| |] s']; [|done..].
  by rewrite IH.
Qed.

(** An invariant kept by the body is kept by the loop, on every path. *)
Lemma sfor_inv {S E A} (f : A → ST S E unit) (I : S → Prop) l s :
  (∀ x s, x ∈ l → I s → I (f x s).2) → I s → I (sfor f l s).2.
Proof.
  revert s. induction l as [|x l IH]; intros s Hf Hs; simpl; [done|].
  unfold sbind. pose proof (Hf x s ltac:(left) Hs) as Hx.
  destruct (f x s) as [[[]| |] s']; simpl in *; [|done..].
  apply IH; [|done]. intros y s'' Hy. apply Hf. by right.
Qed.

(** Splitting at a separator that does not occur to its left or to its right. *)
Lemma app_sep_inj_l {A} (c : A) x x' y y' :
  c ∉ x → c ∉ x' → x ++ c :: y = x' ++ c :: y' → x = x' ∧ y = y'.
Proof.
  revert x'. induction x as [|a x IH]; intros [|a' x'] Hx Hx' Heq; simplify_eq/=; [done|set_solver..|].
  destruct (IH x') as [-> ->]; [set_solver..|done|done].
Qed.

Lemma app_sep_inj_r {A} (c : A) x x' y y' :
  c ∉ y → c ∉ y' → x ++ c :: y = x' ++ c :: y' → x = x' ∧ y = y'.
Proof.
  intros Hy Hy' Heq. apply (f_equal reverse) in Heq.
  rewrite !reverse_app, !reverse_cons, <- !(assoc_L (++)) in Heq. simpl in Heq.
  apply app_sep_inj_l in Heq as [H1 H2]; [|by rewrite elem_of_reverse..].
  split; by apply (inj reverse).
Qed.

Lemma zlen_nonneg {A} (l : list A) : 0 ≤ zlen l.
Proof. unfold zlen. lia. Qed.

Lemma zlen_app {A} (l1 l2 : list A) : zlen (l1 ++ l2) = zlen l1 + zlen l2.
Proof. unfold zlen. rewrite length_app. lia. Qed.

#[export] Hint Resolve zlen_nonneg : tril.

Lemma filter_all {A} (P : A → Prop) `{!∀ x, Decision (P x)} (l : list A) :
  (∀ x, x ∈ l → P x) → filter P l = l.
Proof.
  induction l as [|x l IH]; intros Hl; [done|].
  rewrite filter_cons_True by (apply Hl; left). f_equal. apply IH. intros y Hy. apply Hl. by right.
Qed.

Lemma filter_none {A} (P : A → Prop) `{!∀ x, Decision (P x)} (l : list A) :
  (∀ x, x ∈ l → ¬ P x) → filter P l = [].
Proof.
  induction l as [|x l IH]; intros Hl; [done|].
  rewrite filter_cons_False by (apply Hl; left). apply IH. intros y Hy. apply Hl. by right.
Qed.

Lemma NoDup_filter_head {A} `{EqDecision A} (x : A) (l : list A) :
  NoDup (x :: l) → filter (λ y, y ≠ x) (x :: l) = l.
Proof.
  intros [Hx _]%NoDup_cons. rewrite filter_cons_False by auto.
  apply filter_all. by intros y Hy ->.
Qed.

Lemma omap_agree {A B} (f g : A → option B) (l : list A) :
  (∀ x, x ∈ l → f x = g x) → omap f l = omap g l.
Proof.
  intros Hl. apply list_omap_ext. induction l as [|x l IH]; constructor.
  - apply Hl. left.
  - apply IH. intros y Hy. apply Hl. by right.
Qed.

Lemma filter_agree {A} (P Q : A → Prop) `{!∀ x, Decision (P x)} `{!∀ x, Decision (Q x)} (l : list A) :
  (∀ x, x ∈ l → P x ↔ Q x) → filter P l = filter Q l.
Proof.
  induction l as [|x l IH]; intros Hl; [done|]. rewrite !filter_cons.
  rewrite IH by (intros y Hy; apply Hl; by right).
  assert (P x ↔ Q x) by (apply Hl; left). destruct (decide (P x)), (decide (Q x)); tauto || done.
Qed.

(** Nested loops run over the concatenation. *)
Lemma NoDup_fmap_elem {A B} (f : A → B) l x y :
  NoDup (f <$> l) → x ∈ l → y ∈ l → f x = f y → x = y.
Proof.
  intros Hnd (i&Hi)%list_elem_of_lookup_1 (j&Hj)%list_elem_of_lookup_1 Heq.
  assert (i = j) as <-; [|by rewrite Hi in Hj; injection Hj].
  eapply (NoDup_lookup (f <$> l)); [done|..]; rewrite list_lookup_fmap, ?Hi, ?Hj; simpl; [done|by rewrite Heq].
Qed.

Lemma fmap_cons_eq {A B} (f : A → B) x y l k :
  f <$> x :: l = f <$> y :: k → f x = f y ∧ f <$> l = f <$> k.
Proof. by intros [= ? ?]. Qed.

Lemma sfor_concat {S E A B} (f : A → ST S E unit) (g : B → list A) (l : list B) s :
  sfor (λ b, sfor f (g b)) l s = sfor f (l ≫= g) s.
Proof.
  revert s. induction l as [|b l IH]; intros s; [done|].
  change ((b :: l) ≫= g) with (g b ++ (l ≫= g)). rewrite sfor_app. cbn [sfor]. unfold sbind.
  destruct (sfor f (g b) s) as [[[]| |] s']; [|done..]. apply IH.
Qed.

Lemma Forall_sublist {A} (P : A → Prop) (l1 l2 : list A) : l1 `sublist_of` l2 → Forall P l2 → Forall P l1.
Proof.
  intros Hs Hl. rewrite Forall_forall in *. intros x Hx. apply Hl. by eapply elem_of_sublist.
Qed.
