(* ===== verification/Bytes.v ===== *)
(** * Bytes, strings and the integer codecs of the Rust standard library

    What the node uses of [std]: [uN::to_be_bytes]/[from_be_bytes], UTF-8
    validation ([String::from_utf8]), [str::trim], [{}] formatting of unsigned
    integers, and [slice::join].  A [Vec<u8>] is a [list byte]; a [String] is a
    Rocq [string], whose characters are the UTF-8 bytes. *)

From Stdlib Require Import ZArith Lia.
From Stdlib Require Import Strings.Byte.
From stdpp Require Import base strings list sets.
From S2P Require Import Prelude.

Abbreviation byte := Byte.byte.

#[export] Instance byte_eq_dec : EqDecision byte := Byte.byte_eq_dec.

(** ** Bytes as integers *)

Definition byte_to_Z (b : byte) : Z := Z.of_N (Byte.to_N b).

Definition byte_of_Z (z : Z) : byte :=
  match Byte.of_N (Z.to_N (z mod 256)) with
  | Some b => b
  | None => Byte.x00
  end.

(** ** Big-endian integers of [n] bytes *)

Fixpoint be_bytes (n : nat) (z : Z) : list byte :=
  match n with
  | O => []
  | S n' => byte_of_Z (z / 256 ^ Z.of_nat n') :: be_bytes n' z
  end.

Definition be_combine (l : list byte) : Z :=
  foldl (λ acc b, acc * 256 + byte_to_Z b) 0 l.

Definition to_be_bytes_u16 (z : Z) : list byte := be_bytes 2 z.
Definition to_be_bytes_u32 (z : Z) : list byte := be_bytes 4 z.
Definition to_be_bytes_u64 (z : Z) : list byte := be_bytes 8 z.

(** ** Strings and their bytes *)

Definition str_bytes (s : string) : list byte := String.list_byte_of_string s.
Definition bytes_str (l : list byte) : string := String.string_of_list_byte l.

(** ** UTF-8 *)

Definition cont (lo hi : Z) (b : byte) : bool := (lo <=? byte_to_Z b) && (byte_to_Z b <=? hi).

(** Decode a byte sequence into its code points; [None] when it is not
    well-formed UTF-8 (overlong forms, surrogates and values above U+10FFFF
    included). *)
Fixpoint utf8_decode (l : list byte) : option (list Z) :=
  match l with
  | [] => Some []
  | b0 :: l1 =>
    let z0 := byte_to_Z b0 in
    if z0 <? 128 then cons z0 <$> utf8_decode l1
    else if z0 <? 194 then None
    else
      match l1 with
      | [] => None
      | b1 :: l2 =>
        let c1 := byte_to_Z b1 - 128 in
        if z0 <? 224 then
          if cont 128 191 b1 then cons ((z0 - 192) * 64 + c1) <$> utf8_decode l2 else None
        else
          match l2 with
          | [] => None
          | b2 :: l3 =>
            let c2 := byte_to_Z b2 - 128 in
            if z0 <? 240 then
              if cont (if z0 =? 224 then 160 else 128) (if z0 =? 237 then 159 else 191) b1
                 && cont 128 191 b2
              then cons ((z0 - 224) * 4096 + c1 * 64 + c2) <$> utf8_decode l3 else None
            else
              match l3 with
              | [] => None
              | b3 :: l4 =>
                if (z0 <? 245)
                   && cont (if z0 =? 240 then 144 else 128) (if z0 =? 244 then 143 else 191) b1
                   && cont 128 191 b2 && cont 128 191 b3
                then cons ((z0 - 240) * 262144 + c1 * 4096 + c2 * 64 + (byte_to_Z b3 - 128))
                       <$> utf8_decode l4
                else None
              end
          end
      end
  end.

Definition utf8_valid (l : list byte) : bool :=
  match utf8_decode l with
  | Some _ => true
  | None => false
  end.

(** [String::from_utf8] *)
Definition from_utf8 (l : list byte) : option string :=
  if utf8_valid l then Some (bytes_str l) else None.

(** Unicode [White_Space], the property [str::trim] strips. *)
Definition is_whitespace (cp : Z) : bool :=
  ((9 <=? cp) && (cp <=? 13)) || (cp =? 32) || (cp =? 133) || (cp =? 160)
  || (cp =? 5760) || ((8192 <=? cp) && (cp <=? 8202)) || (cp =? 8232) || (cp =? 8233)
  || (cp =? 8239) || (cp =? 8287) || (cp =? 12288).

(** [s.trim().is_empty()]: every character is white space. *)
Definition trim_is_empty (s : string) : bool :=
  match utf8_decode (str_bytes s) with
  | Some cps => forallb is_whitespace cps
  | None => false
  end.

(** The UTF-8 encoding of a code point. *)
Definition utf8_encode_char (cp : Z) : list byte :=
  if cp <? 128 then [byte_of_Z cp]
  else if cp <? 2048 then [byte_of_Z (192 + cp / 64); byte_of_Z (128 + cp mod 64)]
  else if cp <? 65536 then
    [byte_of_Z (224 + cp / 4096); byte_of_Z (128 + cp / 64 mod 64); byte_of_Z (128 + cp mod 64)]
  else
    [byte_of_Z (240 + cp / 262144); byte_of_Z (128 + cp / 4096 mod 64); byte_of_Z (128 + cp / 64 mod 64);
     byte_of_Z (128 + cp mod 64)].

(** [s.trim()] *)
Definition str_trim (s : string) : string :=
  match utf8_decode (str_bytes s) with
  | Some cps =>
    let kept := reverse (drop_while is_whitespace (reverse (drop_while is_whitespace cps))) in
    bytes_str (kept ≫= utf8_encode_char)
  | None => s
  end.

(** ** Decimal formatting *)

Definition digit (z : Z) : Ascii.ascii := Ascii.ascii_of_N (Z.to_N (48 + z)).

Fixpoint fmt_aux (fuel : nat) (z : Z) (acc : string) : string :=
  match fuel with
  | O => acc
  | S f =>
    let acc' := String (digit (z mod 10)) acc in
    if z / 10 =? 0 then acc' else fmt_aux f (z / 10) acc'
  end.

(** [format!("{}", z)] for an unsigned integer; [log2 z + 1] bounds the number
    of decimal digits. *)
Definition fmt_uint (z : Z) : string := fmt_aux (S (Z.to_nat (Z.log2 z))) z "".

(** The continuation bytes a first byte asks for; [None] for a byte that starts
    no character. *)
Definition utf8_tail (z0 : Z) : option (list (Z * Z)) :=
  if z0 <? 128 then Some []
  else if z0 <? 194 then None
  else if z0 <? 224 then Some [(128, 191)]
  else if z0 <? 240 then Some [(if z0 =? 224 then 160 else 128, if z0 =? 237 then 159 else 191); (128, 191)]
  else if z0 <? 245 then Some [(if z0 =? 240 then 144 else 128, if z0 =? 244 then 143 else 191); (128, 191); (128, 191)]
  else None.

(** The first continuation byte that is missing ([Some None]) or out of range,
    with the number of bytes before it. *)
Fixpoint utf8_tail_error (tail : list (Z * Z)) (l : list byte) (seen : Z) : option (option Z) :=
  match tail, l with
  | [], _ => None
  | _ :: _, [] => Some None
  | (lo, hi) :: tail', b :: l' => if cont lo hi b then utf8_tail_error tail' l' (seen + 1) else Some (Some seen)
  end.

(** [Utf8Error]: [valid_up_to] and [error_len] of the first malformed character. *)
Fixpoint utf8_error_from (fuel : nat) (pos : Z) (l : list byte) : Z * option Z :=
  match fuel, l with
  | S f, b0 :: l1 =>
    match utf8_tail (byte_to_Z b0) with
    | None => (pos, Some 1)
    | Some tail =>
      match utf8_tail_error tail l1 1 with
      | Some e => (pos, e)
      | None => utf8_error_from f (pos + 1 + Z.of_nat (length tail)) (drop (length tail) l1)
      end
    end
  | _, _ => (pos, None)
  end.

(** The message of the error of [String::from_utf8]. *)
Definition utf8_error (l : list byte) : string :=
  match utf8_error_from (length l) 0 l with
  | (valid_up_to, Some error_len) =>
    "invalid utf-8 sequence of " +:+ fmt_uint error_len +:+ " bytes from index " +:+ fmt_uint valid_up_to
  | (valid_up_to, None) => "incomplete utf-8 byte sequence from index " +:+ fmt_uint valid_up_to
  end.

Example utf8_error_examples :
  utf8_error [Byte.x61; Byte.xe2; Byte.x82; Byte.x61] = "invalid utf-8 sequence of 2 bytes from index 1"
  ∧ utf8_error [Byte.xc3; Byte.xa9; Byte.xf0; Byte.x9f] = "incomplete utf-8 byte sequence from index 2".
Proof. split; reflexivity. Qed.

(** [format!("{:#x}", z)] *)
Definition hex_digit (z : Z) : Ascii.ascii :=
  Ascii.ascii_of_N (Z.to_N (if z <? 10 then 48 + z else 87 + z)).

Fixpoint fmt_hex_aux (fuel : nat) (z : Z) (acc : string) : string :=
  match fuel with
  | O => acc
  | S f =>
    let acc' := String (hex_digit (z mod 16)) acc in
    if z / 16 =? 0 then acc' else fmt_hex_aux f (z / 16) acc'
  end.

Definition fmt_hex_alt (z : Z) : string := "0x" +:+ fmt_hex_aux (S (Z.to_nat (Z.log2 z))) z "".

(** The value of a string of decimal digits, most significant first. *)
Definition digits_value (s : string) : Z :=
  foldl (λ acc b, acc * 10 + (byte_to_Z b - 48)) 0 (str_bytes s).

(** [parts.join(sep)] *)
Fixpoint join (sep : string) (parts : list string) : string :=
  match parts with
  | [] => ""
  | [p] => p
  | p :: parts' => p +:+ sep +:+ join sep parts'
  end.

(** ** Lemmas: bytes and integers *)

Lemma byte_to_Z_range b : 0 ≤ byte_to_Z b < 256.
Proof. unfold byte_to_Z. pose proof (Byte.to_N_bounded b). lia. Qed.

Lemma byte_to_of_Z z : byte_to_Z (byte_of_Z z) = z mod 256.
Proof.
  unfold byte_of_Z, byte_to_Z.
  pose proof (Z.mod_pos_bound z 256 ltac:(lia)) as Hb.
  destruct (Byte.of_N (Z.to_N (z mod 256))) as [b|] eqn:Hz.
  - apply Byte.to_of_N in Hz. rewrite Hz. lia.
  - apply Byte.of_N_None_iff in Hz. lia.
Qed.

Lemma byte_to_Z_inj b1 b2 : byte_to_Z b1 = byte_to_Z b2 → b1 = b2.
Proof.
  unfold byte_to_Z. intros H. apply N2Z.inj in H.
  pose proof (Byte.of_to_N b1) as H1. rewrite H, Byte.of_to_N in H1. congruence.
Qed.

Lemma byte_of_to_Z b : byte_of_Z (byte_to_Z b) = b.
Proof.
  apply byte_to_Z_inj. rewrite byte_to_of_Z. apply Z.mod_small, byte_to_Z_range.
Qed.

Lemma length_be_bytes n z : length (be_bytes n z) = n.
Proof. induction n; simpl; congruence. Qed.

Lemma be_combine_acc l acc :
  foldl (λ acc b, acc * 256 + byte_to_Z b) acc l = acc * 256 ^ zlen l + be_combine l.
Proof.
  unfold be_combine, zlen. revert acc. induction l as [|b l IH]; intros acc; simpl.
  { rewrite Z.pow_0_r. lia. }
  rewrite IH, (IH (0 * 256 + _)).
  replace (Z.of_nat (S (length l))) with (Z.of_nat (length l) + 1) by lia.
  rewrite Z.pow_add_r by lia. lia.
Qed.

Lemma be_combine_cons b l : be_combine (b :: l) = byte_to_Z b * 256 ^ zlen l + be_combine l.
Proof. unfold be_combine at 1. simpl. rewrite be_combine_acc. lia. Qed.

Lemma be_combine_range l : 0 ≤ be_combine l < 256 ^ zlen l.
Proof.
  induction l as [|b l IH].
  { unfold be_combine, zlen. simpl. lia. }
  rewrite be_combine_cons. pose proof (byte_to_Z_range b).
  unfold zlen in *. simpl length.
  replace (Z.of_nat (S (length l))) with (Z.of_nat (length l) + 1) by lia.
  rewrite Z.pow_add_r by lia. nia.
Qed.

Lemma be_combine_bytes n z : be_combine (be_bytes n z) = z mod 256 ^ Z.of_nat n.
Proof.
  induction n as [|n IH].
  { simpl. rewrite Z.pow_0_r, Z.mod_1_r. done. }
  cbn [be_bytes]. rewrite be_combine_cons, byte_to_of_Z, IH.
  unfold zlen. rewrite length_be_bytes.
  replace (Z.of_nat (S n)) with (Z.of_nat n + 1) by lia.
  rewrite Z.pow_add_r, Z.pow_1_r by lia.
  rewrite (Z.rem_mul_r z) by lia. lia.
Qed.

Lemma be_bytes_ext n z1 z2 :
  z1 mod 256 ^ Z.of_nat n = z2 mod 256 ^ Z.of_nat n → be_bytes n z1 = be_bytes n z2.
Proof.
  revert z1 z2. induction n as [|n IH]; intros z1 z2 Heq; [done|].
  replace (Z.of_nat (S n)) with (Z.of_nat n + 1) in Heq by lia.
  rewrite Z.pow_add_r, Z.pow_1_r in Heq by lia.
  rewrite !(Z.rem_mul_r _ (256 ^ Z.of_nat n)) in Heq by lia.
  pose proof (Z.mod_pos_bound z1 (256 ^ Z.of_nat n) ltac:(lia)).
  pose proof (Z.mod_pos_bound z2 (256 ^ Z.of_nat n) ltac:(lia)).
  pose proof (Z.mod_pos_bound (z1 / 256 ^ Z.of_nat n) 256 ltac:(lia)).
  pose proof (Z.mod_pos_bound (z2 / 256 ^ Z.of_nat n) 256 ltac:(lia)).
  assert ((z1 / 256 ^ Z.of_nat n) mod 256 = (z2 / 256 ^ Z.of_nat n) mod 256) as Hhi by nia.
  cbn [be_bytes]. f_equal.
  - apply byte_to_Z_inj. by rewrite !byte_to_of_Z.
  - apply IH. rewrite Hhi in Heq. lia.
Qed.

Lemma be_bytes_combine l n : length l = n → be_bytes n (be_combine l) = l.
Proof.
  intros <-. induction l as [|b l IH]; [done|].
  pose proof (be_combine_range l) as Hr. unfold zlen in Hr.
  pose proof (byte_to_Z_range b) as Hb.
  cbn [length be_bytes]. rewrite be_combine_cons. unfold zlen. f_equal.
  - rewrite Z.div_add_l, Z.div_small, Z.add_0_r by lia. apply byte_of_to_Z.
  - etrans; [|exact IH]. apply be_bytes_ext. rewrite Z.add_comm, Z.mod_add by lia. done.
Qed.

Lemma be_combine_u64 z : in_u64 z → be_combine (to_be_bytes_u64 z) = z.
Proof.
  unfold in_u64, u64_max, to_be_bytes_u64. intros. rewrite be_combine_bytes.
  apply Z.mod_small. change (256 ^ Z.of_nat 8) with 18446744073709551616. lia.
Qed.

Lemma be_combine_u32 z : in_u32 z → be_combine (to_be_bytes_u32 z) = z.
Proof.
  unfold in_u32, u32_max, to_be_bytes_u32. intros. rewrite be_combine_bytes.
  apply Z.mod_small. change (256 ^ Z.of_nat 4) with 4294967296. lia.
Qed.

Lemma be_combine_in_u64 l : length l = 8%nat → in_u64 (be_combine l).
Proof.
  intros Hl. pose proof (be_combine_range l) as Hr. unfold zlen in Hr. rewrite Hl in Hr.
  change (256 ^ Z.of_nat 8) with 18446744073709551616 in Hr. unfold in_u64, u64_max. lia.
Qed.

Lemma be_combine_in_u32 l : length l = 4%nat → in_u32 (be_combine l).
Proof.
  intros Hl. pose proof (be_combine_range l) as Hr. unfold zlen in Hr. rewrite Hl in Hr.
  change (256 ^ Z.of_nat 4) with 4294967296 in Hr. unfold in_u32, u32_max. lia.
Qed.

(** ** Lemmas: strings *)

Lemma bytes_str_bytes s : bytes_str (str_bytes s) = s.
Proof. apply String.string_of_list_byte_of_string. Qed.

Lemma str_bytes_str l : str_bytes (bytes_str l) = l.
Proof. apply String.list_byte_of_string_of_list_byte. Qed.

#[export] Instance str_bytes_inj : Inj (=) (=) str_bytes.
Proof. intros s1 s2 H. by rewrite <- (bytes_str_bytes s1), H, bytes_str_bytes. Qed.

Lemma str_bytes_cons a s : str_bytes (String a s) = Ascii.byte_of_ascii a :: str_bytes s.
Proof. done. Qed.

Lemma str_bytes_app s1 s2 : str_bytes (s1 +:+ s2) = str_bytes s1 ++ str_bytes s2.
Proof.
  induction s1 as [|a s1 IH]; [done|].
  change (String a s1 +:+ s2) with (String a (s1 +:+ s2)).
  by rewrite !str_bytes_cons, IH.
Qed.

Lemma str_bytes_length s : length (str_bytes s) = String.length s.
Proof. induction s as [|a s IH]; [done|]. rewrite str_bytes_cons. simpl. by rewrite IH. Qed.

Lemma from_utf8_Some l s : from_utf8 l = Some s ↔ utf8_valid l = true ∧ l = str_bytes s.
Proof.
  unfold from_utf8. split.
  - intros H. case_match; [|done]. injection H as <-. by rewrite str_bytes_str.
  - intros [Hv ->]. by rewrite Hv, bytes_str_bytes.
Qed.

Lemma from_utf8_str s : utf8_valid (str_bytes s) = true → from_utf8 (str_bytes s) = Some s.
Proof. intros. by apply from_utf8_Some. Qed.

(** ASCII text is valid UTF-8. *)
Lemma utf8_decode_ascii l :
  Forall (λ b, byte_to_Z b < 128) l → utf8_decode l = Some (byte_to_Z <$> l).
Proof.
  induction 1 as [|b l Hb _ IH]; [done|]. cbn [utf8_decode].
  destruct (Z.ltb_spec (byte_to_Z b) 128); [|lia]. by rewrite IH.
Qed.

Lemma utf8_decode_app l1 l2 c1 :
  utf8_decode l1 = Some c1 → utf8_decode (l1 ++ l2) = (λ c2, c1 ++ c2) <$> utf8_decode l2.
Proof.
  assert (∀ n l1 c1, (length l1 ≤ n)%nat → utf8_decode l1 = Some c1 →
    utf8_decode (l1 ++ l2) = (λ c2, c1 ++ c2) <$> utf8_decode l2) as Hn; [|by apply (Hn (length l1))].
  clear l1 c1. induction n as [|n IH]; intros [|b0 l1] c1 Hlen;
    [intros [= <-]; simpl; by destruct (utf8_decode l2)|simpl in Hlen; lia|
     intros [= <-]; simpl; by destruct (utf8_decode l2)|].
  assert (∀ z l c, (length l ≤ n)%nat → cons z <$> utf8_decode l = Some c →
    cons z <$> utf8_decode (l ++ l2) = (λ c2, c ++ c2) <$> utf8_decode l2) as Hstep.
  { intros z l c Hl Hc. destruct (utf8_decode l) as [cl|] eqn:Hd; [|done]. injection Hc as <-.
    rewrite (IH l cl Hl Hd). by destruct (utf8_decode l2). }
  simpl in Hlen. cbn [app utf8_decode]. destruct (byte_to_Z b0 <? 128); [apply Hstep; lia|].
  destruct (byte_to_Z b0 <? 194); [done|]. destruct l1 as [|b1 l1]; [done|]. simpl in Hlen. cbn [app].
  destruct (byte_to_Z b0 <? 224); [destruct (cont _ _ _); [apply Hstep; lia|done]|].
  destruct l1 as [|b2 l1]; [done|]. simpl in Hlen. cbn [app].
  destruct (byte_to_Z b0 <? 240); [destruct (cont _ _ b1 && _); [apply Hstep; lia|done]|].
  destruct l1 as [|b3 l1]; [done|]. simpl in Hlen. cbn [app]. destruct (_ && _); [apply Hstep; lia|done].
Qed.

Lemma utf8_valid_app l1 l2 : utf8_valid l1 = true → utf8_valid l2 = true → utf8_valid (l1 ++ l2) = true.
Proof.
  unfold utf8_valid. destruct (utf8_decode l1) as [c1|] eqn:H1; [|done]. intros _.
  rewrite (utf8_decode_app _ _ _ H1). by destruct (utf8_decode l2).
Qed.

Lemma utf8_valid_ascii l : Forall (λ b, byte_to_Z b < 128) l → utf8_valid l = true.
Proof. intros H. unfold utf8_valid. by rewrite (utf8_decode_ascii _ H). Qed.

(** ** Lemmas: decimal formatting *)

Definition is_digit_byte (b : byte) : Prop := 48 ≤ byte_to_Z b ≤ 57.

Lemma digit_byte z : 0 ≤ z < 10 → byte_to_Z (Ascii.byte_of_ascii (digit z)) = 48 + z.
Proof.
  intros Hz. unfold digit.
  assert (z = 0 ∨ z = 1 ∨ z = 2 ∨ z = 3 ∨ z = 4 ∨ z = 5 ∨ z = 6 ∨ z = 7 ∨ z = 8 ∨ z = 9) as Hc
    by lia.
  repeat destruct Hc as [-> | Hc]; [done..|]. by subst.
Qed.

Lemma fmt_aux_digits fuel z acc :
  Forall is_digit_byte (str_bytes acc) → Forall is_digit_byte (str_bytes (fmt_aux fuel z acc)).
Proof.
  revert z acc. induction fuel as [|f IH]; intros z acc Hacc; simpl; [done|].
  assert (Forall is_digit_byte (str_bytes (String (digit (z mod 10)) acc))).
  { rewrite str_bytes_cons. constructor; [|done]. unfold is_digit_byte.
    pose proof (Z.mod_pos_bound z 10 ltac:(lia)). rewrite digit_byte; lia. }
  case_match; [done|]. by apply IH.
Qed.

Lemma fmt_uint_digits z : Forall is_digit_byte (str_bytes (fmt_uint z)).
Proof. apply fmt_aux_digits. constructor. Qed.

Lemma digits_value_acc l acc :
  foldl (λ acc b, acc * 10 + (byte_to_Z b - 48)) acc l
  = acc * 10 ^ zlen l + foldl (λ acc b, acc * 10 + (byte_to_Z b - 48)) 0 l.
Proof.
  unfold zlen. revert acc. induction l as [|b l IH]; intros acc; simpl.
  { rewrite Z.pow_0_r. lia. }
  rewrite IH, (IH (0 * 10 + _)).
  replace (Z.of_nat (S (length l))) with (Z.of_nat (length l) + 1) by lia.
  rewrite Z.pow_add_r by lia. lia.
Qed.

Lemma fmt_aux_value fuel z acc :
  0 ≤ z < 2 ^ Z.of_nat fuel →
  digits_value (fmt_aux fuel z acc)
  = z * 10 ^ zlen (str_bytes acc) + digits_value acc.
Proof.
  revert z acc. induction fuel as [|f IH]; intros z acc Hz; cbn [fmt_aux].
  { rewrite Z.pow_0_r in Hz. assert (z = 0) as -> by lia. lia. }
  pose proof (Z.mod_pos_bound z 10 ltac:(lia)).
  pose proof (Z.div_mod z 10 ltac:(lia)) as Hdm.
  assert (digits_value (String (digit (z mod 10)) acc)
          = (z mod 10) * 10 ^ zlen (str_bytes acc) + digits_value acc) as Hcons.
  { unfold digits_value at 1. rewrite str_bytes_cons. simpl.
    rewrite digits_value_acc, digit_byte by lia. unfold digits_value. lia. }
  replace (Z.of_nat (S f)) with (Z.of_nat f + 1) in Hz by lia.
  rewrite Z.pow_add_r in Hz by lia.
  destruct (Z.eqb_spec (z / 10) 0) as [H0|H0].
  - rewrite Hcons. nia.
  - rewrite IH, Hcons by (split; [apply Z.div_pos|apply Z.div_lt_upper_bound]; lia).
    rewrite str_bytes_cons. unfold zlen. simpl length.
    replace (Z.of_nat (S (length (str_bytes acc)))) with (Z.of_nat (length (str_bytes acc)) + 1) by lia.
    rewrite Z.pow_add_r by lia. rewrite Hdm at 3. ring.
Qed.

Lemma digits_value_fmt z : 0 ≤ z → digits_value (fmt_uint z) = z.
Proof.
  intros Hz. unfold fmt_uint. rewrite fmt_aux_value.
  - unfold digits_value. simpl. change (zlen (str_bytes "")) with 0. lia.
  - destruct (decide (z = 0)) as [->|]; [simpl; lia|].
    pose proof (Z.log2_spec z ltac:(lia)). pose proof (Z.log2_nonneg z).
    replace (Z.of_nat (S (Z.to_nat (Z.log2 z)))) with (Z.succ (Z.log2 z)) by lia. lia.
Qed.

Lemma fmt_uint_inj z1 z2 : 0 ≤ z1 → 0 ≤ z2 → fmt_uint z1 = fmt_uint z2 → z1 = z2.
Proof.
  intros H1 H2 H. by rewrite <- (digits_value_fmt z1), <- (digits_value_fmt z2), H.
Qed.

Lemma fmt_uint_no b z : ¬ is_digit_byte b → b ∉ str_bytes (fmt_uint z).
Proof.
  intros Hb Hin. pose proof (fmt_uint_digits z) as H. rewrite Forall_forall in H. by apply H in Hin.
Qed.

(** ** Lemmas: joining *)

Lemma str_bytes_nonempty s : s ≠ "" → str_bytes s ≠ [].
Proof. destruct s; done. Qed.

Lemma join_inj (sep : string) (c : byte) l1 l2 :
  str_bytes sep = [c] →
  Forall (λ s, s ≠ "" ∧ c ∉ str_bytes s) l1 →
  Forall (λ s, s ≠ "" ∧ c ∉ str_bytes s) l2 →
  str_bytes (join sep l1) = str_bytes (join sep l2) → l1 = l2.
Proof.
  intros Hsep H1. revert l2.
  assert (∀ p q r, str_bytes (join sep (p :: q :: r))
                   = str_bytes p ++ c :: str_bytes (join sep (q :: r))) as Hjoin.
  { intros. cbn [join]. by rewrite !str_bytes_app, Hsep. }
  induction H1 as [|p l1 [Hp0 Hp] Hl1 IH]; intros l2 H2 Heq.
  - destruct H2 as [|p' l2 [Hp0' _] _]; [done|].
    destruct l2; [cbn [join] in Heq|rewrite Hjoin in Heq];
      pose proof (str_bytes_nonempty _ Hp0'); by destruct (str_bytes p').
  - destruct H2 as [|p' l2 [Hp0' Hp'] Hl2].
    { destruct l1; [cbn [join] in Heq|rewrite Hjoin in Heq];
        pose proof (str_bytes_nonempty _ Hp0); by destruct (str_bytes p). }
    destruct l1 as [|q l1], l2 as [|q' l2]; rewrite ?Hjoin in Heq.
    + cbn [join] in Heq. apply (inj str_bytes) in Heq as ->. done.
    + cbn [join] in Heq. rewrite Heq in Hp. set_solver.
    + cbn [join] in Heq. rewrite <- Heq in Hp'. set_solver.
    + apply app_sep_inj_l in Heq as [->%(inj str_bytes) Heq]; [|done..].
      f_equal. by apply IH.
Qed.

#[global] Arguments be_bytes : simpl never.
#[global] Arguments be_combine : simpl never.
#[global] Arguments to_be_bytes_u16 : simpl never.
#[global] Arguments to_be_bytes_u32 : simpl never.
#[global] Arguments to_be_bytes_u64 : simpl never.
#[global] Arguments str_bytes : simpl never.
#[global] Arguments bytes_str : simpl never.
#[global] Arguments fmt_uint : simpl never.
#[global] Arguments utf8_valid : simpl never.
