(* ===== verification/Io.v ===== *)
(** * Files ([std::fs], [std::io], [operator_msg.rs])

    What the node uses of the file system: named files with their contents,
    and for each call an outcome that the environment chooses. A call may
    succeed, fail before it does anything, or fail after it transferred some of
    its bytes; a run is determined by the contents and the list of outcomes
    ([d_faults], empty means that everything succeeds). [Path::exists] returns
    no error: it answers [false] when the underlying [stat] fails, which is an
    outcome of its own ([IoStat false]) in the same list. *)

From Stdlib Require Import ZArith Lia Ascii.
From stdpp Require Import base strings list gmap.
From S2P Require Import Prelude Bytes.

Inductive IoErrorKind := InvalidData | InvalidInput | NotFound | AlreadyExists | ConnectionReset | BrokenPipe | UnexpectedEof | WouldBlock | TimedOut | Other.

Inductive IoError := mkIoError (kind : IoErrorKind) (msg : string).

Definition IoError_display (e : IoError) : string := let 'mkIoError _ s := e in s.
Definition IoError_kind (e : IoError) : IoErrorKind := let 'mkIoError k _ := e in k.

(** [IoOk] and [IoFail] are outcomes of the calls that return an error,
    [IoStat] of an existence check. *)
Inductive Outcome :=
| IoOk
| IoFail (transferred : option nat) (e : IoError)
| IoStat (ok : bool).

Record Disk := mkDisk {
  d_files : gmap string (list byte);
  d_faults : list Outcome
}.

(** The outcome of the next call. *)
Definition next_outcome (d : Disk) : Outcome * Disk :=
  match d_faults d with
  | [] => (IoOk, d)
  | o :: os => (o, mkDisk (d_files d) os)
  end.

Definition set_file (path : string) (data : list byte) (d : Disk) : Disk :=
  mkDisk (<[ path := data ]> (d_files d)) (d_faults d).

Definition file_data (d : Disk) (path : string) : list byte := default [] (d_files d !! path).

(** A call that moves no data: [open] of an existing file, [metadata], [seek],
    [sync_all], a lock. *)
Definition io_call : ST Disk IoError unit := λ d,
  match next_outcome d with
  | (IoFail _ e, d') => (Err e, d')
  | (_, d') => (Ok tt, d')
  end.

(** [Path::exists]: [fs::metadata(path).is_ok()], so [false] also when the
    [stat] call fails. A check whose outcome the list leaves open succeeds. *)
Definition path_exists {E} (path : string) : ST Disk E bool := λ d,
  let found := bool_decide (is_Some (d_files d !! path)) in
  match d_faults d with
  | IoStat ok :: os => (Ok (ok && found), mkDisk (d_files d) os)
  | _ => (Ok found, d)
  end.

(** No existence check fails from here on. *)
Definition stat_works (o : Outcome) : bool := match o with IoStat ok => ok | _ => true end.
Definition stats_work (d : Disk) : Prop := forallb stat_works (d_faults d) = true.

(** [OpenOptions::new().create(true)..open(path)] *)
Definition open_create (path : string) : ST Disk IoError unit :=
  io_call ;;!
  let! d := sget in
  match d_files d !! path with
  | Some _ => sret tt
  | None => sput (set_file path [] d)
  end.

(** [fs::read(path)] *)
Definition fs_read (path : string) : ST Disk IoError (list byte) :=
  io_call ;;!
  let! d := sget in
  slift (ok_or (d_files d !! path) (mkIoError NotFound "No such file or directory")).

(** [file.write_all(data)] on a file opened in append mode *)
Definition write_all_append (path : string) (data : list byte) : ST Disk IoError unit := λ d,
  match next_outcome d with
  | (IoFail None e, d') => (Err e, d')
  | (IoFail (Some k) e, d') => (Err e, set_file path (file_data d' path ++ take k data) d')
  | (_, d') => (Ok tt, set_file path (file_data d' path ++ data) d')
  end.

(** [fs::write(path, data)]: create or truncate, then write *)
Definition fs_write (path : string) (data : list byte) : ST Disk IoError unit := λ d,
  match next_outcome d with
  | (IoFail None e, d') => (Err e, d')
  | (IoFail (Some k) e, d') => (Err e, set_file path (take k data) d')
  | (_, d') => (Ok tt, set_file path data d')
  end.

(** [fs::rename(src, dest)], atomic *)
Definition fs_rename (src dest : string) : ST Disk IoError unit :=
  io_call ;;!
  let! d := sget in
  match d_files d !! src with
  | Some data => sput (mkDisk (<[ dest := data ]> (delete src (d_files d))) (d_faults d))
  | None => sfail (mkIoError NotFound "No such file or directory")
  end.

(** [fs::read_to_string(path)] *)
Definition fs_read_to_string (path : string) : ST Disk IoError string :=
  let! data := fs_read path in
  slift (ok_or (from_utf8 data) (mkIoError InvalidData "stream did not contain valid UTF-8")).

(** [OpenOptions::new().create_new(true)..open(path)] *)
Definition open_create_new (path : string) : ST Disk IoError unit :=
  io_call ;;!
  let! d := sget in
  match d_files d !! path with
  | Some _ => sfail (mkIoError AlreadyExists "File exists")
  | None => sput (set_file path [] d)
  end.

(** [fs::hard_link(src, dest)]: the new name has the file's contents; nothing
    writes through either name afterwards. *)
Definition fs_hard_link (src dest : string) : ST Disk IoError unit :=
  io_call ;;!
  let! d := sget in
  match d_files d !! src, d_files d !! dest with
  | None, _ => sfail (mkIoError NotFound "No such file or directory")
  | _, Some _ => sfail (mkIoError AlreadyExists "File exists")
  | Some data, None => sput (set_file dest data d)
  end.

(** [let _ = fs::remove_file(path)] *)
Definition try_remove_file (path : string) : Disk → Disk := λ d,
  match io_call d with
  | (Ok _, d') => mkDisk (delete path (d_files d')) (d_faults d')
  | (_, d') => d'
  end.

(** A call whose failure is only reported to the operator. *)
Definition try_call : Disk → bool * Disk := λ d,
  match io_call d with
  | (Ok _, d') => (true, d')
  | (_, d') => (false, d')
  end.

(** [ExclusiveFileLock::acquire_exclusive]: open or create the lock file, then
    wait for the lock. *)
Definition acquire_exclusive (path : string) : ST Disk IoError unit :=
  open_create path ;;!
  io_call.

(** [ExclusiveFileLock::try_acquire_exclusive] on Unix: whether the lock was
    obtained. *)
Definition try_acquire_exclusive (path : string) : ST Disk IoError bool :=
  open_create path ;;!
  (λ d, match io_call d with
        | (Ok _, d') => (Ok true, d')
        | (Err e, d') =>
          (match IoError_kind e with WouldBlock => Ok false | _ => Err e end, d')
        | (Panic, d') => (Panic, d')
        end).

(** ** Paths

    [std::path] on Unix, for paths without trailing or repeated separators. *)

(** Split at the last occurrence of a character. *)
Fixpoint split_last (c : Ascii.ascii) (s : string) : option (string * string) :=
  match s with
  | "" => None
  | String a s' =>
    match split_last c s' with
    | Some (l, r) => Some (String a l, r)
    | None => if Ascii.eqb a c then Some ("", s') else None
    end
  end.

Definition path_parent (path : string) : string :=
  match split_last "/"%char path with
  | Some (dir, _) => if String.eqb dir "" then "/" else dir
  | None => ""
  end.

Definition path_join (dir name : string) : string :=
  if String.eqb dir "" then name
  else
    match split_last "/"%char dir with
    | Some (_, "") => dir +:+ name
    | _ => dir +:+ "/" +:+ name
    end.

(** A file name with its extension replaced. *)
Definition extended (name ext : string) : string :=
  let stem :=
    match split_last "."%char name with
    | Some (stem, _) => if String.eqb stem "" then name else stem
    | None => name
    end in
  stem +:+ "." +:+ ext.

(** [path.with_extension(ext)] *)
Definition with_extension (path ext : string) : string :=
  match split_last "/"%char path with
  | Some (dir, name) => dir +:+ "/" +:+ extended name ext
  | None => extended path ext
  end.

Definition file_name (path : string) : string :=
  match split_last "/"%char path with
  | Some (_, name) => name
  | None => path
  end.

Lemma str_app_assoc (a b c : string) : (a +:+ b) +:+ c = a +:+ b +:+ c.
Proof. induction a as [|x a IH]; [done|]. change (String x ((a +:+ b) +:+ c) = String x (a +:+ b +:+ c)). by rewrite IH. Qed.

Lemma split_last_app c l r : split_last c r = None → split_last c (l +:+ String c r) = Some (l, r).
Proof.
  intros Hr. induction l as [|a l IH].
  - change (split_last c (String c r) = Some ("", r)). cbn [split_last]. by rewrite Hr, Ascii.eqb_refl.
  - change (match split_last c (l +:+ String c r) with
            | Some (l0, r0) => Some (String a l0, r0)
            | None => if Ascii.eqb a c then Some ("", l +:+ String c r) else None
            end = Some (String a l, r)). by rewrite IH.
Qed.

Lemma split_last_eq c s l r : split_last c s = Some (l, r) → s = l +:+ String c r.
Proof.
  revert l r. induction s as [|a s IH]; intros l r; [done|]. cbn [split_last].
  destruct (split_last c s) as [[l' r']|].
  - intros [= <- <-]. change (String a s = String a (l' +:+ String c r')). by rewrite (IH l' r').
  - destruct (Ascii.eqb_spec a c) as [->|]; [|done]. by intros [= <- <-].
Qed.

(** The file name of a path in a directory. Paths with different file names
    are different. *)
Lemma file_name_join dir name : split_last "/"%char name = None → file_name (path_join dir name) = name.
Proof.
  intros Hn. unfold path_join, file_name. destruct (String.eqb dir ""); [by rewrite Hn|].
  destruct (split_last _ dir) as [[l [|a r]]|] eqn:Hd.
  - rewrite (split_last_eq _ _ _ _ Hd), str_app_assoc. change (String "/"%char "" +:+ name) with (String "/"%char name).
    by rewrite split_last_app.
  - change ("/" +:+ name) with (String "/"%char name). by rewrite split_last_app.
  - change ("/" +:+ name) with (String "/"%char name). by rewrite split_last_app.
Qed.

Lemma file_name_extension path ext :
  split_last "/"%char (extended (file_name path) ext) = None →
  file_name (with_extension path ext) = extended (file_name path) ext.
Proof.
  assert (∀ p, file_name p = match split_last "/"%char p with Some (_, n) => n | None => p end) as Hfn by done.
  unfold with_extension. rewrite (Hfn path). destruct (split_last _ path) as [[dir name]|]; intros Hn.
  - unfold file_name. change ("/" +:+ extended name ext) with (String "/"%char (extended name ext)). by rewrite split_last_app.
  - unfold file_name. by rewrite Hn.
Qed.

(** ** Operator message prefixes *)

Definition PFX_STARTUP : string := "[startup]".
Definition PFX_STORAGE : string := "[storage]".
Definition PFX_SYNC : string := "[sync]".
Definition PFX_PEER : string := "[peer]".
Definition PFX_MEMPOOL : string := "[mempool]".
Definition PFX_SEAL : string := "[seal]".
Definition PFX_PENDING : string := "[pending]".

(** ** Reading at a position of a buffer *)

(** [&data[a..b]] *)
Definition byte_slice (data : list byte) (a b : Z) : list byte :=
  take (Z.to_nat (b - a)) (drop (Z.to_nat a) data).

(** [u32::from_be_bytes([data[pos], .., data[pos + 3]])] *)
Definition u32_at (data : list byte) (pos : Z) : Z := be_combine (byte_slice data pos (pos + 4)).

(** [rest] is what follows [pos]. *)
Definition at_pos (data : list byte) (pos : Z) (rest : list byte) : Prop :=
  0 ≤ pos ≤ zlen data ∧ drop (Z.to_nat pos) data = rest.

Lemma at_pos_start data : at_pos data 0 data.
Proof. split; [unfold zlen; lia|done]. Qed.

Lemma at_pos_len data pos rest : at_pos data pos rest → zlen data = pos + zlen rest.
Proof. intros [Hp <-]. unfold zlen in *. rewrite length_drop. lia. Qed.

Lemma at_pos_advance data pos a rest : at_pos data pos (a ++ rest) → at_pos data (pos + zlen a) rest.
Proof.
  intros Hat. pose proof (at_pos_len _ _ _ Hat) as Hl. destruct Hat as [Hp Hd]. rewrite zlen_app in Hl.
  pose proof (zlen_nonneg rest). pose proof (zlen_nonneg a). split; [lia|].
  replace (Z.to_nat (pos + zlen a)) with (Z.to_nat pos + length a)%nat by (unfold zlen in *; lia).
  rewrite <- drop_drop, Hd. apply drop_app_length.
Qed.

Lemma at_pos_slice data pos a rest :
  at_pos data pos (a ++ rest) → byte_slice data pos (pos + zlen a) = a.
Proof.
  intros [Hp Hd]. unfold byte_slice. rewrite Hd.
  replace (Z.to_nat (pos + zlen a - pos)) with (length a) by (unfold zlen; lia). apply take_app_length.
Qed.

Lemma zlen_be_u32 z : zlen (to_be_bytes_u32 z) = 4.
Proof. unfold zlen, to_be_bytes_u32. rewrite length_be_bytes. done. Qed.

Lemma at_pos_u32 data pos z rest :
  in_u32 z → at_pos data pos (to_be_bytes_u32 z ++ rest) → u32_at data pos = z.
Proof.
  intros Hz Hat. unfold u32_at. rewrite <- (zlen_be_u32 z), (at_pos_slice _ _ _ _ Hat).
  by apply be_combine_u32.
Qed.

(** Cutting a prefix off what is left of the buffer. *)
Lemma at_pos_take data pos rest len :
  at_pos data pos rest → 0 ≤ len → pos + len ≤ zlen data →
  ∃ p rest', rest = p ++ rest' ∧ zlen p = len ∧ byte_slice data pos (pos + len) = p ∧ at_pos data (pos + len) rest'.
Proof.
  intros Hat Hlen Hle. pose proof (at_pos_len _ _ _ Hat) as Hd.
  exists (take (Z.to_nat len) rest), (drop (Z.to_nat len) rest).
  assert (zlen (take (Z.to_nat len) rest) = len) as Hl.
  { unfold zlen in *. rewrite length_take_le; lia. }
  pose proof Hat as Hat'. rewrite <- (take_drop (Z.to_nat len) rest) in Hat'. split_and!.
  - by rewrite take_drop.
  - done.
  - rewrite <- Hl at 1. by eapply at_pos_slice.
  - rewrite <- Hl at 1. by apply at_pos_advance.
Qed.

Lemma at_pos_take_u32 data pos rest :
  at_pos data pos rest → pos + 4 ≤ zlen data →
  ∃ rest', rest = to_be_bytes_u32 (u32_at data pos) ++ rest' ∧ at_pos data (pos + 4) rest'.
Proof.
  intros Hat Hle. destruct (at_pos_take _ _ _ 4 Hat ltac:(done) Hle) as (p&rest'&->&Hl&Hs&Hat').
  exists rest'. split; [|done]. f_equal. unfold u32_at, to_be_bytes_u32. rewrite Hs, be_bytes_combine; [done|].
  unfold zlen in Hl. lia.
Qed.

Lemma at_pos_end data pos rest : at_pos data pos rest → zlen data ≤ pos → rest = [].
Proof. intros Hat Hle. apply at_pos_len in Hat. apply nil_length_inv. unfold zlen in *. lia. Qed.

(** ** What the calls can do to the files *)

Lemma io_call_files d : d_files (io_call d).2 = d_files d ∧ ((io_call d).1 = Ok tt ∨ ∃ e, (io_call d).1 = Err e).
Proof.
  unfold io_call, next_outcome. destruct (d_faults d) as [|[|t e|ok] os]; (split; [done|]); eauto.
Qed.

Lemma io_call_ok d u d' : io_call d = (Ok u, d') → d_files d' = d_files d.
Proof. intros Hio. destruct (io_call_files d) as [Hf _]. by rewrite Hio in Hf. Qed.

Lemma open_create_ok path d u d' :
  open_create path d = (Ok u, d') → d_files d' !! path = Some (file_data d path).
Proof.
  unfold open_create, sbind, sget, file_data. destruct (io_call d) as [[[]| |] d1] eqn:Hio; [|done..].
  apply io_call_ok in Hio. rewrite <- Hio. destruct (d_files d1 !! path) as [c|] eqn:Hc.
  - intros [= _ <-]. by rewrite Hc.
  - intros [= _ <-]. cbn [set_file d_files]. apply lookup_insert_eq.
Qed.

Lemma write_all_append_files path data d c :
  d_files d !! path = Some c →
  ∃ k, d_files (write_all_append path data d).2 = <[ path := c ++ take k data ]> (d_files d)
    ∧ (((write_all_append path data d).1 = Ok tt ∧ k = length data)
       ∨ ∃ e, (write_all_append path data d).1 = Err e).
Proof.
  intros Hc. unfold write_all_append, next_outcome, file_data.
  destruct (d_faults d) as [|[|[k|] e|ok] os]; cbn [d_files fst snd set_file]; rewrite ?Hc; cbn [default].
  - exists (length data). rewrite firstn_all. eauto.
  - exists (length data). rewrite firstn_all. eauto.
  - exists k. eauto.
  - exists 0%nat. rewrite take_0, app_nil_r, insert_id by done. eauto.
  - exists (length data). rewrite firstn_all. eauto.
Qed.

Lemma fs_write_ok path data d u d' : fs_write path data d = (Ok u, d') → d_files d' = <[ path := data ]> (d_files d).
Proof.
  unfold fs_write, next_outcome. destruct (d_faults d) as [|[|[k|] e|ok] os]; try done; by intros [= _ <-].
Qed.

Lemma io_ok d : d_faults d = [] → io_call d = (Ok tt, d).
Proof. intros Hf. unfold io_call, next_outcome. by rewrite Hf. Qed.

(** ** Files an operation does not touch *)

Definition keeps {E A} (path : string) (m : ST Disk E A) : Prop :=
  ∀ d, d_files (m d).2 !! path = d_files d !! path.

Lemma keeps_bind {E A B} path (m : ST Disk E A) (k : A → ST Disk E B) :
  keeps path m → (∀ a, keeps path (k a)) → keeps path (sbind m k).
Proof.
  intros Hm Hk d. unfold sbind. specialize (Hm d). destruct (m d) as [[a| |] d']; [|done..].
  cbn [snd] in Hm. by rewrite Hk.
Qed.

Lemma keeps_smap {E F A} path (f : E → F) (m : ST Disk E A) : keeps path m → keeps path (smap_err f m).
Proof. intros Hm d. unfold smap_err. specialize (Hm d). by destruct (m d). Qed.

Lemma keeps_pure {E A} path (m : ST Disk E A) : (∀ d, (m d).2 = d) → keeps path m.
Proof. intros Hm d. by rewrite Hm. Qed.

Lemma keeps_io path : keeps path io_call.
Proof. intros d. by rewrite (proj1 (io_call_files d)). Qed.

(** A file call followed by a change of the files. *)
Lemma keeps_call {A} path (m : Disk → ST Disk IoError A) :
  (∀ d, d_files (m d d).2 !! path = d_files d !! path) → keeps path (io_call ;;! let! d := sget in m d).
Proof. intros Hm. apply keeps_bind; [apply keeps_io|]. intros _ d. apply Hm. Qed.

Lemma keeps_open_create path p : p ≠ path → keeps path (open_create p).
Proof.
  intros Hp. apply keeps_call. intros d. destruct (d_files d !! p); [done|]. cbn [sput snd set_file d_files].
  by rewrite lookup_insert_ne.
Qed.

Lemma keeps_open_create_new path p : p ≠ path → keeps path (open_create_new p).
Proof.
  intros Hp. apply keeps_call. intros d. destruct (d_files d !! p); [done|]. cbn [sput snd set_file d_files].
  by rewrite lookup_insert_ne.
Qed.

Lemma keeps_fs_read path p : keeps path (fs_read p).
Proof. by apply keeps_call. Qed.

Lemma keeps_read_to_string path p : keeps path (fs_read_to_string p).
Proof. apply keeps_bind; [apply keeps_fs_read|]. by intros data d. Qed.

Lemma keeps_fs_rename path src dest : src ≠ path → dest ≠ path → keeps path (fs_rename src dest).
Proof.
  intros Hs Hd. apply keeps_call. intros d. destruct (d_files d !! src); [|done]. cbn [sput snd d_files].
  by rewrite lookup_insert_ne, lookup_delete_ne.
Qed.

Lemma keeps_fs_hard_link path src dest : dest ≠ path → keeps path (fs_hard_link src dest).
Proof.
  intros Hd. apply keeps_call. intros d. destruct (d_files d !! src), (d_files d !! dest); [done| |done..].
  cbn [sput snd set_file d_files]. by rewrite lookup_insert_ne.
Qed.

Lemma next_outcome_files d : d_files (next_outcome d).2 = d_files d.
Proof. unfold next_outcome. by destruct (d_faults d). Qed.

Lemma keeps_write_append path p data : p ≠ path → keeps path (write_all_append p data).
Proof.
  intros Hp d. unfold write_all_append. pose proof (next_outcome_files d) as Hn.
  destruct (next_outcome d) as [[|[k|] e|ok] d']; cbn [snd set_file d_files] in *; by rewrite ?lookup_insert_ne, Hn.
Qed.

Lemma keeps_fs_write path p data : p ≠ path → keeps path (fs_write p data).
Proof.
  intros Hp d. unfold fs_write. pose proof (next_outcome_files d) as Hn.
  destruct (next_outcome d) as [[|[k|] e|ok] d']; cbn [snd set_file d_files] in *; by rewrite ?lookup_insert_ne, Hn.
Qed.

Lemma keeps_acquire path p : p ≠ path → keeps path (acquire_exclusive p).
Proof. intros Hp. apply keeps_bind; [by apply keeps_open_create|]. intros _. apply keeps_io. Qed.

Lemma keeps_try_acquire path p : p ≠ path → keeps path (try_acquire_exclusive p).
Proof.
  intros Hp. apply keeps_bind; [by apply keeps_open_create|]. intros _ d.
  pose proof (keeps_io path d) as Hk. by destruct (io_call d) as [[[]| |] d'].
Qed.

Lemma try_remove_keeps tmp path d : path ≠ tmp → d_files (try_remove_file tmp d) !! path = d_files d !! path.
Proof.
  intros Hne. unfold try_remove_file. pose proof (io_call_files d) as [Hf _].
  destruct (io_call d) as [[[]| |] d'] eqn:Hio; cbn [snd] in Hf; cbn [d_files]; rewrite <- Hf; [|done..].
  by rewrite lookup_delete_ne.
Qed.

Lemma keeps_try_call path d : d_files (try_call d).2 !! path = d_files d !! path.
Proof. unfold try_call. pose proof (keeps_io path d) as Hk. by destruct (io_call d) as [[[]| |] d']. Qed.

Lemma path_exists_files {E} path d : d_files (@path_exists E path d).2 = d_files d ∧ ∃ b, (@path_exists E path d).1 = Ok b.
Proof. unfold path_exists. destruct (d_faults d) as [|[| |ok] os]; eauto. Qed.

Lemma keeps_path_exists {E} path p : keeps path (@path_exists E p).
Proof. intros d. by rewrite (proj1 (path_exists_files p d)). Qed.

Create HintDb keeps.
#[export] Hint Resolve keeps_io keeps_open_create keeps_open_create_new keeps_fs_read keeps_read_to_string keeps_fs_rename
  keeps_fs_hard_link keeps_write_append keeps_fs_write keeps_acquire keeps_try_acquire keeps_smap keeps_path_exists : keeps.

Ltac solve_keeps :=
  repeat lazymatch goal with
  | |- keeps _ (sbind _ _) => apply keeps_bind; [|intros ?]
  | |- keeps _ (if ?b then _ else _) => destruct b
  | |- keeps _ (slift _) => by intros ?
  | |- keeps _ (sret _) => by intros ?
  | |- keeps _ (sfail _) => by intros ?
  | |- keeps _ sget => by intros ?
  | |- keeps _ _ => by eauto with keeps
  end.

(** ** Calls never panic *)

Lemma panic_free_call {A} (m : Disk → ST Disk IoError A) :
  (∀ d, panic_free (m d)) → panic_free (io_call ;;! let! d := sget in m d).
Proof.
  intros Hm. apply panic_free_bind; [|intros _; apply panic_free_bind; [by intros ?|done]].
  intros d. destruct (io_call_files d) as [_ [->|[e ->]]]; done.
Qed.

Lemma panic_free_io : panic_free io_call.
Proof. intros d. destruct (io_call_files d) as [_ [->|[e ->]]]; done. Qed.

Lemma panic_free_open_create p : panic_free (open_create p).
Proof. apply panic_free_call. intros d d'. by destruct (d_files d !! p). Qed.

Lemma panic_free_open_create_new p : panic_free (open_create_new p).
Proof. apply panic_free_call. intros d d'. by destruct (d_files d !! p). Qed.

Lemma panic_free_fs_read p : panic_free (fs_read p).
Proof. apply panic_free_call. intros d d'. apply ok_or_no_panic. Qed.

Lemma panic_free_read_to_string p : panic_free (fs_read_to_string p).
Proof. apply panic_free_bind; [apply panic_free_fs_read|]. intros data. apply panic_free_lift, ok_or_no_panic. Qed.

Lemma panic_free_fs_rename src dest : panic_free (fs_rename src dest).
Proof. apply panic_free_call. intros d d'. by destruct (d_files d !! src). Qed.

Lemma panic_free_hard_link src dest : panic_free (fs_hard_link src dest).
Proof. apply panic_free_call. intros d d'. by destruct (d_files d !! src), (d_files d !! dest). Qed.

Lemma panic_free_write_append p data : panic_free (write_all_append p data).
Proof. intros d. unfold write_all_append. by destruct (next_outcome d) as [[|[k|] e|ok] d']. Qed.

Lemma panic_free_fs_write p data : panic_free (fs_write p data).
Proof. intros d. unfold fs_write. by destruct (next_outcome d) as [[|[k|] e|ok] d']. Qed.

Lemma panic_free_acquire p : panic_free (acquire_exclusive p).
Proof. apply panic_free_bind; [apply panic_free_open_create|]. intros _. apply panic_free_io. Qed.

Lemma panic_free_try_acquire p : panic_free (try_acquire_exclusive p).
Proof.
  apply panic_free_bind; [apply panic_free_open_create|]. intros _ d.
  pose proof (panic_free_io d) as Hp. destruct (io_call d) as [[[]|e|] d']; [done| |done]. by destruct (IoError_kind e).
Qed.

Lemma panic_free_path_exists {E} p : panic_free (@path_exists E p).
Proof. intros d. by destruct (path_exists_files (E:=E) p d) as [_ [b ->]]. Qed.

#[export] Hint Resolve panic_free_io panic_free_open_create panic_free_open_create_new panic_free_fs_read
  panic_free_read_to_string panic_free_fs_rename panic_free_hard_link panic_free_write_append panic_free_fs_write
  panic_free_acquire panic_free_try_acquire panic_free_path_exists : no_panic.

(** ** Existence checks that work *)

Lemma no_faults_stats d : d_faults d = [] → stats_work d.
Proof. intros Hf. unfold stats_work. by rewrite Hf. Qed.

(** A check that works says whether the file is there. *)
Lemma path_exists_works {E} path d :
  stats_work d →
  ∃ d', @path_exists E path d = (Ok (bool_decide (is_Some (d_files d !! path))), d') ∧ d_files d' = d_files d ∧ stats_work d'.
Proof.
  unfold stats_work, path_exists. destruct (d_faults d) as [|[|t e|ok] os] eqn:Hf; cbn [forallb stat_works]; intros Hs;
    [by exists d; rewrite Hf|by exists d; rewrite Hf|by exists d; rewrite Hf|].
  apply andb_prop in Hs as [-> Hs]. by exists (mkDisk (d_files d) os).
Qed.

Lemma path_exists_ok {E} path d :
  d_faults d = [] → @path_exists E path d = (Ok (bool_decide (is_Some (d_files d !! path))), d).
Proof. intros Hf. unfold path_exists. by rewrite Hf. Qed.

(** When a check finds the file, it is there, whether checks fail or not. *)
Lemma path_exists_true {E} path d d' : @path_exists E path d = (Ok true, d') → is_Some (d_files d !! path) ∧ d_files d' = d_files d.
Proof.
  unfold path_exists. destruct (d_faults d) as [|[|t e|ok] os]; try (intros [= Hb <-]; by apply bool_decide_eq_true in Hb).
  intros [= [_ Hb]%andb_prop <-]. by apply bool_decide_eq_true in Hb.
Qed.

(** Operations after which the checks still work: the outcomes left are a
    suffix of those before. *)
Definition steady {E A} (m : ST Disk E A) : Prop := ∀ d, stats_work d → stats_work (m d).2.

Lemma steady_bind {E A B} (m : ST Disk E A) (k : A → ST Disk E B) :
  steady m → (∀ a, steady (k a)) → steady (sbind m k).
Proof.
  intros Hm Hk d Hs. unfold sbind. specialize (Hm d Hs). destruct (m d) as [[a| |] d']; [|done..]. by apply Hk.
Qed.

Lemma steady_smap {E F A} (f : E → F) (m : ST Disk E A) : steady m → steady (smap_err f m).
Proof. intros Hm d Hs. unfold smap_err. specialize (Hm d Hs). by destruct (m d). Qed.

Lemma next_outcome_stats d : stats_work d → stats_work (next_outcome d).2.
Proof.
  unfold stats_work, next_outcome. destruct (d_faults d) as [|o os] eqn:Hf; cbn [snd d_faults]; [by rewrite Hf|].
  by intros [_ Hs]%andb_prop.
Qed.

Lemma set_file_stats path data d : stats_work d → stats_work (set_file path data d).
Proof. done. Qed.

Lemma steady_io : steady io_call.
Proof. intros d Hs%next_outcome_stats. unfold io_call. by destruct (next_outcome d) as [[| |] d']. Qed.

Lemma steady_call {A} (m : Disk → ST Disk IoError A) :
  (∀ d, stats_work d → stats_work (m d d).2) → steady (io_call ;;! let! d := sget in m d).
Proof. intros Hm. apply steady_bind; [apply steady_io|]. intros _ d. apply Hm. Qed.

Lemma steady_open_create p : steady (open_create p).
Proof. apply steady_call. intros d. by destruct (d_files d !! p). Qed.

Lemma steady_open_create_new p : steady (open_create_new p).
Proof. apply steady_call. intros d. by destruct (d_files d !! p). Qed.

Lemma steady_fs_read p : steady (fs_read p).
Proof. by apply steady_call. Qed.

Lemma steady_read_to_string p : steady (fs_read_to_string p).
Proof. apply steady_bind; [apply steady_fs_read|]. by intros data d. Qed.

Lemma steady_fs_rename src dest : steady (fs_rename src dest).
Proof. apply steady_call. intros d. by destruct (d_files d !! src). Qed.

Lemma steady_hard_link src dest : steady (fs_hard_link src dest).
Proof. apply steady_call. intros d. by destruct (d_files d !! src), (d_files d !! dest). Qed.

Lemma steady_write_append p data : steady (write_all_append p data).
Proof. intros d Hs%next_outcome_stats. unfold write_all_append. by destruct (next_outcome d) as [[|[k|] e|ok] d']. Qed.

Lemma steady_fs_write p data : steady (fs_write p data).
Proof. intros d Hs%next_outcome_stats. unfold fs_write. by destruct (next_outcome d) as [[|[k|] e|ok] d']. Qed.

Lemma steady_acquire p : steady (acquire_exclusive p).
Proof. apply steady_bind; [apply steady_open_create|]. intros _. apply steady_io. Qed.

Lemma steady_try_acquire p : steady (try_acquire_exclusive p).
Proof.
  apply steady_bind; [apply steady_open_create|]. intros _ d Hs. pose proof (steady_io d Hs) as Hk.
  by destruct (io_call d) as [[[]| |] d'].
Qed.

Lemma steady_path_exists {E} p : steady (@path_exists E p).
Proof. intros d Hs. by destruct (path_exists_works (E:=E) p d Hs) as (d'&->&_&?). Qed.

Lemma try_remove_stats tmp d : stats_work d → stats_work (try_remove_file tmp d).
Proof. intros Hs. unfold try_remove_file. pose proof (steady_io d Hs). by destruct (io_call d) as [[[]| |] d']. Qed.

Lemma try_call_stats d : stats_work d → stats_work (try_call d).2.
Proof. intros Hs. unfold try_call. pose proof (steady_io d Hs). by destruct (io_call d) as [[[]| |] d']. Qed.

Create HintDb steady.
#[export] Hint Resolve steady_io steady_open_create steady_open_create_new steady_fs_read steady_read_to_string
  steady_fs_rename steady_hard_link steady_write_append steady_fs_write steady_acquire steady_try_acquire steady_smap
  steady_path_exists try_remove_stats : steady.

Ltac solve_steady :=
  repeat lazymatch goal with
  | |- steady (sbind _ _) => apply steady_bind; [|intros ?]
  | |- steady (if ?b then _ else _) => destruct b
  | |- steady (slift _) => by intros ?
  | |- steady (sret _) => by intros ?
  | |- steady (sfail _) => by intros ?
  | |- steady sget => by intros ?
  | |- steady _ => by eauto with steady
  end.
