(* ===== verification/Crypto.v ===== *)
(** * Crypto: the third-party primitives and [crypto.rs]

    SHA-256 ([sha2]), hexadecimal encoding ([hex]) and Ed25519
    ([ed25519_dalek]) are not part of the repository: they are the fields of
    the interface [CryptoLib], and what the node relies on is the class
    [CryptoLaws] of their documented behaviour.  No collision resistance is
    assumed: results that need it name the two messages that would have to
    collide ([no_collision]).  [ToyCrypto] is a concrete instance of both
    classes, used by the witnesses. *)

From Stdlib Require Import ZArith Lia.
From Stdlib Require Import Strings.Byte.
From stdpp Require Import base strings list.
From S2P Require Import Prelude Bytes.

Class CryptoLib : Type := {
  sha256 : list byte → list byte;
  hex_encode : list byte → string;
  VerifyingKey : Type;
  vk_from_bytes : list byte → option VerifyingKey;
  vk_to_bytes : VerifyingKey → list byte;
  vk_verify : VerifyingKey → list byte → list byte → bool;
  SigningKey : Type;
  sk_from_bytes : list byte → SigningKey;
  sk_to_bytes : SigningKey → list byte;
  sk_verifying_key : SigningKey → VerifyingKey;
  sk_sign : SigningKey → list byte → list byte
}.

(** Lower-case hexadecimal digits. *)
Definition is_hex_byte (b : byte) : Prop :=
  48 ≤ byte_to_Z b ≤ 57 ∨ 97 ≤ byte_to_Z b ≤ 102.

Class CryptoLaws `{CryptoLib} : Prop := {
  sha256_length m : length (sha256 m) = 32%nat;
  hex_encode_length l : String.length (hex_encode l) = (2 * length l)%nat;
  hex_encode_hex l : Forall is_hex_byte (str_bytes (hex_encode l));
  hex_encode_inj l1 l2 : hex_encode l1 = hex_encode l2 → l1 = l2;
  vk_bytes_length sk : length (vk_to_bytes (sk_verifying_key sk)) = 32%nat;
  vk_bytes_roundtrip sk :
    vk_from_bytes (vk_to_bytes (sk_verifying_key sk)) = Some (sk_verifying_key sk);
  sk_bytes_roundtrip seed : length seed = 32%nat → sk_to_bytes (sk_from_bytes seed) = seed;
  sk_sign_length sk m : length (sk_sign sk m) = 64%nat;
  sk_sign_verifies sk m : vk_verify (sk_verifying_key sk) m (sk_sign sk m) = true
}.

(** ** [crypto.rs] *)

Section crypto.
Context `{CryptoLib}.

Definition hash_bytes (payload : list byte) : string := hex_encode (sha256 payload).

Definition sha256_raw32 (payload : list byte) : list byte := sha256 payload.

Definition address_from_public_key (public_key : list byte) : string := hash_bytes public_key.

Definition verify_signature (message signature public_key : list byte) : bool :=
  if negb (Nat.eqb (length public_key) 32) then false
  else if negb (Nat.eqb (length signature) 64) then false
  else
    match vk_from_bytes public_key with
    | None => false
    | Some verifying_key => vk_verify verifying_key message signature
    end.

(** SHA-256 does not collide on these two messages. *)
Definition no_collision (m1 m2 : list byte) : Prop := sha256 m1 = sha256 m2 → m1 = m2.

(** Two different messages with the same SHA-256 digest. *)
Definition collides (m1 m2 : list byte) : Prop := m1 ≠ m2 ∧ sha256 m1 = sha256 m2.
End crypto.

(** ** Lemmas *)

Section crypto_lemmas.
Context `{CryptoLaws}.

Lemma hash_bytes_inj m1 m2 : no_collision m1 m2 → hash_bytes m1 = hash_bytes m2 → m1 = m2.
Proof. intros Hnc Heq. by apply Hnc, hex_encode_inj. Qed.

Lemma hash_bytes_eq m1 m2 : hash_bytes m1 = hash_bytes m2 → m1 = m2 ∨ collides m1 m2.
Proof. intros Heq%hex_encode_inj. destruct (decide (m1 = m2)); [by left|by right]. Qed.

Lemma hash_bytes_length m : String.length (hash_bytes m) = 64%nat.
Proof. unfold hash_bytes. by rewrite hex_encode_length, sha256_length. Qed.

Lemma hash_bytes_hex m : Forall is_hex_byte (str_bytes (hash_bytes m)).
Proof. apply hex_encode_hex. Qed.

Lemma hash_bytes_no b m : ¬ is_hex_byte b → b ∉ str_bytes (hash_bytes m).
Proof.
  intros Hb Hin. pose proof (hash_bytes_hex m) as Hf. rewrite Forall_forall in Hf. by apply Hf in Hin.
Qed.

Lemma hash_bytes_ascii m : Forall (λ b, byte_to_Z b < 128) (str_bytes (hash_bytes m)).
Proof. eapply Forall_impl; [apply hash_bytes_hex|]. intros b [?|?]; lia. Qed.

Lemma hash_bytes_not_blank m : trim_is_empty (hash_bytes m) = false.
Proof.
  unfold trim_is_empty. rewrite (utf8_decode_ascii _ (hash_bytes_ascii m)).
  pose proof (hash_bytes_length m) as Hl. rewrite <- str_bytes_length in Hl.
  pose proof (hash_bytes_hex m) as Hh.
  destruct (str_bytes (hash_bytes m)) as [|b l]; [done|].
  apply Forall_cons in Hh as [Hb _]. simpl.
  assert (is_whitespace (byte_to_Z b) = false) as ->; [|done].
  unfold is_whitespace, is_hex_byte in *. lia.
Qed.

Lemma verify_own_signature sk m :
  verify_signature m (sk_sign sk m) (vk_to_bytes (sk_verifying_key sk)) = true.
Proof.
  unfold verify_signature. rewrite vk_bytes_length, sk_sign_length. simpl.
  rewrite vk_bytes_roundtrip. apply sk_sign_verifies.
Qed.
End crypto_lemmas.

(** ** A concrete instance for the witnesses *)

Module ToyCrypto.

(** The last 32 bytes of the message, padded, standing for SHA-256. *)
Definition digest (m : list byte) : list byte :=
  take 32 (drop (length m - 32) m ++ replicate 32 Byte.x2e).

Definition hex_char (z : Z) : Ascii.ascii :=
  Ascii.ascii_of_N (Z.to_N (if z <? 10 then 48 + z else 87 + z)).

Fixpoint hex (l : list byte) : string :=
  match l with
  | [] => ""
  | b :: l' =>
    String (hex_char (byte_to_Z b / 16)) (String (hex_char (byte_to_Z b mod 16)) (hex l'))
  end.

Definition sign (sk m : list byte) : list byte := digest (digest sk ++ m) ++ digest (m ++ digest sk).

#[export] Instance lib : CryptoLib := {|
  sha256 := digest;
  hex_encode := hex;
  VerifyingKey := list byte;
  vk_from_bytes := Some;
  vk_to_bytes := id;
  vk_verify vk m s := bool_decide (s = digest (vk ++ m) ++ digest (m ++ vk));
  SigningKey := list byte;
  sk_from_bytes := id;
  sk_to_bytes := id;
  sk_verifying_key := digest;
  sk_sign := sign
|}.

Lemma hex_inj l1 l2 : hex l1 = hex l2 → l1 = l2.
Proof.
  revert l2. induction l1 as [|b1 l1 IH]; intros [|b2 l2]; cbn [hex]; [done|done|done|].
  intros Heq. injection Heq as Hhi Hlo Heq. f_equal; [|by apply IH].
  assert (∀ b, Ascii.N_of_ascii (hex_char (byte_to_Z b / 16))
               = Z.to_N (if byte_to_Z b / 16 <? 10 then 48 + byte_to_Z b / 16 else 87 + byte_to_Z b / 16))
    as H1 by (intros []; reflexivity).
  assert (∀ b, Ascii.N_of_ascii (hex_char (byte_to_Z b mod 16))
               = Z.to_N (if byte_to_Z b mod 16 <? 10 then 48 + byte_to_Z b mod 16 else 87 + byte_to_Z b mod 16))
    as H2 by (intros []; reflexivity).
  apply (f_equal Ascii.N_of_ascii) in Hhi, Hlo. rewrite !H1 in Hhi. rewrite !H2 in Hlo.
  pose proof (byte_to_Z_range b1). pose proof (byte_to_Z_range b2).
  pose proof (Z.mod_pos_bound (byte_to_Z b1) 16 ltac:(lia)).
  pose proof (Z.mod_pos_bound (byte_to_Z b2) 16 ltac:(lia)).
  pose proof (Z.div_pos (byte_to_Z b1) 16 ltac:(lia) ltac:(lia)).
  pose proof (Z.div_pos (byte_to_Z b2) 16 ltac:(lia) ltac:(lia)).
  apply byte_to_Z_inj.
  rewrite (Z.div_mod (byte_to_Z b1) 16), (Z.div_mod (byte_to_Z b2) 16) by lia.
  repeat match goal with H : context [?a <? 10] |- _ => destruct (Z.ltb_spec a 10) end; lia.
Qed.

Lemma hex_hex l : Forall is_hex_byte (str_bytes (hex l)).
Proof.
  induction l as [|b l IH]; [constructor|]. cbn [hex]. rewrite !str_bytes_cons.
  assert (∀ b, byte_to_Z (Ascii.byte_of_ascii (hex_char (byte_to_Z b / 16))) =
               if byte_to_Z b / 16 <? 10 then 48 + byte_to_Z b / 16 else 87 + byte_to_Z b / 16)
    as H1 by (intros []; reflexivity).
  assert (∀ b, byte_to_Z (Ascii.byte_of_ascii (hex_char (byte_to_Z b mod 16))) =
               if byte_to_Z b mod 16 <? 10 then 48 + byte_to_Z b mod 16 else 87 + byte_to_Z b mod 16)
    as H2 by (intros []; reflexivity).
  pose proof (byte_to_Z_range b).
  pose proof (Z.mod_pos_bound (byte_to_Z b) 16 ltac:(lia)).
  pose proof (Z.div_pos (byte_to_Z b) 16 ltac:(lia) ltac:(lia)).
  assert (byte_to_Z b / 16 < 16) by (apply Z.div_lt_upper_bound; lia).
  apply Forall_cons; split; [|apply Forall_cons; split; [|done]]; unfold is_hex_byte; rewrite ?H1, ?H2;
    match goal with |- context [?a <? 10] => destruct (Z.ltb_spec a 10) end; lia.
Qed.

Lemma digest_length m : length (digest m) = 32%nat.
Proof. unfold digest. rewrite length_take, length_app, length_replicate. lia. Qed.

#[export] Instance laws : CryptoLaws.
Proof.
  split; cbn [sha256 hex_encode vk_from_bytes vk_to_bytes vk_verify sk_from_bytes sk_to_bytes
              sk_verifying_key sk_sign lib].
  - apply digest_length.
  - induction l as [|b l IH]; cbn [hex String.length length]; lia.
  - apply hex_hex.
  - apply hex_inj.
  - intros. apply digest_length.
  - done.
  - done.
  - intros. unfold sign. by rewrite length_app, !digest_length.
  - intros. by apply bool_decide_eq_true.
Qed.
End ToyCrypto.
