(* ===== verification/Transaction.v ===== *)
(** * Types, errors, transactions ([types.rs], [errors.rs], [transaction.rs])

    A transaction is validated in a fixed order: addresses, amount, presence
    of the authentication material, hash, signature, and the binding of the
    sender address to the public key.  The main result is that the canonical
    payload, and therefore the transaction id, commits to all six signed
    fields. *)

From Stdlib Require Import ZArith Lia.
From stdpp Require Import base strings list.
From S2P Require Import Prelude Bytes Crypto.

(** ** [types.rs] *)

(** The newtype [Address(pub String)]. *)
Abbreviation Address := string (only parsing).

Definition Address_new (value : string) : Address := value.

Definition Address_is_valid (a : Address) : bool :=
  negb (trim_is_empty a) && Nat.leb (String.length a) 128.

Record Account := mkAccount {
  acc_address : Address;
  acc_balance : Z;
  acc_nonce : Z
}.

#[export] Instance Account_eq_dec : EqDecision Account.
Proof. solve_decision. Defined.

Definition Account_new (address : Address) (balance : Z) : Account :=
  mkAccount address balance 0.

(** ** [errors.rs] *)

Inductive ProtocolError :=
| InvalidAddress
| InvalidAmount
| InvalidFee
| InvalidNonce
| InsufficientBalance
| SignatureInvalid
| InvalidBlock (msg : string)
| StateError (msg : string)
| DuplicateTransaction
| MempoolFull
| MempoolNonceConflict
| GenesisError (msg : string).

#[export] Instance ProtocolError_eq_dec : EqDecision ProtocolError.
Proof. solve_decision. Defined.

Definition ProtocolError_display (e : ProtocolError) : string :=
  match e with
  | InvalidAddress => "invalid address"
  | InvalidAmount => "invalid amount"
  | InvalidFee => "invalid fee"
  | InvalidNonce => "invalid nonce"
  | InsufficientBalance => "insufficient balance"
  | SignatureInvalid => "signature invalid"
  | InvalidBlock msg => "invalid block: " +:+ msg
  | StateError msg => "state error: " +:+ msg
  | DuplicateTransaction => "duplicate transaction"
  | MempoolFull => "mempool full"
  | MempoolNonceConflict => "mempool nonce conflict"
  | GenesisError msg => "genesis error: " +:+ msg
  end.

(** ** [transaction.rs] *)

Record Transaction := mkTransaction {
  tx_sender : Address;
  tx_receiver : Address;
  tx_amount : Z;
  tx_fee : Z;
  tx_nonce : Z;
  tx_timestamp_unix : Z;
  tx_public_key : list byte;
  tx_signature : list byte;
  tx_tx_hash : string
}.

#[export] Instance Transaction_eq_dec : EqDecision Transaction.
Proof. solve_decision. Defined.

(** What a transaction consumes: its sender's nonce. *)
Definition tx_slot (t : Transaction) : Address * Z := (tx_sender t, tx_nonce t).

(** Invariants the Rust types carry: [u64] fields and UTF-8 strings. *)
Definition wf_tx (t : Transaction) : Prop :=
  in_u64 (tx_amount t) ∧ in_u64 (tx_fee t) ∧ in_u64 (tx_nonce t) ∧ in_u64 (tx_timestamp_unix t)
  ∧ utf8_valid (str_bytes (tx_sender t)) = true
  ∧ utf8_valid (str_bytes (tx_receiver t)) = true
  ∧ utf8_valid (str_bytes (tx_tx_hash t)) = true.

#[export] Instance wf_tx_dec t : Decision (wf_tx t).
Proof. unfold wf_tx. apply _. Defined.

(** The fields the signature covers, with the id derived from them. *)
Definition signed_fields (t : Transaction) : Address * Address * Z * Z * Z * Z * string :=
  (tx_sender t, tx_receiver t, tx_amount t, tx_fee t, tx_nonce t, tx_timestamp_unix t, tx_tx_hash t).

Definition unsigned_payload (t : Transaction) : string :=
  tx_sender t +:+ "|" +:+ tx_receiver t +:+ "|" +:+ fmt_uint (tx_amount t) +:+ "|"
  +:+ fmt_uint (tx_fee t) +:+ "|" +:+ fmt_uint (tx_nonce t) +:+ "|"
  +:+ fmt_uint (tx_timestamp_unix t).

Definition unsigned_payload_bytes (t : Transaction) : list byte := str_bytes (unsigned_payload t).

Section transaction.
Context `{CryptoLib}.

Definition validate_sender_binding (t : Transaction) : Res ProtocolError unit :=
  let derived := address_from_public_key (tx_public_key t) in
  if negb (String.eqb (tx_sender t) derived) then Err InvalidAddress else Ok tt.

Definition validate_signature (t : Transaction) : Res ProtocolError unit :=
  let payload := unsigned_payload_bytes t in
  let is_valid := verify_signature payload (tx_signature t) (tx_public_key t) in
  if negb is_valid then Err SignatureInvalid else Ok tt.

Definition compute_tx_hash (t : Transaction) : string := hash_bytes (unsigned_payload_bytes t).

Definition validate_hash (t : Transaction) : Res ProtocolError unit :=
  let expected := compute_tx_hash t in
  if negb (String.eqb (tx_tx_hash t) expected)
  then Err (StateError "transaction hash mismatch") else Ok tt.

Definition tx_basic_validate (t : Transaction) : Res ProtocolError unit :=
  if negb (Address_is_valid (tx_sender t)) || negb (Address_is_valid (tx_receiver t))
  then Err InvalidAddress
  else if tx_amount t =? 0 then Err InvalidAmount
  else if Nat.eqb (length (tx_public_key t)) 0 || Nat.eqb (length (tx_signature t)) 0
  then Err SignatureInvalid
  else if trim_is_empty (tx_tx_hash t) then Err (StateError "missing tx hash")
  else
    validate_hash t ;;?
    validate_signature t ;;?
    validate_sender_binding t ;;?
    Ok tt.
End transaction.

(** ** What a validated transaction guarantees *)

Section transaction_props.
Context `{CryptoLib}.

(** The declarative meaning of [tx_basic_validate]. *)
Definition valid_tx (t : Transaction) : Prop :=
  Address_is_valid (tx_sender t) = true ∧ Address_is_valid (tx_receiver t) = true
  ∧ tx_amount t ≠ 0
  ∧ tx_public_key t ≠ [] ∧ tx_signature t ≠ []
  ∧ trim_is_empty (tx_tx_hash t) = false
  ∧ tx_tx_hash t = hash_bytes (unsigned_payload_bytes t)
  ∧ verify_signature (unsigned_payload_bytes t) (tx_signature t) (tx_public_key t) = true
  ∧ tx_sender t = address_from_public_key (tx_public_key t).

Lemma tx_basic_validate_ok t : tx_basic_validate t = Ok tt ↔ valid_tx t.
Proof.
  unfold tx_basic_validate, valid_tx, validate_hash, validate_signature, validate_sender_binding,
    compute_tx_hash, rbind.
  destruct (Address_is_valid (tx_sender t)), (Address_is_valid (tx_receiver t)); simpl; try naive_solver.
  destruct (Z.eqb_spec (tx_amount t) 0); [naive_solver|].
  destruct (tx_public_key t) as [|b pk]; [naive_solver|].
  destruct (tx_signature t) as [|b' sig]; [naive_solver|]. simpl.
  destruct (trim_is_empty (tx_tx_hash t)); [naive_solver|].
  destruct (String.eqb_spec (tx_tx_hash t) (hash_bytes (unsigned_payload_bytes t))); simpl; [|naive_solver].
  destruct (verify_signature _ _ _); simpl; [|naive_solver].
  destruct (String.eqb_spec (tx_sender t) (address_from_public_key (b :: pk))); naive_solver.
Qed.

Lemma tx_basic_validate_no_panic t : tx_basic_validate t ≠ Panic.
Proof.
  unfold tx_basic_validate, validate_hash, validate_signature, validate_sender_binding, rbind.
  repeat case_match; naive_solver.
Qed.

(** Every rejected transaction is rejected with one of the four errors below. *)
Lemma tx_basic_validate_err t e :
  tx_basic_validate t = Err e →
  e = InvalidAddress ∨ e = InvalidAmount ∨ e = SignatureInvalid
  ∨ e = StateError "missing tx hash" ∨ e = StateError "transaction hash mismatch".
Proof.
  unfold tx_basic_validate, validate_hash, validate_signature, validate_sender_binding, rbind.
  repeat case_match; naive_solver.
Qed.
End transaction_props.

(** ** The canonical payload is unambiguous *)

Lemma str_bytes_pipe s : str_bytes ("|" +:+ s) = Byte.x7c :: str_bytes s.
Proof. done. Qed.

Lemma pipe_not_digit : ¬ is_digit_byte Byte.x7c.
Proof. unfold is_digit_byte, byte_to_Z. simpl. lia. Qed.

Lemma pipe_not_hex : ¬ is_hex_byte Byte.x7c.
Proof. unfold is_hex_byte, byte_to_Z. simpl. lia. Qed.

(** Fields after the last separators are decimal numbers, so the split is
    determined from the right even when the receiver contains separators. *)
Lemma payload_tail_inj x x' n n' :
  0 ≤ n → 0 ≤ n' →
  x ++ Byte.x7c :: str_bytes (fmt_uint n) = x' ++ Byte.x7c :: str_bytes (fmt_uint n') →
  x = x' ∧ n = n'.
Proof.
  intros Hn Hn' Heq.
  apply app_sep_inj_r in Heq as [-> Hf]; [|apply fmt_uint_no, pipe_not_digit..].
  split; [done|]. apply (inj str_bytes) in Hf. by apply fmt_uint_inj.
Qed.

Lemma unsigned_payload_inj t1 t2 :
  wf_tx t1 → wf_tx t2 →
  Byte.x7c ∉ str_bytes (tx_sender t1) → Byte.x7c ∉ str_bytes (tx_sender t2) →
  unsigned_payload_bytes t1 = unsigned_payload_bytes t2 →
  tx_sender t1 = tx_sender t2 ∧ tx_receiver t1 = tx_receiver t2 ∧ tx_amount t1 = tx_amount t2
  ∧ tx_fee t1 = tx_fee t2 ∧ tx_nonce t1 = tx_nonce t2
  ∧ tx_timestamp_unix t1 = tx_timestamp_unix t2.
Proof.
  intros ([? _]&[? _]&[? _]&[? _]&_) ([? _]&[? _]&[? _]&[? _]&_) Hs1 Hs2.
  unfold unsigned_payload_bytes, unsigned_payload. rewrite !str_bytes_app.
  change (str_bytes "|") with [Byte.x7c]. rewrite <- ?app_comm_cons, ?app_nil_l.
  intros Heq. apply app_sep_inj_l in Heq as [Hsend Heq]; [|done..].
  cbn [app] in Heq. rewrite ?app_comm_cons, ?(assoc_L (++)) in Heq.
  rewrite ?app_comm_cons, ?(assoc_L (++)) in Heq.
  repeat (rewrite ?app_comm_cons, ?(assoc_L (++)) in Heq;
    apply payload_tail_inj in Heq as [Heq ?]; [|done..]).
  split_and!; try done; by apply (inj str_bytes).
Qed.

Section transaction_binding.
Context `{CryptoLaws}.

Lemma valid_tx_sender_no_pipe t : valid_tx t → Byte.x7c ∉ str_bytes (tx_sender t).
Proof.
  intros (_&_&_&_&_&_&_&_&->). apply hash_bytes_no, pipe_not_hex.
Qed.

(** Valid transactions with the same id differ at most in their keys and
    signatures, or show a collision of SHA-256. *)
Lemma valid_tx_same_id t1 t2 :
  wf_tx t1 → wf_tx t2 → valid_tx t1 → valid_tx t2 → tx_tx_hash t1 = tx_tx_hash t2 →
  signed_fields t1 = signed_fields t2 ∨ collides (unsigned_payload_bytes t1) (unsigned_payload_bytes t2).
Proof.
  intros Hw1 Hw2 Hv1 Hv2 Heq.
  pose proof (valid_tx_sender_no_pipe _ Hv1). pose proof (valid_tx_sender_no_pipe _ Hv2).
  destruct Hv1 as (_&_&_&_&_&_&Hh1&_), Hv2 as (_&_&_&_&_&_&Hh2&_).
  pose proof Heq as Hid. rewrite Hh1, Hh2 in Hid. apply hash_bytes_eq in Hid as [Hp|Hc]; [left|by right].
  destruct (unsigned_payload_inj t1 t2) as (?&?&?&?&?&?); [done..|].
  unfold signed_fields. congruence.
Qed.

(** The transaction id commits to the transaction: two transactions that
    both pass [tx_basic_validate] and carry the same [tx_hash] agree on sender,
    receiver, amount, fee, nonce and timestamp, and were authorised with the
    same public key, unless SHA-256 collides on their payloads or keys. The
    ['|'] separators of the canonical payload are not ambiguous although the
    receiver may contain them. *)
Theorem tx_hash_commits t1 t2 :
  wf_tx t1 → wf_tx t2 →
  tx_basic_validate t1 = Ok tt → tx_basic_validate t2 = Ok tt →
  no_collision (unsigned_payload_bytes t1) (unsigned_payload_bytes t2) →
  no_collision (tx_public_key t1) (tx_public_key t2) →
  tx_tx_hash t1 = tx_tx_hash t2 →
  tx_sender t1 = tx_sender t2 ∧ tx_receiver t1 = tx_receiver t2 ∧ tx_amount t1 = tx_amount t2
  ∧ tx_fee t1 = tx_fee t2 ∧ tx_nonce t1 = tx_nonce t2
  ∧ tx_timestamp_unix t1 = tx_timestamp_unix t2 ∧ tx_public_key t1 = tx_public_key t2.
Proof.
  rewrite !tx_basic_validate_ok. intros Hw1 Hw2 Hv1 Hv2 Hnc Hnck Heq.
  pose proof (valid_tx_sender_no_pipe _ Hv1). pose proof (valid_tx_sender_no_pipe _ Hv2).
  destruct Hv1 as (_&_&_&_&_&_&Hh1&_&Hk1), Hv2 as (_&_&_&_&_&_&Hh2&_&Hk2).
  rewrite Hh1, Hh2 in Heq. apply hash_bytes_inj in Heq; [|done].
  destruct (unsigned_payload_inj t1 t2) as (Hs&?&?&?&?&?); [done..|].
  split_and!; try done. rewrite Hk1, Hk2 in Hs. by apply hash_bytes_inj in Hs.
Qed.
End transaction_binding.
