(* ===== verification/Wallet.v ===== *)
(** * Wallet ([wallet.rs]): key generation, addresses and signed transfers *)

From Stdlib Require Import ZArith Lia.
From stdpp Require Import base strings list.
From S2P Require Import Prelude Bytes Crypto Transaction.

Section wallet.
Context `{CryptoLib}.

Record Wallet := mkWallet { signing_key : SigningKey }.

(** [rng_bytes] is what [RngCore::fill_bytes] wrote into the 32-byte buffer. *)
Definition generate_with_rng (rng_bytes : list byte) : Wallet := mkWallet (sk_from_bytes rng_bytes).

Definition from_seed (seed : list byte) : Wallet := mkWallet (sk_from_bytes seed).

Definition seed_bytes (w : Wallet) : list byte := sk_to_bytes (signing_key w).

Definition Wallet_address (w : Wallet) : Address :=
  Address_new (address_from_public_key (vk_to_bytes (sk_verifying_key (signing_key w)))).

Definition verifying_key_bytes (w : Wallet) : list byte :=
  vk_to_bytes (sk_verifying_key (signing_key w)).

Definition sign_transfer (w : Wallet) (receiver : Address) (amount fee nonce timestamp_unix : Z) :
    Res ProtocolError Transaction :=
  if amount =? 0 then Err InvalidAmount
  else if negb (Address_is_valid receiver) then Err InvalidAddress
  else
    let vk := sk_verifying_key (signing_key w) in
    let sender := Address_new (address_from_public_key (vk_to_bytes vk)) in
    let tx := mkTransaction sender receiver amount fee nonce timestamp_unix (vk_to_bytes vk) [] "" in
    let payload := unsigned_payload_bytes tx in
    Ok (mkTransaction sender receiver amount fee nonce timestamp_unix (vk_to_bytes vk)
          (sk_sign (signing_key w) payload) (hash_bytes payload)).

Definition Wallet_clone (w : Wallet) : Wallet := mkWallet (sk_from_bytes (sk_to_bytes (signing_key w))).
End wallet.

Section wallet_props.
Context `{CryptoLaws}.

Lemma hash_address_valid m : Address_is_valid (hash_bytes m) = true.
Proof.
  unfold Address_is_valid. by rewrite hash_bytes_not_blank, hash_bytes_length.
Qed.

Lemma sign_transfer_payload w r a f n ts tx :
  sign_transfer w r a f n ts = Ok tx →
  unsigned_payload_bytes tx
  = unsigned_payload_bytes (mkTransaction (Wallet_address w) r a f n ts (verifying_key_bytes w) [] "").
Proof. unfold sign_transfer. repeat case_match; intros; by simplify_eq. Qed.

Lemma sign_transfer_ok w receiver amount fee nonce ts :
  amount ≠ 0 → Address_is_valid receiver = true →
  ∃ tx, sign_transfer w receiver amount fee nonce ts = Ok tx
    ∧ tx_basic_validate tx = Ok tt
    ∧ tx_sender tx = Wallet_address w ∧ tx_receiver tx = receiver ∧ tx_amount tx = amount
    ∧ tx_fee tx = fee ∧ tx_nonce tx = nonce ∧ tx_timestamp_unix tx = ts.
Proof.
  intros Ha Hr. unfold sign_transfer.
  destruct (Z.eqb_spec amount 0); [done|]. rewrite Hr. simpl.
  eexists. split; [done|]. split_and!; try done.
  apply tx_basic_validate_ok. unfold valid_tx; simpl. split_and!; try done.
  - apply hash_address_valid.
  - intros Hn. pose proof (vk_bytes_length (signing_key w)) as Hl. by rewrite Hn in Hl.
  - intros Hn. apply (f_equal length) in Hn. by rewrite sk_sign_length in Hn.
  - apply hash_bytes_not_blank.
  - apply verify_own_signature.
Qed.

(** Every transfer the wallet signs is accepted by every node's
    [tx_basic_validate], carries exactly the requested fields, and is sent from
    the wallet's own address; the call fails only for a zero amount or an
    invalid receiver. *)
Theorem sign_transfer_valid w receiver amount fee nonce ts :
  amount ≠ 0 → Address_is_valid receiver = true →
  ∃ tx, sign_transfer w receiver amount fee nonce ts = Ok tx
    ∧ tx_basic_validate tx = Ok tt
    ∧ tx_sender tx = Wallet_address w ∧ tx_receiver tx = receiver ∧ tx_amount tx = amount
    ∧ tx_fee tx = fee ∧ tx_nonce tx = nonce ∧ tx_timestamp_unix tx = ts.
Proof. apply sign_transfer_ok. Qed.

Lemma wallet_clone_seed seed :
  length seed = 32%nat → seed_bytes (Wallet_clone (from_seed seed)) = seed.
Proof. intros Hl. unfold seed_bytes, Wallet_clone, from_seed. simpl.
  by rewrite !(sk_bytes_roundtrip seed). Qed.
End wallet_props.

(** ** A wallet and its transfers, for the witnesses *)

Module WalletExample.
Import ToyCrypto.

Definition alice : Wallet := from_seed (be_bytes 32 1).
Definition bob : Address := "bob".
Definition transfer (nonce : Z) : Transaction :=
  match sign_transfer alice bob 5 1 nonce 1700000000 with
  | Ok tx => tx
  | _ => mkTransaction "" "" 0 0 0 0 [] [] ""
  end.

Lemma transfer_valid nonce : tx_basic_validate (transfer nonce) = Ok tt.
Proof.
  destruct (sign_transfer_ok alice bob 5 1 nonce 1700000000) as (tx&Htx&Hv&_);
    [done|vm_compute; reflexivity|].
  unfold transfer. by rewrite Htx.
Qed.

Lemma sign_transfer_valid_witness :
  ∃ tx, sign_transfer alice "bob" 5 1 0 1700000000 = Ok tx
    ∧ tx_basic_validate tx = Ok tt
    ∧ tx_sender tx = Wallet_address alice ∧ tx_receiver tx = "bob" ∧ tx_amount tx = 5
    ∧ tx_fee tx = 1 ∧ tx_nonce tx = 0 ∧ tx_timestamp_unix tx = 1700000000.
Proof.
  apply (sign_transfer_valid); [lia|vm_compute; reflexivity].
Defined.

Lemma tx_hash_commits_witness :
  let t := transfer 3 in
  tx_sender t = tx_sender t ∧ tx_receiver t = tx_receiver t ∧ tx_amount t = tx_amount t
  ∧ tx_fee t = tx_fee t ∧ tx_nonce t = tx_nonce t
  ∧ tx_timestamp_unix t = tx_timestamp_unix t ∧ tx_public_key t = tx_public_key t.
Proof.
  intros t. apply (tx_hash_commits t t).
  - apply (bool_decide_unpack _). vm_compute. exact I.
  - apply (bool_decide_unpack _). vm_compute. exact I.
  - vm_compute. reflexivity.
  - vm_compute. reflexivity.
  - intros _. reflexivity.
  - intros _. reflexivity.
  - reflexivity.
Defined.
End WalletExample.
