(* ===== verification/Block.v ===== *)
(** * Blocks and time policy ([block.rs], [consensus.rs])

    A block is identified by the hash of a textual header preimage. The main
    results: [block_basic_validate] accepts exactly the well-formed blocks, and
    the block hash commits to the header and to the ordered list of transaction
    ids. *)

From Stdlib Require Import ZArith Lia.
From stdpp Require Import base strings list gmap.
From S2P Require Import Prelude Bytes Crypto Transaction Wallet.

Record Block := mkBlock {
  blk_height : Z;
  blk_previous_hash : string;
  blk_timestamp_unix : Z;
  blk_transactions : list Transaction;
  blk_block_hash : string
}.

#[export] Instance Block_eq_dec : EqDecision Block.
Proof. solve_decision. Defined.

Definition wf_block (b : Block) : Prop :=
  in_u64 (blk_height b) ∧ in_u64 (blk_timestamp_unix b)
  ∧ utf8_valid (str_bytes (blk_previous_hash b)) = true
  ∧ utf8_valid (str_bytes (blk_block_hash b)) = true
  ∧ Forall wf_tx (blk_transactions b).

#[export] Instance wf_block_dec b : Decision (wf_block b).
Proof. unfold wf_block. apply _. Defined.

Definition Block_genesis : Block := mkBlock 0 "GENESIS" 0 [] "GENESIS_HASH".

Definition is_genesis (b : Block) : bool := blk_height b =? 0.

Definition block_header_preimage (b : Block) : string :=
  let joined := join "|" (tx_tx_hash <$> blk_transactions b) in
  fmt_uint (blk_height b) +:+ "|" +:+ blk_previous_hash b +:+ "|"
  +:+ fmt_uint (blk_timestamp_unix b) +:+ "|" +:+ joined.

Definition block_header_preimage_bytes (b : Block) : list byte := str_bytes (block_header_preimage b).

(** The duplicate check: [seen_tx_hashes.insert] is [false] on a repeated id. *)
Fixpoint check_unique_tx_hashes (seen : gset string) (txs : list Transaction) : Res ProtocolError unit :=
  match txs with
  | [] => Ok tt
  | tx :: txs' =>
    if decide (tx_tx_hash tx ∈ seen) then Err DuplicateTransaction
    else check_unique_tx_hashes ({[ tx_tx_hash tx ]} ∪ seen) txs'
  end.

Section block.
Context `{CryptoLib}.

Definition compute_block_hash (b : Block) : string := hash_bytes (block_header_preimage_bytes b).

Definition validate_block_hash (b : Block) : Res ProtocolError unit :=
  if trim_is_empty (blk_block_hash b) then Err (InvalidBlock "missing block hash")
  else
    let expected := compute_block_hash b in
    if negb (String.eqb (blk_block_hash b) expected)
    then Err (InvalidBlock "block hash mismatch") else Ok tt.

Definition block_basic_validate (b : Block) : Res ProtocolError unit :=
  if is_genesis b then
    if negb (String.eqb (blk_previous_hash b) "GENESIS")
       || negb (String.eqb (blk_block_hash b) "GENESIS_HASH")
    then Err (InvalidBlock "invalid genesis constants")
    else if negb (Nat.eqb (length (blk_transactions b)) 0)
    then Err (InvalidBlock "genesis must not contain transactions")
    else Ok tt
  else if trim_is_empty (blk_previous_hash b) then Err (InvalidBlock "missing previous hash")
  else
    check_unique_tx_hashes ∅ (blk_transactions b) ;;?
    rfor tx_basic_validate (blk_transactions b) ;;?
    validate_block_hash b ;;?
    Ok tt.
End block.

(** ** [consensus.rs] *)

Record ConsensusParams := mkConsensusParams {
  min_block_interval_secs : Z;
  max_future_drift_secs : Z
}.

#[export] Instance ConsensusParams_eq_dec : EqDecision ConsensusParams.
Proof. solve_decision. Defined.

Definition ConsensusParams_default : ConsensusParams := mkConsensusParams 0 u64_max.

Definition validate_block_timestamps_vs_parent (parent candidate : Block) (params : ConsensusParams) :
    Res ProtocolError unit :=
  let? min_ts := ok_or (checked_add (blk_timestamp_unix parent) (min_block_interval_secs params))
                   (InvalidBlock "block timestamp arithmetic overflow") in
  if blk_timestamp_unix candidate <? min_ts
  then Err (InvalidBlock "block timestamp violates minimum interval after parent")
  else Ok tt.

Definition validate_block_vs_local_time (block_ts now_unix max_future_drift : Z) :
    Res ProtocolError unit :=
  let limit := saturating_add now_unix max_future_drift in
  if limit <? block_ts then Err (InvalidBlock "block timestamp too far in the future") else Ok tt.

(** ** Lemmas on the parts of validation *)

Lemma check_unique_ok seen txs :
  check_unique_tx_hashes seen txs = Ok tt ↔
  NoDup (tx_tx_hash <$> txs) ∧ ∀ h, h ∈ tx_tx_hash <$> txs → h ∉ seen.
Proof.
  revert seen. induction txs as [|tx txs IH]; intros seen; cbn [check_unique_tx_hashes].
  { split; [|done]. intros _. split; [constructor|]. set_solver. }
  rewrite fmap_cons, NoDup_cons. case_decide as Hin.
  - split; [done|]. intros [_ Hd]. destruct (Hd (tx_tx_hash tx)); [left|done].
  - rewrite IH. split.
    + intros [Hnd Hd]. split_and!; [|done|].
      * intros Hx. apply Hd in Hx. set_solver.
      * intros h [->|Hh]%elem_of_cons; [done|]. apply Hd in Hh. set_solver.
    + intros [[Hni Hnd] Hd]. split; [done|].
      intros h Hh [->%elem_of_singleton|Hs]%elem_of_union; [done|].
      apply (Hd h); [by right|done].
Qed.

Lemma check_unique_err seen txs e :
  check_unique_tx_hashes seen txs = Err e → e = DuplicateTransaction.
Proof.
  revert seen. induction txs as [|tx txs IH]; intros seen; cbn [check_unique_tx_hashes]; [done|].
  case_decide; [congruence|]. apply IH.
Qed.

Lemma check_unique_no_panic seen txs : check_unique_tx_hashes seen txs ≠ Panic.
Proof.
  revert seen. induction txs as [|tx txs IH]; intros seen; cbn [check_unique_tx_hashes]; [done|].
  case_decide; [done|]. apply IH.
Qed.

Lemma timestamps_ok parent candidate params :
  validate_block_timestamps_vs_parent parent candidate params = Ok tt ↔
  blk_timestamp_unix parent + min_block_interval_secs params ≤ u64_max
  ∧ blk_timestamp_unix parent + min_block_interval_secs params ≤ blk_timestamp_unix candidate.
Proof.
  unfold validate_block_timestamps_vs_parent, rbind, ok_or.
  destruct (checked_add _ _) as [m|] eqn:Ha.
  - apply checked_add_Some in Ha as [? ->]. case_match; split; (done || lia).
  - apply checked_add_None in Ha. split; [done|lia].
Qed.

Lemma timestamps_no_panic p b params : validate_block_timestamps_vs_parent p b params ≠ Panic.
Proof. unfold validate_block_timestamps_vs_parent, rbind, ok_or. by repeat case_match. Qed.

Section block_props.
Context `{CryptoLib}.

(** The declarative meaning of [block_basic_validate] above genesis. *)
Definition valid_block (b : Block) : Prop :=
  trim_is_empty (blk_previous_hash b) = false
  ∧ NoDup (tx_tx_hash <$> blk_transactions b)
  ∧ Forall valid_tx (blk_transactions b)
  ∧ trim_is_empty (blk_block_hash b) = false
  ∧ blk_block_hash b = compute_block_hash b.

Lemma block_basic_validate_ok b :
  blk_height b ≠ 0 → block_basic_validate b = Ok tt ↔ valid_block b.
Proof.
  intros Hh. unfold block_basic_validate, is_genesis, valid_block.
  destruct (Z.eqb_spec (blk_height b) 0); [done|].
  destruct (trim_is_empty (blk_previous_hash b)); [naive_solver|].
  unfold rbind.
  destruct (check_unique_tx_hashes ∅ (blk_transactions b)) as [[]| |] eqn:Hu.
  - apply check_unique_ok in Hu as [Hnd _].
    assert (rfor tx_basic_validate (blk_transactions b) = Ok tt ↔ Forall valid_tx (blk_transactions b)) as Hf.
    { rewrite rfor_ok. apply Forall_iff. intros t. apply tx_basic_validate_ok. }
    destruct (rfor tx_basic_validate (blk_transactions b)) as [[]| |]; [|naive_solver..].
    unfold validate_block_hash. destruct (trim_is_empty (blk_block_hash b)); [naive_solver|].
    destruct (String.eqb_spec (blk_block_hash b) (compute_block_hash b)); naive_solver.
  - split; [done|]. intros (_&Hnd&_). enough (check_unique_tx_hashes ∅ (blk_transactions b) = Ok tt) by congruence.
    apply check_unique_ok. set_solver.
  - by apply check_unique_no_panic in Hu.
Qed.

Lemma block_basic_validate_genesis : block_basic_validate Block_genesis = Ok tt.
Proof. done. Qed.

Lemma block_basic_validate_no_panic b : block_basic_validate b ≠ Panic.
Proof.
  unfold block_basic_validate, rbind.
  pose proof (check_unique_no_panic ∅ (blk_transactions b)).
  pose proof (rfor_no_panic tx_basic_validate (blk_transactions b) tx_basic_validate_no_panic).
  unfold validate_block_hash. repeat case_match; naive_solver.
Qed.
End block_props.

(** ** The header preimage is unambiguous *)

Lemma header_preimage_inj b1 b2 :
  wf_block b1 → wf_block b2 →
  Byte.x7c ∉ str_bytes (blk_previous_hash b1) → Byte.x7c ∉ str_bytes (blk_previous_hash b2) →
  Forall (λ t, tx_tx_hash t ≠ "" ∧ Byte.x7c ∉ str_bytes (tx_tx_hash t)) (blk_transactions b1) →
  Forall (λ t, tx_tx_hash t ≠ "" ∧ Byte.x7c ∉ str_bytes (tx_tx_hash t)) (blk_transactions b2) →
  block_header_preimage_bytes b1 = block_header_preimage_bytes b2 →
  blk_height b1 = blk_height b2 ∧ blk_previous_hash b1 = blk_previous_hash b2
  ∧ blk_timestamp_unix b1 = blk_timestamp_unix b2
  ∧ tx_tx_hash <$> blk_transactions b1 = tx_tx_hash <$> blk_transactions b2.
Proof.
  intros ([? _]&[? _]&_) ([? _]&[? _]&_) Hp1 Hp2 Ht1 Ht2.
  unfold block_header_preimage_bytes, block_header_preimage. rewrite !str_bytes_app.
  change (str_bytes "|") with [Byte.x7c]. intros Heq.
  apply app_sep_inj_l in Heq as [Hh%(inj str_bytes) Heq]; [|apply fmt_uint_no, pipe_not_digit..].
  apply app_sep_inj_l in Heq as [Hp%(inj str_bytes) Heq]; [|done..].
  apply app_sep_inj_l in Heq as [Hts%(inj str_bytes) Heq]; [|apply fmt_uint_no, pipe_not_digit..].
  split_and!; [by apply fmt_uint_inj|done|by apply fmt_uint_inj|].
  apply (join_inj "|" Byte.x7c) in Heq; [done|done|by apply Forall_fmap..].
Qed.

Section block_binding.
Context `{CryptoLaws}.

Lemma valid_tx_hash_clean t :
  valid_tx t → tx_tx_hash t ≠ "" ∧ Byte.x7c ∉ str_bytes (tx_tx_hash t).
Proof.
  intros (_&_&_&_&_&_&->&_). split.
  - intros Hn. pose proof (hash_bytes_length (unsigned_payload_bytes t)) as Hl. by rewrite Hn in Hl.
  - apply hash_bytes_no, pipe_not_hex.
Qed.

(** The header of a block with the signed content of its transactions:
    everything but keys and signatures. *)
Definition block_core (b : Block) :=
  (blk_height b, blk_previous_hash b, blk_timestamp_unix b, signed_fields <$> blk_transactions b,
   blk_block_hash b).

(** A collision of SHA-256 on the headers of two blocks with the same hash, or
    on transactions at the same place in them. *)
Definition blocks_collide (b1 b2 : Block) : Prop :=
  blk_block_hash b1 = blk_block_hash b2
  ∧ (collides (block_header_preimage_bytes b1) (block_header_preimage_bytes b2)
     ∨ ∃ j t1 t2, blk_transactions b1 !! j = Some t1 ∧ blk_transactions b2 !! j = Some t2
         ∧ collides (unsigned_payload_bytes t1) (unsigned_payload_bytes t2)).

Lemma same_ids_same_fields txs1 txs2 :
  Forall wf_tx txs1 → Forall wf_tx txs2 → Forall valid_tx txs1 → Forall valid_tx txs2 →
  tx_tx_hash <$> txs1 = tx_tx_hash <$> txs2 →
  signed_fields <$> txs1 = signed_fields <$> txs2
  ∨ ∃ j t1 t2, txs1 !! j = Some t1 ∧ txs2 !! j = Some t2
      ∧ collides (unsigned_payload_bytes t1) (unsigned_payload_bytes t2).
Proof.
  intros Hw1. revert txs2. induction Hw1 as [|t1 txs1 Ht1 _ IH]; intros [|t2 txs2] Hw2 Hv1 Hv2;
    [by left|done|done|].
  apply Forall_cons in Hw2 as [Ht2 Hw2], Hv1 as [Hv1 Hvs1], Hv2 as [Hv2 Hvs2].
  intros [= Hid Hids]. destruct (valid_tx_same_id t1 t2) as [Hf|Hc]; [done..| |].
  - destruct (IH txs2) as [Hfs|(j&u1&u2&?&?&?)]; [done..| |].
    + left. cbn [fmap list_fmap]. by rewrite Hf, Hfs.
    + right. by exists (S j), u1, u2.
  - right. by exists 0%nat, t1, t2.
Qed.

(** Two valid blocks above genesis whose parent hashes are free of the
    separator, as every hash and the genesis constant are. *)
Lemma block_hash_commits b1 b2 :
  wf_block b1 → wf_block b2 → valid_block b1 → valid_block b2 →
  Byte.x7c ∉ str_bytes (blk_previous_hash b1) → Byte.x7c ∉ str_bytes (blk_previous_hash b2) →
  blk_block_hash b1 = blk_block_hash b2 → block_core b1 = block_core b2 ∨ blocks_collide b1 b2.
Proof.
  intros Hw1 Hw2 (_&_&Ht1&_&He1) (_&_&Ht2&_&He2) Hp1 Hp2 Heq.
  pose proof Heq as Hh. rewrite He1, He2 in Hh. apply hash_bytes_eq in Hh as [Hh|Hc]; [|by right; split; [|left]].
  destruct (header_preimage_inj b1 b2) as (?&?&?&Hids); try done.
  1-2: eapply Forall_impl; [eassumption|apply valid_tx_hash_clean].
  destruct (same_ids_same_fields (blk_transactions b1) (blk_transactions b2)) as [Hf|Hc];
    [apply Hw1|apply Hw2|done..| |].
  - left. unfold block_core. congruence.
  - right. split; [done|by right].
Qed.
End block_binding.

(** ** A sealed block, for the witnesses *)

Module BlockExample.
Import ToyCrypto WalletExample.

Definition seal (b : Block) : Block :=
  mkBlock (blk_height b) (blk_previous_hash b) (blk_timestamp_unix b) (blk_transactions b)
    (compute_block_hash b).

Definition block1 : Block := seal (mkBlock 1 "GENESIS_HASH" 1700000100 [transfer 0; transfer 1] "").
Definition block2 : Block := seal (mkBlock 2 (blk_block_hash block1) 1700000200 [transfer 2] "").
End BlockExample.
