(* ===== verification/Encoding.v ===== *)
(** * Canonical binary encoding ([encoding.rs])

    The cursor and the push helpers are the ones of the source. Each reader is
    shown to be a [Codec]: it accepts exactly the bytes its encoder writes and
    advances past them. Codecs compose along the sequential code of the
    decoders ([codec_seq]), which gives for transactions and for blocks that
    the decoder is the exact inverse of the encoder, in both directions. *)

From Stdlib Require Import ZArith Lia.
From stdpp Require Import base strings list.
From S2P Require Import Prelude Bytes Crypto Transaction Wallet Block.

Definition BLOCK_MAGIC : list byte := str_bytes "TRB1".
Definition TX_MAGIC : list byte := str_bytes "TRT1".
Definition BLOCK_FORMAT_VERSION : Z := 1.
Definition TX_FORMAT_VERSION : Z := 1.

Inductive EncodeError := mkEncodeError (msg : string).

Definition EncodeError_display (e : EncodeError) : string := let 'mkEncodeError s := e in s.

(** ** The cursor *)

Record Cursor := mkCursor { c_data : list byte; c_pos : nat }.

Definition Cursor_new (data : list byte) : Cursor := mkCursor data 0.

Definition remaining (c : Cursor) : Z := Z.of_nat (length (c_data c) - c_pos c).

Definition take_exact (n : Z) : ST Cursor EncodeError (list byte) := λ c,
  if remaining c <? n
  then (Err (mkEncodeError ("unexpected end of input (need " +:+ fmt_uint n +:+ " bytes, have "
                            +:+ fmt_uint (remaining c) +:+ ")")), c)
  else (Ok (take (Z.to_nat n) (drop (c_pos c) (c_data c))),
        mkCursor (c_data c) (c_pos c + Z.to_nat n)).

Definition take_u8 : ST Cursor EncodeError Z :=
  let! b := take_exact 1 in
  slift (expect (byte_to_Z <$> head b)).

Definition take_u32_be : ST Cursor EncodeError Z :=
  let! b := take_exact 4 in
  sret (be_combine b).

Definition take_u64_be : ST Cursor EncodeError Z :=
  let! b := take_exact 8 in
  sret (be_combine b).

Definition take_bytes : ST Cursor EncodeError (list byte) :=
  let! n := take_u32_be in
  take_exact n.

Definition take_string : ST Cursor EncodeError string :=
  let! bytes := take_bytes in
  slift (ok_or (from_utf8 bytes) (mkEncodeError ("invalid utf-8: " +:+ utf8_error bytes))).

Definition cursor_finish (c : Cursor) : Res EncodeError unit :=
  if negb (Nat.eqb (c_pos c) (length (c_data c)))
  then Err (mkEncodeError ("trailing bytes after decode: "
                           +:+ fmt_uint (Z.of_nat (length (c_data c) - c_pos c)) +:+ " bytes"))
  else Ok tt.

(** ** Writers

    [None] is the panic of [u32::try_from(len).expect(..)]. *)

Definition push_u32_be (buf : list byte) (v : Z) : list byte := buf ++ to_be_bytes_u32 v.
Definition push_u64_be (buf : list byte) (v : Z) : list byte := buf ++ to_be_bytes_u64 v.

Definition u32_try_from_expect (n : Z) : option Z := if n <=? u32_max then Some n else None.

Definition push_bytes (buf b : list byte) : option (list byte) :=
  len ← u32_try_from_expect (zlen b);
  Some (push_u32_be buf len ++ b).

Definition push_string (buf : list byte) (s : string) : option (list byte) :=
  push_bytes buf (str_bytes s).

(** ** Transactions *)

Definition encode_transaction (tx : Transaction) : option (list byte) :=
  let out := TX_MAGIC ++ [byte_of_Z TX_FORMAT_VERSION] in
  out ← push_string out (tx_sender tx);
  out ← push_string out (tx_receiver tx);
  let out := push_u64_be out (tx_amount tx) in
  let out := push_u64_be out (tx_fee tx) in
  let out := push_u64_be out (tx_nonce tx) in
  let out := push_u64_be out (tx_timestamp_unix tx) in
  out ← push_bytes out (tx_public_key tx);
  out ← push_bytes out (tx_signature tx);
  push_string out (tx_tx_hash tx).

Definition check_magic (magic : list byte) (msg : string) : ST Cursor EncodeError unit :=
  let! m := take_exact 4 in
  if negb (bool_decide (m = magic)) then sfail (mkEncodeError msg) else sret tt.

Definition check_version (version : Z) (what : string) : ST Cursor EncodeError unit :=
  let! ver := take_u8 in
  if negb (ver =? version)
  then sfail (mkEncodeError ("unsupported " +:+ what +:+ " format version " +:+ fmt_uint ver))
  else sret tt.

Definition decode_transaction_fields : ST Cursor EncodeError Transaction :=
  let! sender := take_string in
  let! receiver := take_string in
  let! amount := take_u64_be in
  let! fee := take_u64_be in
  let! nonce := take_u64_be in
  let! timestamp_unix := take_u64_be in
  let! public_key := take_bytes in
  let! signature := take_bytes in
  let! tx_hash := take_string in
  sret (mkTransaction (Address_new sender) (Address_new receiver) amount fee nonce timestamp_unix
          public_key signature tx_hash).

Definition decode_transaction (data : list byte) : Res EncodeError Transaction :=
  fst ((check_magic TX_MAGIC "bad transaction magic" ;;!
   check_version TX_FORMAT_VERSION "tx" ;;!
   let! tx := decode_transaction_fields in
   let! c := sget in
   slift (cursor_finish c) ;;!
   sret tx) (Cursor_new data)).

(** ** Blocks *)

Fixpoint encode_block_txs (out : list byte) (txs : list Transaction) : option (list byte) :=
  match txs with
  | [] => Some out
  | tx :: txs' =>
    nested ← encode_transaction tx;
    len ← u32_try_from_expect (zlen nested);
    encode_block_txs (push_u32_be out len ++ nested) txs'
  end.

Definition encode_block (block : Block) : option (list byte) :=
  let out := BLOCK_MAGIC ++ [byte_of_Z BLOCK_FORMAT_VERSION] in
  let out := push_u64_be out (blk_height block) in
  out ← push_string out (blk_previous_hash block);
  let out := push_u64_be out (blk_timestamp_unix block) in
  n ← u32_try_from_expect (zlen (blk_transactions block));
  let out := push_u32_be out n in
  out ← encode_block_txs out (blk_transactions block);
  push_string out (blk_block_hash block).

Definition decode_nested_tx (i : Z) : ST Cursor EncodeError Transaction :=
  let! len := take_u32_be in
  let! chunk := take_exact len in
  slift (map_err (λ e, mkEncodeError ("tx " +:+ fmt_uint i +:+ ": " +:+ EncodeError_display e))
           (decode_transaction chunk)).

(** The loop [for i in 0..n]; [k] is the number of iterations left. *)
Fixpoint decode_block_txs (k : nat) (i : Z) : ST Cursor EncodeError (list Transaction) :=
  match k with
  | O => sret []
  | S k' =>
    let! tx := decode_nested_tx i in
    let! txs := decode_block_txs k' (i + 1) in
    sret (tx :: txs)
  end.

(** [Vec::with_capacity(n)] only reserves memory for the count read, and is taken
    to succeed. *)
Definition decode_block_fields : ST Cursor EncodeError Block :=
  let! height := take_u64_be in
  let! previous_hash := take_string in
  let! timestamp_unix := take_u64_be in
  let! n := take_u32_be in
  let! transactions := decode_block_txs (Z.to_nat n) 0 in
  let! block_hash := take_string in
  sret (mkBlock height previous_hash timestamp_unix transactions block_hash).

Definition decode_block (data : list byte) : Res EncodeError Block :=
  fst ((check_magic BLOCK_MAGIC "bad block magic" ;;!
   check_version BLOCK_FORMAT_VERSION "block" ;;!
   let! block := decode_block_fields in
   let! c := sget in
   slift (cursor_finish c) ;;!
   sret block) (Cursor_new data)).

(** ** Codecs *)

(** [m] reads exactly the bytes [enc a] for the values satisfying [P]. *)
Class Codec {A} (m : ST Cursor EncodeError A) (enc : A → list byte) (P : A → Prop) : Prop := {
  codec_complete data pos a rest :
    P a → drop pos data = enc a ++ rest →
    m (mkCursor data pos) = (Ok a, mkCursor data (pos + length (enc a)));
  codec_sound data pos a c' :
    m (mkCursor data pos) = (Ok a, c') →
    P a ∧ c' = mkCursor data (pos + length (enc a)) ∧ ∃ rest, drop pos data = enc a ++ rest;
  codec_no_panic data pos : (m (mkCursor data pos)).1 ≠ Panic
}.

Lemma take_exact_ok data pos n bs rest :
  zlen bs = n → drop pos data = bs ++ rest →
  take_exact n (mkCursor data pos) = (Ok bs, mkCursor data (pos + length bs)).
Proof.
  unfold zlen, take_exact, remaining. simpl. intros <- Hd.
  pose proof (f_equal length Hd) as Hl. rewrite length_drop, length_app in Hl.
  destruct (Z.ltb_spec (Z.of_nat (length data - pos)) (Z.of_nat (length bs))); [lia|].
  by rewrite Hd, Nat2Z.id, take_app_length.
Qed.

Lemma take_exact_sound data pos n bs c' :
  0 ≤ n → take_exact n (mkCursor data pos) = (Ok bs, c') →
  zlen bs = n ∧ c' = mkCursor data (pos + length bs) ∧ ∃ rest, drop pos data = bs ++ rest.
Proof.
  unfold take_exact, remaining, zlen. simpl. intros Hn.
  destruct (Z.ltb_spec (Z.of_nat (length data - pos)) n); [done|]. intros Heq. simpl_res.
  rewrite length_take, length_drop. split_and!.
  - lia.
  - f_equal. lia.
  - exists (drop (Z.to_nat n) (drop pos data)). by rewrite take_drop.
Qed.

Lemma take_exact_no_panic n c : (take_exact n c).1 ≠ Panic.
Proof. unfold take_exact. by case_match. Qed.

Lemma codec_take_exact (n : Z) : 0 ≤ n → Codec (take_exact n) id (λ bs, zlen bs = n).
Proof.
  intros Hn. split.
  - intros. by eapply take_exact_ok.
  - intros data pos bs c' Heq. by apply take_exact_sound in Heq.
  - intros. apply take_exact_no_panic.
Qed.

Lemma codec_ret {A} (a0 : A) (P : A → Prop) :
  (∀ a, P a ↔ a = a0) → Codec (sret a0) (λ _, []) P.
Proof.
  intros HP. split; unfold sret.
  - intros data pos a rest Ha _. apply HP in Ha as ->. by rewrite Nat.add_0_r.
  - intros data pos a c' Heq. simpl_res. rewrite Nat.add_0_r. split_and!; [by apply HP|done|by eexists].
  - done.
Qed.

Lemma codec_ext {A} (m : ST Cursor EncodeError A) enc1 enc2 (P1 P2 : A → Prop) :
  Codec m enc1 P1 → (∀ a, P1 a ↔ P2 a) → (∀ a, P1 a → enc1 a = enc2 a) → Codec m enc2 P2.
Proof.
  intros Hm HP He. split.
  - intros data pos a rest Ha Hd. apply HP in Ha. rewrite <- He in Hd |- * by done.
    by eapply codec_complete.
  - intros data pos a c' Heq. apply codec_sound in Heq as (Ha&->&rest&Hd).
    rewrite <- He by done. split_and!; [by apply HP|done|by exists rest].
  - apply codec_no_panic.
Qed.

(** Sequencing: read a field, then the rest; the value read is the
    field [f] of the final result. *)
Lemma codec_seq {A B} (m : ST Cursor EncodeError A) (k : A → ST Cursor EncodeError B)
    encA encR (PA : A → Prop) (P : B → Prop) (f : B → A) :
  Codec m encA PA →
  (∀ a, PA a → Codec (k a) encR (λ b, f b = a ∧ P b)) →
  (∀ b, P b → PA (f b)) →
  Codec (sbind m k) (λ b, encA (f b) ++ encR b) P.
Proof.
  intros Hm Hk HP. split.
  - intros data pos b rest Hb Hd. unfold sbind. rewrite <- (assoc_L (++)) in Hd.
    rewrite (codec_complete data pos (f b) (encR b ++ rest)) by auto.
    pose proof (Hk (f b) (HP b Hb)) as Hkb.
    assert (drop (pos + length (encA (f b))) data = encR b ++ rest) as Hd'.
    { rewrite <- drop_drop, Hd. by rewrite drop_app_length. }
    rewrite (codec_complete (m := k (f b)) data (pos + length (encA (f b))) b rest) by auto.
    rewrite length_app. do 2 f_equal. lia.
  - intros data pos b c' Heq. unfold sbind in Heq.
    destruct (m (mkCursor data pos)) as [[a| |] c1] eqn:Hm1; simpl_res.
    apply codec_sound in Hm1 as (Ha&->&rest1&Hd1).
    pose proof (Hk a Ha) as Hka.
    apply (codec_sound (m := k a)) in Heq as ((<-&Hb)&->&rest2&Hd2).
    rewrite <- drop_drop, Hd1, drop_app_length in Hd2. subst rest1.
    split_and!; [done| |].
    + rewrite length_app. f_equal. lia.
    + exists rest2. by rewrite Hd1, (assoc_L (++)).
  - intros data pos. unfold sbind.
    destruct (m (mkCursor data pos)) as [[a| |] c1] eqn:Hm1; simpl; [|done|].
    + apply codec_sound in Hm1 as (Ha&->&_). pose proof (Hk a Ha). apply codec_no_panic.
    + pose proof (codec_no_panic (m := m) data pos) as Hn. by rewrite Hm1 in Hn.
Qed.

(** Post-processing of a value read, by a partial function with an encoder as inverse. *)
Lemma codec_lift {A B} (m : ST Cursor EncodeError A) (k : A → ST Cursor EncodeError B)
    (g : A → Res EncodeError B) encA (PA : A → Prop) (h : B → A) (P : B → Prop) :
  Codec m encA PA →
  (∀ a c, k a c = (g a, c)) →
  (∀ b, P b → PA (h b) ∧ g (h b) = Ok b) →
  (∀ a b, PA a → g a = Ok b → P b ∧ h b = a) →
  (∀ a, PA a → g a ≠ Panic) →
  Codec (sbind m k) (λ b, encA (h b)) P.
Proof.
  intros Hm Hk Hg1 Hg2 Hg3. split; unfold sbind.
  - intros data pos b rest Hb Hd. destruct (Hg1 b Hb) as [? Hgb].
    rewrite (codec_complete data pos (h b) rest) by auto. by rewrite Hk, Hgb.
  - intros data pos b c' Heq.
    destruct (m (mkCursor data pos)) as [[a| |] c1] eqn:Hm1; simpl_res.
    apply codec_sound in Hm1 as (Ha&->&rest&Hd). rewrite Hk in Heq.
    destruct (g a) as [b'| |] eqn:Hga; simpl_res.
    destruct (Hg2 a b Ha Hga) as [? <-]. eauto.
  - intros data pos. destruct (m (mkCursor data pos)) as [[a| |] c1] eqn:Hm1; simpl; [|done|].
    + apply codec_sound in Hm1 as (Ha&_). rewrite Hk. simpl. auto.
    + pose proof (codec_no_panic (m := m) data pos) as Hn. by rewrite Hm1 in Hn.
Qed.

(** ** The readers are codecs *)

Definition enc_bytes (b : list byte) : list byte := to_be_bytes_u32 (zlen b) ++ b.
Definition enc_string (s : string) : list byte := enc_bytes (str_bytes s).

Definition fits_u32 (b : list byte) : Prop := zlen b ≤ u32_max.
Definition str_ok (s : string) : Prop := utf8_valid (str_bytes s) = true ∧ fits_u32 (str_bytes s).

Lemma zlen_be_bytes n z : zlen (be_bytes n z) = Z.of_nat n.
Proof. unfold zlen. by rewrite length_be_bytes. Qed.

Lemma codec_u8 : Codec take_u8 (λ z, [byte_of_Z z]) (λ z, 0 ≤ z < 256).
Proof.
  unfold take_u8.
  apply (codec_lift (take_exact 1) _ (λ b, expect (byte_to_Z <$> head b)) id (λ b, zlen b = 1)
           (λ z, [byte_of_Z z])); [by apply codec_take_exact|done|..].
  - intros z Hz. split; [done|]. simpl. by rewrite byte_to_of_Z, Z.mod_small.
  - intros [|b [|]] z Hb; [done| |unfold zlen in Hb; simpl in Hb; lia]. simpl. intros ?; simpl_res.
    rewrite byte_of_to_Z. split; [apply byte_to_Z_range|done].
  - by intros [|].
Qed.

Lemma codec_u32 : Codec take_u32_be to_be_bytes_u32 in_u32.
Proof.
  unfold take_u32_be.
  apply (codec_lift (take_exact 4) _ (λ b, Ok (be_combine b)) id (λ b, zlen b = 4) to_be_bytes_u32);
    [by apply codec_take_exact|done|..].
  - intros z Hz. split; [apply zlen_be_bytes|]. by rewrite be_combine_u32.
  - intros b z Hb ?; simpl_res. assert (length b = 4%nat) by (unfold zlen in Hb; lia).
    split; [by apply be_combine_in_u32|by apply be_bytes_combine].
  - done.
Qed.

Lemma codec_u64 : Codec take_u64_be to_be_bytes_u64 in_u64.
Proof.
  unfold take_u64_be.
  apply (codec_lift (take_exact 8) _ (λ b, Ok (be_combine b)) id (λ b, zlen b = 8) to_be_bytes_u64);
    [by apply codec_take_exact|done|..].
  - intros z Hz. split; [apply zlen_be_bytes|]. by rewrite be_combine_u64.
  - intros b z Hb ?; simpl_res. assert (length b = 8%nat) by (unfold zlen in Hb; lia).
    split; [by apply be_combine_in_u64|by apply be_bytes_combine].
  - done.
Qed.

Lemma codec_bytes : Codec take_bytes enc_bytes fits_u32.
Proof.
  unfold take_bytes, enc_bytes.
  apply (codec_seq take_u32_be take_exact to_be_bytes_u32 id in_u32 fits_u32 zlen); [apply codec_u32| |].
  - intros n [Hn0 Hn]. eapply codec_ext; [by apply codec_take_exact| |done].
    intros b. unfold fits_u32. split; [intros <-; lia|tauto].
  - intros b Hb. unfold in_u32, fits_u32 in *. pose proof (zlen_nonneg b). lia.
Qed.

Lemma codec_string : Codec take_string enc_string str_ok.
Proof.
  unfold take_string, enc_string.
  apply (codec_lift take_bytes _ (λ b, ok_or (from_utf8 b) (mkEncodeError ("invalid utf-8: " +:+ utf8_error b))) enc_bytes fits_u32
           str_bytes); [apply codec_bytes|done|..].
  - intros s [Hs ?]. split; [done|]. by rewrite from_utf8_str.
  - intros b s Hb Hs. unfold ok_or in Hs. destruct (from_utf8 b) as [s'|] eqn:Hf; simpl_res.
    apply from_utf8_Some in Hf as [? ->]. by split.
  - intros b _. unfold ok_or. by case_match.
Qed.

Lemma codec_check_magic magic msg :
  zlen magic = 4 → Codec (check_magic magic msg) (λ _, magic) (λ _, True).
Proof.
  intros Hm. unfold check_magic.
  apply (codec_lift (take_exact 4) _
    (λ m, if negb (bool_decide (m = magic)) then Err (mkEncodeError msg) else Ok tt) id
    (λ b, zlen b = 4) (λ _ : unit, magic) (λ _, True)); [by apply codec_take_exact|..].
  - intros m c. by case_match.
  - intros [] _. split; [done|]. by rewrite bool_decide_eq_true_2.
  - intros m [] _. by case_bool_decide.
  - intros m _. by case_match.
Qed.

Lemma codec_check_version v what :
  0 ≤ v < 256 → Codec (check_version v what) (λ _, [byte_of_Z v]) (λ _, True).
Proof.
  intros Hv. unfold check_version.
  apply (codec_lift take_u8 _
    (λ ver, if negb (ver =? v)
            then Err (mkEncodeError ("unsupported " +:+ what +:+ " format version " +:+ fmt_uint ver))
            else Ok tt) (λ z, [byte_of_Z z]) (λ z, 0 ≤ z < 256) (λ _ : unit, v) (λ _, True));
    [apply codec_u8|..].
  - intros m c. by case_match.
  - intros [] _. split; [done|]. by rewrite Z.eqb_refl.
  - intros z [] Hz. destruct (Z.eqb_spec z v); by subst.
  - intros m _. by case_match.
Qed.

(** ** The decoders are inverse to the encoders *)

Definition tx_encodable (t : Transaction) : Prop :=
  wf_tx t ∧ fits_u32 (str_bytes (tx_sender t)) ∧ fits_u32 (str_bytes (tx_receiver t))
  ∧ fits_u32 (tx_public_key t) ∧ fits_u32 (tx_signature t) ∧ fits_u32 (str_bytes (tx_tx_hash t)).

Definition tx_fields_bytes (t : Transaction) : list byte :=
  enc_string (tx_sender t) ++ enc_string (tx_receiver t)
  ++ to_be_bytes_u64 (tx_amount t) ++ to_be_bytes_u64 (tx_fee t) ++ to_be_bytes_u64 (tx_nonce t)
  ++ to_be_bytes_u64 (tx_timestamp_unix t) ++ enc_bytes (tx_public_key t)
  ++ enc_bytes (tx_signature t) ++ enc_string (tx_tx_hash t) ++ [].

Ltac codec_step f :=
  match goal with
  | |- Codec (sbind take_string ?k) _ ?P =>
    apply (codec_seq take_string k enc_string _ str_ok P f codec_string)
  | |- Codec (sbind take_u64_be ?k) _ ?P =>
    apply (codec_seq take_u64_be k to_be_bytes_u64 _ in_u64 P f codec_u64)
  | |- Codec (sbind take_bytes ?k) _ ?P =>
    apply (codec_seq take_bytes k enc_bytes _ fits_u32 P f codec_bytes)
  end.

Lemma codec_transaction_fields :
  Codec decode_transaction_fields tx_fields_bytes tx_encodable.
Proof.
  unfold decode_transaction_fields, tx_fields_bytes.
  codec_step tx_sender; [intros ? [??]|unfold tx_encodable, wf_tx, str_ok; tauto].
  codec_step tx_receiver; [intros ? [??]|unfold tx_encodable, wf_tx, str_ok; tauto].
  codec_step tx_amount; [intros ? ?|unfold tx_encodable, wf_tx; tauto].
  codec_step tx_fee; [intros ? ?|unfold tx_encodable, wf_tx; tauto].
  codec_step tx_nonce; [intros ? ?|unfold tx_encodable, wf_tx; tauto].
  codec_step tx_timestamp_unix; [intros ? ?|unfold tx_encodable, wf_tx; tauto].
  codec_step tx_public_key; [intros ? ?|unfold tx_encodable, wf_tx; tauto].
  codec_step tx_signature; [intros ? ?|unfold tx_encodable, wf_tx; tauto].
  codec_step tx_tx_hash; [intros ? [??]|unfold tx_encodable, wf_tx, str_ok; tauto].
  apply codec_ret. intros t. split.
  - intros. destruct_and!. destruct t; simpl in *; by subst.
  - intros ->. unfold tx_encodable, wf_tx, Address_new; simpl. tauto.
Qed.

(** The common shape of the two decoders: magic, version, fields, end of input. *)
Section framed.
Context {A : Type} (mg vr : ST Cursor EncodeError unit) (m : ST Cursor EncodeError A).
Context (magic ver : list byte) (enc : A → list byte) (P : A → Prop).
Context (Hmg : Codec mg (λ _, magic) (λ _, True)) (Hvr : Codec vr (λ _, ver) (λ _, True)).
Context (Hm : Codec m enc P).

Definition decode_framed (data : list byte) : Res EncodeError A :=
  fst ((mg ;;! vr ;;!
        let! x := m in
        let! c := sget in
        slift (cursor_finish c) ;;!
        sret x) (Cursor_new data)).

Lemma framed_codec : Codec (mg ;;! vr ;;! m) (λ a, magic ++ ver ++ enc a) P.
Proof.
  apply (codec_seq mg _ (λ _, magic) _ (λ _, True) P (λ _, tt) Hmg); [intros [] _|done].
  apply (codec_seq vr _ (λ _, ver) _ (λ _, True) _ (λ _, tt) Hvr); [intros [] _|done].
  eapply codec_ext; [exact Hm|tauto|done].
Qed.

Lemma framed_run data :
  decode_framed data =
  match (mg ;;! vr ;;! m) (Cursor_new data) with
  | (Ok x, c) => cursor_finish c ;;? Ok x
  | (Err e, _) => Err e
  | (Panic, _) => Panic
  end.
Proof.
  unfold decode_framed, sbind, sget, slift, sret, rbind.
  destruct (mg _) as [[[]| |] c1]; [|done..].
  destruct (vr c1) as [[[]| |] c2]; [|done..].
  destruct (m c2) as [[x| |] c3]; [|done..]. by destruct (cursor_finish c3) as [[]| |].
Qed.

Lemma decode_framed_ok data a : decode_framed data = Ok a ↔ P a ∧ data = magic ++ ver ++ enc a.
Proof.
  pose proof framed_codec as Hc. rewrite framed_run. unfold Cursor_new. split.
  - destruct ((mg ;;! vr ;;! m) (mkCursor data 0)) as [[x| |] c] eqn:Hr; [|done..].
    apply (codec_sound (m := mg ;;! vr ;;! m)) in Hr as (HP&->&rest&Hd). rewrite drop_0 in Hd.
    unfold cursor_finish, rbind. simpl. case_match eqn:Hl; [|done..]. intros Heq.
    case_match eqn:Hn; [done|]. injection Heq as ->. split; [done|].
    apply negb_false_iff, Nat.eqb_eq in Hn.
    pose proof (f_equal length Hd) as Hlen. rewrite (length_app _ rest) in Hlen.
    destruct rest; [by rewrite app_nil_r in Hd|cbn [length] in Hlen; lia].
  - intros [HP Hd].
    rewrite (codec_complete (m := mg ;;! vr ;;! m) data 0 a []) by (rewrite ?drop_0, ?app_nil_r; done).
    unfold cursor_finish. simpl. rewrite <- Hd, Nat.eqb_refl. done.
Qed.

Lemma decode_framed_no_panic data : decode_framed data ≠ Panic.
Proof.
  pose proof framed_codec as Hc. rewrite framed_run.
  pose proof (codec_no_panic (m := mg ;;! vr ;;! m) data 0) as Hn. unfold Cursor_new.
  destruct ((mg ;;! vr ;;! m) (mkCursor data 0)) as [[x| |] c]; simpl in *;
    [unfold cursor_finish, rbind; repeat case_match; done|done..].
Qed.
End framed.

Definition tx_encoding (t : Transaction) : list byte :=
  TX_MAGIC ++ [byte_of_Z TX_FORMAT_VERSION] ++ tx_fields_bytes t.

Lemma push_bytes_Some buf b out :
  push_bytes buf b = Some out ↔ fits_u32 b ∧ out = buf ++ enc_bytes b.
Proof.
  unfold push_bytes, u32_try_from_expect, fits_u32, push_u32_be, enc_bytes.
  destruct (Z.leb_spec (zlen b) u32_max); cbn [mbind option_bind]; rewrite (assoc_L (++)).
  - split; [intros [= <-]; by split|by intros [_ ->]].
  - split; [done|lia].
Qed.

Lemma push_bytes_fits buf b : fits_u32 b → push_bytes buf b = Some (buf ++ enc_bytes b).
Proof. intros. by apply push_bytes_Some. Qed.

Lemma encode_transaction_Some t out :
  encode_transaction t = Some out ↔
  (fits_u32 (str_bytes (tx_sender t)) ∧ fits_u32 (str_bytes (tx_receiver t))
   ∧ fits_u32 (tx_public_key t) ∧ fits_u32 (tx_signature t) ∧ fits_u32 (str_bytes (tx_tx_hash t)))
  ∧ out = tx_encoding t.
Proof.
  unfold encode_transaction, push_string, push_u64_be, tx_encoding, tx_fields_bytes, enc_string.
  rewrite app_nil_r. split.
  - intros (o1&[? ->]%push_bytes_Some&(o2&[? ->]%push_bytes_Some&(o3&[? ->]%push_bytes_Some
      &(o4&[? ->]%push_bytes_Some&[? ->]%push_bytes_Some)%bind_Some)%bind_Some)%bind_Some)%bind_Some.
    split; [done|]. by rewrite <- !(assoc_L (++)).
  - intros [(?&?&?&?&?) ->]. repeat (rewrite push_bytes_fits by done; cbn [mbind option_bind]).
    by rewrite <- !(assoc_L (++)).
Qed.

Lemma decode_transaction_ok data t :
  decode_transaction data = Ok t ↔ tx_encodable t ∧ data = tx_encoding t.
Proof.
  apply (decode_framed_ok _ _ decode_transaction_fields TX_MAGIC [byte_of_Z TX_FORMAT_VERSION]
           tx_fields_bytes tx_encodable).
  - by apply codec_check_magic.
  - by apply codec_check_version.
  - apply codec_transaction_fields.
Qed.

Lemma decode_transaction_no_panic data : decode_transaction data ≠ Panic.
Proof.
  apply (decode_framed_no_panic _ _ decode_transaction_fields TX_MAGIC [byte_of_Z TX_FORMAT_VERSION]
           tx_fields_bytes tx_encodable).
  - by apply codec_check_magic.
  - by apply codec_check_version.
  - apply codec_transaction_fields.
Qed.

Lemma decode_encode_transaction t out :
  wf_tx t → encode_transaction t = Some out → decode_transaction out = Ok t.
Proof.
  intros Hw [Hf ->]%encode_transaction_Some. apply decode_transaction_ok. by split.
Qed.

(** [decode_transaction] is the exact inverse of [encode_transaction]: it
    returns [tx] precisely on the one byte string the encoder produces for
    [tx]. Both directions matter: what is encoded is read back unchanged, and
    no other bytes (trailing data, another version, a different length form)
    decode to the same transaction. *)
Theorem decode_transaction_iff_encode data tx :
  decode_transaction data = Ok tx ↔ wf_tx tx ∧ encode_transaction tx = Some data.
Proof.
  rewrite decode_transaction_ok, encode_transaction_Some. unfold tx_encodable. tauto.
Qed.

Definition nested_ok (t : Transaction) : Prop := tx_encodable t ∧ fits_u32 (tx_encoding t).
Definition enc_nested (t : Transaction) : list byte := enc_bytes (tx_encoding t).
Definition enc_txs (l : list Transaction) : list byte := concat (enc_nested <$> l).

Lemma codec_nested_tx i : Codec (decode_nested_tx i) enc_nested nested_ok.
Proof.
  unfold decode_nested_tx, enc_nested, enc_bytes.
  apply (codec_seq take_u32_be _ to_be_bytes_u32 tx_encoding in_u32 nested_ok
           (λ t, zlen (tx_encoding t)) codec_u32).
  - intros len [Hl0 Hl].
    apply (codec_lift (take_exact len) _
      (λ chunk, map_err (λ e, mkEncodeError ("tx " +:+ fmt_uint i +:+ ": " +:+ EncodeError_display e))
                  (decode_transaction chunk)) id (λ b, zlen b = len) tx_encoding);
      [by apply codec_take_exact|done|..].
    + intros t [? [He _]]. split; [done|]. unfold id.
      assert (decode_transaction (tx_encoding t) = Ok t) as -> by (by apply decode_transaction_ok). done.
    + intros chunk t Hc Hd. unfold map_err in Hd.
      destruct (decode_transaction chunk) as [t'| |] eqn:Ht; simpl_res.
      apply decode_transaction_ok in Ht as [He ->].
      unfold nested_ok, fits_u32. split_and!; (done || lia).
    + intros chunk _ Hp. unfold map_err in Hp.
      pose proof (decode_transaction_no_panic chunk). by destruct (decode_transaction chunk).
  - intros t [_ Hf]. unfold in_u32, fits_u32 in *. pose proof (zlen_nonneg (tx_encoding t)). lia.
Qed.

Lemma codec_block_txs k i :
  Codec (decode_block_txs k i) enc_txs (λ l, length l = k ∧ Forall nested_ok l).
Proof.
  revert i. induction k as [|k IH]; intros i; cbn [decode_block_txs].
  { eapply codec_ext; [apply (codec_ret [] (λ l, length l = 0%nat ∧ Forall nested_ok l))| |].
    - intros [|]; split; try done. by intros [? _].
    - done.
    - by intros [|? ?] [? ?]. }
  pose (hd := λ l : list Transaction, default (mkTransaction "" "" 0 0 0 0 [] [] "") (head l)).
  eapply codec_ext.
  - apply (codec_seq (decode_nested_tx i) _ enc_nested (λ l, enc_txs (tail l) ++ []) nested_ok
      (λ l, length l = S k ∧ Forall nested_ok l) hd (codec_nested_tx i)).
    + intros t Ht.
      apply (codec_seq (decode_block_txs k (i + 1)) _ enc_txs (λ _, []) _ _ tail (IH (i + 1))).
      * intros l [Hl Hf]. apply codec_ret. intros l'. split.
        -- intros (?&?&?&?). destruct l' as [|t' l']; [done|]. unfold hd in *. by simplify_eq/=.
        -- intros ->. unfold hd. simpl. split_and!; [done|done|lia|by constructor].
      * intros [|t' l] (_&?&Hf); [done|]. apply Forall_cons in Hf as [??]. simpl in *. split; [lia|done].
    + intros [|t l] [? Hf]; [done|]. by apply Forall_cons in Hf as [??].
  - done.
  - intros [|t l] [? _]; [done|]. cbn beta. rewrite app_nil_r. done.
Qed.

Definition block_encodable (b : Block) : Prop :=
  wf_block b ∧ fits_u32 (str_bytes (blk_previous_hash b)) ∧ fits_u32 (str_bytes (blk_block_hash b))
  ∧ zlen (blk_transactions b) ≤ u32_max ∧ Forall nested_ok (blk_transactions b).

Definition block_fields_bytes (b : Block) : list byte :=
  to_be_bytes_u64 (blk_height b) ++ enc_string (blk_previous_hash b)
  ++ to_be_bytes_u64 (blk_timestamp_unix b) ++ to_be_bytes_u32 (zlen (blk_transactions b))
  ++ enc_txs (blk_transactions b) ++ enc_string (blk_block_hash b) ++ [].

Definition block_encoding (b : Block) : list byte :=
  BLOCK_MAGIC ++ [byte_of_Z BLOCK_FORMAT_VERSION] ++ block_fields_bytes b.

Lemma nested_ok_wf l : Forall nested_ok l → Forall wf_tx l.
Proof. intros H. eapply Forall_impl; [exact H|]. by intros t [[? _] _]. Qed.

Lemma codec_block_fields : Codec decode_block_fields block_fields_bytes block_encodable.
Proof.
  unfold decode_block_fields, block_fields_bytes.
  codec_step blk_height; [intros ? ?|unfold block_encodable, wf_block; tauto].
  codec_step blk_previous_hash; [intros ? [??]|unfold block_encodable, wf_block, str_ok; tauto].
  codec_step blk_timestamp_unix; [intros ? ?|unfold block_encodable, wf_block; tauto].
  apply (codec_seq take_u32_be _ to_be_bytes_u32 _ in_u32 _ (λ b, zlen (blk_transactions b)) codec_u32).
  2: { intros b (_&_&_&_&_&_&Hn&_). split; [apply zlen_nonneg|done]. }
  intros n [Hn0 Hn].
  apply (codec_seq (decode_block_txs (Z.to_nat n) 0) _ enc_txs _ _ _ blk_transactions
           (codec_block_txs (Z.to_nat n) 0)).
  2: { intros b (Hb&_&_&_&_&_&_&_&Hf). split; [unfold zlen in Hb; lia|done]. }
  intros txs [Htl Htf].
  codec_step blk_block_hash; [intros ? [??]|unfold block_encodable, wf_block, str_ok; tauto].
  apply codec_ret. intros b. split.
  - intros. destruct_and!. destruct b; simpl in *; by subst.
  - intros ->. unfold block_encodable, wf_block, zlen; simpl.
    pose proof (nested_ok_wf _ Htf). split_and!; try done; lia.
Qed.

Lemma decode_block_ok data b :
  decode_block data = Ok b ↔ block_encodable b ∧ data = block_encoding b.
Proof.
  apply (decode_framed_ok _ _ decode_block_fields BLOCK_MAGIC [byte_of_Z BLOCK_FORMAT_VERSION]
           block_fields_bytes block_encodable).
  - by apply codec_check_magic.
  - by apply codec_check_version.
  - apply codec_block_fields.
Qed.

Lemma decode_block_no_panic data : decode_block data ≠ Panic.
Proof.
  apply (decode_framed_no_panic _ _ decode_block_fields BLOCK_MAGIC [byte_of_Z BLOCK_FORMAT_VERSION]
           block_fields_bytes block_encodable).
  - by apply codec_check_magic.
  - by apply codec_check_version.
  - apply codec_block_fields.
Qed.

Lemma encode_block_txs_Some out txs res :
  Forall wf_tx txs →
  encode_block_txs out txs = Some res ↔ Forall nested_ok txs ∧ res = out ++ enc_txs txs.
Proof.
  intros Hw. revert out. induction Hw as [|t txs Ht _ IH]; intros out; cbn [encode_block_txs].
  { unfold enc_txs. simpl. rewrite app_nil_r. naive_solver. }
  rewrite Forall_cons.
  assert (enc_txs (t :: txs) = enc_nested t ++ enc_txs txs) as -> by done.
  assert (∀ n, encode_transaction t = Some n ↔ tx_encodable t ∧ n = tx_encoding t) as He.
  { intros n. rewrite encode_transaction_Some. unfold tx_encodable. tauto. }
  assert (push_u32_be out (zlen (tx_encoding t)) ++ tx_encoding t = out ++ enc_nested t) as Hpush.
  { unfold push_u32_be, enc_nested, enc_bytes. by rewrite (assoc_L (++)). }
  unfold nested_ok at 1, fits_u32, u32_try_from_expect. rewrite bind_Some. split.
  - intros (n&Hn&Hr). apply He in Hn as [Hte ->].
    destruct (Z.leb_spec (zlen (tx_encoding t)) u32_max); cbn [mbind option_bind] in Hr; [|done].
    rewrite Hpush in Hr. apply IH in Hr as [Hf ->]. by rewrite (assoc_L (++)).
  - intros [[[Hte Hl] Hf] ->]. exists (tx_encoding t). split; [by apply He|].
    destruct (Z.leb_spec (zlen (tx_encoding t)) u32_max); cbn [mbind option_bind]; [|lia].
    rewrite Hpush. apply IH. by rewrite (assoc_L (++)).
Qed.

Lemma encode_block_Some b out :
  wf_block b → encode_block b = Some out ↔ block_encodable b ∧ out = block_encoding b.
Proof.
  intros Hw. pose proof Hw as (_&_&_&_&Ht).
  unfold encode_block, push_string, push_u64_be, u32_try_from_expect, block_encodable,
    block_encoding, block_fields_bytes, enc_string.
  rewrite app_nil_r, bind_Some. split.
  - intros (o1&[? ->]%push_bytes_Some&Hr).
    destruct (Z.leb_spec (zlen (blk_transactions b)) u32_max); cbn [mbind option_bind] in Hr; [|done].
    apply bind_Some in Hr as (o2&Ho2&[? ->]%push_bytes_Some).
    apply encode_block_txs_Some in Ho2 as [? ->]; [|done]. unfold push_u32_be.
    split; [done|]. by rewrite <- !(assoc_L (++)).
  - intros [(_&?&?&?&?) ->]. eexists. split; [by apply push_bytes_fits|].
    destruct (Z.leb_spec (zlen (blk_transactions b)) u32_max); cbn [mbind option_bind]; [|lia].
    apply bind_Some. eexists. split; [by apply encode_block_txs_Some|].
    rewrite push_bytes_fits by done. unfold push_u32_be. by rewrite <- !(assoc_L (++)).
Qed.

Lemma decode_encode_block b out : wf_block b → encode_block b = Some out → decode_block out = Ok b.
Proof. intros Hw [? ->]%encode_block_Some; [|done]. by apply decode_block_ok. Qed.

Lemma encode_decode_block data b : decode_block data = Ok b → wf_block b ∧ encode_block b = Some data.
Proof.
  intros [He ->]%decode_block_ok. pose proof He as [Hw _]. split; [done|]. by apply encode_block_Some.
Qed.

(** C17: [decode_block] is the exact inverse of [encode_block]: a block decodes
    from exactly the bytes it encodes to, so the disk and wire format of a
    block is canonical (no second byte string, however it differs in lengths,
    counts or trailing data, decodes to the same block). *)
Theorem decode_block_iff_encode data b :
  decode_block data = Ok b ↔ wf_block b ∧ encode_block b = Some data.
Proof.
  split; [apply encode_decode_block|]. intros [Hw He]. by apply decode_encode_block.
Qed.

(** The decoders are total on arbitrary (hostile) bytes: they return a value
    or an [EncodeError], and never panic on an index or a missing byte. *)
Theorem decoders_never_panic data :
  decode_transaction data ≠ Panic ∧ decode_block data ≠ Panic.
Proof. split; [apply decode_transaction_no_panic|apply decode_block_no_panic]. Qed.
