(* ===== verification/Genesis.v ===== *)
(** * Genesis documents ([genesis.rs])

    Declared allocations, their validation, the sorted form used to build the
    initial state, and the commitment two nodes compare. The commitment does
    not depend on the order of the document; it identifies the document when
    no address contains a line feed, and does not otherwise
    ([genesis_commitment_newline_collision]). *)

From Stdlib Require Import ZArith Lia.
From stdpp Require Import base strings list sets sorting.
From S2P Require Import Prelude Bytes Crypto Transaction.

Record GenesisAllocation := mkGenesisAllocation {
  ga_address : string;
  ga_balance : Z
}.

Record Genesis := mkGenesis { g_allocations : list GenesisAllocation }.

Definition Genesis_empty : Genesis := mkGenesis [].

(** [{:?}] of a string: quoted, with quotes, backslashes and control characters
    escaped. (Unprintable characters beyond ASCII, which Rust also escapes, are
    left as they are.) *)
Definition hex_digit (n : Z) : string :=
  String (Ascii.ascii_of_nat (Z.to_nat (if n <? 10 then 48 + n else 87 + n))) "".

Definition debug_char (a : Ascii.ascii) : string :=
  let n := Z.of_nat (Ascii.nat_of_ascii a) in
  if (n =? 34) || (n =? 92) then "\" +:+ String a ""
  else if n =? 0 then "\0"
  else if n =? 9 then "\t"
  else if n =? 10 then "\n"
  else if n =? 13 then "\r"
  else if (n <? 32) || (n =? 127)
  then "\u{" +:+ (if n <? 16 then hex_digit n else hex_digit (n / 16) +:+ hex_digit (n mod 16)) +:+ "}"
  else String a "".

Fixpoint debug_chars (s : string) : string :=
  match s with
  | "" => ""
  | String a s' => debug_char a +:+ debug_chars s'
  end.

Definition debug_str (s : string) : string :=
  let quote := String (Ascii.ascii_of_nat 34) "" in quote +:+ debug_chars s +:+ quote.

Definition validate_alloc (a : GenesisAllocation) : Res ProtocolError unit :=
  if negb (Address_is_valid (Address_new (ga_address a)))
  then Err (GenesisError ("invalid address in genesis: " +:+ debug_str (ga_address a)))
  else if ga_balance a =? 0
  then Err (GenesisError ("zero balance not allowed for " +:+ ga_address a))
  else Ok tt.

Definition validate_decl (g : Genesis) : Res ProtocolError unit :=
  rfor validate_alloc (g_allocations g).

(** The scan of [pairs.windows(2)] for equal neighbours. *)
Fixpoint check_adjacent_dups (pairs : list (Address * Z)) : Res ProtocolError unit :=
  match pairs with
  | p0 :: ((p1 :: _) as rest) =>
    if String.eqb p0.1 p1.1 then Err (GenesisError ("duplicate genesis address: " +:+ p0.1))
    else check_adjacent_dups rest
  | _ => Ok tt
  end.

Definition alloc_pairs (g : Genesis) : list (Address * Z) :=
  (λ a, (Address_new (ga_address a), ga_balance a)) <$> g_allocations g.

Definition sorted_pairs (g : Genesis) : Res ProtocolError (list (Address * Z)) :=
  validate_decl g ;;?
  let pairs := sort_by_key fst (alloc_pairs g) in
  check_adjacent_dups pairs ;;?
  Ok pairs.

Definition commitment_preimage (pairs : list (Address * Z)) : string :=
  join "
" ((λ p, p.1 +:+ "|" +:+ fmt_uint p.2) <$> pairs).

(** [toml::from_str::<Genesis>] is the parameter of the file-level readers. *)
Definition from_toml_str (toml_from_str : string → Res string Genesis) (s : string) : Res string Genesis :=
  let? g := map_err (λ e, "genesis TOML: " +:+ e) (toml_from_str s) in
  map_err ProtocolError_display (validate_decl g) ;;?
  Ok g.

Section genesis.
Context `{CryptoLib}.

Definition state_commitment_raw32 (g : Genesis) : Res ProtocolError (list byte) :=
  let? pairs := sorted_pairs g in
  let preimage := commitment_preimage pairs in
  Ok (sha256_raw32 (str_bytes preimage)).

Definition state_commitment_hex (g : Genesis) : Res ProtocolError string :=
  let? raw := state_commitment_raw32 g in
  Ok (hex_encode raw).
End genesis.

(** ** Lemmas *)

Definition valid_alloc (a : GenesisAllocation) : Prop :=
  Address_is_valid (ga_address a) = true ∧ ga_balance a ≠ 0.

Definition wf_genesis (g : Genesis) : Prop := Forall (λ a, in_u64 (ga_balance a)) (g_allocations g).

Lemma validate_alloc_ok a : validate_alloc a = Ok tt ↔ valid_alloc a.
Proof.
  unfold validate_alloc, valid_alloc, Address_new. destruct (Address_is_valid (ga_address a)); simpl.
  - destruct (Z.eqb_spec (ga_balance a) 0); naive_solver.
  - naive_solver.
Qed.

Lemma validate_decl_ok g : validate_decl g = Ok tt ↔ Forall valid_alloc (g_allocations g).
Proof. unfold validate_decl. rewrite rfor_ok. apply Forall_iff. apply validate_alloc_ok. Qed.

(** On a sorted list, distinct neighbours means distinct keys. *)
Lemma check_adjacent_dups_ok l :
  StronglySorted (key_le fst) l → check_adjacent_dups l = Ok tt ↔ NoDup (fst <$> l).
Proof.
  induction 1 as [|p l Hs IH Hp]; [split; constructor|].
  destruct l as [|q l]; [split; [constructor; [set_solver|constructor]|done]|].
  cbn [check_adjacent_dups]. rewrite fmap_cons, NoDup_cons, <- IH.
  destruct (String.eqb_spec p.1 q.1) as [Heq|Hne].
  - split; [done|]. intros [Hn _]. destruct Hn. rewrite Heq. set_solver.
  - split; [|tauto]. intros Hc. split; [|done].
    intros [r [Hr Hin]]%list_elem_of_fmap. apply elem_of_cons in Hin as [->|Hin]; [done|].
    inversion Hs as [|?? _ Hq]; subst. rewrite Forall_forall in Hq. apply Hq in Hin.
    apply Forall_cons in Hp as [Hpq _]. unfold key_le in *.
    destruct Hne. apply (anti_symm String.le); [done|]. by rewrite Hr.
Qed.

Lemma sorted_pairs_ok g pairs :
  sorted_pairs g = Ok pairs ↔
  Forall valid_alloc (g_allocations g) ∧ NoDup (ga_address <$> g_allocations g)
  ∧ pairs = sort_by_key fst (alloc_pairs g).
Proof.
  unfold sorted_pairs, rbind.
  pose proof (check_adjacent_dups_ok _ (sort_by_key_sorted fst (alloc_pairs g))) as Hd.
  assert (NoDup (fst <$> sort_by_key fst (alloc_pairs g)) ↔ NoDup (ga_address <$> g_allocations g)) as Hnd.
  { rewrite (sort_by_key_perm fst (alloc_pairs g)). unfold alloc_pairs.
    by rewrite <- list_fmap_compose. }
  rewrite Hnd in Hd. pose proof (validate_decl_ok g) as Hv.
  destruct (validate_decl g) as [[]| |]; [|naive_solver..].
  destruct (check_adjacent_dups _) as [[]| |]; naive_solver.
Qed.

Lemma sorted_pairs_perm g1 g2 pairs :
  g_allocations g1 ≡ₚ g_allocations g2 → sorted_pairs g1 = Ok pairs → sorted_pairs g2 = Ok pairs.
Proof.
  rewrite !sorted_pairs_ok. intros Hp (Hv&Hnd&->). rewrite <- Hp. split_and!; [done..|].
  apply sort_by_key_perm_eq.
  - unfold alloc_pairs. rewrite <- list_fmap_compose. done.
  - unfold alloc_pairs. by rewrite Hp.
Qed.

Definition newline : byte := Byte.x0a.

Lemma commitment_preimage_inj l1 l2 :
  Forall (λ p, 0 ≤ p.2 ∧ newline ∉ str_bytes p.1) l1 →
  Forall (λ p, 0 ≤ p.2 ∧ newline ∉ str_bytes p.1) l2 →
  commitment_preimage l1 = commitment_preimage l2 → l1 = l2.
Proof.
  assert (∀ p : Address * Z, 0 ≤ p.2 ∧ newline ∉ str_bytes p.1 →
    p.1 +:+ "|" +:+ fmt_uint p.2 ≠ "" ∧ newline ∉ str_bytes (p.1 +:+ "|" +:+ fmt_uint p.2)) as Hline.
  { intros [a n] [Hn Ha]. simpl in *. split; [by destruct a|].
    rewrite !str_bytes_app, !elem_of_app. intros [?|[Hx|Hx]]; [done| |].
    - change (str_bytes "|") with [Byte.x7c] in Hx. apply list_elem_of_singleton in Hx. done.
    - revert Hx. apply fmt_uint_no. unfold is_digit_byte, byte_to_Z. simpl. lia. }
  intros H1 H2 Heq. unfold commitment_preimage in Heq. apply (f_equal str_bytes) in Heq.
  apply (join_inj _ newline) in Heq; [|done|apply Forall_fmap; eapply Forall_impl; [eassumption|apply Hline]..].
  revert l2 H2 Heq. induction H1 as [|[a n] l1 [Hn _] _ IH]; intros l2 H2 Heq; destruct H2 as [|[a' n'] l2 [Hn' _] H2];
    [done|done|done|].
  rewrite !fmap_cons in Heq. injection Heq as Hl Heq. simpl in *.
  apply (f_equal str_bytes) in Hl. rewrite !str_bytes_app in Hl.
  change (str_bytes "|") with [Byte.x7c] in Hl. apply payload_tail_inj in Hl as [Ha ->]; [|done..].
  apply (inj str_bytes) in Ha as ->. f_equal. by apply IH.
Qed.

Section genesis_props.
Context `{CryptoLaws}.

(** The genesis commitment does not depend on the order of the
    allocations: permuting the [[allocations]] tables of an accepted document
    leaves the sorted pairs, hence the initial state and both forms of the
    commitment, unchanged. *)
Theorem genesis_order_irrelevant g1 g2 pairs :
  g_allocations g1 ≡ₚ g_allocations g2 → sorted_pairs g1 = Ok pairs →
  sorted_pairs g2 = Ok pairs
  ∧ state_commitment_raw32 g2 = state_commitment_raw32 g1
  ∧ state_commitment_hex g2 = state_commitment_hex g1.
Proof.
  intros Hp H1. pose proof (sorted_pairs_perm _ _ _ Hp H1) as H2.
  unfold state_commitment_hex, state_commitment_raw32. by rewrite H1, H2.
Qed.

(** The commitment identifies the genesis state: if two accepted documents
    whose addresses contain no line feed have the same commitment, they have
    the same sorted allocations, unless SHA-256 collides on their preimages.
    (Addresses with line feeds are accepted and break this; see the
    counterexample below.) *)
Theorem genesis_commitment_identifies g1 g2 p1 p2 :
  wf_genesis g1 → wf_genesis g2 →
  Forall (λ a, newline ∉ str_bytes (ga_address a)) (g_allocations g1) →
  Forall (λ a, newline ∉ str_bytes (ga_address a)) (g_allocations g2) →
  sorted_pairs g1 = Ok p1 → sorted_pairs g2 = Ok p2 →
  no_collision (str_bytes (commitment_preimage p1)) (str_bytes (commitment_preimage p2)) →
  state_commitment_hex g1 = state_commitment_hex g2 → p1 = p2.
Proof.
  intros Hw1 Hw2 Hn1 Hn2 Hs1 Hs2 Hnc Heq.
  assert (∀ g p, wf_genesis g → Forall (λ a, newline ∉ str_bytes (ga_address a)) (g_allocations g) →
    sorted_pairs g = Ok p → Forall (λ q, 0 ≤ q.2 ∧ newline ∉ str_bytes q.1) p) as Hp.
  { intros g p Hw Hn (_&_&->)%sorted_pairs_ok. rewrite sort_by_key_perm. unfold alloc_pairs.
    apply Forall_fmap, Forall_forall. intros a Ha. unfold wf_genesis in Hw.
    rewrite Forall_forall in Hw, Hn. split; [apply Hw, Ha|by apply Hn]. }
  unfold state_commitment_hex, state_commitment_raw32, sha256_raw32 in Heq.
  rewrite Hs1, Hs2 in Heq. simpl in Heq. injection Heq as Heq.
  apply hex_encode_inj, Hnc, (inj str_bytes) in Heq. eapply commitment_preimage_inj; eauto.
Qed.
End genesis_props.

(** ** Two different documents with the same commitment *)

Definition genesis_two : Genesis :=
  mkGenesis [mkGenesisAllocation "alice" 1; mkGenesisAllocation "bob" 2].

(** One account whose name spells the first line of the other document. *)
Definition genesis_one : Genesis :=
  mkGenesis [mkGenesisAllocation "alice|1
bob" 2].

(** Two documents pass validation, describe different states, and have the
    same commitment for every hash function: the preimage joins lines with a
    line feed, which [Address::is_valid] does not exclude. *)
Lemma genesis_commitment_newline_collision `{CryptoLib} :
  (∃ p1 p2, sorted_pairs genesis_one = Ok p1 ∧ sorted_pairs genesis_two = Ok p2 ∧ p1 ≠ p2)
  ∧ state_commitment_hex genesis_one = state_commitment_hex genesis_two.
Proof.
  split.
  - eexists _, _. split_and!; [vm_compute; reflexivity..|]. discriminate.
  - reflexivity.
Qed.

(** ** Witnesses *)

Module GenesisExample.
Import ToyCrypto.

Lemma genesis_order_irrelevant_witness :
  let g1 := genesis_two in
  let g2 := mkGenesis (reverse (g_allocations genesis_two)) in
  sorted_pairs g2 = Ok [("alice", 1); ("bob", 2)]
  ∧ state_commitment_raw32 g2 = state_commitment_raw32 g1
  ∧ state_commitment_hex g2 = state_commitment_hex g1.
Proof.
  intros g1 g2. apply (genesis_order_irrelevant g1 g2).
  - apply perm_swap.
  - vm_compute. reflexivity.
Defined.

Lemma genesis_commitment_identifies_witness :
  [("alice", 1); ("bob", 2)] = [("alice", 1); ("bob", 2)].
Proof.
  apply (genesis_commitment_identifies genesis_two
           (mkGenesis (reverse (g_allocations genesis_two)))).
  - repeat constructor; vm_compute; discriminate.
  - repeat constructor; vm_compute; discriminate.
  - repeat constructor; apply (bool_decide_unpack _); vm_compute; exact I.
  - repeat constructor; apply (bool_decide_unpack _); vm_compute; exact I.
  - vm_compute. reflexivity.
  - vm_compute. reflexivity.
  - intros _. reflexivity.
  - vm_compute. reflexivity.
Defined.
End GenesisExample.
