(* ===== verification/Ledger.v ===== *)
(** * Account state ([state.rs])

    The map of accounts and the transfer rules. [can_apply] and [apply_effect]
    are the abstract specification of a transfer; [apply_transaction]
    implements it exactly, fails without touching the state, burns the fee and
    can never replay a transaction. *)

From Stdlib Require Import ZArith Lia.
From stdpp Require Import base strings list gmap fin_maps sorting.
From S2P Require Import Prelude Bytes Crypto Transaction Wallet Genesis.

Record State := mkState { accounts : gmap string Account }.

#[export] Instance State_eq_dec : EqDecision State.
Proof. solve_decision. Defined.

Definition State_new : State := mkState ∅.

Definition State_from_genesis (g : Genesis) : Res ProtocolError State :=
  let? pairs := sorted_pairs g in
  Ok (foldl (λ s p, mkState (<[ p.1 := Account_new p.1 p.2 ]> (accounts s))) State_new pairs).

Definition accounts_sorted (s : State) : list (Address * Account) :=
  sort_by_key fst (map_to_list (accounts s)).

Definition account_count (s : State) : nat := size (accounts s).

Definition get_account (s : State) (address : Address) : option Account := accounts s !! address.

Definition create_account (address : Address) (initial_balance : Z) (s : State) : State :=
  match accounts s !! address with
  | Some _ => s
  | None => mkState (<[ address := Account_new address initial_balance ]> (accounts s))
  end.

(** [try_fold] over the balances in the given iteration order. *)
Fixpoint sum_balances (acc : Z) (vals : list Account) : Res ProtocolError Z :=
  match vals with
  | [] => Ok acc
  | a :: vals' =>
    let? acc' := ok_or (checked_add acc (acc_balance a)) (StateError "total balance sum overflow") in
    sum_balances acc' vals'
  end.

Definition total_balance_sum (s : State) : Res ProtocolError Z :=
  sum_balances 0 ((map_to_list (accounts s)).*2).

Definition set_balance_nonce (a : Account) (balance nonce : Z) : Account :=
  mkAccount (acc_address a) balance nonce.

Definition apply_self_transfer (tx : Transaction) : ST State ProtocolError unit :=
  let! total_cost := slift (ok_or (checked_add (tx_amount tx) (tx_fee tx))
                              (StateError "amount+fee overflow")) in
  let! s := sget in
  let! acc := slift (ok_or (accounts s !! tx_sender tx) (StateError "sender account missing")) in
  if negb (acc_nonce acc =? tx_nonce tx) then sfail InvalidNonce
  else if acc_balance acc <? total_cost then sfail InsufficientBalance
  else
    let! new_balance := slift (ok_or (b ← checked_sub (acc_balance acc) total_cost;
                                      checked_add b (tx_amount tx))
                                 (StateError "balance update overflow")) in
    let! new_nonce := slift (ok_or (checked_add (acc_nonce acc) 1)
                               (StateError "sender nonce overflow")) in
    sput (mkState (<[ tx_sender tx := set_balance_nonce acc new_balance new_nonce ]> (accounts s))).

Section ledger.
Context `{CryptoLib}.

Definition apply_transaction (tx : Transaction) : ST State ProtocolError unit :=
  slift (tx_basic_validate tx) ;;!
  if String.eqb (tx_sender tx) (tx_receiver tx) then apply_self_transfer tx
  else
    let! total_cost := slift (ok_or (checked_add (tx_amount tx) (tx_fee tx))
                                (StateError "amount+fee overflow")) in
    let! s := sget in
    let! sender := slift (ok_or (accounts s !! tx_sender tx) (StateError "sender account missing")) in
    let sender_balance := acc_balance sender in
    let sender_nonce := acc_nonce sender in
    if negb (sender_nonce =? tx_nonce tx) then sfail InvalidNonce
    else if sender_balance <? total_cost then sfail InsufficientBalance
    else
      let! new_sender_balance := slift (ok_or (checked_sub sender_balance total_cost)
                                          (StateError "sender balance debit underflow")) in
      let! new_sender_nonce := slift (ok_or (checked_add sender_nonce 1)
                                        (StateError "sender nonce overflow")) in
      let! new_receiver_balance :=
        slift (match accounts s !! tx_receiver tx with
               | Some r => ok_or (checked_add (acc_balance r) (tx_amount tx))
                             (StateError "receiver balance overflow")
               | None => Ok (tx_amount tx)
               end) in
      (* debit the sender *)
      sput (mkState (<[ tx_sender tx := set_balance_nonce sender new_sender_balance new_sender_nonce ]>
                       (accounts s))) ;;!
      (* [entry(receiver).or_insert_with(..)], then set its balance; the fee is burned *)
      let! s' := sget in
      let receiver := default (Account_new (tx_receiver tx) 0) (accounts s' !! tx_receiver tx) in
      sput (mkState (<[ tx_receiver tx :=
                          set_balance_nonce receiver new_receiver_balance (acc_nonce receiver) ]>
                       (accounts s'))).

(** Applying the transactions of a block in order, stopping at the first error. *)
Definition apply_transactions (txs : list Transaction) : ST State ProtocolError unit :=
  sfor apply_transaction txs.
End ledger.

(** ** Abstract specification of a transfer *)

Definition balance_of (s : State) (a : Address) : Z :=
  match accounts s !! a with Some acc => acc_balance acc | None => 0 end.

Definition nonce_of (s : State) (a : Address) : Z :=
  match accounts s !! a with Some acc => acc_nonce acc | None => 0 end.

Definition wf_account (a : Address) (acc : Account) : Prop :=
  acc_address acc = a ∧ in_u64 (acc_balance acc) ∧ in_u64 (acc_nonce acc).

(** The type invariant of the ledger: [u64] fields, and every account is
    stored under its own address. *)
Definition wf_state (s : State) : Prop := map_Forall wf_account (accounts s).

Section spec.
Context `{CryptoLib}.

(** When a transfer is accepted. *)
Definition can_apply (s : State) (t : Transaction) : Prop :=
  valid_tx t ∧ is_Some (accounts s !! tx_sender t)
  ∧ tx_nonce t = nonce_of s (tx_sender t)
  ∧ tx_amount t + tx_fee t ≤ balance_of s (tx_sender t)
  ∧ tx_nonce t + 1 ≤ u64_max
  ∧ (tx_sender t ≠ tx_receiver t → balance_of s (tx_receiver t) + tx_amount t ≤ u64_max).
End spec.

(** What an accepted transfer does. *)
Definition apply_effect (s : State) (t : Transaction) : State :=
  let snd' := mkAccount (tx_sender t) (balance_of s (tx_sender t) - tx_amount t - tx_fee t)
                (tx_nonce t + 1) in
  let m := <[ tx_sender t := snd' ]> (accounts s) in
  let recv_before := default (Account_new (tx_receiver t) 0) (m !! tx_receiver t) in
  mkState (<[ tx_receiver t := mkAccount (tx_receiver t) (acc_balance recv_before + tx_amount t)
                                 (acc_nonce recv_before) ]> m).

(** The sum of all balances, as an unbounded integer. *)
Definition supply (s : State) : Z :=
  map_fold (λ _ acc n, acc_balance acc + n) 0 (accounts s).

Lemma sum_balances_no_panic acc l : sum_balances acc l ≠ Panic.
Proof. revert acc. induction l as [|a l IH]; intros acc; [done|]. cbn [sum_balances]. apply rbind_no_panic; auto with no_panic. Qed.

(** ** The implementation meets the specification *)

Lemma wf_state_lookup s a acc : wf_state s → accounts s !! a = Some acc → wf_account a acc.
Proof. intros Hw Ha. by apply (Hw a acc). Qed.

Lemma apply_self_transfer_cases s t acc :
  wf_state s → wf_tx t → tx_sender t = tx_receiver t → accounts s !! tx_sender t = Some acc →
  (tx_nonce t = acc_nonce acc ∧ tx_amount t + tx_fee t ≤ acc_balance acc ∧ tx_nonce t + 1 ≤ u64_max
   ∧ apply_self_transfer t s = (Ok tt, apply_effect s t))
  ∨ (¬ (tx_nonce t = acc_nonce acc ∧ tx_amount t + tx_fee t ≤ acc_balance acc ∧ tx_nonce t + 1 ≤ u64_max)
     ∧ ∃ e, apply_self_transfer t s = (Err e, s)).
Proof.
  intros Hw ([Ha0 Ha]&[Hf0 Hf]&[Hn0 Hn]&_) Hsr Hacc.
  destruct (wf_state_lookup _ _ _ Hw Hacc) as (Haddr&[Hb0 Hb]&_).
  unfold apply_self_transfer, sbind, slift, sget, sput, sfail, ok_or.
  destruct (checked_add (tx_amount t) (tx_fee t)) as [c|] eqn:Hc.
  2: { apply checked_add_None in Hc. right. split; [lia|]. by eexists. }
  apply checked_add_Some in Hc as [Hc ->]. rewrite Hacc.
  destruct (Z.eqb_spec (acc_nonce acc) (tx_nonce t)) as [Hne|]; simpl; [|right; split; [lia|by eexists]].
  destruct (Z.ltb_spec (acc_balance acc) (tx_amount t + tx_fee t)); [right; split; [lia|by eexists]|].
  assert (checked_sub (acc_balance acc) (tx_amount t + tx_fee t)
          = Some (acc_balance acc - (tx_amount t + tx_fee t))) as -> by (by apply checked_sub_Some).
  simpl.
  assert (checked_add (acc_balance acc - (tx_amount t + tx_fee t)) (tx_amount t)
          = Some (acc_balance acc - (tx_amount t + tx_fee t) + tx_amount t)) as ->
    by (apply checked_add_Some; lia).
  destruct (checked_add (acc_nonce acc) 1) as [n'|] eqn:Hn1.
  2: { apply checked_add_None in Hn1. right. split; [lia|by eexists]. }
  apply checked_add_Some in Hn1 as [? ->]. left. split_and!; [lia..|].
  unfold apply_effect, set_balance_nonce, balance_of. rewrite <- Hsr, lookup_insert_eq, Hacc.
  rewrite insert_insert_eq. simpl. do 4 f_equal; [by rewrite Haddr|lia|lia].
Qed.

Lemma apply_pair_effect s t acc :
  tx_sender t ≠ tx_receiver t → wf_state s → accounts s !! tx_sender t = Some acc →
  let m := <[ tx_sender t := set_balance_nonce acc (acc_balance acc - (tx_amount t + tx_fee t))
                               (tx_nonce t + 1) ]> (accounts s) in
  let receiver := default (Account_new (tx_receiver t) 0) (m !! tx_receiver t) in
  mkState (<[ tx_receiver t := set_balance_nonce receiver (balance_of s (tx_receiver t) + tx_amount t)
                                 (acc_nonce receiver) ]> m) = apply_effect s t.
Proof.
  intros Hne Hw Hacc m receiver. destruct (wf_state_lookup _ _ _ Hw Hacc) as [Haddr _].
  assert (m = <[ tx_sender t := mkAccount (tx_sender t)
                   (balance_of s (tx_sender t) - tx_amount t - tx_fee t) (tx_nonce t + 1) ]>
                (accounts s)) as Hm.
  { unfold m, set_balance_nonce, balance_of. rewrite Hacc, Haddr. do 2 f_equal. lia. }
  unfold apply_effect. rewrite <- Hm. f_equal. f_equal. unfold receiver, set_balance_nonce.
  assert (m !! tx_receiver t = accounts s !! tx_receiver t) as -> by (unfold m; by rewrite lookup_insert_ne).
  unfold balance_of. destruct (accounts s !! tx_receiver t) as [r|] eqn:Hr; simpl; [|done].
  by destruct (wf_state_lookup _ _ _ Hw Hr) as [-> _].
Qed.

Section ledger_spec.
Context `{CryptoLib}.

Lemma apply_transaction_cases s t :
  wf_state s → wf_tx t →
  (can_apply s t ∧ apply_transaction t s = (Ok tt, apply_effect s t))
  ∨ (¬ can_apply s t ∧ ∃ e, apply_transaction t s = (Err e, s)).
Proof.
  intros Hw Hwt. pose proof Hwt as ([Ha0 Ha]&[Hf0 Hf]&[Hn0 Hn]&_).
  unfold apply_transaction, can_apply. unfold sbind at 1, slift at 1.
  pose proof (tx_basic_validate_ok t) as Hv. pose proof (tx_basic_validate_no_panic t).
  destruct (tx_basic_validate t) as [[]|e|]; [|right; split; [naive_solver|by eexists]|done].
  assert (valid_tx t) as Hvt by (by apply Hv). clear Hv.
  unfold nonce_of.
  destruct (accounts s !! tx_sender t) as [acc|] eqn:Hacc.
  2: { right. split; [intros (_&[? ?]&_); done|].
       unfold apply_self_transfer, sbind, slift, sget, sfail, ok_or.
       destruct (String.eqb _ _), (checked_add _ _); rewrite ?Hacc; by eexists. }
  assert (balance_of s (tx_sender t) = acc_balance acc) as -> by (unfold balance_of; by rewrite Hacc).
  destruct (String.eqb_spec (tx_sender t) (tx_receiver t)) as [Hsr|Hsr].
  { destruct (apply_self_transfer_cases s t acc) as [(?&?&?&Heq)|(Hno&e&Heq)]; [done..| |].
    - left. split; [|done]. by split_and!.
    - right. split; [|by eexists]. intros (_&_&?&?&?&_). tauto. }
  unfold sbind, slift, sget, sput, sfail, ok_or.
  destruct (checked_add (tx_amount t) (tx_fee t)) as [c|] eqn:Hc.
  2: { apply checked_add_None in Hc. destruct (wf_state_lookup _ _ _ Hw Hacc) as (_&[? ?]&_).
       right. split; [intros (_&_&_&?&_); lia|by eexists]. }
  apply checked_add_Some in Hc as [Hc ->]. rewrite Hacc.
  destruct (Z.eqb_spec (acc_nonce acc) (tx_nonce t)) as [Hne|]; simpl;
    [|right; split; [intros (_&_&?&_); lia|by eexists]].
  destruct (Z.ltb_spec (acc_balance acc) (tx_amount t + tx_fee t));
    [right; split; [intros (_&_&_&?&_); lia|by eexists]|].
  assert (checked_sub (acc_balance acc) (tx_amount t + tx_fee t)
          = Some (acc_balance acc - (tx_amount t + tx_fee t))) as -> by (by apply checked_sub_Some).
  destruct (checked_add (acc_nonce acc) 1) as [n'|] eqn:Hn1.
  2: { apply checked_add_None in Hn1. right. split; [intros (_&_&_&_&?&_); lia|by eexists]. }
  apply checked_add_Some in Hn1 as [? ->]. rewrite Hne.
  pose proof (apply_pair_effect s t acc Hsr Hw Hacc) as Heff. simpl in Heff.
  unfold balance_of in *.
  destruct (accounts s !! tx_receiver t) as [r|] eqn:Hr.
  - destruct (checked_add (acc_balance r) (tx_amount t)) as [rb|] eqn:Hrb.
    + apply checked_add_Some in Hrb as [? ->]. left. split; [split_and!; (done || lia)|].
      simpl. by rewrite Heff.
    + apply checked_add_None in Hrb. right. split; [|by eexists]. intros (_&_&_&_&_&Hx).
      specialize (Hx Hsr). lia.
  - left. split; [split_and!; (done || lia)|]. rewrite Z.add_0_l in Heff. simpl. by rewrite Heff.
Qed.
End ledger_spec.

(** ** Lookups and supply after a transfer *)

Lemma balance_nonce_range s a : wf_state s → in_u64 (balance_of s a) ∧ in_u64 (nonce_of s a).
Proof.
  intros Hw. unfold balance_of, nonce_of. destruct (accounts s !! a) as [acc|] eqn:Ha.
  - by destruct (wf_state_lookup _ _ _ Hw Ha) as (_&?&?).
  - unfold in_u64, u64_max. lia.
Qed.

Lemma supply_insert (m : gmap string Account) a acc :
  supply (mkState (<[ a := acc ]> m))
  = supply (mkState m) - match m !! a with Some old => acc_balance old | None => 0 end + acc_balance acc.
Proof.
  unfold supply. simpl. rewrite <- insert_delete_eq.
  rewrite map_fold_insert_L; [|intros; lia|apply lookup_delete_eq].
  destruct (m !! a) as [old|] eqn:Ha.
  - rewrite (map_fold_delete_L _ _ a old m) by (intros; lia || done). lia.
  - rewrite delete_id by done. lia.
Qed.

Lemma supply_apply_effect s t :
  is_Some (accounts s !! tx_sender t) → supply (apply_effect s t) = supply s - tx_fee t.
Proof.
  intros [acc Hacc]. unfold apply_effect. rewrite supply_insert, supply_insert.
  destruct s as [m]. simpl in *. unfold balance_of. simpl. rewrite Hacc. simpl.
  destruct (decide (tx_sender t = tx_receiver t)) as [<-|Hne].
  - rewrite lookup_insert_eq. simpl. lia.
  - rewrite lookup_insert_ne by done. destruct (m !! tx_receiver t); simpl; lia.
Qed.

Lemma apply_effect_lookup s t a :
  accounts (apply_effect s t) !! a
  = if decide (a = tx_receiver t) then
      Some (mkAccount a (balance_of s a + tx_amount t
                         - (if decide (a = tx_sender t) then tx_amount t + tx_fee t else 0))
              (if decide (a = tx_sender t) then tx_nonce t + 1 else nonce_of s a))
    else if decide (a = tx_sender t) then
      Some (mkAccount a (balance_of s a - (tx_amount t + tx_fee t)) (tx_nonce t + 1))
    else accounts s !! a.
Proof.
  unfold apply_effect, balance_of, nonce_of. simpl. case_decide as Hr; [subst a|].
  - rewrite lookup_insert_eq. case_decide as Hs.
    + rewrite <- Hs, lookup_insert_eq. simpl. do 2 f_equal. lia.
    + rewrite lookup_insert_ne by done. destruct (accounts s !! tx_receiver t); simpl; do 2 f_equal; lia.
  - rewrite lookup_insert_ne by done. case_decide as Hs.
    + subst a. rewrite lookup_insert_eq. do 2 f_equal. lia.
    + by rewrite lookup_insert_ne.
Qed.

Section ledger_props.
Context `{CryptoLib}.

Lemma wf_apply_effect s t : wf_state s → wf_tx t → can_apply s t → wf_state (apply_effect s t).
Proof.
  intros Hw ([Ha0 _]&[Hf0 _]&[Hn0 _]&_) (_&_&Hn&Hb&Hn1&Hr) a acc Hl.
  rewrite apply_effect_lookup in Hl. pose proof (balance_nonce_range s a Hw) as [Hba Hna].
  unfold wf_account, in_u64 in *.
  destruct (decide (a = tx_receiver t)) as [->|]; [|destruct (decide (a = tx_sender t)) as [->|]].
  - injection Hl as <-. simpl. case_decide as Hs.
    + rewrite <- Hs in Hb, Hn. split_and!; (done || lia).
    + specialize (Hr ltac:(congruence)). split_and!; (done || lia).
  - injection Hl as <-. simpl. split_and!; (done || lia).
  - by destruct (wf_state_lookup _ _ _ Hw Hl).
Qed.

Lemma apply_transaction_wf t s : wf_state s → wf_tx t → wf_state (apply_transaction t s).2.
Proof.
  intros Hw Ht. destruct (apply_transaction_cases s t Hw Ht) as [[Hc ->]|[_ [e ->]]]; [|done].
  by apply wf_apply_effect.
Qed.

Lemma apply_transactions_wf txs s : wf_state s → Forall wf_tx txs → wf_state (apply_transactions txs s).2.
Proof.
  intros Hw Ht. apply (sfor_inv apply_transaction wf_state); [|done]. rewrite Forall_forall in Ht.
  intros t s' Hin Hs'. apply apply_transaction_wf; auto.
Qed.

Lemma apply_transaction_no_panic t : panic_free (apply_transaction t).
Proof.
  unfold apply_transaction. apply panic_free_bind; [apply panic_free_lift, tx_basic_validate_no_panic|]. intros _.
  unfold apply_self_transfer. solve_panic_free.
Qed.

Lemma apply_transactions_no_panic txs s :
  wf_state s → Forall wf_tx txs → (apply_transactions txs s).1 ≠ Panic.
Proof.
  intros Hw Ht. revert s Hw. induction Ht as [|t txs Ht _ IH]; intros s Hw; [done|].
  unfold apply_transactions in *. cbn [sfor]. unfold sbind.
  destruct (apply_transaction_cases s t Hw Ht) as [[Hc ->]|[_ [e ->]]]; [|done].
  apply IH. by apply wf_apply_effect.
Qed.
End ledger_props.

Section ledger_theorems.
Context `{CryptoLib}.

(** C1: [apply_transaction] implements the transfer specification. On every
    well-formed ledger and transaction exactly one of two things happens: the
    acceptance condition [can_apply] holds, the call returns [Ok] and the new
    state is [apply_effect]; or it does not hold, the call returns an error and
    the state is unchanged. There is no panic, no overflow and no partial
    update, self-transfers included. *)
Theorem apply_transaction_refines_spec s t :
  wf_state s → wf_tx t →
  (can_apply s t ∧ apply_transaction t s = (Ok tt, apply_effect s t))
  ∨ (¬ can_apply s t ∧ ∃ e, apply_transaction t s = (Err e, s)).
Proof. apply apply_transaction_cases. Qed.

(** Fees are burned and nothing is minted: a successful transfer lowers the
    total of all balances by exactly the fee, and a failed one leaves it. *)
Theorem apply_transaction_supply s t :
  wf_state s → wf_tx t →
  supply (apply_transaction t s).2
  = supply s - (if is_ok (apply_transaction t s).1 then tx_fee t else 0).
Proof.
  intros Hw Ht. destruct (apply_transaction_cases s t Hw Ht) as [[Hc ->]|[_ [e ->]]]; simpl; [|lia].
  destruct Hc as (_&Hs&_). by apply supply_apply_effect.
Qed.

(** Only the sender can lose money: whatever the outcome, the invariant
    of the ledger ([u64] balances and nonces, accounts stored under their own
    address) is preserved, and every other account keeps its nonce and never
    has its balance reduced. *)
Theorem apply_transaction_safe s t :
  wf_state s → wf_tx t →
  wf_state (apply_transaction t s).2
  ∧ ∀ a, a ≠ tx_sender t →
      balance_of s a ≤ balance_of (apply_transaction t s).2 a
      ∧ nonce_of (apply_transaction t s).2 a = nonce_of s a.
Proof.
  intros Hw Ht. split; [by apply apply_transaction_wf|]. intros a Ha.
  destruct (apply_transaction_cases s t Hw Ht) as [[Hc ->]|[_ [e ->]]]; cbn [snd]; [|done].
  destruct Ht as ([Ha0 _]&_). unfold balance_of at 2, nonce_of at 1. rewrite apply_effect_lookup.
  destruct (decide (a = tx_receiver t)); [|destruct (decide (a = tx_sender t)); [done|done]].
  destruct (decide (a = tx_sender t)); [done|]. simpl. split; [lia|done].
Qed.

(** Attempting transactions one after the other, whatever their outcome. *)
Definition attempt_all (txs : list Transaction) (s : State) : State :=
  foldl (λ s t, (apply_transaction t s).2) s txs.

Lemma nonce_monotone_step s t a :
  wf_state s → wf_tx t →
  (is_Some (accounts s !! a) → is_Some (accounts (apply_transaction t s).2 !! a))
  ∧ nonce_of s a ≤ nonce_of (apply_transaction t s).2 a.
Proof.
  intros Hw Ht. destruct (apply_transaction_cases s t Hw Ht) as [[Hc ->]|[_ [e ->]]]; cbn [snd]; [|done].
  destruct Hc as (_&_&Hn&_). unfold nonce_of at 2. rewrite apply_effect_lookup.
  destruct (decide (a = tx_receiver t)); [|destruct (decide (a = tx_sender t)) as [->|]].
  - split; [intros _; by eexists|]. simpl. case_decide as Hs; [rewrite Hs|]; lia.
  - split; [intros _; by eexists|]. simpl. lia.
  - done.
Qed.

Lemma nonce_monotone txs s a :
  wf_state s → Forall wf_tx txs →
  wf_state (attempt_all txs s)
  ∧ (is_Some (accounts s !! a) → is_Some (accounts (attempt_all txs s) !! a))
  ∧ nonce_of s a ≤ nonce_of (attempt_all txs s) a.
Proof.
  intros Hw Ht. revert s Hw. induction Ht as [|t txs Ht _ IH]; intros s Hw; simpl; [done|].
  destruct (nonce_monotone_step s t a Hw Ht) as [Hs Hn].
  destruct (IH (apply_transaction t s).2) as (Hw'&Hs'&Hn'); [by apply apply_transaction_wf|].
  split_and!; [done|auto|lia].
Qed.

Lemma apply_stale_nonce s t acc :
  valid_tx t → tx_amount t + tx_fee t ≤ u64_max → accounts s !! tx_sender t = Some acc →
  tx_nonce t ≠ acc_nonce acc → apply_transaction t s = (Err InvalidNonce, s).
Proof.
  intros Hv Hc Hacc Hne. apply tx_basic_validate_ok in Hv.
  unfold apply_transaction, apply_self_transfer, sbind, slift, sget, sfail, ok_or. rewrite Hv.
  assert (checked_add (tx_amount t) (tx_fee t) = Some (tx_amount t + tx_fee t)) as ->
    by (by apply checked_add_Some).
  destruct (String.eqb _ _); rewrite Hacc;
    destruct (Z.eqb_spec (acc_nonce acc) (tx_nonce t)); by try congruence.
Qed.

(** Replay protection: once a transaction has been applied, it is rejected
    with [InvalidNonce] for ever, in whatever state is reached by attempting
    any further transactions after it, and the attempt changes nothing. *)
Theorem no_replay s t s1 later :
  wf_state s → wf_tx t → Forall wf_tx later →
  apply_transaction t s = (Ok tt, s1) →
  let s2 := attempt_all later s1 in
  apply_transaction t s2 = (Err InvalidNonce, s2).
Proof.
  intros Hw Ht Hl Happ. simpl.
  destruct (apply_transaction_cases s t Hw Ht) as [[Hc Heq]|[_ [e Heq]]]; [|congruence].
  assert (s1 = apply_effect s t) as -> by congruence.
  pose proof (wf_apply_effect s t Hw Ht Hc) as Hw1.
  destruct (nonce_monotone later (apply_effect s t) (tx_sender t) Hw1 Hl) as (Hw2&Hs2&Hn2).
  destruct Hc as (Hv&Hs&Hn&Hb&_).
  assert (nonce_of (apply_effect s t) (tx_sender t) = tx_nonce t + 1
          ∧ is_Some (accounts (apply_effect s t) !! tx_sender t)) as [Hn1 Hs1].
  { unfold nonce_of. rewrite apply_effect_lookup. rewrite !(decide_True _ _ (eq_refl (tx_sender t))).
    by case_decide. }
  destruct (Hs2 Hs1) as [acc Hacc]. unfold nonce_of in Hn2 at 2. rewrite Hacc in Hn2.
  eapply apply_stale_nonce; [done| |exact Hacc|lia].
  destruct (balance_nonce_range s (tx_sender t) Hw) as [[_ ?] _]. lia.
Qed.
End ledger_theorems.

(** ** The supply audit *)

Definition sum_list (vals : list Account) : Z := foldr (λ a n, acc_balance a + n) 0 vals.

Lemma sum_balances_spec acc vals :
  0 ≤ acc ≤ u64_max → Forall (λ a, 0 ≤ acc_balance a) vals →
  sum_balances acc vals
  = if acc + sum_list vals <=? u64_max then Ok (acc + sum_list vals)
    else Err (StateError "total balance sum overflow").
Proof.
  intros Hacc Hv. revert acc Hacc.
  assert (∀ l, Forall (λ a, 0 ≤ acc_balance a) l → 0 ≤ sum_list l) as Hpos.
  { induction 1; simpl; lia. }
  induction Hv as [|a vals Ha Hv IH]; intros acc Hacc; simpl.
  { rewrite Z.add_0_r. destruct (Z.leb_spec acc u64_max); [done|lia]. }
  unfold rbind, ok_or. destruct (checked_add acc (acc_balance a)) as [c|] eqn:Hc.
  - apply checked_add_Some in Hc as [? ->]. rewrite IH by lia. by rewrite Z.add_assoc.
  - apply checked_add_None in Hc. specialize (Hpos _ Hv).
    destruct (Z.leb_spec (acc + (acc_balance a + sum_list vals)) u64_max); [lia|done].
Qed.

Lemma supply_sum_list s : supply s = sum_list ((map_to_list (accounts s)).*2).
Proof.
  unfold supply, sum_list. rewrite map_fold_foldr. induction (map_to_list (accounts s)) as [|[k a] l IH]; simpl; [done|].
  by rewrite IH.
Qed.

Lemma sum_list_perm l1 l2 : l1 ≡ₚ l2 → sum_list l1 = sum_list l2.
Proof. induction 1; simpl; lia. Qed.

Lemma wf_state_balances s : wf_state s → Forall (λ a, 0 ≤ acc_balance a) ((map_to_list (accounts s)).*2).
Proof.
  intros Hw. apply Forall_fmap, Forall_forall. intros [k a] Hin%elem_of_map_to_list.
  by destruct (wf_state_lookup _ _ _ Hw Hin) as (_&[? _]&_).
Qed.

Lemma total_balance_sum_spec s :
  wf_state s →
  total_balance_sum s
  = if supply s <=? u64_max then Ok (supply s) else Err (StateError "total balance sum overflow").
Proof.
  intros Hw. unfold total_balance_sum. rewrite supply_sum_list, sum_balances_spec.
  - by rewrite Z.add_0_l.
  - unfold u64_max; lia.
  - by apply wf_state_balances.
Qed.

(** The supply audit is exact and independent of the [HashMap] iteration
    order: whatever order the balances are visited in, [total_balance_sum]
    returns the true total when it fits in a [u64], and the overflow error
    exactly when it does not. *)
Theorem total_balance_sum_exact s order :
  wf_state s → order ≡ₚ (map_to_list (accounts s)).*2 →
  sum_balances 0 order = total_balance_sum s
  ∧ total_balance_sum s
    = if supply s <=? u64_max then Ok (supply s) else Err (StateError "total balance sum overflow").
Proof.
  intros Hw Hp. unfold total_balance_sum. rewrite supply_sum_list.
  pose proof (wf_state_balances s Hw) as Hb.
  rewrite !sum_balances_spec; [|unfold u64_max; lia|done|unfold u64_max; lia|by rewrite Hp].
  by rewrite (sum_list_perm _ _ Hp), Z.add_0_l.
Qed.

(** ** The initial state *)

Definition insert_alloc (s : State) (p : Address * Z) : State :=
  mkState (<[ p.1 := Account_new p.1 p.2 ]> (accounts s)).

Definition genesis_supply (g : Genesis) : Z :=
  foldr (λ a n, ga_balance a + n) 0 (g_allocations g).

Lemma foldl_insert_lookup pairs s a acc :
  NoDup pairs.*1 →
  accounts (foldl insert_alloc s pairs) !! a = Some acc ↔
  (∃ b, (a, b) ∈ pairs ∧ acc = Account_new a b) ∨ ((a ∉ pairs.*1) ∧ accounts s !! a = Some acc).
Proof.
  revert s. induction pairs as [|[a' b'] pairs IH]; intros s Hnd; simpl.
  { set_solver. }
  apply NoDup_cons in Hnd as [Hni Hnd]. rewrite IH by done. simpl.
  destruct (decide (a' = a)) as [->|Hne].
  - rewrite lookup_insert_eq. split.
    + intros [(b&Hb&->)|[_ [= <-]]]; left; [|by exists b'; split; [left|]].
      destruct Hni. apply (list_elem_of_fmap_2 fst _ _ Hb).
    + intros [(b&Hb&->)|[Hn _]]; [|set_solver].
      apply elem_of_cons in Hb as [[= ->]|Hb]; [by right|].
      destruct Hni. apply (list_elem_of_fmap_2 fst _ _ Hb).
  - rewrite lookup_insert_ne by done. set_solver.
Qed.

Lemma foldl_insert_supply pairs s :
  NoDup pairs.*1 → (∀ a, a ∈ pairs.*1 → accounts s !! a = None) →
  supply (foldl insert_alloc s pairs) = supply s + foldr (λ p n, p.2 + n) 0 pairs.
Proof.
  revert s. induction pairs as [|[a b] pairs IH]; intros s Hnd Hs; simpl; [lia|].
  apply NoDup_cons in Hnd as [Hni Hnd]. rewrite IH; [|done|].
  - unfold insert_alloc. rewrite supply_insert. rewrite Hs by (simpl; left). destruct s; simpl. lia.
  - intros a' Ha'. simpl. rewrite lookup_insert_ne by (by intros ->). apply Hs. by right.
Qed.

Lemma pair_sum_perm (l1 l2 : list (Address * Z)) :
  l1 ≡ₚ l2 → foldr (λ p n, p.2 + n) 0 l1 = foldr (λ p n, p.2 + n) 0 l2.
Proof. induction 1; simpl; lia. Qed.

Lemma State_from_genesis_ok g s :
  State_from_genesis g = Ok s ↔ ∃ pairs, sorted_pairs g = Ok pairs ∧ s = foldl insert_alloc State_new pairs.
Proof.
  unfold State_from_genesis, rbind. destruct (sorted_pairs g) as [pairs| |].
  - split; [intros [= <-]; by eexists|]. by intros (?&[= <-]&->).
  - split; [done|]. by intros (?&?&_).
  - split; [done|]. by intros (?&?&_).
Qed.

Lemma from_genesis_lookup g s a acc :
  State_from_genesis g = Ok s →
  accounts s !! a = Some acc ↔
  ∃ al, al ∈ g_allocations g ∧ ga_address al = a ∧ acc = Account_new a (ga_balance al).
Proof.
  intros (pairs&(Hv&Hnd&->)%sorted_pairs_ok&->)%State_from_genesis_ok.
  rewrite foldl_insert_lookup.
  2: { rewrite sort_by_key_perm. unfold alloc_pairs. by rewrite <- list_fmap_compose. }
  setoid_rewrite sort_by_key_perm. unfold alloc_pairs, Address_new. split.
  - intros [(b&(al&[= -> ->]&Hin)%list_elem_of_fmap&->)|[_ Hx]];
      [|by change (accounts State_new) with (∅ : gmap string Account) in Hx; rewrite lookup_empty in Hx].
    by exists al.
  - intros (al&Hin&<-&->). left. exists (ga_balance al). split; [|done].
    apply list_elem_of_fmap. by exists al.
Qed.

Lemma from_genesis_wf g s : wf_genesis g → State_from_genesis g = Ok s → wf_state s.
Proof.
  intros Hw Hs a acc Ha. apply (from_genesis_lookup g s a acc Hs) in Ha as (al&Hin&<-&->).
  unfold wf_genesis in Hw. rewrite Forall_forall in Hw.
  split_and!; [done|by apply Hw|]. simpl. unfold in_u64, u64_max. lia.
Qed.

Lemma from_genesis_supply g s : State_from_genesis g = Ok s → supply s = genesis_supply g.
Proof.
  intros (pairs&(_&Hnd&->)%sorted_pairs_ok&->)%State_from_genesis_ok.
  rewrite foldl_insert_supply.
  - rewrite (pair_sum_perm _ _ (sort_by_key_perm fst (alloc_pairs g))).
    unfold genesis_supply, alloc_pairs. assert (supply State_new = 0) as -> by done.
    rewrite Z.add_0_l. clear. induction (g_allocations g) as [|al l IH]; [done|].
    rewrite fmap_cons. cbn [foldr snd]. by rewrite IH.
  - rewrite sort_by_key_perm. unfold alloc_pairs. by rewrite <- list_fmap_compose.
  - intros a _. apply lookup_empty.
Qed.

(** The height-0 state is exactly the genesis document: each declared
    allocation is an account with that balance and nonce 0, there is no other
    account, the ledger invariant holds, and the initial supply is the sum of
    the allocations. *)
Theorem genesis_state_exact g s :
  wf_genesis g → State_from_genesis g = Ok s →
  wf_state s ∧ supply s = genesis_supply g
  ∧ ∀ a acc, accounts s !! a = Some acc ↔
      ∃ al, al ∈ g_allocations g ∧ ga_address al = a ∧ acc = Account_new a (ga_balance al).
Proof.
  intros Hw Hs. split_and!; [by eapply from_genesis_wf|by apply from_genesis_supply|].
  intros. by apply from_genesis_lookup.
Qed.

(** ** A list of transactions applied in order *)

Definition total_fees (txs : list Transaction) : Z := foldr (λ t n, tx_fee t + n) 0 txs.

Section apply_list.
Context `{CryptoLib}.

(** The sender's nonce moves past the transaction. *)
Lemma apply_effect_nonce s t :
  nonce_of (apply_effect s t) (tx_sender t) = tx_nonce t + 1.
Proof.
  unfold nonce_of. rewrite apply_effect_lookup, !(decide_True _ _ (eq_refl (tx_sender t))). by case_decide.
Qed.

Lemma apply_transactions_cons t txs s s' :
  wf_state s → wf_tx t → apply_transactions (t :: txs) s = (Ok tt, s') →
  can_apply s t ∧ apply_transactions txs (apply_effect s t) = (Ok tt, s').
Proof.
  intros Hw Ht. unfold apply_transactions. cbn [sfor]. unfold sbind.
  destruct (apply_transaction_cases s t Hw Ht) as [[Hc ->]|[_ [e ->]]]; [done|].
  intros Hx. discriminate Hx.
Qed.

Lemma apply_transactions_run txs s s' :
  wf_state s → Forall wf_tx txs → apply_transactions txs s = (Ok tt, s') →
  wf_state s' ∧ supply s' = supply s - total_fees txs
  ∧ (∀ a, nonce_of s a ≤ nonce_of s' a)
  ∧ NoDup (tx_slot <$> txs)
  ∧ ∀ t, t ∈ txs → nonce_of s (tx_sender t) ≤ tx_nonce t < nonce_of s' (tx_sender t).
Proof.
  intros Hw Ht. revert s Hw. induction Ht as [|t txs Ht Htxs IH]; intros s Hw Happ.
  { injection Happ as <-. split_and!; [done|simpl; lia|done|constructor|]. intros t Hin. by apply elem_of_nil in Hin. }
  destruct (apply_transactions_cons _ _ _ _ Hw Ht Happ) as [Hc Happ'].
  destruct (IH _ (wf_apply_effect _ _ Hw Ht Hc) Happ') as (Hw'&Hs&Hmono&Hnd&Hin).
  pose proof (apply_effect_nonce s t) as Hn1.
  assert (∀ a, nonce_of s a ≤ nonce_of (apply_effect s t) a) as Hm1.
  { intros a. destruct (nonce_monotone_step s t a Hw Ht) as [_ Hx].
    by destruct (apply_transaction_cases s t Hw Ht) as [[_ Heq]|[? _]]; [rewrite Heq in Hx|]. }
  destruct Hc as (_&Hsome&Hn&_). split_and!.
  - done.
  - rewrite Hs, supply_apply_effect by done. simpl. lia.
  - intros a. pose proof (Hm1 a). pose proof (Hmono a). lia.
  - change (NoDup (tx_slot t :: (tx_slot <$> txs))). apply NoDup_cons. split; [|done].
    intros (u&[= Ha Hnu]&Hu)%list_elem_of_fmap. pose proof (Hin u Hu). rewrite <- Ha in *. lia.
  - intros u [->|Hu]%elem_of_cons.
    + pose proof (Hmono (tx_sender t)). lia.
    + pose proof (Hin u Hu). pose proof (Hm1 (tx_sender u)). lia.
Qed.
End apply_list.

(** ** Witnesses *)

Module LedgerExample.
Import ToyCrypto WalletExample.

Definition genesis : Genesis :=
  mkGenesis [mkGenesisAllocation (Wallet_address alice) 100; mkGenesisAllocation "carol" 7].

Definition state0 : State :=
  match State_from_genesis genesis with Ok s => s | _ => State_new end.

Lemma genesis_wf : wf_genesis genesis.
Proof. repeat constructor; vm_compute; discriminate. Qed.

Lemma state0_eq : State_from_genesis genesis = Ok state0.
Proof. vm_compute. reflexivity. Qed.

Lemma state0_wf : wf_state state0.
Proof. apply (from_genesis_wf genesis); [apply genesis_wf|apply state0_eq]. Qed.

Lemma transfer_wf n : in_u64 n → wf_tx (transfer n).
Proof.
  intros Hn. unfold transfer.
  destruct (sign_transfer_ok alice bob 5 1 n 1700000000) as (tx&Htx&Hv&_&Hr&Ha&Hf&Hno&Hts);
    [done|vm_compute; reflexivity|].
  rewrite Htx. apply tx_basic_validate_ok in Hv as (_&_&_&_&_&_&Hh&_&Hs).
  unfold wf_tx. rewrite Ha, Hf, Hno, Hts, Hr, Hh, Hs. unfold in_u64, u64_max in *.
  split_and!; try lia; [apply utf8_valid_ascii, hash_bytes_ascii|vm_compute; reflexivity|].
  apply utf8_valid_ascii, hash_bytes_ascii.
Qed.

Lemma u64_small n : (0 <=? n) && (n <=? 1000) = true → in_u64 n.
Proof. unfold in_u64, u64_max. lia. Qed.

Definition later : list Transaction := [transfer 1; transfer 7; transfer 0].

Lemma later_wf : Forall wf_tx later.
Proof.
  unfold later. apply Forall_cons; split; [by apply transfer_wf, u64_small|].
  apply Forall_cons; split; [by apply transfer_wf, u64_small|].
  apply Forall_cons; split; [by apply transfer_wf, u64_small|]. constructor.
Qed.

Lemma apply_transaction_refines_spec_witness :
  (can_apply state0 (transfer 0)
   ∧ apply_transaction (transfer 0) state0 = (Ok tt, apply_effect state0 (transfer 0)))
  ∨ (¬ can_apply state0 (transfer 0) ∧ ∃ e, apply_transaction (transfer 0) state0 = (Err e, state0)).
Proof.
  apply (apply_transaction_refines_spec state0 (transfer 0)); [apply state0_wf|apply transfer_wf].
  by apply u64_small.
Defined.

Lemma apply_transaction_supply_witness :
  supply (apply_transaction (transfer 0) state0).2
  = supply state0 - (if is_ok (apply_transaction (transfer 0) state0).1 then tx_fee (transfer 0) else 0).
Proof.
  apply (apply_transaction_supply state0 (transfer 0)); [apply state0_wf|apply transfer_wf].
  by apply u64_small.
Defined.

Lemma apply_transaction_safe_witness :
  wf_state (apply_transaction (transfer 0) state0).2
  ∧ ∀ a, a ≠ tx_sender (transfer 0) →
      balance_of state0 a ≤ balance_of (apply_transaction (transfer 0) state0).2 a
      ∧ nonce_of (apply_transaction (transfer 0) state0).2 a = nonce_of state0 a.
Proof.
  apply (apply_transaction_safe state0 (transfer 0)); [apply state0_wf|apply transfer_wf].
  by apply u64_small.
Defined.

Lemma no_replay_witness :
  let s1 := (apply_transaction (transfer 0) state0).2 in
  let s2 := attempt_all later s1 in
  apply_transaction (transfer 0) s2 = (Err InvalidNonce, s2).
Proof.
  intros s1. apply (no_replay state0 (transfer 0) s1 later).
  - apply state0_wf.
  - apply transfer_wf. by apply u64_small.
  - apply later_wf.
  - vm_compute. reflexivity.
Defined.

Lemma total_balance_sum_exact_witness :
  sum_balances 0 (reverse ((map_to_list (accounts state0)).*2)) = total_balance_sum state0
  ∧ total_balance_sum state0
    = if supply state0 <=? u64_max then Ok (supply state0)
      else Err (StateError "total balance sum overflow").
Proof.
  apply (total_balance_sum_exact state0); [apply state0_wf|]. apply reverse_Permutation.
Defined.

Lemma genesis_state_exact_witness :
  wf_state state0 ∧ supply state0 = genesis_supply genesis
  ∧ ∀ a acc, accounts state0 !! a = Some acc ↔
      ∃ al, al ∈ g_allocations genesis ∧ ga_address al = a ∧ acc = Account_new a (ga_balance al).
Proof. apply (genesis_state_exact genesis state0); [apply genesis_wf|apply state0_eq]. Defined.

(** The concrete run: alice pays 5 and burns 1; the second attempt is refused. *)
Example alice_pays_bob :
  let '(r1, s1) := apply_transaction (transfer 0) state0 in
  let '(r2, s2) := apply_transaction (transfer 0) s1 in
  r1 = Ok tt ∧ balance_of s1 (Wallet_address alice) = 94 ∧ balance_of s1 "bob" = 5
  ∧ r2 = Err InvalidNonce ∧ supply s2 = 106.
Proof. vm_compute. repeat split; reflexivity. Qed.
End LedgerExample.
