(* ===== verification/Mempool.v ===== *)
(** * Mempool ([mempool.rs])

    The pool keeps each pending transaction three times: by id ([mp_txs]), in
    submission order ([mp_order]) and by sender and nonce ([mp_by_sender]).
    [mp_inv] says that the three views agree; every operation preserves it, so
    a pool behaves as the bounded queue of [MempoolQueue.v]. *)

From Stdlib Require Import ZArith Lia.
From stdpp Require Import base strings list gmap fin_maps sets.
From S2P Require Import Prelude Bytes Crypto Transaction Wallet Genesis Ledger.

Record Mempool := mkMempool {
  mp_capacity : nat;
  mp_txs : gmap string Transaction;
  mp_order : list string;
  mp_by_sender : gmap string (gmap Z string)
}.

#[export] Instance Mempool_eq_dec : EqDecision Mempool.
Proof. solve_decision. Defined.

Definition Mempool_new (capacity : nat) : Mempool := mkMempool capacity ∅ [] ∅.

Definition mp_len (m : Mempool) : nat := size (mp_txs m).
Definition mp_is_empty (m : Mempool) : bool := Nat.eqb (size (mp_txs m)) 0.

Definition set_order (order : list string) (m : Mempool) : Mempool :=
  mkMempool (mp_capacity m) (mp_txs m) order (mp_by_sender m).

Definition remove_tx_hash (hash : string) (m : Mempool) : Mempool :=
  match mp_txs m !! hash with
  | None => m
  | Some tx =>
    let by_sender :=
      match mp_by_sender m !! tx_sender tx with
      | None => mp_by_sender m
      | Some slots =>
        let slots' := delete (tx_nonce tx) slots in
        if decide (slots' = ∅) then delete (tx_sender tx) (mp_by_sender m)
        else <[ tx_sender tx := slots' ]> (mp_by_sender m)
      end in
    mkMempool (mp_capacity m) (delete hash (mp_txs m)) (mp_order m) by_sender
  end.

(** [while let Some(h) = self.order.pop_front()] *)
Fixpoint evict_from (order : list string) (m : Mempool) : Mempool :=
  match order with
  | [] => set_order [] m
  | h :: rest =>
    if decide (is_Some (mp_txs m !! h)) then remove_tx_hash h (set_order rest m)
    else evict_from rest m
  end.

Definition evict_oldest (m : Mempool) : Mempool := evict_from (mp_order m) m.

(** [while self.txs.len() >= self.capacity]; [None] when the fuel runs out. *)
Fixpoint evict_until_room (fuel : nat) (m : Mempool) : option Mempool :=
  if Nat.ltb (mp_len m) (mp_capacity m) then Some m
  else
    match fuel with
    | O => None
    | S f =>
      let m' := evict_oldest m in
      if mp_is_empty m' then Some m' else evict_until_room f m'
    end.

(** The three insertions at the end of a submission. *)
Definition insert_tx (tx : Transaction) (m : Mempool) : Mempool :=
  let h := tx_tx_hash tx in
  let slots := default ∅ (mp_by_sender m !! tx_sender tx) in
  mkMempool (mp_capacity m) (<[ h := tx ]> (mp_txs m)) (mp_order m ++ [h])
    (<[ tx_sender tx := <[ tx_nonce tx := h ]> slots ]> (mp_by_sender m)).

Definition slot_of (m : Mempool) (sender : Address) (nonce : Z) : option string :=
  slots ← mp_by_sender m !! sender; slots !! nonce.

(** Another transaction already occupies the sender's nonce. *)
Definition nonce_conflict (tx : Transaction) (m : Mempool) : bool :=
  match slot_of m (tx_sender tx) (tx_nonce tx) with
  | Some existing => negb (String.eqb existing (tx_tx_hash tx))
  | None => false
  end.

Section mempool.
Context `{CryptoLib}.

Definition try_submit (tx : Transaction) : ST Mempool ProtocolError unit :=
  slift (tx_basic_validate tx) ;;!
  let! m := sget in
  if decide (is_Some (mp_txs m !! tx_tx_hash tx)) then sfail DuplicateTransaction
  else if nonce_conflict tx m then sfail MempoolNonceConflict
  else
    let! m' := slift (expect (evict_until_room (S (length (mp_order m))) m)) in
    sput m' ;;!
    if Nat.leb (mp_capacity m') (mp_len m') then sfail MempoolFull
    else sput (insert_tx tx m').

Definition try_submit_pending_drain (tx : Transaction) : ST Mempool ProtocolError unit :=
  slift (tx_basic_validate tx) ;;!
  let! m := sget in
  if decide (is_Some (mp_txs m !! tx_tx_hash tx)) then sfail DuplicateTransaction
  else if nonce_conflict tx m then sfail MempoolNonceConflict
  else if Nat.leb (mp_capacity m) (mp_len m) then sfail MempoolFull
  else sput (insert_tx tx m).

Definition ordered_candidates (m : Mempool) (max : nat) : list Transaction :=
  take max (omap (λ h, mp_txs m !! h) (mp_order m)).

(** The walk over the submission order on a clone [s] of the state. *)
Fixpoint seal_walk (txs : gmap string Transaction) (max : nat) (order : list string)
    (s : State) (out : list Transaction) : Res ProtocolError (list Transaction) :=
  match order with
  | [] => Ok out
  | h :: order' =>
    if Nat.leb max (length out) then Ok out
    else
      match txs !! h with
      | None => seal_walk txs max order' s out
      | Some tx =>
        match acc_nonce <$> get_account s (tx_sender tx) with
        | None =>
          match apply_transaction tx s with
          | (Ok _, s') => seal_walk txs max order' s' (out ++ [tx])
          | (Err _, s') => seal_walk txs max order' s' out
          | (Panic, _) => Panic
          end
        | Some n =>
          if n <? tx_nonce tx then seal_walk txs max order' s out
          else if tx_nonce tx <? n then Err InvalidNonce
          else
            match apply_transaction tx s with
            | (Ok _, s') => seal_walk txs max order' s' (out ++ [tx])
            | (Err e, _) => Err e
            | (Panic, _) => Panic
            end
        end
      end
  end.

Definition ordered_candidates_for_seal (m : Mempool) (s : State) (max : nat) :
    Res ProtocolError (list Transaction) :=
  seal_walk (mp_txs m) max (mp_order m) s [].

Definition remove_by_tx_hashes (hashes : list string) (m : Mempool) : Mempool :=
  let remove : gset string := list_to_set hashes in
  let m' := foldr remove_tx_hash m (elements remove) in
  set_order (filter (λ x, x ∉ remove) (mp_order m')) m'.

Definition clone_fifo (m : Mempool) : list Transaction := omap (λ h, mp_txs m !! h) (mp_order m).

Definition restore_fifo (txs : list Transaction) (m : Mempool) : Mempool :=
  foldl (λ m tx, insert_tx tx m) (Mempool_new (mp_capacity m)) txs.

(** Why the head of the queue is dropped, or [None] when the purge stops at it. *)
Definition head_drops (tx : Transaction) (committed : State) : bool :=
  match tx_basic_validate tx with
  | Ok _ =>
    match get_account committed (tx_sender tx) with
    | None => true
    | Some acc =>
      if tx_nonce tx <? acc_nonce acc then true
      else if acc_nonce acc <? tx_nonce tx then false
      else
        match checked_add (tx_amount tx) (tx_fee tx) with
        | None => true
        | Some total_cost => acc_balance acc <? total_cost
        end
    end
  | _ => true
  end.

Fixpoint purge_from (order : list string) (committed : State) (removed : nat) (m : Mempool) :
    nat * Mempool :=
  match order with
  | [] => (removed, set_order [] m)
  | head_hash :: rest =>
    match mp_txs m !! head_hash with
    | None => purge_from rest committed removed m
    | Some tx =>
      if head_drops tx committed
      then purge_from rest committed (S removed) (remove_tx_hash head_hash (set_order rest m))
      else (removed, set_order order m)
    end
  end.

Definition purge_nonviable_under_committed_state (committed : State) (m : Mempool) : nat * Mempool :=
  purge_from (mp_order m) committed 0 m.

Definition is_stale (committed : State) (tx : Transaction) : bool :=
  match get_account committed (tx_sender tx) with
  | Some acc => tx_nonce tx <? acc_nonce acc
  | None => false
  end.

Definition drop_stale_nonces_vs_committed (committed : State) (m : Mempool) : nat * Mempool :=
  let to_remove := tx_tx_hash <$> filter (λ tx, is_stale committed tx = true) ((map_to_list (mp_txs m)).*2) in
  (length to_remove, remove_by_tx_hashes to_remove m).

Fixpoint later_conflicts (txs : gmap string Transaction) (order : list string)
    (seen : gset (string * Z)) : list string :=
  match order with
  | [] => []
  | h :: order' =>
    match txs !! h with
    | None => later_conflicts txs order' seen
    | Some tx =>
      let key := (tx_sender tx, tx_nonce tx) in
      if decide (key ∈ seen) then h :: later_conflicts txs order' seen
      else later_conflicts txs order' ({[ key ]} ∪ seen)
    end
  end.

Definition drop_later_sender_nonce_conflicts_keep_fifo_first (m : Mempool) : nat * Mempool :=
  let to_remove := later_conflicts (mp_txs m) (mp_order m) ∅ in
  let m' := foldl (λ m h, remove_tx_hash h m) m to_remove in
  (length to_remove, set_order (filter (λ x, is_Some (mp_txs m' !! x)) (mp_order m')) m').

Definition hygiene_vs_committed_ledger (committed : State) (m : Mempool) : (nat * nat * nat) * Mempool :=
  let '(front, m) := purge_nonviable_under_committed_state committed m in
  let '(stale, m) := drop_stale_nonces_vs_committed committed m in
  let '(dup, m) := drop_later_sender_nonce_conflicts_keep_fifo_first m in
  ((front, stale, dup), m).
End mempool.

(** ** The invariant *)

(** The three views agree. [order] is the queue, which differs from
    [mp_order m] only inside the popping loops. *)
Record mp_views (order : list string) (m : Mempool) : Prop := {
  mv_nodup : NoDup order;
  mv_order h : h ∈ order ↔ is_Some (mp_txs m !! h);
  mv_hash h tx : mp_txs m !! h = Some tx → tx_tx_hash tx = h;
  mv_slot a n h : slot_of m a n = Some h ↔ ∃ tx, mp_txs m !! h = Some tx ∧ tx_sender tx = a ∧ tx_nonce tx = n;
  mv_slots a slots : mp_by_sender m !! a = Some slots → slots ≠ ∅
}.

Record mp_inv `{CryptoLib} (m : Mempool) : Prop := {
  mi_views : mp_views (mp_order m) m;
  mi_valid : map_Forall (λ _ tx, tx_basic_validate tx = Ok tt) (mp_txs m);
  mi_capacity : (mp_len m ≤ mp_capacity m)%nat
}.

Lemma mp_views_ext order m m' :
  mp_txs m' = mp_txs m → mp_by_sender m' = mp_by_sender m → mp_views order m → mp_views order m'.
Proof.
  intros Ht Hb [Hnd Ho Hh Hs Hn]. split; unfold slot_of in *; rewrite ?Ht, ?Hb; done.
Qed.

Lemma mp_views_new c : mp_views [] (Mempool_new c).
Proof.
  split; simpl; [constructor|..].
  - intros h. rewrite lookup_empty. set_solver.
  - intros h tx. by rewrite lookup_empty.
  - intros a n h. unfold slot_of. simpl. rewrite lookup_empty. simpl. split; [done|].
    intros (tx&Htx&_). by rewrite lookup_empty in Htx.
  - intros a slots. by rewrite lookup_empty.
Qed.

Lemma mp_len_zero m : mp_len m = 0%nat ↔ mp_txs m = ∅.
Proof. unfold mp_len. apply map_size_empty_iff. Qed.

(** The pool is as long as its queue. *)
Lemma mp_views_length order m : mp_views order m → length order = mp_len m.
Proof.
  intros [Hnd Ho _ _ _]. unfold mp_len. rewrite <- size_dom.
  rewrite <- (size_list_to_set (C := gset string)) by done. f_equal.
  apply set_eq. intros h. rewrite elem_of_list_to_set, Ho, elem_of_dom. done.
Qed.

(** Removing one id: the slot of its sender and nonce is freed, and no other. *)
Lemma remove_tx_hash_txs h m : mp_txs (remove_tx_hash h m) = delete h (mp_txs m).
Proof.
  unfold remove_tx_hash. destruct (mp_txs m !! h) eqn:Hh; simpl; [done|]. by rewrite delete_id.
Qed.

Lemma remove_tx_hash_order h m : mp_order (remove_tx_hash h m) = mp_order m.
Proof. unfold remove_tx_hash. by destruct (mp_txs m !! h). Qed.

Lemma remove_tx_hash_capacity h m : mp_capacity (remove_tx_hash h m) = mp_capacity m.
Proof. unfold remove_tx_hash. by destruct (mp_txs m !! h). Qed.

Lemma remove_tx_hash_slot order h tx m a n :
  mp_views order m → mp_txs m !! h = Some tx →
  slot_of (remove_tx_hash h m) a n
  = if decide (a = tx_sender tx ∧ n = tx_nonce tx) then None else slot_of m a n.
Proof.
  intros Hv Hh. unfold remove_tx_hash. rewrite Hh.
  assert (slot_of m (tx_sender tx) (tx_nonce tx) = Some h) as Hs
    by (apply (mv_slot _ _ Hv); eauto).
  unfold slot_of in *. simpl.
  destruct (mp_by_sender m !! tx_sender tx) as [slots|] eqn:Hb; [|done]. simpl in Hs.
  destruct (decide (a = tx_sender tx)) as [->|Hne].
  - rewrite Hb. simpl. destruct (decide (delete (tx_nonce tx) slots = ∅)) as [He|He].
    + rewrite lookup_delete_eq. simpl. case_decide as Hd; [done|].
      assert (delete (tx_nonce tx) slots !! n = None) as Hx by (rewrite He; apply lookup_empty).
      rewrite lookup_delete_ne in Hx by (intros <-; by apply Hd). done.
    + rewrite lookup_insert_eq. simpl. case_decide as Hd.
      * destruct Hd as [_ ->]. apply lookup_delete_eq.
      * rewrite lookup_delete_ne by (intros <-; by apply Hd). done.
  - rewrite (decide_False (P := a = tx_sender tx ∧ n = tx_nonce tx)) by (by intros [? _]).
    case_decide; [rewrite lookup_delete_ne by done|rewrite lookup_insert_ne by done]; done.
Qed.

Lemma remove_tx_hash_views order h m :
  mp_views order m → mp_views (filter (λ x, x ≠ h) order) (remove_tx_hash h m).
Proof.
  intros Hv. destruct (mp_txs m !! h) as [tx|] eqn:Hh.
  2: { unfold remove_tx_hash. rewrite Hh.
       assert (filter (λ x, x ≠ h) order = order) as ->; [|done].
       apply filter_all. intros x Hin%(mv_order _ _ Hv) ->.
       rewrite Hh in Hin. by destruct Hin. }
  split.
  - apply NoDup_filter, Hv.
  - intros x. rewrite list_elem_of_filter, (mv_order _ _ Hv), remove_tx_hash_txs.
    rewrite lookup_delete_is_Some. split; intros [Hx ?]; (split; [congruence|done]).
  - intros x tx'. rewrite remove_tx_hash_txs. intros [_ Hx]%lookup_delete_Some. by apply (mv_hash _ _ Hv).
  - intros a n x. rewrite (remove_tx_hash_slot order h tx) by done. rewrite remove_tx_hash_txs.
    setoid_rewrite lookup_delete_Some. case_decide as Hd.
    + split; [done|]. intros (tx'&[Hne Hx]&<-&<-). destruct Hd as [Ha Hn]. destruct Hne.
      assert (slot_of m (tx_sender tx) (tx_nonce tx) = Some h) as H1 by (apply (mv_slot _ _ Hv); eauto).
      assert (slot_of m (tx_sender tx) (tx_nonce tx) = Some x) as H2.
      { apply (mv_slot _ _ Hv). exists tx'. by rewrite Ha, Hn. }
      congruence.
    + rewrite (mv_slot _ _ Hv). split; [|naive_solver]. intros (tx'&Hx&<-&<-).
      exists tx'. split_and!; try done. intros ->. naive_solver.
  - intros a slots. unfold remove_tx_hash. rewrite Hh. simpl.
    pose proof (mv_slots _ _ Hv) as Hn.
    destruct (mp_by_sender m !! tx_sender tx) as [sl|] eqn:Hb; [|apply Hn].
    case_decide as He.
    + intros [_ Hx]%lookup_delete_Some. by eapply Hn.
    + rewrite lookup_insert. case_decide; [intros [= <-]; done|apply Hn].
Qed.

(** ** Insertion and eviction *)

Lemma insert_tx_slot tx m a n :
  slot_of (insert_tx tx m) a n
  = if decide (a = tx_sender tx ∧ n = tx_nonce tx) then Some (tx_tx_hash tx) else slot_of m a n.
Proof.
  unfold slot_of, insert_tx. simpl. rewrite lookup_insert.
  destruct (decide (tx_sender tx = a)) as [<-|Hne]; simpl.
  - rewrite lookup_insert. destruct (decide (tx_nonce tx = n)) as [<-|Hn].
    + by rewrite decide_True.
    + rewrite decide_False by naive_solver. by destruct (mp_by_sender m !! tx_sender tx).
  - by rewrite decide_False by naive_solver.
Qed.

Lemma insert_tx_views tx m :
  mp_views (mp_order m) m →
  mp_txs m !! tx_tx_hash tx = None → slot_of m (tx_sender tx) (tx_nonce tx) = None →
  mp_views (mp_order (insert_tx tx m)) (insert_tx tx m).
Proof.
  intros Hv Hfresh Hfree. split; simpl.
  - apply NoDup_app. split_and!; [apply Hv| |apply NoDup_singleton].
    intros h Hh ->%list_elem_of_singleton. apply (mv_order _ _ Hv) in Hh as [? ?]. congruence.
  - intros h. rewrite elem_of_app, list_elem_of_singleton, (mv_order _ _ Hv), lookup_insert_is_Some.
    destruct (decide (tx_tx_hash tx = h)); naive_solver.
  - intros h tx'. rewrite lookup_insert_Some. intros [[<- <-]|[_ Hx]]; [done|by apply (mv_hash _ _ Hv)].
  - intros a n h. rewrite insert_tx_slot. setoid_rewrite lookup_insert_Some. case_decide as Hd.
    + destruct Hd as [-> ->]. split; [naive_solver|].
      intros (tx'&[[<- <-]|[_ Hx]]&Ha&Hn); [done|].
      assert (slot_of m (tx_sender tx) (tx_nonce tx) = Some h); [|congruence].
      apply (mv_slot _ _ Hv). eauto.
    + rewrite (mv_slot _ _ Hv). split.
      * intros (tx'&Hx&<-&<-). exists tx'. split_and!; [|done..]. right. split; [|done].
        intros <-. congruence.
      * intros (tx'&[[_ <-]|[_ Hx]]&<-&<-); [naive_solver|eauto].
  - intros a slots. rewrite lookup_insert_Some. intros [[_ <-]|[_ Hx]].
    + apply insert_non_empty.
    + by apply (mv_slots _ _ Hv) in Hx.
Qed.

Lemma set_order_id m : set_order (mp_order m) m = m.
Proof. by destruct m. Qed.

Lemma evict_oldest_nil m : mp_order m = [] → evict_oldest m = m.
Proof. intros Ho. unfold evict_oldest. rewrite Ho. simpl. rewrite <- Ho. apply set_order_id. Qed.

Lemma evict_oldest_cons m h rest :
  mp_views (mp_order m) m → mp_order m = h :: rest →
  evict_oldest m = remove_tx_hash h (set_order rest m)
  ∧ mp_views (mp_order (evict_oldest m)) (evict_oldest m)
  ∧ mp_order (evict_oldest m) = rest
  ∧ mp_txs (evict_oldest m) = delete h (mp_txs m)
  ∧ mp_capacity (evict_oldest m) = mp_capacity m.
Proof.
  intros Hv Ho.
  assert (evict_oldest m = remove_tx_hash h (set_order rest m)) as Heq.
  { unfold evict_oldest. rewrite Ho. simpl. rewrite decide_True; [done|].
    apply (mv_order _ _ Hv). rewrite Ho. left. }
  rewrite Heq. split; [done|]. rewrite remove_tx_hash_order, remove_tx_hash_txs, remove_tx_hash_capacity.
  simpl. split_and!; [|done..].
  rewrite Ho in Hv. rewrite <- (NoDup_filter_head h rest) by apply Hv.
  apply remove_tx_hash_views. by apply (mp_views_ext _ m).
Qed.

Section mempool_inv.
Context `{CryptoLib}.

Lemma mp_inv_new c : mp_inv (Mempool_new c).
Proof.
  split; [apply mp_views_new|apply map_Forall_empty|]. unfold mp_len. simpl.
  rewrite map_size_empty. lia.
Qed.

Lemma evict_oldest_inv m : mp_inv m → mp_inv (evict_oldest m).
Proof.
  intros [Hv Hval Hc]. destruct (mp_order m) as [|h rest] eqn:Ho.
  - rewrite evict_oldest_nil by done. split; [by rewrite Ho|done..].
  - rewrite <- Ho in Hv. destruct (evict_oldest_cons m h rest Hv Ho) as (_&Hv'&_&Ht&Hcap).
    split; [done|rewrite Ht; by apply map_Forall_delete|].
    unfold mp_len in *. rewrite Ht, Hcap.
    rewrite map_size_delete. destruct (mp_txs m !! h); simpl; lia.
Qed.

(** The eviction loop terminates, and removes at most the oldest entry. *)
Lemma evict_until_room_spec m :
  mp_inv m →
  evict_until_room (S (length (mp_order m))) m
  = Some (if Nat.ltb (mp_len m) (mp_capacity m) then m else evict_oldest m).
Proof.
  intros [Hv _ Hc]. pose proof (mp_views_length _ _ Hv) as Hlen. cbn [evict_until_room].
  destruct (Nat.ltb_spec (mp_len m) (mp_capacity m)); [done|].
  unfold mp_is_empty. fold (mp_len (evict_oldest m)).
  destruct (Nat.eqb_spec (mp_len (evict_oldest m)) 0) as [|Hne]; [done|].
  destruct (mp_order m) as [|h rest] eqn:Ho.
  - rewrite evict_oldest_nil in Hne by done. simpl in Hlen. lia.
  - rewrite <- Ho in Hv. destruct (evict_oldest_cons m h rest Hv Ho) as (_&Hv'&Ho'&_&Hcap).
    pose proof (mp_views_length _ _ Hv') as Hlen'. rewrite Ho' in Hlen'. simpl in Hlen.
    cbn [evict_until_room length]. rewrite Hcap.
    destruct (Nat.ltb_spec (mp_len (evict_oldest m)) (mp_capacity m)); [done|lia].
Qed.

Lemma insert_tx_inv tx m :
  mp_inv m → tx_basic_validate tx = Ok tt → mp_txs m !! tx_tx_hash tx = None →
  slot_of m (tx_sender tx) (tx_nonce tx) = None → (mp_len m < mp_capacity m)%nat →
  mp_inv (insert_tx tx m).
Proof.
  intros [Hv Hval Hc] Htx Hfresh Hfree Hroom. split; [by apply insert_tx_views|..].
  - simpl. by apply map_Forall_insert_2.
  - unfold mp_len in *. simpl. rewrite map_size_insert_None by done. lia.
Qed.

(** A free id whose slot shows no conflict has a free slot. *)
Lemma no_conflict_free tx m :
  mp_views (mp_order m) m → mp_txs m !! tx_tx_hash tx = None → nonce_conflict tx m = false →
  slot_of m (tx_sender tx) (tx_nonce tx) = None.
Proof.
  intros Hv Hfresh Hnc. unfold nonce_conflict in Hnc.
  destruct (slot_of m (tx_sender tx) (tx_nonce tx)) as [h|] eqn:Hs; [|done].
  apply negb_false_iff, String.eqb_eq in Hnc as ->.
  apply (mv_slot _ _ Hv) in Hs as (tx'&Hx&_). congruence.
Qed.

Lemma evict_keeps_free m a n h :
  mp_views (mp_order m) m →
  (slot_of m a n = None → slot_of (evict_oldest m) a n = None)
  ∧ (mp_txs m !! h = None → mp_txs (evict_oldest m) !! h = None).
Proof.
  intros Hv. destruct (mp_order m) as [|h0 rest] eqn:Ho.
  { by rewrite evict_oldest_nil. }
  rewrite <- Ho in Hv. destruct (evict_oldest_cons m h0 rest Hv Ho) as (Heq&_&_&Ht&_). split.
  - intros Hs. rewrite Heq.
    assert (is_Some (mp_txs m !! h0)) as [tx Htx] by (apply (mv_order _ _ Hv); rewrite Ho; left).
    rewrite (remove_tx_hash_slot (mp_order m) h0 tx); [by case_decide|by apply (mp_views_ext _ m)|done].
  - intros Hn. rewrite Ht. apply lookup_delete_None. by right.
Qed.

(** A consistent pool that lost some of its entries. *)
Lemma mp_inv_sub m m' :
  mp_inv m → mp_views (mp_order m') m' → mp_txs m' ⊆ mp_txs m → mp_capacity m' = mp_capacity m →
  mp_inv m'.
Proof.
  intros [_ Hval Hc] Hv Hsub Hcap. split; [done| |].
  { intros h t Ht. apply (Hval h). by eapply lookup_weaken. }
  rewrite Hcap. unfold mp_len in *. apply map_subseteq_size in Hsub. lia.
Qed.
End mempool_inv.
