(* ===== verification/MempoolQueue.v ===== *)
(** * The mempool as a bounded queue ([mempool.rs])

    The abstract specification of the pool is a queue of transactions
    ([Queue]); every operation of [Mempool.v] refines its operation on the
    queue, results included, for every sequence of operations. Sealing is
    related to the inductive relation [SealRun]. *)

From Stdlib Require Import ZArith Lia.
From stdpp Require Import base strings list gmap fin_maps sets.
From S2P Require Import Prelude Bytes Crypto Transaction Wallet Genesis Ledger Mempool.

(** ** The abstract queue

    What the pool promises is a bounded queue of transactions; [mp_abs]
    forgets the two indexes. *)

Record Queue := mkQueue { q_capacity : nat; q_txs : list Transaction }.

Definition mp_abs (m : Mempool) : Queue := mkQueue (mp_capacity m) (clone_fifo m).

Definition same_slot (t u : Transaction) : bool :=
  String.eqb (tx_sender u) (tx_sender t) && Z.eqb (tx_nonce u) (tx_nonce t).

Definition same_hash (t u : Transaction) : bool := String.eqb (tx_tx_hash u) (tx_tx_hash t).

Section queue.
Context `{CryptoLib}.

(** Admission: [room] says what a full queue gives up for the new entry. *)
Definition q_admit (room : Queue → option (list Transaction)) (tx : Transaction) (q : Queue) :
    Res ProtocolError unit * Queue :=
  match tx_basic_validate tx with
  | Ok _ =>
    if existsb (same_hash tx) (q_txs q) then (Err DuplicateTransaction, q)
    else if existsb (same_slot tx) (q_txs q) then (Err MempoolNonceConflict, q)
    else
      match room q with
      | None => (Err MempoolFull, q)
      | Some kept => (Ok tt, mkQueue (q_capacity q) (kept ++ [tx]))
      end
  | Err e => (Err e, q)
  | Panic => (Panic, q)
  end.

(** A full queue gives up its oldest entry. *)
Definition q_evicting (q : Queue) : option (list Transaction) :=
  if Nat.ltb (length (q_txs q)) (q_capacity q) then Some (q_txs q)
  else if Nat.eqb (q_capacity q) 0 then None else Some (tail (q_txs q)).

(** A full queue gives up nothing. *)
Definition q_keeping (q : Queue) : option (list Transaction) :=
  if Nat.ltb (length (q_txs q)) (q_capacity q) then Some (q_txs q) else None.

Definition q_remove (hashes : list string) (q : Queue) : Queue :=
  mkQueue (q_capacity q) (filter (λ t, tx_tx_hash t ∉ hashes) (q_txs q)).

Definition q_hygiene (committed : State) (q : Queue) : (nat * nat * nat) * Queue :=
  let l1 := drop_while (λ t, head_drops t committed) (q_txs q) in
  let l2 := filter (λ t, is_stale committed t = false) l1 in
  ((length (q_txs q) - length l1, length l1 - length l2, 0)%nat, mkQueue (q_capacity q) l2).
End queue.

(** ** The queue view of a consistent pool *)

Lemma clone_fifo_elem order m t :
  mp_views order m →
  t ∈ omap (λ h, mp_txs m !! h) order ↔ mp_txs m !! tx_tx_hash t = Some t.
Proof.
  intros Hv. rewrite list_elem_of_omap. split.
  - intros (h&_&Ht). pose proof (mv_hash _ _ Hv _ _ Ht) as ->. done.
  - intros Ht. exists (tx_tx_hash t). split; [|done]. apply (mv_order _ _ Hv). by rewrite Ht.
Qed.

Lemma clone_fifo_hashes order m :
  mp_views order m → tx_tx_hash <$> omap (λ h, mp_txs m !! h) order = order.
Proof.
  intros Hv. assert (Forall (λ h, is_Some (mp_txs m !! h)) order) as Hall
    by (apply Forall_forall; intros h; apply (mv_order _ _ Hv)).
  pose proof (mv_hash _ _ Hv) as Hh. clear Hv. induction Hall as [|h order' [t Ht] _ IH]; [done|].
  cbn [omap list_omap]. rewrite Ht. rewrite fmap_cons, (Hh _ _ Ht). f_equal. exact IH.
Qed.

Lemma clone_fifo_length m : mp_views (mp_order m) m → length (clone_fifo m) = mp_len m.
Proof.
  intros Hv. rewrite <- (mp_views_length _ _ Hv).
  rewrite <- (length_fmap tx_tx_hash). f_equal. by apply clone_fifo_hashes.
Qed.

(** An operation that only drops entries drops them from the queue. *)
Lemma clone_fifo_filter (P : string → Prop) `{!∀ h, Decision (P h)} m m' :
  mp_views (mp_order m) m → mp_order m' = filter P (mp_order m) →
  (∀ h, P h → mp_txs m' !! h = mp_txs m !! h) →
  clone_fifo m' = filter (λ t, P (tx_tx_hash t)) (clone_fifo m).
Proof.
  intros Hv Ho Hagree. unfold clone_fifo. rewrite Ho. pose proof (mv_hash _ _ Hv) as Hh. clear Hv Ho.
  induction (mp_order m) as [|h order IH]; [done|].
  destruct (mp_txs m !! h) as [t|] eqn:Ht.
  - pose proof (Hh _ _ Ht) as Heq. destruct (decide (P h)) as [HP|HP].
    + rewrite filter_cons_True by done. cbn [omap list_omap]. rewrite Hagree, Ht by done.
      rewrite filter_cons_True by (by rewrite Heq). f_equal. exact IH.
    + rewrite filter_cons_False by done. cbn [omap list_omap]. rewrite Ht.
      rewrite filter_cons_False by (by rewrite Heq). exact IH.
  - destruct (decide (P h)) as [HP|HP].
    + rewrite filter_cons_True by done. cbn [omap list_omap]. rewrite Hagree, Ht by done. exact IH.
    + rewrite filter_cons_False by done. cbn [omap list_omap]. rewrite Ht. exact IH.
Qed.

Lemma existsb_same_hash tx m :
  mp_views (mp_order m) m →
  existsb (same_hash tx) (clone_fifo m) = bool_decide (is_Some (mp_txs m !! tx_tx_hash tx)).
Proof.
  intros Hv. apply eq_true_iff_eq. rewrite existsb_exists, bool_decide_eq_true. split.
  - intros (t&Ht%list_elem_of_In&Heq%String.eqb_eq).
    apply (clone_fifo_elem _ _ _ Hv) in Ht. rewrite <- Heq, Ht. done.
  - intros [t Ht]. pose proof (mv_hash _ _ Hv _ _ Ht) as Hh. exists t. split.
    + apply list_elem_of_In, (clone_fifo_elem _ _ _ Hv). by rewrite Hh.
    + by apply String.eqb_eq.
Qed.

Lemma existsb_same_slot tx m :
  mp_views (mp_order m) m → mp_txs m !! tx_tx_hash tx = None →
  existsb (same_slot tx) (clone_fifo m) = nonce_conflict tx m.
Proof.
  intros Hv Hfresh. apply eq_true_iff_eq. rewrite existsb_exists. unfold nonce_conflict, same_slot.
  setoid_rewrite andb_true_iff. setoid_rewrite String.eqb_eq. setoid_rewrite Z.eqb_eq. split.
  - intros (t&Ht%list_elem_of_In&Ha&Hn). apply (clone_fifo_elem _ _ _ Hv) in Ht.
    assert (slot_of m (tx_sender tx) (tx_nonce tx) = Some (tx_tx_hash t)) as ->
      by (apply (mv_slot _ _ Hv); eauto).
    apply negb_true_iff, String.eqb_neq. intros Heq. congruence.
  - destruct (slot_of m _ _) as [h|] eqn:Hs; [|done]. intros _.
    apply (mv_slot _ _ Hv) in Hs as (t&Ht&Ha&Hn). exists t.
    split; [|done]. apply list_elem_of_In, (clone_fifo_elem _ _ _ Hv).
    by rewrite (mv_hash _ _ Hv _ _ Ht).
Qed.

Lemma clone_fifo_insert tx m :
  mp_txs m !! tx_tx_hash tx = None → mp_views (mp_order m) m →
  clone_fifo (insert_tx tx m) = clone_fifo m ++ [tx].
Proof.
  intros Hfresh Hv. unfold clone_fifo. simpl. rewrite omap_app. f_equal.
  - apply omap_agree. intros h Hi.
    assert (is_Some (mp_txs m !! h)) as [t Ht] by (by apply (mv_order _ _ Hv)).
    rewrite lookup_insert_ne; [done|]. intros <-. congruence.
  - simpl. by rewrite lookup_insert_eq.
Qed.

Lemma clone_fifo_evict m :
  mp_views (mp_order m) m → clone_fifo (evict_oldest m) = tail (clone_fifo m).
Proof.
  intros Hv. destruct (mp_order m) as [|h rest] eqn:Ho.
  { rewrite evict_oldest_nil by done. unfold clone_fifo. by rewrite Ho. }
  rewrite <- Ho in Hv. destruct (evict_oldest_cons m h rest Hv Ho) as (_&Hv'&Ho'&Ht&_).
  assert (NoDup (h :: rest)) as [Hni _]%NoDup_cons by (rewrite <- Ho; apply Hv).
  assert (is_Some (mp_txs m !! h)) as [t Hth] by (apply (mv_order _ _ Hv); rewrite Ho; left).
  unfold clone_fifo. rewrite Ho, Ho', Ht. cbn [omap list_omap]. rewrite Hth. simpl.
  apply omap_agree. intros x Hx. apply lookup_delete_ne. congruence.
Qed.

(** The queue determines the pool. *)
Lemma mp_views_unique m m' :
  mp_views (mp_order m) m → mp_views (mp_order m') m' → mp_abs m = mp_abs m' → m = m'.
Proof.
  intros Hv Hv' [= Hcap Hq].
  assert (mp_order m = mp_order m') as Ho.
  { rewrite <- (clone_fifo_hashes _ _ Hv), <- (clone_fifo_hashes _ _ Hv').
    unfold clone_fifo in Hq. by rewrite Hq. }
  assert (mp_txs m = mp_txs m') as Ht.
  { apply map_eq. intros h. apply option_eq. intros t. split; intros Hx.
    - pose proof (mv_hash _ _ Hv _ _ Hx) as <-. apply (clone_fifo_elem _ _ _ Hv') .
      unfold clone_fifo in Hq. rewrite <- Hq. by apply (clone_fifo_elem _ _ _ Hv).
    - pose proof (mv_hash _ _ Hv' _ _ Hx) as <-. apply (clone_fifo_elem _ _ _ Hv) .
      unfold clone_fifo in Hq. rewrite Hq. by apply (clone_fifo_elem _ _ _ Hv'). }
  assert (∀ a n, slot_of m a n = slot_of m' a n) as Hs.
  { intros a n. apply option_eq. intros h. by rewrite (mv_slot _ _ Hv), (mv_slot _ _ Hv'), Ht. }
  destruct m as [c txs o bs], m' as [c' txs' o' bs']. simpl in *. subst. f_equal.
  apply map_eq. intros a. unfold slot_of in Hs. simpl in Hs. specialize (Hs a).
  pose proof (mv_slots _ _ Hv a) as Hn. pose proof (mv_slots _ _ Hv' a) as Hn'. simpl in *.
  destruct (bs !! a) as [sl|], (bs' !! a) as [sl'|]; simpl in *; [|..|done].
  - f_equal. by apply map_eq.
  - destruct (Hn sl); [done|]. by apply map_empty.
  - destruct (Hn' sl'); [done|]. apply map_empty. intros n. by rewrite <- Hs.
Qed.

(** Rebuilding the indexes from a queue with distinct ids and slots. *)
Lemma restore_views txs m :
  mp_views (mp_order m) m → NoDup (tx_tx_hash <$> txs) →
  NoDup (tx_slot <$> txs) →
  (∀ t, t ∈ txs → mp_txs m !! tx_tx_hash t = None ∧ slot_of m (tx_sender t) (tx_nonce t) = None) →
  let m' := foldl (λ m tx, insert_tx tx m) m txs in
  mp_views (mp_order m') m' ∧ clone_fifo m' = clone_fifo m ++ txs ∧ mp_capacity m' = mp_capacity m.
Proof.
  revert m. induction txs as [|t txs IH]; intros m Hv Hh Hs Hfree; simpl.
  { by rewrite app_nil_r. }
  change (NoDup (tx_slot t :: (tx_slot <$> txs))) in Hs.
  rewrite fmap_cons in Hh. apply NoDup_cons in Hh as [Hni Hh]. apply NoDup_cons in Hs as [Hsi Hs].
  destruct (Hfree t) as [Ht1 Ht2]; [left|].
  destruct (IH (insert_tx t m)) as (Hv'&Hq&Hc); [by apply insert_tx_views|done|done|..].
  - intros u Hu. destruct (Hfree u) as [Hu1 Hu2]; [by right|]. split.
    + simpl. rewrite lookup_insert_ne; [done|]. intros Heq. destruct Hni. rewrite Heq.
      by apply list_elem_of_fmap_2.
    + rewrite insert_tx_slot. case_decide as Hd; [|done]. destruct Hd as [Ha Hn], Hsi.
      apply list_elem_of_fmap. exists u. unfold tx_slot. by rewrite Ha, Hn.
  - split_and!; [done| |done]. rewrite Hq, clone_fifo_insert by done. by rewrite <- (assoc_L (++)).
Qed.

Lemma clone_fifo_distinct m :
  mp_views (mp_order m) m →
  NoDup (tx_tx_hash <$> clone_fifo m) ∧ NoDup (tx_slot <$> clone_fifo m).
Proof.
  intros Hv. assert (NoDup (tx_tx_hash <$> clone_fifo m)) as Hh.
  { unfold clone_fifo. rewrite clone_fifo_hashes by done. apply Hv. }
  split; [done|]. apply NoDup_fmap_2_strong; [|by apply NoDup_fmap_1 in Hh].
  intros t u Ht Hu [= Ha Hn].
  apply (clone_fifo_elem _ _ _ Hv) in Ht. apply (clone_fifo_elem _ _ _ Hv) in Hu.
  assert (slot_of m (tx_sender u) (tx_nonce u) = Some (tx_tx_hash u)) as H1
    by (apply (mv_slot _ _ Hv); eauto).
  assert (slot_of m (tx_sender u) (tx_nonce u) = Some (tx_tx_hash t)) as H2
    by (apply (mv_slot _ _ Hv); eauto).
  congruence.
Qed.

Lemma restore_clone m m0 :
  mp_views (mp_order m) m → mp_capacity m0 = mp_capacity m → restore_fifo (clone_fifo m) m0 = m.
Proof.
  intros Hv Hc. destruct (clone_fifo_distinct m Hv) as [Hh Hs].
  destruct (restore_views (clone_fifo m) (Mempool_new (mp_capacity m0))) as (Hv'&Hq&Hc'); [|done..|].
  - apply mp_views_new.
  - apply mp_views_unique; [done..|]. unfold mp_abs, restore_fifo. rewrite Hq, Hc', <- Hc. done.
Qed.

(** ** Each operation refines its operation on the queue *)

Lemma foldr_remove_views l order m :
  mp_views order m → mp_views (filter (λ x, x ∉ l) order) (foldr remove_tx_hash m l).
Proof.
  intros Hv. induction l as [|h l IH]; simpl.
  { rewrite filter_all; [done|]. set_solver. }
  assert (filter (λ x, x ∉ h :: l) order = filter (λ x, x ≠ h) (filter (λ x, x ∉ l) order)) as ->.
  { rewrite list_filter_filter. apply list_filter_iff. set_solver. }
  by apply remove_tx_hash_views.
Qed.

Lemma foldr_remove_fields l m :
  mp_order (foldr remove_tx_hash m l) = mp_order m
  ∧ mp_capacity (foldr remove_tx_hash m l) = mp_capacity m
  ∧ mp_txs (foldr remove_tx_hash m l) ⊆ mp_txs m
  ∧ ∀ h, h ∉ l → mp_txs (foldr remove_tx_hash m l) !! h = mp_txs m !! h.
Proof.
  induction l as [|h l (Ho&Hc&Hs&Ha)]; simpl; [done|].
  rewrite remove_tx_hash_order, remove_tx_hash_capacity, remove_tx_hash_txs. split_and!; [done..| |].
  - etrans; [apply delete_subseteq|done].
  - intros x Hx. rewrite lookup_delete_ne by set_solver. apply Ha. set_solver.
Qed.

Section refinement.
Context `{CryptoLib}.

(** [m'] is consistent and its queue is [q]. *)
Definition implements (m : Mempool) (q : Queue) : Prop := mp_inv m ∧ mp_abs m = q.

Lemma mp_abs_room m :
  mp_inv m → length (q_txs (mp_abs m)) = mp_len m ∧ q_capacity (mp_abs m) = mp_capacity m.
Proof. intros [Hv _ _]. split; [by apply clone_fifo_length|done]. Qed.

Lemma insert_tx_implements tx m :
  mp_inv m → tx_basic_validate tx = Ok tt → mp_txs m !! tx_tx_hash tx = None →
  slot_of m (tx_sender tx) (tx_nonce tx) = None → (mp_len m < mp_capacity m)%nat →
  implements (insert_tx tx m) (mkQueue (mp_capacity m) (clone_fifo m ++ [tx])).
Proof.
  intros Hi Htx Hfresh Hfree Hroom. split; [by apply insert_tx_inv|].
  unfold mp_abs. rewrite clone_fifo_insert by (done || apply Hi). done.
Qed.

(** What admission means for a pool: [room] and [make_room] are the two
    policies for a full pool. *)
Lemma admit_implements (room : Queue → option (list Transaction))
    (make_room : Mempool → Res ProtocolError unit * Mempool) tx m :
  mp_inv m →
  (mp_txs m !! tx_tx_hash tx = None → slot_of m (tx_sender tx) (tx_nonce tx) = None →
   match room (mp_abs m) with
   | None => make_room m = (Err MempoolFull, m)
   | Some kept => ∃ m', make_room m = (Ok tt, m') ∧ (tx_basic_validate tx = Ok tt →
        implements m' (mkQueue (mp_capacity m) (kept ++ [tx])))
   end) →
  let r := (slift (tx_basic_validate tx) ;;!
            let! m := sget in
            if decide (is_Some (mp_txs m !! tx_tx_hash tx)) then sfail DuplicateTransaction
            else if nonce_conflict tx m then sfail MempoolNonceConflict
            else make_room) m in
  r.1 = (q_admit room tx (mp_abs m)).1 ∧ implements r.2 (q_admit room tx (mp_abs m)).2.
Proof.
  intros Hi Hroom. pose proof Hi as [Hv _ _].
  unfold q_admit, sbind, slift, sget, sfail. cbn [q_txs mp_abs].
  destruct (tx_basic_validate tx) as [[]| |]; [|by split..].
  rewrite existsb_same_hash by done.
  destruct (decide (is_Some (mp_txs m !! tx_tx_hash tx))) as [Hd|Hd].
  { rewrite bool_decide_true by done. by split. }
  rewrite bool_decide_false by done. apply eq_None_not_Some in Hd.
  rewrite existsb_same_slot by done. destruct (nonce_conflict tx m) eqn:Hnc; [by split|].
  specialize (Hroom Hd (no_conflict_free _ _ Hv Hd Hnc)). fold (mp_abs m).
  destruct (room (mp_abs m)) as [kept|].
  - destruct Hroom as (m'&->&Hm'). by split; [|apply Hm'].
  - by rewrite Hroom.
Qed.

Lemma try_submit_implements tx m :
  mp_inv m →
  (try_submit tx m).1 = (q_admit q_evicting tx (mp_abs m)).1
  ∧ implements (try_submit tx m).2 (q_admit q_evicting tx (mp_abs m)).2.
Proof.
  intros Hi. destruct (mp_abs_room m Hi) as [Hlen Hcap]. pose proof Hi as [Hv _ Hc].
  apply (admit_implements q_evicting (λ m0,
    (let! m' := slift (expect (evict_until_room (S (length (mp_order m))) m)) in
     sput m' ;;!
     if Nat.leb (mp_capacity m') (mp_len m') then sfail MempoolFull else sput (insert_tx tx m')) m0) tx m Hi).
  intros Hfresh Hfree. unfold q_evicting. rewrite Hlen, Hcap.
  unfold sbind, slift, sput, sfail. rewrite evict_until_room_spec by done. simpl.
  destruct (Nat.ltb_spec (mp_len m) (mp_capacity m)) as [Hlt|Hge].
  { destruct (Nat.leb_spec (mp_capacity m) (mp_len m)); [lia|].
    eexists. split; [done|]. intros. by apply insert_tx_implements. }
  pose proof (mp_views_length _ _ Hv) as Hol.
  destruct (Nat.eqb_spec (mp_capacity m) 0) as [Hz|Hz].
  - assert (mp_order m = []) as Ho by (apply nil_length_inv; lia).
    rewrite evict_oldest_nil by done. by destruct (Nat.leb_spec (mp_capacity m) (mp_len m)); [|lia].
  - destruct (mp_order m) as [|h rest] eqn:Ho; [simpl in Hol; lia|].
    rewrite <- Ho in Hv. destruct (evict_oldest_cons m h rest Hv Ho) as (_&Hv'&Ho'&_&Hcap').
    pose proof (mp_views_length _ _ Hv') as Hol'. rewrite Ho' in Hol'. simpl in Hol.
    destruct (Nat.leb_spec (mp_capacity (evict_oldest m)) (mp_len (evict_oldest m))); [lia|].
    eexists. split; [done|]. intros Htx. rewrite <- Hcap'.
    rewrite <- clone_fifo_evict by done.
    destruct (evict_keeps_free m (tx_sender tx) (tx_nonce tx) (tx_tx_hash tx) Hv) as [H1 H2].
    apply insert_tx_implements; auto using evict_oldest_inv.
Qed.

Lemma try_submit_pending_drain_implements tx m :
  mp_inv m →
  (try_submit_pending_drain tx m).1 = (q_admit q_keeping tx (mp_abs m)).1
  ∧ implements (try_submit_pending_drain tx m).2 (q_admit q_keeping tx (mp_abs m)).2.
Proof.
  intros Hi. destruct (mp_abs_room m Hi) as [Hlen Hcap].
  apply (admit_implements q_keeping (λ m0,
    (if Nat.leb (mp_capacity m) (mp_len m) then sfail MempoolFull else sput (insert_tx tx m)) m0) tx m Hi).
  intros Hfresh Hfree. unfold q_keeping. rewrite Hlen, Hcap.
  destruct (Nat.leb_spec (mp_capacity m) (mp_len m)), (Nat.ltb_spec (mp_len m) (mp_capacity m)); [lia|done| |lia].
  eexists. split; [done|]. intros. by apply insert_tx_implements.
Qed.

Lemma remove_by_tx_hashes_implements hashes m :
  mp_inv m → implements (remove_by_tx_hashes hashes m) (q_remove hashes (mp_abs m)).
Proof.
  intros Hi. pose proof Hi as [Hv _ _]. unfold remove_by_tx_hashes.
  set (l := elements (list_to_set hashes : gset string)).
  destruct (foldr_remove_fields l m) as (Ho&Hc&Hsub&Hagree).
  assert (filter (λ x, x ∉ (list_to_set hashes : gset string)) (mp_order m)
          = filter (λ x, x ∉ l) (mp_order m)) as Hf.
  { apply list_filter_iff. intros x. unfold l. by rewrite elem_of_elements. }
  rewrite Ho, Hf. split.
  - apply (mp_inv_sub m); [done| |done|done]. simpl.
    apply (mp_views_ext _ (foldr remove_tx_hash m l)); [done..|]. by apply foldr_remove_views.
  - unfold mp_abs, q_remove. simpl. rewrite Hc. f_equal.
    rewrite (clone_fifo_filter (λ x, x ∉ l) m); [|done..].
    apply list_filter_iff. intros t. unfold l. by rewrite elem_of_elements, elem_of_list_to_set.
Qed.

Lemma purge_from_spec committed order r m :
  mp_views order m →
  let p := purge_from order committed r m in
  let l := omap (λ h, mp_txs m !! h) order in
  mp_views (mp_order p.2) p.2 ∧ mp_txs p.2 ⊆ mp_txs m ∧ mp_capacity p.2 = mp_capacity m
  ∧ clone_fifo p.2 = drop_while (λ t, head_drops t committed) l
  ∧ (p.1 + length (clone_fifo p.2) = r + length l)%nat.
Proof.
  revert r m. induction order as [|h order IH]; intros r m Hv.
  { simpl. split_and!; [by apply (mp_views_ext _ m)|done..]. }
  cbn [purge_from omap list_omap].
  assert (is_Some (mp_txs m !! h)) as [t Ht] by (apply (mv_order _ _ Hv); left).
  rewrite Ht. cbn [drop_while]. destruct (head_drops t committed).
  - assert (mp_views order (remove_tx_hash h (set_order order m))) as Hv'.
    { rewrite <- (NoDup_filter_head h order) by apply Hv. apply remove_tx_hash_views.
      by apply (mp_views_ext _ m). }
    destruct (IH (S r) _ Hv') as (H1&H2&H3&H4&H5).
    rewrite remove_tx_hash_txs in *. rewrite remove_tx_hash_capacity in H3.
    cbn [mp_txs set_order mp_capacity] in *.
    assert (omap (λ x, delete h (mp_txs m) !! x) order = omap (λ x, mp_txs m !! x) order) as Heq.
    { apply omap_agree. intros x Hx. apply lookup_delete_ne.
      assert (NoDup (h :: order)) as [Hni _]%NoDup_cons by apply Hv. congruence. }
    rewrite Heq in H4, H5. split_and!; [done| |done|done|simpl; lia].
    etrans; [done|]. apply delete_subseteq.
  - cbn [fst snd]. unfold clone_fifo. cbn [mp_order set_order mp_txs mp_capacity omap list_omap].
    rewrite Ht. split_and!; [by apply (mp_views_ext _ m)|done..].
Qed.

Lemma purge_implements committed m :
  mp_inv m →
  let l := drop_while (λ t, head_drops t committed) (clone_fifo m) in
  (purge_nonviable_under_committed_state committed m).1 = (length (clone_fifo m) - length l)%nat
  ∧ implements (purge_nonviable_under_committed_state committed m).2 (mkQueue (mp_capacity m) l).
Proof.
  intros Hi. pose proof Hi as [Hv _ _].
  destruct (purge_from_spec committed (mp_order m) 0 m Hv) as (H1&H2&H3&H4&H5).
  fold (clone_fifo m) in H4, H5. unfold purge_nonviable_under_committed_state. split.
  - rewrite <- H4. lia.
  - split; [by apply (mp_inv_sub m)|]. unfold mp_abs. by rewrite H4, H3.
Qed.

Lemma map_values_fifo m :
  mp_views (mp_order m) m → (map_to_list (mp_txs m)).*2 ≡ₚ clone_fifo m.
Proof.
  intros Hv. apply NoDup_Permutation.
  - apply NoDup_fmap_2_strong; [|apply NoDup_map_to_list].
    intros [h t] [h' t'] H1%elem_of_map_to_list H2%elem_of_map_to_list Heq. simpl in Heq. subst t'.
    by rewrite <- (mv_hash _ _ Hv _ _ H1), <- (mv_hash _ _ Hv _ _ H2).
  - eapply NoDup_fmap_1, (clone_fifo_distinct m Hv).
  - intros t. rewrite (clone_fifo_elem _ _ _ Hv), list_elem_of_fmap. split.
    + intros ([h t']&->&Hin%elem_of_map_to_list). simpl. by rewrite (mv_hash _ _ Hv _ _ Hin).
    + intros Ht. exists (tx_tx_hash t, t). split; [done|]. by apply elem_of_map_to_list.
Qed.

Lemma drop_stale_implements committed m :
  mp_inv m →
  let l := filter (λ t, is_stale committed t = false) (clone_fifo m) in
  (drop_stale_nonces_vs_committed committed m).1 = (length (clone_fifo m) - length l)%nat
  ∧ implements (drop_stale_nonces_vs_committed committed m).2 (mkQueue (mp_capacity m) l).
Proof.
  intros Hi. pose proof Hi as [Hv _ _]. unfold drop_stale_nonces_vs_committed. cbn [fst snd].
  set (stale := filter _ _).
  assert (stale ≡ₚ filter (λ t, is_stale committed t = true) (clone_fifo m)) as Hst.
  { unfold stale. by rewrite map_values_fifo. }
  assert (∀ t, t ∈ clone_fifo m → tx_tx_hash t ∉ tx_tx_hash <$> stale ↔ is_stale committed t = false) as Hin.
  { intros t Ht. rewrite <- not_true_iff_false, list_elem_of_fmap. split.
    - intros Hn Hs. apply Hn. exists t. split; [done|]. rewrite Hst. by apply list_elem_of_filter.
    - intros Hn (u&Heq&Hu). rewrite Hst in Hu. apply list_elem_of_filter in Hu as [Hs Hu].
      apply (clone_fifo_elem _ _ _ Hv) in Ht. apply (clone_fifo_elem _ _ _ Hv) in Hu.
      rewrite Heq in Ht. rewrite Ht in Hu. by injection Hu as ->. }
  split.
  - rewrite length_fmap, Hst. clear. induction (clone_fifo m) as [|t l IH]; [done|].
    rewrite !filter_cons. destruct (is_stale committed t); simpl; [|lia].
    pose proof (length_filter (λ t, is_stale committed t = false) l). lia.
  - destruct (remove_by_tx_hashes_implements (tx_tx_hash <$> stale) m Hi) as [H1 H2].
    split; [done|]. rewrite H2. unfold q_remove, mp_abs. cbn [q_txs q_capacity]. f_equal.
    by apply filter_agree.
Qed.

Lemma later_conflicts_none txs order seen :
  (∀ h t, h ∈ order → txs !! h = Some t → tx_slot t ∉ seen) →
  NoDup (tx_slot <$> omap (λ h, txs !! h) order) → later_conflicts txs order seen = [].
Proof.
  revert seen. induction order as [|h order IH]; intros seen Hseen Hnd; [done|].
  cbn [later_conflicts]. cbn [omap list_omap] in Hnd. destruct (txs !! h) as [t|] eqn:Ht.
  - rewrite decide_False by (apply (Hseen h); [left|done]).
    change (NoDup (tx_slot t :: (tx_slot <$> omap (λ h, txs !! h) order))) in Hnd.
    apply NoDup_cons in Hnd as [Hni Hnd]. apply IH; [|done].
    intros x u Hx Hu. apply not_elem_of_union. split; [|apply (Hseen x); [by right|done]].
    intros Heq%elem_of_singleton. apply Hni. change (tx_slot u = tx_slot t) in Heq. rewrite <- Heq.
    apply list_elem_of_fmap. exists u. split; [done|]. apply list_elem_of_omap. eauto.
  - apply IH; [|done]. intros x u Hx. apply Hseen. by right.
Qed.

(** On a consistent pool the third pass of the hygiene has nothing to do. *)
Lemma drop_later_noop m :
  mp_inv m → drop_later_sender_nonce_conflicts_keep_fifo_first m = (0%nat, m).
Proof.
  intros [Hv _ _]. unfold drop_later_sender_nonce_conflicts_keep_fifo_first.
  rewrite later_conflicts_none; [|set_solver|apply (clone_fifo_distinct m Hv)]. simpl.
  rewrite filter_all; [by rewrite set_order_id|]. intros h. apply (mv_order _ _ Hv).
Qed.

Lemma hygiene_implements committed m :
  mp_inv m →
  (hygiene_vs_committed_ledger committed m).1 = (q_hygiene committed (mp_abs m)).1
  ∧ implements (hygiene_vs_committed_ledger committed m).2 (q_hygiene committed (mp_abs m)).2.
Proof.
  intros Hi. unfold hygiene_vs_committed_ledger, q_hygiene. cbn [mp_abs q_txs q_capacity fst snd].
  destruct (purge_implements committed m Hi) as [Hn1 [Hi1 Ha1]].
  destruct (purge_nonviable_under_committed_state committed m) as [n1 m1]. simpl in Hn1, Hi1, Ha1.
  injection Ha1 as Hc1 Hq1.
  destruct (drop_stale_implements committed m1 Hi1) as [Hn2 [Hi2 Ha2]].
  destruct (drop_stale_nonces_vs_committed committed m1) as [n2 m2]. simpl in Hn2, Hi2, Ha2.
  rewrite drop_later_noop by done. cbn [fst snd]. rewrite Hn1, Hn2, Hq1. split; [done|].
  split; [done|]. by rewrite Ha2, Hq1, Hc1.
Qed.
End refinement.

(** ** Sequences of operations *)

Inductive MpOp :=
| MpSubmit (tx : Transaction)
| MpPendingDrain (tx : Transaction)
| MpRemove (hashes : list string)
| MpPurge (committed : State)
| MpDropStale (committed : State)
| MpDropLater
| MpHygiene (committed : State).

Inductive MpOut :=
| OutResult (r : Res ProtocolError unit)
| OutCounts (n : list nat).

Section traces.
Context `{CryptoLib}.

Definition mp_run (op : MpOp) (m : Mempool) : MpOut * Mempool :=
  match op with
  | MpSubmit tx => let '(r, m') := try_submit tx m in (OutResult r, m')
  | MpPendingDrain tx => let '(r, m') := try_submit_pending_drain tx m in (OutResult r, m')
  | MpRemove hashes => (OutCounts [], remove_by_tx_hashes hashes m)
  | MpPurge s => let '(n, m') := purge_nonviable_under_committed_state s m in (OutCounts [n], m')
  | MpDropStale s => let '(n, m') := drop_stale_nonces_vs_committed s m in (OutCounts [n], m')
  | MpDropLater =>
    let '(n, m') := drop_later_sender_nonce_conflicts_keep_fifo_first m in (OutCounts [n], m')
  | MpHygiene s =>
    let '((n1, n2, n3), m') := hygiene_vs_committed_ledger s m in (OutCounts [n1; n2; n3], m')
  end.

Definition q_run (op : MpOp) (q : Queue) : MpOut * Queue :=
  match op with
  | MpSubmit tx => let '(r, q') := q_admit q_evicting tx q in (OutResult r, q')
  | MpPendingDrain tx => let '(r, q') := q_admit q_keeping tx q in (OutResult r, q')
  | MpRemove hashes => (OutCounts [], q_remove hashes q)
  | MpPurge s =>
    let l := drop_while (λ t, head_drops t s) (q_txs q) in
    (OutCounts [length (q_txs q) - length l]%nat, mkQueue (q_capacity q) l)
  | MpDropStale s =>
    let l := filter (λ t, is_stale s t = false) (q_txs q) in
    (OutCounts [length (q_txs q) - length l]%nat, mkQueue (q_capacity q) l)
  | MpDropLater => (OutCounts [0%nat], q)
  | MpHygiene s => let '((n1, n2, n3), q') := q_hygiene s q in (OutCounts [n1; n2; n3], q')
  end.

Fixpoint run_all {S} (run : MpOp → S → MpOut * S) (ops : list MpOp) (s : S) : list MpOut * S :=
  match ops with
  | [] => ([], s)
  | op :: ops' =>
    let '(o, s1) := run op s in
    let '(os, s2) := run_all run ops' s1 in (o :: os, s2)
  end.

Lemma mp_run_implements op m :
  mp_inv m → (mp_run op m).1 = (q_run op (mp_abs m)).1 ∧ implements (mp_run op m).2 (q_run op (mp_abs m)).2.
Proof.
  intros Hi. destruct op as [tx|tx|hs|s|s| |s]; cbn [mp_run q_run].
  - destruct (try_submit_implements tx m Hi) as [H1 H2].
    destruct (try_submit tx m), (q_admit q_evicting tx (mp_abs m)). simpl in *. by subst.
  - destruct (try_submit_pending_drain_implements tx m Hi) as [H1 H2].
    destruct (try_submit_pending_drain tx m), (q_admit q_keeping tx (mp_abs m)). simpl in *. by subst.
  - split; [done|]. by apply remove_by_tx_hashes_implements.
  - destruct (purge_implements s m Hi) as [H1 H2].
    destruct (purge_nonviable_under_committed_state s m). simpl in *. by subst.
  - destruct (drop_stale_implements s m Hi) as [H1 H2].
    destruct (drop_stale_nonces_vs_committed s m). simpl in *. by subst.
  - by rewrite drop_later_noop.
  - destruct (hygiene_implements s m Hi) as [H1 H2].
    destruct (hygiene_vs_committed_ledger s m) as [[[]]], (q_hygiene s (mp_abs m)) as [[[]]].
    simpl in *. by simplify_eq.
Qed.

Lemma run_all_implements ops m :
  mp_inv m →
  (run_all mp_run ops m).1 = (run_all q_run ops (mp_abs m)).1
  ∧ implements (run_all mp_run ops m).2 (run_all q_run ops (mp_abs m)).2.
Proof.
  revert m. induction ops as [|op ops IH]; intros m Hi; [by split|]. cbn [run_all].
  destruct (mp_run_implements op m Hi) as [H1 [Hi1 H2]].
  destruct (mp_run op m) as [o m1], (q_run op (mp_abs m)) as [o' q1]. simpl in *. subst.
  destruct (IH m1 Hi1) as [H3 H4].
  destruct (run_all mp_run ops m1), (run_all q_run ops (mp_abs m1)). simpl in *. by subst.
Qed.

Lemma run_all_capacity ops q : q_capacity (run_all q_run ops q).2 = q_capacity q.
Proof.
  revert q. induction ops as [|op ops IH]; intros q; [done|]. cbn [run_all].
  assert (q_capacity (q_run op q).2 = q_capacity q) as Hq.
  { destruct op; cbn [q_run]; unfold q_admit, q_hygiene; repeat case_match; by simplify_eq/=. }
  specialize (IH (q_run op q).2). destruct (q_run op q) as [o q1]. simpl in *.
  destruct (run_all q_run ops q1). simpl in *. congruence.
Qed.

(** C10: whatever sequence of submissions, pending-file submissions, removals
    and hygiene passes a pool goes through, it answers exactly as the bounded
    FIFO queue of the specification, holds the queue's transactions in its
    order, and its three views (by id, in order, by sender and nonce) agree
    within its capacity. *)
Theorem mempool_refines_queue c ops :
  (run_all mp_run ops (Mempool_new c)).1 = (run_all q_run ops (mkQueue c [])).1
  ∧ implements (run_all mp_run ops (Mempool_new c)).2 (run_all q_run ops (mkQueue c [])).2.
Proof. apply (run_all_implements ops (Mempool_new c)), mp_inv_new. Qed.

(** Restoring the snapshot taken by [clone_fifo] from a reachable pool
    gives back exactly that pool, whatever happened to the pool in between:
    the rollback of a failed drain loses and reorders nothing. *)
Theorem restore_fifo_exact c ops ops' :
  let m := (run_all mp_run ops (Mempool_new c)).2 in
  let m' := (run_all mp_run ops' m).2 in
  restore_fifo (clone_fifo m) m' = m.
Proof.
  intros m m'.
  destruct (run_all_implements ops (Mempool_new c) (mp_inv_new c)) as [_ [Hi _]]. fold m in Hi.
  destruct (run_all_implements ops' m Hi) as [_ [_ Hc]]. fold m' in Hc.
  apply restore_clone; [apply Hi|].
  change (q_capacity (mp_abs m') = q_capacity (mp_abs m)). by rewrite Hc, run_all_capacity.
Qed.
End traces.

(** ** Hygiene *)

Lemma drop_while_suffix {A} (f : A → bool) l : drop_while f l `suffix_of` l.
Proof.
  induction l as [|x l IH]; [done|]. simpl. destruct (f x); [|done]. by apply suffix_cons_r.
Qed.

Lemma drop_while_head {A} (f : A → bool) l x : head (drop_while f l) = Some x → f x = false.
Proof. induction l as [|y l IH]; [done|]. simpl. destruct (f y) eqn:Hy; [done|]. by intros [= ->]. Qed.

(** After a hygiene pass against the committed ledger, no queued
    transaction is behind its sender's nonce, the head of the queue is valid
    and either executable now or waiting for a gap, what is left keeps its
    order, and the reported counts account for every dropped transaction. *)
Theorem hygiene_sound `{CryptoLib} (c : nat) (ops : list MpOp) (committed : State) :
  let m := (run_all mp_run ops (Mempool_new c)).2 in
  let '((front, stale, dup), m') := hygiene_vs_committed_ledger committed m in
  (∀ t, t ∈ clone_fifo m' → is_stale committed t = false)
  ∧ (∀ t, head (clone_fifo m') = Some t → head_drops t committed = false)
  ∧ clone_fifo m' `sublist_of` clone_fifo m
  ∧ (front + stale + dup + mp_len m' = mp_len m)%nat ∧ dup = 0%nat.
Proof.
  intros m. destruct (run_all_implements ops (Mempool_new c) (mp_inv_new c)) as [_ [Hi _]]. fold m in Hi.
  destruct (hygiene_implements committed m Hi) as [Hn [Hi' Hq]].
  destruct (hygiene_vs_committed_ledger committed m) as [[[front stale] dup] m'].
  cbn [fst snd] in *. injection Hn as -> -> ->. injection Hq as Hc Hq.
  rewrite <- (clone_fifo_length m') by apply Hi'. rewrite <- (clone_fifo_length m) by apply Hi.
  rewrite Hq. change (q_txs (mp_abs m)) with (clone_fifo m).
  set (l1 := drop_while (λ t, head_drops t committed) (clone_fifo m)).
  pose proof (drop_while_suffix (λ t, head_drops t committed) (clone_fifo m)) as Hsuf. fold l1 in Hsuf.
  pose proof (suffix_length _ _ Hsuf) as Hlen.
  pose proof (length_filter (λ t, is_stale committed t = false) l1) as Hlen2.
  split_and!; [| | |lia|done].
  - by intros t [? _]%list_elem_of_filter.
  - intros t. destruct l1 as [|u l] eqn:Hl1; [done|].
    assert (head_drops u committed = false) as Hu
      by (apply (drop_while_head (λ t, head_drops t committed) (clone_fifo m)); unfold l1 in Hl1; by rewrite Hl1).
    assert (is_stale committed u = false) as Hsu.
    { unfold head_drops, is_stale in *. destruct (tx_basic_validate u); [|done..].
      destruct (get_account committed (tx_sender u)); [|done]. by destruct (_ <? _). }
    rewrite filter_cons_True by done. by intros [= <-].
  - etrans; [apply sublist_filter|]. destruct Hsuf as [k ->]. by apply sublist_inserts_l.
Qed.

(** ** Sealing *)

Section sealing.
Context `{CryptoLib}.

(** The transaction is not due yet: its sender is unknown or behind it. *)
Definition waiting (s : State) (t : Transaction) : Prop :=
  accounts s !! tx_sender t = None ∨ nonce_of s (tx_sender t) < tx_nonce t.

(** The greedy selection of at most [n] transactions from a queue: [out] is
    selected, [s'] is the state it leads to, and [blocked] says that the
    selection stopped at a transaction that is due or past due and cannot be
    applied. *)
Inductive SealRun : State → nat → list Transaction → list Transaction → State → bool → Prop :=
| seal_end s n : SealRun s n [] [] s false
| seal_full s l : SealRun s 0 l [] s false
| seal_take s n t l out s' b :
    can_apply s t → SealRun (apply_effect s t) n l out s' b → SealRun s (S n) (t :: l) (t :: out) s' b
| seal_skip s n t l out s' b :
    waiting s t → SealRun s (S n) l out s' b → SealRun s (S n) (t :: l) out s' b
| seal_blocked s n t l :
    ¬ waiting s t → ¬ can_apply s t → SealRun s (S n) (t :: l) [] s true.

Lemma waiting_cannot_apply s t : waiting s t → ¬ can_apply s t.
Proof. intros [Hn|Hn] (_&[a Ha]&He&_); [congruence|lia]. Qed.

(** One step of the walk, as a decision between the three cases. *)
Lemma seal_walk_step txs max h order s out t :
  wf_state s → wf_tx t → txs !! h = Some t → (length out < max)%nat →
  (can_apply s t ∧ seal_walk txs max (h :: order) s out = seal_walk txs max order (apply_effect s t) (out ++ [t]))
  ∨ (waiting s t ∧ seal_walk txs max (h :: order) s out = seal_walk txs max order s out)
  ∨ (¬ waiting s t ∧ ¬ can_apply s t ∧ ∃ e, seal_walk txs max (h :: order) s out = Err e).
Proof.
  intros Hw Ht Hh Hroom. cbn [seal_walk].
  destruct (Nat.leb_spec max (length out)); [lia|]. rewrite Hh. unfold get_account.
  unfold waiting. pose proof (apply_transaction_cases s t Hw Ht) as Hcases.
  destruct (accounts s !! tx_sender t) as [acc|] eqn:Hacc; simpl.
  - assert (nonce_of s (tx_sender t) = acc_nonce acc) as Hn by (unfold nonce_of; by rewrite Hacc).
    rewrite Hn. destruct (Z.ltb_spec (acc_nonce acc) (tx_nonce t)); [right; left; auto|].
    assert (¬ (Some acc = None ∨ acc_nonce acc < tx_nonce t)) as Hnw by (intros [|]; [done|lia]).
    destruct (Z.ltb_spec (tx_nonce t) (acc_nonce acc)).
    + right; right. split_and!; [done| |by eexists]. intros (_&_&He&_). lia.
    + destruct Hcases as [[Hc ->]|[Hc [e ->]]]; [by left|]. right; right. eauto.
  - right; left. split; [by left|]. destruct Hcases as [[(_&[? ?]&_) _]|[_ [e ->]]]; [congruence|done].
Qed.

Lemma seal_walk_run txs max order s out :
  wf_state s → map_Forall (λ _ t, wf_tx t) txs → (length out ≤ max)%nat →
  ∃ out' s' b,
    SealRun s (max - length out) (omap (λ h, txs !! h) order) out' s' b
    ∧ (if b then ∃ e, seal_walk txs max order s out = Err e
       else seal_walk txs max order s out = Ok (out ++ out')).
Proof.
  revert s out. induction order as [|h order IH]; intros s out Hw Htxs Hlen.
  { exists [], s, false. rewrite app_nil_r. split; [constructor|done]. }
  destruct (Nat.leb_spec max (length out)) as [Hfull|Hroom].
  { exists [], s, false. replace (max - length out)%nat with 0%nat by lia. split; [constructor|].
    simpl. destruct (Nat.leb_spec max (length out)); [|lia]. by rewrite app_nil_r. }
  cbn [omap list_omap]. destruct (txs !! h) as [t|] eqn:Hh.
  2: { cbn [seal_walk]. rewrite Hh. destruct (Nat.leb_spec max (length out)); [lia|]. by apply IH. }
  destruct (max - length out)%nat as [|n] eqn:Hn; [lia|].
  destruct (seal_walk_step txs max h order s out t) as [[Hc ->]|[[Hk ->]|(Hk&Hc&e&->)]]; [done|by eapply Htxs|done..| | |].
  - destruct (IH (apply_effect s t) (out ++ [t])) as (out'&s'&b&Hr&Hb); [|done|rewrite length_app; simpl; lia|].
    { apply wf_apply_effect; [done|by eapply Htxs|done]. }
    exists (t :: out'), s', b. rewrite length_app in Hr. simpl in Hr.
    replace (max - (length out + 1))%nat with n in Hr by lia.
    split; [by constructor|]. destruct b; [done|]. by rewrite Hb, <- (assoc_L (++)).
  - destruct (IH s out Hw Htxs Hlen) as (out'&s'&b&Hr&Hb). rewrite Hn in Hr.
    exists out', s', b. split; [by constructor|done].
  - exists [], s, true. split; [by constructor|by eexists].
Qed.

Lemma SealRun_apply s n l out s' b :
  SealRun s n l out s' b → wf_state s → Forall wf_tx l →
  apply_transactions out s = (Ok tt, s') ∧ out `sublist_of` l ∧ (length out ≤ n)%nat.
Proof.
  induction 1 as [s n|s l|s n t l out s' b Hc Hr IH|s n t l out s' b Hk Hr IH|s n t l Hk Hc];
    intros Hw Hl.
  - split_and!; [done|constructor|simpl; lia].
  - split_and!; [done|apply sublist_nil_l|simpl; lia].
  - apply Forall_cons in Hl as [Ht Hl].
    destruct IH as (Ha&Hs&Hlen); [by apply wf_apply_effect|done|].
    split_and!; [|by constructor|simpl; lia].
    unfold apply_transactions in *. cbn [sfor]. unfold sbind.
    destruct (apply_transaction_cases s t Hw Ht) as [[_ ->]|[? _]]; done.
  - apply Forall_cons in Hl as [Ht Hl]. destruct IH as (Ha&Hs&Hlen); [done..|].
    split_and!; [done|by constructor|done].
  - split_and!; [done|apply sublist_nil_l|simpl; lia].
Qed.

Lemma SealRun_det s n l o1 s1 b1 o2 s2 b2 :
  SealRun s n l o1 s1 b1 → SealRun s n l o2 s2 b2 → o1 = o2 ∧ s1 = s2 ∧ b1 = b2.
Proof.
  intros H1. revert o2 s2 b2. induction H1; intros o2 s2 b2 H2; inversion H2; subst;
    try done; try (by exfalso; eapply waiting_cannot_apply); auto.
  match goal with Hr : SealRun (apply_effect _ _) _ _ _ _ _ |- _ => destruct (IHSealRun _ _ _ Hr) as (->&->&->) end.
  done.
Qed.

(** C23: candidate selection for a block terminates with exactly the greedy
    selection over the queue: the chosen transactions are a subsequence of
    the queue, at most [max], they apply to the state one after another, only
    transactions that are not due are skipped, and the call fails iff the walk
    meets a due or stale transaction that does not apply. It never panics. *)
Theorem seal_selects_greedily (m : Mempool) (s : State) (max : nat)
    (Hs : wf_state s) (Hm : map_Forall (λ _ t, wf_tx t) (mp_txs m)) :
  (∀ out, ordered_candidates_for_seal m s max = Ok out
          ↔ ∃ s', SealRun s max (clone_fifo m) out s' false)
  ∧ ((∃ e, ordered_candidates_for_seal m s max = Err e)
     ↔ ∃ out s', SealRun s max (clone_fifo m) out s' true)
  ∧ ordered_candidates_for_seal m s max ≠ Panic
  ∧ (∀ out, ordered_candidates_for_seal m s max = Ok out →
       out `sublist_of` clone_fifo m ∧ (length out ≤ max)%nat
       ∧ (apply_transactions out s).1 = Ok tt).
Proof.
  destruct (seal_walk_run (mp_txs m) max (mp_order m) s [] Hs Hm) as (out&s'&b&Hr&Hb); [simpl; lia|].
  simpl in Hr, Hb. rewrite Nat.sub_0_r in Hr. fold (clone_fifo m) in Hr.
  fold (ordered_candidates_for_seal m s max) in Hb.
  assert (Forall wf_tx (clone_fifo m)) as Hwf.
  { apply Forall_forall. intros t (h&_&Ht)%list_elem_of_omap. by eapply Hm. }
  destruct (SealRun_apply _ _ _ _ _ _ Hr Hs Hwf) as (Ha&Hsub&Hlen).
  destruct b; [destruct Hb as [e Hb]|]; rewrite Hb; split_and!; try done.
  - intros o. split; [done|]. intros [s2 H2]. by destruct (SealRun_det _ _ _ _ _ _ _ _ _ Hr H2) as (?&?&?).
  - split; [intros _; by exists out, s'|by exists e].
  - intros o. split; [intros [= <-]; by exists s'|]. intros [s2 H2].
    by destruct (SealRun_det _ _ _ _ _ _ _ _ _ Hr H2) as (->&_&_).
  - split; [by intros [e ?]|]. intros (o&s2&H2). by destruct (SealRun_det _ _ _ _ _ _ _ _ _ Hr H2) as (?&?&?).
  - intros o [= <-]. by rewrite Ha.
Qed.
End sealing.

Module MempoolExample.
Import ToyCrypto WalletExample LedgerExample.

(** Three submissions to a pool of two: the oldest is evicted. *)
Definition pool : Mempool :=
  (run_all mp_run [MpSubmit (transfer 5); MpSubmit (transfer 1); MpSubmit (transfer 0)] (Mempool_new 2)).2.

Lemma pool_txs_wf : map_Forall (λ _ t, wf_tx t) (mp_txs pool).
Proof. apply (bool_decide_unpack _). vm_compute. exact I. Qed.

Example pool_queue : clone_fifo pool = [transfer 1; transfer 0].
Proof. vm_compute. reflexivity. Qed.

Lemma seal_selects_greedily_witness :
  [transfer 0] `sublist_of` clone_fifo pool ∧ (length [transfer 0] ≤ 5)%nat
  ∧ (apply_transactions [transfer 0] state0).1 = Ok tt.
Proof.
  destruct (seal_selects_greedily pool state0 5 state0_wf pool_txs_wf) as (_&_&_&Hok).
  apply Hok. vm_compute. reflexivity.
Defined.
End MempoolExample.
