(* ===== verification/Blockchain.v ===== *)
(** * The chain in memory ([blockchain.rs])

    The list of blocks with the account state it leads to. [chain_inv] says
    that the blocks are hash-linked at consecutive heights from the genesis
    block and that the state is the replay of the blocks on the genesis
    allocations; it holds in every reachable chain. *)

From Stdlib Require Import ZArith Lia.
From stdpp Require Import base strings list gmap fin_maps relations.
From S2P Require Import Prelude Bytes Crypto Transaction Wallet Block Genesis Ledger Mempool MempoolQueue.

Record Blockchain := mkBlockchain {
  bc_blocks : list Block;
  bc_state : State;
  bc_consensus : ConsensusParams
}.

#[export] Instance Blockchain_eq_dec : EqDecision Blockchain.
Proof. solve_decision. Defined.

Definition bc_len (c : Blockchain) : nat := length (bc_blocks c).

Definition blocks_height (blocks : list Block) : Z :=
  match last blocks with Some b => blk_height b | None => 0 end.

Definition height (c : Blockchain) : Z := blocks_height (bc_blocks c).

(** Blocks with [height >= start_height], at most [limit] of them. *)
Definition blocks_from_height_limited (c : Blockchain) (start_height : Z) (limit : nat) : list Block :=
  if Nat.eqb limit 0 then []
  else take limit (filter (λ b, start_height ≤ blk_height b) (bc_blocks c)).

(** [while self.height() > target_height { self.blocks.pop(); }], on the
    reversed list. *)
Fixpoint pop_above (target_height : Z) (rev_blocks : list Block) : list Block :=
  match rev_blocks with
  | [] => []
  | b :: rest => if target_height <? blk_height b then pop_above target_height rest else rev_blocks
  end.

Section blockchain.
Context `{CryptoLib}.

Definition recompute_state_from_blocks (blocks : list Block) (genesis : Genesis) : Res ProtocolError State :=
  let? state := State_from_genesis genesis in
  exec_on (sfor (λ block, sfor apply_transaction (blk_transactions block)) (drop 1 blocks)) state.

Definition from_genesis (genesis : Genesis) : Res ProtocolError Blockchain :=
  let? state := State_from_genesis genesis in
  Ok (mkBlockchain [Block_genesis] state ConsensusParams_default).

Definition from_genesis_with_consensus (genesis : Genesis) (consensus : ConsensusParams) :
    Res ProtocolError Blockchain :=
  let? c := from_genesis genesis in
  Ok (mkBlockchain (bc_blocks c) (bc_state c) consensus).

(** [Blockchain::new]: [expect] on the empty genesis. *)
Definition Blockchain_new : Res ProtocolError Blockchain :=
  match from_genesis Genesis_empty with Ok c => Ok c | _ => Panic end.

Definition append_block (block : Block) : ST Blockchain ProtocolError unit :=
  slift (block_basic_validate block) ;;!
  let! c := sget in
  let! tip := slift (ok_or (last (bc_blocks c)) (StateError "chain tip missing")) in
  if negb (blk_height block =? wrapping_add (blk_height tip) 1)
  then sfail (InvalidBlock "invalid block height")
  else if negb (String.eqb (blk_previous_hash block) (blk_block_hash tip))
  then sfail (InvalidBlock "invalid previous hash")
  else
    slift (validate_block_timestamps_vs_parent tip block (bc_consensus c)) ;;!
    let! next_state := slift (exec_on (sfor apply_transaction (blk_transactions block)) (bc_state c)) in
    sput (mkBlockchain (bc_blocks c) next_state (bc_consensus c)) ;;!
    sput (mkBlockchain (bc_blocks c ++ [block]) next_state (bc_consensus c)).

Definition try_append_network_block (block : Block) (now_unix : Z) : ST Blockchain ProtocolError unit :=
  let! c := sget in
  slift (validate_block_vs_local_time (blk_timestamp_unix block) now_unix
           (max_future_drift_secs (bc_consensus c))) ;;!
  append_block block.

Definition rollback_to_height (target_height : Z) (genesis : Genesis) : ST Blockchain ProtocolError unit :=
  let! c := sget in
  let current := height c in
  if current <? target_height
  then sfail (StateError ("rollback target height " +:+ fmt_uint target_height
                          +:+ " above current tip " +:+ fmt_uint current))
  else
    let blocks := reverse (pop_above target_height (reverse (bc_blocks c))) in
    sput (mkBlockchain blocks (bc_state c) (bc_consensus c)) ;;!
    let! state := slift (recompute_state_from_blocks blocks genesis) in
    sput (mkBlockchain blocks state (bc_consensus c)).

Definition append_block_from_mempool_pending_removal (mempool : Mempool) (max_transactions : nat)
    (timestamp_unix : Z) : ST Blockchain ProtocolError (option (list string)) :=
  let! c := sget in
  let! txs := slift (ordered_candidates_for_seal mempool (bc_state c) max_transactions) in
  if Nat.eqb (length txs) 0 then sret None
  else
    let! tip := slift (ok_or (last (bc_blocks c)) (StateError "chain tip missing")) in
    let block := mkBlock (wrapping_add (blk_height tip) 1) (blk_block_hash tip) timestamp_unix txs "" in
    let block := mkBlock (blk_height block) (blk_previous_hash block) (blk_timestamp_unix block)
                   (blk_transactions block) (compute_block_hash block) in
    let hashes := tx_tx_hash <$> blk_transactions block in
    append_block block ;;!
    sret (Some hashes).

Definition append_block_from_mempool (max_transactions : nat) (timestamp_unix : Z) :
    ST (Blockchain * Mempool) ProtocolError nat :=
  λ '(c, mempool),
    match append_block_from_mempool_pending_removal mempool max_transactions timestamp_unix c with
    | (Ok None, c') => (Ok 0%nat, (c', mempool))
    | (Ok (Some hashes), c') => (Ok (length hashes), (c', remove_by_tx_hashes hashes mempool))
    | (Err e, c') => (Err e, (c', mempool))
    | (Panic, c') => (Panic, (c', mempool))
    end.

Definition rebuild_state_from_genesis (genesis : Genesis) : ST Blockchain ProtocolError unit :=
  let! c := sget in
  let! st := slift (State_from_genesis genesis) in
  let! st := slift (exec_on (sfor (λ b, sfor apply_transaction (blk_transactions b))
                               (drop 1 (bc_blocks c))) st) in
  sput (mkBlockchain (bc_blocks c) st (bc_consensus c)).

Definition rollback_last_block (genesis : Genesis) : ST Blockchain ProtocolError unit :=
  let! c := sget in
  if Nat.leb (length (bc_blocks c)) 1 then sfail (StateError "cannot rollback genesis tip")
  else
    sput (mkBlockchain (removelast (bc_blocks c)) (bc_state c) (bc_consensus c)) ;;!
    rebuild_state_from_genesis genesis.
End blockchain.

(** ** The invariant *)

Section invariant.
Context `{CryptoLib}.

(** [b] may follow [a]. *)
Definition extends (params : ConsensusParams) (a b : Block) : Prop :=
  block_basic_validate b = Ok tt ∧ blk_height b = wrapping_add (blk_height a) 1
  ∧ blk_previous_hash b = blk_block_hash a
  ∧ validate_block_timestamps_vs_parent a b params = Ok tt.

Record chain_inv (g : Genesis) (c : Blockchain) : Prop := {
  ci_genesis : bc_blocks c !! 0%nat = Some Block_genesis;
  ci_heights i b : bc_blocks c !! i = Some b → blk_height b = Z.of_nat i;
  ci_links i a b : bc_blocks c !! i = Some a → bc_blocks c !! S i = Some b → extends (bc_consensus c) a b;
  ci_wf : Forall wf_block (bc_blocks c);
  ci_replay : recompute_state_from_blocks (bc_blocks c) g = Ok (bc_state c)
}.

(** All transactions of a list of blocks. *)
Definition chain_txs (blocks : list Block) : list Transaction := blocks ≫= blk_transactions.

Lemma recompute_flat blocks g :
  recompute_state_from_blocks blocks g
  = let? s := State_from_genesis g in exec_on (apply_transactions (chain_txs (drop 1 blocks))) s.
Proof.
  unfold recompute_state_from_blocks, rbind. destruct (State_from_genesis g); [|done..].
  unfold exec_on. by rewrite sfor_concat.
Qed.

Lemma exec_on_ok {S E} (m : ST S E unit) s s' : exec_on m s = Ok s' ↔ m s = (Ok tt, s').
Proof. unfold exec_on. destruct (m s) as [[[]| |] ?]; split; intros Hx; (discriminate Hx || by injection Hx as <-). Qed.

Lemma chain_txs_wf blocks : Forall wf_block blocks → Forall wf_tx (chain_txs blocks).
Proof.
  induction 1 as [|b bs Hb _ IH]; [constructor|].
  apply Forall_app. split; [apply Hb|exact IH].
Qed.

Lemma replay_start g blocks s :
  recompute_state_from_blocks blocks g = Ok s →
  ∃ s0, State_from_genesis g = Ok s0 ∧ apply_transactions (chain_txs (drop 1 blocks)) s0 = (Ok tt, s).
Proof.
  rewrite recompute_flat. unfold rbind. destruct (State_from_genesis g) as [s0| |]; [|done..].
  intros Hx%exec_on_ok. eauto.
Qed.

Lemma chain_inv_wf_state g c : wf_genesis g → chain_inv g c → wf_state (bc_state c).
Proof.
  intros Hg [_ _ _ Hwf Hr]. destruct (replay_start _ _ _ Hr) as (s0&H0&Ha).
  replace (bc_state c) with (apply_transactions (chain_txs (drop 1 (bc_blocks c))) s0).2 by (by rewrite Ha).
  apply apply_transactions_wf; [by apply (from_genesis_wf g)|].
  apply chain_txs_wf. by apply Forall_drop.
Qed.

(** A longer prefix is replayed by applying the next transactions. *)
Lemma recompute_snoc blocks b g :
  blocks ≠ [] →
  recompute_state_from_blocks (blocks ++ [b]) g
  = let? s := recompute_state_from_blocks blocks g in exec_on (apply_transactions (blk_transactions b)) s.
Proof.
  intros Hne. rewrite !recompute_flat. unfold rbind. destruct (State_from_genesis g) as [s| |]; [|done..].
  rewrite drop_app_le by (destruct blocks; [done|simpl; lia]).
  unfold chain_txs. rewrite bind_app. unfold exec_on at 1 2, apply_transactions. rewrite sfor_app.
  unfold sbind. destruct (sfor apply_transaction _ s) as [[[]| |] s']; [|done..].
  change ([b] ≫= blk_transactions) with (blk_transactions b ++ []). by rewrite app_nil_r.
Qed.

(** Every non-empty prefix of a replayable chain is replayable. *)
Lemma recompute_prefix blocks more g s :
  blocks ≠ [] → recompute_state_from_blocks (blocks ++ more) g = Ok s →
  ∃ s', recompute_state_from_blocks blocks g = Ok s'.
Proof.
  intros Hne. revert s. induction more as [|b more IH] using rev_ind; intros s.
  { rewrite app_nil_r. eauto. }
  rewrite (assoc_L (++)), recompute_snoc by (by destruct blocks). unfold rbind.
  destruct (recompute_state_from_blocks (blocks ++ more) g); [|done..]. by eauto.
Qed.

Lemma append_block_cases b c :
  (∃ tip s', last (bc_blocks c) = Some tip ∧ extends (bc_consensus c) tip b
     ∧ apply_transactions (blk_transactions b) (bc_state c) = (Ok tt, s')
     ∧ append_block b c = (Ok tt, mkBlockchain (bc_blocks c ++ [b]) s' (bc_consensus c)))
  ∨ ((append_block b c).1 ≠ Ok tt ∧ (append_block b c).2 = c
     ∧ ¬ ∃ tip s', last (bc_blocks c) = Some tip ∧ extends (bc_consensus c) tip b
          ∧ apply_transactions (blk_transactions b) (bc_state c) = (Ok tt, s')).
Proof.
  unfold append_block, extends, sbind, slift, sget, sput, sfail, ok_or.
  destruct (block_basic_validate b) as [[]| |]; [|right; split_and!; [done..|naive_solver]..].
  destruct (last (bc_blocks c)) as [tip|]; [|right; split_and!; [done..|naive_solver]].
  destruct (Z.eqb_spec (blk_height b) (wrapping_add (blk_height tip) 1)); simpl;
    [|right; split_and!; [done..|naive_solver]].
  destruct (String.eqb_spec (blk_previous_hash b) (blk_block_hash tip)); simpl;
    [|right; split_and!; [done..|naive_solver]].
  destruct (validate_block_timestamps_vs_parent tip b (bc_consensus c)) as [[]| |] eqn:Hts;
    [|right; split_and!; [done..|intros (?&?&[= <-]&(_&_&_&?)&_); congruence]..].
  unfold exec_on, apply_transactions.
  destruct (sfor apply_transaction (blk_transactions b) (bc_state c)) as [[[]| |] s'];
    [|right; split_and!; [done..|by intros (?&?&[= <-]&_&?)]..].
  left. exists tip, s'. done.
Qed.

Lemma append_block_no_panic b : panic_free (append_block b).
Proof.
  unfold append_block. apply panic_free_bind; [apply panic_free_lift, block_basic_validate_no_panic|]. intros _.
  apply panic_free_bind; [by intros ?|]. intros c. apply panic_free_bind; [apply panic_free_lift, ok_or_no_panic|]. intros tip.
  destruct (negb _); [by intros ?|]. destruct (negb _); [by intros ?|].
  apply panic_free_bind; [apply panic_free_lift, timestamps_no_panic|]. intros _.
  apply panic_free_bind; [|by intros ??]. apply panic_free_lift, panic_free_exec, panic_free_for.
  intros t _. apply apply_transaction_no_panic.
Qed.

Lemma network_append_no_panic b now : panic_free (try_append_network_block b now).
Proof.
  unfold try_append_network_block. apply panic_free_bind; [by intros ?|]. intros c.
  apply panic_free_bind; [|intros _; apply append_block_no_panic].
  apply panic_free_lift. unfold validate_block_vs_local_time. by case_match.
Qed.

Lemma chain_last g c :
  chain_inv g c →
  ∃ tip, last (bc_blocks c) = Some tip ∧ blk_height tip = Z.of_nat (length (bc_blocks c)) - 1
         ∧ (0 < length (bc_blocks c))%nat ∧ wf_block tip.
Proof.
  intros [Hg Hh _ Hwf _]. pose proof (lookup_lt_Some _ _ _ Hg) as Hlen.
  destruct (last (bc_blocks c)) as [tip|] eqn:Hl; [|apply last_None in Hl; by rewrite Hl in Hg].
  exists tip. pose proof Hl as Hl'. rewrite last_lookup in Hl'. pose proof (Hh _ _ Hl') as Hht.
  split_and!; [done|lia|done|]. rewrite Forall_forall in Hwf. apply Hwf. by eapply list_elem_of_lookup_2.
Qed.

Lemma wrapping_succ z : in_u64 z → wrapping_add z 1 ≠ 0 → wrapping_add z 1 = z + 1.
Proof.
  unfold wrapping_add, in_u64. intros Hz Hne. destruct (Z.eq_dec z u64_max) as [->|].
  { by rewrite Z_mod_same_full in Hne. }
  apply Z.mod_small. lia.
Qed.

(** Extending a chain by a block that follows its tip keeps the invariant. *)
Lemma chain_inv_snoc g c b s' :
  chain_inv g c → wf_block b →
  (∃ tip, last (bc_blocks c) = Some tip ∧ extends (bc_consensus c) tip b) → blk_height b ≠ 0 →
  apply_transactions (blk_transactions b) (bc_state c) = (Ok tt, s') →
  chain_inv g (mkBlockchain (bc_blocks c ++ [b]) s' (bc_consensus c)).
Proof.
  intros Hi Hb (tip&Hl&Hext) Hnz Ha. pose proof Hext as (_&Hh&_).
  destruct (chain_last g c Hi) as (tip'&Hl'&Hth&Hpos&Hwt). rewrite Hl in Hl'. injection Hl' as <-.
  rewrite wrapping_succ in Hh; [|apply Hwt|congruence]. destruct Hi as [Hg Hhs Hlk Hwf Hr].
  split; cbn [bc_blocks bc_state bc_consensus].
  - by rewrite lookup_app_l.
  - intros i x. rewrite lookup_app_Some. intros [Hx|[Hge Hx]]; [by apply Hhs|].
    apply list_lookup_singleton_Some in Hx as [? <-]. lia.
  - intros i x y Hx Hy. rewrite last_lookup in Hl.
    assert (S i < length (bc_blocks c) ∨ S i = length (bc_blocks c))%nat as [Hi|Hi].
    { apply lookup_lt_Some in Hy. rewrite length_app in Hy. simpl in Hy. lia. }
    + rewrite lookup_app_l in Hx, Hy by lia. by eapply Hlk.
    + rewrite lookup_app_l in Hx by lia. rewrite lookup_app_r in Hy by lia.
      replace (S i - length (bc_blocks c))%nat with 0%nat in Hy by lia. injection Hy as <-.
      rewrite <- Hi in Hl. simpl in Hl. rewrite Hx in Hl. by injection Hl as ->.
  - apply Forall_app. split; [done|by apply Forall_singleton].
  - rewrite recompute_snoc by (by destruct (bc_blocks c)). rewrite Hr. simpl. by apply exec_on_ok.
Qed.
End invariant.

Section steps.
Context `{CryptoLaws}.

(** A block that follows the tip is not at height zero, even if the tip's
    height wraps around: the genesis block's parent constant is not a hash. *)
Lemma extends_nonzero g c tip b :
  chain_inv g c → last (bc_blocks c) = Some tip → extends (bc_consensus c) tip b → blk_height b ≠ 0.
Proof.
  intros Hi Hl (Hv&Hh&Hp&_) Hz. destruct (chain_last g c Hi) as (tip'&Hl'&Hth&Hpos&Hwt).
  rewrite Hl in Hl'. injection Hl' as <-. rewrite last_lookup in Hl.
  destruct (length (bc_blocks c)) as [|[|n]] eqn:Hlen; [lia|..].
  { rewrite Hth in Hh. change (wrapping_add (Z.of_nat 1 - 1) 1) with 1 in Hh. lia. }
  simpl in Hl. assert (is_Some (bc_blocks c !! n)) as [a Hna] by (apply lookup_lt_is_Some; lia).
  destruct (ci_links _ _ Hi n a tip Hna Hl) as (Hvt&_).
  apply block_basic_validate_ok in Hvt as (_&_&_&_&Hhash); [|lia].
  unfold block_basic_validate, is_genesis in Hv. rewrite Hz in Hv. simpl in Hv.
  destruct (String.eqb_spec (blk_previous_hash b) "GENESIS") as [Hpg|]; [|done].
  rewrite Hp, Hhash in Hpg. unfold compute_block_hash in Hpg.
  pose proof (hash_bytes_length (block_header_preimage_bytes tip)) as Hlen64. by rewrite Hpg in Hlen64.
Qed.

Lemma append_block_inv g c b : chain_inv g c → wf_block b → chain_inv g (append_block b c).2.
Proof.
  intros Hi Hb. destruct (append_block_cases b c) as [(tip&s'&Hl&Hext&Ha&->)|(_&->&_)]; [|done].
  simpl. apply chain_inv_snoc; eauto. by eapply extends_nonzero.
Qed.

Lemma try_append_network_block_inv g c b now :
  chain_inv g c → wf_block b → chain_inv g (try_append_network_block b now c).2.
Proof.
  intros Hi Hb. unfold try_append_network_block, sbind, sget, slift.
  destruct (validate_block_vs_local_time _ _ _); [|done..]. by apply append_block_inv.
Qed.

(** Dropping blocks from the end. *)
Lemma chain_inv_take g c n s :
  chain_inv g c → (0 < n)%nat → recompute_state_from_blocks (take n (bc_blocks c)) g = Ok s →
  chain_inv g (mkBlockchain (take n (bc_blocks c)) s (bc_consensus c)).
Proof.
  intros [Hg Hh Hlk Hwf _] Hn Hr. split; cbn [bc_blocks bc_state bc_consensus]; [| | |by apply Forall_take|done].
  - by rewrite lookup_take_lt.
  - intros i b [Hb _]%lookup_take_Some. by apply Hh.
  - intros i a b [Ha _]%lookup_take_Some [Hb _]%lookup_take_Some. by eapply Hlk.
Qed.

Lemma recompute_take g c n :
  chain_inv g c → (0 < n)%nat → ∃ s, recompute_state_from_blocks (take n (bc_blocks c)) g = Ok s.
Proof.
  intros Hi Hn. destruct (chain_last g c Hi) as (tip&_&_&Hpos&_).
  apply (recompute_prefix _ (drop n (bc_blocks c)) g (bc_state c)).
  - intros He%(f_equal length). rewrite length_take in He. simpl in He. lia.
  - rewrite take_drop. apply Hi.
Qed.

Lemma rebuild_eq genesis c :
  rebuild_state_from_genesis genesis c
  = match recompute_state_from_blocks (bc_blocks c) genesis with
    | Ok s => (Ok tt, mkBlockchain (bc_blocks c) s (bc_consensus c))
    | Err e => (Err e, c)
    | Panic => (Panic, c)
    end.
Proof.
  unfold rebuild_state_from_genesis, recompute_state_from_blocks, sbind, sget, slift, sput, rbind.
  destruct (State_from_genesis genesis); [|done..]. by destruct (exec_on _ _).
Qed.

Lemma rollback_last_block_spec g c :
  chain_inv g c → (1 < length (bc_blocks c))%nat →
  ∃ s, recompute_state_from_blocks (take (length (bc_blocks c) - 1) (bc_blocks c)) g = Ok s
    ∧ rollback_last_block g c
      = (Ok tt, mkBlockchain (take (length (bc_blocks c) - 1) (bc_blocks c)) s (bc_consensus c)).
Proof.
  intros Hi Hlen. destruct (recompute_take g c (length (bc_blocks c) - 1) Hi) as [s Hs]; [lia|].
  exists s. split; [done|]. unfold rollback_last_block, sbind, sget, sput.
  destruct (Nat.leb_spec (length (bc_blocks c)) 1); [lia|].
  rewrite rebuild_eq. cbn [bc_blocks bc_consensus]. rewrite removelast_firstn_len.
  replace (Init.Nat.pred (length (bc_blocks c))) with (length (bc_blocks c) - 1)%nat by lia.
  change @firstn with @take. by rewrite Hs.
Qed.

Lemma height_length g c : chain_inv g c → height c = Z.of_nat (length (bc_blocks c)) - 1.
Proof.
  intros Hi. destruct (chain_last g c Hi) as (tip&Hl&Hth&_). unfold height, blocks_height. by rewrite Hl.
Qed.

(** Popping above a height keeps the blocks up to that height. *)
Lemma pop_above_spec g c t :
  chain_inv g c → 0 ≤ t ≤ height c →
  reverse (pop_above t (reverse (bc_blocks c))) = take (Z.to_nat t + 1) (bc_blocks c).
Proof.
  intros Hi Ht. assert (Z.to_nat t < length (bc_blocks c))%nat as Hlt.
  { rewrite (height_length g c Hi) in Ht. lia. }
  pose proof (ci_heights _ _ Hi) as Hh. clear Hi. revert Hh Hlt.
  induction (bc_blocks c) as [|b bs IH] using rev_ind; intros Hh Hlt; [simpl in Hlt; lia|].
  rewrite reverse_snoc. cbn [pop_above]. rewrite length_app in Hlt. simpl in Hlt.
  assert (blk_height b = Z.of_nat (length bs)) as Hb.
  { apply Hh. rewrite lookup_app_r, Nat.sub_diag by lia. done. }
  destruct (Z.ltb_spec t (blk_height b)).
  - rewrite IH; [|intros i x Hx; apply Hh; by apply lookup_app_l_Some|lia].
    rewrite take_app_le by lia. done.
  - rewrite reverse_cons, reverse_involutive, take_ge; [done|]. rewrite length_app. simpl. lia.
Qed.

Lemma rollback_to_height_spec g c t :
  chain_inv g c → 0 ≤ t ≤ height c →
  ∃ s, recompute_state_from_blocks (take (Z.to_nat t + 1) (bc_blocks c)) g = Ok s
    ∧ rollback_to_height t g c
      = (Ok tt, mkBlockchain (take (Z.to_nat t + 1) (bc_blocks c)) s (bc_consensus c)).
Proof.
  intros Hi Ht. destruct (recompute_take g c (Z.to_nat t + 1) Hi) as [s Hs]; [lia|].
  exists s. split; [done|]. unfold rollback_to_height, sbind, sget, sput, slift.
  destruct (Z.ltb_spec (height c) t); [lia|]. rewrite (pop_above_spec g) by done. by rewrite Hs.
Qed.

Lemma rollback_last_block_inv g c : chain_inv g c → chain_inv g (rollback_last_block g c).2.
Proof.
  intros Hi. destruct (decide (1 < length (bc_blocks c))%nat) as [Hlt|Hge].
  - destruct (rollback_last_block_spec g c Hi Hlt) as (s&Hs&->). simpl. by apply chain_inv_take; [|lia|].
  - unfold rollback_last_block, sbind, sget, sfail.
    destruct (Nat.leb_spec (length (bc_blocks c)) 1); [done|lia].
Qed.

Lemma rollback_to_height_inv g c t : 0 ≤ t → chain_inv g c → chain_inv g (rollback_to_height t g c).2.
Proof.
  intros Ht Hi. destruct (decide (t ≤ height c)) as [Hle|Hgt].
  - destruct (rollback_to_height_spec g c t Hi) as (s&Hs&->); [done|]. simpl. by apply chain_inv_take; [|lia|].
  - unfold rollback_to_height, sbind, sget, sfail. destruct (Z.ltb_spec (height c) t); [done|lia].
Qed.

Lemma rebuild_id g c : chain_inv g c → rebuild_state_from_genesis g c = (Ok tt, c).
Proof. intros [_ _ _ _ Hr]. rewrite rebuild_eq, Hr. by destruct c. Qed.
End steps.

(** ** Sealing *)

Section sealing.
Context `{CryptoLaws}.

Lemma chain_tip_hash g c tip :
  chain_inv g c → last (bc_blocks c) = Some tip →
  trim_is_empty (blk_block_hash tip) = false ∧ utf8_valid (str_bytes (blk_block_hash tip)) = true.
Proof.
  intros Hi Hl. rewrite last_lookup in Hl.
  destruct (pred (length (bc_blocks c))) as [|n] eqn:Hn.
  - rewrite (ci_genesis _ _ Hi) in Hl. injection Hl as <-. by split; vm_compute.
  - pose proof (lookup_lt_Some _ _ _ Hl).
    assert (is_Some (bc_blocks c !! n)) as [a Ha] by (apply lookup_lt_is_Some; lia).
    destruct (ci_links _ _ Hi n a tip Ha Hl) as (Hv&_).
    apply block_basic_validate_ok in Hv as (_&_&_&_&->); [|rewrite (ci_heights _ _ Hi _ _ Hl); lia].
    unfold compute_block_hash. split; [apply hash_bytes_not_blank|apply utf8_valid_ascii, hash_bytes_ascii].
Qed.

(** The block that sealing builds on [tip]. *)
Definition sealed_block (tip : Block) (txs : list Transaction) (timestamp_unix : Z) : Block :=
  let b := mkBlock (blk_height tip + 1) (blk_block_hash tip) timestamp_unix txs "" in
  mkBlock (blk_height b) (blk_previous_hash b) timestamp_unix txs (compute_block_hash b).

Definition pool_wf (m : Mempool) : Prop := mp_inv m ∧ map_Forall (λ _ t, wf_tx t) (mp_txs m).

Lemma candidates_ok m s max txs :
  wf_state s → pool_wf m → ordered_candidates_for_seal m s max = Ok txs →
  Forall valid_tx txs ∧ Forall wf_tx txs ∧ NoDup (tx_tx_hash <$> txs)
  ∧ ∃ s', apply_transactions txs s = (Ok tt, s').
Proof.
  intros Hs [[Hv Hval _] Hwf] Hc.
  destruct (seal_walk_run (mp_txs m) max (mp_order m) s [] Hs Hwf) as (out&s'&b&Hr&Hb); [simpl; lia|].
  unfold ordered_candidates_for_seal in Hc. rewrite Hc in Hb.
  destruct b; [by destruct Hb|]. injection Hb as ->. fold (clone_fifo m) in Hr.
  assert (Forall wf_tx (clone_fifo m)) as Hcw.
  { apply Forall_forall. intros t (h&_&Ht)%list_elem_of_omap. by eapply Hwf. }
  assert (Forall valid_tx (clone_fifo m)) as Hcv.
  { apply Forall_forall. intros t (h&_&Ht)%list_elem_of_omap. apply tx_basic_validate_ok. by eapply Hval. }
  destruct (SealRun_apply _ _ _ _ _ _ Hr Hs Hcw) as (Ha&Hsub&_).
  split_and!; [by eapply Forall_sublist|by eapply Forall_sublist| |by eexists].
  apply (sublist_NoDup _ (tx_tx_hash <$> clone_fifo m)); [apply (clone_fifo_distinct m Hv)|by apply fmap_sublist].
Qed.

Lemma seal_append g c m max ts txs tip :
  wf_genesis g → chain_inv g c → pool_wf m → in_u64 ts →
  last (bc_blocks c) = Some tip → blk_height tip + 1 ≤ u64_max →
  blk_timestamp_unix tip + min_block_interval_secs (bc_consensus c) ≤ ts →
  ordered_candidates_for_seal m (bc_state c) max = Ok txs → txs ≠ [] →
  let b := sealed_block tip txs ts in
  wf_block b ∧ ∃ s', apply_transactions txs (bc_state c) = (Ok tt, s')
    ∧ append_block_from_mempool_pending_removal m max ts c
      = (Ok (Some (tx_tx_hash <$> txs)), mkBlockchain (bc_blocks c ++ [b]) s' (bc_consensus c)).
Proof.
  intros Hg Hi Hm Hts Hl Hroom Htime Hc Hne b.
  destruct (chain_last g c Hi) as (tip'&Hl'&Hth&Hpos&Hwt). rewrite Hl in Hl'. injection Hl' as <-.
  destruct (candidates_ok _ _ _ _ (chain_inv_wf_state g c Hg Hi) Hm Hc) as (Hval&Hwf&Hnd&s'&Happ).
  destruct (chain_tip_hash g c tip Hi Hl) as [Hth1 Hth2].
  assert (wrapping_add (blk_height tip) 1 = blk_height tip + 1) as Hw.
  { unfold wrapping_add. apply Z.mod_small. lia. }
  assert (block_basic_validate b = Ok tt) as Hb.
  { apply block_basic_validate_ok; [simpl; lia|]. split_and!; [done|done|done| |done].
    apply hash_bytes_not_blank. }
  split.
  { split_and!; [simpl; unfold in_u64; lia|done|done| |done]. apply utf8_valid_ascii, hash_bytes_ascii. }
  exists s'. split; [done|].
  unfold append_block_from_mempool_pending_removal, sbind at 1 2 3, sget, slift. rewrite Hc.
  destruct (Nat.eqb_spec (length txs) 0) as [Hz%nil_length_inv|_]; [done|].
  rewrite Hl. cbn [ok_or blk_height blk_previous_hash blk_timestamp_unix blk_transactions]. rewrite Hw.
  unfold sbind at 1.
  change (mkBlock (blk_height tip + 1) _ _ _ _) with b.
  destruct (append_block_cases b c) as [(tip2&s2&Hl2&_&Ha2&->)|(_&_&Hno)].
  - change (blk_transactions b) with txs in Ha2. rewrite Happ in Ha2. injection Ha2 as <-. done.
  - destruct Hno. exists tip, s'. split_and!; [done| |done]. split_and!; [done|by rewrite Hw|done|].
    apply timestamps_ok. unfold in_u64 in Hts. simpl. lia.
Qed.

Lemma pending_removal_inv g c m max ts :
  wf_genesis g → chain_inv g c → pool_wf m → in_u64 ts →
  chain_inv g (append_block_from_mempool_pending_removal m max ts c).2.
Proof.
  intros Hg Hi Hm Hts. unfold append_block_from_mempool_pending_removal, sbind at 1 2, sget, slift.
  destruct (ordered_candidates_for_seal m (bc_state c) max) as [txs| |] eqn:Hc; [|done..].
  destruct (Nat.eqb _ 0); [done|]. unfold sbind at 1.
  destruct (last (bc_blocks c)) as [tip|] eqn:Hl; [|done].
  cbn [ok_or blk_height blk_previous_hash blk_timestamp_unix blk_transactions]. unfold sbind.
  set (b := mkBlock _ _ _ txs (compute_block_hash _)).
  assert (chain_inv g (append_block b c).2) as Hb.
  { apply append_block_inv; [done|]. destruct (chain_last g c Hi) as (tip'&Hl'&_&_&Hwt).
    destruct (candidates_ok _ _ _ _ (chain_inv_wf_state g c Hg Hi) Hm Hc) as (_&Hwf&_).
    destruct (chain_tip_hash g c tip Hi Hl) as [_ Hth2].
    split_and!; [|done|done| |done].
    - simpl. unfold in_u64, wrapping_add. pose proof (Z.mod_pos_bound (blk_height tip + 1) (u64_max + 1)).
      assert (0 < u64_max + 1) by (by vm_compute). lia.
    - apply utf8_valid_ascii, hash_bytes_ascii. }
  by destruct (append_block b c) as [[[]| |] ?].
Qed.
End sealing.

(** ** Reachable chains *)

Section reachability.
Context `{CryptoLaws}.

(** The public operations of a chain opened on the genesis document [g], with
    arguments of the types the code has. *)
Inductive chain_step (g : Genesis) (c : Blockchain) : Blockchain → Prop :=
| step_append b : wf_block b → chain_step g c (append_block b c).2
| step_network b now : wf_block b → chain_step g c (try_append_network_block b now c).2
| step_seal m max ts :
    pool_wf m → in_u64 ts → chain_step g c (append_block_from_mempool_pending_removal m max ts c).2
| step_seal_remove m max ts :
    pool_wf m → in_u64 ts → chain_step g c (append_block_from_mempool max ts (c, m)).2.1
| step_rollback_last : chain_step g c (rollback_last_block g c).2
| step_rollback_to t : 0 ≤ t → chain_step g c (rollback_to_height t g c).2
| step_rebuild : chain_step g c (rebuild_state_from_genesis g c).2.

Definition reachable (g : Genesis) (c : Blockchain) : Prop :=
  ∃ params c0, from_genesis_with_consensus g params = Ok c0 ∧ rtc (chain_step g) c0 c.

Lemma from_genesis_inv g params c : from_genesis_with_consensus g params = Ok c → chain_inv g c.
Proof.
  unfold from_genesis_with_consensus, from_genesis, rbind.
  destruct (State_from_genesis g) as [s| |] eqn:Hs; [|done..]. intros [= <-].
  split; cbn [bc_blocks bc_state bc_consensus].
  - done.
  - intros [|i] b Hb; [by injection Hb as <-|done].
  - by intros [|i] a b _ Hb.
  - apply Forall_singleton, (bool_decide_unpack _). by vm_compute.
  - rewrite recompute_flat, Hs. done.
Qed.

Lemma seal_remove_chain max ts c m :
  (append_block_from_mempool max ts (c, m)).2.1
  = (append_block_from_mempool_pending_removal m max ts c).2.
Proof.
  unfold append_block_from_mempool.
  by destruct (append_block_from_mempool_pending_removal m max ts c) as [[[]| |] ?].
Qed.

Lemma chain_step_inv g c c' : wf_genesis g → chain_inv g c → chain_step g c c' → chain_inv g c'.
Proof.
  intros Hg Hi. destruct 1.
  - by apply append_block_inv.
  - by apply try_append_network_block_inv.
  - by apply pending_removal_inv.
  - rewrite seal_remove_chain. by apply pending_removal_inv.
  - by apply rollback_last_block_inv.
  - by apply rollback_to_height_inv.
  - by rewrite rebuild_id.
Qed.

Lemma reachable_inv g c : wf_genesis g → reachable g c → chain_inv g c.
Proof.
  intros Hg (params&c0&Hg0&Hr). apply from_genesis_inv in Hg0.
  induction Hr as [|c0 c1 c2 Hstep _ IH]; [done|]. apply IH. by eapply chain_step_inv.
Qed.

Lemma reachable_run g c :
  wf_genesis g → reachable g c →
  ∃ s0, State_from_genesis g = Ok s0 ∧ wf_state s0
    ∧ Forall wf_tx (chain_txs (drop 1 (bc_blocks c)))
    ∧ apply_transactions (chain_txs (drop 1 (bc_blocks c))) s0 = (Ok tt, bc_state c).
Proof.
  intros Hg Hr. pose proof (reachable_inv g c Hg Hr) as [_ _ _ Hwf Hrep].
  destruct (replay_start _ _ _ Hrep) as (s0&Hg0&Ha). exists s0.
  split_and!; [done|by apply (from_genesis_wf g)|by apply chain_txs_wf, Forall_drop|done].
Qed.

(** Every block above genesis is valid, and its parent hash is the hash of the
    block below it. *)
Lemma chain_block_valid g c i b :
  chain_inv g c → bc_blocks c !! S i = Some b →
  ∃ a, bc_blocks c !! i = Some a ∧ valid_block b ∧ blk_previous_hash b = blk_block_hash a ∧ wf_block b.
Proof.
  intros Hc Hb. destruct (lookup_lt_is_Some_2 (bc_blocks c) i) as [a Ha].
  { apply lookup_lt_Some in Hb. lia. }
  destruct (ci_links _ _ Hc i a b Ha Hb) as (Hv&_&Hp&_). exists a. split_and!; [done| |done|].
  - apply block_basic_validate_ok in Hv; [done|]. rewrite (ci_heights _ _ Hc _ _ Hb). lia.
  - pose proof (ci_wf _ _ Hc) as Hw. rewrite Forall_forall in Hw. apply Hw. by eapply list_elem_of_lookup_2.
Qed.

Lemma core_fields bs1 bs2 :
  block_core <$> bs1 = block_core <$> bs2 →
  signed_fields <$> chain_txs bs1 = signed_fields <$> chain_txs bs2.
Proof.
  revert bs2. induction bs1 as [|b1 bs1 IH]; intros [|b2 bs2] Heq; [done|done|done|].
  apply fmap_cons_eq in Heq as [Hb Hbs]. unfold block_core in Hb. injection Hb as _ _ _ Hf _.
  unfold chain_txs in *. cbn [mbind list_bind]. by rewrite !fmap_app, Hf, (IH bs2).
Qed.

(** C9: whatever sequence of appends, network appends, local seals, rollbacks
    and rebuilds a chain goes through, failed ones included, it starts with
    the genesis block, every block sits at the height of its position, is
    valid, names its parent's hash and respects the timestamp policy, and the
    account state is exactly the replay of the blocks from genesis. *)
Theorem chain_reachable_inv g c :
  wf_genesis g → reachable g c → chain_inv g c ∧ wf_state (bc_state c).
Proof.
  intros Hg Hr. pose proof (reachable_inv g c Hg Hr) as Hi.
  split; [done|by apply (chain_inv_wf_state g)].
Qed.

(** C22: in every reachable chain the total of all balances is the genesis
    supply minus the fees of the blocks: money is never minted, and the supply
    audit cannot overflow when the genesis supply fits a [u64]. *)
Theorem chain_supply g c :
  wf_genesis g → reachable g c →
  supply (bc_state c) = genesis_supply g - total_fees (chain_txs (drop 1 (bc_blocks c)))
  ∧ (genesis_supply g ≤ u64_max → total_balance_sum (bc_state c) = Ok (supply (bc_state c))).
Proof.
  intros Hg Hr. destruct (reachable_run g c Hg Hr) as (s0&Hg0&Hw0&Hwf&Ha).
  destruct (apply_transactions_run _ _ _ Hw0 Hwf Ha) as (Hw&Hs&_).
  rewrite (from_genesis_supply g s0 Hg0) in Hs. split; [done|]. intros Hle.
  rewrite total_balance_sum_spec by done.
  destruct (Z.leb_spec (supply (bc_state c)) u64_max) as [|Hgt]; [done|].
  assert (0 ≤ total_fees (chain_txs (drop 1 (bc_blocks c)))); [|lia].
  clear -Hwf. induction Hwf as [|t txs Ht _ IH]; simpl; [lia|]. destruct Ht as (_&[? _]&_). lia.
Qed.

(** C21: no double spend: in every reachable chain no two transactions, of the
    same or of different blocks, consume the same nonce of the same sender;
    in particular no transaction is included twice. *)
Theorem chain_no_double_spend g c :
  wf_genesis g → reachable g c → NoDup (tx_slot <$> chain_txs (drop 1 (bc_blocks c))).
Proof.
  intros Hg Hr. destruct (reachable_run g c Hg Hr) as (s0&Hg0&Hw0&Hwf&Ha).
  apply (apply_transactions_run _ _ _ Hw0 Hwf Ha).
Qed.

(** Transactions with the same signed content have the same effect. *)
Lemma apply_same_fields t1 t2 s :
  signed_fields t1 = signed_fields t2 → tx_basic_validate t1 = Ok tt → tx_basic_validate t2 = Ok tt →
  apply_transaction t1 s = apply_transaction t2 s.
Proof.
  intros Hf Hv1 Hv2. unfold apply_transaction, slift, sbind. rewrite Hv1, Hv2. clear Hv1 Hv2.
  destruct t1, t2. unfold signed_fields in Hf. simpl in Hf. injection Hf as -> -> -> -> -> -> ->. reflexivity.
Qed.

Lemma apply_validated t s s' : apply_transaction t s = (Ok tt, s') → tx_basic_validate t = Ok tt.
Proof. unfold apply_transaction, slift, sbind. by destruct (tx_basic_validate t) as [[]| |]. Qed.

Lemma apply_fields_agree txs1 txs2 s s1 s2 :
  signed_fields <$> txs1 = signed_fields <$> txs2 →
  apply_transactions txs1 s = (Ok tt, s1) → apply_transactions txs2 s = (Ok tt, s2) → s1 = s2.
Proof.
  revert txs2 s. induction txs1 as [|t1 txs1 IH]; intros [|t2 txs2] s Hf; [|done|done|].
  { by intros [= <-] [= <-]. }
  apply fmap_cons_eq in Hf as [Hf Hfs]. unfold apply_transactions. cbn [sfor]. unfold sbind.
  destruct (apply_transaction t1 s) as [[[]| |] u1] eqn:Ha1; [|done..].
  destruct (apply_transaction t2 s) as [[[]| |] u2] eqn:Ha2; [|done..].
  assert (u1 = u2) as ->.
  { pose proof (apply_same_fields t1 t2 s Hf (apply_validated _ _ _ Ha1) (apply_validated _ _ _ Ha2)) as Heq.
    rewrite Ha1, Ha2 in Heq. by injection Heq. }
  by apply IH.
Qed.

(** The parent hash of a block on a chain is the hash of a block or the
    genesis constant, so it is free of the separator. *)
Lemma chain_hash_clean g c i b :
  chain_inv g c → bc_blocks c !! i = Some b → Byte.x7c ∉ str_bytes (blk_block_hash b).
Proof.
  intros Hc Hb. destruct i as [|i].
  - rewrite (ci_genesis _ _ Hc) in Hb. injection Hb as <-. apply (bool_decide_unpack _). by vm_compute.
  - destruct (chain_block_valid g c i b) as (_&_&(_&_&_&_&->)&_); [done..|]. apply hash_bytes_no, pipe_not_hex.
Qed.

(** Walking back from two blocks with the same hash. *)
Lemma same_hash_same_past g c1 c2 i1 i2 b1 b2 :
  chain_inv g c1 → chain_inv g c2 → bc_blocks c1 !! i1 = Some b1 → bc_blocks c2 !! i2 = Some b2 →
  blk_block_hash b1 = blk_block_hash b2 →
  (i1 = i2 ∧ block_core <$> take (S i1) (bc_blocks c1) = block_core <$> take (S i2) (bc_blocks c2))
  ∨ ∃ a1 a2, a1 ∈ bc_blocks c1 ∧ a2 ∈ bc_blocks c2 ∧ blocks_collide a1 a2.
Proof.
  intros Hc1 Hc2. revert i2 b1 b2. induction i1 as [|i1 IH]; intros [|i2] b1 b2 Hb1 Hb2 Heq.
  - left. split; [done|]. pose proof (ci_genesis _ _ Hc1). pose proof (ci_genesis _ _ Hc2).
    rewrite !(take_S_r _ 0 Block_genesis) by done. done.
  - rewrite (ci_genesis _ _ Hc1) in Hb1. injection Hb1 as <-.
    destruct (chain_block_valid g c2 i2 b2) as (_&_&(_&_&_&_&Hh)&_); [done..|].
    pose proof (hash_bytes_length (block_header_preimage_bytes b2)) as Hl. fold (compute_block_hash b2) in Hl.
    by rewrite <- Hh, <- Heq in Hl.
  - rewrite (ci_genesis _ _ Hc2) in Hb2. injection Hb2 as <-.
    destruct (chain_block_valid g c1 i1 b1) as (_&_&(_&_&_&_&Hh)&_); [done..|].
    pose proof (hash_bytes_length (block_header_preimage_bytes b1)) as Hl. fold (compute_block_hash b1) in Hl.
    by rewrite <- Hh, Heq in Hl.
  - destruct (chain_block_valid g c1 i1 b1) as (a1&Ha1&Hv1&Hp1&Hw1); [done..|].
    destruct (chain_block_valid g c2 i2 b2) as (a2&Ha2&Hv2&Hp2&Hw2); [done..|].
    destruct (block_hash_commits b1 b2) as [Hcore|Hcol]; [done..| | |done| |].
    1: rewrite Hp1; by eapply (chain_hash_clean g c1).
    1: rewrite Hp2; by eapply chain_hash_clean.
    2: { right. exists b1, b2. split_and!; [by eapply list_elem_of_lookup_2..|done]. }
    pose proof Hcore as Hpe. unfold block_core in Hpe. injection Hpe as _ Hpe _ _ _.
    destruct (IH i2 a1 a2) as [[-> Hpast]|Hcol]; [done|done|congruence| |by right].
    left. split; [done|]. rewrite (take_S_r (bc_blocks c1) _ b1), (take_S_r (bc_blocks c2) _ b2) by done.
    rewrite !fmap_app, Hpast. cbn [fmap list_fmap]. by rewrite Hcore.
Qed.

(** C37: the tip hash commits to the whole history: two chains of the same
    genesis document, built in any way and under any time policies, whose tips
    carry the same hash have the same heights, parent hashes, timestamps,
    transactions (up to keys and signatures) and block hashes throughout, and
    the same ledger; or two of their blocks show an explicit collision of
    SHA-256, on headers or on transaction payloads. *)
Theorem tip_hash_commits g c1 c2 tip1 tip2 :
  wf_genesis g → reachable g c1 → reachable g c2 →
  last (bc_blocks c1) = Some tip1 → last (bc_blocks c2) = Some tip2 →
  blk_block_hash tip1 = blk_block_hash tip2 →
  (block_core <$> bc_blocks c1 = block_core <$> bc_blocks c2 ∧ bc_state c1 = bc_state c2)
  ∨ ∃ b1 b2, b1 ∈ bc_blocks c1 ∧ b2 ∈ bc_blocks c2 ∧ blocks_collide b1 b2.
Proof.
  intros Hg Hr1 Hr2 Hl1 Hl2 Heq.
  pose proof (reachable_inv g c1 Hg Hr1) as Hc1. pose proof (reachable_inv g c2 Hg Hr2) as Hc2.
  rewrite last_lookup in Hl1, Hl2.
  destruct (same_hash_same_past g c1 c2 _ _ tip1 tip2 Hc1 Hc2 Hl1 Hl2 Heq) as [[_ Hcore]|Hcol]; [left|by right].
  rewrite !take_ge in Hcore by lia. split; [done|].
  destruct (reachable_run g c1 Hg Hr1) as (s0&Hg1&_&_&Ha1).
  destruct (reachable_run g c2 Hg Hr2) as (s0'&Hg2&_&_&Ha2). rewrite Hg1 in Hg2. injection Hg2 as <-.
  eapply apply_fields_agree; [|exact Ha1|exact Ha2]. apply core_fields.
  by rewrite !fmap_drop, Hcore.
Qed.

(** C18: [append_block] accepts a block iff it extends the tip (valid, next
    height, parent hash, timestamp policy) and all its transactions apply in
    order to the current state; it then pushes exactly that block with that
    state. In every other case nothing of the chain changes. *)
Theorem append_block_exact b c :
  (∀ c', append_block b c = (Ok tt, c') ↔
     ∃ tip s', last (bc_blocks c) = Some tip ∧ extends (bc_consensus c) tip b
       ∧ apply_transactions (blk_transactions b) (bc_state c) = (Ok tt, s')
       ∧ c' = mkBlockchain (bc_blocks c ++ [b]) s' (bc_consensus c))
  ∧ (is_ok (append_block b c).1 = false → (append_block b c).2 = c).
Proof.
  destruct (append_block_cases b c) as [(tip&s'&Hl&Hext&Ha&Heq)|(Hr&Hc&Hno)].
  - rewrite Heq. split; [|done]. intros c'. split.
    + intros [= <-]. exists tip, s'. done.
    + intros (tip2&s2&_&_&Ha2&->). rewrite Ha in Ha2. by injection Ha2 as ->.
  - split; [|done]. intros c'. split.
    + intros Heq. by rewrite Heq in Hr.
    + intros (tip&s'&Hl&Hext&Ha&_). destruct Hno. eauto.
Qed.

Definition append_blocks (bs : list Block) : ST Blockchain ProtocolError unit := sfor append_block bs.

Lemma append_blocks_app bs c c' :
  append_blocks bs c = (Ok tt, c') → bc_blocks c' = bc_blocks c ++ bs ∧ bc_consensus c' = bc_consensus c.
Proof.
  revert c. induction bs as [|b bs IH]; intros c Ha.
  { injection Ha as <-. by rewrite app_nil_r. }
  unfold append_blocks in Ha. cbn [sfor] in Ha. unfold sbind in Ha.
  destruct (append_block_cases b c) as [(tip&s'&_&_&_&Heq)|(Hr&_&_)].
  - rewrite Heq in Ha. destruct (IH _ Ha) as [-> ->]. cbn [bc_blocks bc_consensus].
    by rewrite <- (assoc_L (++)).
  - by destruct (append_block b c) as [[[]| |] ?].
Qed.

Lemma append_blocks_inv g bs c : chain_inv g c → Forall wf_block bs → chain_inv g (append_blocks bs c).2.
Proof.
  intros Hi Hb. apply (sfor_inv append_block (chain_inv g)); [|done]. rewrite Forall_forall in Hb.
  intros b c' Hin Hc'. apply append_block_inv; auto.
Qed.

(** C20: rolling back undoes appending: after any number of blocks were
    appended to a reachable chain, [rollback_to_height] to the old height
    succeeds and gives back the old chain exactly, account state included; so
    does [rollback_last_block] after one block. *)
Theorem rollback_inverts_append g c bs c' :
  wf_genesis g → reachable g c → Forall wf_block bs → append_blocks bs c = (Ok tt, c') →
  rollback_to_height (height c) g c' = (Ok tt, c)
  ∧ (length bs = 1%nat → rollback_last_block g c' = (Ok tt, c)).
Proof.
  intros Hg Hr Hbs Ha. pose proof (reachable_inv g c Hg Hr) as Hi.
  pose proof (append_blocks_inv g bs c Hi Hbs) as Hi'. rewrite Ha in Hi'. cbn [snd] in Hi'.
  destruct (append_blocks_app _ _ _ Ha) as [Hb Hcons].
  destruct (chain_last g c Hi) as (tip&Hl&Hth&Hpos&_).
  pose proof (height_length g c Hi) as Hh.
  assert (∀ n s, n = length (bc_blocks c) → recompute_state_from_blocks (take n (bc_blocks c')) g = Ok s →
            mkBlockchain (take n (bc_blocks c')) s (bc_consensus c') = c) as Hback.
  { intros n s ->. rewrite Hb, take_app_length, (ci_replay _ _ Hi), Hcons. intros [= <-]. by destruct c. }
  split.
  - destruct (rollback_to_height_spec g c' (height c) Hi') as (s&Hs&->).
    + rewrite (height_length g c' Hi'), Hb, length_app. lia.
    + rewrite (Hback (Z.to_nat (height c) + 1)%nat s); [done|lia|done].
  - intros Hone. assert (length (bc_blocks c') = length (bc_blocks c) + 1)%nat as Hlen
      by (rewrite Hb, length_app; lia).
    destruct (rollback_last_block_spec g c' Hi') as (s&Hs&->); [lia|].
    by rewrite (Hback (length (bc_blocks c') - 1)%nat s); [|lia|].
Qed.

(** Appending the blocks of a chain one by one to its genesis rebuilds it. *)
Lemma chain_rebuild g c c0 :
  chain_inv g c → from_genesis_with_consensus g (bc_consensus c) = Ok c0 →
  append_blocks (drop 1 (bc_blocks c)) c0 = (Ok tt, c).
Proof.
  intros Hi Hc0. assert (∃ l, bc_blocks c = Block_genesis :: l) as [l Hl].
  { pose proof (ci_genesis _ _ Hi) as Hg. destruct (bc_blocks c) as [|b l]; [done|]. injection Hg as ->. by exists l. }
  rewrite Hl. change (drop 1 (Block_genesis :: l)) with (drop 0 l). rewrite drop_0. revert c Hi Hl Hc0. induction l as [|b l IH] using rev_ind; intros c Hi Hl Hc0.
  - pose proof (ci_replay _ _ Hi) as Hr. rewrite Hl, recompute_flat in Hr.
    unfold from_genesis_with_consensus, from_genesis, rbind in *.
    destruct (State_from_genesis g) as [s| |]; [|done..]. injection Hc0 as <-. injection Hr as ->.
    destruct c as [bl st cons]. simpl in *. by subst.
  - assert (take (S (length l)) (bc_blocks c) = Block_genesis :: l) as Ht.
    { rewrite Hl. cbn [take]. f_equal. apply take_app_length. }
    destruct (recompute_take g c (S (length l)) Hi) as [s' Hs']; [lia|].
    pose proof (chain_inv_take g c (S (length l)) s' Hi ltac:(lia) Hs') as Hi'. rewrite Ht in *.
    specialize (IH _ Hi' eq_refl Hc0).
    unfold append_blocks in *. rewrite sfor_app. unfold sbind. rewrite IH. cbn [sfor]. unfold sbind.
    pose proof (ci_replay _ _ Hi) as Hr.
    change (Block_genesis :: l ++ [b]) with ((Block_genesis :: l) ++ [b]) in Hl.
    rewrite Hl, recompute_snoc, Hs' in Hr by done. apply exec_on_ok in Hr.
    destruct (last (Block_genesis :: l)) as [tip|] eqn:Htip; [|by apply last_None in Htip].
    assert (extends (bc_consensus c) tip b) as Hext.
    { apply (ci_links _ _ Hi (length l)).
      - rewrite Hl, lookup_app_l by (simpl; lia). by rewrite last_lookup in Htip.
      - rewrite Hl, lookup_app_r by (simpl; lia). simpl. by rewrite Nat.sub_diag. }
    match goal with |- context [append_block b ?c1] =>
      destruct (append_block_cases b c1) as [(tip2&s2&_&_&Ha&->)|(_&_&Hno)] end.
    + cbn [bc_state bc_blocks bc_consensus] in *. rewrite Hr in Ha. injection Ha as <-.
      rewrite <- Hl. by destruct c.
    + destruct Hno. exists tip, (bc_state c). done.
Qed.

(** Sealing from a consistent pool always produces a block that the chain
    accepts: when candidate selection succeeds with a non-empty list, the time
    is not before the tip's plus the minimum interval and the height does not
    overflow, the block of exactly these candidates is appended, their ids are
    returned, and the pool loses exactly these transactions and keeps the
    order of the others. *)
Theorem seal_commits g c m max ts txs tip :
  wf_genesis g → reachable g c → pool_wf m → in_u64 ts →
  last (bc_blocks c) = Some tip → blk_height tip + 1 ≤ u64_max →
  blk_timestamp_unix tip + min_block_interval_secs (bc_consensus c) ≤ ts →
  ordered_candidates_for_seal m (bc_state c) max = Ok txs → txs ≠ [] →
  ∃ c' m', append_block_from_mempool max ts (c, m) = (Ok (length txs), (c', m'))
    ∧ bc_blocks c' = bc_blocks c ++ [sealed_block tip txs ts]
    ∧ apply_transactions txs (bc_state c) = (Ok tt, bc_state c')
    ∧ mp_inv m' ∧ clone_fifo m' = filter (λ t, t ∉ txs) (clone_fifo m).
Proof.
  intros Hg Hr Hm Hts Hl Hroom Htime Hc Hne. pose proof (reachable_inv g c Hg Hr) as Hi.
  destruct (seal_append g c m max ts txs tip) as (_&s'&Ha&Hs); [done..|].
  destruct Hm as [Hmi Hmw].
  destruct (remove_by_tx_hashes_implements (tx_tx_hash <$> txs) m Hmi) as [Hmi' Hq]. injection Hq as _ Hq.
  exists (mkBlockchain (bc_blocks c ++ [sealed_block tip txs ts]) s' (bc_consensus c)),
    (remove_by_tx_hashes (tx_tx_hash <$> txs) m).
  split_and!; [|done|done|done|].
  - unfold append_block_from_mempool. rewrite Hs. by rewrite length_fmap.
  - rewrite Hq. cbn [q_txs mp_abs]. apply filter_agree. intros t Ht. split.
    + intros Hn Hin. apply Hn. by apply list_elem_of_fmap_2.
    + intros Hn (u&Heq&Hu)%list_elem_of_fmap. destruct Hn.
      assert (u ∈ clone_fifo m) as Hum.
      { destruct (seal_walk_run (mp_txs m) max (mp_order m) (bc_state c) []) as (out&s2&b&Hrun&Hb);
          [by apply (chain_inv_wf_state g)|done|simpl; lia|].
        unfold ordered_candidates_for_seal in Hc. rewrite Hc in Hb.
        destruct b; [by destruct Hb|]. injection Hb as ->.
        eapply elem_of_sublist; [exact Hu|].
        eapply SealRun_apply; [exact Hrun|by apply (chain_inv_wf_state g)|].
        apply Forall_forall. intros x (h&_&Hx)%list_elem_of_omap. by eapply Hmw. }
      apply (clone_fifo_elem _ _ _ (mi_views _ Hmi)) in Ht, Hum.
      rewrite Heq in Ht. rewrite Ht in Hum. by injection Hum as ->.
Qed.

(** Serving blocks from a height returns exactly the slice of the chain
    that starts at that height, at most [limit] blocks long. *)
Lemma blocks_from_height_slice g c start limit :
  chain_inv g c → 0 ≤ start →
  blocks_from_height_limited c start limit = take limit (drop (Z.to_nat start) (bc_blocks c)).
Proof.
  intros Hc Hs. pose proof (ci_heights _ _ Hc) as Hh.
  unfold blocks_from_height_limited. destruct (Nat.eqb_spec limit 0) as [->|]; [done|]. f_equal.
  rewrite <- (take_drop (Z.to_nat start) (bc_blocks c)) at 1. rewrite filter_app.
  rewrite filter_none, filter_all; [done|..].
  - intros b (i&Hb)%list_elem_of_lookup_1. rewrite lookup_drop in Hb. apply Hh in Hb. lia.
  - intros b (i&Hb)%list_elem_of_lookup_1. apply lookup_take_Some in Hb as [Hb Hi]. apply Hh in Hb. lia.
Qed.
End reachability.

(** ** A concrete chain, for the witnesses *)

Module ChainExample.
Import ToyCrypto WalletExample BlockExample LedgerExample MempoolExample.

Definition params : ConsensusParams := mkConsensusParams 10 7200.

Definition chain0 : Blockchain :=
  match from_genesis_with_consensus genesis params with Ok c => c | _ => mkBlockchain [] State_new params end.

Lemma chain0_eq : from_genesis_with_consensus genesis params = Ok chain0.
Proof. vm_compute. reflexivity. Qed.

Lemma block_wf_dec b : bool_decide (wf_block b) = true → wf_block b.
Proof. apply bool_decide_eq_true_1. Qed.

Lemma block1_wf : wf_block block1.
Proof. apply block_wf_dec. vm_compute. reflexivity. Qed.

Lemma block2_wf : wf_block block2.
Proof. apply block_wf_dec. vm_compute. reflexivity. Qed.

Definition chain2 : Blockchain := (append_block block2 (append_block block1 chain0).2).2.

Lemma chain0_reachable : reachable genesis chain0.
Proof. exists params, chain0. split; [apply chain0_eq|reflexivity]. Qed.

Lemma chain2_reachable : reachable genesis chain2.
Proof.
  exists params, chain0. split; [apply chain0_eq|]. unfold chain2.
  apply (rtc_l _ _ (append_block block1 chain0).2); [apply step_append, block1_wf|].
  apply rtc_once. apply step_append, block2_wf.
Qed.

Lemma chain0_pool : pool_wf pool.
Proof.
  split; [|apply pool_txs_wf].
  destruct (run_all_implements [MpSubmit (transfer 5); MpSubmit (transfer 1); MpSubmit (transfer 0)]
              (Mempool_new 2) (mp_inv_new 2)) as [_ [Hi _]]. exact Hi.
Qed.

Example chain2_height : bc_len chain2 = 3%nat ∧ height chain2 = 2.
Proof. vm_compute. split; reflexivity. Qed.

Lemma chain_reachable_inv_witness : chain_inv genesis chain2 ∧ wf_state (bc_state chain2).
Proof. apply (chain_reachable_inv genesis chain2); [apply genesis_wf|apply chain2_reachable]. Defined.

Lemma chain_supply_witness : supply (bc_state chain2) = 107 - 3.
Proof.
  destruct (chain_supply genesis chain2 genesis_wf chain2_reachable) as [Hs _]. rewrite Hs.
  vm_compute. reflexivity.
Defined.

Lemma chain_no_double_spend_witness : NoDup (tx_slot <$> chain_txs (drop 1 (bc_blocks chain2))).
Proof. apply (chain_no_double_spend genesis chain2); [apply genesis_wf|apply chain2_reachable]. Defined.

(** The same blocks accepted under the default policy, after a detour. *)
Definition chain0' : Blockchain := mkBlockchain (bc_blocks chain0) (bc_state chain0) ConsensusParams_default.
Definition chain2' : Blockchain :=
  (append_block block2 (append_block block1 (rollback_last_block genesis (append_block block1 chain0').2).2).2).2.

Lemma chain2'_reachable : reachable genesis chain2'.
Proof.
  exists ConsensusParams_default, chain0'. split; [vm_compute; reflexivity|]. unfold chain2'.
  eapply rtc_l; [apply (step_append _ _ block1), block1_wf|]. eapply rtc_l; [apply step_rollback_last|].
  eapply rtc_l; [apply (step_append _ _ block1), block1_wf|]. apply rtc_once. apply step_append, block2_wf.
Qed.

Lemma tip_hash_commits_witness :
  bc_consensus chain2 ≠ bc_consensus chain2'
  ∧ block_core <$> bc_blocks chain2 = block_core <$> bc_blocks chain2' ∧ bc_state chain2 = bc_state chain2'.
Proof.
  split; [vm_compute; discriminate|].
  destruct (tip_hash_commits genesis chain2 chain2' block2 block2) as [Hok|(b1&b2&Hb1&Hb2&Hid&Hcol)].
  - apply genesis_wf.
  - apply chain2_reachable.
  - apply chain2'_reachable.
  - vm_compute. reflexivity.
  - vm_compute. reflexivity.
  - reflexivity.
  - exact Hok.
  - exfalso.
    assert (bc_blocks chain2 = [Block_genesis; block1; block2]) as E1 by (vm_compute; reflexivity).
    assert (bc_blocks chain2' = [Block_genesis; block1; block2]) as E2 by (vm_compute; reflexivity).
    rewrite E1 in Hb1. rewrite E2 in Hb2.
    assert (b1 = b2) as ->.
    { refine (NoDup_fmap_elem blk_block_hash _ b1 b2 _ Hb1 Hb2 Hid).
      apply (bool_decide_unpack _). vm_compute. exact I. }
    destruct Hcol as [[Hne _]|(j&t1&t2&Ht1&Ht2&Hne&_)]; [exact (Hne eq_refl)|].
    rewrite Ht1 in Ht2. injection Ht2 as Ht2. exact (Hne (f_equal _ Ht2)).
Defined.

(** A block that repeats a spent transaction is refused and changes nothing. *)
Lemma append_block_exact_witness :
  (append_block (seal (mkBlock 3 (blk_block_hash block2) 1700000300 [transfer 0] "")) chain2).2 = chain2.
Proof.
  refine (proj2 (append_block_exact _ chain2) _).
  vm_compute. reflexivity.
Defined.

Lemma rollback_inverts_append_witness : rollback_to_height (height chain0) genesis chain2 = (Ok tt, chain0).
Proof.
  refine (proj1 (rollback_inverts_append genesis chain0 [block1; block2] chain2 _ _ _ _)).
  - apply genesis_wf.
  - apply chain0_reachable.
  - constructor; [apply block1_wf|]. constructor; [apply block2_wf|constructor].
  - vm_compute. reflexivity.
Defined.

Lemma seal_commits_witness :
  ∃ c' m', append_block_from_mempool 5 1700000100 (chain0, pool) = (Ok (length [transfer 0]), (c', m'))
    ∧ bc_blocks c' = bc_blocks chain0 ++ [sealed_block Block_genesis [transfer 0] 1700000100]
    ∧ apply_transactions [transfer 0] (bc_state chain0) = (Ok tt, bc_state c')
    ∧ mp_inv m' ∧ clone_fifo m' = filter (λ t, t ∉ [transfer 0]) (clone_fifo pool).
Proof.
  apply (seal_commits genesis chain0 pool 5 1700000100 [transfer 0] Block_genesis).
  - apply genesis_wf.
  - apply chain0_reachable.
  - apply chain0_pool.
  - unfold in_u64, u64_max. lia.
  - vm_compute. reflexivity.
  - vm_compute. discriminate.
  - vm_compute. discriminate.
  - vm_compute. reflexivity.
  - discriminate.
Defined.

Lemma blocks_from_height_slice_witness :
  blocks_from_height_limited chain2 1 1 = take 1 (drop 1 (bc_blocks chain2)).
Proof.
  apply (blocks_from_height_slice genesis chain2 1 1); [|lia]. apply reachable_inv; [apply genesis_wf|apply chain2_reachable].
Defined.
End ChainExample.
