(* ===== verification/Storage.v ===== *)
(** * The block file ([storage.rs])

    The append-only file [chain.blocks] in its two layouts, the store that
    appends to it and the loaders. The parsing loops run on fuel, one unit for
    each frame of at least four bytes: the length of the input is enough
    ([parsers_total]), running out of it would be [Panic]. *)

From Stdlib Require Import ZArith Lia.
From stdpp Require Import base strings list gmap.
From S2P Require Import Prelude Bytes Io Crypto Transaction Block Encoding Genesis Ledger Blockchain.

Definition MAX_FRAME_BYTES : Z := 64 * 1024 * 1024.

Definition CHAIN_FILE_MAGIC_V2 : list byte := str_bytes "TRILBC01".

Inductive ChainFileFormat := Legacy | V2.

#[export] Instance ChainFileFormat_eq_dec : EqDecision ChainFileFormat.
Proof. solve_decision. Defined.

(** ** CRC-32 *)

Definition crc_bit (c : Z) : Z :=
  if negb (Z.land c 1 =? 0) then Z.lxor (Z.shiftr c 1) 3988292384 else Z.shiftr c 1.

(** [for _ in 0..8] *)
Definition crc_byte (c : Z) (byte : byte) : Z :=
  Nat.iter 8 crc_bit (Z.lxor c (byte_to_Z byte)).

Definition crc32_ieee (payload : list byte) : Z :=
  Z.lxor (foldl crc_byte 4294967295 payload) 4294967295.

(** ** Errors *)

Inductive StorageError :=
| StorageIo (e : IoError)
| StorageDecode (s : string)
| StorageReplay (e : ProtocolError)
| StorageGenesis (s : string).

Definition StorageError_display (e : StorageError) : string :=
  match e with
  | StorageIo e => "storage I/O: " +:+ IoError_display e
  | StorageDecode s => "storage decode: " +:+ s
  | StorageReplay e => "chain replay: " +:+ ProtocolError_display e
  | StorageGenesis s => "genesis: " +:+ s
  end.

Definition StorageError_from_encode (e : EncodeError) : StorageError := StorageDecode (EncodeError_display e).

(** ** The store *)

Record BlockStore := mkBlockStore {
  bs_path : string;
  bs_poisoned : bool;
  bs_format : ChainFileFormat;
  bs_v2_magic_on_disk : bool
}.

Definition open_append (path : string) : ST Disk IoError BlockStore :=
  open_create path ;;!
  io_call ;;!                               (* metadata *)
  let! d := sget in
  let len := zlen (file_data d path) in
  if len =? 0 then sret (mkBlockStore path false V2 false)
  else if len <? zlen CHAIN_FILE_MAGIC_V2
  then sfail (mkIoError InvalidData (PFX_STORAGE +:+ " chain.blocks: file too short (" +:+ fmt_uint len
                                     +:+ " bytes) — truncated or corrupt"))
  else
    io_call ;;!                             (* seek to the start *)
    io_call ;;!                             (* read_exact *)
    let hdr := byte_slice (file_data d path) 0 8 in
    let fmt := if decide (hdr = CHAIN_FILE_MAGIC_V2) then (V2, true) else (Legacy, false) in
    io_call ;;!                             (* seek to the end *)
    sret (mkBlockStore path false (fst fmt) (snd fmt)).

Definition set_poisoned (st : BlockStore) : BlockStore :=
  mkBlockStore (bs_path st) true (bs_format st) (bs_v2_magic_on_disk st).

Definition set_magic_on_disk (st : BlockStore) : BlockStore :=
  mkBlockStore (bs_path st) (bs_poisoned st) (bs_format st) true.

(** A file call of the store. *)
Definition on_disk {A} (m : ST Disk IoError A) : ST (BlockStore * Disk) IoError A := λ '(st, d),
  let '(r, d') := m d in (r, (st, d')).

Definition frame_bytes (format : ChainFileFormat) (len : Z) (payload : list byte) : list byte :=
  match format with
  | Legacy => to_be_bytes_u32 len ++ payload
  | V2 => to_be_bytes_u32 len ++ payload ++ to_be_bytes_u32 (crc32_ieee payload)
  end.

(** The closure of [append_payload]. *)
Definition append_frame (len : Z) (payload : list byte) : ST (BlockStore * Disk) IoError unit :=
  let! s0 := sget in
  let st := fst s0 in
  (if decide (bs_format st = V2 ∧ bs_v2_magic_on_disk st = false) then
     on_disk (write_all_append (bs_path st) CHAIN_FILE_MAGIC_V2) ;;!
     on_disk io_call ;;!
     let! s1 := sget in
     sput (set_magic_on_disk (fst s1), snd s1)
   else sret tt) ;;!
  on_disk (write_all_append (bs_path st) (frame_bytes (bs_format st) len payload)) ;;!
  on_disk io_call.

Definition append_payload (payload : list byte) : ST (BlockStore * Disk) IoError unit := λ '(st, d),
  if bs_poisoned st
  then (Err (mkIoError Other (PFX_STORAGE +:+ " fail-closed: refusing chain.blocks append after a prior write/sync failure (on-disk state may be inconsistent — stop and repair or restore chain.blocks)")),
        (st, d))
  else if u32_max <? zlen payload
  then (Err (mkIoError InvalidInput "encoded block exceeds u32 frame length"), (st, d))
  else
    let len := zlen payload in
    if MAX_FRAME_BYTES <? len
    then (Err (mkIoError InvalidInput "encoded block exceeds MAX_FRAME_BYTES"), (st, d))
    else
      match append_frame len payload (st, d) with
      | (Err e, (st', d')) => (Err e, (set_poisoned st', d'))
      | ok => ok
      end.

Definition store_append_block (block : Block) : ST (BlockStore * Disk) IoError unit :=
  let! payload := slift (expect (encode_block block)) in
  append_payload payload.

(** ** The parsers *)

Fixpoint parse_legacy_prefix_from (fuel : nat) (data : list byte) (pos : Z) (out : list Block) :
    Res StorageError (list Block * Z) :=
  if negb (pos <? zlen data) then Ok (out, pos)
  else
    match fuel with
    | O => Panic
    | S f =>
      let frame_start := pos in
      if zlen data <? pos + 4 then Ok (out, pos)
      else
        let len := u32_at data pos in
        let pos := pos + 4 in
        if MAX_FRAME_BYTES <? len then Err (StorageDecode "frame exceeds max size")
        else if zlen data <? pos + len then Ok (out, frame_start)
        else
          let payload := byte_slice data pos (pos + len) in
          let pos := pos + len in
          let? block := map_err StorageError_from_encode (decode_block payload) in
          parse_legacy_prefix_from f data pos (out ++ [block])
    end.

Definition parse_legacy_block_frames_prefix (data : list byte) : Res StorageError (list Block * Z) :=
  parse_legacy_prefix_from (length data) data 0 [].

Definition crc_mismatch (stored expected : Z) : StorageError :=
  StorageDecode ("v2 frame crc mismatch (stored " +:+ fmt_hex_alt stored +:+ " != expected "
                 +:+ fmt_hex_alt expected +:+ ")").

Fixpoint parse_v2_prefix_from (fuel : nat) (data : list byte) (pos : Z) (out : list Block) :
    Res StorageError (list Block * Z) :=
  if negb (pos <? zlen data) then Ok (out, pos)
  else
    match fuel with
    | O => Panic
    | S f =>
      let frame_start := pos in
      if zlen data <? pos + 4 then Ok (out, pos)
      else
        let len := u32_at data pos in
        let pos := pos + 4 in
        if MAX_FRAME_BYTES <? len then Err (StorageDecode "frame exceeds max size (v2)")
        else
          let? end_payload := ok_or (checked_add pos len) (StorageDecode "v2 frame length overflow") in
          if zlen data <? end_payload + 4 then Ok (out, frame_start)
          else
            let payload := byte_slice data pos end_payload in
            let stored_crc := u32_at data end_payload in
            let expected := crc32_ieee payload in
            if negb (stored_crc =? expected) then Err (crc_mismatch stored_crc expected)
            else
              let pos := end_payload + 4 in
              let? block := map_err StorageError_from_encode (decode_block payload) in
              parse_v2_prefix_from f data pos (out ++ [block])
    end.

Definition parse_v2_block_frames_prefix (data : list byte) : Res StorageError (list Block * Z) :=
  parse_v2_prefix_from (length data) data 0 [].

Fixpoint parse_legacy_from (fuel : nat) (data : list byte) (pos : Z) (out : list Block) :
    Res StorageError (list Block) :=
  if negb (pos <? zlen data) then Ok out
  else
    match fuel with
    | O => Panic
    | S f =>
      if zlen data <? pos + 4 then Err (StorageDecode "truncated frame length")
      else
        let len := u32_at data pos in
        let pos := pos + 4 in
        if MAX_FRAME_BYTES <? len then Err (StorageDecode "frame exceeds max size")
        else if zlen data <? pos + len then Err (StorageDecode "truncated frame body")
        else
          let payload := byte_slice data pos (pos + len) in
          let pos := pos + len in
          let? block := map_err StorageError_from_encode (decode_block payload) in
          parse_legacy_from f data pos (out ++ [block])
    end.

Definition parse_legacy_block_frames (data : list byte) : Res StorageError (list Block) :=
  parse_legacy_from (length data) data 0 [].

Fixpoint parse_v2_from (fuel : nat) (data : list byte) (pos : Z) (out : list Block) :
    Res StorageError (list Block) :=
  if negb (pos <? zlen data) then Ok out
  else
    match fuel with
    | O => Panic
    | S f =>
      if zlen data <? pos + 4 then Err (StorageDecode "truncated frame length (v2)")
      else
        let len := u32_at data pos in
        let pos := pos + 4 in
        if MAX_FRAME_BYTES <? len then Err (StorageDecode "frame exceeds max size (v2)")
        else
          let? end_payload := ok_or (checked_add pos len) (StorageDecode "v2 frame length overflow") in
          if zlen data <? end_payload + 4 then Err (StorageDecode "truncated v2 frame (crc or body)")
          else
            let payload := byte_slice data pos end_payload in
            let stored_crc := u32_at data end_payload in
            let pos := end_payload + 4 in
            let expected := crc32_ieee payload in
            if negb (stored_crc =? expected) then Err (crc_mismatch stored_crc expected)
            else
              let? block := map_err StorageError_from_encode (decode_block payload) in
              parse_v2_from f data pos (out ++ [block])
    end.

Definition parse_v2_block_frames (data : list byte) : Res StorageError (list Block) :=
  parse_v2_from (length data) data 0 [].

(** The layout of a non-empty file, and where its frames start. *)
Definition file_format (data : list byte) : ChainFileFormat * Z :=
  if (zlen CHAIN_FILE_MAGIC_V2 <=? zlen data)
     && bool_decide (byte_slice data 0 (zlen CHAIN_FILE_MAGIC_V2) = CHAIN_FILE_MAGIC_V2)
  then (V2, zlen CHAIN_FILE_MAGIC_V2) else (Legacy, 0).

Definition storage_io {A} (m : ST Disk IoError A) : ST Disk StorageError A := λ d,
  let '(r, d') := m d in (map_err StorageIo r, d').

Definition read_all_blocks (path : string) : ST Disk StorageError (list Block) :=
  let! ex := path_exists path in
  if negb ex then sret []
  else
    let! data := storage_io (fs_read path) in
    if zlen data =? 0 then sret []
    else
      let '(format, body_off) := file_format data in
      let body := drop (Z.to_nat body_off) data in
      slift (match format with
             | Legacy => parse_legacy_block_frames body
             | V2 => parse_v2_block_frames body
             end).

Definition read_all_blocks_repairing_tail (path : string) : ST Disk StorageError (list Block * bool) :=
  let! ex := path_exists path in
  if negb ex then sret ([], false)
  else
    let! data := storage_io (fs_read path) in
    if zlen data =? 0 then sret ([], false)
    else
      let '(format, body_off) := file_format data in
      let body := drop (Z.to_nat body_off) data in
      let! (blocks, consumed_in_body) :=
        slift (match format with
               | Legacy => parse_legacy_block_frames_prefix body
               | V2 => parse_v2_block_frames_prefix body
               end) in
      let valid_end := body_off + consumed_in_body in
      let repaired := valid_end <? zlen data in
      (if repaired then
         if Nat.eqb (length blocks) 0 && (consumed_in_body =? 0)
         then sfail (StorageDecode "chain.blocks corrupt or truncated (no complete block frame)")
         else
           let trailing := zlen data - valid_end in
           if 4 <=? trailing
           then sfail (StorageDecode "chain.blocks truncated after last complete block frame")
           else storage_io (fs_write path (take (Z.to_nat valid_end) data))
       else sret tt) ;;!
      sret (blocks, repaired).

Section load.
Context `{CryptoLib}.

Definition chain_from_genesis (genesis : Genesis) : Res StorageError Blockchain :=
  map_err (λ e, match e with GenesisError s => StorageGenesis s | other => StorageReplay other end)
    (from_genesis genesis).

Definition load_blockchain_from_disk (path : string) (genesis : Genesis) :
    ST Disk StorageError (Blockchain * bool) :=
  let! (blocks, repaired) := read_all_blocks_repairing_tail path in
  let! chain := slift (chain_from_genesis genesis) in
  let! chain := slift (exec_on (λ c, let '(r, c') := sfor append_block blocks c in
                                     (map_err StorageReplay r, c')) chain) in
  sret (chain, repaired).
End load.
