(* ===== verification/StorageSpec.v ===== *)
(** * Durability of the block file ([storage.rs])

    The checksum detects every change of one byte; what was appended is read
    back; an append that was cut short at any byte is either invisible,
    repaired or reported, and never read as a block; a store that failed once
    writes nothing more; a chain written block by block is reloaded as it
    was. *)

From Stdlib Require Import ZArith Lia.
From stdpp Require Import base strings list gmap.
From S2P Require Import Prelude Bytes Io Crypto Transaction Wallet Block Encoding Genesis Ledger Mempool MempoolQueue Blockchain Storage.

(** ** CRC-32 *)

Definition word32 (c : Z) : Prop := 0 ≤ c < 2 ^ 32.

Lemma lxor_word32 a b : word32 a → word32 b → word32 (Z.lxor a b).
Proof.
  intros [Ha0 Ha] [Hb0 Hb]. assert (0 ≤ Z.lxor a b) as Hn by (apply Z.lxor_nonneg; lia).
  split; [done|]. destruct (Z.eq_dec (Z.lxor a b) 0) as [->|]; [lia|].
  apply Z.log2_lt_pow2; [lia|]. pose proof (Z.log2_lxor a b Ha0 Hb0) as Hl.
  assert (∀ x, 0 ≤ x < 2 ^ 32 → Z.log2 x < 32) as Hx.
  { intros x Hx. destruct (Z.eq_dec x 0) as [->|]; [simpl; lia|]. apply Z.log2_lt_pow2; lia. }
  pose proof (Hx a ltac:(lia)). pose proof (Hx b ltac:(lia)). lia.
Qed.

Lemma lxor_inj_r p a b : Z.lxor a p = Z.lxor b p → a = b.
Proof.
  intros Heq%(f_equal (λ x, Z.lxor x p)). by rewrite !Z.lxor_assoc, !Z.lxor_nilpotent, !Z.lxor_0_r in Heq.
Qed.

Lemma byte_word32 b : word32 (byte_to_Z b).
Proof. pose proof (byte_to_Z_range b). unfold word32. lia. Qed.

Lemma crc_bit_word32 c : word32 c → word32 (crc_bit c).
Proof.
  intros [H0 H1]. assert (word32 (Z.shiftr c 1)) as Hs.
  { rewrite Z.shiftr_div_pow2 by lia. change (2 ^ 1) with 2. split.
    - apply Z.div_pos; lia.
    - apply Z.div_lt_upper_bound; lia. }
  unfold crc_bit. case_match; [|done]. apply lxor_word32; [done|]. unfold word32. lia.
Qed.

(** The top bit of the result is the bit that was shifted out. *)
Lemma crc_bit_top c : word32 c → Z.testbit (crc_bit c) 31 = negb (Z.land c 1 =? 0).
Proof.
  intros [H0 H1]. assert (Z.testbit (Z.shiftr c 1) 31 = false) as Hs.
  { rewrite Z.shiftr_spec by lia. change (31 + 1) with 32.
    destruct (Z.eq_dec c 0) as [->|]; [done|]. apply Z.bits_above_log2; [lia|]. apply Z.log2_lt_pow2; lia. }
  unfold crc_bit. destruct (Z.land c 1 =? 0); cbn [negb]; [done|]. by rewrite Z.lxor_spec, Hs.
Qed.

Lemma crc_bit_inj c c' : word32 c → word32 c' → crc_bit c = crc_bit c' → c = c'.
Proof.
  intros Hc Hc' Heq. pose proof (crc_bit_top c Hc) as H1. pose proof (crc_bit_top c' Hc') as H2.
  rewrite Heq, H2 in H1. unfold crc_bit in Heq. rewrite H1 in Heq.
  assert (Z.shiftr c 1 = Z.shiftr c' 1) as Hs by (destruct (negb _); [by apply lxor_inj_r in Heq|done]).
  rewrite !Z.shiftr_div_pow2 in Hs by lia. change (2 ^ 1) with 2 in Hs.
  change 1 with (Z.ones 1) in H1. rewrite !Z.land_ones in H1 by lia. change (2 ^ 1) with 2 in H1.
  pose proof (Z.div_mod c 2 ltac:(lia)). pose proof (Z.div_mod c' 2 ltac:(lia)).
  pose proof (Z.mod_pos_bound c 2 ltac:(lia)). pose proof (Z.mod_pos_bound c' 2 ltac:(lia)).
  destruct (Z.eqb_spec (c mod 2) 0), (Z.eqb_spec (c' mod 2) 0); simpl in H1; (discriminate H1 || lia).
Qed.

Lemma crc_iter_word32 n c : word32 c → word32 (Nat.iter n crc_bit c).
Proof. intros Hc. induction n as [|n IH]; simpl; [done|]. by apply crc_bit_word32. Qed.

Lemma crc_iter_inj n c c' :
  word32 c → word32 c' → Nat.iter n crc_bit c = Nat.iter n crc_bit c' → c = c'.
Proof.
  intros Hc Hc'. induction n as [|n IH]; simpl; [done|]. intros Heq. apply IH.
  apply crc_bit_inj in Heq; [done|by apply crc_iter_word32..].
Qed.

Lemma crc_byte_word32 c b : word32 c → word32 (crc_byte c b).
Proof. intros Hc. apply crc_iter_word32, lxor_word32; [done|apply byte_word32]. Qed.

Lemma crc_byte_inj_state c c' b : word32 c → word32 c' → crc_byte c b = crc_byte c' b → c = c'.
Proof.
  intros Hc Hc' Heq. apply (lxor_inj_r (byte_to_Z b)).
  apply (crc_iter_inj 8); [apply lxor_word32; [done|apply byte_word32]..|exact Heq].
Qed.

Lemma crc_byte_inj_byte c b b' : word32 c → crc_byte c b = crc_byte c b' → b = b'.
Proof.
  intros Hc Heq. apply byte_to_Z_inj, (lxor_inj_r c). rewrite !(Z.lxor_comm _ c).
  apply (crc_iter_inj 8); [apply lxor_word32; [done|apply byte_word32]..|exact Heq].
Qed.

Lemma crc_fold_word32 l c : word32 c → word32 (foldl crc_byte c l).
Proof. revert c. induction l as [|b l IH]; intros c Hc; simpl; [done|]. by apply IH, crc_byte_word32. Qed.

Lemma crc_fold_inj l c c' :
  word32 c → word32 c' → foldl crc_byte c l = foldl crc_byte c' l → c = c'.
Proof.
  revert c c'. induction l as [|b l IH]; intros c c' Hc Hc' Heq; simpl in Heq; [done|].
  apply IH in Heq; [|by apply crc_byte_word32..]. by apply crc_byte_inj_state in Heq.
Qed.

Lemma crc_start_word32 : word32 4294967295.
Proof. unfold word32. lia. Qed.

Lemma crc32_range payload : in_u32 (crc32_ieee payload).
Proof.
  pose proof (crc_fold_word32 payload _ crc_start_word32) as Hw. unfold crc32_ieee.
  destruct (lxor_word32 _ _ Hw crc_start_word32). unfold in_u32, u32_max. lia.
Qed.

Lemma crc32_one_byte l1 b b' l2 : b ≠ b' → crc32_ieee (l1 ++ b :: l2) ≠ crc32_ieee (l1 ++ b' :: l2).
Proof.
  intros Hne Heq. apply Hne. unfold crc32_ieee in Heq. apply lxor_inj_r in Heq.
  rewrite !foldl_app in Heq. cbn [foldl] in Heq.
  pose proof (crc_fold_word32 l1 _ crc_start_word32) as Hw.
  eapply crc_byte_inj_byte; [exact Hw|].
  eapply crc_fold_inj; [by apply crc_byte_word32..|exact Heq].
Qed.

(** ** Frames *)

(** [p] is the payload of a frame that decodes to [b]. *)
Definition stored_as (p : list byte) (b : Block) : Prop :=
  decode_block p = Ok b ∧ zlen p ≤ MAX_FRAME_BYTES.

Definition frame (fmt : ChainFileFormat) (p : list byte) : list byte := frame_bytes fmt (zlen p) p.

Definition frames (fmt : ChainFileFormat) (ps : list (list byte)) : list byte := ps ≫= frame fmt.

Definition parse_prefix_from (fmt : ChainFileFormat) :=
  match fmt with Legacy => parse_legacy_prefix_from | V2 => parse_v2_prefix_from end.

Definition parse_strict_from (fmt : ChainFileFormat) :=
  match fmt with Legacy => parse_legacy_from | V2 => parse_v2_from end.

Definition crc_len (fmt : ChainFileFormat) : Z := match fmt with Legacy => 0 | V2 => 4 end.

Lemma zlen_frame fmt p : zlen (frame fmt p) = 4 + zlen p + crc_len fmt.
Proof. destruct fmt; unfold frame, frame_bytes, crc_len; rewrite !zlen_app, !zlen_be_u32; lia. Qed.

Lemma frames_app fmt ps qs : frames fmt (ps ++ qs) = frames fmt ps ++ frames fmt qs.
Proof. apply bind_app. Qed.

Lemma frames_cons fmt p ps : frames fmt (p :: ps) = frame fmt p ++ frames fmt ps.
Proof. done. Qed.

Lemma stored_len_u32 p b : stored_as p b → in_u32 (zlen p).
Proof. intros [_ Hl]. pose proof (zlen_nonneg p). unfold in_u32, u32_max, MAX_FRAME_BYTES in *. lia. Qed.

(** What the parsers see at the start of a frame. *)
Lemma frame_fields fmt p rest data pos :
  in_u32 (zlen p) → at_pos data pos (frame fmt p ++ rest) →
  u32_at data pos = zlen p ∧ byte_slice data (pos + 4) (pos + 4 + zlen p) = p
  ∧ zlen data = pos + zlen (frame fmt p) + zlen rest
  ∧ at_pos data (pos + zlen (frame fmt p)) rest
  ∧ (fmt = V2 → u32_at data (pos + 4 + zlen p) = crc32_ieee p).
Proof.
  intros Hp Hat. split_and!.
  - destruct fmt; unfold frame, frame_bytes in Hat; rewrite <- (assoc_L (++)) in Hat; by eapply at_pos_u32.
  - destruct fmt; unfold frame, frame_bytes in Hat; rewrite <- !(assoc_L (++)) in Hat;
      apply at_pos_advance in Hat; rewrite zlen_be_u32 in Hat; by apply at_pos_slice in Hat.
  - rewrite (at_pos_len _ _ _ Hat), zlen_app. lia.
  - by apply at_pos_advance.
  - intros ->. unfold frame, frame_bytes in Hat. rewrite <- !(assoc_L (++)) in Hat.
    apply at_pos_advance in Hat. rewrite zlen_be_u32 in Hat. apply at_pos_advance in Hat.
    eapply at_pos_u32; [apply crc32_range|exact Hat].
Qed.

Lemma parse_prefix_step fmt f data pos out p b rest :
  stored_as p b → zlen data ≤ isize_max → at_pos data pos (frame fmt p ++ rest) →
  parse_prefix_from fmt (S f) data pos out
  = parse_prefix_from fmt f data (pos + zlen (frame fmt p)) (out ++ [b]).
Proof.
  intros Hs Hmax Hat. pose proof (stored_len_u32 _ _ Hs) as Hu. destruct Hs as [Hdec Hlen].
  destruct (frame_fields _ _ _ _ _ Hu Hat) as (H1&H2&H3&H4&H5).
  pose proof (zlen_nonneg p). pose proof (zlen_nonneg rest). rewrite zlen_frame in *.
  assert (0 ≤ pos) by (destruct H4; unfold crc_len in *; destruct fmt; destruct Hat; lia).
  destruct fmt; cbn [parse_prefix_from parse_legacy_prefix_from parse_v2_prefix_from crc_len] in *; rewrite H1.
  - destruct (Z.ltb_spec pos (zlen data)); [|lia]. cbn [negb].
    destruct (Z.ltb_spec (zlen data) (pos + 4)); [lia|].
    destruct (Z.ltb_spec MAX_FRAME_BYTES (zlen p)); [lia|].
    destruct (Z.ltb_spec (zlen data) (pos + 4 + zlen p)); [lia|].
    rewrite H2, Hdec. cbn [map_err rbind]. f_equal. lia.
  - destruct (Z.ltb_spec pos (zlen data)); [|lia]. cbn [negb].
    destruct (Z.ltb_spec (zlen data) (pos + 4)); [lia|].
    destruct (Z.ltb_spec MAX_FRAME_BYTES (zlen p)); [lia|].
    assert (checked_add (pos + 4) (zlen p) = Some (pos + 4 + zlen p)) as -> by (apply checked_add_Some; unfold isize_max, u64_max in *; lia).
    cbn [ok_or rbind]. destruct (Z.ltb_spec (zlen data) (pos + 4 + zlen p + 4)); [lia|].
    rewrite H2, H5 by done. rewrite Z.eqb_refl, Hdec. cbn [map_err rbind negb]. f_equal. lia.
Qed.

Lemma parse_strict_step fmt f data pos out p b rest :
  stored_as p b → zlen data ≤ isize_max → at_pos data pos (frame fmt p ++ rest) →
  parse_strict_from fmt (S f) data pos out
  = parse_strict_from fmt f data (pos + zlen (frame fmt p)) (out ++ [b]).
Proof.
  intros Hs Hmax Hat. pose proof (stored_len_u32 _ _ Hs) as Hu. destruct Hs as [Hdec Hlen].
  destruct (frame_fields _ _ _ _ _ Hu Hat) as (H1&H2&H3&H4&H5).
  pose proof (zlen_nonneg p). pose proof (zlen_nonneg rest). rewrite zlen_frame in *.
  assert (0 ≤ pos) by (destruct Hat; lia).
  destruct fmt; cbn [parse_strict_from parse_legacy_from parse_v2_from crc_len] in *; rewrite H1.
  - destruct (Z.ltb_spec pos (zlen data)); [|lia]. cbn [negb].
    destruct (Z.ltb_spec (zlen data) (pos + 4)); [lia|].
    destruct (Z.ltb_spec MAX_FRAME_BYTES (zlen p)); [lia|].
    destruct (Z.ltb_spec (zlen data) (pos + 4 + zlen p)); [lia|].
    rewrite H2, Hdec. cbn [map_err rbind]. f_equal. lia.
  - destruct (Z.ltb_spec pos (zlen data)); [|lia]. cbn [negb].
    destruct (Z.ltb_spec (zlen data) (pos + 4)); [lia|].
    destruct (Z.ltb_spec MAX_FRAME_BYTES (zlen p)); [lia|].
    assert (checked_add (pos + 4) (zlen p) = Some (pos + 4 + zlen p)) as -> by (apply checked_add_Some; unfold isize_max, u64_max in *; lia).
    cbn [ok_or rbind]. destruct (Z.ltb_spec (zlen data) (pos + 4 + zlen p + 4)); [lia|].
    rewrite H2, H5 by done. rewrite Z.eqb_refl, Hdec. cbn [map_err rbind negb]. f_equal. lia.
Qed.

(** Complete frames are read one after the other, whatever follows them. *)
Lemma parse_prefix_frames fmt ps bs f data pos out rest :
  Forall2 stored_as ps bs → zlen data ≤ isize_max → at_pos data pos (frames fmt ps ++ rest) →
  parse_prefix_from fmt (length ps + f) data pos out
  = parse_prefix_from fmt f data (pos + zlen (frames fmt ps)) (out ++ bs).
Proof.
  intros Hs Hmax. revert pos out. induction Hs as [|p b ps bs Hp Hs IH]; intros pos out Hat.
  { cbn [length Nat.add frames]. change (frames fmt []) with (@nil byte). rewrite app_nil_r.
    f_equal. change (zlen (@nil byte)) with 0. lia. }
  rewrite frames_cons in *. rewrite <- (assoc_L (++)) in Hat.
  change (length (p :: ps) + f)%nat with (S (length ps + f)).
  rewrite (parse_prefix_step _ _ _ _ _ _ _ _ Hp Hmax Hat), IH by (by apply at_pos_advance).
  rewrite zlen_app, <- (assoc_L (++)). f_equal. lia.
Qed.

Lemma parse_strict_frames fmt ps bs f data pos out rest :
  Forall2 stored_as ps bs → zlen data ≤ isize_max → at_pos data pos (frames fmt ps ++ rest) →
  parse_strict_from fmt (length ps + f) data pos out
  = parse_strict_from fmt f data (pos + zlen (frames fmt ps)) (out ++ bs).
Proof.
  intros Hs Hmax. revert pos out. induction Hs as [|p b ps bs Hp Hs IH]; intros pos out Hat.
  { change (frames fmt []) with (@nil byte). rewrite app_nil_r.
    change (length [] + f)%nat with f. f_equal. change (zlen (@nil byte)) with 0. lia. }
  rewrite frames_cons in *. rewrite <- (assoc_L (++)) in Hat.
  change (length (p :: ps) + f)%nat with (S (length ps + f)).
  rewrite (parse_strict_step _ _ _ _ _ _ _ _ Hp Hmax Hat), IH by (by apply at_pos_advance).
  rewrite zlen_app, <- (assoc_L (++)). f_equal. lia.
Qed.

Lemma at_pos_partial_len fmt p k data pos :
  in_u32 (zlen p) → at_pos data pos (take k (frame fmt p)) → (4 ≤ k)%nat → u32_at data pos = zlen p.
Proof.
  intros Hp Hat Hk. assert (∃ more, frame fmt p = to_be_bytes_u32 (zlen p) ++ more) as [more Hm].
  { destruct fmt; unfold frame, frame_bytes; by eexists. }
  rewrite Hm, take_app_ge in Hat.
  - by eapply at_pos_u32.
  - unfold to_be_bytes_u32. rewrite length_be_bytes. lia.
Qed.

(** A cut frame is left alone by the prefix parsers and reported by the strict
    ones. *)
Lemma parse_prefix_cut fmt f data pos out p b k :
  stored_as p b → zlen data ≤ isize_max → (k < length (frame fmt p))%nat →
  at_pos data pos (take k (frame fmt p)) →
  parse_prefix_from fmt (if Nat.eqb k 0 then f else S f) data pos out = Ok (out, pos).
Proof.
  intros Hs Hmax Hk Hat. pose proof (stored_len_u32 _ _ Hs) as Hu. destruct Hs as [_ Hlen].
  pose proof (at_pos_len _ _ _ Hat) as Hd. unfold zlen in Hd at 2. rewrite length_take_le in Hd by lia.
  pose proof (zlen_frame fmt p) as Hf. unfold zlen in Hf at 1. assert (0 ≤ pos) by (destruct Hat; lia).
  pose proof (zlen_nonneg p).
  destruct (Nat.eqb_spec k 0) as [->|Hk0].
  { destruct fmt, f; cbn [parse_prefix_from parse_legacy_prefix_from parse_v2_prefix_from];
      (destruct (Z.ltb_spec pos (zlen data)); [lia|done]). }
  destruct fmt; cbn [parse_prefix_from parse_legacy_prefix_from parse_v2_prefix_from crc_len] in *.
  - destruct (Z.ltb_spec pos (zlen data)); [|lia]. cbn [negb].
    destruct (Z.ltb_spec (zlen data) (pos + 4)) as [|H4]; [done|].
    rewrite (at_pos_partial_len Legacy p k) by (done || lia).
    destruct (Z.ltb_spec MAX_FRAME_BYTES (zlen p)); [lia|].
    destruct (Z.ltb_spec (zlen data) (pos + 4 + zlen p)); [done|lia].
  - destruct (Z.ltb_spec pos (zlen data)); [|lia]. cbn [negb].
    destruct (Z.ltb_spec (zlen data) (pos + 4)) as [|H4]; [done|].
    rewrite (at_pos_partial_len V2 p k) by (done || lia).
    destruct (Z.ltb_spec MAX_FRAME_BYTES (zlen p)); [lia|].
    destruct (checked_add (pos + 4) (zlen p)) as [e|] eqn:He.
    + apply checked_add_Some in He as [_ ->]. cbn [ok_or rbind].
      destruct (Z.ltb_spec (zlen data) (pos + 4 + zlen p + 4)); [done|lia].
    + apply checked_add_None in He. unfold MAX_FRAME_BYTES, isize_max, u64_max in *. lia.
Qed.

Lemma parse_strict_cut fmt f data pos out p b k :
  stored_as p b → zlen data ≤ isize_max → (0 < k < length (frame fmt p))%nat →
  at_pos data pos (take k (frame fmt p)) →
  ∃ msg, parse_strict_from fmt (S f) data pos out = Err (StorageDecode msg).
Proof.
  intros Hs Hmax Hk Hat. pose proof (stored_len_u32 _ _ Hs) as Hu. destruct Hs as [_ Hlen].
  pose proof (at_pos_len _ _ _ Hat) as Hd. unfold zlen in Hd at 2. rewrite length_take_le in Hd by lia.
  pose proof (zlen_frame fmt p) as Hf. unfold zlen in Hf at 1. assert (0 ≤ pos) by (destruct Hat; lia).
  destruct fmt; cbn [parse_strict_from parse_legacy_from parse_v2_from crc_len] in *.
  - destruct (Z.ltb_spec pos (zlen data)); [|lia]. cbn [negb].
    destruct (Z.ltb_spec (zlen data) (pos + 4)) as [|H4]; [by eexists|].
    rewrite (at_pos_partial_len Legacy p k) by (done || lia).
    destruct (Z.ltb_spec MAX_FRAME_BYTES (zlen p)); [lia|].
    destruct (Z.ltb_spec (zlen data) (pos + 4 + zlen p)); [by eexists|lia].
  - destruct (Z.ltb_spec pos (zlen data)); [|lia]. cbn [negb].
    destruct (Z.ltb_spec (zlen data) (pos + 4)) as [|H4]; [by eexists|].
    rewrite (at_pos_partial_len V2 p k) by (done || lia).
    destruct (Z.ltb_spec MAX_FRAME_BYTES (zlen p)); [lia|].
    destruct (checked_add (pos + 4) (zlen p)) as [e|] eqn:He; [|by eexists].
    apply checked_add_Some in He as [_ ->]. cbn [ok_or rbind].
    destruct (Z.ltb_spec (zlen data) (pos + 4 + zlen p + 4)); [by eexists|lia].
Qed.

(** A V2 frame whose payload or checksum does not match is reported. *)
Lemma parse_v2_corrupt f data pos out len p crc rest :
  len = zlen p → zlen p ≤ MAX_FRAME_BYTES → zlen data ≤ isize_max → in_u32 crc → crc ≠ crc32_ieee p →
  at_pos data pos (to_be_bytes_u32 len ++ p ++ to_be_bytes_u32 crc ++ rest) →
  (∃ msg, parse_v2_prefix_from (S f) data pos out = Err (StorageDecode msg))
  ∧ (∃ msg, parse_v2_from (S f) data pos out = Err (StorageDecode msg)).
Proof.
  intros -> Hlen Hmax Hcrc Hne Hat. pose proof (at_pos_len _ _ _ Hat) as Hd.
  rewrite !zlen_app, !zlen_be_u32 in Hd. pose proof (zlen_nonneg p). pose proof (zlen_nonneg rest).
  assert (0 ≤ pos) by (destruct Hat; lia).
  assert (u32_at data pos = zlen p) as Hx1.
  { eapply at_pos_u32; [|exact Hat]. unfold in_u32, u32_max, MAX_FRAME_BYTES in *. lia. }
  apply at_pos_advance in Hat. rewrite zlen_be_u32 in Hat. pose proof (at_pos_slice _ _ _ _ Hat) as Hx2.
  apply at_pos_advance in Hat. pose proof (at_pos_u32 _ _ _ _ Hcrc Hat) as Hx3.
  cbn [parse_v2_prefix_from parse_v2_from]. rewrite Hx1.
  destruct (Z.ltb_spec pos (zlen data)); [|lia]. cbn [negb].
  destruct (Z.ltb_spec (zlen data) (pos + 4)); [lia|].
  destruct (Z.ltb_spec MAX_FRAME_BYTES (zlen p)); [lia|].
  assert (checked_add (pos + 4) (zlen p) = Some (pos + 4 + zlen p)) as ->
    by (apply checked_add_Some; unfold isize_max, u64_max in *; lia).
  cbn [ok_or rbind]. destruct (Z.ltb_spec (zlen data) (pos + 4 + zlen p + 4)); [lia|].
  rewrite Hx2, Hx3. destruct (Z.eqb_spec crc (crc32_ieee p)); [done|]. cbn [negb]. split; by eexists.
Qed.

(** ** Whole files *)

Lemma frames_length fmt ps : (4 * length ps ≤ length (frames fmt ps))%nat.
Proof.
  induction ps as [|p ps IH]; [simpl; lia|]. rewrite frames_cons, length_app.
  pose proof (zlen_frame fmt p) as Hf. pose proof (zlen_nonneg p). unfold zlen in Hf at 1. unfold crc_len in Hf.
  change (length (p :: ps)) with (S (length ps)). destruct fmt; lia.
Qed.

(** A body of complete frames followed by the first [k] bytes of another. *)
Lemma parse_prefix_body fmt ps bs p b k body :
  Forall2 stored_as ps bs → stored_as p b → (k < length (frame fmt p))%nat →
  body = frames fmt ps ++ take k (frame fmt p) → zlen body ≤ isize_max →
  parse_prefix_from fmt (length body) body 0 [] = Ok (bs, zlen (frames fmt ps)).
Proof.
  intros Hps Hp Hk Hb Hmax. pose proof (frames_length fmt ps) as Hl.
  assert (length body = length (frames fmt ps) + k)%nat as Hlb.
  { rewrite Hb, length_app, length_take_le by lia. done. }
  assert (∃ f, length body = length ps + (if Nat.eqb k 0 then f else S f))%nat as [f ->].
  { destruct (Nat.eqb_spec k 0); [exists (length body - length ps)%nat|exists (length body - length ps - 1)%nat]; lia. }
  assert (at_pos body 0 (frames fmt ps ++ take k (frame fmt p))) as Hat by (rewrite <- Hb; apply at_pos_start).
  rewrite (parse_prefix_frames _ _ _ _ _ _ _ _ Hps Hmax Hat). apply at_pos_advance in Hat.
  rewrite (parse_prefix_cut _ _ _ _ _ _ _ _ Hp Hmax Hk Hat). done.
Qed.

Lemma parse_prefix_complete fmt ps bs body :
  Forall2 stored_as ps bs → body = frames fmt ps → zlen body ≤ isize_max →
  parse_prefix_from fmt (length body) body 0 [] = Ok (bs, zlen body).
Proof.
  intros Hps Hb Hmax. pose proof (frames_length fmt ps) as Hl. rewrite <- Hb in Hl.
  assert (∃ f, length body = length ps + f)%nat as [f ->] by (exists (length body - length ps)%nat; lia).
  assert (at_pos body 0 (frames fmt ps ++ [])) as Hat by (rewrite app_nil_r, <- Hb; apply at_pos_start).
  rewrite (parse_prefix_frames _ _ _ _ _ _ _ _ Hps Hmax Hat). rewrite <- Hb, Z.add_0_l, app_nil_l.
  destruct fmt, f; cbn [parse_prefix_from parse_legacy_prefix_from parse_v2_prefix_from];
    (destruct (Z.ltb_spec (zlen body) (zlen body)); [lia|done]).
Qed.

Lemma parse_strict_complete fmt ps bs body :
  Forall2 stored_as ps bs → body = frames fmt ps → zlen body ≤ isize_max →
  parse_strict_from fmt (length body) body 0 [] = Ok bs.
Proof.
  intros Hps Hb Hmax. pose proof (frames_length fmt ps) as Hl. rewrite <- Hb in Hl.
  assert (∃ f, length body = length ps + f)%nat as [f ->] by (exists (length body - length ps)%nat; lia).
  assert (at_pos body 0 (frames fmt ps ++ [])) as Hat by (rewrite app_nil_r, <- Hb; apply at_pos_start).
  rewrite (parse_strict_frames _ _ _ _ _ _ _ _ Hps Hmax Hat). rewrite <- Hb, Z.add_0_l, app_nil_l.
  destruct fmt, f; cbn [parse_strict_from parse_legacy_from parse_v2_from];
    (destruct (Z.ltb_spec (zlen body) (zlen body)); [lia|done]).
Qed.

Lemma u32_at_nonneg data pos : 0 ≤ u32_at data pos.
Proof. apply be_combine_range. Qed.

(** The measure of the parsing loops: what is left of the input. *)
Lemma parse_prefix_total fmt f data pos out :
  zlen data - pos ≤ Z.of_nat f → parse_prefix_from fmt f data pos out ≠ Panic.
Proof.
  revert pos out. induction f as [|f IH]; intros pos out Hf.
  { destruct fmt; cbn [parse_prefix_from parse_legacy_prefix_from parse_v2_prefix_from];
      (destruct (Z.ltb_spec pos (zlen data)); [lia|done]). }
  pose proof (u32_at_nonneg data pos).
  destruct fmt; cbn [parse_prefix_from parse_legacy_prefix_from parse_v2_prefix_from] in *.
  - do 4 next_guard.
    pose proof (decode_block_no_panic (byte_slice data (pos + 4) (pos + 4 + u32_at data pos))).
    destruct (decode_block _); [|done..]. apply IH. lia.
  - do 3 next_guard.
    destruct (checked_add (pos + 4) (u32_at data pos)) as [e|] eqn:He; [|done].
    apply checked_add_Some in He as [_ ->]. cbn [ok_or rbind].
    do 2 next_guard.
    pose proof (decode_block_no_panic (byte_slice data (pos + 4) (pos + 4 + u32_at data pos))).
    destruct (decode_block _); [|done..]. apply IH. lia.
Qed.

Lemma parse_strict_total fmt f data pos out :
  zlen data - pos ≤ Z.of_nat f → parse_strict_from fmt f data pos out ≠ Panic.
Proof.
  revert pos out. induction f as [|f IH]; intros pos out Hf.
  { destruct fmt; cbn [parse_strict_from parse_legacy_from parse_v2_from];
      (destruct (Z.ltb_spec pos (zlen data)); [lia|done]). }
  pose proof (u32_at_nonneg data pos).
  destruct fmt; cbn [parse_strict_from parse_legacy_from parse_v2_from] in *.
  - do 4 next_guard.
    pose proof (decode_block_no_panic (byte_slice data (pos + 4) (pos + 4 + u32_at data pos))).
    destruct (decode_block _); [|done..]. apply IH. lia.
  - do 3 next_guard.
    destruct (checked_add (pos + 4) (u32_at data pos)) as [e|] eqn:He; [|done].
    apply checked_add_Some in He as [_ ->]. cbn [ok_or rbind].
    do 2 next_guard.
    pose proof (decode_block_no_panic (byte_slice data (pos + 4) (pos + 4 + u32_at data pos))).
    destruct (decode_block _); [|done..]. apply IH. lia.
Qed.

(** What is left starts with a frame if its fields check. *)
Lemma frame_at fmt data pos rest len :
  at_pos data pos rest → u32_at data pos = len → len ≤ MAX_FRAME_BYTES → pos + 4 + len + crc_len fmt ≤ zlen data →
  (fmt = V2 → u32_at data (pos + 4 + len) = crc32_ieee (byte_slice data (pos + 4) (pos + 4 + len))) →
  ∃ p rest', rest = frame fmt p ++ rest' ∧ byte_slice data (pos + 4) (pos + 4 + len) = p ∧ zlen p = len
    ∧ at_pos data (pos + zlen (frame fmt p)) rest'.
Proof.
  intros Hat Hlen Hmax Hend Hcrc. assert (0 ≤ len) as Hpos by (rewrite <- Hlen; apply u32_at_nonneg).
  assert (0 ≤ crc_len fmt) by (by destruct fmt).
  destruct (at_pos_take_u32 _ _ _ Hat ltac:(lia)) as (rest1&->&Hat1).
  destruct (at_pos_take _ _ _ _ Hat1 Hpos ltac:(lia)) as (p&rest2&->&Hpl&Hs&Hat2). rewrite Hs in *. rewrite Hlen.
  assert (∃ rest3, at_pos data (pos + 4 + len + crc_len fmt) rest3
    ∧ to_be_bytes_u32 len ++ p ++ rest2 = frame fmt p ++ rest3) as (rest3&Hat3&Heq).
  { destruct fmt; cbn [crc_len] in *; unfold frame, frame_bytes.
    - exists rest2. rewrite Z.add_0_r, Hpl, <- (assoc_L (++)). done.
    - destruct (at_pos_take_u32 _ _ _ Hat2 ltac:(lia)) as (rest3&->&Hat3). exists rest3.
      rewrite Hcrc, Hpl, <- !(assoc_L (++)) by done. done. }
  exists p, rest3. rewrite zlen_frame, Hpl, !Z.add_assoc. done.
Qed.

(** A strict parser that gets past a frame has read a complete one. *)
Lemma parse_strict_frame_inv fmt f data pos out res rest :
  at_pos data pos rest → pos < zlen data → parse_strict_from fmt (S f) data pos out = Ok res →
  ∃ p b rest', rest = frame fmt p ++ rest' ∧ stored_as p b ∧ at_pos data (pos + zlen (frame fmt p)) rest'
    ∧ parse_strict_from fmt f data (pos + zlen (frame fmt p)) (out ++ [b]) = Ok res.
Proof.
  intros Hat Hlt Hp.
  assert (pos + 4 + u32_at data pos + crc_len fmt ≤ zlen data ∧ u32_at data pos ≤ MAX_FRAME_BYTES
    ∧ (fmt = V2 → u32_at data (pos + 4 + u32_at data pos)
                  = crc32_ieee (byte_slice data (pos + 4) (pos + 4 + u32_at data pos)))
    ∧ ∃ b, decode_block (byte_slice data (pos + 4) (pos + 4 + u32_at data pos)) = Ok b
      ∧ parse_strict_from fmt f data (pos + 4 + u32_at data pos + crc_len fmt) (out ++ [b]) = Ok res)
    as (Hend&Hlen&Hcrc&b&Hdec&Hp').
  { destruct fmt; cbn [parse_strict_from parse_legacy_from parse_v2_from crc_len] in *;
      (destruct (Z.ltb_spec pos (zlen data)); [|lia]); cbn [negb] in Hp;
      (destruct (Z.ltb_spec (zlen data) (pos + 4)); [done|]);
      (destruct (Z.ltb_spec MAX_FRAME_BYTES (u32_at data pos)); [done|]).
    - destruct (Z.ltb_spec (zlen data) (pos + 4 + u32_at data pos)); [done|].
      destruct (decode_block _) as [b| |]; [|done..]. cbn [map_err rbind] in Hp.
      split_and!; [lia|lia|done|]. exists b. by rewrite Z.add_0_r.
    - destruct (checked_add _ _) as [e|] eqn:He; [|done]. apply checked_add_Some in He as [_ ->]. cbn [ok_or rbind] in Hp.
      destruct (Z.ltb_spec (zlen data) (pos + 4 + u32_at data pos + 4)); [done|].
      destruct (Z.eqb_spec (u32_at data (pos + 4 + u32_at data pos)) (crc32_ieee (byte_slice data (pos + 4) (pos + 4 + u32_at data pos)))) as [Hc|]; [|done].
      destruct (decode_block _) as [b| |]; [|done..]. cbn [map_err rbind negb] in Hp.
      split_and!; [lia|lia|done|by exists b]. }
  destruct (frame_at fmt data pos rest _ Hat eq_refl Hlen Hend Hcrc) as (p&rest'&->&Hs&Hpl&Hat').
  rewrite Hs in Hdec. exists p, b, rest'. rewrite zlen_frame, Hpl, !Z.add_assoc in *. by split_and!; [|split; [|lia]|..].
Qed.

(** A repairing parser stops, or has read a complete frame. *)
Lemma parse_prefix_frame_inv fmt f data pos out res rest :
  at_pos data pos rest → pos < zlen data → parse_prefix_from fmt (S f) data pos out = Ok res →
  res = (out, pos)
  ∨ ∃ p b rest', rest = frame fmt p ++ rest' ∧ stored_as p b ∧ at_pos data (pos + zlen (frame fmt p)) rest'
      ∧ parse_prefix_from fmt f data (pos + zlen (frame fmt p)) (out ++ [b]) = Ok res.
Proof.
  intros Hat Hlt Hp.
  assert (res = (out, pos) ∨ pos + 4 + u32_at data pos + crc_len fmt ≤ zlen data ∧ u32_at data pos ≤ MAX_FRAME_BYTES
    ∧ (fmt = V2 → u32_at data (pos + 4 + u32_at data pos)
                  = crc32_ieee (byte_slice data (pos + 4) (pos + 4 + u32_at data pos)))
    ∧ ∃ b, decode_block (byte_slice data (pos + 4) (pos + 4 + u32_at data pos)) = Ok b
      ∧ parse_prefix_from fmt f data (pos + 4 + u32_at data pos + crc_len fmt) (out ++ [b]) = Ok res)
    as [?|(Hend&Hlen&Hcrc&b&Hdec&Hp')]; [|by left|right].
  { destruct fmt; cbn [parse_prefix_from parse_legacy_prefix_from parse_v2_prefix_from crc_len] in *;
      (destruct (Z.ltb_spec pos (zlen data)); [|lia]); cbn [negb] in Hp;
      (destruct (Z.ltb_spec (zlen data) (pos + 4)); [by injection Hp as <-; left|]);
      (destruct (Z.ltb_spec MAX_FRAME_BYTES (u32_at data pos)); [done|]).
    - destruct (Z.ltb_spec (zlen data) (pos + 4 + u32_at data pos)); [by injection Hp as <-; left|right].
      destruct (decode_block _) as [b| |]; [|done..]. cbn [map_err rbind] in Hp.
      split_and!; [lia|lia|done|]. exists b. by rewrite Z.add_0_r.
    - destruct (checked_add _ _) as [e|] eqn:He; [|done]. apply checked_add_Some in He as [_ ->]. cbn [ok_or rbind] in Hp.
      destruct (Z.ltb_spec (zlen data) (pos + 4 + u32_at data pos + 4)); [by injection Hp as <-; left|right].
      destruct (Z.eqb_spec (u32_at data (pos + 4 + u32_at data pos)) (crc32_ieee (byte_slice data (pos + 4) (pos + 4 + u32_at data pos)))) as [Hc|]; [|done].
      destruct (decode_block _) as [b| |]; [|done..]. cbn [map_err rbind negb] in Hp.
      split_and!; [lia|lia|done|by exists b]. }
  destruct (frame_at fmt data pos rest _ Hat eq_refl Hlen Hend Hcrc) as (p&rest'&->&Hs&Hpl&Hat').
  rewrite Hs in Hdec. exists p, b, rest'. rewrite zlen_frame, Hpl, !Z.add_assoc in *. by split_and!; [|split; [|lia]|..].
Qed.

(** What a repairing parser returns is a sequence of complete frames. *)
Lemma parse_prefix_sound fmt f data pos out bs e rest :
  at_pos data pos rest → parse_prefix_from fmt f data pos out = Ok (bs, e) →
  ∃ ps bs' tail, rest = frames fmt ps ++ tail ∧ bs = out ++ bs' ∧ Forall2 stored_as ps bs'
    ∧ e = pos + zlen (frames fmt ps).
Proof.
  revert pos out rest. induction f as [|f IH]; intros pos out rest Hat Hp.
  { assert (bs = out ∧ e = pos) as [-> ->].
    { destruct fmt; cbn [parse_prefix_from parse_legacy_prefix_from parse_v2_prefix_from] in Hp;
        (destruct (Z.ltb_spec pos (zlen data)); [done|]; by injection Hp as <- <-). }
    exists [], [], rest. rewrite app_nil_r. split_and!; [done..|]. change (zlen (frames fmt [])) with 0. lia. }
  destruct (Z.ltb_spec pos (zlen data)) as [Hlt|Hge].
  2: { assert (bs = out ∧ e = pos) as [-> ->].
       { destruct fmt; cbn [parse_prefix_from parse_legacy_prefix_from parse_v2_prefix_from] in Hp;
           (destruct (Z.ltb_spec pos (zlen data)); [lia|]; by injection Hp as <- <-). }
       exists [], [], rest. rewrite app_nil_r. split_and!; [done..|]. change (zlen (frames fmt [])) with 0. lia. }
  destruct (parse_prefix_frame_inv fmt f data pos out (bs, e) rest Hat Hlt Hp) as [[= -> ->]|(p&b&rest'&->&Hs&Hat'&Hp')].
  { exists [], [], rest. rewrite app_nil_r. split_and!; [done..|]. change (zlen (frames fmt [])) with 0. lia. }
  destruct (IH _ _ _ Hat' Hp') as (ps&bs'&tail&->&->&Hall&->).
  exists (p :: ps), (b :: bs'), tail. rewrite frames_cons, zlen_app, <- !(assoc_L (++)).
  split_and!; [done|done|by constructor|lia].
Qed.

(** Only concatenations of complete frames are accepted. *)
Lemma parse_strict_sound fmt f data pos out res rest :
  at_pos data pos rest → parse_strict_from fmt f data pos out = Ok res →
  ∃ ps bs, rest = frames fmt ps ∧ res = out ++ bs ∧ Forall2 stored_as ps bs.
Proof.
  revert pos out rest. induction f as [|f IH]; intros pos out rest Hat Hp.
  { assert (zlen data ≤ pos ∧ res = out) as [Hle ->].
    { destruct fmt; cbn [parse_strict_from parse_legacy_from parse_v2_from] in Hp;
        (destruct (Z.ltb_spec pos (zlen data)); [done|]; by injection Hp as <-). }
    exists [], []. rewrite app_nil_r, (at_pos_end _ _ _ Hat) by done. by split_and!. }
  destruct (Z.ltb_spec pos (zlen data)) as [Hlt|Hge].
  2: { assert (res = out) as ->.
       { destruct fmt; cbn [parse_strict_from parse_legacy_from parse_v2_from] in Hp;
           (destruct (Z.ltb_spec pos (zlen data)); [lia|]; by injection Hp as <-). }
       exists [], []. rewrite app_nil_r, (at_pos_end _ _ _ Hat) by done. by split_and!. }
  assert (∃ p b rest', rest = frame fmt p ++ rest' ∧ stored_as p b ∧ at_pos data (pos + zlen (frame fmt p)) rest'
    ∧ parse_strict_from fmt f data (pos + zlen (frame fmt p)) (out ++ [b]) = Ok res) as (p&b&rest'&->&Hs&Hat'&Hp').
  { by apply (parse_strict_frame_inv fmt f data pos out). }
  destruct (IH _ _ _ Hat' Hp') as (ps&bs&->&->&Hall).
  exists (p :: ps), (b :: bs). rewrite frames_cons, <- (assoc_L (++)). split_and!; [done|done|by constructor].
Qed.

Lemma parse_strict_exact fmt data bs :
  zlen data ≤ isize_max →
  parse_strict_from fmt (length data) data 0 [] = Ok bs ↔ ∃ ps, data = frames fmt ps ∧ Forall2 stored_as ps bs.
Proof.
  intros Hmax. split.
  - intros Hp. destruct (parse_strict_sound _ _ _ _ _ _ _ (at_pos_start data) Hp) as (ps&bs'&Hd&->&Hall). by exists ps.
  - intros (ps&Hd&Hall). by eapply parse_strict_complete.
Qed.

(** C34: the frame parsers terminate on every input, however hostile: each
    iteration consumes at least the four bytes of a length, so none of them
    runs out of fuel or panics. Moreover the strict parsers are exact: of the
    buffers that fit in memory they accept exactly the concatenations of
    complete frames (with the right checksums in V2) of decodable blocks. *)
Theorem parsers_total data :
  parse_legacy_block_frames_prefix data ≠ Panic ∧ parse_v2_block_frames_prefix data ≠ Panic
  ∧ parse_legacy_block_frames data ≠ Panic ∧ parse_v2_block_frames data ≠ Panic
  ∧ (zlen data ≤ isize_max → ∀ bs,
      (parse_legacy_block_frames data = Ok bs ↔ ∃ ps, data = frames Legacy ps ∧ Forall2 stored_as ps bs)
      ∧ (parse_v2_block_frames data = Ok bs ↔ ∃ ps, data = frames V2 ps ∧ Forall2 stored_as ps bs)).
Proof.
  split_and!; [apply (parse_prefix_total Legacy)|apply (parse_prefix_total V2)
    |apply (parse_strict_total Legacy)|apply (parse_strict_total V2)|]; [unfold zlen; lia..|].
  intros Hmax bs. split.
  - apply (parse_strict_exact Legacy); done.
  - apply (parse_strict_exact V2); done.
Qed.

(** ** Reading a file *)

Definition file_head (fmt : ChainFileFormat) : list byte :=
  match fmt with Legacy => [] | V2 => CHAIN_FILE_MAGIC_V2 end.

Lemma file_format_magic rest : file_format (CHAIN_FILE_MAGIC_V2 ++ rest) = (V2, zlen CHAIN_FILE_MAGIC_V2).
Proof.
  unfold file_format. rewrite zlen_app. pose proof (zlen_nonneg rest).
  destruct (Z.leb_spec (zlen CHAIN_FILE_MAGIC_V2) (zlen CHAIN_FILE_MAGIC_V2 + zlen rest)); [|lia].
  pose proof (at_pos_slice (CHAIN_FILE_MAGIC_V2 ++ rest) 0 CHAIN_FILE_MAGIC_V2 rest (at_pos_start _)) as Hs.
  rewrite Z.add_0_l in Hs. by rewrite Hs, bool_decide_true.
Qed.

(** The magic is not the length of a frame. *)
Lemma file_format_legacy data : u32_at data 0 ≤ MAX_FRAME_BYTES → file_format data = (Legacy, 0).
Proof.
  intros Hu. unfold file_format. case_bool_decide as Hm; [|by rewrite andb_false_r].
  assert (u32_at data 0 = 1414678860) as Hx.
  { unfold u32_at. change (0 + 4) with 4. assert (byte_slice data 0 4 = take 4 CHAIN_FILE_MAGIC_V2) as ->; [|by vm_compute].
    rewrite <- Hm. unfold byte_slice. rewrite take_take. done. }
  unfold MAX_FRAME_BYTES in Hu. lia.
Qed.

Lemma file_format_frames fmt ps bs rest :
  Forall2 stored_as ps bs → (fmt = Legacy → ps ≠ []) →
  file_format (file_head fmt ++ frames fmt ps ++ rest) = (fmt, zlen (file_head fmt)).
Proof.
  intros Hps Hne. destruct fmt; [|apply file_format_magic].
  destruct Hps as [|p b ps bs Hp _]; [by destruct Hne|]. apply file_format_legacy.
  pose proof (stored_len_u32 _ _ Hp) as Hu. rewrite frames_cons.
  rewrite (at_pos_u32 _ _ (zlen p) (p ++ frames Legacy ps ++ rest)); [apply Hp|done|].
  unfold frame, frame_bytes. simpl. rewrite <- !(assoc_L (++)). apply at_pos_start.
Qed.

(** What the loaders do with the bytes of a file. *)
Lemma repairing_read path d data :
  d_faults d = [] → d_files d !! path = Some data → zlen data ≠ 0 →
  read_all_blocks_repairing_tail path d
  = let '(fmt, off) := file_format data in
    match parse_prefix_from fmt (length (drop (Z.to_nat off) data)) (drop (Z.to_nat off) data) 0 [] with
    | Ok (blocks, consumed) =>
      if off + consumed <? zlen data then
        if Nat.eqb (length blocks) 0 && (consumed =? 0)
        then (Err (StorageDecode "chain.blocks corrupt or truncated (no complete block frame)"), d)
        else if 4 <=? zlen data - (off + consumed)
        then (Err (StorageDecode "chain.blocks truncated after last complete block frame"), d)
        else (Ok (blocks, true), set_file path (take (Z.to_nat (off + consumed)) data) d)
      else (Ok (blocks, false), d)
    | Err e => (Err e, d)
    | Panic => (Panic, d)
    end.
Proof.
  intros Hf Hd Hne. unfold read_all_blocks_repairing_tail, sbind at 1.
  rewrite path_exists_ok, Hd, bool_decide_true by done. cbn [negb].
  unfold sbind, storage_io, fs_read, io_call, sbind, sget, slift, next_outcome. rewrite Hf, Hd. cbn [ok_or map_err].
  destruct (Z.eqb_spec (zlen data) 0); [done|]. destruct (file_format data) as [fmt off].
  assert ((match fmt with Legacy => parse_legacy_block_frames_prefix (drop (Z.to_nat off) data)
          | V2 => parse_v2_block_frames_prefix (drop (Z.to_nat off) data) end)
          = parse_prefix_from fmt (length (drop (Z.to_nat off) data)) (drop (Z.to_nat off) data) 0 []) as ->
    by (by destruct fmt).
  destruct (parse_prefix_from _ _ _ _ _) as [[blocks consumed]| |]; [|done..].
  destruct (off + consumed <? zlen data); [|done].
  destruct (_ && _); [done|]. destruct (4 <=? _); [done|].
  unfold fs_write, next_outcome. rewrite Hf. done.
Qed.

(** ** Appending *)

Definition magic_pending (st : BlockStore) : Prop := bs_format st = V2 ∧ bs_v2_magic_on_disk st = false.

#[export] Instance magic_pending_dec st : Decision (magic_pending st).
Proof. unfold magic_pending. apply _. Defined.

(** The bytes that one append adds to the file. *)
Definition append_bytes (st : BlockStore) (p : list byte) : list byte :=
  (if decide (magic_pending st) then CHAIN_FILE_MAGIC_V2 else []) ++ frame (bs_format st) p.

Definition after_magic (st : BlockStore) : BlockStore :=
  mkBlockStore (bs_path st) (bs_poisoned st) (bs_format st)
    (if decide (magic_pending st) then true else bs_v2_magic_on_disk st).

(** Whatever the environment does, an append adds a prefix of its bytes, and
    all of them when it reports success. *)
Lemma append_frame_bytes st d p c :
  d_files d !! bs_path st = Some c →
  ∃ k d' r st', append_frame (zlen p) p (st, d) = (r, (st', d'))
    ∧ d_files d' = <[ bs_path st := c ++ take k (append_bytes st p) ]> (d_files d)
    ∧ bs_poisoned st' = bs_poisoned st
    ∧ ((r = Ok tt ∧ k = length (append_bytes st p) ∧ st' = after_magic st) ∨ ∃ e, r = Err e).
Proof.
  intros Hc. unfold append_frame, append_bytes, after_magic. unfold sbind at 1, sget. cbn [fst snd].
  fold (magic_pending st). fold (frame (bs_format st) p).
  assert (∀ d1 c1 st1, d_files d1 !! bs_path st = Some c1 → ∃ k d' r,
    (on_disk (write_all_append (bs_path st) (frame (bs_format st) p)) ;;! on_disk io_call) (st1, d1)
      = (r, (st1, d'))
    ∧ d_files d' = <[ bs_path st := c1 ++ take k (frame (bs_format st) p) ]> (d_files d1)
    ∧ ((r = Ok tt ∧ k = length (frame (bs_format st) p)) ∨ ∃ e, r = Err e)) as Hrest.
  { intros d1 c1 st1 Hc1.
    destruct (write_all_append_files (bs_path st) (frame (bs_format st) p) d1 c1 Hc1) as (k&Hk&Hr).
    exists k. unfold sbind, on_disk.
    destruct (write_all_append (bs_path st) (frame (bs_format st) p) d1) as [r1 d2]. cbn [fst snd] in *.
    destruct Hr as [[-> Hlen]|[e ->]]; [|by eexists _, _; split_and!; eauto].
    destruct (io_call_files d2) as [Hf Hr]. destruct (io_call d2) as [r2 d3]. cbn [fst snd] in *.
    exists d3, r2. rewrite Hf. split_and!; [by destruct Hr as [->|[e ->]]|done|].
    destruct Hr as [->|[e ->]]; eauto. }
  destruct (decide (magic_pending st)) as [Hp|Hp].
  - destruct (write_all_append_files (bs_path st) CHAIN_FILE_MAGIC_V2 d c Hc) as (k&Hk&Hr).
    unfold sbind at 1 2 3, on_disk at 1 2, sget, sput, sret.
    destruct (write_all_append (bs_path st) CHAIN_FILE_MAGIC_V2 d) as [r1 d1]. cbn [fst snd] in *.
    destruct Hr as [[-> Hlen]|[e ->]].
    2: { exists (Nat.min k (length CHAIN_FILE_MAGIC_V2)), d1, (Err e), st. split_and!; [done| |done|eauto].
         rewrite Hk, take_app_le by lia. by rewrite <- take_take, firstn_all. }
    destruct (io_call_files d1) as [Hf Hr]. destruct (io_call d1) as [r2 d2]. cbn [fst snd] in *.
    destruct Hr as [->|[e ->]].
    2: { exists k, d2, (Err e), st. split_and!; [done| |done|eauto].
         rewrite Hf, Hk, Hlen, take_app_length. done. }
    destruct (Hrest d2 (c ++ CHAIN_FILE_MAGIC_V2) (set_magic_on_disk st)) as (k2&d3&r3&He&Hd3&Hr3).
    { rewrite Hf, Hk, Hlen, firstn_all. apply lookup_insert_eq. }
    exists (length CHAIN_FILE_MAGIC_V2 + k2)%nat, d3, r3, (set_magic_on_disk st). split_and!; [exact He| |done|].
    + rewrite Hd3, Hf, Hk, insert_insert_eq, take_app_add, <- (assoc_L (++)). done.
    + destruct Hr3 as [[-> ->]|?]; [left|by right]. split_and!; [done|by rewrite length_app|done].
  - unfold sbind at 1, sret at 1. destruct (Hrest d c st Hc) as (k2&d3&r3&He&Hd3&Hr3).
    exists k2, d3, r3, st. split_and!; [exact He|done|done|].
    destruct Hr3 as [[-> ->]|?]; [left|by right]. split_and!; [done|done|by destruct st].
Qed.

Lemma append_payload_bytes st d p c :
  bs_poisoned st = false → zlen p ≤ MAX_FRAME_BYTES → d_files d !! bs_path st = Some c →
  ∃ k d' r st', append_payload p (st, d) = (r, (st', d'))
    ∧ d_files d' = <[ bs_path st := c ++ take k (append_bytes st p) ]> (d_files d)
    ∧ ((r = Ok tt ∧ k = length (append_bytes st p) ∧ st' = after_magic st)
       ∨ (∃ e, r = Err e) ∧ bs_poisoned st' = true).
Proof.
  intros Hp Hlen Hc. unfold append_payload. rewrite Hp.
  destruct (Z.ltb_spec u32_max (zlen p)); [unfold u32_max, MAX_FRAME_BYTES in *; lia|].
  destruct (Z.ltb_spec MAX_FRAME_BYTES (zlen p)); [lia|].
  destruct (append_frame_bytes st d p c Hc) as (k&d'&r&st'&->&Hd'&Hpo&Hr).
  destruct Hr as [(->&->&->)|[e ->]].
  - eexists _, _, _, _. split_and!; [done|exact Hd'|]. by left.
  - eexists k, d', _, _. split_and!; [done|exact Hd'|]. right. eauto.
Qed.

(** ** Restarting on a file *)

(** The loader on the bytes [data]: its result and the bytes it leaves. *)
Definition recover (path : string) (files : gmap string (list byte)) :
    Res StorageError (list Block * bool) * option (list byte) :=
  let '(r, d) := read_all_blocks_repairing_tail path (mkDisk files []) in (r, d_files d !! path).

Lemma drop_head fmt rest : drop (Z.to_nat (zlen (file_head fmt))) (file_head fmt ++ rest) = rest.
Proof. unfold zlen. rewrite Nat2Z.id. apply drop_app_length. Qed.

Lemma recover_complete path files fmt ps bs :
  Forall2 stored_as ps bs → (fmt = Legacy → ps ≠ []) →
  files !! path = Some (file_head fmt ++ frames fmt ps) → zlen (file_head fmt ++ frames fmt ps) ≤ isize_max →
  recover path files = (Ok (bs, false), Some (file_head fmt ++ frames fmt ps)).
Proof.
  intros Hps Hne Hd Hmax. set (data := file_head fmt ++ frames fmt ps) in *.
  assert (zlen data ≠ 0) as Hnz.
  { unfold data. rewrite zlen_app. destruct fmt; [|pose proof (zlen_nonneg (frames V2 ps)); unfold zlen at 1; simpl; lia].
    pose proof (frames_length Legacy ps) as Hl. destruct ps; [by destruct Hne|]. unfold zlen. simpl in *. lia. }
  pose proof (file_format_frames fmt ps bs [] Hps Hne) as Hff. rewrite app_nil_r in Hff. fold data in Hff.
  unfold recover. rewrite (repairing_read path _ data) by done. rewrite Hff.
  unfold data at 1 2. rewrite drop_head.
  rewrite (parse_prefix_complete fmt ps bs (frames fmt ps)); [|done|done|unfold data in Hmax; rewrite zlen_app in Hmax; pose proof (zlen_nonneg (file_head fmt)); lia].
  assert (zlen data = zlen (file_head fmt) + zlen (frames fmt ps)) as Hz by (unfold data; apply zlen_app).
  destruct (Z.ltb_spec (zlen (file_head fmt) + zlen (frames fmt ps)) (zlen data)); [lia|]. by rewrite <- Hd.
Qed.

Lemma recover_cut path files fmt ps bs p b k :
  Forall2 stored_as ps bs → stored_as p b → (fmt = Legacy → ps ≠ []) → (0 < k < length (frame fmt p))%nat →
  files !! path = Some (file_head fmt ++ frames fmt ps ++ take k (frame fmt p)) →
  zlen (file_head fmt ++ frames fmt ps ++ take k (frame fmt p)) ≤ isize_max →
  if decide (ps ≠ [] ∧ (k < 4)%nat)
  then recover path files = (Ok (bs, true), Some (file_head fmt ++ frames fmt ps))
  else ∃ msg, recover path files = (Err (StorageDecode msg), files !! path).
Proof.
  intros Hps Hp Hne Hk Hd Hmax. rewrite Hd. set (body := frames fmt ps ++ take k (frame fmt p)) in *.
  assert (zlen body = zlen (frames fmt ps) + Z.of_nat k) as Hzb.
  { unfold body. rewrite zlen_app. unfold zlen at 2. by rewrite length_take_le by lia. }
  assert (zlen (file_head fmt ++ body) = zlen (file_head fmt) + zlen body) as Hz by apply zlen_app.
  pose proof (zlen_nonneg (file_head fmt)). pose proof (zlen_nonneg (frames fmt ps)).
  assert (length bs = length ps) as Hl by (symmetry; by eapply Forall2_length).
  assert (recover path files
    = if Nat.eqb (length bs) 0 && (zlen (frames fmt ps) =? 0)
      then (Err (StorageDecode "chain.blocks corrupt or truncated (no complete block frame)"), Some (file_head fmt ++ body))
      else if 4 <=? Z.of_nat k
      then (Err (StorageDecode "chain.blocks truncated after last complete block frame"), Some (file_head fmt ++ body))
      else (Ok (bs, true), Some (file_head fmt ++ frames fmt ps))) as ->.
  { unfold recover. rewrite (repairing_read path _ (file_head fmt ++ body)); [|done|done|lia].
    unfold body at 1. rewrite (file_format_frames fmt ps bs) by done. rewrite drop_head.
    rewrite (parse_prefix_body fmt ps bs p b k body) by (done || lia).
    destruct (Z.ltb_spec (zlen (file_head fmt) + zlen (frames fmt ps)) (zlen (file_head fmt ++ body))); [|lia].
    replace (zlen (file_head fmt ++ body) - (zlen (file_head fmt) + zlen (frames fmt ps))) with (Z.of_nat k) by lia.
    destruct (_ && _); [by rewrite <- Hd|]. destruct (4 <=? _); [by rewrite <- Hd|].
    cbn [set_file d_files]. rewrite lookup_insert_eq. do 2 f_equal.
    replace (Z.to_nat (zlen (file_head fmt) + zlen (frames fmt ps)))
      with (length (file_head fmt ++ frames fmt ps)) by (rewrite length_app; unfold zlen; lia).
    unfold body. rewrite (assoc_L (++)). apply take_app_length. }
  destruct ps as [|p0 ps0].
  { rewrite decide_False by naive_solver. apply nil_length_inv in Hl as ->. by eexists. }
  assert (Nat.eqb (length bs) 0 = false) as -> by (apply Nat.eqb_neq; simpl in Hl; lia). cbn [andb].
  case_decide as Hd4; destruct (Z.leb_spec 4 (Z.of_nat k)); [lia|done|by eexists|].
  destruct Hd4. split; [done|lia].
Qed.

Lemma recover_partial_magic path files k :
  (0 < k < 8)%nat → files !! path = Some (take k CHAIN_FILE_MAGIC_V2) →
  ∃ msg, recover path files = (Err (StorageDecode msg), files !! path).
Proof.
  intros Hk Hd. assert (∃ msg, read_all_blocks_repairing_tail path (mkDisk files []) = (Err (StorageDecode msg), mkDisk files [])) as [msg Hr].
  { rewrite (repairing_read path _ (take k CHAIN_FILE_MAGIC_V2)); [|done|done|unfold zlen; rewrite length_take_le by (simpl; lia); lia].
    generalize (mkDisk files []). intros d. do 8 (destruct k as [|k]; [first [lia|vm_compute; by eexists]|]). lia. }
  exists msg. unfold recover. by rewrite Hr.
Qed.

Lemma recover_empty path files : files !! path = Some [] → recover path files = (Ok ([], false), Some []).
Proof.
  intros Hd. unfold recover, read_all_blocks_repairing_tail, sbind at 1. rewrite path_exists_ok by done. cbn [d_files].
  rewrite Hd, bool_decide_true by done. cbn [negb].
  unfold sbind, storage_io, fs_read, io_call, sbind, sget, slift, next_outcome. cbn [d_faults d_files].
  rewrite Hd. simpl. by rewrite Hd.
Qed.

(** ** The store and its file *)

(** The store [st] is healthy and its file holds exactly the payloads [ps]. *)
Record store_holds (st : BlockStore) (files : gmap string (list byte)) (ps : list (list byte)) : Prop := {
  sh_healthy : bs_poisoned st = false;
  sh_file : files !! bs_path st =
    Some ((if decide (magic_pending st) then [] else file_head (bs_format st)) ++ frames (bs_format st) ps);
  sh_pending : magic_pending st → ps = [];
  sh_legacy : bs_format st = Legacy → ps ≠ []
}.

Lemma append_bytes_file st files ps p :
  store_holds st files ps →
  ((if decide (magic_pending st) then [] else file_head (bs_format st)) ++ frames (bs_format st) ps)
    ++ append_bytes st p
  = file_head (bs_format st) ++ frames (bs_format st) (ps ++ [p]).
Proof.
  intros [_ _ Hpend _]. unfold append_bytes. rewrite frames_app, frames_cons. change (frames _ []) with (@nil byte).
  rewrite app_nil_r. destruct (decide (magic_pending st)) as [Hp|Hp].
  - rewrite (Hpend Hp). destruct Hp as [-> _]. done.
  - by rewrite <- (assoc_L (++)).
Qed.

Lemma recover_holds st files ps bs :
  store_holds st files ps → Forall2 stored_as ps bs →
  zlen (file_head (bs_format st) ++ frames (bs_format st) ps) ≤ isize_max →
  recover (bs_path st) files = (Ok (bs, false), files !! bs_path st).
Proof.
  intros [_ Hf Hpend Hleg] Hps Hmax. rewrite Hf. destruct (decide (magic_pending st)) as [Hp|Hp].
  - rewrite (Hpend Hp) in *. inversion Hps. subst. by rewrite recover_empty.
  - by rewrite (recover_complete _ _ (bs_format st) ps bs).
Qed.

(** The first [k] bytes of an append after the file's contents. *)
Lemma recover_torn st files ps bs p b k files' :
  store_holds st files ps → Forall2 stored_as ps bs → stored_as p b →
  zlen (file_head (bs_format st) ++ frames (bs_format st) (ps ++ [p])) ≤ isize_max →
  (0 < k < length (append_bytes st p))%nat →
  files' !! bs_path st =
    Some (((if decide (magic_pending st) then [] else file_head (bs_format st)) ++ frames (bs_format st) ps)
          ++ take k (append_bytes st p)) →
  if decide (ps ≠ [] ∧ (k < 4)%nat)
  then recover (bs_path st) files' = (Ok (bs, true), files !! bs_path st)
  else if decide (magic_pending st ∧ k = length CHAIN_FILE_MAGIC_V2)
  then recover (bs_path st) files' = (Ok (bs, false), files' !! bs_path st)
  else ∃ msg, recover (bs_path st) files' = (Err (StorageDecode msg), files' !! bs_path st).
Proof.
  intros Hh Hps Hp Hmax Hk Hf'. pose proof Hh as [_ Hf Hpend Hleg]. rewrite Hf.
  rewrite frames_app, frames_cons in Hmax. change (frames (bs_format st) []) with (@nil byte) in Hmax.
  rewrite app_nil_r in Hmax. unfold append_bytes in *.
  destruct (decide (magic_pending st)) as [Hm|Hm].
  - rewrite (Hpend Hm) in *. inversion Hps. subst bs. rewrite decide_False by naive_solver.
    change (frames (bs_format st) []) with (@nil byte) in *. cbn [app] in Hf'.
    assert (bs_format st = V2) as Hv2 by apply Hm. rewrite Hv2 in *. cbn [file_head] in Hmax.
    rewrite length_app in Hk. change (length CHAIN_FILE_MAGIC_V2) with 8%nat in Hk.
    destruct (decide (k < 8)%nat) as [Hlt|Hge].
    { rewrite decide_False by (intros [_ ?]; simpl in *; lia). rewrite take_app_le in Hf' by (simpl; lia).
      apply (recover_partial_magic _ _ k); [lia|done]. }
    rewrite take_app_ge in Hf' by (simpl; lia). change (length CHAIN_FILE_MAGIC_V2) with 8%nat in Hf'.
    destruct (decide (k = 8)%nat) as [->|Hne].
    { rewrite decide_True by done. change (8 - 8)%nat with 0%nat in Hf'. rewrite take_0 in Hf'.
      rewrite Hf'. by rewrite (recover_complete _ _ V2 [] []). }
    rewrite decide_False by (intros [_ ?]; simpl in *; lia). pose proof (recover_cut (bs_path st) files' V2 [] [] p b (k - 8)) as Hc.
    rewrite decide_False in Hc by naive_solver. apply Hc; [done|done|done|lia|done|].
    cbn [file_head]. change (frames V2 []) with (@nil byte). cbn [app] in *. rewrite !zlen_app in *.
    unfold zlen in *. rewrite length_take_le by lia. lia.
  - rewrite <- (assoc_L (++)) in Hf'. cbn [app] in *.
    pose proof (recover_cut (bs_path st) files' (bs_format st) ps bs p b k Hps Hp Hleg Hk Hf') as Hc.
    case_decide; [|rewrite decide_False by naive_solver]; apply Hc.
    all: rewrite !zlen_app in *; unfold zlen in *; rewrite length_take_le by lia; lia.
Qed.

(** C15: an append that is interrupted anywhere, by an error or by a crash
    after any number of written bytes, has one of these outcomes at the next
    start, according to the number [k] of its bytes that are in the file
    (always all when the append reported success): all of them, the old blocks
    and the new one; none, the old blocks; one to three after a complete
    block, the old blocks, with the torn bytes cut off the file; exactly the
    file magic of an empty store, no blocks; any other number, a decode error
    and an unchanged file. No outcome is a wrong chain. *)
Theorem torn_append_recovery st d ps bs p b :
  store_holds st (d_files d) ps → Forall2 stored_as ps bs → stored_as p b →
  zlen (file_head (bs_format st) ++ frames (bs_format st) (ps ++ [p])) ≤ isize_max →
  let '(r, (st', d')) := append_payload p (st, d) in
  let old := file_data d (bs_path st) in
  let new := file_data d' (bs_path st) in
  let k := (length new - length old)%nat in
  let full := append_bytes st p in
  let restart := recover (bs_path st) (d_files d') in
  new = old ++ take k full ∧ (k ≤ length full)%nat
  ∧ (is_ok r = true → k = length full)
  ∧ (k = length full → restart = (Ok (bs ++ [b], false), Some new))
  ∧ (k = 0%nat → restart = (Ok (bs, false), Some old))
  ∧ ((0 < k < length full)%nat →
       if decide (ps ≠ [] ∧ (k < 4)%nat) then restart = (Ok (bs, true), Some old)
       else if decide (magic_pending st ∧ k = length CHAIN_FILE_MAGIC_V2) then restart = (Ok (bs, false), Some new)
       else ∃ msg, restart = (Err (StorageDecode msg), Some new)).
Proof.
  intros Hh Hps Hp Hmax. pose proof Hh as [Hpo Hf Hpend Hleg]. pose proof Hp as [_ Hlen].
  destruct (append_payload_bytes st d p _ Hpo Hlen Hf) as (k&d'&r&st'&->&Hd'&Hr).
  set (full := append_bytes st p) in *. set (old := (if decide (magic_pending st) then [] else _) ++ _) in *.
  assert (take k full = take (Nat.min k (length full)) full) as Hmin by (by rewrite <- take_take, firstn_all).
  assert (d_files d' !! bs_path st = Some (old ++ take (Nat.min k (length full)) full)) as Hf'
    by (rewrite Hd', lookup_insert_eq, Hmin; done).
  unfold file_data. rewrite Hf, Hf'. cbn [default from_option id]. rewrite length_app, length_take.
  replace (length old + Nat.min (Nat.min k (length full)) (length full) - length old)%nat with (Nat.min k (length full)) by lia.
  split_and!; [done|lia| | | |].
  - destruct Hr as [(->&->&_)|[[e ->] _]]; [lia|done].
  - intros Hk. rewrite Hk, firstn_all in *. unfold old, full in Hf' |- *. rewrite (append_bytes_file _ _ _ _ Hh) in Hf' |- *.
    rewrite (recover_complete _ _ (bs_format st) (ps ++ [p]) (bs ++ [b])); [done|by apply Forall2_app; auto| |done|done].
    intros _ Hn. by apply app_eq_nil in Hn as [_ ?].
  - intros Hk. rewrite Hk, take_0, app_nil_r in Hf'. rewrite <- Hf'.
    apply (recover_holds st (d_files d') ps bs); [by split|done|].
    rewrite frames_app, (assoc_L (++)), zlen_app in Hmax.
    pose proof (zlen_nonneg (frames (bs_format st) [p])). lia.
  - intros Hk. rewrite <- Hf, <- Hf'. by apply (recover_torn st (d_files d) ps bs p b (Nat.min k (length full)) (d_files d')).
Qed.

(** C33: the checksum of a V2 frame detects every corruption confined to one
    byte: if one byte of a stored payload, or the checksum itself, is changed
    in the file, both readers report a decode error instead of returning a
    block, wherever the frame sits. *)
Theorem corrupt_byte_detected ps bs l1 x y l2 b crc rest :
  Forall2 stored_as ps bs → stored_as (l1 ++ x :: l2) b → in_u32 crc →
  (x ≠ y ∧ crc = crc32_ieee (l1 ++ x :: l2)) ∨ (x = y ∧ crc ≠ crc32_ieee (l1 ++ x :: l2)) →
  let bad := l1 ++ y :: l2 in
  let data := frames V2 ps ++ to_be_bytes_u32 (zlen bad) ++ bad ++ to_be_bytes_u32 crc ++ rest in
  zlen data ≤ isize_max →
  (∃ msg, parse_v2_block_frames data = Err (StorageDecode msg))
  ∧ (∃ msg, parse_v2_block_frames_prefix data = Err (StorageDecode msg)).
Proof.
  intros Hps [_ Hlen] Hcrc Hbad bad data Hmax.
  assert (zlen bad = zlen (l1 ++ x :: l2)) as Hzb by (unfold bad, zlen; by rewrite !length_app).
  assert (crc ≠ crc32_ieee bad) as Hne.
  { destruct Hbad as [[Hxy ->]|[-> Hne]]; [|done]. by apply crc32_one_byte. }
  assert (∃ f, length data = length ps + S f)%nat as [f Hfuel].
  { exists (length data - length ps - 1)%nat. pose proof (frames_length V2 ps). unfold data.
    rewrite !length_app. unfold to_be_bytes_u32. rewrite !length_be_bytes. lia. }
  assert (at_pos data 0 (frames V2 ps ++ to_be_bytes_u32 (zlen bad) ++ bad ++ to_be_bytes_u32 crc ++ rest))
    as Hat by apply at_pos_start.
  pose proof (at_pos_advance _ _ _ _ Hat) as Hat'.
  destruct (parse_v2_corrupt f data _ bs (zlen bad) bad crc rest eq_refl ltac:(lia) Hmax Hcrc Hne Hat') as [H1 H2].
  pose proof (parse_strict_frames V2 ps bs (S f) data 0 [] _ Hps Hmax Hat) as Hs1.
  pose proof (parse_prefix_frames V2 ps bs (S f) data 0 [] _ Hps Hmax Hat) as Hs2.
  cbn [parse_strict_from parse_prefix_from app] in Hs1, Hs2.
  unfold parse_v2_block_frames, parse_v2_block_frames_prefix. rewrite Hfuel, Hs1, Hs2. done.
Qed.

(** ** Sequences of appends *)

(** Appending one payload after the other, whatever the outcome of each. *)
Fixpoint append_each (qs : list (list byte)) (s : BlockStore * Disk) :
    list (Res IoError unit) * (BlockStore * Disk) :=
  match qs with
  | [] => ([], s)
  | q :: qs' =>
    let '(r, s1) := append_payload q s in
    let '(rs, s2) := append_each qs' s1 in (r :: rs, s2)
  end.

(** Fail-closed: once an append of an admissible payload has failed in the
    file system, every later append is refused and neither the store nor any
    file changes any more, so that memory and disk cannot drift apart. *)
Theorem store_fail_closed st d p qs c :
  bs_poisoned st = false → zlen p ≤ MAX_FRAME_BYTES → d_files d !! bs_path st = Some c →
  is_ok (append_payload p (st, d)).1 = false →
  let s := (append_payload p (st, d)).2 in
  Forall (λ r, is_ok r = false) (append_each qs s).1 ∧ (append_each qs s).2 = s.
Proof.
  intros Hpo Hlen Hc Hfail.
  destruct (append_payload_bytes st d p c Hpo Hlen Hc) as (k&d'&r&st'&Heq&_&Hr). rewrite Heq in *. cbn [fst snd] in *.
  destruct Hr as [(->&_)|[_ Hp']]; [done|]. clear Heq Hfail.
  assert (∀ q, ∃ e, append_payload q (st', d') = (Err e, (st', d'))) as Hstep
    by (intros q; unfold append_payload; rewrite Hp'; by eexists).
  induction qs as [|q qs [IH1 IH2]]; [done|]. cbn [append_each]. destruct (Hstep q) as [e ->].
  destruct (append_each qs (st', d')) as [rs s2]. simpl in *. split; [by constructor|done].
Qed.

Lemma append_payload_ok st d p st' d' :
  append_payload p (st, d) = (Ok tt, (st', d')) → bs_poisoned st = false ∧ zlen p ≤ MAX_FRAME_BYTES.
Proof.
  unfold append_payload. destruct (bs_poisoned st); [done|]. destruct (u32_max <? zlen p); [done|].
  destruct (Z.ltb_spec MAX_FRAME_BYTES (zlen p)); [done|]. intros _. by split.
Qed.

Lemma store_holds_append st d ps p st' d' :
  store_holds st (d_files d) ps → append_payload p (st, d) = (Ok tt, (st', d')) →
  store_holds st' (d_files d') (ps ++ [p]) ∧ bs_path st' = bs_path st ∧ bs_format st' = bs_format st.
Proof.
  intros Hh Ha. destruct (append_payload_ok _ _ _ _ _ Ha) as [Hpo Hlen]. pose proof Hh as [_ Hf _ _].
  destruct (append_payload_bytes st d p _ Hpo Hlen Hf) as (k&d2&r&st2&Heq&Hd2&Hr). rewrite Ha in Heq.
  injection Heq as <- <- <-. destruct Hr as [(_&->&->)|[[e ?] _]]; [|done].
  rewrite firstn_all, (append_bytes_file _ _ _ _ Hh) in Hd2.
  assert (¬ magic_pending (after_magic st)) as Hnp.
  { unfold magic_pending, after_magic. simpl. intros [Hv2 Hmd]. case_decide as Hm; [done|]. by destruct Hm. }
  split; [|done]. split.
  - done.
  - rewrite Hd2, decide_False by done. simpl. by rewrite lookup_insert_eq.
  - done.
  - intros _ Hn. by apply app_eq_nil in Hn as [_ ?].
Qed.

Lemma persist_blocks st d ps bs bs0 st' d' :
  store_holds st (d_files d) ps → Forall2 stored_as ps bs0 → Forall wf_block bs →
  sfor store_append_block bs (st, d) = (Ok tt, (st', d')) →
  ∃ ps', store_holds st' (d_files d') ps' ∧ Forall2 stored_as ps' (bs0 ++ bs)
    ∧ bs_path st' = bs_path st ∧ bs_format st' = bs_format st.
Proof.
  intros Hh Hps Hwf. revert st d ps bs0 Hh Hps. induction Hwf as [|b bs Hb _ IH]; intros st d ps bs0 Hh Hps Ha.
  { injection Ha as <- <-. exists ps. by rewrite app_nil_r. }
  cbn [sfor] in Ha. unfold sbind at 1 in Ha. unfold store_append_block at 1, sbind at 1, slift in Ha.
  destruct (encode_block b) as [p|] eqn:He; [|done]. cbn [expect] in Ha.
  destruct (append_payload p (st, d)) as [[[]| |] [st1 d1]] eqn:Hp; [|done..].
  destruct (store_holds_append _ _ _ _ _ _ Hh Hp) as (Hh1&Hpath&Hfmt).
  destruct (append_payload_ok _ _ _ _ _ Hp) as [_ Hlen].
  destruct (IH st1 d1 (ps ++ [p]) (bs0 ++ [b]) Hh1) as (ps'&H1&H2&H3&H4); [|done|].
  - apply Forall2_app; [done|]. constructor; [|done]. split; [by apply decode_encode_block|done].
  - exists ps'. rewrite <- (assoc_L (++)) in H2. split_and!; [done|done|congruence|congruence].
Qed.

Lemma open_append_new path d st d1 :
  d_files d !! path = None → open_append path d = (Ok st, d1) →
  store_holds st (d_files d1) [] ∧ bs_path st = path ∧ bs_format st = V2.
Proof.
  intros Hn Ho. unfold open_append, open_create in Ho. unfold sbind at 1 2 in Ho.
  destruct (io_call_files d) as [Hf1 Hr1]. destruct (io_call d) as [r1 e1]. cbn [fst snd] in *.
  destruct Hr1 as [->|[? ->]]; [|done]. unfold sbind at 1, sget in Ho. rewrite Hf1, Hn in Ho.
  unfold sput in Ho. unfold sbind at 1 in Ho.
  set (e2 := set_file path [] e1) in *.
  destruct (io_call_files e2) as [Hf2 Hr2]. destruct (io_call e2) as [r2 e3]. cbn [fst snd] in *.
  destruct Hr2 as [->|[? ->]]; [|done]. unfold sbind at 1, file_data in Ho.
  assert (d_files e3 !! path = Some []) as Hp by (rewrite Hf2; unfold e2; simpl; apply lookup_insert_eq).
  rewrite Hp in Ho. injection Ho as <- <-. split; [|done].
  split; simpl; [done| |done|done]. by rewrite Hp.
Qed.

Section reload.
Context `{CryptoLaws}.

(** A chain is also consistent under the default time policy, which has no
    minimum interval. *)
Lemma chain_inv_default g c :
  0 ≤ min_block_interval_secs (bc_consensus c) → chain_inv g c →
  chain_inv g (mkBlockchain (bc_blocks c) (bc_state c) ConsensusParams_default).
Proof.
  intros Hmin [H1 H2 H3 H4 H5]. split; try done. cbn [bc_blocks bc_consensus]. intros i a b Ha Hb.
  destruct (H3 i a b Ha Hb) as (Hx1&Hx2&Hx3&Hx4%timestamps_ok). unfold extends. split_and!; [done..|].
  apply timestamps_ok. cbn [min_block_interval_secs ConsensusParams_default]. lia.
Qed.

(** C16: persistence round trip: if every block above genesis of a reachable
    chain was appended successfully to a new store, whatever else happened,
    then reloading the file at the next start, with working file calls, gives
    a chain with exactly these blocks and this account state, and repairs
    nothing. The time policy is not stored: the loaded chain has the default
    policy, whatever the policy of the chain that was written. *)
Theorem reload_exact g c path d st d1 st2 d2 :
  wf_genesis g → reachable g c → 0 ≤ min_block_interval_secs (bc_consensus c) →
  d_files d !! path = None → open_append path d = (Ok st, d1) →
  sfor store_append_block (drop 1 (bc_blocks c)) (st, d1) = (Ok tt, (st2, d2)) →
  (∀ data, d_files d2 !! path = Some data → zlen data ≤ isize_max) →
  (load_blockchain_from_disk path g (mkDisk (d_files d2) [])).1
  = Ok (mkBlockchain (bc_blocks c) (bc_state c) ConsensusParams_default, false).
Proof.
  intros Hg Hr Hcons Hnew Hopen Hper Hmax. pose proof (reachable_inv g c Hg Hr) as Hi.
  destruct (open_append_new _ _ _ _ Hnew Hopen) as (Hh&Hpath&Hfmt).
  destruct (persist_blocks st d1 [] (drop 1 (bc_blocks c)) [] st2 d2 Hh) as (ps&Hh2&Hps&Hpath2&Hfmt2);
    [done|apply Forall_drop, Hi|done|]. rewrite Hfmt in Hfmt2. rewrite Hpath in Hpath2. cbn [app] in Hps.
  assert ((recover path (d_files d2)).1 = Ok (drop 1 (bc_blocks c), false)) as Hrec.
  { rewrite <- Hpath2. destruct (decide (magic_pending st2)) as [Hm|Hm].
    - pose proof (sh_pending _ _ _ Hh2 Hm) as ->. inversion Hps as [Hx|].
      rewrite (recover_holds st2 (d_files d2) [] []); [done|done|constructor|]. rewrite Hfmt2. by vm_compute.
    - rewrite (recover_holds st2 (d_files d2) ps (drop 1 (bc_blocks c))); [done|done|done|].
      pose proof (sh_file _ _ _ Hh2) as Hf. rewrite decide_False in Hf by done. apply Hmax. by rewrite <- Hpath2. }
  unfold recover in Hrec. unfold load_blockchain_from_disk, sbind.
  destruct (read_all_blocks_repairing_tail path (mkDisk (d_files d2) [])) as [r d3]. cbn [fst] in Hrec. subst r.
  destruct (replay_start _ _ _ (ci_replay _ _ Hi)) as (s0&Hs0&_).
  assert (from_genesis_with_consensus g ConsensusParams_default
          = Ok (mkBlockchain [Block_genesis] s0 ConsensusParams_default)) as Hc0
    by (unfold from_genesis_with_consensus, from_genesis, rbind; rewrite Hs0; done).
  pose proof (chain_rebuild g _ _ (chain_inv_default g c Hcons Hi) Hc0) as Hreb. unfold append_blocks in Hreb.
  unfold chain_from_genesis, from_genesis, rbind, slift. rewrite Hs0. cbn [map_err].
  cbn [bc_blocks] in Hreb. unfold exec_on. rewrite Hreb. done.
Qed.
End reload.

(** ** Witnesses *)

Module StorageExample.
Import ToyCrypto WalletExample BlockExample LedgerExample ChainExample.

(** An empty block and a block of two transfers. *)
Definition empty_block : Block := seal (mkBlock 1 "GENESIS_HASH" 1700000050 [] "").
Definition payload0 : list byte := default [] (encode_block empty_block).
Definition payload1 : list byte := default [] (encode_block block1).

Lemma payload0_stored : stored_as payload0 empty_block.
Proof. split; [vm_compute; reflexivity|vm_compute; discriminate]. Qed.

Lemma payload1_stored : stored_as payload1 block1.
Proof.
  split; [|vm_compute; discriminate]. apply decode_encode_block; [apply block1_wf|vm_compute; reflexivity].
Qed.

Lemma nothing_stored : Forall2 stored_as [] [].
Proof. constructor. Qed.

Lemma payload0_list : Forall2 stored_as [payload0] [empty_block].
Proof. constructor; [apply payload0_stored|constructor]. Qed.

Definition path : string := "chain.blocks".
Definition store1 : BlockStore := mkBlockStore path false V2 true.
Definition disk_full : IoError := mkIoError Other "No space left on device".
Definition disk1 : Disk :=
  mkDisk {[ path := CHAIN_FILE_MAGIC_V2 ++ frames V2 [payload0] ]} [IoFail (Some 2%nat) disk_full].

Lemma store1_holds : store_holds store1 (d_files disk1) [payload0].
Proof.
  split; [done| |by intros [_ ?]|done]. rewrite decide_False by (by intros [_ ?]). apply lookup_insert_eq.
Qed.

Lemma small_file : zlen (file_head V2 ++ frames V2 ([payload0] ++ [payload1])) ≤ isize_max.
Proof.
  rewrite zlen_app, frames_app, zlen_app, !frames_cons, !zlen_app, !zlen_frame. vm_compute. discriminate.
Qed.

(** Two bytes of the new frame reach the file. *)
Lemma torn_append_recovery_witness :
  recover path (d_files (append_payload payload1 (store1, disk1)).2.2)
  = (Ok ([empty_block], true), Some (file_data disk1 path)).
Proof.
  pose proof (torn_append_recovery store1 disk1 [payload0] [empty_block] payload1 block1 store1_holds
    payload0_list payload1_stored small_file) as Hrec.
  assert (length (file_data (append_payload payload1 (store1, disk1)).2.2 path) - length (file_data disk1 path) = 2)%nat as Hk
    by (vm_compute; reflexivity).
  assert (length (append_bytes store1 payload1) > 2)%nat as Hl by (vm_compute; repeat constructor).
  destruct (append_payload payload1 (store1, disk1)) as [r [st' d']]. cbn [fst snd] in *.
  destruct Hrec as (_&_&_&_&_&Htorn). change (bs_path store1) with path in Htorn. rewrite Hk in Htorn.
  rewrite decide_True in Htorn by (split; [discriminate|lia]). apply Htorn. lia.
Defined.

Lemma corrupt_byte_detected_witness :
  let bad := Byte.x55 :: tail payload0 in
  let data := frames V2 [] ++ to_be_bytes_u32 (zlen bad) ++ bad ++ to_be_bytes_u32 (crc32_ieee payload0) ++ [] in
  ∃ msg, parse_v2_block_frames data = Err (StorageDecode msg).
Proof.
  refine (proj1 (corrupt_byte_detected [] [] [] Byte.x54 Byte.x55 (tail payload0) empty_block
            (crc32_ieee payload0) [] nothing_stored _ (crc32_range payload0) _ _)).
  - exact payload0_stored.
  - left. split; [discriminate|reflexivity].
  - vm_compute. discriminate.
Defined.

Lemma store_fail_closed_witness :
  let s := (append_payload payload1 (store1, disk1)).2 in
  Forall (λ r, is_ok r = false) (append_each [payload0; payload1] s).1
  ∧ (append_each [payload0; payload1] s).2 = s.
Proof.
  apply (store_fail_closed store1 disk1 payload1 [payload0; payload1]
           (CHAIN_FILE_MAGIC_V2 ++ frames V2 [payload0])).
  - reflexivity.
  - apply payload1_stored.
  - apply lookup_insert_eq.
  - vm_compute. reflexivity.
Defined.

(** A chain whose policy is not the default one. *)
Definition chain_params : Blockchain :=
  match from_genesis_with_consensus genesis params with
  | Ok c => c
  | _ => mkBlockchain [] State_new ConsensusParams_default
  end.

Definition chain_short : Blockchain := (append_block empty_block chain_params).2.

Lemma chain_short_reachable : reachable genesis chain_short.
Proof.
  exists params, chain_params. split; [vm_compute; reflexivity|].
  apply rtc_once. apply step_append. apply block_wf_dec. vm_compute. reflexivity.
Qed.

Definition new_disk : Disk := mkDisk ∅ [].
Definition opened : BlockStore * Disk :=
  match open_append path new_disk with (Ok st, d) => (st, d) | (_, d) => (store1, d) end.
Definition persisted : BlockStore * Disk :=
  (sfor store_append_block (drop 1 (bc_blocks chain_short)) opened).2.

Lemma reload_exact_witness :
  (load_blockchain_from_disk path genesis (mkDisk (d_files persisted.2) [])).1
  = Ok (mkBlockchain (bc_blocks chain_short) (bc_state chain_short) ConsensusParams_default, false)
  ∧ length (bc_blocks chain_short) = 2%nat.
Proof.
  split; [|vm_compute; reflexivity].
  apply (reload_exact genesis chain_short path new_disk opened.1 opened.2 persisted.1 persisted.2).
  - apply genesis_wf.
  - apply chain_short_reachable.
  - vm_compute. discriminate.
  - vm_compute. reflexivity.
  - vm_compute. reflexivity.
  - vm_compute. reflexivity.
  - intros data Hd. assert (zlen (file_data persisted.2 path) ≤ isize_max) as Hz by (vm_compute; discriminate).
    unfold file_data in Hz. rewrite Hd in Hz. exact Hz.
Defined.
End StorageExample.
