(* ===== verification/Restart.v ===== *)
(** * Restarting on an existing block file ([storage.rs])

    [load_blockchain_from_disk] followed by [open_append], the way the node
    starts: whatever bytes the file holds and whatever calls fail, a start that
    succeeds leaves a file that holds exactly the chain in memory, and has cut
    off at most three trailing bytes. The one exception is a failed existence
    check of the loader: then the chain is the genesis alone, whatever the file
    holds. *)

From Stdlib Require Import ZArith Lia.
From stdpp Require Import base strings list gmap.
From S2P Require Import Prelude Bytes Io Crypto Transaction Wallet Block Encoding Genesis Ledger Mempool MempoolQueue Blockchain Storage StorageSpec.

Lemma file_format_head data fmt off :
  file_format data = (fmt, off) → off = zlen (file_head fmt) ∧ data = file_head fmt ++ drop (Z.to_nat off) data.
Proof.
  unfold file_format. destruct (Z.leb_spec (zlen CHAIN_FILE_MAGIC_V2) (zlen data)) as [Hl|]; cbn [andb];
    [|by intros [= <- <-]]. case_bool_decide as Hm; intros [= <- <-]; [|done]. split; [done|]. cbn [file_head].
  rewrite <- Hm at 1. change (Z.to_nat (zlen CHAIN_FILE_MAGIC_V2)) with 8%nat.
  change (byte_slice data 0 (zlen CHAIN_FILE_MAGIC_V2)) with (take 8 data). by rewrite take_drop.
Qed.

(** What the repairing reader leaves behind. *)
Definition holds_blocks (contents : option (list byte)) (bs : list Block) : Prop :=
  ((contents = None ∨ contents = Some []) ∧ bs = [])
  ∨ ∃ fmt ps, contents = Some (file_head fmt ++ frames fmt ps) ∧ Forall2 stored_as ps bs ∧ (fmt = Legacy → ps ≠ []).

(** The file before and after a repair. *)
Definition cut_tail (before after : option (list byte)) (repaired : bool) : Prop :=
  if repaired
  then ∃ data tail, after = Some data ∧ before = Some (data ++ tail) ∧ 0 < zlen tail < 4
  else after = before.

Lemma repairing_sound path d bs repaired d' :
  read_all_blocks_repairing_tail path d = (Ok (bs, repaired), d') →
  (stats_work d ∨ bs ≠ [] → holds_blocks (d_files d' !! path) bs)
  ∧ cut_tail (d_files d !! path) (d_files d' !! path) repaired.
Proof.
  unfold read_all_blocks_repairing_tail, sbind at 1.
  destruct (path_exists path d) as [[[]| |] d0] eqn:Hex; [| |done..]; cbn [negb].
  2: { intros [= <- <- <-]. pose proof (path_exists_files (E:=StorageError) path d) as [Hf _]. rewrite Hex in Hf.
       cbn [snd] in Hf. rewrite Hf. split; [|done]. intros [Hs|?]; [|done].
       destruct (path_exists_works (E:=StorageError) path d Hs) as (d1&Hw&_). rewrite Hex in Hw.
       injection Hw as Hw _. symmetry in Hw. apply bool_decide_eq_false, eq_None_not_Some in Hw. left. eauto. }
  apply path_exists_true in Hex as [[data Hd] Hf0]. rewrite Hd. rewrite <- Hf0 in Hd. intros Hrun.
  enough (holds_blocks (d_files d' !! path) bs ∧ cut_tail (Some data) (d_files d' !! path) repaired) as [? ?] by auto.
  clear Hf0 d. rename d0 into d. revert Hrun. unfold sbind at 1, storage_io at 1, fs_read, sbind at 1 2, sget, slift.
  destruct (io_call_files d) as [Hf Hr]. destruct (io_call d) as [r d1]. cbn [fst snd] in *.
  destruct Hr as [->|[e ->]]; [|done]. rewrite Hf, Hd. cbn [ok_or map_err].
  destruct (Z.eqb_spec (zlen data) 0) as [Hz|Hnz].
  { intros [= <- <- <-]. rewrite Hf, Hd. split; [|done]. left. split; [|done]. right. f_equal.
    apply nil_length_inv. unfold zlen in Hz. lia. }
  destruct (file_format data) as [fmt off] eqn:Hfmt. destruct (file_format_head _ _ _ Hfmt) as [Hoff Hdata].
  set (body := drop (Z.to_nat off) data) in *.
  assert ((match fmt with Legacy => parse_legacy_block_frames_prefix body | V2 => parse_v2_block_frames_prefix body end)
          = parse_prefix_from fmt (length body) body 0 []) as -> by (by destruct fmt).
  unfold sbind at 1. destruct (parse_prefix_from _ _ _ _ _) as [[blocks consumed]| |] eqn:Hp; [|done..].
  destruct (parse_prefix_sound _ _ _ _ _ _ _ _ (at_pos_start body) Hp) as (ps&bs'&tail&Hbody&->&Hall&->).
  rewrite app_nil_l, Z.add_0_l in *. rewrite Hbody in Hdata.
  assert (zlen data = off + zlen (frames fmt ps) + zlen tail) as Hlen by (rewrite Hdata, !zlen_app; lia).
  pose proof (zlen_nonneg tail) as Htl. pose proof (zlen_nonneg (frames fmt ps)).
  destruct (Z.ltb_spec (off + zlen (frames fmt ps)) (zlen data)) as [Hrep|Hfull].
  - destruct (Nat.eqb (length bs') 0 && _) eqn:Hempty; [done|]. destruct (Z.leb_spec 4 (zlen data - (off + zlen (frames fmt ps)))); [done|].
    assert (take (Z.to_nat (off + zlen (frames fmt ps))) data = file_head fmt ++ frames fmt ps) as ->.
    { rewrite Hdata, (assoc_L (++)). replace (Z.to_nat (off + zlen (frames fmt ps))) with (length (file_head fmt ++ frames fmt ps));
        [apply take_app_length|]. rewrite length_app. unfold zlen in *. lia. }
    unfold sbind, storage_io. destruct (fs_write _ _ d1) as [[[]| |] d2] eqn:Hw; [|done..]. apply fs_write_ok in Hw.
    intros [= <- <- <-]. rewrite Hw, lookup_insert_eq. split.
    + right. exists fmt, ps. split_and!; [done|done|]. intros Hleg ->. inversion Hall; subst. by cbn in Hempty.
    + exists (file_head fmt ++ frames fmt ps), tail. rewrite <- (assoc_L (++)). split_and!; [done|by rewrite <- Hdata|lia|lia].
  - intros [= <- <- <-]. rewrite Hf, Hd. split; [|done]. right. exists fmt, ps.
    assert (tail = []) as -> by (apply nil_length_inv; unfold zlen in *; lia). rewrite app_nil_r in Hdata.
    split_and!; [by rewrite Hdata|done|]. intros -> ->. by rewrite Hdata in Hnz.
Qed.

(** Whatever happens to the calls, the reader leaves the file as it is or cuts
    it: a repair rewrites the file, and may fail halfway. *)
Definition cut_file (before after : option (list byte)) : Prop :=
  after = before ∨ ∃ data k, before = Some data ∧ after = Some (take k data).

Lemma fs_write_cases path data d :
  d_files (fs_write path data d).2 = d_files d ∨ ∃ k, d_files (fs_write path data d).2 = <[ path := take k data ]> (d_files d).
Proof.
  unfold fs_write, next_outcome.
  destruct (d_faults d) as [|[|[k|] e|ok] os]; cbn [snd set_file d_files]; (by left) || (right; by exists k) || right;
    exists (length data); by rewrite firstn_all.
Qed.

Lemma repairing_files path d :
  cut_file (d_files d !! path) (d_files (read_all_blocks_repairing_tail path d).2 !! path).
Proof.
  unfold read_all_blocks_repairing_tail, sbind at 1. destruct (path_exists_files (E:=StorageError) path d) as [Hf0 [ex Hex]].
  destruct (path_exists path d) as [r0 d0]. cbn [fst snd] in *. subst r0. rewrite <- Hf0. destruct ex; cbn [negb]; [|by left].
  unfold sbind at 1, storage_io at 1, fs_read, sbind at 1 2, sget, slift. destruct (io_call_files d0) as [Hf Hr].
  destruct (io_call d0) as [r d1]. cbn [fst snd] in *. rewrite <- Hf. destruct Hr as [->|[e ->]]; [|by left].
  destruct (d_files d1 !! path) as [data|] eqn:Hd; cbn [ok_or map_err]; [|left; exact Hd]. rewrite <- Hd.
  case_match; [by left|]. destruct (file_format data) as [fmt off]. unfold sbind at 1.
  destruct (match fmt with Legacy => _ | V2 => _ end) as [[blocks consumed]| |]; [|by left..]. unfold sbind.
  destruct (_ <? _); [|by left]. destruct (_ && _); [by left|]. destruct (4 <=? _); [by left|]. unfold storage_io.
  destruct (fs_write_cases path (take (Z.to_nat (off + consumed)) data) d1) as [Hw|[k Hw]];
    destruct (fs_write _ _ d1) as [[[]| |] d2]; cbn [snd map_err sret] in *; rewrite Hw; try (by left);
    right; exists data, (Nat.min k (Z.to_nat (off + consumed))); by rewrite lookup_insert_eq, take_take.
Qed.

(** What opening for appending finds out about the file. *)
Lemma open_append_ok path d st d1 :
  open_append path d = (Ok st, d1) →
  let data := file_data d path in
  d_files d1 !! path = Some data ∧ bs_path st = path ∧ bs_poisoned st = false
  ∧ (zlen data = 0 ∧ bs_format st = V2 ∧ bs_v2_magic_on_disk st = false
     ∨ 0 < zlen data ∧ bs_format st = (file_format data).1 ∧ (bs_format st = V2 → bs_v2_magic_on_disk st = true)).
Proof.
  unfold open_append. intros (u1&e1&Ho1%open_create_ok&Hx)%sbind_ok. apply sbind_ok in Hx as (u2&e2&Hf2%io_call_ok&Hx).
  apply sbind_ok in Hx as (e2'&?&[= <- <-]&Hx). set (data := file_data d path) in *. pose proof (zlen_nonneg data).
  assert (file_data e2 path = data) as Hdata by (unfold file_data; by rewrite Hf2, Ho1). rewrite Hdata, <- Hf2 in *.
  destruct (Z.eqb_spec (zlen data) 0) as [Hz|Hnz]; [injection Hx as <- <-; by split_and!; [..|left]|].
  destruct (Z.ltb_spec (zlen data) (zlen CHAIN_FILE_MAGIC_V2)) as [|Hlong]; [done|].
  apply sbind_ok in Hx as (u3&e3&Hf3%io_call_ok&Hx). apply sbind_ok in Hx as (u4&e4&Hf4%io_call_ok&Hx).
  apply sbind_ok in Hx as (u5&e5&Hf5%io_call_ok&Hx). injection Hx as <- <-. rewrite Hf5, Hf4, Hf3.
  split_and!; [done..|]. right. unfold file_format. destruct (Z.leb_spec (zlen CHAIN_FILE_MAGIC_V2) (zlen data)); [|lia].
  cbn [andb bs_format bs_v2_magic_on_disk]. change (byte_slice data 0 (zlen CHAIN_FILE_MAGIC_V2)) with (byte_slice data 0 8).
  split; [lia|]. case_decide; [rewrite bool_decide_true by done|rewrite bool_decide_false by done]; done.
Qed.

(** A legacy file with a block is not empty, nor is one with the magic. *)
Lemma file_not_empty fmt ps bs :
  Forall2 stored_as ps bs → (fmt = Legacy → ps ≠ []) → 0 < zlen (file_head fmt ++ frames fmt ps).
Proof.
  intros Hall Hleg. rewrite zlen_app. pose proof (zlen_nonneg (frames fmt ps)).
  destruct fmt; [|assert (0 < zlen (file_head V2)) by (by vm_compute); lia].
  destruct Hall as [|p b ps bs Hp _]; [by destruct (Hleg eq_refl)|]. rewrite frames_cons, zlen_app, zlen_frame.
  pose proof (zlen_nonneg (frames Legacy ps)). pose proof (zlen_nonneg p). cbn [crc_len file_head]. change (zlen (@nil byte)) with 0. lia.
Qed.

(** Opening a file that holds blocks for appending. *)
Lemma open_append_holds path d bs st d1 :
  holds_blocks (d_files d !! path) bs → open_append path d = (Ok st, d1) →
  ∃ ps, store_holds st (d_files d1) ps ∧ Forall2 stored_as ps bs ∧ bs_path st = path.
Proof.
  intros Hb Ho. destruct (open_append_ok _ _ _ _ Ho) as (Hf1&Hp&Hpo&Hst). unfold file_data in Hf1, Hst.
  destruct Hb as [[Hn ->]|(fmt&ps&Hf&Hall&Hleg)].
  - assert (default [] (d_files d !! path) = []) as Hd by (by destruct Hn as [->| ->]). rewrite Hd in *.
    destruct Hst as [(_&Hv&Hm)|[Hx _]]; [|done]. exists []. split_and!; [|done|done]. split; [done| |done|by rewrite Hv].
    rewrite decide_True by done. by rewrite Hp.
  - rewrite Hf in *. change (default [] (Some ?x)) with x in *. pose proof (file_not_empty fmt ps bs Hall Hleg) as Hne.
    destruct Hst as [[Hz _]|(_&Hfmt&Hm)]; [lia|].
    assert (bs_format st = fmt) as Hfm.
    { pose proof (file_format_frames fmt ps bs [] Hall Hleg) as Hx. rewrite app_nil_r in Hx. by rewrite Hfmt, Hx. }
    assert (¬ magic_pending st) as Hnp by (intros [Hv Hoff]; rewrite Hm in Hoff; done).
    exists ps. split_and!; [|done|done]. split; [done| |done|by rewrite Hfm]. rewrite decide_False by done. by rewrite Hp, Hfm.
Qed.

(** ** A reader beside a writer *)

Lemma stored_payload p1 p2 b : stored_as p1 b → stored_as p2 b → p1 = p2.
Proof. intros [[_ H1]%encode_decode_block _] [[_ H2]%encode_decode_block _]. congruence. Qed.

Lemma stored_payloads ps1 ps2 bs : Forall2 stored_as ps1 bs → Forall2 stored_as ps2 bs → ps1 = ps2.
Proof.
  intros H1. revert ps2. induction H1 as [|p b ps1 bs Hp _ IH]; intros ps2 H2; inversion H2; subst; [done|].
  f_equal; [by eapply stored_payload|by apply IH].
Qed.

(** A file that starts like one of these blocks is never read as more blocks
    than fit into it. *)
Lemma recover_short path files fmt ps bs0 rest bs :
  Forall2 stored_as ps bs0 → ps ≠ [] → files !! path = Some (file_head fmt ++ frames fmt ps ++ rest) →
  ∀ qs rep, Forall2 stored_as qs bs → (recover path files).1 = Ok (bs, rep) →
  zlen (file_head fmt ++ frames fmt qs) ≤ zlen (file_head fmt ++ frames fmt ps ++ rest).
Proof.
  intros Hps Hne Hfile qs rep Hqs. unfold recover. destruct (read_all_blocks_repairing_tail path (mkDisk files [])) as [r d'] eqn:Hread.
  cbn [fst]. intros ->. destruct (repairing_sound _ _ _ _ _ Hread) as [Hh Hcut]. cbn [d_files] in Hcut. rewrite Hfile in Hcut.
  specialize (Hh (or_introl eq_refl)). destruct Hh as [[_ ->]|(fmt'&ps'&Hf'&Hps'&Hleg)].
  { inversion Hqs; subst. rewrite !zlen_app. change (frames fmt []) with (@nil byte). change (zlen (@nil byte)) with 0.
    pose proof (zlen_nonneg (frames fmt ps)). pose proof (zlen_nonneg rest). lia. }
  rewrite (stored_payloads _ _ _ Hqs Hps') in *. clear Hqs qs.
  assert (∃ tail, file_head fmt ++ frames fmt ps ++ rest = file_head fmt' ++ frames fmt' ps' ++ tail) as [tail Heq].
  { rewrite Hf' in Hcut. unfold cut_tail in Hcut. destruct rep.
    - destruct Hcut as (data&tail&[= <-]&[= Heq]&_). exists tail. by rewrite Heq, <- (assoc_L (++)).
    - exists []. rewrite app_nil_r. by injection Hcut as <-. }
  pose proof (file_format_frames fmt ps bs0 rest Hps ltac:(done)) as H1. rewrite Heq, (file_format_frames fmt' ps' bs tail Hps' Hleg) in H1.
  injection H1 as -> _. rewrite Heq, !zlen_app. pose proof (zlen_nonneg tail). lia.
Qed.

(** C40: a load beside a running node can destroy the block file, for any store
    with blocks, any new block and every cut of its length prefix. Let an
    append write the bytes [full]. If another process loads the file when one
    to three of them are in it, the loader takes them for a torn write, reports
    a repair and cuts them off; and when the rest of [full] is appended to what
    the loader left, the file is never again read as the chain of the node that
    wrote it, although the append reported success. *)
Theorem repair_races_append st d ps bs p b st' d' k files1 :
  store_holds st (d_files d) ps → ps ≠ [] → Forall2 stored_as ps bs → stored_as p b →
  zlen (file_head (bs_format st) ++ frames (bs_format st) (ps ++ [p])) ≤ isize_max → (0 < k < 4)%nat →
  append_payload p (st, d) = (Ok tt, (st', d')) →
  let path := bs_path st in
  let old := file_data d path in
  let full := drop (length old) (file_data d' path) in
  files1 !! path = Some (old ++ take k full) →
  let '(loaded, kept) := recover path files1 in
  recover path (d_files d') = (Ok (bs ++ [b], false), Some (old ++ full))
  ∧ loaded = Ok (bs, true) ∧ kept = Some old
  ∧ ∀ files2 repaired, files2 !! path = Some (default [] kept ++ drop k full) →
      (recover path files2).1 ≠ Ok (bs ++ [b], repaired).
Proof.
  intros Hh Hne Hps Hp Hmax Hk Happ path old full Hf1. pose proof Hh as [Hpo Hf Hpend Hleg]. pose proof Hp as [_ Hlen].
  assert (¬ magic_pending st) as Hnm by (intros Hm; by apply Hne, Hpend). rewrite decide_False in Hf by done.
  destruct (append_payload_bytes st d p _ Hpo Hlen Hf) as (n&d2&r&st2&Heq&Hd2&Hr). rewrite Happ in Heq. injection Heq as <- <- <-.
  destruct Hr as [(_&->&_)|[[e ?] _]]; [|done]. rewrite firstn_all in Hd2.
  assert (old = file_head (bs_format st) ++ frames (bs_format st) ps) as Hold by (unfold old, file_data, path; by rewrite Hf).
  assert (d_files d' !! path = Some (old ++ append_bytes st p)) as Hnew by (by rewrite Hd2, lookup_insert_eq, Hold).
  assert (full = append_bytes st p) as Hfull by (unfold full, file_data; rewrite Hnew; apply drop_app_length).
  assert (append_bytes st p = frame (bs_format st) p) as Hab by (unfold append_bytes; by rewrite decide_False).
  assert (frames (bs_format st) (ps ++ [p]) = frames (bs_format st) ps ++ frame (bs_format st) p) as Hsn.
  { rewrite frames_app, frames_cons. change (frames (bs_format st) []) with (@nil byte). by rewrite app_nil_r. }
  rewrite Hsn in Hmax. pose proof (zlen_frame (bs_format st) p) as Hzf. pose proof (zlen_nonneg p). assert (0 ≤ crc_len (bs_format st)) by (by destruct (bs_format st)).
  rewrite Hfull, Hab in *. rewrite Hold in *. clear full Hfull Hab old Hold Hd2.
  assert (recover path files1 = (Ok (bs, true), Some (file_head (bs_format st) ++ frames (bs_format st) ps))) as ->.
  { rewrite <- (assoc_L (++)) in Hf1. pose proof (recover_cut path files1 (bs_format st) ps bs p b k Hps Hp ltac:(done)) as Hc.
    rewrite decide_True in Hc by (split; [done|lia]). apply Hc; [unfold zlen in Hzf; lia|done|].
    rewrite !zlen_app in *. unfold zlen in *. rewrite length_take. lia. }
  split_and!; [|done|done|].
  - rewrite <- (assoc_L (++)), <- Hsn in Hnew |- *. apply recover_complete; [by apply Forall2_app; auto| |done|by rewrite Hsn].
    intros _ Hx. by apply app_eq_nil in Hx as [_ ?].
  - intros files2 rep Hf2 Hrec. cbn [default from_option] in Hf2. unfold id in Hf2. rewrite <- (assoc_L (++)) in Hf2.
    pose proof (recover_short path files2 (bs_format st) ps bs _ (bs ++ [b]) Hps Hne Hf2 (ps ++ [p]) rep) as Hx.
    rewrite Hsn, !zlen_app in Hx. unfold zlen in *. rewrite length_drop in Hx. specialize (Hx ltac:(by apply Forall2_app; auto) Hrec). lia.
Qed.

Section load.
Context `{CryptoLaws}.

Lemma stored_wf ps bs : Forall2 stored_as ps bs → Forall wf_block bs.
Proof. induction 1 as [|p b ps bs [Hd _] _ IH]; constructor; [|done]. by apply encode_decode_block in Hd as [? _]. Qed.

Lemma loaded_genesis_inv g c : from_genesis g = Ok c → chain_inv g c.
Proof.
  intros Hg. apply (from_genesis_inv g (bc_consensus c)). unfold from_genesis_with_consensus. rewrite Hg. cbn [rbind]. by destruct c.
Qed.

Lemma load_sound path g d c repaired d' :
  load_blockchain_from_disk path g d = (Ok (c, repaired), d') →
  chain_inv g c ∧ bc_consensus c = ConsensusParams_default
  ∧ (stats_work d ∨ drop 1 (bc_blocks c) ≠ [] → holds_blocks (d_files d' !! path) (drop 1 (bc_blocks c)))
  ∧ cut_tail (d_files d !! path) (d_files d' !! path) repaired.
Proof.
  unfold load_blockchain_from_disk, sbind at 1.
  destruct (read_all_blocks_repairing_tail path d) as [[[bs rep]| |] d1] eqn:Hread; [|done..].
  destruct (repairing_sound _ _ _ _ _ Hread) as [Hh Hcut]. unfold sbind, slift, chain_from_genesis.
  destruct (from_genesis g) as [c0| |] eqn:Hg; [|done..]. cbn [map_err].
  assert (chain_inv g c0 ∧ bc_blocks c0 = [Block_genesis] ∧ bc_consensus c0 = ConsensusParams_default) as (Hi0&Hb0&Hc0).
  { split; [|unfold from_genesis, rbind in Hg; destruct (State_from_genesis g); [|done..]; by injection Hg as <-].
    by apply loaded_genesis_inv. }
  unfold exec_on. fold (append_blocks bs). destruct (append_blocks bs c0) as [[[]| |] c1] eqn:Ha; [|done..].
  cbn [map_err]. intros [= <- <- <-]. destruct (append_blocks_app _ _ _ Ha) as [Hb Hc].
  assert (drop 1 (bc_blocks c1) = bs) as Hdrop by (rewrite Hb, Hb0; simpl; by rewrite drop_0). rewrite Hdrop.
  assert (Forall wf_block bs) as Hwf.
  { destruct (decide (bs = [])) as [->|Hne]; [done|].
    destruct (Hh (or_intror Hne)) as [[_ ->]|(?&ps&_&Hps&_)]; [done|]. by eapply stored_wf. }
  split_and!; [|by rewrite Hc|done|done]. pose proof (append_blocks_inv g bs c0 Hi0 Hwf) as Hx. by rewrite Ha in Hx.
Qed.

(** C13: a start never invents, loses or reorders a block. Whatever bytes the
    block file holds and whatever file calls fail, if loading succeeds then
    the chain in memory satisfies the chain invariant for the genesis, and the
    file is untouched or lost one to three trailing bytes that the loader
    reports as repaired. If opening it for appending then succeeds too, and no
    existence check failed or the chain has a block above genesis, the healthy
    store holds exactly the blocks of that chain above genesis. *)
Theorem restart_consistent path g d c repaired d1 :
  load_blockchain_from_disk path g d = (Ok (c, repaired), d1) →
  chain_inv g c ∧ cut_tail (d_files d !! path) (d_files d1 !! path) repaired
  ∧ ∀ d2 st d3, d_files d2 !! path = d_files d1 !! path → open_append path d2 = (Ok st, d3) →
      stats_work d ∨ drop 1 (bc_blocks c) ≠ [] →
      ∃ ps, store_holds st (d_files d3) ps ∧ Forall2 stored_as ps (drop 1 (bc_blocks c)) ∧ bs_path st = path.
Proof.
  intros Hl. destruct (load_sound _ _ _ _ _ _ Hl) as (Hi&_&Hh&Hcut). split_and!; [done|done|].
  intros d2 st d3 Heq Ho Hs. rewrite <- Heq in Hh. eapply open_append_holds; eauto.
Qed.

Lemma from_genesis_blocks g c : from_genesis g = Ok c → bc_blocks c = [Block_genesis].
Proof. unfold from_genesis, rbind. destruct (State_from_genesis g); [|done..]. by intros [= <-]. Qed.

(** A file with two blocks of height 1 is not the file of a chain. *)
Lemma repeated_height_unloadable path g files bs b :
  holds_blocks (files !! path) (bs ++ [b]) → zlen (default [] (files !! path)) ≤ isize_max →
  bs ≠ [] → blk_height b = 1 → is_ok (load_blockchain_from_disk path g (mkDisk files [])).1 = false.
Proof.
  intros Hh Hmax Hne Hb. destruct (load_blockchain_from_disk path g (mkDisk files [])) as [[[c rep]| |] d'] eqn:Hl; [|done..].
  destruct Hh as [[_ Hx]|(fmt&ps&Hf&Hps&Hleg)]; [by apply app_eq_nil in Hx as [? _]|]. rewrite Hf in Hmax.
  pose proof (recover_complete path files fmt ps _ Hps Hleg Hf Hmax) as Hrec. unfold recover in Hrec.
  destruct (load_sound _ _ _ _ _ _ Hl) as (Hi&_). unfold load_blockchain_from_disk, sbind at 1 in Hl.
  destruct (read_all_blocks_repairing_tail path (mkDisk files [])) as [r d1]. injection Hrec as -> _.
  unfold sbind, slift, chain_from_genesis in Hl. destruct (from_genesis g) as [c0| |] eqn:Hg; [|done..]. cbn [map_err] in Hl.
  unfold exec_on in Hl. fold (append_blocks (bs ++ [b])) in Hl.
  destruct (append_blocks (bs ++ [b]) c0) as [[[]| |] c1] eqn:Ha; [|done..]. injection Hl as <- _ _.
  destruct (append_blocks_app _ _ _ Ha) as [Hbl _]. rewrite (from_genesis_blocks g c0 Hg) in Hbl.
  assert (bc_blocks c1 !! S (length bs) = Some b) as Hx.
  { rewrite Hbl. change ((bs ++ [b]) !! length bs = Some b). by apply list_lookup_middle. }
  apply (ci_heights _ _ Hi) in Hx. destruct bs; [done|]. cbn [length] in Hx. lia.
Qed.

(** C39: the exception. When the existence check of the loader fails, the
    loader returns the chain of the genesis alone, reads nothing and reports
    no repair, whatever blocks the file holds. Opening the file for appending
    still succeeds, and a block that extends this chain and is appended
    successfully is written behind the old blocks: the file then holds two
    blocks of height 1, and no later start can load it. *)
Theorem failed_check_forgets_chain path g d os c bs st d2 :
  d_faults d = IoStat false :: os → from_genesis g = Ok c → bs ≠ [] →
  holds_blocks (d_files d !! path) bs → open_append path (mkDisk (d_files d) os) = (Ok st, d2) →
  load_blockchain_from_disk path g d = (Ok (c, false), mkDisk (d_files d) os)
  ∧ bc_blocks c = [Block_genesis]
  ∧ ∀ b st' d3, wf_block b → extends (bc_consensus c) Block_genesis b → store_append_block b (st, d2) = (Ok tt, (st', d3)) →
      holds_blocks (d_files d3 !! path) (bs ++ [b])
      ∧ (zlen (file_data d3 path) ≤ isize_max →
         ∀ g2, is_ok (load_blockchain_from_disk path g2 (mkDisk (d_files d3) [])).1 = false).
Proof.
  intros Hf Hg Hne Hh Ho. split_and!; [|by apply (from_genesis_blocks g)|].
  { unfold load_blockchain_from_disk, read_all_blocks_repairing_tail, path_exists, sbind. rewrite Hf. cbn [andb negb].
    unfold slift, chain_from_genesis, sret, exec_on. by rewrite Hg. }
  intros b st' d3 Hw (_&Hb&_) Ha. destruct (open_append_holds path (mkDisk (d_files d) os) bs st d2 Hh Ho) as (ps&Hst&Hps&Hpath).
  assert (holds_blocks (d_files d3 !! path) (bs ++ [b])) as Hnew.
  { destruct (persist_blocks st d2 ps [b] bs st' d3) as (ps'&Hst'&Hps'&Hp'&_); [done..|by constructor| |].
    { cbn [sfor]. unfold sbind. by rewrite Ha. }
    pose proof Hst' as [_ Hfile Hpend Hleg]. rewrite Hp', Hpath in Hfile. rewrite decide_False in Hfile.
    { right. by exists (bs_format st'), ps'. }
    intros ->%Hpend. apply Forall2_length in Hps'. rewrite length_app in Hps'. simpl in Hps'. lia. }
  split; [done|]. intros Hmax g2. by apply (repeated_height_unloadable path g2 _ bs b).
Qed.
End load.
