(* ===== verification/PendingTx.v ===== *)
(** * The pending transaction file ([pending_tx_file.rs], [file_lock.rs])

    The queue file [pending_tx.tril] between the [send] command, which appends
    to it, and the running node, which drains it into its mempool. Both hold
    the lock file for their whole operation, so each is one step here. The
    parsing loop has the length of its input as fuel. *)

From Stdlib Require Import ZArith Lia.
From stdpp Require Import base strings list gmap fin_maps.
From S2P Require Import Prelude Bytes Io Crypto Transaction Wallet Block Encoding Genesis Ledger Mempool MempoolQueue.

Definition MAX_PENDING_TX_FRAME : Z := 4 * 1024 * 1024.
Definition PENDING_TX_LOCK_FILE : string := ".pending_tx.lock".

Definition pending_queue_lock_path (pending_tx_path : string) : string :=
  let parent := path_parent pending_tx_path in
  path_join (if String.eqb parent "" then "." else parent) PENDING_TX_LOCK_FILE.

Fixpoint parse_pending_from (fuel : nat) (data : list byte) (pos : Z) (out : list Transaction) :
    Res string (list Transaction) :=
  if negb (pos <? zlen data) then Ok out
  else
    match fuel with
    | O => Panic
    | S f =>
      if zlen data <? pos + 4 then Err "pending_tx.tril: truncated length prefix"
      else
        let len := u32_at data pos in
        let pos := pos + 4 in
        if MAX_PENDING_TX_FRAME <? len then Err "pending_tx.tril: frame too large"
        else if zlen data <? pos + len then Err "pending_tx.tril: truncated frame body"
        else
          let? tx := map_err EncodeError_display (decode_transaction (byte_slice data pos (pos + len))) in
          parse_pending_from f data (pos + len) (out ++ [tx])
    end.

Definition parse_pending_file_bytes (data : list byte) : Res string (list Transaction) :=
  if zlen data =? 0 then Ok [] else parse_pending_from (length data) data 0 [].

Fixpoint encode_pending_from (buf : list byte) (txs : list Transaction) : Res string (list byte) :=
  match txs with
  | [] => Ok buf
  | tx :: txs' =>
    let? payload := expect (encode_transaction tx) in
    if u32_max <? zlen payload then Err "encoded transaction length exceeds u32"
    else encode_pending_from (buf ++ to_be_bytes_u32 (zlen payload) ++ payload) txs'
  end.

Definition encode_pending_payload (txs : list Transaction) : Res string (list byte) :=
  encode_pending_from [] txs.

(** On Unix. *)
Definition rename_replace_pending_file (src dest : string) : ST Disk IoError unit := fs_rename src dest.

Definition write_pending_atomic (path : string) (payload : list byte) : ST Disk IoError unit :=
  let tmp := with_extension path "tril.tmp" in
  fs_write tmp payload ;;!
  io_call ;;!                               (* File::open(&tmp) *)
  io_call ;;!                               (* sync_all *)
  rename_replace_pending_file tmp path ;;!
  (* the directory is synced on a best-effort basis *)
  (λ d, if String.eqb (path_parent path) "" then (Ok tt, d)
        else
          match try_call d with
          | (true, d1) => (Ok tt, snd (try_call d1))
          | (false, d1) => (Ok tt, d1)
          end).

Definition lock_message (lock_path : string) (e : IoError) : string :=
  PFX_PENDING +:+ " fail-closed: could not acquire queue lock " +:+ lock_path +:+ " — " +:+ IoError_display e.

Definition append_pending_transaction (path : string) (tx : Transaction) : ST Disk IoError unit :=
  let lock_path := pending_queue_lock_path path in
  smap_err (λ e, mkIoError Other (lock_message lock_path e)) (acquire_exclusive lock_path) ;;!
  let! payload := slift (expect (encode_transaction tx)) in
  if u32_max <? zlen payload then sfail (mkIoError InvalidInput "encoded transaction length exceeds u32")
  else
    let frame := to_be_bytes_u32 (zlen payload) ++ payload in
    open_create path ;;!
    write_all_append path frame ;;!
    io_call.                                (* sync_all *)

(** The loop of the drain: the number of queue entries consumed. *)
Fixpoint drain_from `{CryptoLib} (txs : list Transaction) (i : nat) (pool : Mempool) : Res string nat * Mempool :=
  match txs with
  | [] => (Ok i, pool)
  | tx :: txs' =>
    match try_submit_pending_drain tx pool with
    | (Ok _, pool') => drain_from txs' (S i) pool'
    | (Err DuplicateTransaction, pool') => drain_from txs' (S i) pool'
    | (Err _, pool') => (Ok i, pool')
    | (Panic, pool') => (Panic, pool')
    end
  end.

(** A file call of the drain, which also holds the pool. *)
Definition drain_io {A} (m : ST Disk IoError A) : ST (Mempool * Disk) string A := λ '(pool, d),
  let '(r, d') := m d in (map_err IoError_display r, (pool, d')).

(** [if let Err(e) = write_pending_atomic(..) { pool.restore_fifo(..); return Err(..) }] *)
Definition write_or_restore (path : string) (payload : list byte) (pool_before : list Transaction) :
    ST (Mempool * Disk) string unit := λ '(pool, d),
  match write_pending_atomic path payload d with
  | (Ok _, d') => (Ok tt, (pool, d'))
  | (Err e, d') => (Err (IoError_display e), (restore_fifo pool_before pool, d'))
  | (Panic, d') => (Panic, (pool, d'))
  end.

Definition drain_pending_file `{CryptoLib} (path : string) : ST (Mempool * Disk) string unit :=
  let lock_path := pending_queue_lock_path path in
  (λ '(pool, d), let '(r, d') := acquire_exclusive lock_path d in
                 (map_err (lock_message lock_path) r, (pool, d'))) ;;!
  let! s := sget in
  let! ex := drain_io (path_exists path) in
  if negb ex then sret tt
  else
    let! data := drain_io (fs_read path) in
    let! txs := slift (parse_pending_file_bytes data) in
    let pool_before := clone_fifo (fst s) in
    if Nat.eqb (length txs) 0 then write_or_restore path [] pool_before
    else
      let! i := (λ '(pool, d), let '(r, pool') := drain_from txs 0 pool in (r, (pool', d))) in
      let! encoded := slift (encode_pending_payload (drop i txs)) in
      write_or_restore path encoded pool_before.

(** ** Frames of the queue file *)

(** [p] is the payload of a frame that decodes to [tx]. *)
Definition pending_as (p : list byte) (tx : Transaction) : Prop :=
  decode_transaction p = Ok tx ∧ zlen p ≤ MAX_PENDING_TX_FRAME.

Definition pending_frame (p : list byte) : list byte := to_be_bytes_u32 (zlen p) ++ p.
Definition pending_frames (ps : list (list byte)) : list byte := ps ≫= pending_frame.

Lemma zlen_pending_frame p : zlen (pending_frame p) = 4 + zlen p.
Proof. unfold pending_frame. rewrite zlen_app, zlen_be_u32. done. Qed.

Lemma pending_frames_cons p ps : pending_frames (p :: ps) = pending_frame p ++ pending_frames ps.
Proof. done. Qed.

Lemma pending_frames_length ps : (4 * length ps ≤ length (pending_frames ps))%nat.
Proof.
  induction ps as [|p ps IH]; [simpl; lia|]. rewrite pending_frames_cons, length_app.
  pose proof (zlen_pending_frame p) as Hf. unfold zlen in *. cbn [length] in *. lia.
Qed.

Lemma pending_len_u32 (p : list byte) : zlen p ≤ MAX_PENDING_TX_FRAME → in_u32 (zlen p).
Proof. pose proof (zlen_nonneg p). unfold in_u32, u32_max, MAX_PENDING_TX_FRAME. lia. Qed.

Lemma parse_pending_frames ps txs f data pos out rest :
  Forall2 pending_as ps txs → at_pos data pos (pending_frames ps ++ rest) →
  parse_pending_from (length ps + f) data pos out
  = parse_pending_from f data (pos + zlen (pending_frames ps)) (out ++ txs).
Proof.
  intros Hs. revert pos out. induction Hs as [|p tx ps txs [Hdec Hlen] Hs IH]; intros pos out Hat.
  { change (pending_frames []) with (@nil byte). rewrite app_nil_r.
    change (length [] + f)%nat with f. f_equal. change (zlen (@nil byte)) with 0. lia. }
  rewrite pending_frames_cons in *. rewrite <- (assoc_L (++)) in Hat.
  pose proof (at_pos_len _ _ _ Hat) as Hd. rewrite zlen_app, zlen_pending_frame in Hd.
  pose proof (zlen_nonneg p). pose proof (zlen_nonneg (pending_frames ps ++ rest)).
  assert (u32_at data pos = zlen p) as Hu.
  { eapply at_pos_u32; [by apply pending_len_u32|]. unfold pending_frame in Hat.
    rewrite <- (assoc_L (++)) in Hat. exact Hat. }
  assert (byte_slice data (pos + 4) (pos + 4 + zlen p) = p) as Hp.
  { unfold pending_frame in Hat. rewrite <- (assoc_L (++)) in Hat. apply at_pos_advance in Hat.
    rewrite zlen_be_u32 in Hat. by apply at_pos_slice in Hat. }
  apply at_pos_advance in Hat. rewrite zlen_pending_frame in Hat.
  change (length (p :: ps) + f)%nat with (S (length ps + f)). cbn [parse_pending_from].
  destruct (Z.ltb_spec pos (zlen data)); [|lia]. cbn [negb].
  destruct (Z.ltb_spec (zlen data) (pos + 4)); [lia|]. rewrite Hu.
  destruct (Z.ltb_spec MAX_PENDING_TX_FRAME (zlen p)); [lia|].
  destruct (Z.ltb_spec (zlen data) (pos + 4 + zlen p)); [lia|].
  rewrite Hp, Hdec. cbn [map_err rbind].
  replace (pos + 4 + zlen p) with (pos + (4 + zlen p)) by lia. rewrite IH by done.
  rewrite zlen_app, zlen_pending_frame, <- (assoc_L (++)). f_equal. lia.
Qed.

Lemma parse_pending_complete ps txs :
  Forall2 pending_as ps txs → parse_pending_file_bytes (pending_frames ps) = Ok txs.
Proof.
  intros Hs. unfold parse_pending_file_bytes. pose proof (pending_frames_length ps) as Hl.
  destruct (Z.eqb_spec (zlen (pending_frames ps)) 0) as [Hz|_].
  { destruct Hs; [done|]. unfold zlen in Hz. cbn [length] in Hl. lia. }
  set (data := pending_frames ps) in *.
  assert (∃ f, length data = length ps + f)%nat as [f ->] by (exists (length data - length ps)%nat; lia).
  rewrite (parse_pending_frames ps txs f data 0 [] []); [|done|unfold data; rewrite app_nil_r; apply at_pos_start].
  fold data. rewrite Z.add_0_l. cbn [app].
  destruct f; cbn [parse_pending_from]; (destruct (Z.ltb_spec (zlen data) (zlen data)); [lia|done]).
Qed.

(** Conversely, whatever parses is a sequence of frames. *)
Lemma parse_pending_from_ok f data pos out res rest :
  at_pos data pos rest → parse_pending_from f data pos out = Ok res →
  ∃ ps txs, rest = pending_frames ps ∧ res = out ++ txs ∧ Forall2 pending_as ps txs.
Proof.
  revert pos out rest. induction f as [|f IH]; intros pos out rest Hat Hp; cbn [parse_pending_from] in Hp;
    (destruct (Z.ltb_spec pos (zlen data));
     [|exists [], []; injection Hp as <-; rewrite app_nil_r, (at_pos_end _ _ _ Hat) by lia; by split_and!]); [done|].
  cbn [negb] in Hp. destruct (Z.ltb_spec (zlen data) (pos + 4)); [done|].
  destruct (Z.ltb_spec MAX_PENDING_TX_FRAME (u32_at data pos)) as [|Hmax]; [done|].
  destruct (Z.ltb_spec (zlen data) (pos + 4 + u32_at data pos)); [done|].
  pose proof (be_combine_range (byte_slice data pos (pos + 4))) as Hr. fold (u32_at data pos) in Hr.
  destruct (at_pos_take_u32 _ _ _ Hat ltac:(lia)) as (rest1&->&Hat1).
  destruct (at_pos_take _ _ _ _ Hat1 ltac:(apply Hr) ltac:(lia)) as (p&rest2&->&Hpl&Hs&Hat2). rewrite Hs in Hp.
  destruct (decode_transaction p) as [tx| |] eqn:Hdec; [|done..]. cbn [map_err rbind] in Hp.
  destruct (IH _ _ _ Hat2 Hp) as (ps&txs&->&->&Hall).
  exists (p :: ps), (tx :: txs). split_and!.
  - rewrite pending_frames_cons. unfold pending_frame. rewrite Hpl. by rewrite <- (assoc_L (++)).
  - by rewrite <- (assoc_L (++)).
  - constructor; [|done]. split; [done|lia].
Qed.

Lemma parse_pending_ok data txs :
  parse_pending_file_bytes data = Ok txs ↔ ∃ ps, data = pending_frames ps ∧ Forall2 pending_as ps txs.
Proof.
  split.
  - unfold parse_pending_file_bytes. destruct (Z.eqb_spec (zlen data) 0) as [Hz|_].
    + intros [= <-]. exists []. split; [|constructor]. apply nil_length_inv. unfold zlen in Hz. lia.
    + intros Hp. destruct (parse_pending_from_ok _ _ _ _ _ _ (at_pos_start data) Hp) as (ps&t&->&->&Hs). by exists ps.
  - intros (ps&->&Hs). by apply parse_pending_complete.
Qed.

Lemma encode_pending_from_ok ps txs buf :
  Forall2 pending_as ps txs → encode_pending_from buf txs = Ok (buf ++ pending_frames ps).
Proof.
  intros Hs. revert buf. induction Hs as [|p tx ps txs [Hdec Hlen] Hs IH]; intros buf; cbn [encode_pending_from].
  { by rewrite app_nil_r. }
  apply decode_transaction_ok in Hdec as [[_ Hfit] ->].
  assert (encode_transaction tx = Some (tx_encoding tx)) as -> by (by apply encode_transaction_Some).
  cbn [expect rbind]. apply pending_len_u32 in Hlen as Hu. unfold in_u32 in Hu.
  destruct (Z.ltb_spec u32_max (zlen (tx_encoding tx))); [lia|]. rewrite IH, <- (assoc_L (++)). done.
Qed.

Lemma parse_pending_no_panic data : parse_pending_file_bytes data ≠ Panic.
Proof.
  unfold parse_pending_file_bytes. next_guard.
  assert (∀ f pos out, zlen data - pos ≤ Z.of_nat f → parse_pending_from f data pos out ≠ Panic) as Hgen.
  { induction f as [|f IH]; intros pos out Hf; cbn [parse_pending_from].
    { destruct (Z.ltb_spec pos (zlen data)); [lia|done]. }
    pose proof (be_combine_range (byte_slice data pos (pos + 4))) as Hr. fold (u32_at data pos) in Hr.
    do 4 next_guard. pose proof (decode_transaction_no_panic (byte_slice data (pos + 4) (pos + 4 + u32_at data pos))).
    destruct (decode_transaction _); [|done..]. apply IH. lia. }
  apply Hgen. unfold zlen. lia.
Qed.

(** ** Draining *)

Section drain.
Context `{CryptoLib}.

Lemma drain_step tx m :
  mp_inv m →
  match try_submit_pending_drain tx m with
  | (Ok _, m') => mp_inv m' ∧ clone_fifo m' = clone_fifo m ++ [tx] ∧ mp_capacity m' = mp_capacity m
  | (Err e, m') => m' = m ∧ (e = DuplicateTransaction → is_Some (mp_txs m !! tx_tx_hash tx))
  | (Panic, _) => False
  end.
Proof.
  intros Hi. pose proof (tx_basic_validate_no_panic tx) as Hnp. pose proof (tx_basic_validate_err tx) as He.
  unfold try_submit_pending_drain, sbind, slift, sget, sput, sfail.
  destruct (tx_basic_validate tx) as [[]|e|] eqn:Hv; [|split; [done|]|done].
  2: { intros ->. destruct (He _ eq_refl) as [?|[?|[?|[?|?]]]]; done. }
  destruct (decide (is_Some (mp_txs m !! tx_tx_hash tx))) as [Hd|Hd]; [done|].
  destruct (nonce_conflict tx m) eqn:Hn; [done|].
  destruct (Nat.leb_spec (mp_capacity m) (mp_len m)); [done|].
  apply eq_None_not_Some in Hd. pose proof (mi_views _ Hi) as Hviews.
  destruct (insert_tx_implements tx m) as [Hi' Ha]; [done..|by apply no_conflict_free|done|].
  injection Ha as Hq. done.
Qed.

Lemma drain_from_spec txs i pool :
  mp_inv pool →
  ∃ n pool', drain_from txs i pool = (Ok (i + n)%nat, pool') ∧ (n ≤ length txs)%nat
    ∧ mp_inv pool' ∧ mp_capacity pool' = mp_capacity pool
    ∧ (∃ added, clone_fifo pool' = clone_fifo pool ++ added ∧ added `sublist_of` take n txs)
    ∧ ∀ t, t ∈ take n txs → is_Some (mp_txs pool' !! tx_tx_hash t).
Proof.
  revert i pool. induction txs as [|t txs IH]; intros i pool Hi; cbn [drain_from].
  { exists 0%nat, pool. rewrite Nat.add_0_r. split_and!; [done|done|done|done| |by intros t ?%elem_of_nil].
    exists []. by rewrite app_nil_r. }
  assert (∃ added, clone_fifo pool = clone_fifo pool ++ added ∧ added `sublist_of` take 0 (t :: txs)) as Hstop
    by (exists []; by rewrite app_nil_r).
  pose proof (drain_step t pool Hi) as Hstep.
  destruct (try_submit_pending_drain t pool) as [[[]|e|] pool1]; [| |done].
  - destruct Hstep as (Hi1&Hq1&Hc1). destruct (IH (S i) pool1 Hi1) as (n&pool'&->&Hn&Hi'&Hc'&(added&Hq&Hsub)&Hin).
    exists (S n), pool'. split_and!; [by rewrite Nat.add_succ_r|simpl; lia|done|congruence| |].
    + exists (t :: added). split; [by rewrite Hq, Hq1, <- (assoc_L (++))|]. by constructor.
    + intros u [->|Hu]%elem_of_cons; [|by apply Hin].
      assert (t ∈ clone_fifo pool') as Ht by (rewrite Hq, Hq1; set_solver).
      apply (clone_fifo_elem _ _ _ (mi_views _ Hi')) in Ht. by rewrite Ht.
  - destruct Hstep as [-> Hdup].
    destruct (decide (e = DuplicateTransaction)) as [->|Hne].
    + destruct (IH (S i) pool Hi) as (n&pool'&->&Hn&Hi'&Hc'&(added&Hq&Hsub)&Hin).
      exists (S n), pool'. split_and!; [by rewrite Nat.add_succ_r|simpl; lia|done|done| |].
      * exists added. split; [done|]. by constructor.
      * intros u [->|Hu]%elem_of_cons; [|by apply Hin]. destruct (Hdup eq_refl) as [v Hv].
        pose proof (mv_hash _ _ (mi_views _ Hi) _ _ Hv) as Hh.
        assert (v ∈ clone_fifo pool') as Hvin.
        { rewrite Hq. apply elem_of_app. left. apply (clone_fifo_elem _ _ _ (mi_views _ Hi)). by rewrite Hh. }
        apply (clone_fifo_elem _ _ _ (mi_views _ Hi')) in Hvin. rewrite Hh in Hvin. by rewrite Hvin.
    + exists 0%nat, pool. rewrite Nat.add_0_r. split_and!; [by destruct e|lia|done|done|done|].
      by intros u ?%elem_of_nil.
Qed.

(** Replacing the file either happens completely or leaves the file as it was. *)
Lemma write_pending_atomic_spec path payload d data :
  with_extension path "tril.tmp" ≠ path → d_files d !! path = Some data →
  ∃ r d', write_pending_atomic path payload d = (r, d')
    ∧ ((r = Ok tt ∧ d_files d' !! path = Some payload)
       ∨ (∃ e, r = Err e) ∧ d_files d' !! path = Some data).
Proof.
  intros Hne Hd. unfold write_pending_atomic, rename_replace_pending_file. set (tmp := with_extension path "tril.tmp") in *.
  assert (∃ d1, (fs_write tmp payload d = (Ok tt, d1) ∧ d_files d1 !! tmp = Some payload
                 ∨ ∃ e, fs_write tmp payload d = (Err e, d1)) ∧ d_files d1 !! path = Some data) as (d1&Hw&Hd1).
  { exists (fs_write tmp payload d).2. unfold fs_write, next_outcome.
    destruct (d_faults d) as [|[|[k|] e|ok] os]; cbn [d_files set_file fst snd];
      (split; [|by rewrite ?lookup_insert_ne by done]).
    1, 2, 5: left; split; [done|apply lookup_insert_eq].
    all: right; by eexists. }
  unfold sbind at 1. destruct Hw as [[-> Htmp]|[e ->]]; [|by eexists _, _; split; [done|]; right; eauto].
  unfold sbind at 1. destruct (io_call_files d1) as [Hf2 Hr2]. destruct (io_call d1) as [r2 d2]. cbn [fst snd] in *.
  rewrite <- Hf2 in Htmp, Hd1. destruct Hr2 as [->|[e ->]]; [|by eexists _, _; split; [done|]; right; eauto].
  unfold sbind at 1. destruct (io_call_files d2) as [Hf3 Hr3]. destruct (io_call d2) as [r3 d3]. cbn [fst snd] in *.
  rewrite <- Hf3 in Htmp, Hd1. destruct Hr3 as [->|[e ->]]; [|by eexists _, _; split; [done|]; right; eauto].
  unfold fs_rename. unfold sbind at 1 2.
  destruct (io_call_files d3) as [Hf4 Hr4]. destruct (io_call d3) as [r4 d4]. cbn [fst snd] in *.
  rewrite <- Hf4 in Htmp, Hd1. destruct Hr4 as [->|[e ->]]; [|by eexists _, _; split; [done|]; right; eauto].
  unfold sbind at 1, sget, sput. rewrite Htmp.
  destruct (String.eqb (path_parent path) ""); [eexists _, _; split; [done|]; left; split; [done|apply lookup_insert_eq]|].
  set (d5 := mkDisk _ _). assert (∀ d, d_files (try_call d).2 = d_files d) as Htry.
  { intros d0. unfold try_call. destruct (io_call_files d0) as [Hf _]. by destruct (io_call d0) as [[]?]. }
  pose proof (Htry d5) as H5. destruct (try_call d5) as [[] d6]; cbn [snd] in *.
  - eexists _, _. split; [done|]. left. split; [done|]. rewrite Htry, H5. apply lookup_insert_eq.
  - eexists _, _. split; [done|]. left. split; [done|]. rewrite H5. apply lookup_insert_eq.
Qed.

Lemma write_or_restore_spec path payload before pool d data :
  with_extension path "tril.tmp" ≠ path → d_files d !! path = Some data →
  ∃ r pool' d', write_or_restore path payload before (pool, d) = (r, (pool', d'))
    ∧ ((r = Ok tt ∧ pool' = pool ∧ d_files d' !! path = Some payload)
       ∨ (∃ e, r = Err e) ∧ pool' = restore_fifo before pool ∧ d_files d' !! path = Some data).
Proof.
  intros Hne Hd. unfold write_or_restore.
  destruct (write_pending_atomic_spec path payload d data Hne Hd) as (r&d'&->&[[-> Hf]|[[e ->] Hf]]).
  - eexists _, _, _. split; [done|]. by left.
  - eexists _, _, _. split; [done|]. right. eauto.
Qed.

Lemma acquire_exclusive_files lock path d data :
  d_files d !! path = Some data →
  ∃ r d', acquire_exclusive lock d = (r, d') ∧ d_files d' !! path = Some data ∧ (r = Ok tt ∨ ∃ e, r = Err e).
Proof.
  intros Hd. unfold acquire_exclusive, open_create. unfold sbind at 1 2.
  destruct (io_call_files d) as [Hf1 Hr1]. destruct (io_call d) as [r1 d1]. cbn [fst snd] in *.
  destruct Hr1 as [->|[e ->]]; [|eexists _, _; split; [done|]; rewrite Hf1; eauto].
  unfold sbind at 1, sget.
  assert (∃ d2, (match d_files d1 !! lock with Some _ => sret tt | None => sput (set_file lock [] d1) end) d1
     = (Ok tt : Res IoError unit, d2) ∧ d_files d2 !! path = Some data) as (d2&->&Hd2).
  { destruct (d_files d1 !! lock) as [x|] eqn:Hl.
    - exists d1. rewrite Hf1. done.
    - eexists. split; [done|]. cbn [set_file d_files]. rewrite lookup_insert_ne by congruence. by rewrite Hf1. }
  destruct (io_call_files d2) as [Hf3 Hr3]. destruct (io_call d2) as [r3 d3]. cbn [fst snd] in *.
  eexists _, _. split; [done|]. rewrite Hf3. eauto.
Qed.

(** What a successful drain of the transactions [txs] did. *)
Definition drained (path : string) (txs : list Transaction) (pool pool' : Mempool) (d' : Disk) : Prop :=
  ∃ consumed remaining added data',
    txs = consumed ++ remaining ∧ d_files d' !! path = Some data'
    ∧ parse_pending_file_bytes data' = Ok remaining
    ∧ clone_fifo pool' = clone_fifo pool ++ added ∧ added `sublist_of` consumed
    ∧ ∀ t, t ∈ consumed → is_Some (mp_txs pool' !! tx_tx_hash t).

(** The drain once the file was read and parsed. *)
Definition drain_parsed (path : string) (txs : list Transaction) (before : list Transaction) : ST (Mempool * Disk) string unit :=
  if Nat.eqb (length txs) 0 then write_or_restore path [] before
  else
    let! i := (λ '(pool, d), let '(r, pool') := drain_from txs 0 pool in (r, (pool', d))) in
    let! encoded := slift (encode_pending_payload (drop i txs)) in
    write_or_restore path encoded before.

Lemma drain_parsed_conserves path pool d data txs :
  mp_inv pool → with_extension path "tril.tmp" ≠ path → d_files d !! path = Some data →
  parse_pending_file_bytes data = Ok txs →
  let '(r, (pool', d')) := drain_parsed path txs (clone_fifo pool) (pool, d) in
  mp_inv pool' ∧ r ≠ Panic
  ∧ (∀ e, r = Err e → pool' = pool ∧ d_files d' !! path = Some data)
  ∧ (r = Ok tt → drained path txs pool pool' d').
Proof.
  intros Hi Hne Hd (ps&Hdata&Hps)%parse_pending_ok. unfold drain_parsed.
  assert (∀ pool1, mp_capacity pool1 = mp_capacity pool → restore_fifo (clone_fifo pool) pool1 = pool) as Hrestore
    by (intros pool1 Hc; apply restore_clone; [apply Hi|done]).
  destruct (Nat.eqb_spec (length txs) 0) as [->%nil_length_inv|Hnz].
  { destruct (write_or_restore_spec path [] (clone_fifo pool) pool d data Hne Hd)
      as (r3&p3&d3&->&[(->&->&Hf)|([e ->]&->&Hf)]).
    - split_and!; [done..|]. intros _. exists [], [], [], []. rewrite (app_nil_r (clone_fifo pool)).
      split_and!; [done..|]. by intros t ?%elem_of_nil.
    - rewrite Hrestore by done. by split_and!. }
  unfold sbind at 1. destruct (drain_from_spec txs 0 pool Hi) as (n&pool1&->&Hn&Hi1&Hc1&(added&Hq&Hsub)&Hin).
  cbn [Nat.add]. unfold sbind at 1, slift, encode_pending_payload.
  assert (Forall2 pending_as (drop n ps) (drop n txs)) as Hps' by (by apply Forall2_drop).
  rewrite (encode_pending_from_ok _ _ [] Hps'). cbn [app].
  destruct (write_or_restore_spec path (pending_frames (drop n ps)) (clone_fifo pool) pool1 d data Hne Hd)
    as (r3&p3&d3&->&[(->&->&Hf)|([e ->]&->&Hf)]).
  - split_and!; [done..|]. intros _. exists (take n txs), (drop n txs), added, (pending_frames (drop n ps)).
    split_and!; [by rewrite take_drop|done|by apply parse_pending_complete|done..].
  - rewrite Hrestore by done. by split_and!.
Qed.

(** C27: no queued transaction is lost or duplicated by a drain, whatever the
    file holds and whatever fails. If the drain reports an error, which it
    does when the file does not parse, the pool is exactly what it was and the
    file is unchanged. If it reports success, the queue file parsed and its
    transactions split into a consumed prefix and a remaining suffix: the file
    now holds exactly the suffix, every consumed transaction is represented in
    the pool, and the pool kept all its old transactions in order; or the
    existence check failed, and pool and file are unchanged. *)
Theorem drain_conserves path pool d data :
  mp_inv pool → with_extension path "tril.tmp" ≠ path → d_files d !! path = Some data →
  let '(r, (pool', d')) := drain_pending_file path (pool, d) in
  mp_inv pool' ∧ r ≠ Panic
  ∧ (∀ e, r = Err e → pool' = pool ∧ d_files d' !! path = Some data)
  ∧ (r = Ok tt →
       (∃ txs, parse_pending_file_bytes data = Ok txs ∧ drained path txs pool pool' d')
       ∨ ¬ stats_work d ∧ pool' = pool ∧ d_files d' !! path = Some data).
Proof.
  intros Hi Hne Hd. unfold drain_pending_file. unfold sbind at 1.
  pose proof (steady_acquire (pending_queue_lock_path path) d) as Hst1.
  destruct (acquire_exclusive_files (pending_queue_lock_path path) path d data Hd) as (r1&d1&Ha&Hd1&Hr1).
  rewrite Ha in Hst1 |- *. cbn [snd] in Hst1.
  destruct Hr1 as [->|[e ->]]; cbn [map_err]; [|by split_and!].
  unfold sbind at 1, sget. cbn [fst snd]. unfold sbind at 1, drain_io at 1.
  destruct (path_exists path d1) as [[[]| |] d1'] eqn:Hex; cbn [map_err negb];
    pose proof (path_exists_files (E:=IoError) path d1) as [Hf1 [b Hb]]; rewrite Hex in Hf1, Hb; cbn [fst snd] in Hf1, Hb; [| |done..].
  2: { unfold sret. rewrite Hf1. split_and!; [done..|]. intros _. right. split_and!; [|done..]. intros Hs.
       destruct (path_exists_works (E:=IoError) path d1 (Hst1 Hs)) as (d2&Hw&_). rewrite Hex, Hd1, bool_decide_true in Hw by done.
       done. }
  rewrite <- Hf1 in Hd1. unfold sbind at 1, drain_io, fs_read. unfold sbind at 1.
  destruct (io_call_files d1') as [Hf2 Hr2]. destruct (io_call d1') as [r2 d2]. cbn [fst snd] in *.
  rewrite <- Hf2 in Hd1. destruct Hr2 as [->|[e ->]]; cbn [map_err]; [|by split_and!].
  unfold sbind at 1, sget, slift at 1. rewrite Hd1. cbn [ok_or map_err].
  unfold sbind at 1, slift at 1. pose proof (parse_pending_no_panic data) as Hnp.
  destruct (parse_pending_file_bytes data) as [txs|e|] eqn:Hparse; [|by split_and!|done].
  pose proof (drain_parsed_conserves path pool d2 data txs Hi Hne Hd1 Hparse) as Hc.
  destruct (drain_parsed path txs (clone_fifo pool) (pool, d2)) as [r [pool' d']] eqn:He. unfold drain_parsed in He. rewrite He.
  destruct Hc as (Hc1&Hc2&Hc3&Hc4). split_and!; [done..|]. intros Hr. left. eauto.
Qed.
End drain.

Lemma queue_extends data e tx txs :
  parse_pending_file_bytes data = Ok txs → pending_as e tx → parse_pending_file_bytes (data ++ pending_frame e) = Ok (txs ++ [tx]).
Proof.
  intros (ps&->&Hps)%parse_pending_ok He. apply parse_pending_ok. exists (ps ++ [e]). split.
  - unfold pending_frames. rewrite bind_app. change ([e] ≫= pending_frame) with (pending_frame e ++ []). by rewrite app_nil_r.
  - apply Forall2_app; [done|]. by constructor.
Qed.

(** The queue file is written and read back exactly: it parses to [txs] iff
    it is the concatenation of frames of canonical encodings of [txs], a
    parsed queue encodes to the same bytes, appending one transaction's frame
    adds exactly that transaction at the end, and parsing never panics. *)
Theorem pending_file_exact data :
  parse_pending_file_bytes data ≠ Panic
  ∧ (∀ txs, parse_pending_file_bytes data = Ok txs → encode_pending_payload txs = Ok data)
  ∧ (∀ txs tx p, parse_pending_file_bytes data = Ok txs → wf_tx tx → encode_transaction tx = Some p →
       zlen p ≤ MAX_PENDING_TX_FRAME →
       parse_pending_file_bytes (data ++ to_be_bytes_u32 (zlen p) ++ p) = Ok (txs ++ [tx])).
Proof.
  split_and!; [apply parse_pending_no_panic| |].
  - intros txs (ps&->&Hps)%parse_pending_ok. by apply (encode_pending_from_ok _ _ []).
  - intros txs tx p Hparse Hwf Henc Hlen. apply queue_extends; [done|]. split; [by apply decode_encode_transaction|done].
Qed.

Module PendingExample.
Import ToyCrypto WalletExample.

Definition queue_path : string := "data/pending_tx.tril".
Definition queue : list Transaction := [transfer 0; transfer 1].
Definition queue_data : list byte := match encode_pending_payload queue with Ok l => l | _ => [] end.
Definition queue_disk : Disk := mkDisk {[ queue_path := queue_data ]} [].
Definition small_pool : Mempool := Mempool_new 1.

Lemma drain_conserves_witness :
  ∃ pool' d', drain_pending_file queue_path (small_pool, queue_disk) = (Ok tt, (pool', d'))
  ∧ drained queue_path queue small_pool pool' d'.
Proof.
  pose proof (drain_conserves queue_path small_pool queue_disk queue_data) as Hdrain.
  assert ((drain_pending_file queue_path (small_pool, queue_disk)).1 = Ok tt) as Hok by (vm_compute; reflexivity).
  destruct (drain_pending_file queue_path (small_pool, queue_disk)) as [r [pool' d']]. cbn [fst] in Hok. subst r.
  exists pool', d'. split; [reflexivity|]. destruct Hdrain as (_&_&_&Hd).
  - apply mp_inv_new.
  - vm_compute. discriminate.
  - apply lookup_insert_eq.
  - assert (parse_pending_file_bytes queue_data = Ok queue) as Hq by (vm_compute; reflexivity).
    destruct (Hd eq_refl) as [(txs&Hp&Hdr)|[Hs _]]; [|by destruct Hs]. rewrite Hq in Hp. by injection Hp as <-.
Defined.

(** The pool of one takes the first transaction, the second stays in the file. *)
Example drain_one :
  let '(r, (pool', d')) := drain_pending_file queue_path (small_pool, queue_disk) in
  r = Ok tt ∧ clone_fifo pool' = [transfer 0]
  ∧ parse_pending_file_bytes (file_data d' queue_path) = Ok [transfer 1].
Proof. vm_compute. repeat split; reflexivity. Qed.
End PendingExample.
