(* ===== verification/BlockIndex.v ===== *)
(** * Block index and branch selection ([v3/block_index.rs], [v3/branch_select.rs])

    Parent links and heights by block hash, the hardened walks toward genesis
    and the fork between two tips. The walks are loops of [len + 2] rounds, as
    in the source; [path_exact] shows that this bound never cuts a valid path
    short. *)

From Stdlib Require Import ZArith Lia.
From stdpp Require Import base strings list gmap fin_maps sets.
From S2P Require Import Prelude Bytes.

Record BlockIndexEntry := mkEntry { bie_parent_hash : string; bie_height : Z }.

#[export] Instance BlockIndexEntry_eq_dec : EqDecision BlockIndexEntry.
Proof. solve_decision. Defined.

Record ForkSlices := mkForkSlices {
  fs_fork_hash : string;
  fs_old_suffix : list string;
  fs_new_suffix : list string
}.

Inductive BlockPathError :=
| UnknownBlock (h : string)
| MissingParentLink (block : string)
| Cycle (block : string)
| NoCommonAncestor
| MalformedAncestry (block detail : string).

Record BlockIndex := mkBlockIndex { by_hash : gmap string BlockIndexEntry }.

Definition BlockIndex_new : BlockIndex := mkBlockIndex ∅.

(** The new index and the entry it replaced. *)
Definition index_insert (block_hash : string) (entry : BlockIndexEntry) (idx : BlockIndex) :
    option BlockIndexEntry * BlockIndex :=
  (by_hash idx !! block_hash, mkBlockIndex (<[ block_hash := entry ]> (by_hash idx))).

Definition index_get (idx : BlockIndex) (block_hash : string) : option BlockIndexEntry :=
  by_hash idx !! block_hash.

Definition index_len (idx : BlockIndex) : nat := size (by_hash idx).

(** The deprecated soft walk: an unbounded loop, [None] when the fuel is used
    up. *)
Fixpoint ancestors_to_height_zero (fuel : nat) (idx : BlockIndex) (cur : string) : option (list string) :=
  match fuel with
  | O => None
  | S f =>
    match index_get idx cur with
    | None => Some [cur]
    | Some e =>
      if bie_height e =? 0 then Some [cur]
      else cons cur <$> ancestors_to_height_zero f idx (bie_parent_hash e)
    end
  end.

Definition validated_parent_hash (idx : BlockIndex) (block : string) (e : BlockIndexEntry) :
    Res BlockPathError string :=
  let p := bie_parent_hash e in
  if String.eqb p block then Err (Cycle block)
  else if String.eqb p "" then Err (MissingParentLink block)
  else
    let? pe := ok_or (index_get idx p) (MissingParentLink block) in
    let? expected_child_height :=
      ok_or (checked_add (bie_height pe) 1) (MalformedAncestry block "parent.height + 1 overflows u64") in
    if negb (expected_child_height =? bie_height e)
    then Err (MalformedAncestry block "parent.height + 1 must equal child.height")
    else Ok p.

(** [for _ in 0..limit] *)
Fixpoint path_loop (limit : nat) (idx : BlockIndex) (cur : string) (visited : gset string)
    (chain : list string) : Res BlockPathError (list string) :=
  match limit with
  | O => Err (Cycle cur)
  | S limit' =>
    if decide (cur ∈ visited) then Err (Cycle cur)
    else
      let visited := {[ cur ]} ∪ visited in
      let? e := ok_or (index_get idx cur) (UnknownBlock cur) in
      let chain := chain ++ [cur] in
      if bie_height e =? 0 then Ok chain
      else
        let? parent := validated_parent_hash idx cur e in
        path_loop limit' idx parent visited chain
  end.

Definition path_from_tip_toward_genesis (idx : BlockIndex) (tip : string) : Res BlockPathError (list string) :=
  path_loop (index_len idx + 2) idx tip ∅ [].

(** The walk from the new tip: the fork, if it was met, and the suffix. *)
Fixpoint new_walk (limit : nat) (idx : BlockIndex) (old_set : gset string) (cur : string)
    (visited : gset string) (new_suffix : list string) : Res BlockPathError (string * list string) :=
  match limit with
  | O => Err (Cycle cur)
  | S limit' =>
    if decide (cur ∈ visited) then Err (Cycle cur)
    else
      let visited := {[ cur ]} ∪ visited in
      if decide (cur ∈ old_set) then Ok (cur, new_suffix)
      else
        let? e := ok_or (index_get idx cur) (UnknownBlock cur) in
        let new_suffix := new_suffix ++ [cur] in
        if bie_height e =? 0 then Err NoCommonAncestor
        else
          let? parent := validated_parent_hash idx cur e in
          new_walk limit' idx old_set parent visited new_suffix
  end.

(** The walk from the old tip down to the fork. *)
Fixpoint old_walk (limit : nat) (idx : BlockIndex) (fork_hash cur : string)
    (visited : gset string) (old_suffix : list string) : Res BlockPathError (list string) :=
  match limit with
  | O => if String.eqb cur fork_hash then Ok old_suffix else Err NoCommonAncestor
  | S limit' =>
    if String.eqb cur fork_hash then Ok old_suffix
    else if decide (cur ∈ visited) then Err (Cycle cur)
    else
      let visited := {[ cur ]} ∪ visited in
      let old_suffix := old_suffix ++ [cur] in
      let? e := ok_or (index_get idx cur) (UnknownBlock cur) in
      if bie_height e =? 0 then Err NoCommonAncestor
      else
        let? parent := validated_parent_hash idx cur e in
        old_walk limit' idx fork_hash parent visited old_suffix
  end.

Definition fork_slices_between_tips (idx : BlockIndex) (old_tip new_tip : string) :
    Res BlockPathError ForkSlices :=
  let? path_old := path_from_tip_toward_genesis idx old_tip in
  let old_set : gset string := list_to_set path_old in
  let limit := (index_len idx + 2)%nat in
  let? (fork_hash, new_suffix) := new_walk limit idx old_set new_tip ∅ [] in
  let? old_suffix := old_walk limit idx fork_hash old_tip ∅ [] in
  Ok (mkForkSlices fork_hash old_suffix new_suffix).

Definition validate_block_ancestry (idx : BlockIndex) (block : string) : Res BlockPathError unit :=
  let? path := path_from_tip_toward_genesis idx block in
  let? genesis_hash := ok_or (last path) (UnknownBlock block) in
  let? ge := ok_or (index_get idx genesis_hash) (UnknownBlock genesis_hash) in
  if negb (bie_height ge =? 0)
  then Err (MalformedAncestry genesis_hash "path ended without reaching height-0 root")
  else if negb (String.eqb (bie_parent_hash ge) "")
  then Err (MalformedAncestry genesis_hash "height-0 block must use empty parent_hash (genesis/root)")
  else Ok tt.

(** ** [branch_select.rs] *)

Record TipDescriptor := mkTip { td_height : Z; td_block_hash : string }.

#[export] Instance TipDescriptor_eq_dec : EqDecision TipDescriptor.
Proof. solve_decision. Defined.

Record BranchScore := mkScore { bsc_height : Z; bsc_tie_break_lex : string }.

Definition BranchScore_from (t : TipDescriptor) : BranchScore := mkScore (td_height t) (td_block_hash t).

(** The derived [Ord]: lexicographic on the fields in order. *)
Definition BranchScore_cmp (a b : BranchScore) : comparison :=
  match Z.compare (bsc_height a) (bsc_height b) with
  | Eq => String.compare (bsc_tie_break_lex a) (bsc_tie_break_lex b)
  | c => c
  end.

Definition compare_tips_for_selection (a b : TipDescriptor) : comparison :=
  BranchScore_cmp (BranchScore_from a) (BranchScore_from b).

(** [Iterator::max_by_key]: the last of the maximal elements. *)
Definition max_step (best t : TipDescriptor) : TipDescriptor :=
  match compare_tips_for_selection best t with Gt => best | _ => t end.

Definition select_preferred_tip (tips : list TipDescriptor) : option TipDescriptor :=
  match tips with
  | [] => None
  | t :: tips' => Some (foldl max_step t tips')
  end.

(** ** Paths *)

(** [p] is the validated parent of [h]. *)
Definition link (idx : BlockIndex) (h p : string) : Prop :=
  ∃ e pe, index_get idx h = Some e ∧ bie_height e ≠ 0 ∧ bie_parent_hash e = p ∧ p ≠ h ∧ p ≠ ""
    ∧ index_get idx p = Some pe ∧ bie_height pe + 1 = bie_height e ∧ bie_height pe + 1 ≤ u64_max.

(** The path from [h] to a block of height 0. *)
Inductive gpath (idx : BlockIndex) : string → list string → Prop :=
| gp_root h e : index_get idx h = Some e → bie_height e = 0 → gpath idx h [h]
| gp_step h p l : link idx h p → gpath idx p l → gpath idx h (h :: l).

(** The links from [h] down to [f], [f] excluded. *)
Inductive seg (idx : BlockIndex) : string → list string → string → Prop :=
| seg_nil f : seg idx f [] f
| seg_cons h p mid f : link idx h p → seg idx p mid f → seg idx h (h :: mid) f.

Lemma validated_parent_ok idx h e p :
  index_get idx h = Some e → bie_height e ≠ 0 → validated_parent_hash idx h e = Ok p ↔ link idx h p.
Proof.
  intros He Hnz. unfold validated_parent_hash, link, rbind, ok_or. split.
  - destruct (String.eqb_spec (bie_parent_hash e) h); [done|].
    destruct (String.eqb_spec (bie_parent_hash e) ""); [done|].
    destruct (index_get idx (bie_parent_hash e)) as [pe|] eqn:Hp; [|done].
    destruct (checked_add (bie_height pe) 1) as [c|] eqn:Hc; [|done]. apply checked_add_Some in Hc as [Hc ->].
    destruct (Z.eqb_spec (bie_height pe + 1) (bie_height e)); [|done]. intros [= <-].
    exists e, pe. done.
  - intros (e'&pe&He'&_&Hp&Hne&Hne2&Hpe&Hh&Hmax). rewrite He in He'. injection He' as <-. rewrite Hp.
    destruct (String.eqb_spec p h); [done|]. destruct (String.eqb_spec p ""); [done|]. rewrite Hpe.
    assert (checked_add (bie_height pe) 1 = Some (bie_height pe + 1)) as -> by (by apply checked_add_Some).
    destruct (Z.eqb_spec (bie_height pe + 1) (bie_height e)); done.
Qed.

Lemma link_not_root idx h p e : link idx h p → index_get idx h = Some e → bie_height e ≠ 0.
Proof. intros (e'&pe&He&Hnz&_) Hx. congruence. Qed.

Lemma link_fun idx h p q : link idx h p → link idx h q → p = q.
Proof. intros (e&pe&He&_&<-&_) (e'&pe'&He'&_&<-&_). congruence. Qed.

Lemma gpath_head idx h l : gpath idx h l → ∃ l', l = h :: l'.
Proof. destruct 1; eauto. Qed.

(** The height of a block is the number of blocks below it. *)
Lemma gpath_height idx h l :
  gpath idx h l → ∃ e, index_get idx h = Some e ∧ bie_height e = Z.of_nat (length l) - 1.
Proof.
  induction 1 as [h e He Hz|h p l Hl _ (pe&Hpe&Hh)].
  - exists e. split; [done|simpl; lia].
  - destruct Hl as (e&pe'&He&_&_&_&_&Hpe'&Heq&_). exists e. split; [done|].
    rewrite Hpe in Hpe'. injection Hpe' as <-. simpl. lia.
Qed.

Lemma gpath_split idx h l f :
  gpath idx h l → f ∈ l → ∃ mid l', l = mid ++ l' ∧ seg idx h mid f ∧ gpath idx f l' ∧ f ∉ mid.
Proof.
  induction 1 as [h e He Hz|h p l Hl Hg IH].
  - intros ->%list_elem_of_singleton. exists [], [h]. split_and!; [done|constructor|by econstructor|set_solver].
  - intros Hf. destruct (decide (f = h)) as [->|Hne].
    + exists [], (h :: l). split_and!; [done|constructor|by econstructor|set_solver].
    + apply elem_of_cons in Hf as [?|Hf]; [done|]. destruct (IH Hf) as (mid&l'&->&Hs&Hg'&Hni).
      exists (h :: mid), l'. split_and!; [done|by econstructor|done|set_solver].
Qed.

Lemma gpath_elem idx h l x : gpath idx h l → x ∈ l → ∃ mid l', l = mid ++ x :: l' ∧ gpath idx x (x :: l').
Proof.
  intros Hg Hx. destruct (gpath_split _ _ _ _ Hg Hx) as (mid&l'&->&_&Hg'&_).
  destruct (gpath_head _ _ _ Hg') as [l'' ->]. eauto.
Qed.

Lemma gpath_NoDup idx h l : gpath idx h l → NoDup l.
Proof.
  induction 1 as [h e He Hz|h p l Hl Hg IH]; [apply NoDup_singleton|].
  apply NoDup_cons. split; [|done]. intros Hin.
  destruct (gpath_elem _ _ _ _ Hg Hin) as (mid&l'&->&Hh).
  destruct (gpath_height _ _ _ Hh) as (e1&He1&Hh1).
  destruct (gpath_height _ _ _ (gp_step _ _ _ _ Hl Hg)) as (e2&He2&Hh2).
  rewrite He1 in He2. injection He2 as <-. simpl in *. rewrite length_app in Hh2. simpl in Hh2. lia.
Qed.

Lemma gpath_dom idx h l : gpath idx h l → (list_to_set l : gset string) ⊆ dom (by_hash idx).
Proof.
  induction 1 as [h e He Hz|h p l Hl Hg IH]; intros x; simpl; rewrite elem_of_union, elem_of_singleton.
  - intros [->|Hx]; [|set_solver]. apply elem_of_dom. by exists e.
  - intros [->|Hx]; [|by apply IH]. destruct Hl as (e&_&He&_). apply elem_of_dom. by exists e.
Qed.

Lemma gpath_length idx h l : gpath idx h l → (length l ≤ index_len idx)%nat.
Proof.
  intros Hg. unfold index_len. rewrite <- size_dom.
  rewrite <- (size_list_to_set (C := gset string)) by (by eapply gpath_NoDup).
  apply subseteq_size. by eapply gpath_dom.
Qed.

Lemma gpath_det idx h l1 l2 : gpath idx h l1 → gpath idx h l2 → l1 = l2.
Proof.
  intros H1. revert l2. induction H1 as [h e He Hz|h p l Hl Hg IH]; intros l2 H2; inversion H2; subst.
  - done.
  - exfalso. by eapply link_not_root.
  - exfalso. by eapply link_not_root.
  - f_equal. apply IH. match goal with Hx : link _ h ?q |- _ => rewrite (link_fun _ _ _ _ Hl Hx) end. done.
Qed.

Lemma seg_gpath idx h mid f l : seg idx h mid f → gpath idx f l → gpath idx h (mid ++ l).
Proof. induction 1; [done|]. intros Hg. econstructor; [done|auto]. Qed.

(** ** The walks *)

Lemma path_loop_sound idx limit cur visited chain res :
  path_loop limit idx cur visited chain = Ok res → ∃ l, gpath idx cur l ∧ res = chain ++ l.
Proof.
  revert cur visited chain. induction limit as [|n IH]; intros cur visited chain; [done|]. cbn [path_loop].
  case_decide; [done|]. unfold rbind at 1, ok_or.
  destruct (index_get idx cur) as [e|] eqn:He; [|done].
  destruct (Z.eqb_spec (bie_height e) 0) as [Hz|Hnz].
  - intros [= <-]. exists [cur]. split; [by econstructor|done].
  - unfold rbind. destruct (validated_parent_hash idx cur e) as [p| |] eqn:Hp; [|done..].
    apply validated_parent_ok in Hp; [|done..]. intros Hr. destruct (IH _ _ _ Hr) as (l&Hg&->).
    exists (cur :: l). split; [by econstructor|by rewrite <- (assoc_L (++))].
Qed.

Lemma path_loop_complete idx limit cur visited chain l :
  gpath idx cur l → (∀ x, x ∈ l → x ∉ visited) → (length l ≤ limit)%nat →
  path_loop limit idx cur visited chain = Ok (chain ++ l).
Proof.
  intros Hg. revert limit visited chain. induction Hg as [h e He Hz|h p l Hl Hg IH];
    intros [|n] visited chain Hvis Hlen; [simpl in Hlen; lia| |simpl in Hlen; lia|]; cbn [path_loop].
  - rewrite decide_False by (apply Hvis; set_solver). rewrite He. cbn [ok_or rbind]. by rewrite Hz.
  - rewrite decide_False by (apply Hvis; left). destruct (gpath_height _ _ _ (gp_step _ _ _ _ Hl Hg)) as (e&He&_).
    rewrite He. cbn [ok_or rbind]. pose proof (link_not_root _ _ _ _ Hl He) as Hnz.
    destruct (Z.eqb_spec (bie_height e) 0); [done|].
    assert (validated_parent_hash idx h e = Ok p) as -> by (by apply validated_parent_ok). cbn [rbind].
    rewrite IH; [by rewrite <- (assoc_L (++))| |simpl in Hlen; lia].
    intros x Hx [->%elem_of_singleton|Hv]%elem_of_union.
    + pose proof (gpath_NoDup _ _ _ (gp_step _ _ _ _ Hl Hg)) as Hnd. by apply NoDup_cons in Hnd as [? _].
    + apply (Hvis x); [by right|done].
Qed.

Lemma path_ok idx tip l : path_from_tip_toward_genesis idx tip = Ok l ↔ gpath idx tip l.
Proof.
  unfold path_from_tip_toward_genesis. split.
  - intros (l'&Hg&->)%path_loop_sound. done.
  - intros Hg. pose proof (gpath_length _ _ _ Hg). apply (path_loop_complete _ _ _ _ [] l Hg); [set_solver|lia].
Qed.

Lemma new_walk_sound idx limit S cur visited suf f suf' :
  new_walk limit idx S cur visited suf = Ok (f, suf') →
  ∃ mid, suf' = suf ++ mid ∧ seg idx cur mid f ∧ f ∈ S ∧ ∀ x, x ∈ mid → x ∉ S.
Proof.
  revert cur visited suf. induction limit as [|n IH]; intros cur visited suf; [done|]. cbn [new_walk].
  case_decide; [done|]. case_decide as HS.
  { intros [= <- <-]. exists []. rewrite app_nil_r. split_and!; [done|constructor|done|set_solver]. }
  unfold rbind at 1, ok_or. destruct (index_get idx cur) as [e|] eqn:He; [|done].
  destruct (Z.eqb_spec (bie_height e) 0) as [Hz|Hnz]; [done|].
  unfold rbind. destruct (validated_parent_hash idx cur e) as [p| |] eqn:Hp; [|done..].
  apply validated_parent_ok in Hp; [|done..]. intros Hr. destruct (IH _ _ _ Hr) as (mid&->&Hs&Hf&Hni).
  exists (cur :: mid). split_and!; [by rewrite <- (assoc_L (++))|by econstructor|done|set_solver].
Qed.

Lemma new_walk_complete idx limit S cur visited suf mid f :
  seg idx cur mid f → f ∈ S → (∀ x, x ∈ mid → x ∉ S) → NoDup (mid ++ [f]) →
  (∀ x, x ∈ mid ++ [f] → x ∉ visited) → (length mid < limit)%nat →
  new_walk limit idx S cur visited suf = Ok (f, suf ++ mid).
Proof.
  intros Hs. revert limit visited suf. induction Hs as [f|h p mid f Hl Hs IH];
    intros [|n] visited suf Hf Hni Hnd Hvis Hlen; [lia| |simpl in Hlen; lia|]; cbn [new_walk].
  - rewrite decide_False by (apply Hvis; set_solver). rewrite decide_True by done. by rewrite app_nil_r.
  - rewrite decide_False by (apply Hvis; left). rewrite decide_False by (apply Hni; left).
    pose proof Hl as (e&pe&He&Hnz&_). rewrite He. cbn [ok_or rbind].
    destruct (Z.eqb_spec (bie_height e) 0); [done|].
    assert (validated_parent_hash idx h e = Ok p) as -> by (by apply validated_parent_ok). cbn [rbind].
    simpl in Hnd. apply NoDup_cons in Hnd as [Hnh Hnd].
    rewrite IH; [by rewrite <- (assoc_L (++))|done|set_solver|done| |simpl in Hlen; lia].
    intros x Hx [->%elem_of_singleton|Hv]%elem_of_union; [done|]. apply (Hvis x); [by right|done].
Qed.

Lemma old_walk_complete idx limit cur visited suf mid f :
  seg idx cur mid f → NoDup (mid ++ [f]) → (∀ x, x ∈ mid → x ∉ visited) → (length mid ≤ limit)%nat →
  old_walk limit idx f cur visited suf = Ok (suf ++ mid).
Proof.
  intros Hs. revert limit visited suf. induction Hs as [f|h p mid f Hl Hs IH]; intros limit visited suf Hnd Hvis Hlen.
  - rewrite app_nil_r. destruct limit; cbn [old_walk]; by rewrite String.eqb_refl.
  - destruct limit as [|n]; [simpl in Hlen; lia|]. cbn [old_walk]. simpl in Hnd. apply NoDup_cons in Hnd as [Hnh Hnd].
    destruct (String.eqb_spec h f) as [->|_]; [set_solver|].
    rewrite decide_False by (apply Hvis; left).
    pose proof Hl as (e&pe&He&Hnz&_). rewrite He. cbn [ok_or rbind].
    destruct (Z.eqb_spec (bie_height e) 0); [done|].
    assert (validated_parent_hash idx h e = Ok p) as -> by (by apply validated_parent_ok). cbn [rbind].
    rewrite IH; [by rewrite <- (assoc_L (++))|done| |simpl in Hlen; lia].
    intros x Hx [->%elem_of_singleton|Hv]%elem_of_union; [set_solver|]. apply (Hvis x); [by right|done].
Qed.

Lemma list_to_set_elem (l : list string) x : x ∈ (list_to_set l : gset string) ↔ x ∈ l.
Proof. apply elem_of_list_to_set. Qed.

(** [rest] is the common part: it starts at the fork. *)
Definition forked (idx : BlockIndex) (old_tip new_tip : string) (fs : ForkSlices) (rest : list string) : Prop :=
  gpath idx old_tip (fs_old_suffix fs ++ rest) ∧ gpath idx new_tip (fs_new_suffix fs ++ rest)
  ∧ head rest = Some (fs_fork_hash fs) ∧ ∀ h, h ∈ fs_new_suffix fs → h ∉ fs_old_suffix fs ++ rest.

Lemma gpath_suffix idx h mid f l' : gpath idx h (mid ++ f :: l') → seg idx h mid f ∧ gpath idx f (f :: l').
Proof.
  revert h. induction mid as [|x mid IH]; intros h Hg; simpl in Hg.
  - inversion Hg; subst; (split; [constructor|done]).
  - inversion Hg; subst; [by destruct mid|].
    match goal with Hl : link _ _ ?p, Hg' : gpath _ ?p _ |- _ => destruct (IH p Hg') as [Hs ?] end.
    split; [by econstructor|done].
Qed.

Lemma NoDup_app_head {A} (mid l : list A) f : NoDup (mid ++ f :: l) → NoDup (mid ++ [f]).
Proof. change (f :: l) with ([f] ++ l). rewrite (assoc_L (++)). intros Hnd. by apply NoDup_app in Hnd as (?&_&_). Qed.

Lemma fork_ok idx old_tip new_tip fs :
  fork_slices_between_tips idx old_tip new_tip = Ok fs ↔ ∃ rest, forked idx old_tip new_tip fs rest.
Proof.
  unfold fork_slices_between_tips, forked, rbind. split.
  - destruct (path_from_tip_toward_genesis idx old_tip) as [lo| |] eqn:Ho; [|done..]. apply path_ok in Ho.
    destruct (new_walk _ _ _ _ _ _) as [[f suf]| |] eqn:Hn; [|done..].
    apply new_walk_sound in Hn as (mid&->&Hs&Hf&Hni). cbn [app].
    apply list_to_set_elem in Hf. destruct (gpath_split _ _ _ _ Ho Hf) as (omid&l'&->&Hos&Hg&_).
    destruct (gpath_head _ _ _ Hg) as [l'' ->].
    pose proof (gpath_NoDup _ _ _ Ho) as Hnd. pose proof (gpath_length _ _ _ Ho) as Hlen. rewrite length_app in Hlen.
    rewrite (old_walk_complete _ _ _ _ [] omid f Hos); [|by eapply NoDup_app_head|set_solver|simpl in Hlen; lia].
    intros [= <-]. exists (f :: l''). cbn [fs_old_suffix fs_new_suffix fs_fork_hash app].
    split_and!; [done|by eapply seg_gpath|done|]. intros h Hh Hx. apply (Hni h Hh). by apply list_to_set_elem.
  - destruct fs as [f omid nmid]. cbn [fs_old_suffix fs_new_suffix fs_fork_hash].
    intros (rest&Ho&Hn&Hhead&Hdisj). destruct rest as [|f' l']; [done|]. injection Hhead as ->.
    assert (path_from_tip_toward_genesis idx old_tip = Ok (omid ++ f :: l')) as -> by (by apply path_ok).
    destruct (gpath_suffix _ _ _ _ _ Ho) as [Hos Hf]. destruct (gpath_suffix _ _ _ _ _ Hn) as [Hns _].
    pose proof (gpath_length _ _ _ Ho) as Hlo. pose proof (gpath_length _ _ _ Hn) as Hln.
    rewrite length_app in Hlo, Hln. simpl in Hlo, Hln.
    rewrite (new_walk_complete _ _ _ _ _ [] nmid f Hns); cbn [app].
    + rewrite (old_walk_complete _ _ _ _ [] omid f Hos); [done| |set_solver|lia].
      by eapply NoDup_app_head, gpath_NoDup.
    + apply list_to_set_elem. set_solver.
    + intros x Hx. rewrite list_to_set_elem. by apply Hdisj.
    + by eapply NoDup_app_head, gpath_NoDup.
    + set_solver.
    + lia.
Qed.

Lemma ancestry_ok idx block :
  validate_block_ancestry idx block = Ok tt ↔
  ∃ l g ge, gpath idx block l ∧ last l = Some g ∧ index_get idx g = Some ge
    ∧ bie_height ge = 0 ∧ bie_parent_hash ge = "".
Proof.
  unfold validate_block_ancestry, rbind, ok_or. split.
  - destruct (path_from_tip_toward_genesis idx block) as [l| |] eqn:Hp; [|done..]. apply path_ok in Hp.
    destruct (last l) as [g|] eqn:Hl; [|done]. destruct (index_get idx g) as [ge|] eqn:Hge; [|done].
    destruct (Z.eqb_spec (bie_height ge) 0); [|done]. destruct (String.eqb_spec (bie_parent_hash ge) ""); [|done].
    intros _. exists l, g, ge. done.
  - intros (l&g&ge&Hp%path_ok&Hl&Hge&Hz&Hpa). rewrite Hp, Hl, Hge, Hz, Hpa. done.
Qed.

(** The hardened walk toward genesis returns a list iff that list is the
    path from the tip to a block of height 0 along validated parent links
    (known, non-empty, heights decreasing by one); its round limit never cuts
    a valid path short, the path has no repetition, and a tip has at most one
    path. *)
Theorem path_exact idx tip l :
  (path_from_tip_toward_genesis idx tip = Ok l ↔ gpath idx tip l)
  ∧ (gpath idx tip l → NoDup l ∧ (length l ≤ index_len idx)%nat
     ∧ ∀ l', gpath idx tip l' → l' = l).
Proof.
  split; [apply path_ok|]. intros Hg. split_and!; [by eapply gpath_NoDup|by eapply gpath_length|].
  intros l' Hg'. by eapply gpath_det.
Qed.

(** C29: the fork between two tips is exact: slices are returned iff both tips
    have a path to genesis and the paths meet; the fork is then their deepest
    common block, the suffixes are the two branches above it, tip first, and
    no block of one suffix lies on the other branch. *)
Theorem fork_slices_exact idx old_tip new_tip fs :
  (fork_slices_between_tips idx old_tip new_tip = Ok fs ↔ ∃ rest, forked idx old_tip new_tip fs rest)
  ∧ (∀ rest, forked idx old_tip new_tip fs rest →
       (∀ h, h ∈ fs_old_suffix fs → h ∉ fs_new_suffix fs ++ rest)
       ∧ ∀ h, h ∈ fs_old_suffix fs ++ rest → h ∈ fs_new_suffix fs ++ rest → h ∈ rest).
Proof.
  split; [apply fork_ok|]. intros rest (Ho&Hn&_&Hdisj).
  pose proof (gpath_NoDup _ _ _ Ho) as Hnd. apply NoDup_app in Hnd as (_&Hx&_). split.
  - intros h Hh [Hin|Hin]%elem_of_app; [|by apply (Hx h)]. apply (Hdisj h Hin). set_solver.
  - intros h Hh [Hin|Hin]%elem_of_app; [|done]. by destruct (Hdisj h Hin).
Qed.

(** Wherever the hardened walk succeeds, the deprecated soft walk computes
    the same list, with the number of indexed blocks as a bound on its rounds;
    on an index with a parent cycle the hardened walk reports it while the
    soft walk never returns. *)
Theorem soft_walk_agrees idx tip :
  (∀ l, path_from_tip_toward_genesis idx tip = Ok l →
     ancestors_to_height_zero (index_len idx) idx tip = Some l)
  ∧ (∀ a b ea eb, a ≠ b → idx = mkBlockIndex {[ a := mkEntry b ea; b := mkEntry a eb ]} → ea ≠ 0 → eb ≠ 0 → tip = a →
     is_ok (path_from_tip_toward_genesis idx tip) = false ∧ ∀ fuel, ancestors_to_height_zero fuel idx tip = None).
Proof.
  split.
  - intros l Hl%path_ok. pose proof (gpath_length _ _ _ Hl) as Hlen. revert Hlen. generalize (index_len idx).
    induction Hl as [h e He Hz|h p l Hl Hg IH]; intros [|n] Hlen; [simpl in Hlen; lia| |simpl in Hlen; lia|];
      cbn [ancestors_to_height_zero].
    + by rewrite He, Hz.
    + pose proof Hl as (e&pe&He&Hnz&Hpar&_). rewrite He. destruct (Z.eqb_spec (bie_height e) 0); [done|].
      rewrite Hpar, IH by (simpl in Hlen; lia). done.
  - intros a b ea eb Hab Hidx Hea Heb ->.
    assert (index_get idx a = Some (mkEntry b ea)) as Ha by (rewrite Hidx; unfold index_get; simpl; by rewrite lookup_insert_eq).
    assert (index_get idx b = Some (mkEntry a eb)) as Hb
      by (rewrite Hidx; unfold index_get; simpl; rewrite lookup_insert_ne by done; apply lookup_insert_eq).
    split.
    + destruct (path_from_tip_toward_genesis idx a) as [l| |] eqn:Hp; [|done..]. apply path_ok in Hp.
      inversion Hp as [? e He Hz|? p ? Hl1 Hg1]; [by rewrite Ha in He; injection He as <-|]. clear Hp.
      destruct Hl1 as (e1&pe1&He1&_&Hp1&_&_&Hpe1&Hh1&_). rewrite Ha in He1. injection He1 as <-. simpl in Hp1. subst p.
      rewrite Hb in Hpe1. injection Hpe1 as <-. inversion Hg1 as [? e He Hz|? p ? Hl2 Hg2]; [by rewrite Hb in He; injection He as <-|]. clear Hg1.
      destruct Hl2 as (e2&pe2&He2&_&Hp2&_&_&Hpe2&Hh2&_). rewrite Hb in He2. injection He2 as <-. simpl in Hp2. subst p.
      rewrite Ha in Hpe2. injection Hpe2 as <-. simpl in *. lia.
    + intros fuel. assert (ancestors_to_height_zero fuel idx a = None ∧ ancestors_to_height_zero fuel idx b = None) as [? _]; [|done].
      induction fuel as [|f [IHa IHb]]; [done|]. cbn [ancestors_to_height_zero]. rewrite Ha, Hb. simpl.
      destruct (Z.eqb_spec ea 0), (Z.eqb_spec eb 0); [done..|]. by rewrite IHa, IHb.
Qed.

(** ** Branch selection *)

(** [a] is not preferred over [b]. *)
Definition tip_le (a b : TipDescriptor) : Prop := compare_tips_for_selection a b ≠ Gt.

Lemma tip_le_spec a b :
  tip_le a b ↔ td_height a < td_height b ∨ (td_height a = td_height b ∧ String.le (td_block_hash a) (td_block_hash b)).
Proof.
  unfold tip_le, compare_tips_for_selection, BranchScore_cmp, String.le, String.leb. simpl.
  destruct (Z.compare_spec (td_height a) (td_height b)) as [Heq|Hlt|Hgt].
  - rewrite Heq. destruct (String.compare _ _); simpl; split; (naive_solver lia).
  - split; [by left|done].
  - split; [done|]. intros [?|[? _]]; lia.
Qed.

Lemma tip_le_refl a : tip_le a a.
Proof. apply tip_le_spec. right. split; [done|]. reflexivity. Qed.

Lemma tip_le_trans a b c : tip_le a b → tip_le b c → tip_le a c.
Proof.
  rewrite !tip_le_spec. intros [?|[? Hab]] [?|[? Hbc]]; [left; lia..|]. right. split; [lia|]. by etrans.
Qed.

Lemma tip_le_total a b : tip_le a b ∨ tip_le b a.
Proof.
  rewrite !tip_le_spec. destruct (Z.lt_trichotomy (td_height a) (td_height b)) as [?|[?|?]]; [by left; left| |by right; left].
  destruct (total String.le (td_block_hash a) (td_block_hash b)); [left|right]; right; (split; [lia|done]).
Qed.

Lemma tip_le_antisym a b : tip_le a b → tip_le b a → a = b.
Proof.
  rewrite !tip_le_spec. destruct a as [h s], b as [h' s']. simpl.
  intros [?|[? Hab]] [?|[? Hba]]; [lia..|]. subst. f_equal. by apply (anti_symm String.le).
Qed.

Lemma max_step_le best t : tip_le best (max_step best t) ∧ tip_le t (max_step best t).
Proof.
  unfold max_step. destruct (compare_tips_for_selection best t) eqn:Hc.
  - split; [|apply tip_le_refl]. unfold tip_le. by rewrite Hc.
  - split; [|apply tip_le_refl]. unfold tip_le. by rewrite Hc.
  - split; [apply tip_le_refl|]. destruct (tip_le_total best t) as [Hx|Hx]; [|done]. by unfold tip_le in Hx.
Qed.

Lemma foldl_max tips best :
  let m := foldl max_step best tips in
  (m = best ∨ m ∈ tips) ∧ tip_le best m ∧ ∀ t, t ∈ tips → tip_le t m.
Proof.
  revert best. induction tips as [|t tips IH]; intros best; simpl.
  { split_and!; [by left|apply tip_le_refl|by intros t ?%elem_of_nil]. }
  destruct (IH (max_step best t)) as (Hin&Hb&Hall). destruct (max_step_le best t) as [H1 H2]. split_and!.
  - destruct Hin as [->|Hin]; [|right; by right]. unfold max_step. destruct (compare_tips_for_selection best t);
      [right; left|right; left|by left].
  - by eapply tip_le_trans.
  - intros u [->|Hu]%elem_of_cons; [by eapply tip_le_trans|by apply Hall].
Qed.

(** C38: branch selection returns a tip iff it is a candidate and every
    candidate is lower, or as high with a hash that is not larger: the unique
    highest tip with the largest hash. It fails only without candidates, and
    the result does not depend on the order in which they are listed. *)
Theorem selection_canonical tips :
  (∀ t, select_preferred_tip tips = Some t ↔
     t ∈ tips ∧ ∀ u, u ∈ tips → td_height u < td_height t
       ∨ td_height u = td_height t ∧ String.le (td_block_hash u) (td_block_hash t))
  ∧ (select_preferred_tip tips = None ↔ tips = [])
  ∧ ∀ tips', tips ≡ₚ tips' → select_preferred_tip tips' = select_preferred_tip tips.
Proof.
  assert (∀ tips t, select_preferred_tip tips = Some t ↔ t ∈ tips ∧ ∀ u, u ∈ tips → tip_le u t) as Hspec.
  { clear tips. intros tips t. destruct tips as [|t0 tips]; simpl.
    { split; [done|]. by intros [?%elem_of_nil _]. }
    destruct (foldl_max tips t0) as (Hin&Hb&Hall). split.
    - intros [= <-]. split; [destruct Hin as [Hx|Hx]; [rewrite Hx; left|by right]|].
      intros u [->|Hu]%elem_of_cons; [done|by apply Hall].
    - intros [Ht Hmax]. f_equal. apply tip_le_antisym.
      + apply Hmax. destruct Hin as [Hx|Hx]; [rewrite Hx; left|by right].
      + apply elem_of_cons in Ht as [->|Ht]; [done|by apply Hall]. }
  split_and!; [intros t; rewrite Hspec; by setoid_rewrite tip_le_spec|by destruct tips|]. intros tips' Hp. apply option_eq. intros t. rewrite !Hspec. by setoid_rewrite Hp.
Qed.
