(* ===== verification/ReorgPlan.v ===== *)
(** * Reorg plans and their preflight ([v3/reorg_plan.rs], [v3/reorg_preflight.rs])

    A plan names the blocks to roll back and to apply. [plan_validates_iff]
    characterises the structural validation: a plan passes iff it is the plan
    between two tips of the index. *)

From Stdlib Require Import ZArith Lia.
From stdpp Require Import base strings list gmap fin_maps sets.
From S2P Require Import Prelude Bytes BlockIndex.

Inductive ReorgPlanValidationError :=
| BlockPath (e : BlockPathError)
| BrokenRollbackChain (block detail : string)
| BrokenApplyChain (block detail : string)
| DuplicateBlock (block side : string)
| DuplicateAcrossSegments (block : string)
| ForkInsideSegments (block : string).

Record ReorgPlan := mkReorgPlan {
  rp_fork_hash : string;
  rp_rollback_ordered : list string;
  rp_apply_ordered : list string
}.

Definition from_fork_slices (slices : ForkSlices) : ReorgPlan :=
  mkReorgPlan (fs_fork_hash slices) (fs_old_suffix slices) (reverse (fs_new_suffix slices)).

Definition try_from_tips (index : BlockIndex) (old_tip new_tip : string) : Res BlockPathError ReorgPlan :=
  let? slices := fork_slices_between_tips index old_tip new_tip in
  Ok (from_fork_slices slices).

Definition is_noop (plan : ReorgPlan) : bool :=
  Nat.eqb (length (rp_rollback_ordered plan)) 0 && Nat.eqb (length (rp_apply_ordered plan)) 0.

Fixpoint ensure_unique_from (seen : gset string) (hashes : list string) (side : string) :
    Res ReorgPlanValidationError unit :=
  match hashes with
  | [] => Ok tt
  | h :: hashes' =>
    if decide (h ∈ seen) then Err (DuplicateBlock h side)
    else ensure_unique_from ({[ h ]} ∪ seen) hashes' side
  end.

Definition ensure_unique_hashes (hashes : list string) (side : string) : Res ReorgPlanValidationError unit :=
  ensure_unique_from ∅ hashes side.

Definition ensure_no_duplicate_across_segments (rollback_ordered apply_ordered : list string) :
    Res ReorgPlanValidationError unit :=
  rfor (λ h, if decide (h ∈ apply_ordered) then Err (DuplicateAcrossSegments h) else Ok tt) rollback_ordered.

Definition check_fork_outside (fork_hash : string) (hashes : list string) : Res ReorgPlanValidationError unit :=
  rfor (λ h, if String.eqb h fork_hash then Err (ForkInsideSegments h) else Ok tt) hashes.

(** The loop over [rollback_ordered]: the wanted parent is the next entry, or
    the fork for the last one. *)
Fixpoint check_rollback (index : BlockIndex) (fork_hash : string) (l : list string) :
    Res ReorgPlanValidationError unit :=
  match l with
  | [] => Ok tt
  | h :: l' =>
    map_err BlockPath (validate_block_ancestry index h) ;;?
    let? e := ok_or (index_get index h) (BlockPath (UnknownBlock h)) in
    let want_parent := default fork_hash (head l') in
    if negb (String.eqb (bie_parent_hash e) want_parent)
    then Err (BrokenRollbackChain h "parent must equal next rollback entry or fork_hash")
    else check_rollback index fork_hash l'
  end.

(** The loop over [apply_ordered]: the wanted parent is the previous entry, or
    the fork for the first one. *)
Fixpoint check_apply (index : BlockIndex) (want_parent : string) (l : list string) :
    Res ReorgPlanValidationError unit :=
  match l with
  | [] => Ok tt
  | h :: l' =>
    map_err BlockPath (validate_block_ancestry index h) ;;?
    let? e := ok_or (index_get index h) (BlockPath (UnknownBlock h)) in
    if negb (String.eqb (bie_parent_hash e) want_parent)
    then Err (BrokenApplyChain h "parent must equal fork_hash or previous apply entry")
    else check_apply index h l'
  end.

Definition validate_against_index (plan : ReorgPlan) (index : BlockIndex) : Res ReorgPlanValidationError unit :=
  map_err BlockPath (validate_block_ancestry index (rp_fork_hash plan)) ;;?
  ensure_unique_hashes (rp_rollback_ordered plan) "rollback" ;;?
  ensure_unique_hashes (rp_apply_ordered plan) "apply" ;;?
  ensure_no_duplicate_across_segments (rp_rollback_ordered plan) (rp_apply_ordered plan) ;;?
  check_fork_outside (rp_fork_hash plan) (rp_rollback_ordered plan) ;;?
  check_fork_outside (rp_fork_hash plan) (rp_apply_ordered plan) ;;?
  check_rollback index (rp_fork_hash plan) (rp_rollback_ordered plan) ;;?
  check_apply index (rp_fork_hash plan) (rp_apply_ordered plan).

(** ** [reorg_preflight.rs] *)

Record ReorgPreflightPolicy := mkPolicy { max_reorg_depth : Z }.

Definition ReorgPreflightPolicy_default : ReorgPreflightPolicy := mkPolicy u64_max.

Inductive ReorgPreflightPolicyError := MaxReorgDepthExceeded (rollback_depth max_allowed : Z).

Inductive ReorgPreflightVerdict := NoOp | Acceptable | Rejected.

Inductive ReorgPreflightPolicyPhase :=
| NotEvaluated
| PolicyOk
| PolicyFailed (e : ReorgPreflightPolicyError).

Record ReorgPreflightReport := mkReport {
  rep_rollback_depth : Z;
  rep_apply_depth : Z;
  rep_structural : Res ReorgPlanValidationError unit;
  rep_policy : ReorgPreflightPolicyPhase;
  rep_verdict : ReorgPreflightVerdict
}.

Definition check_policy (rollback_depth : Z) (policy : ReorgPreflightPolicy) : Res ReorgPreflightPolicyError unit :=
  if max_reorg_depth policy <? rollback_depth
  then Err (MaxReorgDepthExceeded rollback_depth (max_reorg_depth policy)) else Ok tt.

(** [None] when structural validation panics, which it does not
    ([validate_no_panic]). *)
Definition evaluate (plan : ReorgPlan) (index : BlockIndex) (policy : ReorgPreflightPolicy) :
    option ReorgPreflightReport :=
  let rollback_depth := zlen (rp_rollback_ordered plan) in
  let apply_depth := zlen (rp_apply_ordered plan) in
  let structural := validate_against_index plan index in
  let phase :=
    match structural with
    | Panic => None
    | Err _ => Some (NotEvaluated, Rejected)
    | Ok _ =>
      if is_noop plan then Some (PolicyOk, NoOp)
      else
        match check_policy rollback_depth policy with
        | Ok _ => Some (PolicyOk, Acceptable)
        | Err e => Some (PolicyFailed e, Rejected)
        | Panic => None
        end
    end in
  '(policy_phase, verdict) ← phase;
  Some (mkReport rollback_depth apply_depth structural policy_phase verdict).

(** ** The checks *)

Lemma ensure_unique_ok seen hashes side :
  ensure_unique_from seen hashes side = Ok tt ↔ NoDup hashes ∧ ∀ h, h ∈ hashes → h ∉ seen.
Proof.
  revert seen. induction hashes as [|h hashes IH]; intros seen; cbn [ensure_unique_from].
  { split; [|done]. intros _. split; [constructor|set_solver]. }
  rewrite NoDup_cons. case_decide as Hin.
  - split; [done|]. intros [_ Hd]. by destruct (Hd h); [left|].
  - rewrite IH. split.
    + intros [Hnd Hd]. split_and!; [|done|set_solver]. intros Hx. apply Hd in Hx. set_solver.
    + intros [[Hni Hnd] Hd]. split; [done|]. intros x Hx [->%elem_of_singleton|Hs]%elem_of_union; [done|].
      apply (Hd x); [by right|done].
Qed.

Lemma across_ok l1 l2 :
  ensure_no_duplicate_across_segments l1 l2 = Ok tt ↔ ∀ h, h ∈ l1 → h ∉ l2.
Proof.
  unfold ensure_no_duplicate_across_segments. rewrite rfor_ok, Forall_forall.
  split; intros Hx h Hh; specialize (Hx h Hh); by case_decide.
Qed.

Lemma fork_outside_ok fork l : check_fork_outside fork l = Ok tt ↔ fork ∉ l.
Proof.
  unfold check_fork_outside. rewrite rfor_ok, Forall_forall. split.
  - intros Hx Hin. specialize (Hx fork Hin). by rewrite String.eqb_refl in Hx.
  - intros Hn h Hh. destruct (String.eqb_spec h fork) as [->|]; done.
Qed.

(** A block with valid ancestry whose recorded parent is in the index is
    linked to it. *)
Lemma ancestry_link idx h e p :
  index_get idx "" = None → validate_block_ancestry idx h = Ok tt → index_get idx h = Some e →
  bie_parent_hash e = p → is_Some (index_get idx p) → link idx h p.
Proof.
  intros Hempty (l&g&ge&Hg&Hl&Hge&Hz&Hpar)%ancestry_ok He Hp Hsome.
  inversion Hg as [? e' He' Hz'|? q l' Hlink _]; subst.
  - simpl in Hl. injection Hl as <-. rewrite He in Hge. injection Hge as <-. rewrite Hpar, Hempty in Hsome.
    by destruct Hsome.
  - pose proof Hlink as (e2&pe&He2&_&Hq&_). rewrite He in He2. injection He2 as <-. by rewrite Hq.
Qed.

Lemma link_parent idx h p e : link idx h p → index_get idx h = Some e → bie_parent_hash e = p.
Proof. intros (e'&pe&He&_&Hp&_) Hx. congruence. Qed.

Lemma link_known idx h p : link idx h p → is_Some (index_get idx h) ∧ is_Some (index_get idx p).
Proof. intros (e&pe&He&_&_&_&_&Hp&_). rewrite He, Hp. eauto. Qed.

(** What a successful check of one block means. *)
Lemma check_step_ok {A} idx h want (err : A) (k : Res A unit) (f : BlockPathError → A) :
  (map_err f (validate_block_ancestry idx h) ;;?
   let? e := ok_or (index_get idx h) (f (UnknownBlock h)) in
   if negb (String.eqb (bie_parent_hash e) want) then Err err else k) = Ok tt ↔
  validate_block_ancestry idx h = Ok tt ∧ (∃ e, index_get idx h = Some e ∧ bie_parent_hash e = want) ∧ k = Ok tt.
Proof.
  unfold rbind, map_err, ok_or. destruct (validate_block_ancestry idx h) as [[]| |]; [|naive_solver..].
  destruct (index_get idx h) as [e|]; [|naive_solver].
  destruct (String.eqb_spec (bie_parent_hash e) want); simpl; naive_solver.
Qed.

Lemma check_rollback_seg idx fork l :
  index_get idx "" = None → is_Some (index_get idx fork) → check_rollback idx fork l = Ok tt →
  seg idx (default fork (head l)) l fork ∧ is_Some (index_get idx (default fork (head l))).
Proof.
  intros Hempty Hfork. induction l as [|h l IH]; [intros _; split; [constructor|done]|].
  cbn [check_rollback]. rewrite check_step_ok. intros (Hanc&(e&He&Hp)&Hrest).
  destruct (IH Hrest) as [Hs Hknown]. simpl. split; [|by exists e].
  econstructor; [|exact Hs]. by eapply ancestry_link.
Qed.

Lemma seg_snoc idx a mid h p : seg idx a mid h → link idx h p → seg idx a (mid ++ [h]) p.
Proof.
  induction 1 as [h|x q mid h Hl Hs IH]; intros Hlink; simpl; econstructor; try done; [constructor|auto].
Qed.

Lemma check_apply_seg idx want l :
  index_get idx "" = None → is_Some (index_get idx want) → check_apply idx want l = Ok tt →
  seg idx (default want (last l)) (reverse l) want.
Proof.
  intros Hempty. revert want. induction l as [|h l IH]; intros want Hknown; [intros _; constructor|].
  cbn [check_apply]. rewrite check_step_ok. intros (Hanc&(e&He&Hp)&Hrest).
  assert (is_Some (index_get idx h)) as Hh by (by exists e).
  assert (link idx h want) as Hl by (by eapply ancestry_link).
  pose proof (IH h Hh Hrest) as Hs. rewrite reverse_cons.
  replace (default want (last (h :: l))) with (default h (last l)) by (by destruct l as [|x l]; [|simpl; destruct (last (x :: l)) eqn:Hx; [|by apply last_None in Hx]]).
  by eapply seg_snoc.
Qed.

(** ** Completeness of the checks *)

Lemma ancestry_step idx h p :
  link idx h p → validate_block_ancestry idx p = Ok tt → validate_block_ancestry idx h = Ok tt.
Proof.
  rewrite !ancestry_ok. intros Hl (l&g&ge&Hg&Hlast&Hrest). exists (h :: l), g, ge.
  split_and!; [by econstructor| |apply Hrest..]. destruct l as [|x l]; [done|]. by rewrite last_cons_cons.
Qed.

Lemma seg_ancestry idx h mid f :
  seg idx h mid f → validate_block_ancestry idx f = Ok tt → validate_block_ancestry idx h = Ok tt.
Proof. induction 1; [done|]. intros Hf. eapply ancestry_step; eauto. Qed.

Lemma link_entry idx h p : link idx h p → ∃ e, index_get idx h = Some e ∧ bie_parent_hash e = p.
Proof. intros Hl. destruct (link_known _ _ _ Hl) as [[e He] _]. exists e. split; [done|by eapply link_parent]. Qed.

Lemma seg_start idx h mid f : seg idx h mid f → default f (head mid) = h.
Proof. by destruct 1. Qed.

Lemma check_rollback_complete idx h mid f :
  seg idx h mid f → validate_block_ancestry idx f = Ok tt → check_rollback idx f mid = Ok tt.
Proof.
  intros Hs Hf. induction Hs as [f|h p mid f Hl Hs IH]; [done|]. cbn [check_rollback]. rewrite check_step_ok.
  split_and!; [by eapply ancestry_step, seg_ancestry| |auto]. rewrite (seg_start _ _ _ _ Hs). by apply link_entry.
Qed.

Lemma check_apply_snoc idx want l h :
  check_apply idx want l = Ok tt → link idx h (default want (last l)) →
  validate_block_ancestry idx h = Ok tt → check_apply idx want (l ++ [h]) = Ok tt.
Proof.
  intros Hc Hl Ha. revert want Hc Hl. induction l as [|x l IH]; intros want; cbn [app check_apply].
  - intros _ Hl. rewrite check_step_ok. eauto using link_entry.
  - rewrite !check_step_ok. intros (Hax&Hex&Hc) Hl. split_and!; [done..|]. apply IH; [done|].
    destruct l as [|y l]; [done|]. rewrite last_cons_cons in Hl.
    by destruct (last (y :: l)) eqn:Hy; [|apply last_None in Hy].
Qed.

Lemma check_apply_complete idx h mid f :
  seg idx h mid f → validate_block_ancestry idx f = Ok tt → check_apply idx f (reverse mid) = Ok tt.
Proof.
  intros Hs Hf. induction Hs as [f|h p mid f Hl Hs IH]; [done|]. rewrite reverse_cons. apply check_apply_snoc; [auto| |].
  - rewrite last_reverse, (seg_start _ _ _ _ Hs). done.
  - by eapply ancestry_step, seg_ancestry.
Qed.

Lemma validate_ok plan idx :
  validate_against_index plan idx = Ok tt ↔
  validate_block_ancestry idx (rp_fork_hash plan) = Ok tt
  ∧ NoDup (rp_rollback_ordered plan) ∧ NoDup (rp_apply_ordered plan)
  ∧ (∀ h, h ∈ rp_rollback_ordered plan → h ∉ rp_apply_ordered plan)
  ∧ (rp_fork_hash plan ∉ rp_rollback_ordered plan) ∧ (rp_fork_hash plan ∉ rp_apply_ordered plan)
  ∧ check_rollback idx (rp_fork_hash plan) (rp_rollback_ordered plan) = Ok tt
  ∧ check_apply idx (rp_fork_hash plan) (rp_apply_ordered plan) = Ok tt.
Proof.
  unfold validate_against_index, ensure_unique_hashes. rewrite !rbind_unit_ok.
  rewrite !ensure_unique_ok, across_ok, !fork_outside_ok.
  assert (map_err BlockPath (validate_block_ancestry idx (rp_fork_hash plan)) = Ok tt ↔
          validate_block_ancestry idx (rp_fork_hash plan) = Ok tt) as ->.
  { by destruct (validate_block_ancestry idx (rp_fork_hash plan)) as [[]| |]. }
  split; [tauto|]. intros (?&?&?&?&?&?&?&?). split_and!; (done || set_solver).
Qed.

(** The plan between two tips. *)
Definition plan_of_fork (idx : BlockIndex) (plan : ReorgPlan) : Prop :=
  ∃ old_tip new_tip slices,
    fork_slices_between_tips idx old_tip new_tip = Ok slices ∧ plan = from_fork_slices slices.

Lemma plan_valid_sound idx plan :
  index_get idx "" = None → validate_against_index plan idx = Ok tt →
  validate_block_ancestry idx (rp_fork_hash plan) = Ok tt ∧ plan_of_fork idx plan.
Proof.
  intros Hempty (Hanc&Hnr&Hna&Hx&Hfr&Hfa&Hr&Ha)%validate_ok. split; [done|].
  pose proof Hanc as (l&g&ge&Hg&_)%ancestry_ok. destruct (gpath_height _ _ _ Hg) as (fe&Hfe&_).
  destruct (check_rollback_seg _ _ _ Hempty (mk_is_Some _ _ Hfe) Hr) as [Hs _].
  pose proof (check_apply_seg _ _ _ Hempty (mk_is_Some _ _ Hfe) Ha) as Hs'.
  destruct plan as [f r a]. simpl in *.
  exists (default f (head r)), (default f (last a)), (mkForkSlices f r (reverse a)).
  split; [|unfold from_fork_slices; simpl; by rewrite reverse_involutive].
  apply fork_ok. exists l. unfold forked. simpl. destruct (gpath_head _ _ _ Hg) as [l' Hl'].
  pose proof (seg_gpath _ _ _ _ _ Hs' Hg) as Hnew. split_and!; [by eapply seg_gpath|done|by rewrite Hl'|].
  intros h Hh [Hin|Hin]%elem_of_app; [apply (Hx h Hin); by rewrite elem_of_reverse in Hh|].
  apply gpath_NoDup, NoDup_app in Hnew as (_&Hd&_). by apply (Hd h).
Qed.

Lemma plan_valid_complete idx plan :
  validate_block_ancestry idx (rp_fork_hash plan) = Ok tt → plan_of_fork idx plan →
  validate_against_index plan idx = Ok tt.
Proof.
  intros Hanc (o&n&[f om nm]&(rest&Ho&Hn&Hhead&Hdisj)%fork_ok&->). unfold from_fork_slices in *. simpl in *.
  destruct rest as [|f' l]; [done|]. injection Hhead as ->.
  destruct (gpath_suffix _ _ _ _ _ Ho) as [Hos _]. destruct (gpath_suffix _ _ _ _ _ Hn) as [Hns _].
  apply gpath_NoDup in Ho, Hn. apply NoDup_app in Ho as (Hndo&Hfo&_), Hn as (Hndn&Hfn&_).
  apply validate_ok. simpl. split_and!.
  - done.
  - done.
  - by rewrite reverse_Permutation.
  - intros h Hh. rewrite elem_of_reverse. intros Hx. apply (Hdisj h Hx). set_solver.
  - intros Hx. apply (Hfo f Hx). left.
  - rewrite elem_of_reverse. intros Hx. apply (Hfn f Hx). left.
  - by eapply check_rollback_complete.
  - by eapply check_apply_complete.
Qed.

(** C30: structural validation of a reorg plan is exact: on an index with no
    entry under the empty hash, a plan passes iff its fork has an ancestry
    that ends in a genesis block and the plan is the one built from the fork
    slices of some pair of tips; so every tampered plan (dropped, reordered,
    duplicated or foreign block, wrong fork) is rejected. *)
Theorem plan_validates_iff idx plan :
  index_get idx "" = None →
  validate_against_index plan idx = Ok tt ↔
  validate_block_ancestry idx (rp_fork_hash plan) = Ok tt
  ∧ ∃ old_tip new_tip, try_from_tips idx old_tip new_tip = Ok plan.
Proof.
  intros Hempty. assert (plan_of_fork idx plan ↔ ∃ o n, try_from_tips idx o n = Ok plan) as <-.
  { unfold plan_of_fork, try_from_tips, rbind. split.
    - intros (o&n&s&Hs&->). exists o, n. by rewrite Hs.
    - intros (o&n&Hx). destruct (fork_slices_between_tips idx o n) as [s| |] eqn:Hs; [|done..].
      injection Hx as <-. eauto. }
  split; [by apply plan_valid_sound|]. intros [??]. by apply plan_valid_complete.
Qed.

(** ** No panic *)

Lemma path_loop_no_panic idx limit cur visited chain : path_loop limit idx cur visited chain ≠ Panic.
Proof.
  revert cur visited chain. induction limit as [|n IH]; intros cur visited chain; [done|]. cbn [path_loop].
  case_decide; [done|]. destruct (index_get idx cur) as [e|]; cbn [ok_or rbind]; [|done].
  destruct (bie_height e =? 0); [done|]. unfold validated_parent_hash.
  repeat (case_match; cbn [rbind ok_or]; try done).
  unfold rbind, ok_or in *. repeat case_match; simplify_eq; try done; apply IH.
Qed.

Lemma ancestry_no_panic idx h : validate_block_ancestry idx h ≠ Panic.
Proof.
  unfold validate_block_ancestry, path_from_tip_toward_genesis. unfold rbind, ok_or.
  destruct (path_loop _ _ _ _ _) eqn:Hp; [|done|by apply path_loop_no_panic in Hp]. repeat case_match; done.
Qed.

#[export] Hint Resolve ancestry_no_panic : no_panic.

Lemma ensure_unique_no_panic seen l side : ensure_unique_from seen l side ≠ Panic.
Proof. revert seen. induction l as [|h l IH]; intros seen; [done|]. simpl. by case_decide. Qed.

Lemma check_rollback_no_panic idx f l : check_rollback idx f l ≠ Panic.
Proof.
  induction l as [|h l IH]; [done|]. cbn [check_rollback].
  repeat (apply rbind_no_panic; [auto with no_panic|intros ?]). by destruct (negb _).
Qed.

Lemma check_apply_no_panic idx f l : check_apply idx f l ≠ Panic.
Proof.
  revert f. induction l as [|h l IH]; intros f; [done|]. cbn [check_apply].
  repeat (apply rbind_no_panic; [auto with no_panic|intros ?]). by destruct (negb _).
Qed.

Lemma validate_no_panic plan idx : validate_against_index plan idx ≠ Panic.
Proof.
  unfold validate_against_index, ensure_unique_hashes, ensure_no_duplicate_across_segments, check_fork_outside.
  repeat (apply rbind_no_panic; [|intros ?]);
    auto using ensure_unique_no_panic, check_rollback_no_panic, check_apply_no_panic with no_panic.
  all: apply rfor_no_panic; intros x; by (case_decide || destruct (String.eqb _ _)).
Qed.

(** The preflight always reports, and its verdict is exact: a plan is
    rejected iff its structure is invalid or it rolls back more blocks than
    the policy allows although it is not a no-op; it is a no-op iff it is
    valid and changes nothing; otherwise it is acceptable. The policy is
    consulted only for structurally valid plans. *)
Theorem preflight_verdict_exact plan idx policy :
  ∃ r, evaluate plan idx policy = Some r
  ∧ rep_structural r = validate_against_index plan idx
  ∧ rep_rollback_depth r = zlen (rp_rollback_ordered plan) ∧ rep_apply_depth r = zlen (rp_apply_ordered plan)
  ∧ (rep_verdict r = NoOp ↔ validate_against_index plan idx = Ok tt
       ∧ rp_rollback_ordered plan = [] ∧ rp_apply_ordered plan = [])
  ∧ (rep_verdict r = Acceptable ↔ validate_against_index plan idx = Ok tt
       ∧ ¬ (rp_rollback_ordered plan = [] ∧ rp_apply_ordered plan = [])
       ∧ zlen (rp_rollback_ordered plan) ≤ max_reorg_depth policy)
  ∧ (rep_verdict r = Rejected ↔ validate_against_index plan idx ≠ Ok tt
       ∨ (¬ (rp_rollback_ordered plan = [] ∧ rp_apply_ordered plan = [])
          ∧ max_reorg_depth policy < zlen (rp_rollback_ordered plan)))
  ∧ (rep_policy r = NotEvaluated ↔ validate_against_index plan idx ≠ Ok tt).
Proof.
  pose proof (validate_no_panic plan idx) as Hnp. unfold evaluate, is_noop, check_policy.
  destruct plan as [f [|x rb] [|y ap]]; simpl in *;
    destruct (validate_against_index _ idx) as [[]|e|]; [| |done| | |done| | |done| | |done]; simpl;
    try (destruct (Z.ltb_spec (max_reorg_depth policy) (zlen (x :: rb))); simpl);
    try (destruct (Z.ltb_spec (max_reorg_depth policy) (zlen (@nil string))); simpl);
    eexists; (split; [done|]); simpl; split_and!; naive_solver lia.
Qed.

Module ReorgExample.

(** Genesis [g] with two children [a] and [b]. *)
Definition idx : BlockIndex :=
  mkBlockIndex {[ "g" := mkEntry "" 0; "a" := mkEntry "g" 1; "b" := mkEntry "g" 1 ]}.

Lemma plan_validates_iff_witness :
  index_get idx "" = None
  ∧ validate_against_index (mkReorgPlan "g" ["a"] ["b"]) idx = Ok tt
  ∧ ∃ old_tip new_tip, try_from_tips idx old_tip new_tip = Ok (mkReorgPlan "g" ["a"] ["b"]).
Proof.
  split_and!; [vm_compute; reflexivity..|].
  refine (proj2 (proj1 (plan_validates_iff idx (mkReorgPlan "g" ["a"] ["b"]) _) _)); vm_compute; reflexivity.
Defined.

(** A reordered plan is refused. *)
Example reordered_refused :
  is_ok (validate_against_index (mkReorgPlan "a" ["g"] ["b"]) idx) = false.
Proof. vm_compute. reflexivity. Qed.

End ReorgExample.
