(* ===== verification/ReplaySandbox.v ===== *)
(** * The replay sandbox ([v3/replay_sandbox.rs])

    A reorg plan that passes structural validation and the preflight policy is
    replayed on a copy of the fork's account state. [sandbox_predicts_append]
    relates the simulation to the live validator: what the sandbox accepts,
    [append_block] accepts, with the reported state. *)

From Stdlib Require Import ZArith Lia.
From stdpp Require Import base strings list gmap fin_maps.
From S2P Require Import Prelude Bytes Crypto Transaction Wallet Block Genesis Ledger Mempool Blockchain BlockIndex ReorgPlan.

Record ReplaySandboxMaterial := mkMaterial {
  state_at_fork : State;
  blocks_by_hash : gmap string Block;
  expected_state_at_old_tip : option State;
  rm_consensus : ConsensusParams;
  parent_blocks_by_hash : gmap string Block
}.

Definition account_record (p : Address * Account) : list byte :=
  let addr_bytes := str_bytes p.1 in
  to_be_bytes_u32 (zlen addr_bytes) ++ addr_bytes
  ++ to_be_bytes_u64 (acc_balance p.2) ++ to_be_bytes_u64 (acc_nonce p.2).

(** [to_be_bytes_u32] keeps the low 32 bits, as the cast [as u32] does. *)
Definition sandbox_state_fingerprint_preimage (state : State) : list byte :=
  let accounts := accounts_sorted state in
  to_be_bytes_u64 (Z.min (zlen accounts) u64_max) ++ concat (account_record <$> accounts).

Inductive IndexLinkMismatch_t :=
| BlockHashKey (map_key block_declared_hash : string)
| MissingIndexEntry (block_hash : string)
| MismatchHeight (block_hash : string) (index_height block_height : Z)
| MismatchParentHash (block_hash index_parent_hash block_previous_hash : string)
| ParentBlockHash (parent_key parent_declared_hash : string).

Inductive ReplaySandboxReplayError :=
| MissingExpectedOldTipState
| MissingBlockBody (block_hash : string)
| IndexLinkMismatch (m : IndexLinkMismatch_t)
| OldTipStateMismatch (expected_fingerprint replayed_fingerprint : string)
| BasicValidation (block_hash : string) (error : ProtocolError)
| StateTransition (block_hash : string) (error : ProtocolError)
| SupplyAudit (error : ProtocolError)
| MissingParentBlock (parent_hash : string)
| TimestampPolicy (block_hash : string) (error : ProtocolError).

Record ReplaySandboxReplayOk := mkReplayOk {
  rollback_blocks_verified : Z;
  apply_blocks_simulated : Z;
  final_state_fingerprint : string;
  final_supply_total : Z
}.

Inductive ReplaySandboxReplayPhase :=
| SkippedDueToStructuralInvalid
| SkippedDueToPolicy
| Completed (r : Res ReplaySandboxReplayError ReplaySandboxReplayOk).

Record ReplaySandboxReport := mkReplayReport {
  rr_structural : Res ReorgPlanValidationError unit;
  rr_preflight : ReorgPreflightReport;
  rr_replay : ReplaySandboxReplayPhase
}.

Definition validate_block_against_index (block : Block) (index : BlockIndex) (expected_hash : string) :
    Res ReplaySandboxReplayError unit :=
  if negb (String.eqb (blk_block_hash block) expected_hash)
  then Err (IndexLinkMismatch (BlockHashKey expected_hash (blk_block_hash block)))
  else
    let? entry := ok_or (index_get index expected_hash) (IndexLinkMismatch (MissingIndexEntry expected_hash)) in
    if negb (blk_height block =? bie_height entry)
    then Err (IndexLinkMismatch (MismatchHeight expected_hash (bie_height entry) (blk_height block)))
    else if negb (String.eqb (blk_previous_hash block) (bie_parent_hash entry))
    then Err (IndexLinkMismatch
                (MismatchParentHash expected_hash (bie_parent_hash entry) (blk_previous_hash block)))
    else Ok tt.

Definition resolve_parent_block (material : ReplaySandboxMaterial) (parent_key : string) :
    Res ReplaySandboxReplayError Block :=
  let? parent := ok_or (match parent_blocks_by_hash material !! parent_key with
                        | Some b => Some b
                        | None => blocks_by_hash material !! parent_key
                        end) (MissingParentBlock parent_key) in
  if negb (String.eqb (blk_block_hash parent) parent_key)
  then Err (IndexLinkMismatch (ParentBlockHash parent_key (blk_block_hash parent)))
  else Ok parent.

Definition validate_timestamp_vs_parent (material : ReplaySandboxMaterial) (child : Block) (child_hash : string) :
    Res ReplaySandboxReplayError unit :=
  if is_genesis child then Ok tt
  else
    let? parent := resolve_parent_block material (blk_previous_hash child) in
    map_err (TimestampPolicy child_hash)
      (validate_block_timestamps_vs_parent parent child (rm_consensus material)).

Section sandbox.
Context `{CryptoLib}.

Definition sandbox_state_fingerprint (state : State) : string :=
  hash_bytes (sandbox_state_fingerprint_preimage state).

Definition apply_block_to_state (material : ReplaySandboxMaterial) (index : BlockIndex) (block : Block)
    (block_hash : string) : ST State ReplaySandboxReplayError unit :=
  slift (validate_block_against_index block index block_hash) ;;!
  slift (validate_timestamp_vs_parent material block block_hash) ;;!
  slift (map_err (BasicValidation block_hash) (block_basic_validate block)) ;;!
  sfor (λ tx, smap_err (StateTransition block_hash) (apply_transaction tx)) (blk_transactions block).

(** A loop over planned hashes, applying each body. *)
Definition replay_blocks (material : ReplaySandboxMaterial) (index : BlockIndex) (hashes : list string) :
    ST State ReplaySandboxReplayError unit :=
  sfor (λ h, let! block := slift (expect (blocks_by_hash material !! h)) in
             apply_block_to_state material index block h) hashes.

Definition check_rollback_branch (plan : ReorgPlan) (index : BlockIndex) (material : ReplaySandboxMaterial) :
    Res ReplaySandboxReplayError unit :=
  if Nat.eqb (length (rp_rollback_ordered plan)) 0 then Ok tt
  else
    let? walk := exec_on (replay_blocks material index (reverse (rp_rollback_ordered plan)))
                   (state_at_fork material) in
    let replayed_fp := sandbox_state_fingerprint walk in
    let? expected := expect (expected_state_at_old_tip material) in
    let expected_fp := sandbox_state_fingerprint expected in
    if negb (String.eqb replayed_fp expected_fp) then Err (OldTipStateMismatch expected_fp replayed_fp) else Ok tt.

Definition run_replay_on_clones (plan : ReorgPlan) (index : BlockIndex) (material : ReplaySandboxMaterial) :
    Res ReplaySandboxReplayError ReplaySandboxReplayOk :=
  if negb (Nat.eqb (length (rp_rollback_ordered plan)) 0)
     && match expected_state_at_old_tip material with None => true | Some _ => false end
  then Err MissingExpectedOldTipState
  else
    rfor (λ h, match blocks_by_hash material !! h with Some _ => Ok tt | None => Err (MissingBlockBody h) end)
      (rp_rollback_ordered plan ++ rp_apply_ordered plan) ;;?
    check_rollback_branch plan index material ;;?
    let? sandbox := exec_on (replay_blocks material index (rp_apply_ordered plan)) (state_at_fork material) in
    let? supply := map_err SupplyAudit (total_balance_sum sandbox) in
    Ok (mkReplayOk (zlen (rp_rollback_ordered plan)) (zlen (rp_apply_ordered plan))
          (sandbox_state_fingerprint sandbox) supply).

(** [None] when a part panics, which does not happen ([sandbox_report_exact]). *)
Definition run_report (plan : ReorgPlan) (index : BlockIndex) (policy : ReorgPreflightPolicy)
    (material : ReplaySandboxMaterial) : option ReplaySandboxReport :=
  let structural := validate_against_index plan index in
  preflight ← evaluate plan index policy;
  replay ← match structural, rep_verdict preflight with
           | Panic, _ => None
           | Err _, _ => Some SkippedDueToStructuralInvalid
           | Ok _, Rejected => Some SkippedDueToPolicy
           | Ok _, (NoOp | Acceptable) =>
             match run_replay_on_clones plan index material with
             | Panic => None
             | r => Some (Completed r)
             end
           end;
  Some (mkReplayReport structural preflight replay).
End sandbox.

(** ** The fingerprint preimage is unambiguous *)

Definition small_addresses (s : State) : Prop := map_Forall (λ a _, zlen (str_bytes a) ≤ u32_max) (accounts s).

(** What the preimage keeps of an account. *)
Definition ledger_row (p : Address * Account) : Address * Z * Z := (p.1, acc_balance p.2, acc_nonce p.2).

Lemma to_be_u32_inj x y : in_u32 x → in_u32 y → to_be_bytes_u32 x = to_be_bytes_u32 y → x = y.
Proof. intros Hx Hy Heq. rewrite <- (be_combine_u32 x Hx), <- (be_combine_u32 y Hy). by rewrite Heq. Qed.

Lemma to_be_u64_inj x y : in_u64 x → in_u64 y → to_be_bytes_u64 x = to_be_bytes_u64 y → x = y.
Proof. intros Hx Hy Heq. rewrite <- (be_combine_u64 x Hx), <- (be_combine_u64 y Hy). by rewrite Heq. Qed.

Definition row_ok (p : Address * Account) : Prop :=
  zlen (str_bytes p.1) ≤ u32_max ∧ in_u64 (acc_balance p.2) ∧ in_u64 (acc_nonce p.2).

Lemma account_record_inj p q l1 l2 :
  row_ok p → row_ok q → account_record p ++ l1 = account_record q ++ l2 → ledger_row p = ledger_row q ∧ l1 = l2.
Proof.
  intros (Hl1&Hb1&Hn1) (Hl2&Hb2&Hn2). unfold account_record, ledger_row. rewrite <- !(assoc_L (++)). intros Heq.
  apply app_inj_1 in Heq as [Hlen Heq]; [|unfold to_be_bytes_u32; by rewrite !length_be_bytes].
  apply to_be_u32_inj in Hlen; [|split; [apply zlen_nonneg|done]..]. unfold zlen in Hlen.
  apply app_inj_1 in Heq as [Ha%(inj str_bytes) Heq]; [|lia].
  apply app_inj_1 in Heq as [Hb Heq]; [|unfold to_be_bytes_u64; by rewrite !length_be_bytes].
  apply app_inj_1 in Heq as [Hn ->]; [|unfold to_be_bytes_u64; by rewrite !length_be_bytes].
  apply to_be_u64_inj in Hb, Hn; [|done..]. by rewrite Ha, Hb, Hn.
Qed.

Lemma account_record_nonempty p l : account_record p ++ l ≠ [].
Proof. unfold account_record, to_be_bytes_u32. by simpl. Qed.

Lemma account_records_inj l1 l2 :
  Forall row_ok l1 → Forall row_ok l2 →
  concat (account_record <$> l1) = concat (account_record <$> l2) → ledger_row <$> l1 = ledger_row <$> l2.
Proof.
  intros H1. revert l2. induction H1 as [|p l1 Hp H1 IH]; intros l2 H2; destruct H2 as [|q l2 Hq H2]; cbn [fmap list_fmap concat].
  - done.
  - intros Heq. symmetry in Heq. by apply account_record_nonempty in Heq.
  - intros Heq. by apply account_record_nonempty in Heq.
  - intros [Hr Heq]%account_record_inj; [|done..]. rewrite Hr. f_equal. by apply IH.
Qed.

Lemma accounts_sorted_elem s a acc : (a, acc) ∈ accounts_sorted s ↔ accounts s !! a = Some acc.
Proof. unfold accounts_sorted. by rewrite sort_by_key_perm, elem_of_map_to_list. Qed.

Lemma accounts_sorted_rows s : wf_state s → small_addresses s → Forall row_ok (accounts_sorted s).
Proof.
  intros Hwf Hs. rewrite Forall_forall. intros [a acc] Hin%accounts_sorted_elem.
  destruct (Hwf a acc Hin) as (?&?&?). split_and!; [by apply (Hs a acc)|done..].
Qed.

Lemma ledger_rows_lookup s1 s2 a :
  wf_state s1 → wf_state s2 → ledger_row <$> accounts_sorted s1 = ledger_row <$> accounts_sorted s2 →
  ∀ acc, accounts s1 !! a = Some acc → accounts s2 !! a = Some acc.
Proof.
  intros Hw1 Hw2 Heq acc Hacc. assert (ledger_row (a, acc) ∈ ledger_row <$> accounts_sorted s2) as Hin.
  { rewrite <- Heq. apply list_elem_of_fmap_2. by apply accounts_sorted_elem. }
  apply list_elem_of_fmap in Hin as ([b acc']&Hrow&Hin%accounts_sorted_elem). injection Hrow as <- Hb Hn.
  destruct (Hw1 _ _ Hacc) as [Ha1 _], (Hw2 _ _ Hin) as [Ha2 _]. rewrite Hin. f_equal.
  destruct acc, acc'. simpl in *. congruence.
Qed.

Lemma fingerprint_preimage_inj s1 s2 :
  wf_state s1 → wf_state s2 → small_addresses s1 → small_addresses s2 →
  sandbox_state_fingerprint_preimage s1 = sandbox_state_fingerprint_preimage s2 → s1 = s2.
Proof.
  intros Hw1 Hw2 Hs1 Hs2 Heq. unfold sandbox_state_fingerprint_preimage in Heq.
  apply app_inj_1 in Heq as [_ Heq]; [|unfold to_be_bytes_u64; by rewrite !length_be_bytes].
  apply account_records_inj in Heq; [|by apply accounts_sorted_rows..].
  destruct s1 as [m1], s2 as [m2]. f_equal. apply map_eq. intros a. apply option_eq. intros acc.
  split; [apply (ledger_rows_lookup (mkState m1) (mkState m2))|apply (ledger_rows_lookup (mkState m2) (mkState m1))]; done.
Qed.

(** ** Simulation of the live validator *)

(** [h] follows [want], and so on upwards. *)
Inductive upward (idx : BlockIndex) : string → list string → Prop :=
| up_nil w : upward idx w []
| up_cons w h l : link idx h w → upward idx h l → upward idx w (h :: l).

Lemma upward_snoc idx w l h : upward idx w l → link idx h (default w (last l)) → upward idx w (l ++ [h]).
Proof.
  induction 1 as [w|w x l Hl Hu IH]; intros Hh; simpl; [by repeat constructor|]. econstructor; [done|]. apply IH.
  destruct l as [|y l]; [done|]. rewrite last_cons_cons in Hh. by destruct (last (y :: l)) eqn:Hy; [|apply last_None in Hy].
Qed.

Lemma seg_upward idx h mid f : seg idx h mid f → upward idx f (reverse mid).
Proof.
  induction 1 as [f|h p mid f Hl Hs IH]; [constructor|]. rewrite reverse_cons. apply upward_snoc; [done|].
  by rewrite last_reverse, (seg_start _ _ _ _ Hs).
Qed.

(** A valid plan climbs from its fork on both branches. *)
Lemma plan_upward idx plan :
  index_get idx "" = None → validate_against_index plan idx = Ok tt →
  upward idx (rp_fork_hash plan) (reverse (rp_rollback_ordered plan))
  ∧ upward idx (rp_fork_hash plan) (rp_apply_ordered plan).
Proof.
  intros Hempty (Hanc&_&_&_&_&_&Hr&Ha)%validate_ok.
  pose proof Hanc as (l&g&ge&Hg&_)%ancestry_ok. destruct (gpath_height _ _ _ Hg) as (fe&Hfe&_).
  destruct (check_rollback_seg _ _ _ Hempty (mk_is_Some _ _ Hfe) Hr) as [Hs _]. split; [by eapply seg_upward|].
  rewrite <- (reverse_involutive (rp_apply_ordered plan)). eapply seg_upward. by apply check_apply_seg.
Qed.

Lemma against_index_ok b idx h :
  validate_block_against_index b idx h = Ok tt ↔
  blk_block_hash b = h ∧ ∃ e, index_get idx h = Some e ∧ blk_height b = bie_height e ∧ blk_previous_hash b = bie_parent_hash e.
Proof.
  unfold validate_block_against_index, rbind, ok_or.
  destruct (String.eqb_spec (blk_block_hash b) h) as [Hx|Hx]; simpl; [|naive_solver].
  destruct (index_get idx h) as [e|]; [|naive_solver].
  destruct (Z.eqb_spec (blk_height b) (bie_height e)); simpl; [|naive_solver].
  destruct (String.eqb_spec (blk_previous_hash b) (bie_parent_hash e)); simpl; naive_solver.
Qed.

Lemma smap_err_loop {S E F A} (f : E → F) (g : A → ST S E unit) l s s' :
  sfor (λ x, smap_err f (g x)) l s = (Ok tt, s') ↔ sfor g l s = (Ok tt, s').
Proof.
  revert s. induction l as [|x l IH]; intros s; [simpl; unfold sret; naive_solver|]. cbn [sfor]. unfold sbind, smap_err.
  destruct (g x s) as [[[]| |] s1]; simpl; [apply IH|naive_solver..].
Qed.

Section simulation.
Context `{CryptoLib}.

(** The bodies of the planned hashes. *)
Definition bodies (m : ReplaySandboxMaterial) (hashes : list string) (bs : list Block) : Prop :=
  Forall2 (λ h b, blocks_by_hash m !! h = Some b) hashes bs.

(** The block [tip] is what the index and the material hold at [h]. *)
Definition tip_matches (m : ReplaySandboxMaterial) (idx : BlockIndex) (h : string) (tip : Block) : Prop :=
  blk_block_hash tip = h ∧ in_u64 (blk_height tip)
  ∧ (∃ e, index_get idx h = Some e ∧ bie_height e = blk_height tip) ∧ resolve_parent_block m h = Ok tip.

(** The two maps of the material hold the same block at a common key. *)
Definition parents_agree (m : ReplaySandboxMaterial) : Prop :=
  ∀ h p b, parent_blocks_by_hash m !! h = Some p → blocks_by_hash m !! h = Some b → p = b.

Lemma resolve_body m h b :
  parents_agree m → blocks_by_hash m !! h = Some b → blk_block_hash b = h → resolve_parent_block m h = Ok b.
Proof.
  intros Ha Hb Hh. unfold resolve_parent_block. destruct (parent_blocks_by_hash m !! h) as [p|] eqn:Hp.
  - rewrite (Ha h p b Hp Hb). simpl. by rewrite Hh, String.eqb_refl.
  - rewrite Hb. simpl. by rewrite Hh, String.eqb_refl.
Qed.

(** One block: the sandbox accepts it iff it matches the index and the live
    validator accepts it. *)
Lemma replay_one m idx want tip h b c s' :
  last (bc_blocks c) = Some tip → bc_consensus c = rm_consensus m → tip_matches m idx want tip → link idx h want →
  apply_block_to_state m idx b h (bc_state c) = (Ok tt, s') ↔
  validate_block_against_index b idx h = Ok tt
  ∧ append_block b c = (Ok tt, mkBlockchain (bc_blocks c ++ [b]) s' (bc_consensus c)).
Proof.
  intros Hlast Hcons (Hth&Hu&(te&Hte&Htheight)&Hres) Hlink.
  destruct Hlink as (e&pe&He&Hnz&Hp&_&_&Hpe&Hheights&Hmax). rewrite Hte in Hpe. injection Hpe as <-.
  unfold apply_block_to_state. unfold sbind at 1, slift at 1.
  destruct (validate_block_against_index b idx h) as [[]| |] eqn:Hidx; [|naive_solver..].
  apply against_index_ok in Hidx as (Hbh&e'&He'&Hheight&Hprev). rewrite He in He'. injection He' as <-.
  assert (is_genesis b = false) as Hgen by (unfold is_genesis; apply Z.eqb_neq; lia).
  assert (wrapping_add (blk_height tip) 1 = blk_height b) as Hw.
  { unfold wrapping_add. rewrite Z.mod_small; [lia|]. unfold in_u64 in Hu. lia. }
  unfold validate_timestamp_vs_parent. rewrite Hgen, Hprev, Hp, Hres. cbn [rbind].
  unfold append_block, sbind, slift, sget, sput, sfail.
  destruct (block_basic_validate b) as [[]| |]; simpl;
    [|destruct (validate_block_timestamps_vs_parent tip b (rm_consensus m)) as [[]| |]; simpl; naive_solver..].
  rewrite Hlast. simpl. rewrite Hw, Hprev, Hp, Hth, Z.eqb_refl, String.eqb_refl, Hcons. simpl.
  destruct (validate_block_timestamps_vs_parent tip b (rm_consensus m)) as [[]| |]; simpl; [|naive_solver..].
  rewrite smap_err_loop. unfold exec_on. destruct (sfor apply_transaction (blk_transactions b) (bc_state c)) as [[[]| |] s1];
    simpl; split; naive_solver.
Qed.

Lemma replay_append m idx want tip hashes bs c s' :
  last (bc_blocks c) = Some tip → bc_consensus c = rm_consensus m → parents_agree m → tip_matches m idx want tip →
  upward idx want hashes → bodies m hashes bs →
  replay_blocks m idx hashes (bc_state c) = (Ok tt, s') ↔
  Forall2 (λ h b, validate_block_against_index b idx h = Ok tt) hashes bs
  ∧ append_blocks bs c = (Ok tt, mkBlockchain (bc_blocks c ++ bs) s' (bc_consensus c)).
Proof.
  intros Hlast Hcons Hagree Htip Hup Hbs. revert want tip c Hlast Hcons Htip Hup.
  induction Hbs as [|h b hashes bs Hb Hbs IH]; intros want tip c Hlast Hcons Htip Hup.
  { unfold replay_blocks, append_blocks. simpl. rewrite app_nil_r. unfold sret. destruct c as [bl st co].
    simpl. split; [intros [= <-]; split; [constructor|done]|]. by intros [_ [= ->]]. }
  inversion Hup as [|? ? ? Hlink Hup']; subst. unfold replay_blocks, append_blocks. cbn [sfor].
  unfold sbind at 1. unfold sbind at 1. rewrite Hb. cbn [expect slift]. unfold sbind at 1.
  rewrite Forall2_cons.
  assert (∀ s1, apply_block_to_state m idx b h (bc_state c) = (Ok tt, s1) ↔
            validate_block_against_index b idx h = Ok tt
            ∧ append_block b c = (Ok tt, mkBlockchain (bc_blocks c ++ [b]) s1 (bc_consensus c))) as Hone.
  { intros s1. by eapply replay_one. }
  assert (∀ s1, validate_block_against_index b idx h = Ok tt →
            replay_blocks m idx hashes s1 = (Ok tt, s') ↔
            Forall2 (λ h b, validate_block_against_index b idx h = Ok tt) hashes bs
            ∧ append_blocks bs (mkBlockchain (bc_blocks c ++ [b]) s1 (bc_consensus c))
              = (Ok tt, mkBlockchain (bc_blocks c ++ b :: bs) s' (bc_consensus c))) as Hrest.
  { intros s1 (Hbh&e&He&Hheight&_)%against_index_ok.
    rewrite (IH h b (mkBlockchain (bc_blocks c ++ [b]) s1 (bc_consensus c))); cbn [bc_blocks bc_state bc_consensus].
    - by rewrite <- (assoc_L (++)).
    - by rewrite last_snoc.
    - done.
    - split_and!; [done| |by exists e|by apply resolve_body]. rewrite Hheight.
      destruct Htip as (_&Hu&(te&Hte&Hteh)&_). destruct Hlink as (e'&pe&He'&_&_&_&_&Hpe&?&?).
      rewrite He in He'. injection He' as <-. rewrite Hte in Hpe. injection Hpe as <-. unfold in_u64 in *. lia.
    - done. }
  unfold replay_blocks, append_blocks in Hrest. split.
  - destruct (apply_block_to_state m idx b h (bc_state c)) as [[[]| |] s1] eqn:Hap; [|done..].
    destruct (proj1 (Hone s1) eq_refl) as [Hv Happ]. intros Hr. apply (Hrest s1 Hv) in Hr as [Hall Hr].
    unfold sbind. by rewrite Happ.
  - intros [[Hv Hall] Hr]. unfold sbind in Hr.
    destruct (append_block_cases b c) as [(tip'&s1&_&_&_&Heq)|(Hne&_)];
      [|by destruct (append_block b c) as [[[]| |] ?]].
    rewrite Heq in Hr. rewrite (proj2 (Hone s1) (conj Hv Heq)). by apply Hrest.
Qed.

Lemma bodies_present m hashes :
  rfor (λ h, match blocks_by_hash m !! h with Some _ => Ok tt | None => Err (MissingBlockBody h) end) hashes = Ok tt ↔
  ∃ bs, bodies m hashes bs.
Proof.
  rewrite rfor_ok. unfold bodies. split.
  - induction 1 as [|h l Hh Hl [bs IH]]; [by exists []|]. destruct (blocks_by_hash m !! h) as [b|] eqn:Hb; [|done].
    exists (b :: bs). by constructor.
  - intros [bs Hbs]. induction Hbs as [|h b l bs Hb Hbs IH]; constructor; [by rewrite Hb|done].
Qed.

Lemma bodies_app m l1 l2 : (∃ bs, bodies m (l1 ++ l2) bs) ↔ (∃ bs, bodies m l1 bs) ∧ ∃ bs, bodies m l2 bs.
Proof.
  unfold bodies. split.
  - intros [bs Hb]. apply Forall2_app_inv_l in Hb as (b1&b2&H1&H2&_). eauto.
  - intros [[b1 H1] [b2 H2]]. exists (b1 ++ b2). by apply Forall2_app.
Qed.

Lemma bodies_reverse m l bs : bodies m l bs → bodies m (reverse l) (reverse bs).
Proof. apply Forall2_reverse. Qed.

Lemma bodies_fun m l b1 b2 : bodies m l b1 → bodies m l b2 → b1 = b2.
Proof.
  unfold bodies. intros H1. revert b2. induction H1 as [|h b l bs Hb Hbs IH]; intros b2 H2; inversion H2; subst; [done|].
  f_equal; [congruence|auto].
Qed.

(** A branch of the plan is accepted by the live validator on top of [c]. *)
Definition branch_appends (m : ReplaySandboxMaterial) (idx : BlockIndex) (c : Blockchain) (hashes : list string)
    (c' : Blockchain) : Prop :=
  ∃ bs, bodies m hashes bs ∧ Forall2 (λ h b, validate_block_against_index b idx h = Ok tt) hashes bs
        ∧ append_blocks bs c = (Ok tt, c').

Lemma replay_branch m idx want tip hashes c s' :
  last (bc_blocks c) = Some tip → bc_consensus c = rm_consensus m → parents_agree m → tip_matches m idx want tip →
  upward idx want hashes → (∃ bs, bodies m hashes bs) →
  exec_on (replay_blocks m idx hashes) (bc_state c) = Ok s' ↔
  ∃ c', branch_appends m idx c hashes c' ∧ bc_state c' = s'.
Proof.
  intros Hlast Hcons Hagree Htip Hup [bs Hbs]. rewrite exec_on_ok.
  rewrite (replay_append m idx want tip hashes bs c s') by done. split.
  - intros [Hall Happ]. eexists. split; [by exists bs|done].
  - intros (c'&(bs'&Hbs'&Hall&Happ)&<-). rewrite (bodies_fun m hashes bs bs') by done. split; [done|]. rewrite Happ.
    destruct (append_blocks_app _ _ _ Happ) as [Hb Hc]. destruct c'. simpl in *. by rewrite Hb, Hc.
Qed.
End simulation.

(** ** The sandbox never panics *)

Lemma against_index_no_panic b idx h : validate_block_against_index b idx h ≠ Panic.
Proof. unfold validate_block_against_index, rbind, ok_or. by repeat case_match. Qed.

Lemma timestamp_parent_no_panic m b h : validate_timestamp_vs_parent m b h ≠ Panic.
Proof.
  unfold validate_timestamp_vs_parent. destruct (is_genesis b); [done|]. apply rbind_no_panic.
  - unfold resolve_parent_block. apply rbind_no_panic; [auto with no_panic|]. intros p. by destruct (negb _).
  - auto using timestamps_no_panic with no_panic.
Qed.

Section no_panic.
Context `{CryptoLib}.

Lemma replay_blocks_no_panic m idx hashes : (∃ bs, bodies m hashes bs) → panic_free (replay_blocks m idx hashes).
Proof.
  intros [bs Hbs]. unfold replay_blocks. apply panic_free_for. intros h Hh.
  apply list_elem_of_lookup in Hh as [i Hi]. destruct (Forall2_lookup_l _ _ _ _ _ Hbs Hi) as (b&_&Hb). simpl in Hb.
  rewrite Hb. cbn [expect]. apply panic_free_bind; [done|]. intros b'. unfold apply_block_to_state.
  repeat (apply panic_free_bind;
    [apply panic_free_lift; auto using against_index_no_panic, timestamp_parent_no_panic, map_err_no_panic, block_basic_validate_no_panic|intros _]).
  apply panic_free_for. intros t _. apply panic_free_smap, apply_transaction_no_panic.
Qed.

Lemma run_replay_no_panic plan idx m : run_replay_on_clones plan idx m ≠ Panic.
Proof.
  unfold run_replay_on_clones. destruct (negb _ && _) eqn:Hex; [done|].
  destruct (rfor _ _) as [[]| |] eqn:Hb; [|done|exfalso; revert Hb; apply rfor_no_panic; intros h; simpl; by destruct (blocks_by_hash m !! h)].
  apply bodies_present, bodies_app in Hb as [[b1 Hb1] Hb2]. cbn [rbind]. apply rbind_no_panic.
  - unfold check_rollback_branch. destruct (Nat.eqb _ 0) eqn:Hz; [done|]. apply rbind_no_panic.
    + apply panic_free_exec, replay_blocks_no_panic. eauto using bodies_reverse.
    + intros walk. destruct (expected_state_at_old_tip m); [cbn [expect rbind]; by case_match|destruct (rp_rollback_ordered plan); done].
  - intros _. apply rbind_no_panic; [by apply panic_free_exec, replay_blocks_no_panic|]. intros s.
    apply rbind_no_panic; [apply map_err_no_panic, sum_balances_no_panic|done].
Qed.
End no_panic.

Section sandbox_theorems.
Context `{CryptoLib}.

Lemma rollback_branch_ok plan idx m :
  check_rollback_branch plan idx m = Ok tt ↔
  rp_rollback_ordered plan = []
  ∨ ∃ w, exec_on (replay_blocks m idx (reverse (rp_rollback_ordered plan))) (state_at_fork m) = Ok w
      ∧ ∃ expected, expected_state_at_old_tip m = Some expected
          ∧ sandbox_state_fingerprint w = sandbox_state_fingerprint expected.
Proof.
  unfold check_rollback_branch. destruct (rp_rollback_ordered plan) as [|h l] eqn:Hl; [simpl; split; [by left|done]|].
  cbn [length Nat.eqb]. destruct (exec_on _ (state_at_fork m)) as [w| |]; cbn [rbind]; [|naive_solver..].
  destruct (expected_state_at_old_tip m) as [ex|]; cbn [expect rbind]; [|naive_solver].
  destruct (String.eqb_spec (sandbox_state_fingerprint w) (sandbox_state_fingerprint ex)); cbn [negb]; naive_solver.
Qed.

Lemma replay_ok plan idx m ok :
  run_replay_on_clones plan idx m = Ok ok ↔
  (rp_rollback_ordered plan ≠ [] → is_Some (expected_state_at_old_tip m))
  ∧ (∃ bs, bodies m (rp_rollback_ordered plan ++ rp_apply_ordered plan) bs)
  ∧ (rp_rollback_ordered plan = []
     ∨ ∃ w, exec_on (replay_blocks m idx (reverse (rp_rollback_ordered plan))) (state_at_fork m) = Ok w
         ∧ ∃ expected, expected_state_at_old_tip m = Some expected
             ∧ sandbox_state_fingerprint w = sandbox_state_fingerprint expected)
  ∧ ∃ s', exec_on (replay_blocks m idx (rp_apply_ordered plan)) (state_at_fork m) = Ok s'
      ∧ total_balance_sum s' = Ok (final_supply_total ok)
      ∧ ok = mkReplayOk (zlen (rp_rollback_ordered plan)) (zlen (rp_apply_ordered plan))
               (sandbox_state_fingerprint s') (final_supply_total ok).
Proof.
  unfold run_replay_on_clones. destruct (negb _ && _) eqn:Hguard.
  { split; [done|]. intros (Hex&_). destruct (rp_rollback_ordered plan); [done|].
    destruct (expected_state_at_old_tip m); [done|]. by destruct Hex. }
  rewrite rbind_unit_ok, rbind_unit_ok, bodies_present, rollback_branch_ok.
  assert (∀ k : State → Res ReplaySandboxReplayError ReplaySandboxReplayOk, ∀ c, rbind c k = Ok ok ↔ ∃ a, c = Ok a ∧ k a = Ok ok) as Hb.
  { intros k c. destruct c; simpl; naive_solver. }
  rewrite Hb. clear Hb. split.
  - intros (Hbs&Hroll&s'&Hs'&Hrest). split_and!; [|done..|].
    + intros Hne. destruct (rp_rollback_ordered plan); [done|]. by destruct (expected_state_at_old_tip m).
    + exists s'. destruct (total_balance_sum s'); simpl in Hrest; [|done..]. by injection Hrest as <-.
  - intros (_&Hbs&Hroll&s'&Hs'&Hsup&Hok). split_and!; [done..|]. exists s'. split; [done|]. rewrite Hsup. simpl. by rewrite <- Hok.
Qed.

(** The sandbox always produces a report, and its phase is exact: replay
    is skipped as structurally invalid iff the plan fails validation, skipped
    by policy iff the plan is valid but its preflight is rejected, and
    otherwise run; no lookup of a block body in the replay can panic. *)
Theorem sandbox_report_exact plan idx policy m :
  ∃ r pre, run_report plan idx policy m = Some r ∧ evaluate plan idx policy = Some pre
  ∧ rr_structural r = validate_against_index plan idx ∧ rr_preflight r = pre
  ∧ (rr_replay r = SkippedDueToStructuralInvalid ↔ validate_against_index plan idx ≠ Ok tt)
  ∧ (rr_replay r = SkippedDueToPolicy ↔ validate_against_index plan idx = Ok tt ∧ rep_verdict pre = Rejected)
  ∧ (∀ res, rr_replay r = Completed res ↔
       validate_against_index plan idx = Ok tt ∧ rep_verdict pre ≠ Rejected
       ∧ res = run_replay_on_clones plan idx m ∧ res ≠ Panic).
Proof.
  pose proof (run_replay_no_panic plan idx m) as Hrun. pose proof (validate_no_panic plan idx) as Hval.
  destruct (evaluate plan idx policy) as [pre|] eqn:Hev.
  2: { exfalso. unfold evaluate, check_policy in Hev. destruct (validate_against_index plan idx); [|done..].
       simpl in Hev. repeat case_match; done. }
  unfold run_report. rewrite Hev. cbn [mbind option_bind].
  destruct (validate_against_index plan idx) as [[]|e|]; [| |done].
  - destruct (rep_verdict pre) eqn:Hv, (run_replay_on_clones plan idx m) as [ok|e|]; try done; cbn [mbind option_bind];
      eexists _, pre; (split; [done|]); simpl; (split_and!; [done..| | |intros res]);
      split; solve [done | intros [= <-]; split_and!; congruence | intros [? ?]; congruence | by intros (_&?&->&_) | intros Hx; by exfalso].
  - eexists _, pre. split; [done|]. simpl. split_and!; [done..| | |intros res]; split; solve [done | by intros [? _] | intros Hx; by exfalso].
Qed.

(** C31: the sandbox predicts the live validator. On an index with no entry
    under the empty hash, let the chain's tip be the fork block of a valid
    plan, as index and material hold it, with the material's fork state and
    consensus parameters, and let the material's two block maps agree. Then the
    replay succeeds iff the bodies of both branches match
    the index and [append_block] accepts each branch on that chain, the old
    branch ending in a state with the expected fingerprint, and the new
    branch's supply fits in 64 bits; the summary reports the fingerprint and
    the supply of the state the chain would reach. *)
Theorem sandbox_predicts_append idx plan m c tip ok :
  index_get idx "" = None → validate_against_index plan idx = Ok tt →
  last (bc_blocks c) = Some tip → bc_state c = state_at_fork m → bc_consensus c = rm_consensus m →
  parents_agree m → tip_matches m idx (rp_fork_hash plan) tip →
  run_replay_on_clones plan idx m = Ok ok ↔
  ∃ c_old c_new,
    branch_appends m idx c (reverse (rp_rollback_ordered plan)) c_old
    ∧ branch_appends m idx c (rp_apply_ordered plan) c_new
    ∧ (rp_rollback_ordered plan ≠ [] → ∃ expected, expected_state_at_old_tip m = Some expected
         ∧ sandbox_state_fingerprint (bc_state c_old) = sandbox_state_fingerprint expected)
    ∧ total_balance_sum (bc_state c_new) = Ok (final_supply_total ok)
    ∧ ok = mkReplayOk (zlen (rp_rollback_ordered plan)) (zlen (rp_apply_ordered plan))
             (sandbox_state_fingerprint (bc_state c_new)) (final_supply_total ok).
Proof.
  intros Hempty Hval Hlast Hst Hcons Hagree Htip. destruct (plan_upward _ _ Hempty Hval) as [Hupr Hupa].
  rewrite replay_ok. rewrite bodies_app, <- Hst. split.
  - intros (Hexp&[[ob Hob] Hab]&Hroll&s'&Hrun&Hsup&Hok).
    apply (replay_branch m idx _ tip _ c s' Hlast Hcons Hagree Htip Hupa Hab) in Hrun as (c_new&Hnew&Hs).
    destruct Hroll as [Hnil|(w&Hw&ex&Hex&Hfp)].
    + exists c, c_new. rewrite Hs. replace (reverse (rp_rollback_ordered plan)) with (@nil string) by (by rewrite Hnil).
      split_and!; [exists []; split_and!; [constructor|constructor|done]|done..|congruence].
    + apply (replay_branch m idx _ tip _ c w Hlast Hcons Hagree Htip Hupr) in Hw as (c_old&Hold&Hs');
        [|eauto using bodies_reverse].
      exists c_old, c_new. rewrite Hs, Hs'. split_and!; eauto.
  - intros (c_old&c_new&Hold&Hnew&Hfp&Hsup&Hok).
    assert (∃ bs, bodies m (rp_rollback_ordered plan) bs) as Hob.
    { destruct Hold as (bs&Hbs&_). apply bodies_reverse in Hbs. rewrite reverse_involutive in Hbs. eauto. }
    assert (∃ bs, bodies m (rp_apply_ordered plan) bs) as Hab by (destruct Hnew as (bs&Hbs&_); eauto).
    split_and!; [|done|done| |].
    + intros Hne. destruct (Hfp Hne) as (ex&->&_). by eexists.
    + destruct (decide (rp_rollback_ordered plan = [])) as [|Hne]; [by left|right]. destruct (Hfp Hne) as (ex&Hex&Hf).
      exists (bc_state c_old). split; [|eauto]. apply (replay_branch m idx _ tip _ c _ Hlast Hcons Hagree Htip Hupr); [|eauto].
      destruct Hob as [bs Hbs]. eauto using bodies_reverse.
    + exists (bc_state c_new). split; [|done].
      apply (replay_branch m idx _ tip _ c _ Hlast Hcons Hagree Htip Hupa); eauto.
Qed.
End sandbox_theorems.

Section fingerprint.
Context `{CryptoLaws}.

(** Equal sandbox fingerprints mean equal ledgers: for two well-formed
    account states with addresses of at most [u32::MAX] bytes, the
    length-prefixed preimages are equal only if the states are, so without a
    SHA-256 collision on them the fingerprint identifies the state. *)
Theorem fingerprint_commits s1 s2 :
  wf_state s1 → wf_state s2 → small_addresses s1 → small_addresses s2 →
  no_collision (sandbox_state_fingerprint_preimage s1) (sandbox_state_fingerprint_preimage s2) →
  sandbox_state_fingerprint s1 = sandbox_state_fingerprint s2 → s1 = s2.
Proof.
  intros Hw1 Hw2 Ha1 Ha2 Hnc Heq. apply fingerprint_preimage_inj; [done..|]. by apply (hash_bytes_inj _ _ Hnc).
Qed.
End fingerprint.

(** ** A reorganisation of one block, for the witnesses *)

Module SandboxExample.
Import ToyCrypto WalletExample BlockExample LedgerExample ChainExample.

(** The competitor of [block2]. *)
Definition block2' : Block := seal (mkBlock 2 (blk_block_hash block1) 1700000250 [] "").

Definition chain1 : Blockchain := (append_block block1 chain0).2.

Definition h1 : string := blk_block_hash block1.

Definition idx : BlockIndex :=
  mkBlockIndex {[ "GENESIS_HASH" := mkEntry "" 0; h1 := mkEntry "GENESIS_HASH" 1;
                  blk_block_hash block2 := mkEntry h1 2; blk_block_hash block2' := mkEntry h1 2 ]}.

Definition plan : ReorgPlan := mkReorgPlan h1 [blk_block_hash block2] [blk_block_hash block2'].

Definition material : ReplaySandboxMaterial :=
  mkMaterial (bc_state chain1)
    {[ blk_block_hash block2 := block2; blk_block_hash block2' := block2' ]}
    (Some (bc_state chain2)) params {[ h1 := block1 ]}.

Definition summary : ReplaySandboxReplayOk :=
  mkReplayOk 1 1 (sandbox_state_fingerprint (bc_state chain1)) 105.

Lemma replay_runs : run_replay_on_clones plan idx material = Ok summary.
Proof. vm_compute. reflexivity. Qed.

Lemma material_agrees : parents_agree material.
Proof.
  intros h p b Hp Hb. unfold material in *. cbn [parent_blocks_by_hash blocks_by_hash] in *.
  apply lookup_singleton_Some in Hp as [<- <-]. exfalso. revert Hb. vm_compute. discriminate.
Qed.

Lemma block1_tip : tip_matches material idx h1 block1.
Proof.
  split_and!; [reflexivity|apply block1_wf| |vm_compute; reflexivity].
  exists (mkEntry "GENESIS_HASH" 1). split; vm_compute; reflexivity.
Qed.

Lemma sandbox_predicts_append_witness :
  ∃ c_old c_new,
    branch_appends material idx chain1 (reverse (rp_rollback_ordered plan)) c_old
    ∧ branch_appends material idx chain1 (rp_apply_ordered plan) c_new
    ∧ total_balance_sum (bc_state c_new) = Ok 105.
Proof.
  destruct (proj1 (sandbox_predicts_append idx plan material chain1 block1 summary
    ltac:(vm_compute; reflexivity) ltac:(vm_compute; reflexivity) ltac:(vm_compute; reflexivity)
    eq_refl eq_refl material_agrees block1_tip) replay_runs) as (c_old&c_new&Hold&Hnew&_&Hsum&_).
  exists c_old, c_new. split; [exact Hold|]. split; [exact Hnew|exact Hsum].
Defined.

(** Two ledgers that a preimage without length prefixes would confuse. *)
Definition ledger_a : State := mkState {[ "a" := mkAccount "a" 12 0 ]}.
Definition ledger_b : State := mkState {[ "a1" := mkAccount "a1" 2 0 ]}.

Lemma singleton_ledger_wf a b n :
  in_u64 b → in_u64 n → wf_state (mkState {[ a := mkAccount a b n ]}).
Proof. intros Hb Hn x acc Hx. cbn [accounts] in Hx. apply lookup_singleton_Some in Hx as [<- <-]. split_and!; [done|apply Hb|apply Hn]. Qed.

Lemma singleton_ledger_small a b n :
  zlen (str_bytes a) ≤ u32_max → small_addresses (mkState {[ a := mkAccount a b n ]}).
Proof. intros Ha x acc Hx. cbn [accounts] in Hx. by apply lookup_singleton_Some in Hx as [<- _]. Qed.

Lemma fingerprint_commits_witness : sandbox_state_fingerprint ledger_a ≠ sandbox_state_fingerprint ledger_b.
Proof.
  intros Heq. assert (ledger_a = ledger_b) as Hx; [|by vm_compute in Hx].
  apply (fingerprint_commits ledger_a ledger_b); [| | | | |exact Heq].
  - apply singleton_ledger_wf; unfold in_u64, u64_max; lia.
  - apply singleton_ledger_wf; unfold in_u64, u64_max; lia.
  - apply singleton_ledger_small. by vm_compute.
  - apply singleton_ledger_small. by vm_compute.
  - intros Hc. by vm_compute in Hc.
Defined.

End SandboxExample.
