(* ===== verification/Toml.v ===== *)
(** * TOML documents

    The [toml] crate is a parameter: parsing and printing of one document
    type, with the documented behaviour the node relies on as laws: a printed
    document parses back, also with comment lines and blank lines before it
    and a newline after it. The laws are only about printed documents and
    successful parses, and only about comments that TOML allows (no control
    characters). *)

From Stdlib Require Import ZArith Lia Ascii.
From stdpp Require Import base strings list.
From S2P Require Import Prelude Bytes.

Definition nl : string := String "010"%char "".

(** The text of a comment: what TOML allows, valid UTF-8 with no control
    characters other than tabs. *)
Definition comment_byte (b : byte) : bool := (byte_to_Z b =? 9) || ((32 <=? byte_to_Z b) && negb (byte_to_Z b =? 127)).
Definition comment_text (line : string) : bool := forallb comment_byte (str_bytes line) && utf8_valid (str_bytes line).

(** A document with comment and blank lines before it, and possibly a newline
    after it. *)
Inductive decorated (body : string) : string → Prop :=
| decorated_body : decorated body body
| decorated_newline : decorated body (body +:+ nl)
| decorated_comment line s : comment_text line = true → decorated body s → decorated body ("#" +:+ line +:+ nl +:+ s)
| decorated_blank s : decorated body s → decorated body (nl +:+ s).

Class TomlDoc (A : Type) : Type := {
  toml_from_str : string → Res string A;
  toml_to_string : A → Res string string
}.

Class TomlLaws (A : Type) `{TomlDoc A} : Prop := {
  toml_print_parse a body s : toml_to_string a = Ok body → decorated body s → toml_from_str s = Ok a;
  toml_utf8 a body : toml_to_string a = Ok body → utf8_valid (str_bytes body) = true
}.

(** ** A parser for one document, for the witnesses *)

Module ToyToml.

(** Skip comment and blank lines. *)
Fixpoint skip_lines (in_comment : bool) (s : string) : string :=
  match s with
  | "" => ""
  | String a s' =>
    if Ascii.eqb a "010"%char then skip_lines false s'
    else if in_comment then skip_lines true s'
    else if Ascii.eqb a "#"%char then skip_lines true s'
    else s
  end.

Fixpoint all_newlines (s : string) : bool :=
  match s with
  | "" => true
  | String a s' => Ascii.eqb a "010"%char && all_newlines s'
  end.

Section one.
Context {A : Type} `{EqDecision A} (doc : A).

Instance one_doc : TomlDoc A := {|
  toml_from_str := λ s,
    match skip_lines false s with
    | String a s' => if Ascii.eqb a "x"%char && all_newlines s' then Ok doc else Err "syntax"
    | "" => Err "syntax"
    end;
  toml_to_string := λ a, if decide (a = doc) then Ok "x" else Err "unsupported"
|}.

Lemma skip_comment line s :
  forallb comment_byte (str_bytes line) = true → skip_lines true (line +:+ nl +:+ s) = skip_lines false s.
Proof.
  induction line as [|a line IH]; [done|]. rewrite str_bytes_cons. cbn [forallb]. intros [Ha Hl]%andb_prop.
  rewrite <- (IH Hl). change ((String a line) +:+ nl +:+ s) with (String a (line +:+ nl +:+ s)). cbn [skip_lines].
  destruct (Ascii.eqb_spec a "010"%char) as [->|]; [|done]. vm_compute in Ha. done.
Qed.

(** Every decorated form of the document is skipped to its one letter. *)
Lemma skip_decorated s : decorated "x" s → skip_lines false s = "x" ∨ skip_lines false s = "x" +:+ nl.
Proof.
  induction 1 as [| |line s Hl Hs IH|s Hs IH]; [by left|by right| |exact IH].
  apply andb_prop in Hl as [Hl _]. by rewrite <- (skip_comment line s Hl) in IH.
Qed.

#[export] Instance one_laws : TomlLaws A.
Proof.
  split; intros a body; unfold toml_to_string, toml_from_str, one_doc; [|case_decide; [by intros [= <-]|done]].
  intros s. case_decide as Ha; [|done]. intros [= <-] [Hs|Hs]%skip_decorated; by rewrite Hs, Ha.
Qed.
End one.
End ToyToml.
