(* ===== verification/Seen.v ===== *)
(** * Duplicate suppression for gossip ([seen.rs])

    A bounded set of recently seen identifiers, evicted in insertion order. *)

From Stdlib Require Import ZArith Lia.
From stdpp Require Import base strings list gmap sets.
From S2P Require Import Prelude.

Record SeenCache := mkSeen {
  sc_cap : nat;
  sc_order : list string;
  sc_set : gset string
}.

Definition SeenCache_new (cap : nat) : SeenCache := mkSeen (Nat.max cap 1) [] ∅.

(** The eviction loop. Without capacity it would spin on the empty queue
    ([None]); [SeenCache_new] rules that out. *)
Fixpoint evict_seen (cap : nat) (order : list string) (set : gset string) : option (list string * gset string) :=
  if Nat.leb cap (length order) then
    match order with
    | [] => None
    | old :: order' => evict_seen cap order' (set ∖ {[ old ]})
    end
  else Some (order, set).

Definition seen_insert (id : string) (c : SeenCache) : option (bool * SeenCache) :=
  if decide (id ∈ sc_set c) then Some (false, c)
  else
    '(order, set) ← evict_seen (sc_cap c) (sc_order c) (sc_set c);
    Some (true, mkSeen (sc_cap c) (order ++ [id]) ({[ id ]} ∪ set)).

(** ** Invariant and abstract window *)

Definition seen_inv (c : SeenCache) : Prop :=
  (1 ≤ sc_cap c)%nat ∧ (length (sc_order c) ≤ sc_cap c)%nat ∧ NoDup (sc_order c)
  ∧ ∀ x, x ∈ sc_set c ↔ x ∈ sc_order c.

Lemma seen_new_inv cap : seen_inv (SeenCache_new cap).
Proof. unfold seen_inv. simpl. split_and!; [lia|lia|constructor|set_solver]. Qed.

Lemma evict_seen_small cap order set : (length order < cap)%nat → evict_seen cap order set = Some (order, set).
Proof. intros Hl. destruct order as [|old order]; cbn [evict_seen]; case_match eqn:Hc; try done; apply Nat.leb_le in Hc; lia. Qed.

(** The last [n] elements. *)
Definition last_n (n : nat) {A} (l : list A) : list A := drop (length l - n) l.

Lemma last_n_snoc {A} n (l : list A) x : (1 ≤ n)%nat → last_n n (l ++ [x]) = drop (length l + 1 - n) l ++ [x].
Proof. intros Hn. unfold last_n. rewrite length_app. simpl. rewrite drop_app_le by lia. done. Qed.

Lemma evict_seen_one cap order set :
  (1 ≤ cap)%nat → (length order ≤ cap)%nat → NoDup order → (∀ x, x ∈ set ↔ x ∈ order) →
  ∃ set', evict_seen cap order set = Some (drop (length order + 1 - cap) order, set')
    ∧ ∀ x, x ∈ set' ↔ x ∈ drop (length order + 1 - cap) order.
Proof.
  intros Hcap Hlen Hnd Hset. destruct (decide (length order < cap)%nat) as [Hlt|Hge].
  { exists set. rewrite evict_seen_small by done. replace (length order + 1 - cap)%nat with 0%nat by lia. done. }
  destruct order as [|old order]; simpl in *; [lia|]. apply NoDup_cons in Hnd as [Hni Hnd].
  destruct (Nat.leb_spec cap (S (length order))); [|lia].
  rewrite evict_seen_small by lia. replace (S (length order + 1) - cap)%nat with 1%nat by lia. simpl. rewrite ?drop_0.
  eexists. split; [done|]. intros x. rewrite elem_of_difference, Hset, elem_of_cons, elem_of_singleton. naive_solver.
Qed.

(** Insert the ids in order; the ids reported as new, and the final cache. *)
Fixpoint insert_all (ids : list string) (c : SeenCache) : option (list string * SeenCache) :=
  match ids with
  | [] => Some ([], c)
  | id :: ids' =>
    match seen_insert id c with
    | Some (fresh, c') =>
      match insert_all ids' c' with
      | Some (acc, c'') => Some (if fresh : bool then id :: acc else acc, c'')
      | None => None
      end
    | None => None
    end
  end.

(** The cache holds the window of the accepted history [hist]. *)
Definition holds_window (hist : list string) (c : SeenCache) : Prop :=
  seen_inv c ∧ sc_order c = last_n (sc_cap c) hist.

Lemma seen_insert_window hist c id :
  holds_window hist c →
  ∃ c', seen_insert id c = Some (bool_decide (id ∉ last_n (sc_cap c) hist), c') ∧ sc_cap c' = sc_cap c
    ∧ holds_window (if bool_decide (id ∉ last_n (sc_cap c) hist) then hist ++ [id] else hist) c'.
Proof.
  intros [(Hcap&Hlen&Hnd&Hset) Hord]. unfold seen_insert. rewrite <- Hord. case_decide as Hin.
  - exists c. rewrite bool_decide_eq_false_2 by (rewrite <- Hset; tauto). split; [done|]. split; [done|].
    split; [split_and!; done|done].
  - rewrite bool_decide_eq_true_2 by (by rewrite <- Hset).
    destruct (evict_seen_one (sc_cap c) (sc_order c) (sc_set c)) as (set'&->&Hset'); [done..|]. simpl.
    eexists. split; [done|]. split; [done|]. split.
    + split_and!; simpl; [done|rewrite length_app, length_drop; simpl; lia| |].
      * apply NoDup_app. split_and!; [by eapply sublist_NoDup; [|apply sublist_drop]| |apply NoDup_singleton].
        intros x Hx ->%list_elem_of_singleton. apply Hin, Hset. by eapply subseteq_drop.
      * intros x. rewrite elem_of_union, elem_of_app, Hset', list_elem_of_singleton, elem_of_singleton. tauto.
    + simpl. rewrite last_n_snoc by done. f_equal. rewrite Hord. unfold last_n. rewrite length_drop, drop_drop. f_equal. lia.
Qed.

Lemma insert_all_window ids hist c :
  holds_window hist c →
  ∃ acc c', insert_all ids c = Some (acc, c') ∧ sc_cap c' = sc_cap c ∧ holds_window (hist ++ acc) c'.
Proof.
  revert hist c. induction ids as [|id ids IH]; intros hist c Hw; cbn [insert_all].
  { exists [], c. rewrite app_nil_r. done. }
  destruct (seen_insert_window hist c id Hw) as (c1&->&Hc1&Hw1). simpl.
  destruct (IH _ _ Hw1) as (acc&c2&->&Hc2&Hw2). simpl. eexists _, c2. split; [done|]. split; [congruence|].
  destruct (bool_decide _); [|done]. by rewrite <- (assoc_L (++)) in Hw2.
Qed.

(** The duplicate filter is a sliding window over the identifiers it
    accepted. From a fresh cache, any sequence of inserts terminates (the
    eviction loop never spins) and leaves exactly the last [max cap 1]
    accepted identifiers in the cache; a next identifier is then reported as
    new iff it is not among them. *)
Theorem seen_window cap ids :
  ∃ acc c, insert_all ids (SeenCache_new cap) = Some (acc, c)
    ∧ sc_order c = last_n (Nat.max cap 1) acc ∧ (∀ x, x ∈ sc_set c ↔ x ∈ sc_order c)
    ∧ (length (sc_order c) ≤ Nat.max cap 1)%nat
    ∧ ∀ id, ∃ c', seen_insert id c = Some (bool_decide (id ∉ last_n (Nat.max cap 1) acc), c').
Proof.
  assert (holds_window [] (SeenCache_new cap)) as Hw by (split; [apply seen_new_inv|done]).
  destruct (insert_all_window ids [] _ Hw) as (acc&c&Hall&Hcap&Hacc). simpl in Hcap, Hacc.
  pose proof Hacc as [(_&Hlen&_&Hset) Hord]. rewrite Hcap in Hlen, Hord. exists acc, c. split_and!; [done..|].
  intros id. destruct (seen_insert_window acc c id Hacc) as (c'&Hc'&_). rewrite Hcap in Hc'. eauto.
Qed.

(** The behaviour of the unit test of the source. *)
Example insert_evicts_oldest :
  fst <$> insert_all ["a"; "b"; "c"; "b"; "a"] (SeenCache_new 2) = Some ["a"; "b"; "c"; "a"].
Proof. vm_compute. reflexivity. Qed.
