(* ===== verification/PeerBook.v ===== *)
(** * The peer book ([peer_book.rs])

    Known peers with their connection health. [HashMap] iteration order shows
    only in the order of the saved file; every list the code derives from the
    map is sorted. The wall clock is an argument. *)

From Stdlib Require Import ZArith Lia.
From stdpp Require Import base strings list gmap fin_maps sets.
From S2P Require Import Prelude Bytes Io Toml.

Definition DEFAULT_FILE : string := "peer_book.toml".
Definition FAIL_STREAK_COOLDOWN_THRESHOLD : Z := 5.
Definition COOLDOWN_BASE_SECS : Z := 30.

Record PeerEntry := mkPeerEntry {
  pe_addr : string;
  pe_fail_streak : Z;
  pe_last_fail_unix : Z;
  pe_last_ok_unix : Z;
  pe_include_in_gossip : bool
}.

#[export] Instance PeerEntry_eq_dec : EqDecision PeerEntry.
Proof. solve_decision. Defined.

Record PeerBookFile := mkPeerBookFile { pbf_version : Z; pbf_peers : list PeerEntry }.

#[export] Instance PeerBookFile_eq_dec : EqDecision PeerBookFile.
Proof. solve_decision. Defined.

Record PeerBook := mkPeerBook { by_addr : gmap string PeerEntry }.

Definition PeerBook_default : PeerBook := mkPeerBook ∅.

Definition path_in_data_dir (data_dir : string) : string := path_join data_dir DEFAULT_FILE.

Definition insert_peers (peers : list PeerEntry) (b : PeerBook) : PeerBook :=
  foldl (λ b e, mkPeerBook (<[ pe_addr e := e ]> (by_addr b))) b peers.

Definition load_or_empty `{TomlDoc PeerBookFile} (path : string) : ST Disk string PeerBook :=
  let! ex := path_exists path in
  if negb ex then sret PeerBook_default
  else
    let! raw := smap_err (λ e, path +:+ ": " +:+ IoError_display e) (fs_read_to_string path) in
    let! file := slift (map_err (λ e, path +:+ ": peer_book TOML: " +:+ e) (toml_from_str raw)) in
    sret (insert_peers (pbf_peers file) PeerBook_default).

Definition book_header : string :=
  "# Trilogicon peer book — known peers and connection health (v2)." +:+ nl
  +:+ "# Edit with care; invalid addresses are skipped at runtime." +:+ nl +:+ nl.

Definition save `{TomlDoc PeerBookFile} (b : PeerBook) (path : string) : ST Disk string unit :=
  let file := mkPeerBookFile 1 ((map_to_list (by_addr b)).*2) in
  let! body := slift (toml_to_string file) in
  let out := book_header +:+ body in
  (if String.eqb path "/" || String.eqb path "" then sret tt else smap_err IoError_display io_call) ;;!   (* create_dir_all(parent) *)
  smap_err IoError_display (fs_write path (str_bytes out)).

Definition fresh_peer (addr : string) (include_in_gossip : bool) : PeerEntry :=
  mkPeerEntry addr 0 0 0 include_in_gossip.

Definition advertise (e : PeerEntry) : PeerEntry :=
  mkPeerEntry (pe_addr e) (pe_fail_streak e) (pe_last_fail_unix e) (pe_last_ok_unix e) true.

Definition merge_seed (addr : string) (b : PeerBook) : PeerBook :=
  if String.eqb addr "" then b
  else
    match by_addr b !! addr with
    | Some e => mkPeerBook (<[ addr := advertise e ]> (by_addr b))
    | None => mkPeerBook (<[ addr := fresh_peer addr true ]> (by_addr b))
    end.

Fixpoint merge_seeds_from (addrs : list string) (n : Z) (b : PeerBook) : Z * PeerBook :=
  match addrs with
  | [] => (n, b)
  | a :: addrs' =>
    if String.eqb a "" then merge_seeds_from addrs' n b
    else
      match by_addr b !! a with
      | Some e => merge_seeds_from addrs' n (mkPeerBook (<[ a := advertise e ]> (by_addr b)))
      | None => merge_seeds_from addrs' (n + 1) (mkPeerBook (<[ a := fresh_peer a true ]> (by_addr b)))
      end
  end.

Definition merge_seeds_report_new (addrs : list string) (b : PeerBook) : Z * PeerBook :=
  merge_seeds_from addrs 0 b.

Definition merge_inbound_peer (addr : string) (b : PeerBook) : PeerBook :=
  if String.eqb addr "" then b
  else
    match by_addr b !! addr with
    | Some _ => b
    | None => mkPeerBook (<[ addr := fresh_peer addr false ]> (by_addr b))
    end.

Fixpoint seed_candidates (seeds : list string) (out : list string) (seen : gset string) : list string * gset string :=
  match seeds with
  | [] => (out, seen)
  | s :: seeds' =>
    let t := str_trim s in
    if String.eqb t "" || bool_decide (t ∈ seen) then seed_candidates seeds' out seen
    else seed_candidates seeds' (out ++ [t]) ({[ t ]} ∪ seen)
  end.

(** The addresses whose entries satisfy [p], sorted. *)
Definition sorted_addresses (p : string * PeerEntry → bool) (b : PeerBook) : list string :=
  sort_by_key id (filter (λ x, p x = true) (map_to_list (by_addr b))).*1.

Definition sync_candidates (seeds : list string) (b : PeerBook) : list string :=
  let '(out, seen) := seed_candidates seeds [] ∅ in
  out ++ sorted_addresses (λ '(k, e), negb (bool_decide (k ∈ seen)) && pe_include_in_gossip e) b.

Definition is_available (addr : string) (now : Z) (b : PeerBook) : bool :=
  match by_addr b !! addr with
  | None => true
  | Some e =>
    if pe_fail_streak e <? FAIL_STREAK_COOLDOWN_THRESHOLD then true
    else
      let mult := Z.min (pe_fail_streak e) 8 in
      let need := saturating_mul COOLDOWN_BASE_SECS mult in
      need <=? saturating_sub now (pe_last_fail_unix e)
  end.

Definition filter_available (addrs : list string) (now : Z) (b : PeerBook) : list string :=
  filter (λ a, is_available a now b = true) addrs.

Definition gossip_addresses (max : nat) (b : PeerBook) : list string :=
  take max (sorted_addresses (λ '(_, e), pe_include_in_gossip e) b).

Definition record_ok (now : Z) (addr : string) (b : PeerBook) : PeerBook :=
  let e := default (fresh_peer addr true) (by_addr b !! addr) in
  mkPeerBook (<[ addr := mkPeerEntry (pe_addr e) 0 (pe_last_fail_unix e) now (pe_include_in_gossip e) ]> (by_addr b)).

Definition record_fail (now : Z) (addr : string) (b : PeerBook) : PeerBook :=
  let e := default (fresh_peer addr true) (by_addr b !! addr) in
  mkPeerBook (<[ addr := mkPeerEntry (pe_addr e) (saturating_add32 (pe_fail_streak e) 1) now (pe_last_ok_unix e)
                           (pe_include_in_gossip e) ]> (by_addr b)).

(** ** Derived lists *)

Lemma sorted_addresses_elem p b a :
  a ∈ sorted_addresses p b ↔ ∃ e, by_addr b !! a = Some e ∧ p (a, e) = true.
Proof.
  unfold sorted_addresses. rewrite sort_by_key_perm, list_elem_of_fmap. split.
  - intros ([k e]&->&[Hp Hin%elem_of_map_to_list]%list_elem_of_filter). eauto.
  - intros (e&He&Hp). exists (a, e). split; [done|]. apply list_elem_of_filter. split; [done|]. by apply elem_of_map_to_list.
Qed.

Lemma sorted_addresses_NoDup p b : NoDup (sorted_addresses p b).
Proof.
  unfold sorted_addresses. rewrite sort_by_key_perm.
  eapply sublist_NoDup; [apply (NoDup_fst_map_to_list (by_addr b))|]. apply fmap_sublist, sublist_filter.
Qed.

Lemma seed_candidates_spec seeds out seen :
  let '(out', seen') := seed_candidates seeds out seen in
  (∀ x, x ∈ seen ↔ x ∈ out) → NoDup out →
  (∀ x, x ∈ seen' ↔ x ∈ out') ∧ NoDup out'
  ∧ ∀ x, x ∈ out' ↔ x ∈ out ∨ (x ≠ "" ∧ x ∈ str_trim <$> seeds).
Proof.
  revert out seen. induction seeds as [|s seeds IH]; intros out seen; cbn [seed_candidates].
  { intros Hs Hn. split_and!; [done..|]. set_solver. }
  destruct (String.eqb_spec (str_trim s) "") as [He|Hne]; cbn [orb].
  { specialize (IH out seen). destruct (seed_candidates seeds out seen) as [out' seen']. intros Hs Hn.
    destruct (IH Hs Hn) as (?&?&Hx). split_and!; [done..|]. intros x. rewrite Hx, fmap_cons, elem_of_cons. naive_solver. }
  destruct (decide (str_trim s ∈ seen)) as [Hin|Hni].
  - rewrite bool_decide_eq_true_2 by done. specialize (IH out seen).
    destruct (seed_candidates seeds out seen) as [out' seen']. intros Hs Hn.
    destruct (IH Hs Hn) as (?&?&Hx). split_and!; [done..|]. intros x. rewrite Hx, fmap_cons, elem_of_cons. naive_solver.
  - rewrite bool_decide_eq_false_2 by done. specialize (IH (out ++ [str_trim s]) ({[ str_trim s ]} ∪ seen)).
    destruct (seed_candidates _ _ _) as [out' seen']. intros Hs Hn. destruct IH as (?&?&Hx).
    + set_solver.
    + apply NoDup_app. split_and!; [done| |apply NoDup_singleton]. set_solver.
    + split_and!; [done..|]. intros x. rewrite Hx, fmap_cons, elem_of_cons, elem_of_app, list_elem_of_singleton. naive_solver.
Qed.

Lemma sync_candidates_elem seeds b a :
  a ∈ sync_candidates seeds b ↔
  (a ≠ "" ∧ a ∈ str_trim <$> seeds) ∨ ∃ e, by_addr b !! a = Some e ∧ pe_include_in_gossip e = true.
Proof.
  unfold sync_candidates. pose proof (seed_candidates_spec seeds [] ∅) as Hs.
  destruct (seed_candidates seeds [] ∅) as [out seen]. destruct Hs as (Hseen&_&Hout); [set_solver|constructor|].
  rewrite elem_of_app, sorted_addresses_elem, Hout. split.
  - intros [[?%elem_of_nil|?]|(e&He&[_ Hg]%andb_prop)]; [done|by left|right; eauto].
  - intros [?|(e&He&Hg)]; [left; by right|]. destruct (decide (a ∈ seen)) as [Hin|Hni].
    + left. apply Hout. by apply Hseen.
    + right. exists e. split; [done|]. by rewrite bool_decide_eq_false_2.
Qed.

Lemma sync_candidates_NoDup seeds b : NoDup (sync_candidates seeds b).
Proof.
  unfold sync_candidates. pose proof (seed_candidates_spec seeds [] ∅) as Hs.
  destruct (seed_candidates seeds [] ∅) as [out seen]. destruct Hs as (Hseen&Hnd&_); [set_solver|constructor|].
  apply NoDup_app. split_and!; [done| |apply sorted_addresses_NoDup].
  intros x Hx (e&_&Hp)%sorted_addresses_elem. rewrite bool_decide_eq_true_2 in Hp by (by apply Hseen). done.
Qed.

Lemma gossip_elem max b a :
  a ∈ gossip_addresses max b → ∃ e, by_addr b !! a = Some e ∧ pe_include_in_gossip e = true.
Proof. unfold gossip_addresses. intros Ha%subseteq_take. by apply sorted_addresses_elem in Ha. Qed.

(** ** The book as a state machine *)

Inductive PeerOp :=
| PoSeed (addr : string)
| PoSeeds (addrs : list string)
| PoInbound (addr : string)
| PoOk (now : Z) (addr : string)
| PoFail (now : Z) (addr : string).

Definition run_peer_op (b : PeerBook) (o : PeerOp) : PeerBook :=
  match o with
  | PoSeed a => merge_seed a b
  | PoSeeds l => (merge_seeds_report_new l b).2
  | PoInbound a => merge_inbound_peer a b
  | PoOk now a => record_ok now a b
  | PoFail now a => record_fail now a b
  end.

(** The operation does not name [a] as a seed. *)
Definition not_seeding (a : string) (o : PeerOp) : Prop :=
  match o with
  | PoSeed x => x ≠ a
  | PoSeeds l => a ∉ l
  | _ => True
  end.

(** Merging seeds is the repeated merge of one seed; the count is the number
    of new entries. *)
Lemma merge_seeds_eq addrs n b :
  merge_seeds_from addrs n b
  = (n + Z.of_nat (size (by_addr (foldl (λ b a, merge_seed a b) b addrs))) - Z.of_nat (size (by_addr b)),
     foldl (λ b a, merge_seed a b) b addrs).
Proof.
  revert n b. induction addrs as [|a addrs IH]; intros n b; cbn [merge_seeds_from foldl]; [f_equal; lia|].
  unfold merge_seed at 2 4. destruct (String.eqb a ""); [apply IH|].
  destruct (by_addr b !! a) as [e|] eqn:He; rewrite IH; cbn [by_addr]; f_equal.
  - rewrite map_size_insert_Some by done. lia.
  - rewrite map_size_insert_None by done. lia.
Qed.

(** [a] is in the book and not advertised. *)
Definition unadvertised (a : string) (b : PeerBook) : Prop :=
  ∃ e, by_addr b !! a = Some e ∧ pe_include_in_gossip e = false.

Lemma unadvertised_insert_ne a x e b :
  x ≠ a → unadvertised a b → unadvertised a (mkPeerBook (<[ x := e ]> (by_addr b))).
Proof. intros Hne (e'&He&Hg). exists e'. cbn [by_addr]. by rewrite lookup_insert_ne. Qed.

Lemma merge_seed_unadvertised a x b : x ≠ a → unadvertised a b → unadvertised a (merge_seed x b).
Proof.
  intros Hne Hu. unfold merge_seed. destruct (String.eqb x ""); [done|].
  destruct (by_addr b !! x); by apply unadvertised_insert_ne.
Qed.

Lemma run_peer_op_unadvertised a o b : not_seeding a o → unadvertised a b → unadvertised a (run_peer_op b o).
Proof.
  destruct o as [x|l|x|now x|now x]; cbn [not_seeding run_peer_op].
  - apply merge_seed_unadvertised.
  - intros Hl Hu. unfold merge_seeds_report_new. rewrite merge_seeds_eq. cbn [snd]. revert b Hu.
    induction l as [|x l IH]; intros b Hu; [done|]. cbn [foldl]. apply not_elem_of_cons in Hl as [Hx Hl].
    apply IH; [done|]. by apply merge_seed_unadvertised.
  - intros _ Hu. unfold merge_inbound_peer. destruct (String.eqb x ""); [done|].
    destruct (by_addr b !! x) eqn:Hx; [done|]. apply unadvertised_insert_ne; [|done].
    intros ->. destruct Hu as (e&He&_). congruence.
  - intros _ (e&He&Hg). unfold record_ok, unadvertised. cbn [by_addr]. destruct (decide (x = a)) as [->|Hne].
    + rewrite lookup_insert_eq, He. eexists. split; [done|]. done.
    + rewrite lookup_insert_ne by done. eauto.
  - intros _ (e&He&Hg). unfold record_fail, unadvertised. cbn [by_addr]. destruct (decide (x = a)) as [->|Hne].
    + rewrite lookup_insert_eq, He. eexists. split; [done|]. done.
    + rewrite lookup_insert_ne by done. eauto.
Qed.

(** C35: an address learnt from an inbound connection is never gossiped. Once
    an address that the book did not know was merged as an inbound peer, no
    sequence of book operations that does not name it as a seed puts it into
    the gossip list, nor into the synchronisation candidates unless the caller
    passes it as a seed; and candidates are never repeated. *)
Theorem inbound_never_gossiped a b ops seeds max :
  a ≠ "" → by_addr b !! a = None → Forall (not_seeding a) ops →
  let b' := foldl run_peer_op (merge_inbound_peer a b) ops in
  (a ∉ gossip_addresses max b') ∧ (a ∈ sync_candidates seeds b' → a ∈ str_trim <$> seeds)
  ∧ NoDup (sync_candidates seeds b') ∧ (length (gossip_addresses max b') ≤ max)%nat.
Proof.
  intros Hne Hnone Hops b'. assert (unadvertised a b') as Hu.
  { assert (unadvertised a (merge_inbound_peer a b)) as H0.
    { unfold merge_inbound_peer. destruct (String.eqb_spec a ""); [done|]. rewrite Hnone.
      exists (fresh_peer a false). cbn [by_addr]. by rewrite lookup_insert_eq. }
    unfold b'. clear b' Hnone. revert H0. generalize (merge_inbound_peer a b).
    induction Hops as [|o ops Ho Hops IH]; intros b0 H0; [done|]. cbn [foldl]. apply IH. by apply run_peer_op_unadvertised. }
  destruct Hu as (e&He&Hg). split_and!.
  - intros (e'&He'&Hg')%gossip_elem. congruence.
  - intros [[_ ?]|(e'&He'&Hg')]%sync_candidates_elem; [done|congruence].
  - apply sync_candidates_NoDup.
  - unfold gossip_addresses. rewrite length_take. lia.
Qed.

(** ** Health *)

Lemma fails_entry a ts b e :
  by_addr b !! a = Some e →
  ∃ e', by_addr (foldl (λ b t, record_fail t a b) b ts) !! a = Some e'
    ∧ pe_fail_streak e' = (if decide (ts = []) then pe_fail_streak e
                           else Z.min (pe_fail_streak e + zlen ts) u32_max)
    ∧ pe_last_fail_unix e' = default (pe_last_fail_unix e) (last ts).
Proof.
  revert b e. induction ts as [|t ts IH]; intros b e He; [exists e; done|]. cbn [foldl].
  destruct (IH (record_fail t a b) (mkPeerEntry (pe_addr e) (saturating_add32 (pe_fail_streak e) 1) t
              (pe_last_ok_unix e) (pe_include_in_gossip e))) as (e'&He'&Hf&Hl).
  { unfold record_fail. cbn [by_addr]. rewrite lookup_insert_eq, He. done. }
  exists e'. split; [done|]. cbn [pe_fail_streak pe_last_fail_unix] in *. split.
  - rewrite Hf. unfold saturating_add32, zlen. destruct ts; simpl length.
    + rewrite decide_True, decide_False by done. done.
    + rewrite !decide_False by done. lia.
  - rewrite Hl. destruct ts as [|t' ts]; [done|]. rewrite last_cons_cons.
    by destruct (last (t' :: ts)) eqn:Hx; [|apply last_None in Hx].
Qed.

(** The cooldown is exact: after a success followed by any failures, a
    peer is available iff fewer than five failures were recorded or at least
    [30 * min(failures, 8)] seconds passed since the last one. *)
Theorem cooldown_exact a t0 ts now b :
  is_available a now (foldl (λ b t, record_fail t a b) (record_ok t0 a b) ts) = true ↔
  zlen ts < 5 ∨ ∃ t, last ts = Some t ∧ 30 * Z.min (zlen ts) 8 ≤ now - t.
Proof.
  assert (∃ e, by_addr (record_ok t0 a b) !! a = Some e ∧ pe_fail_streak e = 0) as (e&He&Hz).
  { unfold record_ok. cbn [by_addr]. rewrite lookup_insert_eq. eexists. split; [done|]. done. }
  destruct (fails_entry a ts _ e He) as (e'&He'&Hf&Hl). unfold is_available. rewrite He', Hf, Hl, Hz.
  unfold FAIL_STREAK_COOLDOWN_THRESHOLD, COOLDOWN_BASE_SECS, saturating_mul, saturating_sub, u32_max, u64_max, zlen.
  case_decide as Hts; [subst; simpl; split; [by left|done]|].
  destruct (last ts) as [u|] eqn:Hu; [|by apply last_None in Hu].
  assert (0 < length ts)%nat by (destruct ts; [done|simpl; lia]).
  destruct (Z.ltb_spec (Z.min (0 + Z.of_nat (length ts)) 4294967295) 5) as [Hlt|Hge].
  - split; [|done]. intros _. left. lia.
  - rewrite Z.leb_le. split.
    + intros Hx. right. exists u. split; [done|]. change (default _ (Some u)) with u in Hx. lia.
    + change (default _ (Some u)) with u. intros [?|(t'&[= <-]&Hx)]; lia.
Qed.

(** ** Persistence *)

(** Every entry is stored under its own address. *)
Definition pb_inv (b : PeerBook) : Prop := map_Forall (λ a e, pe_addr e = a) (by_addr b).

Lemma pb_inv_insert a e b : pe_addr e = a → pb_inv b → pb_inv (mkPeerBook (<[ a := e ]> (by_addr b))).
Proof. intros He Hb. by apply map_Forall_insert_2. Qed.

Lemma pb_inv_entry b a i : pb_inv b → pe_addr (default (fresh_peer a i) (by_addr b !! a)) = a.
Proof. intros Hb. destruct (by_addr b !! a) as [e|] eqn:He; [by apply (Hb a e)|done]. Qed.

Lemma merge_seed_inv a b : pb_inv b → pb_inv (merge_seed a b).
Proof.
  intros Hb. unfold merge_seed. destruct (String.eqb a ""); [done|].
  destruct (by_addr b !! a) as [e|] eqn:He; apply pb_inv_insert; [by apply (Hb a e)|done|done|done].
Qed.

Lemma run_peer_op_inv b o : pb_inv b → pb_inv (run_peer_op b o).
Proof.
  intros Hb. destruct o as [x|l|x|now x|now x]; cbn [run_peer_op].
  - by apply merge_seed_inv.
  - unfold merge_seeds_report_new. rewrite merge_seeds_eq. cbn [snd]. revert b Hb.
    induction l as [|x l IH]; intros b Hb; [done|]. apply IH. by apply merge_seed_inv.
  - unfold merge_inbound_peer. repeat case_match; [done..|]. by apply pb_inv_insert.
  - apply pb_inv_insert; [|done]. by apply pb_inv_entry.
  - apply pb_inv_insert; [|done]. by apply pb_inv_entry.
Qed.

Lemma insert_peers_lookup l b a e :
  NoDup (pe_addr <$> l) → e ∈ l → pe_addr e = a → by_addr (insert_peers l b) !! a = Some e.
Proof.
  revert b. induction l as [|x l IH]; intros b Hnd Hin Ha; [by apply elem_of_nil in Hin|].
  apply NoDup_cons in Hnd as [Hni Hnd]. cbn [insert_peers foldl].
  apply elem_of_cons in Hin as [->|Hin]; [|by apply IH].
  assert (∀ l b, a ∉ pe_addr <$> l → by_addr (insert_peers l b) !! a = by_addr b !! a) as Hkeep.
  { clear. induction l as [|y l IH]; intros b Hx; [done|]. cbn [insert_peers foldl].
    change (foldl _ ?b' l) with (insert_peers l b'). rewrite fmap_cons in Hx. apply not_elem_of_cons in Hx as [? Hx].
    rewrite IH by done. cbn [by_addr]. by rewrite lookup_insert_ne. }
  change (foldl _ ?b' l) with (insert_peers l b'). rewrite Hkeep by (by rewrite <- Ha). cbn [by_addr]. rewrite Ha. apply lookup_insert_eq.
Qed.

Lemma insert_peers_dom l b a :
  is_Some (by_addr (insert_peers l b) !! a) → a ∈ pe_addr <$> l ∨ is_Some (by_addr b !! a).
Proof.
  revert b. induction l as [|x l IH]; intros b Hs; [by right|]. cbn [insert_peers foldl] in Hs.
  destruct (IH _ Hs) as [?|Hx]; [left; by right|]. cbn [by_addr] in Hx.
  destruct (decide (pe_addr x = a)) as [<-|Hne]; [left; left|right]. by rewrite lookup_insert_ne in Hx.
Qed.

Lemma insert_peers_values b l :
  pb_inv b → l ≡ₚ (map_to_list (by_addr b)).*2 → insert_peers l PeerBook_default = b.
Proof.
  intros Hb Hl.
  assert (∀ e, e ∈ l ↔ by_addr b !! pe_addr e = Some e) as Hin.
  { intros e. rewrite Hl, list_elem_of_fmap. split.
    - intros ([a e']&->&Hx%elem_of_map_to_list). cbn [snd]. by rewrite (Hb a e' Hx).
    - intros He. exists (pe_addr e, e). split; [done|]. by apply elem_of_map_to_list. }
  assert (NoDup (pe_addr <$> l)) as Hnd.
  { rewrite Hl. rewrite <- list_fmap_compose.
    assert (compose pe_addr snd <$> map_to_list (by_addr b) = fst <$> map_to_list (by_addr b)) as ->.
    { apply list_fmap_ext. intros i [a e] Hx. simpl. apply (Hb a e). apply elem_of_map_to_list. by eapply list_elem_of_lookup_2. }
    apply NoDup_fst_map_to_list. }
  destruct b as [m]. destruct (insert_peers l PeerBook_default) as [m'] eqn:Hm'. f_equal. apply map_eq. intros a.
  assert (m' = by_addr (insert_peers l PeerBook_default)) as -> by (by rewrite Hm'). cbn [by_addr] in *.
  destruct (m !! a) as [e|] eqn:He.
  - pose proof (Hb a e He) as Ha. cbn in Ha. apply insert_peers_lookup; [done| |done]. apply Hin. by rewrite Ha.
  - destruct (by_addr (insert_peers l PeerBook_default) !! a) as [e'|] eqn:Hx; [|done].
    destruct (insert_peers_dom l PeerBook_default a) as [Hd|[? Hd]]; [by eexists| |done].
    apply list_elem_of_fmap in Hd as (e1&->&He1%Hin). congruence.
Qed.

Lemma book_header_decorated body : decorated body (book_header +:+ body).
Proof.
  change (book_header +:+ body) with
    ("#" +:+ " Trilogicon peer book — known peers and connection health (v2)." +:+ nl
     +:+ ("#" +:+ " Edit with care; invalid addresses are skipped at runtime." +:+ nl +:+ (nl +:+ body))).
  do 2 (apply decorated_comment; [vm_compute; reflexivity|]). apply decorated_blank, decorated_body.
Qed.

(** The peer book survives a restart: for a book built by any sequence of
    operations, once [save] reported success, [load_or_empty] gives back the
    same book, whatever happened to other calls before. *)
Theorem peer_book_roundtrip `{TomlLaws PeerBookFile} ops path d d' :
  let b := foldl run_peer_op PeerBook_default ops in
  save b path d = (Ok tt, d') → d_faults d' = [] → load_or_empty path d' = (Ok b, d').
Proof.
  intros b Hsave Hf. assert (pb_inv b) as Hb.
  { unfold b. assert (pb_inv PeerBook_default) as Hb0 by (by intros ???). revert Hb0. generalize PeerBook_default.
    clear. induction ops as [|o ops IH]; intros b0 Hb0; [done|]. apply IH. by apply run_peer_op_inv. }
  unfold save, sbind, slift in Hsave.
  destruct (toml_to_string _) as [body| |] eqn:Hbody; [|done..].
  assert (∃ d1, smap_err IoError_display (fs_write path (str_bytes (book_header +:+ body))) d1 = (Ok tt, d')) as [d1 Hw].
  { destruct (String.eqb path "/" || String.eqb path ""); [by exists d|].
    destruct (smap_err IoError_display io_call d) as [[[]| |] d1]; [by exists d1|done..]. }
  assert (d_files d' !! path = Some (str_bytes (book_header +:+ body))) as Hfile.
  { apply smap_ok, fs_write_ok in Hw. rewrite Hw. apply lookup_insert_eq. }
  pose proof (toml_print_parse _ _ _ Hbody (book_header_decorated body)) as Hparse.
  unfold load_or_empty. unfold sbind at 1. rewrite path_exists_ok, bool_decide_eq_true_2 by (done || by rewrite Hfile). cbn [negb].
  unfold sbind, slift, sret.
  unfold smap_err, fs_read_to_string, fs_read, sbind, sget, slift. rewrite (io_ok d' Hf), Hfile. cbn [ok_or].
  rewrite from_utf8_str.
  - cbn [ok_or map_err]. rewrite Hparse. cbn [map_err pbf_peers]. by rewrite (insert_peers_values b).
  - rewrite str_bytes_app. apply utf8_valid_app; [vm_compute; reflexivity|]. by eapply toml_utf8.
Qed.

Module PeerExample.

Definition ops : list PeerOp := [PoInbound "198.51.100.7:40112"; PoOk 100 "198.51.100.7:40112"; PoSeed "seed:9000"; PoFail 120 "seed:9000"].
Definition book : PeerBook := foldl run_peer_op PeerBook_default ops.
Definition file : PeerBookFile := mkPeerBookFile 1 ((map_to_list (by_addr book)).*2).
Definition path : string := "data/peer_book.toml".

Instance doc : TomlDoc PeerBookFile := ToyToml.one_doc file.
Instance laws : TomlLaws PeerBookFile := ToyToml.one_laws file.

(** The disk after saving the book. *)
Definition saved : Disk := (save book path (mkDisk ∅ [])).2.

Lemma peer_book_roundtrip_witness : load_or_empty path saved = (Ok book, saved).
Proof.
  apply (peer_book_roundtrip ops path (mkDisk ∅ []) saved); vm_compute; reflexivity.
Defined.

Lemma inbound_never_gossiped_witness :
  "198.51.100.7:40112" ∉ gossip_addresses 10
    (foldl run_peer_op (merge_inbound_peer "198.51.100.7:40112" PeerBook_default)
       [PoOk 100 "198.51.100.7:40112"; PoSeed "seed:9000"; PoFail 120 "198.51.100.7:40112"]).
Proof.
  refine (proj1 (inbound_never_gossiped "198.51.100.7:40112" PeerBook_default _ [] 10 _ _ _)).
  - discriminate.
  - reflexivity.
  - repeat constructor. discriminate.
Defined.

Example seeds_first : sync_candidates ["  seed:1 "; "seed:1"; ""] book = ["seed:1"; "seed:9000"].
Proof. vm_compute. reflexivity. Qed.

End PeerExample.
