(* ===== verification/DataDirBind.v ===== *)
(** * Binding of a data directory to a genesis ([data_dir_bind.rs])

    The first start writes the genesis commitment into the directory, every
    later start compares. The process id and the clock reading in the name of
    the temporary file are arguments; a clock before 1970 is [None]. *)

From Stdlib Require Import ZArith Lia.
From stdpp Require Import base strings list gmap.
From S2P Require Import Prelude Bytes Io Crypto Transaction Genesis Toml.

Definition GENESIS_BIND_FILE : string := "genesis_bind.toml".
Definition GENESIS_BIND_LOCK_FILE : string := ".genesis_bind.lock".
Definition NODE_RUN_LOCK_FILE : string := ".node.run.lock".

Record BindFile := mkBindFile { bf_state_commitment_hex : string }.

#[export] Instance BindFile_eq_dec : EqDecision BindFile.
Proof. solve_decision. Defined.

Definition bind_header : string :=
  "# Trilogicon V2 — binds this data directory to a genesis state commitment." +:+ nl
  +:+ "# Do not edit by hand unless you know the effect on chain.blocks and pending_tx.tril." +:+ nl.

Section bind.
Context `{TomlDoc BindFile}.

Definition binding_text (hex : string) : Res string string :=
  let? body := toml_to_string (mkBindFile hex) in
  Ok (bind_header +:+ body +:+ nl).

Definition read_binding_and_verify (path expected : string) : ST Disk string unit :=
  let! raw := smap_err (λ e, PFX_STARTUP +:+ " " +:+ path +:+ ": " +:+ IoError_display e)
                (fs_read_to_string path) in
  let! parsed := slift (map_err (λ e, PFX_STARTUP +:+ " fail-closed: " +:+ path
                   +:+ " invalid genesis bind TOML (" +:+ e
                   +:+ "); fix or remove file if you intend a new genesis") (toml_from_str raw)) in
  if negb (String.eqb (bf_state_commitment_hex parsed) expected)
  then sfail (PFX_STARTUP +:+ " fail-closed: " +:+ path
              +:+ " genesis state commitment mismatch — directory was bound to `" +:+ bf_state_commitment_hex parsed
              +:+ "`, loaded genesis.toml commits to `" +:+ expected
              +:+ "`. Refuse startup: use matching genesis, a fresh data directory, or (only with care) reset chain per docs/design_notes/v2_persistence_restart.md.")
  else sret tt.

Context `{CryptoLib}.

Definition verify_binding_if_present (data_dir : string) (genesis : Genesis) : ST Disk string unit :=
  let path := path_join data_dir GENESIS_BIND_FILE in
  let! ex := path_exists path in
  if negb ex then sret tt
  else
    let! expected := slift (map_err ProtocolError_display (state_commitment_hex genesis)) in
    read_binding_and_verify path expected.

(** [SystemTime::now().duration_since(UNIX_EPOCH).unwrap().as_nanos()]: the
    clock is [None] when it stands before 1970, and then [unwrap] panics. *)
Definition since_epoch (clock : option Z) : Res string Z :=
  match clock with Some nanos => Ok nanos | None => Panic end.

Definition tmp_path (data_dir : string) (pid nanos : Z) : string :=
  path_join data_dir (".genesis_bind.pending." +:+ fmt_uint pid +:+ "." +:+ fmt_uint nanos +:+ ".tmp").

(** [match fs::rename(&tmp, &path)], after the hard link failed with [e]. *)
Definition rename_binding (tmp path : string) (e : IoError) : ST Disk string unit := λ d,
  match fs_rename tmp path d with
  | (Ok _, d1) => (Ok tt, d1)
  | (Panic, d1) => (Panic, d1)
  | (Err e2, d1) =>
    (Err (path +:+ ": hard_link failed (" +:+ IoError_display e +:+ "); rename failed ("
          +:+ IoError_display e2 +:+ ")"), try_remove_file tmp d1)
  end.

(** [match fs::hard_link(&tmp, &path)]: install the finished temporary file
    under the final name. *)
Definition install_binding (tmp path expected : string) : ST Disk string unit := λ d,
  match fs_hard_link tmp path d with
  | (Ok _, d1) => (Ok tt, try_remove_file tmp d1)
  | (Panic, d1) => (Panic, d1)
  | (Err e, d1) =>
    if match IoError_kind e with AlreadyExists => true | _ => false end
    then read_binding_and_verify path expected (try_remove_file tmp d1)
    else (let! ex := path_exists path in
          if negb ex then rename_binding tmp path e
          else λ d2, read_binding_and_verify path expected (try_remove_file tmp d2)) d1
  end.

(** [f.write_all(..).and_then(|_| f.sync_all())], then install. *)
Definition write_binding (tmp path expected text : string) : ST Disk string unit := λ d,
  match (write_all_append tmp (str_bytes text) ;;! io_call) d with
  | (Ok _, d1) => install_binding tmp path expected d1
  | (Panic, d1) => (Panic, d1)
  | (Err e, d1) => (Err (tmp +:+ ": " +:+ IoError_display e), try_remove_file tmp d1)
  end.

Definition create_binding (tmp path expected text : string) : ST Disk string unit := λ d,
  match open_create_new tmp d with
  | (Ok _, d1) => write_binding tmp path expected text d1
  | (Panic, d1) => (Panic, d1)
  | (Err e, d1) =>
    if match IoError_kind e with AlreadyExists => true | _ => false end
    then
      (let! ex := path_exists path in
       if ex then read_binding_and_verify path expected
       else sfail (tmp +:+ ": " +:+ IoError_display e)) d1
    else (Err (tmp +:+ ": " +:+ IoError_display e), d1)
  end.

Definition ensure_binding_if_missing (data_dir : string) (genesis : Genesis) (pid : Z) (clock : option Z) :
    ST Disk string unit :=
  smap_err (λ e, data_dir +:+ ": " +:+ IoError_display e) io_call ;;!     (* create_dir_all *)
  let lock_path := path_join data_dir GENESIS_BIND_LOCK_FILE in
  smap_err (λ e, PFX_STARTUP +:+ " fail-closed: could not lock " +:+ lock_path +:+ " — " +:+ IoError_display e)
    (acquire_exclusive lock_path) ;;!
  let path := path_join data_dir GENESIS_BIND_FILE in
  let! expected := slift (map_err ProtocolError_display (state_commitment_hex genesis)) in
  let! ex := path_exists path in
  if ex then read_binding_and_verify path expected
  else
    let! text := slift (binding_text expected) in
    let! nanos := slift (since_epoch clock) in
    create_binding (tmp_path data_dir pid nanos) path expected text.

Definition verify_or_create_binding (data_dir : string) (genesis : Genesis) (pid : Z) (clock : option Z) :
    ST Disk string unit :=
  verify_binding_if_present data_dir genesis ;;!
  ensure_binding_if_missing data_dir genesis pid clock.
End bind.

(** ** What the steps do to the files *)

Lemma path_join_inj dir a b : path_join dir a = path_join dir b → a = b.
Proof.
  assert (∀ p a b : string, p +:+ a = p +:+ b → a = b) as Happ.
  { induction p as [|c p IH]; intros x y Hx; [done|]. injection Hx as Hx. by apply IH. }
  unfold path_join. destruct (String.eqb dir ""); [done|]. destruct (split_last _ dir) as [[? [|? ?]]|]; intros Hx; apply Happ in Hx; [done| |]; by injection Hx as Hx.
Qed.

Lemma fs_hard_link_cases src dest d :
  (∃ data d1, fs_hard_link src dest d = (Ok tt, d1) ∧ d_files d !! src = Some data ∧ d_files d !! dest = None
     ∧ d_files d1 = <[ dest := data ]> (d_files d))
  ∨ ∃ e d1, fs_hard_link src dest d = (Err e, d1) ∧ d_files d1 = d_files d.
Proof.
  unfold fs_hard_link, sbind, sget, sput, sfail. destruct (io_call_files d) as [Hf Hr].
  destruct (io_call d) as [[[]| |] d1]; cbn [fst snd] in *; [|eauto 6|by destruct Hr as [?|[? ?]]].
  rewrite Hf. destruct (d_files d !! src), (d_files d !! dest); eauto 6.
  left. eexists _, _. split; [done|]. unfold set_file. cbn [d_files]. by rewrite Hf.
Qed.

Lemma fs_rename_cases src dest d :
  (∃ data d1, fs_rename src dest d = (Ok tt, d1) ∧ d_files d !! src = Some data
     ∧ d_files d1 = <[ dest := data ]> (delete src (d_files d)))
  ∨ ∃ e d1, fs_rename src dest d = (Err e, d1) ∧ d_files d1 = d_files d.
Proof.
  unfold fs_rename, sbind, sget, sput, sfail. destruct (io_call_files d) as [Hf Hr].
  destruct (io_call d) as [[[]| |] d1]; cbn [fst snd] in *; [|eauto 6|by destruct Hr as [?|[? ?]]].
  rewrite Hf. destruct (d_files d !! src); [|eauto 6]. left. eexists _, _. split; [done|]. cbn [d_files]. by rewrite ?Hf.
Qed.

Lemma open_create_new_cases path d :
  (∃ d1, open_create_new path d = (Ok tt, d1) ∧ d_files d1 = <[ path := [] ]> (d_files d))
  ∨ ∃ e d1, open_create_new path d = (Err e, d1) ∧ d_files d1 = d_files d.
Proof.
  unfold open_create_new, sbind, sget, sput, sfail. destruct (io_call_files d) as [Hf Hr].
  destruct (io_call d) as [[[]| |] d1]; cbn [fst snd] in *; [|eauto 6|by destruct Hr as [?|[? ?]]].
  rewrite Hf. destruct (d_files d !! path); [eauto 6|]. left. eexists. split; [done|]. unfold set_file. cbn [d_files]. by rewrite Hf.
Qed.

Section bind_props.
Context `{TomlLaws BindFile}.

(** The file at [path] names the commitment [h]. *)
Definition bound_to (d : Disk) (path h : string) : Prop :=
  ∃ raw, d_files d !! path = Some (str_bytes raw) ∧ toml_from_str raw = Ok (mkBindFile h).

Lemma bound_to_fun d path h1 h2 : bound_to d path h1 → bound_to d path h2 → h1 = h2.
Proof. intros (r1&Hr1&Hp1) (r2&Hr2&Hp2). rewrite Hr1 in Hr2. injection Hr2 as Hr2%(inj str_bytes). congruence. Qed.

(** What a step may do: never touch an existing binding, create only the
    complete text, and succeed only when the directory is bound. *)
Definition bind_post (path expected text : string) (d : Disk) (res : Res string unit * Disk) : Prop :=
  (∀ c, d_files d !! path = Some c → d_files res.2 !! path = Some c)
  ∧ (d_files d !! path = None → d_files res.2 !! path = None ∨ d_files res.2 !! path = Some (str_bytes text))
  ∧ (res.1 = Ok tt → bound_to res.2 path expected).

Lemma bind_post_weaken path expected text d d1 res :
  d_files d1 !! path = d_files d !! path → bind_post path expected text d1 res → bind_post path expected text d res.
Proof. intros Heq (H1&H2&H3). by split_and!; [rewrite <- Heq|rewrite <- Heq|]. Qed.

Lemma bind_post_err path expected text d e d1 :
  d_files d1 !! path = d_files d !! path → bind_post path expected text d (Err e, d1).
Proof. intros Heq. split_and!; cbn [fst snd]; [by rewrite Heq|rewrite Heq; by left|done]. Qed.

Lemma read_binding_files path expected d :
  d_files (read_binding_and_verify path expected d).2 = d_files d
  ∧ ((read_binding_and_verify path expected d).1 = Ok tt → bound_to d path expected).
Proof.
  unfold read_binding_and_verify, fs_read_to_string, fs_read, smap_err, sbind, sget, slift, sfail, sret, ok_or.
  destruct (io_call_files d) as [Hf Hr]. destruct (io_call d) as [[[]| |] d1]; cbn [fst snd map_err] in *; [|done|done].
  destruct (d_files d1 !! path) as [data|] eqn:Hd; [|done].
  destruct (from_utf8 data) as [raw|] eqn:Hu; [|done]. cbn [map_err]. apply from_utf8_Some in Hu as [_ ->].
  destruct (toml_from_str raw) as [p| |] eqn:Hp; [|done..]. cbn [map_err].
  destruct (String.eqb_spec (bf_state_commitment_hex p) expected) as [Heq|]; [|done]. cbn [negb].
  split; [done|]. intros _. exists raw. rewrite <- Hf. split; [done|]. rewrite Hp. destruct p. simpl in *. by rewrite Heq.
Qed.

Lemma read_binding_post path expected text d d1 :
  d_files d1 !! path = d_files d !! path → bind_post path expected text d (read_binding_and_verify path expected d1).
Proof.
  intros Heq. destruct (read_binding_files path expected d1) as [Hf Hok]. split_and!.
  - by rewrite Hf, Heq.
  - rewrite Hf, Heq. by left.
  - intros (raw&Hraw&Hp)%Hok. exists raw. by rewrite Hf.
Qed.

Lemma binding_text_parses hex text : binding_text hex = Ok text → toml_from_str text = Ok (mkBindFile hex).
Proof.
  unfold binding_text, rbind. destruct (toml_to_string (mkBindFile hex)) as [body| |] eqn:Hb; [|done..]. intros [= <-].
  change (bind_header +:+ body +:+ nl) with
    ("#" +:+ " Trilogicon V2 — binds this data directory to a genesis state commitment." +:+ nl
     +:+ ("#" +:+ " Do not edit by hand unless you know the effect on chain.blocks and pending_tx.tril." +:+ nl
          +:+ (body +:+ nl))).
  apply (toml_print_parse _ _ _ Hb). do 2 (apply decorated_comment; [vm_compute; reflexivity|]). apply decorated_newline.
Qed.

Lemma install_binding_post tmp path expected text d :
  stats_work d → path ≠ tmp → d_files d !! tmp = Some (str_bytes text) → toml_from_str text = Ok (mkBindFile expected) →
  bind_post path expected text d (install_binding tmp path expected d).
Proof.
  intros Hst Hne Htmp Hparse. unfold install_binding. pose proof (steady_hard_link tmp path d Hst) as Hst1.
  destruct (fs_hard_link_cases tmp path d) as [(data&d1&->&Hsrc&Hnone&Hf)|(e&d1&Hl&Hf)].
  - rewrite Htmp in Hsrc. injection Hsrc as <-.
    assert (d_files (try_remove_file tmp d1) !! path = Some (str_bytes text)) as Hnew.
    { rewrite try_remove_keeps by done. rewrite Hf. apply lookup_insert_eq. }
    split_and!; cbn [fst snd]; rewrite ?Hnone; [done|by right|]. intros _. by exists text.
  - rewrite Hl in *. cbn [snd] in Hst1.
    assert (∀ d2, d_files d2 = d_files d →
      bind_post path expected text d (read_binding_and_verify path expected (try_remove_file tmp d2))) as Hread.
    { intros d2 Hf2. apply read_binding_post. by rewrite try_remove_keeps, Hf2. }
    destruct (match IoError_kind e with AlreadyExists => true | _ => false end); [by apply Hread|].
    unfold sbind. destruct (path_exists_works (E:=string) path d1 Hst1) as (d1'&->&Hf1&_).
    rewrite Hf in Hf1. rewrite Hf. clear Hl Hf Hst1 d1. rename d1' into d1, Hf1 into Hf.
    case_bool_decide as Hex; cbn [negb]; [by apply Hread|].
    assert (d_files d !! path = None) as Hnone by (by apply eq_None_not_Some). unfold rename_binding.
    destruct (fs_rename_cases tmp path d1) as [(data&d2&->&Hsrc&Hf2)|(e2&d2&->&Hf2)].
    + rewrite Hf, Htmp in Hsrc. injection Hsrc as <-.
      assert (d_files d2 !! path = Some (str_bytes text)) as Hnew by (rewrite Hf2; apply lookup_insert_eq).
      split_and!; cbn [fst snd]; rewrite ?Hnone; [done|by right|]. intros _. by exists text.
    + apply bind_post_err. by rewrite try_remove_keeps, Hf2, Hf.
Qed.

Lemma write_binding_post tmp path expected text d :
  stats_work d → path ≠ tmp → d_files d !! tmp = Some [] → toml_from_str text = Ok (mkBindFile expected) →
  bind_post path expected text d (write_binding tmp path expected text d).
Proof.
  intros Hst Hne Htmp Hparse. unfold write_binding, sbind. pose proof (steady_write_append tmp (str_bytes text) d Hst) as Hst1.
  destruct (write_all_append_files tmp (str_bytes text) d [] Htmp) as (k&Hf&Hk).
  destruct (write_all_append tmp (str_bytes text) d) as [r d1]. cbn [fst snd] in *.
  assert (d_files d1 !! path = d_files d !! path) as Hkeep by (rewrite Hf; by rewrite lookup_insert_ne).
  destruct Hk as [[-> ->]|[e ->]].
  2: { apply bind_post_err. by rewrite try_remove_keeps. }
  pose proof (steady_io d1 Hst1) as Hst2.
  destruct (io_call_files d1) as [Hf1 Hr1]. destruct (io_call d1) as [[[]|e|] d2]; cbn [fst snd] in *.
  - apply (bind_post_weaken _ _ _ _ d2); [by rewrite Hf1|]. apply install_binding_post; [done|done| |done].
    rewrite Hf1, Hf, lookup_insert_eq, firstn_all. done.
  - apply bind_post_err. by rewrite try_remove_keeps, Hf1.
  - by destruct Hr1 as [?|[? ?]].
Qed.

Lemma create_binding_post tmp path expected text d :
  stats_work d → path ≠ tmp → toml_from_str text = Ok (mkBindFile expected) →
  bind_post path expected text d (create_binding tmp path expected text d).
Proof.
  intros Hst Hne Hparse. unfold create_binding. pose proof (steady_open_create_new tmp d Hst) as Hst1.
  destruct (open_create_new_cases tmp d) as [(d1&Ho&Hf)|(e&d1&Ho&Hf)]; rewrite Ho in *; cbn [snd] in Hst1.
  - apply (bind_post_weaken _ _ _ _ d1); [rewrite Hf; by rewrite lookup_insert_ne|].
    apply write_binding_post; [done|done| |done]. rewrite Hf. apply lookup_insert_eq.
  - destruct (match IoError_kind e with AlreadyExists => true | _ => false end); [|apply bind_post_err; by rewrite Hf].
    unfold sbind. destruct (path_exists_works (E:=string) path d1 Hst1) as (d2&->&Hf2&_). rewrite Hf in Hf2.
    case_bool_decide; [|apply bind_post_err; by rewrite Hf2]. apply read_binding_post. by rewrite Hf2.
Qed.

Lemma open_create_keeps lock path d : path ≠ lock → d_files (open_create lock d).2 !! path = d_files d !! path.
Proof.
  intros Hne. unfold open_create, sbind, sget, sput, sret. destruct (io_call_files d) as [Hf Hr].
  destruct (io_call d) as [[[]| |] d1]; cbn [fst snd] in *; [|by rewrite Hf..].
  destruct (d_files d1 !! lock); cbn [snd]; [by rewrite Hf|]. unfold set_file. cbn [d_files].
  by rewrite lookup_insert_ne, Hf.
Qed.

Lemma acquire_keeps lock path d : path ≠ lock → d_files (acquire_exclusive lock d).2 !! path = d_files d !! path.
Proof.
  intros Hne. unfold acquire_exclusive, sbind. pose proof (open_create_keeps lock path d Hne) as Hk.
  destruct (open_create lock d) as [[[]| |] d1]; [|done..]. cbn [snd] in Hk.
  destruct (io_call_files d1) as [-> _]. done.
Qed.

Context `{CryptoLib}.

Lemma ensure_binding_post data_dir g pid clock hex text d :
  stats_work d → state_commitment_hex g = Ok hex → binding_text hex = Ok text →
  bind_post (path_join data_dir GENESIS_BIND_FILE) hex text d (ensure_binding_if_missing data_dir g pid clock d).
Proof.
  intros Hst Hg Ht. unfold ensure_binding_if_missing. set (path := path_join data_dir GENESIS_BIND_FILE).
  assert (path ≠ path_join data_dir GENESIS_BIND_LOCK_FILE) as Hlock by (by intros ?%path_join_inj).
  assert (∀ nanos, path ≠ tmp_path data_dir pid nanos) as Htmp by (by intros nanos ?%path_join_inj).
  unfold sbind at 1, smap_err at 1. destruct (io_call_files d) as [Hf Hr]. pose proof (steady_io d Hst) as Hst1.
  destruct (io_call d) as [[[]|e|] d1]; cbn [fst snd map_err] in *; [|apply bind_post_err; by rewrite Hf|by destruct Hr as [?|[? ?]]].
  unfold sbind at 1, smap_err at 1. pose proof (acquire_keeps _ path d1 Hlock) as Hk. rewrite Hf in Hk.
  pose proof (steady_acquire (path_join data_dir GENESIS_BIND_LOCK_FILE) d1 Hst1) as Hst2.
  destruct (acquire_exclusive _ d1) as [[[]|e|] d2]; cbn [snd map_err] in *; [|by apply bind_post_err|].
  2: { split_and!; cbn [fst snd]; [by rewrite Hk|rewrite Hk; by left|done]. }
  unfold sbind, slift. rewrite Hg. cbn [map_err]. destruct (path_exists_works (E:=string) path d2 Hst2) as (d3&->&Hf3&Hst3).
  apply (bind_post_weaken _ _ _ _ d3); [by rewrite Hf3|].
  case_bool_decide; [by apply read_binding_post|]. rewrite Ht. destruct clock as [nanos|]; cbn [since_epoch].
  - apply create_binding_post; [done|done|]. by apply binding_text_parses.
  - split_and!; cbn [fst snd]; [done|by left|done].
Qed.

(** C28: a data directory stays bound to one genesis, whatever file calls
    fail, as long as no existence check fails (a failed check reads as a
    missing binding). Let [ensure_binding_if_missing] run for a genesis: an
    existing binding is never modified; a missing one is afterwards still
    missing or the complete text for that genesis, never a partial file; and
    when the call succeeds, no genesis with another state commitment passes
    [verify_binding_if_present] in a directory with that binding file. *)
Theorem binding_exclusive data_dir g pid clock hex text d :
  stats_work d → state_commitment_hex g = Ok hex → binding_text hex = Ok text →
  let path := path_join data_dir GENESIS_BIND_FILE in
  let '(r, d') := ensure_binding_if_missing data_dir g pid clock d in
  (∀ c, d_files d !! path = Some c → d_files d' !! path = Some c)
  ∧ (d_files d !! path = None → d_files d' !! path = None ∨ d_files d' !! path = Some (str_bytes text))
  ∧ (r = Ok tt → ∀ g2 d2 d3, stats_work d2 → d_files d2 !! path = d_files d' !! path →
       verify_binding_if_present data_dir g2 d2 = (Ok tt, d3) → state_commitment_hex g2 = Ok hex).
Proof.
  intros Hst Hg Ht path. pose proof (ensure_binding_post data_dir g pid clock hex text d Hst Hg Ht) as (Hp1&Hp2&Hp3).
  destruct (ensure_binding_if_missing data_dir g pid clock d) as [r d']. cbn [fst snd] in *.
  split_and!; [done|done|]. intros Hr g2 d2 d3 Hst2 Heq Hver. pose proof (Hp3 Hr) as Hbound.
  pose proof Hbound as (raw&Hraw&Hparse). unfold verify_binding_if_present, sbind, slift in Hver.
  fold path in Hver, Hraw. destruct (path_exists_works (E:=string) path d2 Hst2) as (d2'&Hex&Hf2&_). rewrite Hex in Hver.
  rewrite bool_decide_eq_true_2 in Hver by (rewrite Heq, Hraw; eauto). cbn [negb] in Hver.
  rewrite <- Hf2 in Heq. clear Hex Hf2 Hst2 d2. rename d2' into d2.
  destruct (state_commitment_hex g2) as [hex2| |] eqn:Hg2; [|done..]. cbn [map_err] in Hver.
  destruct (read_binding_files path hex2 d2) as [_ Hok]. fold path in Hver. rewrite Hver in Hok.
  f_equal. apply (bound_to_fun d2 path); [by apply Hok|]. exists raw. by rewrite Heq.
Qed.
End bind_props.

(** ** A fresh directory, for the witness *)

Module BindExample.
Import ToyCrypto.

Definition g : Genesis := mkGenesis [mkGenesisAllocation "alice" 5].
Definition hex : string := match state_commitment_hex g with Ok h => h | _ => "" end.

Instance doc : TomlDoc BindFile := ToyToml.one_doc (mkBindFile hex).
Instance laws : TomlLaws BindFile := ToyToml.one_laws (mkBindFile hex).

(** The hard link fails, so the file is renamed instead. *)
Definition fresh : Disk :=
  mkDisk ∅ [IoOk; IoOk; IoOk; IoStat true; IoOk; IoOk; IoOk; IoFail None (mkIoError Other "links not supported")].

Definition bound : Disk := (ensure_binding_if_missing "data" g 7 (Some 99) fresh).2.

Lemma binding_exclusive_witness :
  ensure_binding_if_missing "data" g 7 (Some 99) fresh = (Ok tt, bound)
  ∧ ∀ g2 d3, verify_binding_if_present "data" g2 bound = (Ok tt, d3) → state_commitment_hex g2 = Ok hex.
Proof.
  assert (ensure_binding_if_missing "data" g 7 (Some 99) fresh = (Ok tt, bound)) as Hrun by (vm_compute; reflexivity).
  assert (state_commitment_hex g = Ok hex) as Hg by (vm_compute; reflexivity).
  assert (binding_text hex = Ok (bind_header +:+ "x" +:+ nl)) as Ht by (vm_compute; reflexivity).
  split; [exact Hrun|].
  pose proof (binding_exclusive "data" g 7 (Some 99) hex (bind_header +:+ "x" +:+ nl) fresh eq_refl Hg Ht) as Hb.
  cbn zeta in Hb. rewrite Hrun in Hb. destruct Hb as (_&_&Hb). intros g2 d3.
  assert (stats_work bound) as Hs by (vm_compute; reflexivity). by apply Hb.
Defined.

End BindExample.
