(* ===== verification/Wire.v ===== *)
(** * The peer protocol ([network.rs], wire level)

    Length-prefixed frames on a stream, the session handshake, and the message
    bodies. A stream delivers the bytes its peer sends and then one last error
    (end of file, timeout or reset); what is written to it is recorded, and
    each write has an outcome that the environment chooses. Messages printed
    for the operator are left out. *)

From Stdlib Require Import ZArith Lia.
From stdpp Require Import base strings list gmap.
From S2P Require Import Prelude Bytes Io Crypto Transaction Block Encoding Genesis Ledger Mempool Blockchain.

Definition MAX_WIRE_FRAME_BYTES : Z := 64 * 1024 * 1024.
Definition MAX_FRAMES_PER_INBOUND_SESSION : Z := 8192.
Definition FATAL_SYNC_PREFIX : string := "FATAL:".
Definition MAX_BLOCKS_PER_BATCH : Z := 64.
Definition TRIL_WIRE_PROTOCOL_VERSION : Z := 2.
Definition MAX_SESSION_COMMITMENT_BYTES : Z := 512.
Definition DEFAULT_SYNC_MAX_ROUNDS_PER_CALL : Z := 8192.
Definition DEFAULT_SYNC_MAX_BLOCKS_PER_CALL : Z := 500000.
Definition DEFAULT_SYNC_MAX_WIRE_BYTES_PER_CALL : Z := 512 * 1024 * 1024.
Definition INVALID_BLOCK_BUDGET_EXHAUSTED : string := "TRIL_INVALID_BLOCK_BUDGET_EXHAUSTED".
Definition INGRESS_STALE_BLOCK_QUOTA_EXHAUSTED : string := "TRIL_INGRESS_STALE_BLOCK_QUOTA_EXHAUSTED".
Definition INGRESS_INBOUND_TX_QUOTA_EXHAUSTED : string := "TRIL_INGRESS_INBOUND_TX_QUOTA_EXHAUSTED".

Definition OP_TX : Z := 1.
Definition OP_BLOCK : Z := 2.
Definition OP_GET_BLOCKS : Z := 3.
Definition OP_BLOCKS : Z := 4.
Definition OP_SESSION_HELLO : Z := 5.
Definition OP_SESSION_HELLO_ACK : Z := 6.

Inductive PeerFrameError :=
| InvalidBlockBudgetExhausted (max_invalid_network_blocks_per_session : Z)
| StaleBlockIngressQuotaExhausted (max_stale_decoded_blocks_per_session : Z)
| InboundTxIngressQuotaExhausted (max_inbound_tx_per_session : Z)
| LocalFatal (msg : string)
| Protocol (e : IoError).

Inductive PredecodedInbound :=
| PdTx (tx : Transaction)
| PdBlock (b : Block)
| PdGetBlocks (start_height : Z).

(** ** Streams *)

Record Stream := mkStream {
  st_in : list byte;
  st_end : IoError;
  st_out : list byte;
  st_faults : list Outcome
}.

Definition read_exact (n : nat) : ST Stream IoError (list byte) := λ s,
  if Nat.leb n (length (st_in s))
  then (Ok (take n (st_in s)), mkStream (drop n (st_in s)) (st_end s) (st_out s) (st_faults s))
  else (Err (st_end s), mkStream [] (st_end s) (st_out s) (st_faults s)).

Definition write_stream (data : list byte) : ST Stream IoError unit := λ s,
  match st_faults s with
  | [] => (Ok tt, mkStream (st_in s) (st_end s) (st_out s ++ data) [])
  | IoFail k e :: os => (Err e, mkStream (st_in s) (st_end s) (st_out s ++ take (default 0%nat k) data) os)
  | _ :: os => (Ok tt, mkStream (st_in s) (st_end s) (st_out s ++ data) os)
  end.

Definition read_framed : ST Stream IoError (list byte) :=
  let! hdr := read_exact 4 in
  let len := be_combine hdr in
  if MAX_WIRE_FRAME_BYTES <? len then sfail (mkIoError InvalidData "wire frame exceeds max size")
  else read_exact (Z.to_nat len).

Definition validate_outbound_framed_payload_len (payload_len : Z) : Res IoError Z :=
  if MAX_WIRE_FRAME_BYTES <? payload_len
  then Err (mkIoError InvalidInput "wire payload exceeds MAX_WIRE_FRAME_BYTES")
  else if u32_max <? payload_len
  then Err (mkIoError InvalidInput "wire payload length does not fit u32")
  else Ok payload_len.

Definition write_framed (payload : list byte) : ST Stream IoError unit :=
  let! len := slift (validate_outbound_framed_payload_len (zlen payload)) in
  write_stream (to_be_bytes_u32 len) ;;!
  write_stream payload ;;!
  write_stream [].                                                (* flush *)

(** ** Session handshake *)

Section handshake.
Context `{CryptoLib}.

Definition encode_session_payload (opcode : Z) (genesis : Genesis) (advisory_height : Z) : Res string (list byte) :=
  let? hex := map_err ProtocolError_display (state_commitment_hex genesis) in
  let n := zlen (str_bytes hex) in
  if MAX_SESSION_COMMITMENT_BYTES <? n
  then Err ("genesis commitment hex too long for wire session (max "
            +:+ fmt_uint MAX_SESSION_COMMITMENT_BYTES +:+ ")")
  else if u16_max <? n then Err "commitment length overflow"
  else Ok ([byte_of_Z opcode] ++ to_be_bytes_u16 TRIL_WIRE_PROTOCOL_VERSION ++ to_be_bytes_u16 n
           ++ str_bytes hex ++ to_be_bytes_u64 advisory_height).

(** Every slice is within the length checked before it. *)
Definition decode_session_payload (data : list byte) : Res string (Z * Z * string * Z) :=
  if zlen data <? 1 + 2 + 2 + 8 then Err (PFX_PEER +:+ " malformed session frame: too short")
  else
    let op := be_combine (byte_slice data 0 1) in
    let ver := be_combine (byte_slice data 1 3) in
    let hlen := be_combine (byte_slice data 3 5) in
    if MAX_SESSION_COMMITMENT_BYTES <? hlen
    then Err (PFX_PEER +:+ " malformed session frame: commitment length exceeds cap")
    else if zlen data <? 5 + hlen + 8 then Err (PFX_PEER +:+ " malformed session frame: truncated")
    else
      let? hex_str := ok_or (from_utf8 (byte_slice data 5 (5 + hlen)))
                        (PFX_PEER +:+ " malformed session frame: commitment not valid UTF-8") in
      let advisory := be_combine (byte_slice data (5 + hlen) (5 + hlen + 8)) in
      let expected_len := 5 + hlen + 8 in
      if negb (zlen data =? expected_len)
      then Err (PFX_PEER +:+ " malformed session frame: trailing bytes after payload")
      else Ok (op, ver, hex_str, advisory).

Definition local_commitment_hex (genesis : Genesis) : Res string string :=
  map_err ProtocolError_display (state_commitment_hex genesis).

Definition invalid_data (s : string) : IoError := mkIoError InvalidData s.

Definition version_message (ver : Z) : string :=
  PFX_PEER +:+ " disconnecting: incompatible wire version (peer " +:+ fmt_uint ver +:+ ", want "
  +:+ fmt_uint TRIL_WIRE_PROTOCOL_VERSION +:+ ")".

Definition mismatch_message : string :=
  PFX_PEER +:+ " disconnecting: genesis state commitment mismatch (align genesis.toml across nodes; not local chain.blocks corruption)".

Definition handshake_initiator (local_genesis : Genesis) (local_advisory_height : Z) : ST Stream IoError unit :=
  let! hello := slift (map_err invalid_data
                         (encode_session_payload OP_SESSION_HELLO local_genesis local_advisory_height)) in
  write_framed hello ;;!
  let! resp := read_framed in
  let! (op, ver, peer_hex, peer_adv) := slift (map_err invalid_data (decode_session_payload resp)) in
  if negb (op =? OP_SESSION_HELLO_ACK)
  then sfail (invalid_data (PFX_PEER +:+ " disconnecting: expected session HELLO_ACK, got opcode " +:+ fmt_uint op))
  else if negb (ver =? TRIL_WIRE_PROTOCOL_VERSION) then sfail (invalid_data (version_message ver))
  else
    let! local_hex := slift (map_err invalid_data (local_commitment_hex local_genesis)) in
    if negb (String.eqb peer_hex local_hex) then sfail (invalid_data mismatch_message)
    else sret tt.

Definition handshake_responder (local_genesis : Genesis) (local_advisory_height : Z) : ST Stream IoError unit :=
  let! frame := read_framed in
  let! (op, ver, peer_hex, peer_adv) := slift (map_err invalid_data (decode_session_payload frame)) in
  if negb (op =? OP_SESSION_HELLO)
  then sfail (invalid_data (PFX_PEER +:+ " disconnecting: expected session HELLO (op "
         +:+ fmt_uint OP_SESSION_HELLO +:+ ") as first frame, got opcode " +:+ fmt_uint op))
  else if negb (ver =? TRIL_WIRE_PROTOCOL_VERSION) then sfail (invalid_data (version_message ver))
  else
    let! local_hex := slift (map_err invalid_data (local_commitment_hex local_genesis)) in
    if negb (String.eqb peer_hex local_hex) then sfail (invalid_data mismatch_message)
    else
      let! ack := slift (map_err invalid_data
                    (encode_session_payload OP_SESSION_HELLO_ACK local_genesis local_advisory_height)) in
      write_framed ack.
End handshake.

(** ** Message bodies *)

Definition wire_encode_get_blocks (start_height : Z) : list byte :=
  [byte_of_Z OP_GET_BLOCKS] ++ to_be_bytes_u64 start_height.

Fixpoint encode_response_blocks (out : list byte) (blocks : list Block) : Res string (list byte) :=
  match blocks with
  | [] => Ok out
  | b :: blocks' =>
    let? enc := expect (encode_block b) in
    if u32_max <? zlen enc then Err "encoded block length overflow"
    else
      let out := out ++ to_be_bytes_u32 (zlen enc) ++ enc in
      if MAX_WIRE_FRAME_BYTES <? zlen out then Err "encoded OP_BLOCKS response exceeds MAX_WIRE_FRAME_BYTES"
      else encode_response_blocks out blocks'
  end.

Definition wire_encode_blocks_response (blocks : list Block) : Res string (list byte) :=
  let n := Z.min (zlen blocks) MAX_BLOCKS_PER_BATCH in
  encode_response_blocks ([byte_of_Z OP_BLOCKS] ++ to_be_bytes_u32 n) (take (Z.to_nat n) blocks).

Fixpoint parse_blocks_from (k : nat) (i : Z) (data : list byte) (pos : Z) (out : list Block) :
    Res string (list Block * Z) :=
  match k with
  | O => Ok (out, pos)
  | S k' =>
    if zlen data <? pos + 4 then Err ("truncated block length (" +:+ fmt_uint i +:+ ")")
    else
      let len_raw := u32_at data pos in
      let pos := pos + 4 in
      if MAX_WIRE_FRAME_BYTES <? len_raw
      then Err ("OP_BLOCKS entry " +:+ fmt_uint i +:+ ": encoded block length exceeds max frame size")
      else if zlen data <? pos + len_raw then Err ("truncated block body (" +:+ fmt_uint i +:+ ")")
      else
        let? block := map_err EncodeError_display (decode_block (byte_slice data pos (pos + len_raw))) in
        parse_blocks_from k' (i + 1) data (pos + len_raw) (out ++ [block])
  end.

Definition parse_op_blocks_body (data : list byte) (max_blocks : Z) : Res string (list Block) :=
  if zlen data <? 4 then Err "short OP_BLOCKS body"
  else
    let n := u32_at data 0 in
    if max_blocks <? n
    then Err ("OP_BLOCKS batch count " +:+ fmt_uint n +:+ " exceeds max " +:+ fmt_uint max_blocks)
    else
      let? (out, pos) := parse_blocks_from (Z.to_nat n) 0 data 4 [] in
      if negb (pos =? zlen data) then Err "trailing bytes after OP_BLOCKS batch" else Ok out.

Definition wire_decode_blocks_response (payload : list byte) : Res string (list Block) :=
  match payload with
  | [] => Err "empty response"
  | o :: rest =>
    if byte_to_Z o =? OP_BLOCKS then parse_op_blocks_body rest MAX_BLOCKS_PER_BATCH
    else Err ("expected OP_BLOCKS, got opcode " +:+ fmt_uint (byte_to_Z o))
  end.

Section sync_batch.
Context `{CryptoLib}.

Fixpoint linear_from (i expect_height : Z) (prev_hash : string) (blocks : list Block) : Res string unit :=
  match blocks with
  | [] => Ok tt
  | b :: blocks' =>
    map_err (λ e, "sync batch block " +:+ fmt_uint i +:+ " basic_validate: " +:+ ProtocolError_display e)
      (block_basic_validate b) ;;?
    if negb (blk_height b =? expect_height)
    then Err ("sync batch not linear at index " +:+ fmt_uint i +:+ ": expected height " +:+ fmt_uint expect_height
              +:+ ", got " +:+ fmt_uint (blk_height b) +:+ " (gap, stale, or out-of-order)")
    else if negb (String.eqb (blk_previous_hash b) prev_hash)
    then Err ("sync batch broken link at index " +:+ fmt_uint i +:+ ": previous_hash does not extend tip")
    else linear_from (i + 1) (saturating_add expect_height 1) (blk_block_hash b) blocks'
  end.

Definition validate_linear_sync_batch (chain : Blockchain) (blocks : list Block) : Res string unit :=
  if Nat.eqb (length blocks) 0 then Ok tt
  else
    let? tip := ok_or (last (bc_blocks chain)) "chain has no tip" in
    linear_from 0 (saturating_add (blk_height tip) 1) (blk_block_hash tip) blocks.
End sync_batch.

Definition predecode_inbound_app_payload (payload : list byte) : Res PeerFrameError PredecodedInbound :=
  match payload with
  | [] => Err (Protocol (invalid_data "empty payload"))
  | o :: rest =>
    let op := byte_to_Z o in
    if op =? OP_TX then
      let? tx := map_err (λ e, Protocol (invalid_data (EncodeError_display e))) (decode_transaction rest) in
      Ok (PdTx tx)
    else if op =? OP_BLOCK then
      let? block := map_err (λ e, Protocol (invalid_data (EncodeError_display e))) (decode_block rest) in
      Ok (PdBlock block)
    else if op =? OP_GET_BLOCKS then
      if negb (zlen payload =? 1 + 8)
      then Err (Protocol (invalid_data (PFX_PEER +:+ " malformed GET_BLOCKS payload length")))
      else Ok (PdGetBlocks (be_combine rest))
    else if (op =? OP_SESSION_HELLO) || (op =? OP_SESSION_HELLO_ACK)
    then Err (Protocol (invalid_data (PFX_PEER +:+ " session handshake must be first frame only")))
    else Err (Protocol (invalid_data (PFX_PEER +:+ " unknown wire opcode")))
  end.

(** ** Frames *)

Definition wire_frame (payload : list byte) : list byte := to_be_bytes_u32 (zlen payload) ++ payload.

Lemma read_exact_app a rest e out fs :
  read_exact (length a) (mkStream (a ++ rest) e out fs) = (Ok a, mkStream rest e out fs).
Proof.
  unfold read_exact. cbn [st_in st_end st_out st_faults]. rewrite length_app.
  destruct (Nat.leb_spec (length a) (length a + length rest)); [|lia]. by rewrite take_app_length, drop_app_length.
Qed.

Lemma read_framed_app p rest e out fs :
  zlen p ≤ MAX_WIRE_FRAME_BYTES →
  read_framed (mkStream (wire_frame p ++ rest) e out fs) = (Ok p, mkStream rest e out fs).
Proof.
  intros Hp. unfold read_framed, wire_frame, sbind. rewrite <- (assoc_L (++)).
  pose proof (read_exact_app (to_be_bytes_u32 (zlen p)) (p ++ rest) e out fs) as Hr.
  replace (length (to_be_bytes_u32 (zlen p))) with 4%nat in Hr by (unfold to_be_bytes_u32; by rewrite length_be_bytes).
  rewrite Hr, be_combine_u32; [|unfold in_u32, MAX_WIRE_FRAME_BYTES, u32_max in *; pose proof (zlen_nonneg p); lia].
  destruct (Z.ltb_spec MAX_WIRE_FRAME_BYTES (zlen p)); [lia|].
  unfold zlen. rewrite Nat2Z.id. apply read_exact_app.
Qed.

Lemma write_framed_ok p i e out :
  zlen p ≤ MAX_WIRE_FRAME_BYTES →
  write_framed p (mkStream i e out []) = (Ok tt, mkStream i e (out ++ wire_frame p) []).
Proof.
  intros Hp. unfold write_framed, validate_outbound_framed_payload_len, sbind, slift.
  destruct (Z.ltb_spec MAX_WIRE_FRAME_BYTES (zlen p)); [lia|].
  destruct (Z.ltb_spec u32_max (zlen p)); [unfold u32_max, MAX_WIRE_FRAME_BYTES in *; lia|].
  unfold write_stream. cbn [st_in st_end st_out st_faults]. unfold wire_frame. by rewrite <- !(assoc_L (++)), app_nil_r.
Qed.

(** ** The session payload *)

(** A slice between known offsets. *)
Lemma slice_at data pre a post p q :
  data = pre ++ a ++ post → p = zlen pre → q = zlen pre + zlen a → byte_slice data p q = a.
Proof.
  intros -> -> ->. apply at_pos_slice with (rest := post). split.
  - rewrite !zlen_app. pose proof (zlen_nonneg pre). pose proof (zlen_nonneg a). pose proof (zlen_nonneg post). lia.
  - unfold zlen. rewrite Nat2Z.id. apply drop_app_length.
Qed.

Lemma be_combine_u16 z : 0 ≤ z ≤ u16_max → be_combine (to_be_bytes_u16 z) = z.
Proof.
  intros Hz. unfold to_be_bytes_u16. rewrite be_combine_bytes. apply Z.mod_small.
  unfold u16_max in Hz. change (256 ^ Z.of_nat 2) with 65536. lia.
Qed.

Lemma be_combine_byte z : 0 ≤ z < 256 → be_combine [byte_of_Z z] = z.
Proof.
  intros Hz. rewrite be_combine_cons, byte_to_of_Z, Z.mod_small by done. unfold zlen. simpl. unfold be_combine. simpl. lia.
Qed.

(** The bytes of a session frame. *)
Definition session_bytes (op : Z) (hex : string) (adv : Z) : list byte :=
  [byte_of_Z op] ++ to_be_bytes_u16 TRIL_WIRE_PROTOCOL_VERSION ++ to_be_bytes_u16 (zlen (str_bytes hex))
  ++ str_bytes hex ++ to_be_bytes_u64 adv.

Lemma zlen_session op hex adv : zlen (session_bytes op hex adv) = 13 + zlen (str_bytes hex).
Proof.
  unfold session_bytes. rewrite !zlen_app. unfold zlen, to_be_bytes_u16, to_be_bytes_u64. rewrite !length_be_bytes. simpl. lia.
Qed.

Lemma decode_session_bytes op hex adv :
  0 ≤ op < 256 → zlen (str_bytes hex) ≤ MAX_SESSION_COMMITMENT_BYTES → utf8_valid (str_bytes hex) = true → in_u64 adv →
  decode_session_payload (session_bytes op hex adv) = Ok (op, TRIL_WIRE_PROTOCOL_VERSION, hex, adv).
Proof.
  intros Hop Hlen Hutf Hadv. pose proof (zlen_nonneg (str_bytes hex)) as Hpos. pose proof (zlen_session op hex adv) as Hz.
  set (o := [byte_of_Z op]). set (v := to_be_bytes_u16 TRIL_WIRE_PROTOCOL_VERSION).
  set (l := to_be_bytes_u16 (zlen (str_bytes hex))). set (a := to_be_bytes_u64 adv).
  assert (zlen o = 1) as Ho by done. assert (zlen v = 2) as Hv by done.
  assert (zlen l = 2) as Hl by (unfold l, zlen, to_be_bytes_u16; by rewrite length_be_bytes).
  assert (zlen a = 8) as Ha by (unfold a, zlen, to_be_bytes_u64; by rewrite length_be_bytes).
  assert (session_bytes op hex adv = o ++ v ++ l ++ str_bytes hex ++ a) as Hs by done.
  unfold decode_session_payload. rewrite Hz. unfold MAX_SESSION_COMMITMENT_BYTES in *.
  rewrite (slice_at _ (o ++ v) l (str_bytes hex ++ a) 3 5) by (rewrite ?Hs, ?zlen_app, <- ?(assoc_L (++)); done || lia).
  rewrite (slice_at _ [] o (v ++ l ++ str_bytes hex ++ a) 0 1) by (rewrite ?Hs, ?zlen_app; done || lia).
  rewrite (slice_at _ o v (l ++ str_bytes hex ++ a) 1 3) by (rewrite ?Hs, ?zlen_app; done || lia).
  replace (be_combine l) with (zlen (str_bytes hex)) by (unfold l; rewrite be_combine_u16; [done|unfold u16_max; lia]).
  rewrite (slice_at _ (o ++ v ++ l) (str_bytes hex) a 5 (5 + zlen (str_bytes hex))) by (rewrite ?Hs, ?zlen_app, <- ?(assoc_L (++)); done || lia).
  rewrite (slice_at _ (o ++ v ++ l ++ str_bytes hex) a [] (5 + zlen (str_bytes hex)) (5 + zlen (str_bytes hex) + 8)) by (rewrite ?Hs, ?zlen_app, ?app_nil_r, <- ?(assoc_L (++)); done || lia).
  repeat (match goal with |- context [?x <? ?y] => destruct (Z.ltb_spec x y); [lia|] end).
  rewrite from_utf8_str by done. cbn [ok_or rbind].
  destruct (Z.eqb_spec (13 + zlen (str_bytes hex)) (5 + zlen (str_bytes hex) + 8)); [|lia]. cbn [negb].
  unfold o, v, a. rewrite be_combine_byte, be_combine_u16, be_combine_u64; [done|done|unfold u16_max, TRIL_WIRE_PROTOCOL_VERSION; lia|done].
Qed.

Section handshake_props.
Context `{CryptoLaws}.

Lemma commitment_shape g hex :
  state_commitment_hex g = Ok hex → zlen (str_bytes hex) = 64 ∧ utf8_valid (str_bytes hex) = true.
Proof.
  unfold state_commitment_hex, state_commitment_raw32, rbind. destruct (sorted_pairs g); [|done..]. intros [= <-]. split.
  - unfold zlen. rewrite str_bytes_length, hex_encode_length. unfold sha256_raw32. by rewrite sha256_length.
  - apply utf8_valid_ascii. eapply Forall_impl; [apply hex_encode_hex|]. intros b Hb. unfold is_hex_byte in Hb. lia.
Qed.

Lemma encode_session_ok op g hex adv :
  state_commitment_hex g = Ok hex → encode_session_payload op g adv = Ok (session_bytes op hex adv).
Proof.
  intros Hg. destruct (commitment_shape g hex Hg) as [Hl _]. unfold encode_session_payload. rewrite Hg.
  cbn [map_err rbind]. unfold session_bytes. rewrite Hl. done.
Qed.

(** One honest end of a session: what it sends. *)
Definition hello_frame (g : Genesis) (adv : Z) : list byte :=
  match encode_session_payload OP_SESSION_HELLO g adv with Ok p => wire_frame p | _ => [] end.
Definition ack_frame (g : Genesis) (adv : Z) : list byte :=
  match encode_session_payload OP_SESSION_HELLO_ACK g adv with Ok p => wire_frame p | _ => [] end.

Lemma session_small op hex adv : zlen (str_bytes hex) = 64 → zlen (session_bytes op hex adv) ≤ MAX_WIRE_FRAME_BYTES.
Proof. intros Hl. rewrite zlen_session, Hl. unfold MAX_WIRE_FRAME_BYTES. lia. Qed.

(** Both ends of a handshake, for equal and for different commitments. *)
Lemma handshake_runs g1 g2 hex1 hex2 adv1 adv2 fin rest :
  state_commitment_hex g1 = Ok hex1 → state_commitment_hex g2 = Ok hex2 → in_u64 adv1 → in_u64 adv2 →
  let dialled := mkStream (hello_frame g1 adv1 ++ rest) fin [] [] in
  let dialling := mkStream (ack_frame g2 adv2 ++ rest) fin [] [] in
  (hex1 = hex2 →
     handshake_responder g2 adv2 dialled = (Ok tt, mkStream rest fin (ack_frame g2 adv2) [])
     ∧ handshake_initiator g1 adv1 dialling = (Ok tt, mkStream rest fin (hello_frame g1 adv1) []))
  ∧ (hex1 ≠ hex2 →
     handshake_responder g2 adv2 dialled = (Err (invalid_data mismatch_message), mkStream rest fin [] [])
     ∧ (handshake_initiator g1 adv1 dialling).1 = Err (invalid_data mismatch_message)).
Proof.
  intros Hg1 Hg2 Ha1 Ha2 dialled dialling.
  destruct (commitment_shape g1 hex1 Hg1) as [Hl1 Hu1], (commitment_shape g2 hex2 Hg2) as [Hl2 Hu2].
  assert (hello_frame g1 adv1 = wire_frame (session_bytes OP_SESSION_HELLO hex1 adv1)) as Hh
    by (unfold hello_frame; by rewrite (encode_session_ok _ _ _ _ Hg1)).
  assert (ack_frame g2 adv2 = wire_frame (session_bytes OP_SESSION_HELLO_ACK hex2 adv2)) as Hk
    by (unfold ack_frame; by rewrite (encode_session_ok _ _ _ _ Hg2)).
  unfold dialled, dialling. rewrite Hh, Hk. unfold handshake_responder, handshake_initiator, local_commitment_hex.
  unfold sbind, slift, sfail, sret. rewrite (encode_session_ok _ _ _ _ Hg1), Hg1, Hg2. cbn [map_err].
  rewrite write_framed_ok by (by apply session_small). cbn [app].
  rewrite !read_framed_app by (by apply session_small).
  rewrite !decode_session_bytes by (unfold OP_SESSION_HELLO, OP_SESSION_HELLO_ACK, MAX_SESSION_COMMITMENT_BYTES; done || lia).
  cbn [map_err]. change (negb (OP_SESSION_HELLO =? OP_SESSION_HELLO)) with false.
  change (negb (OP_SESSION_HELLO_ACK =? OP_SESSION_HELLO_ACK)) with false.
  change (negb (TRIL_WIRE_PROTOCOL_VERSION =? TRIL_WIRE_PROTOCOL_VERSION)) with false. cbv iota.
  split; intros Heq.
  - subst hex2. rewrite String.eqb_refl. cbn [negb]. rewrite (encode_session_ok _ _ _ _ Hg2). cbn [map_err].
    split; [|done]. by rewrite write_framed_ok by (by apply session_small).
  - destruct (String.eqb_spec hex1 hex2), (String.eqb_spec hex2 hex1); [done..|]. by cbn [negb].
Qed.

Lemma responder_accepts g1 g2 hex adv1 adv2 fin rest :
  state_commitment_hex g1 = Ok hex → state_commitment_hex g2 = Ok hex → in_u64 adv1 → in_u64 adv2 →
  handshake_responder g2 adv2 (mkStream (hello_frame g1 adv1 ++ rest) fin [] []) = (Ok tt, mkStream rest fin (ack_frame g2 adv2) []).
Proof. intros. by eapply handshake_runs. Qed.

Lemma initiator_accepts g1 g2 hex adv1 adv2 fin rest :
  state_commitment_hex g1 = Ok hex → state_commitment_hex g2 = Ok hex → in_u64 adv1 → in_u64 adv2 →
  handshake_initiator g1 adv1 (mkStream (ack_frame g2 adv2 ++ rest) fin [] []) = (Ok tt, mkStream rest fin (hello_frame g1 adv1) []).
Proof. intros. by eapply handshake_runs. Qed.

(** C32: the handshake admits exactly the peers that share the genesis. Let one
    node dial another, with the heights they advertise. If the state
    commitments are equal both ends complete the session; if they differ, the
    responder refuses without sending anything, and the initiator refuses the
    acknowledgement of such a peer. *)
Theorem handshake_agreement g1 g2 hex1 hex2 adv1 adv2 fin rest :
  state_commitment_hex g1 = Ok hex1 → state_commitment_hex g2 = Ok hex2 → in_u64 adv1 → in_u64 adv2 →
  let dialled := mkStream (hello_frame g1 adv1 ++ rest) fin [] [] in
  let dialling := mkStream (ack_frame g2 adv2 ++ rest) fin [] [] in
  (hex1 = hex2 →
     handshake_responder g2 adv2 dialled = (Ok tt, mkStream rest fin (ack_frame g2 adv2) [])
     ∧ handshake_initiator g1 adv1 dialling = (Ok tt, mkStream rest fin (hello_frame g1 adv1) []))
  ∧ (hex1 ≠ hex2 →
     handshake_responder g2 adv2 dialled = (Err (invalid_data mismatch_message), mkStream rest fin [] [])
     ∧ (handshake_initiator g1 adv1 dialling).1 = Err (invalid_data mismatch_message)).
Proof. apply handshake_runs. Qed.
End handshake_props.

(** ** Block batches *)

(** The length-prefixed encodings of a batch. *)
Definition batch_bytes (encs : list (list byte)) : list byte := encs ≫= wire_frame.

Lemma encode_response_spec out blocks res :
  encode_response_blocks out blocks = Ok res → zlen out ≤ MAX_WIRE_FRAME_BYTES →
  ∃ encs, Forall2 (λ b e, encode_block b = Some e) blocks encs ∧ res = out ++ batch_bytes encs
    ∧ zlen res ≤ MAX_WIRE_FRAME_BYTES.
Proof.
  revert out. induction blocks as [|b blocks IH]; intros out; cbn [encode_response_blocks].
  { intros [= <-] Hl. exists []. by rewrite app_nil_r. }
  destruct (encode_block b) as [e|] eqn:He; cbn [expect rbind]; [|done].
  destruct (u32_max <? zlen e); [done|].
  destruct (Z.ltb_spec MAX_WIRE_FRAME_BYTES (zlen (out ++ to_be_bytes_u32 (zlen e) ++ e))) as [|Hl]; [done|].
  intros Hr _. destruct (IH _ Hr Hl) as (encs&Hall&->&Hlen). exists (e :: encs). split_and!; [by constructor| |done].
  unfold batch_bytes. simpl. unfold wire_frame. by rewrite <- !(assoc_L (++)).
Qed.

Lemma zlen_wire_frame p : zlen (wire_frame p) = 4 + zlen p.
Proof. unfold wire_frame. rewrite zlen_app, zlen_be_u32. done. Qed.

Lemma parse_blocks_batch blocks encs i data pos out rest :
  Forall wf_block blocks → Forall2 (λ b e, encode_block b = Some e) blocks encs →
  at_pos data pos (batch_bytes encs ++ rest) → zlen data ≤ MAX_WIRE_FRAME_BYTES →
  parse_blocks_from (length blocks) i data pos out = Ok (out ++ blocks, pos + zlen (batch_bytes encs)).
Proof.
  intros Hwf Hencs. revert i pos out Hwf. induction Hencs as [|b e blocks encs He Hencs IH]; intros i pos out Hwf Hat Hmax.
  { cbn. rewrite app_nil_r, Z.add_0_r. done. }
  apply Forall_cons in Hwf as [Hb Hwf]. cbn [length parse_blocks_from].
  change (batch_bytes (e :: encs)) with (wire_frame e ++ batch_bytes encs) in *. rewrite <- (assoc_L (++)) in Hat.
  pose proof (at_pos_len _ _ _ Hat) as Hlen. rewrite !zlen_app, zlen_wire_frame in Hlen.
  pose proof (zlen_nonneg (batch_bytes encs)). pose proof (zlen_nonneg rest). pose proof (zlen_nonneg e).
  assert (0 ≤ pos) as Hpos by apply Hat.
  destruct (Z.ltb_spec (zlen data) (pos + 4)); [lia|].
  pose proof Hat as Hat2. unfold wire_frame in Hat2. rewrite <- (assoc_L (++)) in Hat2.
  assert (in_u32 (zlen e)) as Hu by (unfold in_u32, u32_max, MAX_WIRE_FRAME_BYTES in *; lia).
  rewrite (at_pos_u32 _ _ _ _ Hu Hat2). apply at_pos_advance in Hat2. rewrite zlen_be_u32 in Hat2.
  destruct (Z.ltb_spec MAX_WIRE_FRAME_BYTES (zlen e)); [lia|].
  destruct (Z.ltb_spec (zlen data) (pos + 4 + zlen e)); [lia|].
  rewrite (at_pos_slice _ _ _ _ Hat2), (decode_encode_block _ _ Hb He). cbn [map_err rbind].
  rewrite IH; [|done|by apply at_pos_advance|done]. rewrite zlen_app, zlen_wire_frame, <- (assoc_L (++)). f_equal. f_equal. lia.
Qed.

Lemma take_batch_len (blocks : list Block) :
  length (take (Z.to_nat (Z.min (zlen blocks) MAX_BLOCKS_PER_BATCH)) blocks)
  = Z.to_nat (Z.min (zlen blocks) MAX_BLOCKS_PER_BATCH).
Proof. rewrite length_take. unfold zlen. lia. Qed.

Lemma blocks_response_roundtrip blocks out :
  Forall wf_block blocks → wire_encode_blocks_response blocks = Ok out →
  wire_decode_blocks_response out = Ok (take (Z.to_nat MAX_BLOCKS_PER_BATCH) blocks)
  ∧ zlen out ≤ MAX_WIRE_FRAME_BYTES.
Proof.
  intros Hwf Henc. unfold wire_encode_blocks_response in Henc. set (n := Z.min (zlen blocks) MAX_BLOCKS_PER_BATCH) in *.
  pose proof (zlen_nonneg blocks). assert (0 ≤ n ≤ 64) as Hn by (unfold n, MAX_BLOCKS_PER_BATCH; lia).
  apply encode_response_spec in Henc as (encs&Hencs&->&Hlen).
  2: { rewrite zlen_app, zlen_be_u32. unfold MAX_WIRE_FRAME_BYTES. change (zlen [byte_of_Z OP_BLOCKS]) with 1. lia. }
  split; [|done]. rewrite <- (assoc_L (++)) in *. cbn [app wire_decode_blocks_response].
  change (byte_to_Z (byte_of_Z OP_BLOCKS) =? OP_BLOCKS) with true. cbv iota.
  set (data := to_be_bytes_u32 n ++ batch_bytes encs) in *.
  assert (zlen data = 4 + zlen (batch_bytes encs)) as Hd by (unfold data; by rewrite zlen_app, zlen_be_u32).
  pose proof (zlen_nonneg (batch_bytes encs)).
  assert (zlen data ≤ MAX_WIRE_FRAME_BYTES) as Hdm.
  { revert Hlen. cbn [app]. change (zlen (byte_of_Z OP_BLOCKS :: data)) with (Z.of_nat (S (length data))). unfold zlen. lia. }
  unfold parse_op_blocks_body. destruct (Z.ltb_spec (zlen data) 4); [lia|].
  assert (u32_at data 0 = n) as ->.
  { apply (at_pos_u32 data 0 n (batch_bytes encs)); [unfold in_u32, u32_max; lia|apply at_pos_start]. }
  destruct (Z.ltb_spec MAX_BLOCKS_PER_BATCH n); [unfold MAX_BLOCKS_PER_BATCH in *; lia|].
  assert (take (Z.to_nat n) blocks = take (Z.to_nat MAX_BLOCKS_PER_BATCH) blocks) as Ht.
  { unfold n, MAX_BLOCKS_PER_BATCH in *. destruct (decide (zlen blocks ≤ 64)) as [Hle|Hgt].
    - rewrite !take_ge by (unfold zlen in *; lia). done.
    - f_equal. lia. }
  pose proof (parse_blocks_batch (take (Z.to_nat n) blocks) encs 0 data 4 [] []) as Hp.
  unfold n in Hp. rewrite take_batch_len in Hp. fold n in Hp. rewrite Hp.
  - cbn [rbind app]. rewrite Hd, Z.eqb_refl, Ht. done.
  - by apply Forall_take.
  - done.
  - rewrite app_nil_r. pose proof (at_pos_advance data 0 (to_be_bytes_u32 n) (batch_bytes encs)) as Hat.
    rewrite zlen_be_u32 in Hat. apply Hat, at_pos_start.
  - done.
Qed.

Lemma predecode_get_blocks h : in_u64 h → predecode_inbound_app_payload (wire_encode_get_blocks h) = Ok (PdGetBlocks h).
Proof.
  intros Hh. unfold wire_encode_get_blocks, predecode_inbound_app_payload. cbn [app].
  change (byte_to_Z (byte_of_Z OP_GET_BLOCKS)) with OP_GET_BLOCKS. cbn.
  assert (zlen (byte_of_Z OP_GET_BLOCKS :: to_be_bytes_u64 h) = 9) as ->.
  { unfold zlen, to_be_bytes_u64. cbn [length]. by rewrite length_be_bytes. }
  cbn. by rewrite be_combine_u64.
Qed.

Lemma predecode_tx t data :
  wf_tx t → encode_transaction t = Some data → predecode_inbound_app_payload ([byte_of_Z OP_TX] ++ data) = Ok (PdTx t).
Proof.
  intros Ht Hd. unfold predecode_inbound_app_payload. cbn [app]. change (byte_to_Z (byte_of_Z OP_TX) =? OP_TX) with true. cbv iota.
  by rewrite (decode_encode_transaction _ _ Ht Hd).
Qed.

Lemma predecode_block b data :
  wf_block b → encode_block b = Some data → predecode_inbound_app_payload ([byte_of_Z OP_BLOCK] ++ data) = Ok (PdBlock b).
Proof.
  intros Hb Hd. unfold predecode_inbound_app_payload. cbn [app]. change (byte_to_Z (byte_of_Z OP_BLOCK) =? OP_TX) with false.
  change (byte_to_Z (byte_of_Z OP_BLOCK) =? OP_BLOCK) with true. cbv iota. by rewrite (decode_encode_block _ _ Hb Hd).
Qed.

(** What one node sends, another understands: a request for blocks, a
    transaction and a block arrive as they were sent, and a reply to a block
    request carries exactly the first 64 requested blocks, in a frame that
    fits the receiver's limit and is read back from the stream whole, whatever
    follows it. *)
Theorem wire_messages_roundtrip h t tdata b bdata blocks out rest fin :
  in_u64 h → wf_tx t → encode_transaction t = Some tdata → wf_block b → encode_block b = Some bdata →
  Forall wf_block blocks → wire_encode_blocks_response blocks = Ok out →
  predecode_inbound_app_payload (wire_encode_get_blocks h) = Ok (PdGetBlocks h)
  ∧ predecode_inbound_app_payload ([byte_of_Z OP_TX] ++ tdata) = Ok (PdTx t)
  ∧ predecode_inbound_app_payload ([byte_of_Z OP_BLOCK] ++ bdata) = Ok (PdBlock b)
  ∧ write_framed out (mkStream [] fin [] []) = (Ok tt, mkStream [] fin (wire_frame out) [])
  ∧ read_framed (mkStream (wire_frame out ++ rest) fin [] []) = (Ok out, mkStream rest fin [] [])
  ∧ wire_decode_blocks_response out = Ok (take (Z.to_nat MAX_BLOCKS_PER_BATCH) blocks).
Proof.
  intros Hh Ht Htd Hb Hbd Hwf Henc. destruct (blocks_response_roundtrip blocks out Hwf Henc) as [Hdec Hlen].
  split_and!; [by apply predecode_get_blocks|by apply predecode_tx|by apply predecode_block|by apply write_framed_ok|by apply read_framed_app|done].
Qed.

(** ** Hostile input *)

Lemma predecode_no_panic payload : predecode_inbound_app_payload payload ≠ Panic.
Proof.
  unfold predecode_inbound_app_payload. destruct payload as [|o rest]; [done|].
  pose proof (decode_transaction_no_panic rest). pose proof (decode_block_no_panic rest).
  repeat case_match; try done; apply rbind_no_panic; (auto with no_panic; done).
Qed.

Lemma parse_blocks_no_panic k i data pos out : parse_blocks_from k i data pos out ≠ Panic.
Proof.
  revert i pos out. induction k as [|k IH]; intros i pos out; [done|]. cbn [parse_blocks_from].
  repeat (case_match; [done|]). apply rbind_no_panic; [apply map_err_no_panic, decode_block_no_panic|]. intros b. apply IH.
Qed.

Lemma wire_decode_no_panic payload : wire_decode_blocks_response payload ≠ Panic.
Proof.
  unfold wire_decode_blocks_response, parse_op_blocks_body. destruct payload as [|o rest]; [done|].
  repeat (case_match; try done). apply rbind_no_panic; [apply parse_blocks_no_panic|]. intros [l p]. by case_match.
Qed.

(** The block was decoded from some bytes. *)
Definition decoded (b : Block) : Prop := ∃ data, decode_block data = Ok b.

(** A decoded batch holds at most the allowed number of blocks, all of them
    decoded from the payload. *)
Lemma parse_blocks_sound k i data pos out res p :
  parse_blocks_from k i data pos out = Ok (res, p) → Forall decoded out →
  Forall decoded res ∧ (length res = length out + k)%nat.
Proof.
  revert i pos out. induction k as [|k IH]; intros i pos out; cbn [parse_blocks_from].
  { intros [= <- _] Hw. split; [done|lia]. }
  repeat (case_match; [done|]). unfold rbind. destruct (decode_block _) as [b| |] eqn:Hb; [|done..]. cbn [map_err].
  intros Hr Hw. destruct (IH _ _ _ Hr) as [? Hl]; [apply Forall_app; split; [done|]; constructor; [by eexists|done]|].
  split; [done|]. rewrite Hl, length_app. simpl. lia.
Qed.

Lemma wire_decode_sound payload blocks :
  wire_decode_blocks_response payload = Ok blocks →
  Forall decoded blocks ∧ zlen blocks ≤ MAX_BLOCKS_PER_BATCH.
Proof.
  unfold wire_decode_blocks_response, parse_op_blocks_body. destruct payload as [|o rest]; [done|].
  destruct (byte_to_Z o =? OP_BLOCKS); [|done]. destruct (zlen rest <? 4); [done|].
  destruct (Z.ltb_spec MAX_BLOCKS_PER_BATCH (u32_at rest 0)); [done|].
  unfold rbind. destruct (parse_blocks_from _ _ _ _ _) as [[res p]| |] eqn:Hp; [|done..].
  destruct (negb _); [done|]. intros [= <-]. destruct (parse_blocks_sound _ _ _ _ _ _ _ Hp) as [Hw Hl]; [constructor|].
  split; [done|]. unfold zlen. rewrite Hl. unfold u32_at in *. pose proof (be_combine_range (byte_slice rest 0 (0 + 4))). simpl length. lia.
Qed.

Lemma predecode_wf payload d :
  predecode_inbound_app_payload payload = Ok d →
  match d with PdTx t => wf_tx t | PdBlock b => wf_block b | PdGetBlocks h => in_u64 h end.
Proof.
  unfold predecode_inbound_app_payload. destruct payload as [|o rest]; [done|].
  destruct (byte_to_Z o =? OP_TX).
  { unfold rbind. destruct (decode_transaction rest) as [t| |] eqn:Ht; [|done..]. intros [= <-].
    by apply decode_transaction_ok in Ht as [[? _] _]. }
  destruct (byte_to_Z o =? OP_BLOCK).
  { unfold rbind. destruct (decode_block rest) as [b| |] eqn:Hb; [|done..]. intros [= <-].
    by apply encode_decode_block in Hb as [? _]. }
  destruct (byte_to_Z o =? OP_GET_BLOCKS); [|by case_match].
  destruct (Z.eqb_spec (zlen (o :: rest)) (1 + 8)) as [Hz|]; [|done]. cbn [negb]. intros [= <-].
  apply be_combine_in_u64. unfold zlen in Hz. simpl in Hz. lia.
Qed.
