(* ===== verification/Node.v ===== *)
(** * The node under its lock ([network.rs], [NodeInner])

    What one decoded peer message does to the node: the chain in memory, the
    store on disk, the pool. [node_inv] ties memory to disk; every step here
    preserves it whatever the file system does. Messages printed for the
    operator are left out. *)

From Stdlib Require Import ZArith Lia.
From stdpp Require Import base strings list gmap.
From S2P Require Import Prelude Bytes Io Crypto Transaction Block Encoding Genesis Ledger Mempool MempoolQueue Blockchain Storage StorageSpec Seen PeerBook Wire.

Inductive NetworkBlockPersistFailure :=
| StorePoisoned
| PeerRejectedBlock (detail : string)
| MissingTipAfterApply
| PersistAfterApply (io_detail : string)
| RollbackFailed (persist_detail rollback_detail : string).

Definition counts_toward_invalid_block_budget (f : NetworkBlockPersistFailure) : bool :=
  match f with PeerRejectedBlock _ => true | _ => false end.

Definition NetworkBlockPersistFailure_display (f : NetworkBlockPersistFailure) : string :=
  match f with
  | StorePoisoned => PFX_STORAGE +:+ " fail-closed: store poisoned after a prior append/sync failure — refusing further appends in this process; restart after repairing chain.blocks"
  | PeerRejectedBlock detail => detail
  | MissingTipAfterApply => "missing tip after append"
  | PersistAfterApply io_detail => PFX_STORAGE +:+ " persist block failed: " +:+ io_detail
      +:+ " — chain.blocks may be partial; store is fail-closed for this process until restart"
  | RollbackFailed persist_detail rollback_detail => "FATAL: persist failed: " +:+ persist_detail
      +:+ "; chain rollback failed: " +:+ rollback_detail
      +:+ " (disk and memory may disagree — stop the node and repair chain.blocks)"
  end.

Record InboundPeerPolicy := mkInboundPolicy {
  max_concurrent_sessions : Z;
  idle_read_timeout : Z;
  write_timeout : option Z;
  max_protocol_errors_per_session : Z;
  max_app_frames_per_session : Z;
  max_invalid_network_blocks_per_session : Z;
  max_stale_decoded_blocks_per_session : Z;
  max_inbound_tx_per_session : Z
}.

Definition InboundPeerPolicy_default : InboundPeerPolicy :=
  mkInboundPolicy 128 120 (Some 60) 32 100000 24 8192 100000.

Record NodeInner := mkNode {
  ni_genesis : Genesis;
  ni_chain : Blockchain;
  ni_pool : Mempool;
  ni_store : BlockStore;
  ni_seen_tx : SeenCache;
  ni_seen_block : SeenCache;
  ni_peer_book : PeerBook
}.

Definition set_chain (n : NodeInner) (c : Blockchain) : NodeInner :=
  mkNode (ni_genesis n) c (ni_pool n) (ni_store n) (ni_seen_tx n) (ni_seen_block n) (ni_peer_book n).
Definition set_pool (n : NodeInner) (m : Mempool) : NodeInner :=
  mkNode (ni_genesis n) (ni_chain n) m (ni_store n) (ni_seen_tx n) (ni_seen_block n) (ni_peer_book n).
Definition set_store (n : NodeInner) (st : BlockStore) : NodeInner :=
  mkNode (ni_genesis n) (ni_chain n) (ni_pool n) st (ni_seen_tx n) (ni_seen_block n) (ni_peer_book n).

Definition for_tests (genesis : Genesis) (chain : Blockchain) (pool : Mempool) (store : BlockStore) :
    Res string NodeInner :=
  Ok (mkNode genesis chain pool store (SeenCache_new (Z.to_nat 50000)) (SeenCache_new (Z.to_nat 50000)) PeerBook_default).

Section node.
Context `{CryptoLib}.

Definition append_network_block_persist (block : Block) (now_unix : Z) :
    ST (NodeInner * Disk) NetworkBlockPersistFailure unit := λ '(n, d),
  if bs_poisoned (ni_store n) then (Err StorePoisoned, (n, d))
  else
    match try_append_network_block block now_unix (ni_chain n) with
    | (Panic, c) => (Panic, (set_chain n c, d))
    | (Err e, c) => (Err (PeerRejectedBlock (ProtocolError_display e)), (set_chain n c, d))
    | (Ok _, c) =>
      match last (bc_blocks c) with
      | None => (Err MissingTipAfterApply, (set_chain n c, d))
      | Some tip =>
        match store_append_block tip (ni_store n, d) with
        | (Ok _, (st, d')) => (Ok tt, (set_store (set_chain n c) st, d'))
        | (Panic, (st, d')) => (Panic, (set_store (set_chain n c) st, d'))
        | (Err e, (st, d')) =>
          let persist_detail := IoError_display e in
          match rollback_last_block (ni_genesis n) c with
          | (Ok _, c') => (Err (PersistAfterApply persist_detail), (set_store (set_chain n c') st, d'))
          | (Err r, c') =>
            (Err (RollbackFailed persist_detail (ProtocolError_display r)), (set_store (set_chain n c') st, d'))
          | (Panic, c') => (Panic, (set_store (set_chain n c') st, d'))
          end
        end
      end
    end.

Definition mempool_hygiene_after_ledger_advance (n : NodeInner) : (nat * nat * nat) * NodeInner :=
  let '(counts, pool) := hygiene_vs_committed_ledger (bc_state (ni_chain n)) (ni_pool n) in
  (counts, set_pool n pool).

(** The two counters of a session that [apply_predecoded] updates: invalid
    block strikes and stale decoded blocks. *)
Definition apply_predecoded (decoded : PredecodedInbound) (now_unix : Z) (policy : InboundPeerPolicy) :
    ST (NodeInner * Disk * (Z * Z)) PeerFrameError (option (list byte)) := λ '(n, d, (strikes, stale)),
  if bs_poisoned (ni_store n)
  then (Err (LocalFatal (PFX_STORAGE +:+ " fail-closed: store poisoned after write failure — closing peer session; repair chain.blocks and restart")),
        (n, d, (strikes, stale)))
  else
    match decoded with
    | PdTx tx =>
      let '(r, pool) := try_submit tx (ni_pool n) in
      match r with
      | Panic => (Panic, (set_pool n pool, d, (strikes, stale)))
      | _ => (Ok None, (set_pool n pool, d, (strikes, stale)))
      end
    | PdBlock block =>
      let local_tip := height (ni_chain n) in
      if blk_height block <=? local_tip then
        let stale := saturating_add32 stale 1 in
        if max_stale_decoded_blocks_per_session policy <? stale
        then (Err (StaleBlockIngressQuotaExhausted (max_stale_decoded_blocks_per_session policy)),
              (n, d, (strikes, stale)))
        else (Ok None, (n, d, (strikes, stale)))
      else
        match append_network_block_persist block now_unix (n, d) with
        | (Ok _, (n', d')) => (Ok None, ((mempool_hygiene_after_ledger_advance n').2, d', (strikes, stale)))
        | (Panic, (n', d')) => (Panic, (n', d', (strikes, stale)))
        | (Err failure, (n', d')) =>
          if counts_toward_invalid_block_budget failure then
            let strikes := saturating_add32 strikes 1 in
            if max_invalid_network_blocks_per_session policy <=? strikes
            then (Err (InvalidBlockBudgetExhausted (max_invalid_network_blocks_per_session policy)),
                  (n', d', (strikes, stale)))
            else (Ok None, (n', d', (strikes, stale)))
          else (Err (LocalFatal (NetworkBlockPersistFailure_display failure)), (n', d', (strikes, stale)))
        end
    | PdGetBlocks start_height =>
      let slice := blocks_from_height_limited (ni_chain n) start_height (Z.to_nat MAX_BLOCKS_PER_BATCH) in
      match wire_encode_blocks_response slice with
      | Ok encoded => (Ok (Some encoded), (n, d, (strikes, stale)))
      | Err e => (Err (Protocol (invalid_data e)), (n, d, (strikes, stale)))
      | Panic => (Panic, (n, d, (strikes, stale)))
      end
    end.
End node.

(** ** Memory and disk *)

Section node_props.
Context `{CryptoLaws}.

(** A sound pool of transactions with fields of the types the code has. *)
Definition pool_ok (m : Mempool) : Prop := mp_inv m ∧ Forall wf_tx (clone_fifo m).

(** While the store is healthy its file holds exactly the blocks of the chain
    above genesis. *)
Record node_inv (n : NodeInner) (d : Disk) : Prop := {
  nv_genesis : wf_genesis (ni_genesis n);
  nv_chain : chain_inv (ni_genesis n) (ni_chain n);
  nv_pool : pool_ok (ni_pool n);
  nv_disk : bs_poisoned (ni_store n) = false →
    ∃ ps, store_holds (ni_store n) (d_files d) ps ∧ Forall2 stored_as ps (drop 1 (bc_blocks (ni_chain n)))
}.

Lemma network_append_cases b now c :
  (∃ tip s', last (bc_blocks c) = Some tip ∧ extends (bc_consensus c) tip b
     ∧ apply_transactions (blk_transactions b) (bc_state c) = (Ok tt, s')
     ∧ try_append_network_block b now c = (Ok tt, mkBlockchain (bc_blocks c ++ [b]) s' (bc_consensus c)))
  ∨ ((try_append_network_block b now c).1 ≠ Ok tt ∧ (try_append_network_block b now c).2 = c).
Proof.
  unfold try_append_network_block, sbind, sget, slift.
  destruct (validate_block_vs_local_time _ _ _) as [[]| |]; [|by right..].
  destruct (append_block_cases b c) as [(tip&s'&?)|(?&?&_)]; [left; eauto|by right].
Qed.

Lemma rollback_after_append g c b s' :
  chain_inv g c → chain_inv g (mkBlockchain (bc_blocks c ++ [b]) s' (bc_consensus c)) →
  rollback_last_block g (mkBlockchain (bc_blocks c ++ [b]) s' (bc_consensus c)) = (Ok tt, c).
Proof.
  intros Hi Hi'. destruct (chain_last g c Hi) as (tip&_&_&Hpos&_).
  destruct (rollback_last_block_spec g _ Hi') as (s&Hs&->); [cbn [bc_blocks]; rewrite length_app; simpl; lia|].
  cbn [bc_blocks bc_consensus] in *. rewrite length_app, take_app_le in * by (simpl; lia).
  replace (length (bc_blocks c) + length [b] - 1)%nat with (length (bc_blocks c)) in * by (simpl; lia).
  rewrite firstn_all in *. rewrite (ci_replay _ _ Hi) in Hs. injection Hs as <-. by destruct c.
Qed.

(** A store call for a block: done, refused, or failed. *)
Lemma store_append_cases st d b e ps :
  store_holds st (d_files d) ps → encode_block b = Some e →
  (∃ st' d', store_append_block b (st, d) = (Ok tt, (st', d')) ∧ store_holds st' (d_files d') (ps ++ [e])
     ∧ zlen e ≤ MAX_FRAME_BYTES)
  ∨ ∃ err st' d', store_append_block b (st, d) = (Err err, (st', d'))
      ∧ (bs_poisoned st' = true ∨ (st' = st ∧ d' = d)).
Proof.
  intros Hh He. unfold store_append_block, sbind, slift. rewrite He. cbn [expect].
  pose proof Hh as [Hpo Hf _ _]. destruct (decide (zlen e ≤ MAX_FRAME_BYTES)) as [Hle|Hgt].
  - destruct (append_payload_bytes st d e _ Hpo Hle Hf) as (k&d'&r&st'&Heq&_&Hr). rewrite Heq.
    destruct Hr as [(->&_&_)|[[err ->] Hp]]; [left|right; eauto 8].
    eexists _, _. split; [done|]. split; [|done]. by eapply store_holds_append.
  - right. unfold append_payload. rewrite Hpo. destruct (u32_max <? zlen e); [eauto 8|].
    destruct (Z.ltb_spec MAX_FRAME_BYTES (zlen e)); [eauto 8|lia].
Qed.

(** What persisting a network block may result in. *)
Definition persist_post (b : Block) (n : NodeInner) (d : Disk)
    (res : Res NetworkBlockPersistFailure unit * (NodeInner * Disk)) : Prop :=
  let '(r, (n', d')) := res in
  node_inv n' d' ∧ ni_pool n' = ni_pool n
  ∧ match r with
    | Ok _ => bc_blocks (ni_chain n') = bc_blocks (ni_chain n) ++ [b] ∧ bs_poisoned (ni_store n') = false
    | Err (PeerRejectedBlock _) | Err StorePoisoned => n' = n ∧ d' = d
    | Err (PersistAfterApply _) =>
      ni_chain n' = ni_chain n ∧ (bs_poisoned (ni_store n') = true ∨ ni_store n' = ni_store n ∧ d' = d)
    | Err MissingTipAfterApply | Err (RollbackFailed _ _) | Panic => False
    end.

Lemma append_persist_spec n d b data now :
  node_inv n d → decode_block data = Ok b →
  persist_post b n d (append_network_block_persist b now (n, d)).
Proof.
  intros Hi Hdec. pose proof Hdec as [Hwf Henc]%encode_decode_block. pose proof Hi as [Hg Hc Hp Hd].
  unfold append_network_block_persist, persist_post. destruct (bs_poisoned (ni_store n)) eqn:Hpo; [done|].
  destruct (network_append_cases b now (ni_chain n)) as [(tip&s'&Hl&Hext&Ha&Heq)|[Hr Hsame]].
  2: { pose proof (network_append_no_panic b now (ni_chain n)) as Hnp.
       destruct (try_append_network_block b now (ni_chain n)) as [[[]|e|] c]; [done| |done]. cbn [snd] in Hsame. subst c.
       assert (set_chain n (ni_chain n) = n) as -> by (by destruct n). done. }
  rewrite Heq. cbn [bc_blocks]. rewrite last_snoc.
  assert (chain_inv (ni_genesis n) (mkBlockchain (bc_blocks (ni_chain n) ++ [b]) s' (bc_consensus (ni_chain n)))) as Hc'.
  { apply chain_inv_snoc; eauto. by eapply extends_nonzero. }
  destruct (Hd eq_refl) as (ps&Hh&Hps).
  destruct (store_append_cases (ni_store n) d b data ps Hh Henc) as [(st'&d'&->&Hh'&Hlen)|(err&st'&d'&->&Hst)].
  - destruct (chain_last _ _ Hc) as (_&_&_&Hpos&_). split_and!; [split; cbn; [done..|]|done|done|apply Hh'].
    intros _. exists (ps ++ [data]). split; [done|]. rewrite drop_app_le by lia. apply Forall2_app; [done|]. by constructor.
  - rewrite rollback_after_append by done. split_and!; [split; cbn; [done..|]|done|done|].
    + intros Hpo'. destruct Hst as [Hst|[-> ->]]; [congruence|]. by apply Hd.
    + cbn. destruct Hst as [?|[-> ->]]; [by left|by right].
Qed.

(** ** What a node never changes *)

Definition same_home (n n' : NodeInner) : Prop :=
  ni_genesis n' = ni_genesis n ∧ bs_path (ni_store n') = bs_path (ni_store n) ∧ ni_peer_book n' = ni_peer_book n.

#[export] Instance same_home_preorder : PreOrder same_home.
Proof. split; [done|]. intros n1 n2 n3 (H1&H2&H3) (H4&H5&H6). split_and!; congruence. Qed.

Lemma append_payload_path p st d : bs_path (append_payload p (st, d)).2.1 = bs_path st.
Proof.
  unfold append_payload. do 3 (case_match; [done|]). unfold append_frame, sbind, sget, sput, sret, on_disk. cbn [fst].
  repeat (case_match; simplify_eq/=); done.
Qed.

Lemma store_append_path b st d : bs_path (store_append_block b (st, d)).2.1 = bs_path st.
Proof. unfold store_append_block, sbind, slift. destruct (encode_block b); [apply append_payload_path|done]. Qed.

Lemma append_persist_home b now n d : same_home n (append_network_block_persist b now (n, d)).2.1.
Proof.
  unfold append_network_block_persist. case_match; [done|]. destruct (try_append_network_block _ _ _) as [[[]| |] c]; [|done..].
  destruct (last (bc_blocks c)) as [tip|]; [|done]. pose proof (store_append_path tip (ni_store n) d) as Hs.
  destruct (store_append_block tip (ni_store n, d)) as [[[]| |] [st d']]; cbn [fst snd] in Hs; [done| |done].
  by destruct (rollback_last_block _ c) as [[[]| |] c'].
Qed.

Lemma hygiene_home n : same_home n (mempool_hygiene_after_ledger_advance n).2.
Proof. unfold mempool_hygiene_after_ledger_advance. by destruct (hygiene_vs_committed_ledger _ _). Qed.

(** C11: a block from the network reaches memory and disk together, or
    neither. For a block that came from the wire, on a node whose file holds
    its chain: on success the chain and the file both end in that block; when
    the chain refuses it, or the store is poisoned, nothing changes; when the
    file system fails, the chain is rolled back exactly and the store is
    poisoned, or untouched if the block was too large for it. The internal
    failures (no tip, failed rollback, panic) cannot happen, and the node
    invariant is preserved in every case. *)
Theorem network_block_atomic n d b data now :
  node_inv n d → decode_block data = Ok b →
  let '(r, (n', d')) := append_network_block_persist b now (n, d) in
  node_inv n' d' ∧ ni_pool n' = ni_pool n
  ∧ match r with
    | Ok _ => bc_blocks (ni_chain n') = bc_blocks (ni_chain n) ++ [b] ∧ bs_poisoned (ni_store n') = false
    | Err (PeerRejectedBlock _) | Err StorePoisoned => n' = n ∧ d' = d
    | Err (PersistAfterApply _) =>
      ni_chain n' = ni_chain n ∧ (bs_poisoned (ni_store n') = true ∨ ni_store n' = ni_store n ∧ d' = d)
    | Err MissingTipAfterApply | Err (RollbackFailed _ _) | Panic => False
    end.
Proof. exact (append_persist_spec n d b data now). Qed.

(** ** One message *)

Lemma try_submit_no_panic tx m : mp_inv m → (try_submit tx m).1 ≠ Panic.
Proof.
  intros Hi. destruct (try_submit_implements tx m Hi) as [-> _]. unfold q_admit.
  pose proof (tx_basic_validate_no_panic tx). by repeat case_match.
Qed.

Lemma chain_encodable n d b :
  node_inv n d → bs_poisoned (ni_store n) = false → b ∈ bc_blocks (ni_chain n) → is_Some (encode_block b).
Proof.
  intros Hi Hpo Hb. destruct (nv_disk _ _ Hi Hpo) as (ps&_&Hps). pose proof (ci_genesis _ _ (nv_chain _ _ Hi)) as Hg.
  destruct (bc_blocks (ni_chain n)) as [|b0 bs]; [done|]. injection Hg as ->. simpl in Hps. rewrite drop_0 in Hps.
  apply elem_of_cons in Hb as [->|Hb]; [by vm_compute; eexists|].
  apply list_elem_of_lookup in Hb as [i Hi']. destruct (Forall2_lookup_r _ _ _ _ _ Hps Hi') as (p&_&[Hd _]).
  apply encode_decode_block in Hd as [_ He]. by exists p.
Qed.

Lemma encode_response_no_panic out blocks :
  (∀ b, b ∈ blocks → is_Some (encode_block b)) → encode_response_blocks out blocks ≠ Panic.
Proof.
  revert out. induction blocks as [|b blocks IH]; intros out Hb; [done|]. cbn [encode_response_blocks].
  destruct (Hb b) as [e ->]; [left|]. cbn [expect rbind]. repeat (case_match; [done|]).
  apply IH. intros x Hx. apply Hb. by right.
Qed.

Lemma blocks_response_no_panic n d h :
  node_inv n d → bs_poisoned (ni_store n) = false →
  wire_encode_blocks_response (blocks_from_height_limited (ni_chain n) h (Z.to_nat MAX_BLOCKS_PER_BATCH)) ≠ Panic.
Proof.
  intros Hi Hpo. apply encode_response_no_panic. intros b Hb%subseteq_take.
  apply (chain_encodable n d); [done..|]. unfold blocks_from_height_limited in Hb. simpl in Hb.
  apply subseteq_take in Hb. by apply list_elem_of_filter in Hb as [_ ?].
Qed.

Lemma pool_ok_new c : pool_ok (Mempool_new c).
Proof. split; [apply mp_inv_new|]. by apply Forall_nil. Qed.

Lemma pool_ok_implements m q : implements m q → Forall wf_tx (q_txs q) → pool_ok m.
Proof. by intros [Hm <-] Hq. Qed.

Lemma pool_ok_sublist m q : pool_ok m → ∀ m', implements m' q → q_txs q `sublist_of` clone_fifo m → pool_ok m'.
Proof. intros [_ Hf] m' Hm' Hs. eapply pool_ok_implements; [done|]. by eapply Forall_sublist. Qed.

Lemma pool_ok_submit tx m : pool_ok m → wf_tx tx → pool_ok (try_submit tx m).2.
Proof.
  intros [Hm Hf] Ht. destruct (try_submit_implements tx m Hm) as [_ Hi]. eapply pool_ok_implements; [done|].
  unfold q_admit. destruct (tx_basic_validate tx); [|done..]. destruct (existsb _ _); [done|]. destruct (existsb _ _); [done|].
  unfold q_evicting. destruct (Nat.ltb _ _); [|destruct (Nat.eqb _ 0); [done|]]; cbn [snd mp_abs q_txs]; apply Forall_app.
  - split; [done|by constructor].
  - split; [by apply Forall_tail|by constructor].
Qed.

Lemma pool_ok_hygiene s m : pool_ok m → pool_ok (hygiene_vs_committed_ledger s m).2.
Proof.
  intros Hok. pose proof Hok as [Hm _]. destruct (hygiene_implements s m Hm) as [_ Hi].
  eapply pool_ok_sublist; [done..|]. cbn [q_hygiene snd q_txs mp_abs].
  etrans; [apply sublist_filter|]. destruct (drop_while_suffix (λ t, head_drops t s) (clone_fifo m)) as [k Hk].
  rewrite Hk at 2. by apply sublist_inserts_l.
Qed.

Lemma node_inv_pool n d m : node_inv n d → pool_ok m → node_inv (set_pool n m) d.
Proof. intros [Hg Hc _ Hd] Hm. by split. Qed.

Lemma hygiene_inv n d : node_inv n d → node_inv (mempool_hygiene_after_ledger_advance n).2 d.
Proof.
  intros Hi. unfold mempool_hygiene_after_ledger_advance.
  pose proof (pool_ok_hygiene (bc_state (ni_chain n)) (ni_pool n) (nv_pool _ _ Hi)) as Hm.
  destruct (hygiene_vs_committed_ledger _ _) as [k m]. by apply node_inv_pool.
Qed.

Lemma hygiene_chain n : ni_chain (mempool_hygiene_after_ledger_advance n).2 = ni_chain n.
Proof. unfold mempool_hygiene_after_ledger_advance. by destruct (hygiene_vs_committed_ledger _ _). Qed.

(** The message came from the wire. *)
Definition from_wire (decoded : PredecodedInbound) : Prop :=
  ∃ payload, predecode_inbound_app_payload payload = Ok decoded.

Lemma from_wire_block b : from_wire (PdBlock b) → ∃ data, decode_block data = Ok b.
Proof.
  intros [[|o rest] Hp]; [done|]. unfold predecode_inbound_app_payload, rbind in Hp.
  destruct (byte_to_Z o =? OP_TX); [by destruct (decode_transaction rest)|].
  destruct (byte_to_Z o =? OP_BLOCK); [|by repeat case_match]. destruct (decode_block rest) as [b'| |] eqn:Hb; [|done..].
  injection Hp as <-. eauto.
Qed.

Lemma from_wire_tx t : from_wire (PdTx t) → wf_tx t.
Proof.
  intros [[|o rest] Hp]; [done|]. unfold predecode_inbound_app_payload, rbind in Hp.
  destruct (byte_to_Z o =? OP_TX).
  - destruct (decode_transaction rest) as [t'| |] eqn:Ht; [|done..]. injection Hp as <-.
    apply decode_transaction_ok in Ht as [[? _] _]. done.
  - destruct (byte_to_Z o =? OP_BLOCK); [by destruct (decode_block rest)|by repeat case_match].
Qed.

(** One message keeps the invariant, never panics, and only extends the chain. *)
Lemma apply_predecoded_spec decoded now policy n d k :
  node_inv n d → from_wire decoded →
  let '(r, (n', d', k')) := apply_predecoded decoded now policy (n, d, k) in
  node_inv n' d' ∧ r ≠ Panic ∧ bc_blocks (ni_chain n) `prefix_of` bc_blocks (ni_chain n').
Proof.
  intros Hi Hw. destruct k as [strikes stale]. unfold apply_predecoded.
  destruct (bs_poisoned (ni_store n)) eqn:Hpo; [done|]. destruct decoded as [tx|b|h].
  - pose proof (try_submit_no_panic tx (ni_pool n) (proj1 (nv_pool _ _ Hi))) as Hnp.
    pose proof (pool_ok_submit tx (ni_pool n) (nv_pool _ _ Hi) (from_wire_tx tx Hw)) as Hm.
    destruct (try_submit tx (ni_pool n)) as [r pool]. cbn [fst snd] in *.
    destruct r; [|by split; [apply node_inv_pool|]|done]. by split; [apply node_inv_pool|].
  - destruct (blk_height b <=? height (ni_chain n)); [by destruct (_ <? _)|].
    destruct (from_wire_block b Hw) as [data Hdec]. pose proof (append_persist_spec n d b data now Hi Hdec) as Hp.
    destruct (append_network_block_persist b now (n, d)) as [r [n' d']]. destruct Hp as (Hi'&_&Hr). destruct r as [[]|f|]; [| |done].
    + split; [by apply hygiene_inv|]. split; [done|]. rewrite hygiene_chain. destruct Hr as [-> _]. by apply prefix_app_r.
    + assert (bc_blocks (ni_chain n) `prefix_of` bc_blocks (ni_chain n')) as Hpre.
      { destruct f; [by destruct Hr as [-> _]..|done|by destruct Hr as [-> _]|done]. }
      destruct (counts_toward_invalid_block_budget f); [destruct (_ <=? _)|]; done.
  - pose proof (blocks_response_no_panic n d h Hi Hpo) as Hnp.
    by destruct (wire_encode_blocks_response _).
Qed.
End node_props.
