(* ===== verification/Session.v ===== *)
(** * Peer sessions and synchronisation ([network.rs])

    The loop that serves one inbound connection, and the catch-up from a peer.
    The node is shared with other threads: whatever they do to it while the
    session does not hold the lock is the function [others], indexed by the
    number of the frame. Connections and clock readings are indexed the same
    way. The session loop ends after at most [MAX_FRAMES_PER_INBOUND_SESSION]
    frames and the synchronisation after [max_rounds_per_call] rounds, so
    these bounds plus one are enough fuel ([session_loop_spec], [sync_loop_spec]).
    No thread panics while it holds the lock, so taking it succeeds. *)

From Stdlib Require Import ZArith Lia.
From stdpp Require Import base strings list gmap.
From S2P Require Import Prelude Bytes Io Crypto Transaction Wallet Block Encoding Genesis Ledger Mempool MempoolQueue Blockchain Storage StorageSpec Seen PeerBook Wire Node.

Definition io_err_idle_timeout (e : IoError) : bool :=
  match IoError_kind e with TimedOut | WouldBlock => true | _ => false end.

(** The local variables of the loop. *)
Record Counters := mkCounters {
  cn_protocol_errors : Z;
  cn_app_frames : Z;
  cn_strikes : Z;
  cn_stale : Z;
  cn_tx : Z;
  cn_frames_seen : Z
}.

Definition counters_zero : Counters := mkCounters 0 0 0 0 0 0.

Section session.
Context `{CryptoLib}.

Definition peer_session_setup (n : NodeInner) : ST Stream IoError unit :=
  if bs_poisoned (ni_store n)
  then sfail (mkIoError Other (PFX_STORAGE +:+ " fail-closed: store poisoned — refusing new inbound session until restart"))
  else handshake_responder (ni_genesis n) (height (ni_chain n)).

(** Decode a frame, check the transaction quota, apply it under the lock. *)
Definition handle_frame (policy : InboundPeerPolicy) (now : Z) (frame : list byte) (cn : Counters)
    (node : NodeInner * Disk) : Res PeerFrameError (option (list byte)) * Counters * (NodeInner * Disk) :=
  match predecode_inbound_app_payload frame with
  | Err e => (Err e, cn, node)
  | Panic => (Panic, cn, node)
  | Ok decoded =>
    let tx := match decoded with PdTx _ => saturating_add32 (cn_tx cn) 1 | _ => cn_tx cn end in
    let cn := mkCounters (cn_protocol_errors cn) (cn_app_frames cn) (cn_strikes cn) (cn_stale cn) tx (cn_frames_seen cn) in
    let tx_within_quota :=
      match decoded with PdTx _ => tx <=? max_inbound_tx_per_session policy | _ => true end in
    if negb tx_within_quota
    then (Err (InboundTxIngressQuotaExhausted (max_inbound_tx_per_session policy)), cn, node)
    else
      let '(r, (n, d, (strikes, stale))) :=
        apply_predecoded decoded now policy (node.1, node.2, (cn_strikes cn, cn_stale cn)) in
      (r, mkCounters (cn_protocol_errors cn) (cn_app_frames cn) strikes stale tx (cn_frames_seen cn), (n, d))
  end.

(** What the loop does with the outcome: [None] to go on. *)
Definition session_verdict (policy : InboundPeerPolicy) (outcome : PeerFrameError) (cn : Counters) :
    option (Res IoError unit) * Counters :=
  match outcome with
  | InvalidBlockBudgetExhausted m =>
    (Some (Err (invalid_data (INVALID_BLOCK_BUDGET_EXHAUSTED +:+ ": " +:+ PFX_PEER
       +:+ " disconnect — peer exceeded max_invalid_network_blocks_per_session (" +:+ fmt_uint m +:+ ")"))), cn)
  | StaleBlockIngressQuotaExhausted m =>
    (Some (Err (invalid_data (INGRESS_STALE_BLOCK_QUOTA_EXHAUSTED +:+ ": " +:+ PFX_PEER
       +:+ " disconnect — exceeded max_stale_decoded_blocks_per_session (" +:+ fmt_uint m +:+ ")"))), cn)
  | InboundTxIngressQuotaExhausted m =>
    (Some (Err (invalid_data (INGRESS_INBOUND_TX_QUOTA_EXHAUSTED +:+ ": " +:+ PFX_PEER
       +:+ " disconnect — exceeded max_inbound_tx_per_session (" +:+ fmt_uint m +:+ ")"))), cn)
  | LocalFatal msg => (Some (Err (mkIoError Other msg)), cn)
  | Protocol e =>
    let errors := saturating_add32 (cn_protocol_errors cn) 1 in
    let cn := mkCounters errors (cn_app_frames cn) (cn_strikes cn) (cn_stale cn) (cn_tx cn) (cn_frames_seen cn) in
    (if max_protocol_errors_per_session policy <=? errors then Some (Err e) else None, cn)
  end.

(** One turn of the loop. What the other threads do while the session waits for
    the lock is [others]. The first component is [None] when the session goes on. *)
Definition session_iter (policy : InboundPeerPolicy) (others : NodeInner * Disk → NodeInner * Disk) (now : Z)
    (cn : Counters) (s : Stream) (node : NodeInner * Disk) :
    option (Res IoError unit) * Counters * Stream * (NodeInner * Disk) :=
  let seen := saturating_add32 (cn_frames_seen cn) 1 in
  let cn := mkCounters (cn_protocol_errors cn) (cn_app_frames cn) (cn_strikes cn) (cn_stale cn) (cn_tx cn) seen in
  if MAX_FRAMES_PER_INBOUND_SESSION <? seen
  then (Some (Err (invalid_data "inbound framed message limit exceeded")), cn, s, node)
  else
    match read_framed s with
    | (Panic, s') => (Some Panic, cn, s', node)
    | (Err e, s') =>
      match IoError_kind e with
      | UnexpectedEof => (Some (Ok tt), cn, s', node)
      | _ =>
        if io_err_idle_timeout e then (Some (Ok tt), cn, s', node)
        else
          match IoError_kind e with
          | InvalidData =>
            (Some (Err (mkIoError InvalidData (PFX_PEER +:+ " fail-closed: wire frame read rejected — "
                                               +:+ IoError_display e))), cn, s', node)
          | _ => (Some (Err e), cn, s', node)
          end
      end
    | (Ok frame, s') =>
      if u32_max <? cn_app_frames cn + 1 then (Some (Ok tt), cn, s', node)
      else
        let cn := mkCounters (cn_protocol_errors cn) (cn_app_frames cn + 1) (cn_strikes cn) (cn_stale cn) (cn_tx cn)
                    (cn_frames_seen cn) in
        if max_app_frames_per_session policy <? cn_app_frames cn then (Some (Ok tt), cn, s', node)
        else
          let '(outcome, cn, node) := handle_frame policy now frame cn (others node) in
          match outcome with
          | Panic => (Some Panic, cn, s', node)
          | Ok None => (None, cn, s', node)
          | Ok (Some resp) =>
            match write_framed resp s' with
            | (Ok _, s'') => (None, cn, s'', node)
            | (Err e, s'') => (Some (Err e), cn, s'', node)
            | (Panic, s'') => (Some Panic, cn, s'', node)
            end
          | Err pe => let '(verdict, cn) := session_verdict policy pe cn in (verdict, cn, s', node)
          end
    end.

Definition SessionEnd : Type := Res IoError unit * Counters * Stream * (NodeInner * Disk).

Fixpoint session_loop (fuel : nat) (policy : InboundPeerPolicy) (others : nat → NodeInner * Disk → NodeInner * Disk)
    (clock : nat → Z) (cn : Counters) (s : Stream) (node : NodeInner * Disk) : option SessionEnd :=
  match fuel with
  | O => None
  | S f =>
    let i := Z.to_nat (saturating_add32 (cn_frames_seen cn) 1) in
    match session_iter policy (others i) (clock i) cn s node with
    | (Some r, cn, s, node) => Some (r, cn, s, node)
    | (None, cn, s, node) => session_loop f policy others clock cn s node
    end
  end.

Definition session_fuel : nat := S (Z.to_nat MAX_FRAMES_PER_INBOUND_SESSION).

Definition peer_connection_loop (policy : InboundPeerPolicy) (others : nat → NodeInner * Disk → NodeInner * Disk)
    (clock : nat → Z) (s : Stream) (node : NodeInner * Disk) : option SessionEnd :=
  match peer_session_setup node.1 s with
  | (Ok _, s') => session_loop session_fuel policy others clock counters_zero s' node
  | (Err e, s') => Some (Err e, counters_zero, s', node)
  | (Panic, s') => Some (Panic, counters_zero, s', node)
  end.

(** ** Catching up from a peer *)

Record SyncWorkBudget := mkBudget {
  max_rounds_per_call : Z;
  max_blocks_per_call : Z;
  max_wire_bytes_per_call : Z
}.

Definition SyncWorkBudget_default : SyncWorkBudget :=
  mkBudget DEFAULT_SYNC_MAX_ROUNDS_PER_CALL DEFAULT_SYNC_MAX_BLOCKS_PER_CALL DEFAULT_SYNC_MAX_WIRE_BYTES_PER_CALL.

Definition validate_sync_work_budget (budget : SyncWorkBudget) : Res string unit :=
  if max_rounds_per_call budget =? 0
  then Err (PFX_SYNC +:+ " invalid budget: max_rounds_per_call must be >= 1")
  else if max_blocks_per_call budget =? 0
  then Err (PFX_SYNC +:+ " invalid budget: max_blocks_per_call must be >= 1")
  else if max_wire_bytes_per_call budget =? 0
  then Err (PFX_SYNC +:+ " invalid budget: max_wire_bytes_per_call must be >= 1 (use u64::MAX for a practical unlimited cap)")
  else Ok tt.

Record SyncFromPeerOutcome := mkOutcome { blocks_appended : Z; stopped_due_to_budget : bool }.

(** The exchange on an open connection. *)
Definition pull_on_stream (peer : string) (start_height : Z) (local_genesis : Genesis) (local_advisory_height : Z) :
    ST Stream string (list Block * Z) :=
  smap_err (λ e, PFX_SYNC +:+ " session handshake with " +:+ peer +:+ " failed: " +:+ IoError_display e)
    (handshake_initiator local_genesis local_advisory_height) ;;!
  let req := wire_encode_get_blocks start_height in
  smap_err IoError_display (write_framed req) ;;!
  let! resp := smap_err IoError_display read_framed in
  let nbytes := zlen resp in
  let! blocks := slift (wire_decode_blocks_response resp) in
  sret (blocks, nbytes).

(** [conn] is what connecting to the peer gives. *)
Definition pull_blocks_from_peer (conn : Res IoError Stream) (peer : string) (start_height : Z)
    (local_genesis : Genesis) (local_advisory_height : Z) : Res string (list Block * Z) :=
  let? stream := map_err (λ e, PFX_SYNC +:+ " connect " +:+ peer +:+ " failed: " +:+ IoError_display e) conn in
  fst (pull_on_stream peer start_height local_genesis local_advisory_height stream).

(** The loop over one batch: the number of blocks appended so far in the call,
    and whether the block budget stopped it. *)
Fixpoint append_batch (max_blocks : Z) (clock : nat → Z) (bs : list Block) (total : Z) :
    ST (NodeInner * Disk) string (Z * bool) :=
  match bs with
  | [] => sret (total, false)
  | b :: bs' =>
    let now := clock (Z.to_nat total) in
    smap_err NetworkBlockPersistFailure_display (append_network_block_persist b now) ;;!
    let total := total + 1 in
    if max_blocks <=? total then sret (total, true) else append_batch max_blocks clock bs' total
  end.

Fixpoint sync_loop (fuel : nat) (peer : string) (budget : SyncWorkBudget) (conns : nat → Res IoError Stream)
    (clock : nat → Z) (total rounds wire_bytes : Z) (node : NodeInner * Disk) :
    option (Res string (Z * bool) * (NodeInner * Disk)) :=
  match fuel with
  | O => None
  | S f =>
    if max_blocks_per_call budget <=? total then Some (Ok (total, true), node)
    else if max_rounds_per_call budget <=? rounds then Some (Ok (total, true), node)
    else if max_wire_bytes_per_call budget <=? wire_bytes then Some (Ok (total, true), node)
    else
      let height_now := height (ni_chain node.1) in
      let start := saturating_add height_now 1 in
      match pull_blocks_from_peer (conns (Z.to_nat rounds)) peer start (ni_genesis node.1) height_now with
      | Err e => Some (Err e, node)
      | Panic => Some (Panic, node)
      | Ok (blocks, nbytes) =>
        let rounds := saturating_add32 rounds 1 in
        let wire_bytes := saturating_add wire_bytes nbytes in
        if Nat.eqb (length blocks) 0 then Some (Ok (total, false), node)
        else
          match validate_linear_sync_batch (ni_chain node.1) blocks with
          | Err e => Some (Err e, node)
          | Panic => Some (Panic, node)
          | Ok _ =>
            let room := saturating_sub32 (max_blocks_per_call budget) total in
            if room =? 0 then Some (Ok (total, true), node)
            else
              let batch_len := zlen blocks in
              let apply_n := Z.min batch_len room in
              match append_batch (max_blocks_per_call budget) clock (take (Z.to_nat apply_n) blocks) total node with
              | (Err e, node') => Some (Err e, node')
              | (Panic, node') => Some (Panic, node')
              | (Ok (total, stopped), node') =>
                if stopped then Some (Ok (total, true), node')
                else if apply_n <? batch_len then Some (Ok (total, true), node')
                else if max_wire_bytes_per_call budget <? wire_bytes then Some (Ok (total, true), node')
                else sync_loop f peer budget conns clock total rounds wire_bytes node'
              end
          end
      end
  end.

Definition sync_fuel (budget : SyncWorkBudget) : nat := S (Z.to_nat (max_rounds_per_call budget)).

Definition sync_from_peer_with_clock (peer : string) (budget : SyncWorkBudget) (conns : nat → Res IoError Stream)
    (clock : nat → Z) (node : NodeInner * Disk) : option (Res string SyncFromPeerOutcome * (NodeInner * Disk)) :=
  if bs_poisoned (ni_store node.1)
  then Some (Err (PFX_STORAGE +:+ " fail-closed: store poisoned — refusing peer sync; repair chain.blocks and restart"), node)
  else
    match validate_sync_work_budget budget with
    | Err e => Some (Err e, node)
    | Panic => Some (Panic, node)
    | Ok _ =>
      '(r, node') ← sync_loop (sync_fuel budget) peer budget conns clock 0 0 0 node;
      Some (match r with
            | Ok (total, stopped) =>
              (Ok (mkOutcome total stopped),
               if 0 <? total then ((mempool_hygiene_after_ledger_advance node'.1).2, node'.2) else node')
            | Err e => (Err e, node')
            | Panic => (Panic, node')
            end)
    end.

(** ** Gossip *)

(** Handshake and one message, on an open connection. *)
Definition push_on_stream (what peer : string) (local_genesis : Genesis) (local_advisory_height : Z)
    (msg : option (list byte)) : ST Stream string unit :=
  smap_err (λ e, PFX_PEER +:+ " " +:+ what +:+ " session handshake with " +:+ peer +:+ " failed: " +:+ IoError_display e)
    (handshake_initiator local_genesis local_advisory_height) ;;!
  let! m := slift (expect msg) in
  smap_err IoError_display (write_framed m).

(** One message to a peer: connect, handshake, send. *)
Definition push_to_peer (what : string) (conn : Res IoError Stream) (peer : string) (local_genesis : Genesis)
    (local_advisory_height : Z) (msg : option (list byte)) : Res string unit * option Stream :=
  match conn with
  | Err e => (Err (PFX_PEER +:+ " " +:+ what +:+ " connect " +:+ peer +:+ " failed: " +:+ IoError_display e), None)
  | Panic => (Panic, None)
  | Ok stream =>
    let '(r, s) := push_on_stream what peer local_genesis local_advisory_height msg stream in (r, Some s)
  end.

(** The messages that carry a block and a transaction; the encoders panic on
    fields that are too long. *)
Definition block_message (block : Block) : option (list byte) :=
  e ← encode_block block; Some ([byte_of_Z OP_BLOCK] ++ e).

Definition tx_message (tx : Transaction) : option (list byte) :=
  e ← encode_transaction tx; Some ([byte_of_Z OP_TX] ++ e).

Definition push_block_to_peer_with_timeouts (conn : Res IoError Stream) (peer : string) (local_genesis : Genesis)
    (local_advisory_height : Z) (block : Block) : Res string unit * option Stream :=
  push_to_peer "gossip" conn peer local_genesis local_advisory_height (block_message block).

Definition push_tx_to_peer_with_timeouts (conn : Res IoError Stream) (peer : string) (local_genesis : Genesis)
    (local_advisory_height : Z) (tx : Transaction) : Res string unit * option Stream :=
  push_to_peer "push_tx" conn peer local_genesis local_advisory_height (tx_message tx).
End session.

(** ** Limits of a session *)

(** The limits of a policy are [u32] values. *)
Definition policy_wf (p : InboundPeerPolicy) : Prop :=
  in_u32 (max_protocol_errors_per_session p) ∧ in_u32 (max_app_frames_per_session p)
  ∧ in_u32 (max_invalid_network_blocks_per_session p) ∧ in_u32 (max_stale_decoded_blocks_per_session p)
  ∧ in_u32 (max_inbound_tx_per_session p).

(** The counters of a session that may go on ([slack] 1) or has ended
    ([slack] 0). *)
Definition within_limits (p : InboundPeerPolicy) (slack : Z) (cn : Counters) : Prop :=
  0 ≤ cn_protocol_errors cn ∧ cn_protocol_errors cn + slack ≤ Z.max 1 (max_protocol_errors_per_session p)
  ∧ 0 ≤ cn_app_frames cn ∧ cn_app_frames cn + slack ≤ max_app_frames_per_session p + 1
  ∧ 0 ≤ cn_strikes cn ∧ cn_strikes cn + slack ≤ Z.max 1 (max_invalid_network_blocks_per_session p)
  ∧ 0 ≤ cn_stale cn ∧ cn_stale cn + slack ≤ max_stale_decoded_blocks_per_session p + 1
  ∧ 0 ≤ cn_tx cn ∧ cn_tx cn + slack ≤ max_inbound_tx_per_session p + 1
  ∧ 0 ≤ cn_frames_seen cn ∧ cn_frames_seen cn + slack ≤ MAX_FRAMES_PER_INBOUND_SESSION + 1
  ∧ cn_app_frames cn ≤ cn_frames_seen cn.

Lemma u32_room : 10000 ≤ u32_max.
Proof. by vm_compute. Qed.

(** [u32_max] stays folded: it is only compared. *)
Ltac limits :=
  pose proof u32_room;
  unfold within_limits, policy_wf, in_u32, saturating_add32, MAX_FRAMES_PER_INBOUND_SESSION in *;
  cbn [cn_protocol_errors cn_app_frames cn_strikes cn_stale cn_tx cn_frames_seen] in *; lia.

(** Whether a frame's outcome lets the session continue (protocol errors have
    their own budget). *)
Definition goes_on {A} (r : Res PeerFrameError A) : bool :=
  match r with Ok _ | Err (Protocol _) => true | _ => false end.

Section session_props.
Context `{CryptoLaws}.

Lemma apply_predecoded_counters decoded now policy n d strikes stale :
  in_u32 (max_invalid_network_blocks_per_session policy) → in_u32 (max_stale_decoded_blocks_per_session policy) →
  0 ≤ strikes → strikes + 1 ≤ Z.max 1 (max_invalid_network_blocks_per_session policy) →
  0 ≤ stale → stale ≤ max_stale_decoded_blocks_per_session policy →
  let '(r, (_, (strikes', stale'))) := apply_predecoded decoded now policy (n, d, (strikes, stale)) in
  let slack := if goes_on r then 1 else 0 in
  0 ≤ strikes' ∧ strikes' + slack ≤ Z.max 1 (max_invalid_network_blocks_per_session policy)
  ∧ 0 ≤ stale' ∧ stale' + slack ≤ max_stale_decoded_blocks_per_session policy + 1.
Proof.
  intros Hi Hs Hk1 Hk2 Hk3 Hk4. pose proof u32_room. unfold apply_predecoded, saturating_add32, in_u32 in *.
  destruct (bs_poisoned (ni_store n)); [cbn [goes_on]; lia|]. destruct decoded as [tx|b|h].
  - destruct (try_submit tx (ni_pool n)) as [[]]; cbn [goes_on]; lia.
  - destruct (blk_height b <=? height (ni_chain n)).
    { destruct (Z.ltb_spec (max_stale_decoded_blocks_per_session policy) (Z.min (stale + 1) u32_max)); cbn [goes_on]; lia. }
    destruct (append_network_block_persist b now (n, d)) as [[[]|f|] [n' d']]; [cbn [goes_on]; lia| |cbn [goes_on]; lia].
    destruct (counts_toward_invalid_block_budget f); [|cbn [goes_on]; lia].
    destruct (Z.leb_spec (max_invalid_network_blocks_per_session policy) (Z.min (strikes + 1) u32_max)); cbn [goes_on]; lia.
  - destruct (wire_encode_blocks_response _); cbn [goes_on]; lia.
Qed.

Lemma handle_frame_spec policy now frame cn n d :
  policy_wf policy → node_inv n d → within_limits policy 0 cn →
  cn_strikes cn + 1 ≤ Z.max 1 (max_invalid_network_blocks_per_session policy) →
  cn_stale cn ≤ max_stale_decoded_blocks_per_session policy → cn_tx cn ≤ max_inbound_tx_per_session policy →
  let '(r, cn', (n', d')) := handle_frame policy now frame cn (n, d) in
  node_inv n' d' ∧ r ≠ Panic ∧ within_limits policy 0 cn'
  ∧ cn_protocol_errors cn' = cn_protocol_errors cn ∧ cn_app_frames cn' = cn_app_frames cn
  ∧ cn_frames_seen cn' = cn_frames_seen cn
  ∧ (goes_on r = true →
       cn_strikes cn' + 1 ≤ Z.max 1 (max_invalid_network_blocks_per_session policy)
       ∧ cn_stale cn' ≤ max_stale_decoded_blocks_per_session policy ∧ cn_tx cn' ≤ max_inbound_tx_per_session policy).
Proof.
  intros Hpol Hi Hl Hst Hsa Htx. unfold handle_frame. pose proof (predecode_no_panic frame) as Hnp.
  destruct (predecode_inbound_app_payload frame) as [decoded|e|] eqn:Hpre; [|done|done].
  set (tx := match decoded with PdTx _ => saturating_add32 (cn_tx cn) 1 | _ => cn_tx cn end).
  assert (cn_tx cn ≤ tx ≤ max_inbound_tx_per_session policy + 1) as Htx' by (unfold tx; destruct decoded; limits).
  destruct (negb _) eqn:Hq; [split_and!; (done || limits)|].
  assert (tx ≤ max_inbound_tx_per_session policy) as Hquota.
  { unfold tx in *. destruct decoded; [|done..]. apply negb_false_iff, Z.leb_le in Hq. done. }
  cbn [fst snd cn_strikes cn_stale cn_protocol_errors cn_app_frames cn_frames_seen].
  pose proof (apply_predecoded_spec decoded now policy n d (cn_strikes cn, cn_stale cn) Hi (ex_intro _ frame Hpre)) as Hs.
  pose proof (apply_predecoded_counters decoded now policy n d (cn_strikes cn) (cn_stale cn)) as Hc.
  destruct (apply_predecoded decoded now policy (n, d, (cn_strikes cn, cn_stale cn))) as [r [[n' d'] [k1 k2]]].
  destruct Hs as (Hi'&Hr&_). cbn zeta in Hc.
  destruct Hc as (?&?&?&?); [apply Hpol|apply Hpol|apply Hl|done|apply Hl|done|].
  split_and!; [done|done| |done|done|done|].
  - destruct (goes_on r); limits.
  - intros Hg. rewrite Hg in *. cbn. lia.
Qed.

(** A session that ended without panic, within its limits, on a sound node. *)
Definition session_ok (policy : InboundPeerPolicy) (o : option SessionEnd) : Prop :=
  ∃ r cn s n d, o = Some (r, cn, s, (n, d)) ∧ r ≠ Panic ∧ within_limits policy 0 cn ∧ node_inv n d.

Lemma session_ok_end policy r cn s n d :
  r ≠ Panic → within_limits policy 0 cn → node_inv n d → session_ok policy (Some (r, cn, s, (n, d))).
Proof. intros. by exists r, cn, s, n, d. Qed.

Lemma read_framed_no_panic : panic_free read_framed.
Proof. intros s. unfold read_framed, sbind, read_exact, sfail. by repeat case_match. Qed.

Lemma write_framed_no_panic p : panic_free (write_framed p).
Proof.
  unfold write_framed, validate_outbound_framed_payload_len. repeat (apply panic_free_bind; [|intros ?]).
  - apply panic_free_lift. by repeat case_match.
  - intros s. unfold write_stream. by repeat case_match.
  - intros s. unfold write_stream. by repeat case_match.
  - intros s. unfold write_stream. by repeat case_match.
Qed.

Lemma session_verdict_spec policy pe cn :
  policy_wf policy → within_limits policy 0 cn →
  (goes_on (A := unit) (Err pe) = true → within_limits policy 1 cn) →
  match session_verdict policy pe cn with
  | (Some r, cn') => r ≠ Panic ∧ within_limits policy 0 cn'
  | (None, cn') => within_limits policy 1 cn' ∧ cn_frames_seen cn' = cn_frames_seen cn
  end.
Proof.
  intros Hpol Hl Hgo. unfold session_verdict. destruct pe as [m|m|m|msg|e]; [split; [discriminate|exact Hl]..|].
  specialize (Hgo eq_refl).
  destruct (Z.leb_spec (max_protocol_errors_per_session policy) (saturating_add32 (cn_protocol_errors cn) 1)).
  - split; [discriminate|limits].
  - split; [limits|reflexivity].
Qed.

(** One turn keeps the invariant and the limits, and counts the frame. *)
Lemma session_iter_spec policy others now cn s n d :
  policy_wf policy → (node_inv n d → node_inv (others (n, d)).1 (others (n, d)).2) →
  node_inv n d → within_limits policy 1 cn →
  let '(o, cn', _, (n', d')) := session_iter policy others now cn s (n, d) in
  node_inv n' d'
  ∧ match o with
    | Some r => r ≠ Panic ∧ within_limits policy 0 cn'
    | None => within_limits policy 1 cn' ∧ cn_frames_seen cn' = cn_frames_seen cn + 1
    end.
Proof.
  intros Hpol Hoth Hi Hl. unfold session_iter. set (seen := saturating_add32 (cn_frames_seen cn) 1).
  assert (seen = cn_frames_seen cn + 1) as Hseen by (unfold seen; limits). clearbody seen.
  destruct (Z.ltb_spec MAX_FRAMES_PER_INBOUND_SESSION seen) as [Hover|Hseen']; [split_and!; [done..|limits]|].
  pose proof (read_framed_no_panic s) as Hrd.
  destruct (read_framed s) as [[frame|e|] s']; [| |done].
  2: { destruct (IoError_kind e); try (destruct (io_err_idle_timeout e)); (split_and!; [done..|limits]). }
  cbn [cn_app_frames cn_protocol_errors cn_strikes cn_stale cn_tx cn_frames_seen].
  destruct (Z.ltb_spec u32_max (cn_app_frames cn + 1)); [split_and!; [done..|limits]|].
  destruct (Z.ltb_spec (max_app_frames_per_session policy) (cn_app_frames cn + 1)); [split_and!; [done..|limits]|].
  set (cn1 := mkCounters _ _ _ _ _ _). specialize (Hoth Hi).
  destruct (others (n, d)) as [n1 d1]. cbn [fst snd] in Hoth.
  assert (within_limits policy 0 cn1) as Hl1 by (unfold cn1; limits).
  pose proof (handle_frame_spec policy now frame cn1 n1 d1 Hpol Hoth Hl1) as Hh.
  destruct (handle_frame policy now frame cn1 (n1, d1)) as [[outcome cn2] [n2 d2]].
  destruct Hh as (Hi2&Hnp&Hl2&Hp&Ha&Hs&Hgo); [unfold cn1; limits..|]. unfold cn1 in Hp, Ha, Hs. clear Hl1. clearbody cn1.
  assert (goes_on outcome = true → within_limits policy 1 cn2) as Hl3.
  { intros Hg. destruct (Hgo Hg) as (?&?&?). limits. }
  destruct outcome as [[resp|]|pe|]; [| | |done].
  - pose proof (write_framed_no_panic resp s') as Hwr. destruct (write_framed resp s') as [[[]|e|] s'']; [| |done].
    + split_and!; [done|auto|limits].
    + done.
  - split_and!; [done|auto|limits].
  - pose proof (session_verdict_spec policy pe cn2 Hpol Hl2 Hl3) as Hv.
    destruct (session_verdict policy pe cn2) as [[r|] cn3]; [done|].
    destruct Hv as [? Hseen3]. split_and!; [done|done|limits].
Qed.

(** The loop terminates within its fuel and keeps the invariant and the
    limits. *)
Lemma session_loop_spec fuel policy others clock cn s n d :
  policy_wf policy → (∀ i n d, node_inv n d → node_inv (others i (n, d)).1 (others i (n, d)).2) →
  node_inv n d → within_limits policy 1 cn →
  MAX_FRAMES_PER_INBOUND_SESSION + 1 - cn_frames_seen cn ≤ Z.of_nat fuel →
  session_ok policy (session_loop fuel policy others clock cn s (n, d)).
Proof.
  intros Hpol Hoth. revert cn s n d. induction fuel as [|fuel IH]; intros cn s n d Hi Hl Hf; [limits|].
  cbn [session_loop]. set (i := Z.to_nat _).
  pose proof (session_iter_spec policy (others i) (clock i) cn s n d Hpol (Hoth i n d) Hi Hl) as Hit.
  destruct (session_iter policy (others i) (clock i) cn s (n, d)) as [[[[r|] cn'] s'] [n' d']].
  - destruct Hit as (Hi'&Hr&Hl'). by apply session_ok_end.
  - destruct Hit as (Hi'&Hl'&Hseen). apply IH; [done|done|lia].
Qed.

Lemma decode_session_no_panic data : decode_session_payload data ≠ Panic.
Proof.
  unfold decode_session_payload. repeat (case_match; [done|]). apply rbind_no_panic; [apply ok_or_no_panic|].
  intros hex. by case_match.
Qed.

Lemma validate_decl_no_panic g : validate_decl g ≠ Panic.
Proof. apply rfor_no_panic. intros a. unfold validate_alloc. by repeat case_match. Qed.

Lemma sorted_pairs_no_panic g : sorted_pairs g ≠ Panic.
Proof.
  unfold sorted_pairs. apply rbind_no_panic; [apply validate_decl_no_panic|].
  intros _. apply rbind_no_panic; [|done]. generalize (sort_by_key fst (alloc_pairs g)).
  induction l as [|[a x] [|[b y] l] IH]; [done..|]. cbn [check_adjacent_dups]. by case_match.
Qed.

Lemma commitment_no_panic g : state_commitment_hex g ≠ Panic.
Proof.
  unfold state_commitment_hex, state_commitment_raw32. repeat (apply rbind_no_panic; [|done]). apply sorted_pairs_no_panic.
Qed.

Lemma encode_session_no_panic op g adv : encode_session_payload op g adv ≠ Panic.
Proof.
  unfold encode_session_payload. apply rbind_no_panic; [apply map_err_no_panic, commitment_no_panic|].
  intros hex. by repeat case_match.
Qed.

Lemma handshake_responder_no_panic g adv : panic_free (handshake_responder g adv).
Proof.
  unfold handshake_responder, local_commitment_hex.
  apply panic_free_bind; [apply read_framed_no_panic|]. intros frame.
  apply panic_free_bind; [apply panic_free_lift, map_err_no_panic, decode_session_no_panic|]. intros [[[op ver] hex] padv].
  destruct (negb _); [by intros ?|]. destruct (negb _); [by intros ?|].
  apply panic_free_bind; [apply panic_free_lift, map_err_no_panic, map_err_no_panic, commitment_no_panic|]. intros lh.
  destruct (negb _); [by intros ?|].
  apply panic_free_bind; [apply panic_free_lift, map_err_no_panic, encode_session_no_panic|]. intros ack.
  apply write_framed_no_panic.
Qed.

Lemma setup_no_panic n : panic_free (peer_session_setup n).
Proof. unfold peer_session_setup. case_match; [by intros ?|apply handshake_responder_no_panic]. Qed.

(** ** Synchronisation *)

Lemma handshake_initiator_no_panic g adv : panic_free (handshake_initiator g adv).
Proof.
  unfold handshake_initiator, local_commitment_hex.
  apply panic_free_bind; [apply panic_free_lift, map_err_no_panic, encode_session_no_panic|]. intros hello.
  apply panic_free_bind; [apply write_framed_no_panic|]. intros _.
  apply panic_free_bind; [apply read_framed_no_panic|]. intros resp.
  apply panic_free_bind; [apply panic_free_lift, map_err_no_panic, decode_session_no_panic|]. intros [[[op ver] hex] padv].
  destruct (negb _); [by intros ?|]. destruct (negb _); [by intros ?|].
  apply panic_free_bind; [apply panic_free_lift, map_err_no_panic, map_err_no_panic, commitment_no_panic|]. intros lh.
  destruct (negb _); by intros ?.
Qed.

Lemma pull_no_panic conn peer start g adv : conn ≠ Panic → pull_blocks_from_peer conn peer start g adv ≠ Panic.
Proof.
  intros Hc. unfold pull_blocks_from_peer, pull_on_stream. apply rbind_no_panic; [by apply map_err_no_panic|]. intros s.
  apply (panic_free_bind (smap_err _ (handshake_initiator g adv))); [apply panic_free_smap, handshake_initiator_no_panic|]. intros _.
  apply panic_free_bind; [apply panic_free_smap, write_framed_no_panic|]. intros _.
  apply panic_free_bind; [apply panic_free_smap, read_framed_no_panic|]. intros resp.
  apply panic_free_bind; [apply panic_free_lift, wire_decode_no_panic|]. by intros ??.
Qed.

Lemma pull_decoded conn peer start g adv blocks nb :
  pull_blocks_from_peer conn peer start g adv = Ok (blocks, nb) → Forall decoded blocks.
Proof.
  unfold pull_blocks_from_peer, pull_on_stream, rbind. destruct conn as [s| |]; [|done..]. cbn [map_err]. unfold sbind, slift, sret.
  destruct (smap_err _ (handshake_initiator g adv) s) as [[[]| |] s1]; [|done..].
  destruct (smap_err _ (write_framed _) s1) as [[[]| |] s2]; [|done..].
  destruct (smap_err _ read_framed s2) as [[resp| |] s3]; [|done..].
  destruct (wire_decode_blocks_response resp) as [bs| |] eqn:Hd; [|done..]. intros [= <- _].
  by apply wire_decode_sound in Hd as [? _].
Qed.

Lemma linear_no_panic c blocks : validate_linear_sync_batch c blocks ≠ Panic.
Proof.
  unfold validate_linear_sync_batch. destruct (Nat.eqb _ 0); [done|]. apply rbind_no_panic; [apply ok_or_no_panic|]. intros tip.
  generalize 0 (saturating_add (blk_height tip) 1) (blk_block_hash tip).
  induction blocks as [|b blocks IH]; intros i h p; [done|]. cbn [linear_from].
  apply rbind_no_panic; [apply map_err_no_panic, block_basic_validate_no_panic|]. intros _.
  destruct (negb _); [done|]. destruct (negb _); [done|]. apply IH.
Qed.

(** Appending a batch under the block budget. *)
Lemma append_batch_spec max_blocks clock bs total n d :
  node_inv n d → Forall decoded bs → total < max_blocks →
  ∃ r n' d' bs', append_batch max_blocks clock bs total (n, d) = (r, (n', d')) ∧ node_inv n' d' ∧ r ≠ Panic
    ∧ bc_blocks (ni_chain n') = bc_blocks (ni_chain n) ++ bs' ∧ bs' `prefix_of` bs
    ∧ match r with
      | Ok (t, stopped) => t = total + zlen bs' ∧ if stopped then t = max_blocks else t < max_blocks ∧ bs' = bs
      | _ => True
      end.
Proof.
  intros Hi Hdec. revert total n d Hi. induction Hdec as [|b bs [data Hb] Hdec IH]; intros total n d Hi Hlt; cbn [append_batch].
  { eexists _, n, d, []. split; [done|]. rewrite app_nil_r. change (zlen (@nil Block)) with 0. split_and!; (done || lia). }
  pose proof (append_persist_spec n d b data (clock (Z.to_nat total)) Hi Hb) as Hp. unfold sbind, smap_err at 1.
  destruct (append_network_block_persist b (clock (Z.to_nat total)) (n, d)) as [[[]|f|] [n1 d1]]; cbn [map_err];
    destruct Hp as (Hi1&_&Hr); [| |done].
  2: { exists (Err (NetworkBlockPersistFailure_display f)), n1, d1, []. rewrite app_nil_r. split_and!; [done..| |apply prefix_nil|done].
       destruct f; [by destruct Hr as [-> _]..|done|by destruct Hr as [-> _]|done]. }
  destruct Hr as [Hbl _]. destruct (Z.leb_spec max_blocks (total + 1)).
  - exists (Ok (total + 1, true)), n1, d1, [b]. change (zlen [b]) with 1.
    split_and!; (done || lia || by apply prefix_cons, prefix_nil).
  - destruct (IH (total + 1) n1 d1 Hi1) as (r&n2&d2&bs'&->&Hi2&Hnp&Hbl2&Hpre&Hr); [lia|].
    exists r, n2, d2, (b :: bs'). rewrite Hbl2, Hbl, <- (assoc_L (++)). split_and!; [done..|by apply prefix_cons|].
    destruct r as [[t st]| |]; [|done..]. destruct Hr as [-> Hst]. split; [unfold zlen; simpl length; lia|].
    destruct st; [done|]. by destruct Hst as [? ->].
Qed.

(** What the peer answered in the rounds of a call, from round [i] and height
    [h] on: each answer is to the request for the blocks after the ones
    received so far. *)
Fixpoint pulled (peer : string) (conns : nat → Res IoError Stream) (g : Genesis) (i : nat) (h : Z)
    (pulls : list (list Block * Z)) : Prop :=
  match pulls with
  | [] => True
  | (blocks, nbytes) :: pulls' =>
    pull_blocks_from_peer (conns i) peer (saturating_add h 1) g h = Ok (blocks, nbytes)
    ∧ pulled peer conns g (S i) (h + zlen blocks) pulls'
  end.

Definition pulled_blocks (pulls : list (list Block * Z)) : list Block := pulls ≫= fst.
Definition pulled_bytes (pulls : list (list Block * Z)) : Z := foldr (λ p acc, p.2 + acc) 0 pulls.

(** The call ended: what it reports is what happened to the node. The blocks
    [bs] were appended, and the peer gave the answers [pulls]. *)
Definition sync_post (peer : string) (budget : SyncWorkBudget) (conns : nat → Res IoError Stream) (total rounds wire : Z)
    (n : NodeInner) (r : Res string (Z * bool)) (n' : NodeInner) (d' : Disk) : Prop :=
  node_inv n' d' ∧ r ≠ Panic
  ∧ ∃ bs, bc_blocks (ni_chain n') = bc_blocks (ni_chain n) ++ bs
    ∧ ∃ pulls, pulled peer conns (ni_genesis n) (Z.to_nat rounds) (height (ni_chain n)) pulls
      ∧ bs `prefix_of` pulled_blocks pulls ∧ rounds + zlen pulls ≤ max_rounds_per_call budget
      ∧ match r with
        | Ok (t, stopped) =>
          t = total + zlen bs ∧ t ≤ max_blocks_per_call budget
          ∧ if stopped
            then t = max_blocks_per_call budget ∨ rounds + zlen pulls = max_rounds_per_call budget
                 ∨ max_wire_bytes_per_call budget ≤ wire + pulled_bytes pulls
            else bs = pulled_blocks pulls ∧ ∃ nb, last pulls = Some ([], nb)
        | _ => True
        end.

Lemma sync_post_stop peer budget conns total rounds wire n r d :
  node_inv n d → 0 ≤ rounds ≤ max_rounds_per_call budget →
  (r = Ok (total, true) ∧ total ≤ max_blocks_per_call budget
     ∧ (total = max_blocks_per_call budget ∨ rounds = max_rounds_per_call budget ∨ max_wire_bytes_per_call budget ≤ wire)
   ∨ ∃ e, r = Err e) →
  sync_post peer budget conns total rounds wire n r n d.
Proof.
  intros Hi Hrd Hr. split; [done|]. split; [naive_solver|]. exists []. rewrite app_nil_r. split; [done|]. exists [].
  change (zlen (@nil Block)) with 0. change (zlen (@nil (list Block * Z))) with 0. cbn [pulled_bytes foldr].
  split_and!; [done|apply prefix_nil|lia|]. destruct Hr as [(->&?&?)|[e ->]]; [|done]. split_and!; lia.
Qed.

(** A round that appended the beginning [bs1] of its answer and ended the call. *)
Lemma sync_post_last peer budget conns total rounds wire n r n1 d1 blocks nb bs1 :
  pull_blocks_from_peer (conns (Z.to_nat rounds)) peer (saturating_add (height (ni_chain n)) 1) (ni_genesis n) (height (ni_chain n))
    = Ok (blocks, nb) → 0 ≤ nb →
  node_inv n1 d1 → 0 ≤ rounds < max_rounds_per_call budget →
  bc_blocks (ni_chain n1) = bc_blocks (ni_chain n) ++ bs1 → bs1 `prefix_of` blocks →
  (r = Ok (total + zlen bs1, true) ∧ total + zlen bs1 ≤ max_blocks_per_call budget
     ∧ (total + zlen bs1 = max_blocks_per_call budget ∨ max_wire_bytes_per_call budget ≤ wire + nb)
   ∨ ∃ e, r = Err e) →
  sync_post peer budget conns total rounds wire n r n1 d1.
Proof.
  intros Hpull Hnb Hi Hrd Hbl Hpre Hr. split; [done|]. split; [naive_solver|]. exists bs1. split; [done|]. exists [(blocks, nb)].
  change (zlen [(blocks, nb)]) with 1. unfold pulled_blocks. cbn [pulled pulled_bytes foldr snd mbind list_bind fst app].
  rewrite app_nil_r. split_and!; [done..|lia|]. destruct Hr as [(->&?&Hor)|[e ->]]; [|done]. split_and!; [done..|].
  destruct Hor; [by left|right; right; lia].
Qed.

Lemma pull_bytes conn peer start g adv blocks nb : pull_blocks_from_peer conn peer start g adv = Ok (blocks, nb) → 0 ≤ nb.
Proof.
  unfold pull_blocks_from_peer, pull_on_stream, rbind. destruct conn as [s| |]; [|done..]. cbn [map_err]. unfold sbind, slift, sret.
  destruct (smap_err _ (handshake_initiator g adv) s) as [[[]| |] s1]; [|done..].
  destruct (smap_err _ (write_framed _) s1) as [[[]| |] s2]; [|done..].
  destruct (smap_err _ read_framed s2) as [[resp| |] s3]; [|done..].
  destruct (wire_decode_blocks_response resp) as [bs| |]; [|done..]. intros [= _ <-]. apply zlen_nonneg.
Qed.

(** One more round before the rest of the call. *)
Lemma sync_post_round peer budget conns total rounds wire n n1 blocks nb r n' d' :
  chain_inv (ni_genesis n) (ni_chain n) →
  pull_blocks_from_peer (conns (Z.to_nat rounds)) peer (saturating_add (height (ni_chain n)) 1) (ni_genesis n) (height (ni_chain n))
    = Ok (blocks, nb) →
  0 ≤ rounds < max_rounds_per_call budget → in_u32 (max_rounds_per_call budget) → same_home n n1 →
  chain_inv (ni_genesis n) (ni_chain n1) → bc_blocks (ni_chain n1) = bc_blocks (ni_chain n) ++ blocks →
  sync_post peer budget conns (total + zlen blocks) (saturating_add32 rounds 1) (saturating_add wire nb) n1 r n' d' →
  sync_post peer budget conns total rounds wire n r n' d'.
Proof.
  intros Hc Hpull Hrd Hu (Hgen&_&_) Hc1 Hbl (Hi'&Hnp&bs&Hbs&pulls&Hp&Hpre&Hle&Hr). split; [done|]. split; [done|].
  assert (saturating_add32 rounds 1 = rounds + 1) as Hs by (unfold saturating_add32, in_u32 in *; lia). rewrite Hs in *.
  assert (height (ni_chain n1) = height (ni_chain n) + zlen blocks) as Hh.
  { rewrite (height_length _ _ Hc1), (height_length _ _ Hc), Hbl, length_app. unfold zlen. lia. }
  exists (blocks ++ bs). rewrite Hbs, Hbl, <- (assoc_L (++)). split; [done|]. exists ((blocks, nb) :: pulls).
  assert (zlen ((blocks, nb) :: pulls) = 1 + zlen pulls) as Hz by (unfold zlen; simpl length; lia). rewrite Hz.
  change (pulled_blocks ((blocks, nb) :: pulls)) with (blocks ++ pulled_blocks pulls). cbn [pulled].
  rewrite Hgen, Hh in Hp. replace (Z.to_nat (rounds + 1)) with (S (Z.to_nat rounds)) in Hp by lia.
  split_and!; [done|done|by apply prefix_app|lia|]. destruct r as [[t st]| |]; [|done..]. rewrite zlen_app.
  destruct Hr as (->&Hmax&Hst). split_and!; [lia|lia|]. cbn [pulled_bytes foldr snd]. fold (pulled_bytes pulls). destruct st.
  - assert (saturating_add wire nb ≤ wire + nb) by (unfold saturating_add; lia). destruct Hst as [?|[?|?]]; lia.
  - destruct Hst as (->&nb'&Hlast). split; [done|]. exists nb'. by destruct pulls.
Qed.

Lemma append_batch_home max clock bs total n d : same_home n (append_batch max clock bs total (n, d)).2.1.
Proof.
  revert total n d. induction bs as [|b bs IH]; intros total n d; [done|]. cbn [append_batch]. unfold sbind, smap_err.
  pose proof (append_persist_home b (clock (Z.to_nat total)) n d) as Hh.
  destruct (append_network_block_persist b _ (n, d)) as [[[]| |] [n1 d1]]; cbn [map_err fst snd] in *; [|done..].
  case_match; [done|]. etrans; [exact Hh|]. apply IH.
Qed.

Lemma sync_loop_spec fuel peer budget conns clock total rounds wire n d :
  (∀ i, conns i ≠ Panic) → node_inv n d → in_u32 (max_rounds_per_call budget) → in_u32 (max_blocks_per_call budget) →
  0 ≤ rounds ≤ max_rounds_per_call budget → 0 ≤ total ≤ max_blocks_per_call budget →
  max_rounds_per_call budget - rounds + 1 ≤ Z.of_nat fuel →
  ∃ r n' d', sync_loop fuel peer budget conns clock total rounds wire (n, d) = Some (r, (n', d'))
    ∧ sync_post peer budget conns total rounds wire n r n' d'.
Proof.
  intros Hconn Hi Hu Hu2. revert total rounds wire n d Hi. induction fuel as [|fuel IH]; intros total rounds wire n d Hi Hr Ht Hf; [lia|].
  cbn [sync_loop fst snd].
  assert (∀ r, (r = Ok (total, true) ∧ total ≤ max_blocks_per_call budget
       ∧ (total = max_blocks_per_call budget ∨ rounds = max_rounds_per_call budget ∨ max_wire_bytes_per_call budget ≤ wire)
       ∨ ∃ e, r = Err e) →
    ∃ r' n' d', Some (r, (n, d)) = Some (r', (n', d')) ∧ sync_post peer budget conns total rounds wire n r' n' d') as Hend.
  { intros r Hx. exists r, n, d. split; [done|]. by apply sync_post_stop. }
  destruct (Z.leb_spec (max_blocks_per_call budget) total); [apply Hend; left; split_and!; [done|lia|left; lia]|].
  destruct (Z.leb_spec (max_rounds_per_call budget) rounds); [apply Hend; left; split_and!; [done|lia|right; left; lia]|].
  destruct (Z.leb_spec (max_wire_bytes_per_call budget) wire); [apply Hend; left; split_and!; [done|lia|by right; right]|].
  pose proof (pull_no_panic (conns (Z.to_nat rounds)) peer (saturating_add (height (ni_chain n)) 1) (ni_genesis n)
    (height (ni_chain n)) (Hconn _)) as Hnp.
  destruct (pull_blocks_from_peer _ _ _ _ _) as [[blocks nb]|e|] eqn:Hpull; [|apply Hend; right; eauto|done].
  pose proof (pull_bytes _ _ _ _ _ _ _ Hpull) as Hnb.
  destruct (Nat.eqb_spec (length blocks) 0) as [Hz|Hnz].
  { apply nil_length_inv in Hz as ->. eexists _, n, d. split; [done|]. split; [done|]. split; [done|].
    exists []. rewrite app_nil_r. split; [done|]. exists [([], nb)]. change (zlen (@nil Block)) with 0.
    change (zlen [(@nil Block, nb)]) with 1. cbn [pulled]. split_and!; (done || lia || eauto). }
  pose proof (linear_no_panic (ni_chain n) blocks) as Hlp.
  destruct (validate_linear_sync_batch (ni_chain n) blocks) as [[]|e|]; [|apply Hend; right; eauto|done].
  assert (saturating_sub32 (max_blocks_per_call budget) total = max_blocks_per_call budget - total) as -> by (unfold saturating_sub32, in_u32 in *; lia).
  destruct (Z.eqb_spec (max_blocks_per_call budget - total) 0); [lia|].
  set (apply_n := Z.min _ _). pose proof (pull_decoded _ _ _ _ _ _ _ Hpull) as Hdec.
  pose proof (append_batch_home (max_blocks_per_call budget) clock (take (Z.to_nat apply_n) blocks) total n d) as Hhome.
  destruct (append_batch_spec (max_blocks_per_call budget) clock (take (Z.to_nat apply_n) blocks) total n d)
    as (r&n1&d1&bs'&Hab&Hi1&Hnp1&Hbl&Hpre&Hres); [done|by apply Forall_take|lia|]. rewrite Hab in Hhome |- *. cbn [fst snd] in Hhome.
  assert (bs' `prefix_of` blocks) as Hpre' by (etrans; [exact Hpre|apply prefix_take]).
  assert (∀ r, (r = Ok (total + zlen bs', true) ∧ total + zlen bs' ≤ max_blocks_per_call budget
       ∧ (total + zlen bs' = max_blocks_per_call budget ∨ max_wire_bytes_per_call budget ≤ wire + nb) ∨ ∃ e, r = Err e) →
    ∃ r' n' d', Some (r, (n1, d1)) = Some (r', (n', d')) ∧ sync_post peer budget conns total rounds wire n r' n' d') as Hstop.
  { intros r0 Hx. exists r0, n1, d1. split; [done|].
    apply (sync_post_last peer budget conns total rounds wire n r0 n1 d1 blocks nb bs'); [done|done|done|lia|done..]. }
  destruct r as [[t st]|e|]; [|apply Hstop; right; eauto|done]. destruct Hres as [-> Hst].
  destruct st; [apply Hstop; left; split_and!; [done|lia|by left]|]. destruct Hst as [Hlt ->].
  assert (Z.of_nat (Z.to_nat apply_n) = apply_n) as Hnn by (unfold apply_n, zlen; lia).
  assert (zlen (take (Z.to_nat apply_n) blocks) = apply_n) as Hlen by (unfold zlen in *; rewrite length_take; unfold apply_n in *; lia).
  destruct (Z.ltb_spec apply_n (zlen blocks)); [exfalso; unfold apply_n in *; lia|].
  assert (take (Z.to_nat apply_n) blocks = blocks) as Htake by (apply take_ge; unfold apply_n, zlen in *; lia). rewrite Htake in *.
  destruct (Z.ltb_spec (max_wire_bytes_per_call budget) (saturating_add wire nb)).
  { apply Hstop. left. split_and!; [done|lia|]. right. unfold saturating_add in *. lia. }
  destruct (IH (total + zlen blocks) (saturating_add32 rounds 1) (saturating_add wire nb) n1 d1 Hi1) as (r&n2&d2&Heq&Hpost);
    [unfold saturating_add32, in_u32 in *; lia|pose proof (zlen_nonneg blocks); lia|unfold saturating_add32, in_u32 in *; lia|].
  exists r, n2, d2. split; [done|]. assert (ni_genesis n1 = ni_genesis n) as Hgen by apply Hhome.
  apply (sync_post_round peer budget conns total rounds wire n n1 blocks nb); [apply Hi|done|lia|done|done| |done|done].
  rewrite <- Hgen. apply Hi1.
Qed.

Lemma sync_loop_home fuel peer budget conns clock total rounds wire n d r n' d' :
  sync_loop fuel peer budget conns clock total rounds wire (n, d) = Some (r, (n', d')) → same_home n n'.
Proof.
  revert total rounds wire n d. induction fuel as [|fuel IH]; intros total rounds wire n d; [done|]. cbn [sync_loop].
  do 3 (case_match; [by intros [= _ <- _]|]).
  destruct (pull_blocks_from_peer _ _ _ _ _) as [[blocks nb]| |]; [|by intros [= _ <- _]..].
  case_match; [by intros [= _ <- _]|]. destruct (validate_linear_sync_batch _ _); [|by intros [= _ <- _]..].
  case_match; [by intros [= _ <- _]|]. set (bs := take _ blocks).
  pose proof (append_batch_home (max_blocks_per_call budget) clock bs total n d) as Hb.
  destruct (append_batch _ _ _ _ _) as [[[t st]| |] [n1 d1]]; cbn [fst snd] in Hb; [|by intros [= _ <- _]..].
  do 3 (case_match; [by intros [= _ <- _]|]). intros Hs. etrans; [exact Hb|]. by eapply IH.
Qed.

Lemma sync_home peer budget conns clock n d r n' d' :
  sync_from_peer_with_clock peer budget conns clock (n, d) = Some (r, (n', d')) → same_home n n'.
Proof.
  unfold sync_from_peer_with_clock. case_match; [by intros [= _ <- _]|].
  destruct (validate_sync_work_budget budget); [|by intros [= _ <- _]..].
  destruct (sync_loop _ _ _ _ _ _ _ _ _) as [[r1 [n1 d1]]|] eqn:Hl; [|done]. apply sync_loop_home in Hl. cbn.
  destruct r1 as [[t st]| |]; [|by intros [= _ <- _]..]. case_match; intros [= _ <- _]; [|done].
  etrans; [exact Hl|]. apply hygiene_home.
Qed.

(** What a whole call did. *)
Definition sync_done (peer : string) (budget : SyncWorkBudget) (conns : nat → Res IoError Stream) (n : NodeInner)
    (bs : list Block) (r : Res string SyncFromPeerOutcome) : Prop :=
  ∃ pulls, pulled peer conns (ni_genesis n) 0 (height (ni_chain n)) pulls
    ∧ bs `prefix_of` pulled_blocks pulls ∧ zlen pulls ≤ max_rounds_per_call budget
    ∧ match r with
      | Ok o =>
        blocks_appended o = zlen bs ∧ zlen bs ≤ max_blocks_per_call budget
        ∧ if stopped_due_to_budget o
          then zlen bs = max_blocks_per_call budget ∨ zlen pulls = max_rounds_per_call budget
               ∨ max_wire_bytes_per_call budget ≤ pulled_bytes pulls
          else bs = pulled_blocks pulls ∧ ∃ nb, last pulls = Some ([], nb)
      | _ => True
      end.

Lemma sync_spec peer budget conns clock n d :
  (∀ i, conns i ≠ Panic) → node_inv n d → in_u32 (max_rounds_per_call budget) → in_u32 (max_blocks_per_call budget) →
  ∃ r n' d' bs, sync_from_peer_with_clock peer budget conns clock (n, d) = Some (r, (n', d'))
    ∧ node_inv n' d' ∧ r ≠ Panic ∧ bc_blocks (ni_chain n') = bc_blocks (ni_chain n) ++ bs ∧ sync_done peer budget conns n bs r.
Proof.
  intros Hconn Hi Hu1 Hu2. unfold sync_from_peer_with_clock. cbn [fst].
  assert (∀ e, ∃ r n' d' bs, Some (@Err string SyncFromPeerOutcome e, (n, d)) = Some (r, (n', d'))
    ∧ node_inv n' d' ∧ r ≠ Panic ∧ bc_blocks (ni_chain n') = bc_blocks (ni_chain n) ++ bs ∧ sync_done peer budget conns n bs r) as Hearly.
  { intros e. exists (Err e), n, d, []. rewrite app_nil_r. split_and!; [done..|]. exists []. change (zlen (@nil (list Block * Z))) with 0.
    split_and!; [done|done|unfold in_u32 in *; lia|done]. }
  destruct (bs_poisoned (ni_store n)); [apply Hearly|].
  destruct (validate_sync_work_budget budget) as [[]|e|] eqn:Hb; [|apply Hearly|].
  2: { exfalso. revert Hb. unfold validate_sync_work_budget. by repeat case_match. }
  destruct (sync_loop_spec (sync_fuel budget) peer budget conns clock 0 0 0 n d) as (r&n'&d'&->&Hi'&Hnp&bs&Hbl&pulls&Hp&Hpre&Hle&Hr);
    [done|done|done|done|unfold in_u32 in *; lia|unfold in_u32 in *; lia|unfold sync_fuel, in_u32 in *; lia|].
  rewrite Z.add_0_l in Hle. cbn [mbind option_bind]. destruct r as [[t st]|e|]; [| |done].
  2: { exists (Err e), n', d', bs. split_and!; [done..|]. by exists pulls. }
  destruct Hr as (Ht&Hmax&Hdone). rewrite Z.add_0_l in *. subst t. cbn [fst snd].
  assert (sync_done peer budget conns n bs (Ok (mkOutcome (zlen bs) st))) as Hsd by (exists pulls; by split_and!).
  destruct (Z.ltb_spec 0 (zlen bs)).
  - eexists (Ok (mkOutcome (zlen bs) st)), _, _, bs. split; [done|]. split; [by apply hygiene_inv|]. split; [done|]. by rewrite hygiene_chain.
  - by exists (Ok (mkOutcome (zlen bs) st)), n', d', bs.
Qed.

(** C14: catching up from a peer is bounded and exact. For any peer, on a node
    that satisfies the invariant and a budget of [u32] limits, the call
    terminates without panic, the invariant holds afterwards, and the chain
    grew by blocks the peer sent, in the order it sent them: the answers to at
    most [max_rounds_per_call] requests, each for the blocks after those
    received before. When it succeeds, it reports exactly the number of blocks
    by which the chain grew, at most the block budget. It reports that a budget
    stopped it only when the block budget or the round budget is used up, or
    the answers reached the byte budget; otherwise every received block was
    appended and the last answer, for the final height, was empty. *)
Theorem sync_safe peer budget conns clock n d :
  (∀ i, conns i ≠ Panic) → node_inv n d → in_u32 (max_rounds_per_call budget) → in_u32 (max_blocks_per_call budget) →
  ∃ r n' d' bs, sync_from_peer_with_clock peer budget conns clock (n, d) = Some (r, (n', d'))
    ∧ node_inv n' d' ∧ r ≠ Panic ∧ bc_blocks (ni_chain n') = bc_blocks (ni_chain n) ++ bs ∧ sync_done peer budget conns n bs r.
Proof. apply sync_spec. Qed.
End session_props.

(** ** A node at genesis, for the witnesses *)

Module SessionExample.
Import ToyCrypto WalletExample BlockExample LedgerExample ChainExample.

Definition store0 : BlockStore := mkBlockStore "chain.blocks" false V2 false.
Definition node0 : NodeInner :=
  mkNode genesis chain0 (Mempool_new 10) store0 (SeenCache_new 2) (SeenCache_new 2) PeerBook_default.
Definition disk0 : Disk := mkDisk {[ "chain.blocks" := [] ]} [].
Definition eof : IoError := mkIoError UnexpectedEof "failed to fill whole buffer".

Lemma node0_inv : node_inv node0 disk0.
Proof.
  split.
  - apply genesis_wf.
  - apply (reachable_inv genesis chain0); [apply genesis_wf|apply chain0_reachable].
  - apply pool_ok_new.
  - intros _. exists []. split; [|constructor]. split; [reflexivity|reflexivity|done|done].
Qed.

Definition block1_bytes : list byte := default [] (encode_block block1).

Lemma block1_decodes : decode_block block1_bytes = Ok block1.
Proof. apply decode_encode_block; [apply block1_wf|vm_compute; reflexivity]. Qed.

Definition hex : string := match state_commitment_hex genesis with Ok h => h | _ => "" end.

Lemma genesis_commits : state_commitment_hex genesis = Ok hex.
Proof. vm_compute. reflexivity. Qed.

(** The first append to the file fails after two bytes. *)
Lemma network_block_atomic_witness :
  let '(r, (n', d')) := append_network_block_persist block1 1700000101
    (node0, mkDisk {[ "chain.blocks" := [] ]} [IoFail (Some 2%nat) (mkIoError Other "No space left on device")]) in
  node_inv n' d' ∧ ni_chain n' = chain0.
Proof.
  pose proof (network_block_atomic node0
    (mkDisk {[ "chain.blocks" := [] ]} [IoFail (Some 2%nat) (mkIoError Other "No space left on device")])
    block1 block1_bytes 1700000101) as Hp.
  assert (append_network_block_persist block1 1700000101
    (node0, mkDisk {[ "chain.blocks" := [] ]} [IoFail (Some 2%nat) (mkIoError Other "No space left on device")])
    = (Err (PersistAfterApply "No space left on device"),
       (mkNode genesis chain0 (Mempool_new 10) (mkBlockStore "chain.blocks" true V2 false) (SeenCache_new 2)
          (SeenCache_new 2) PeerBook_default,
        mkDisk {[ "chain.blocks" := take 2 CHAIN_FILE_MAGIC_V2 ]} []))) as Hrun by (vm_compute; reflexivity).
  rewrite Hrun in *. split; [|reflexivity]. refine (proj1 (Hp _ block1_decodes)).
  split; [apply genesis_wf|apply (nv_chain _ _ node0_inv)|apply pool_ok_new|].
  intros _. exists []. split; [|constructor]. split; [reflexivity|reflexivity|done|done].
Defined.

Lemma handshake_agreement_witness :
  handshake_responder genesis 4 (mkStream (hello_frame genesis 9 ++ []) eof [] [])
  = (Ok tt, mkStream [] eof (ack_frame genesis 4) []).
Proof.
  refine (proj1 (proj1 (handshake_agreement genesis genesis hex hex 9 4 eof [] genesis_commits genesis_commits _ _) eq_refl));
    unfold in_u64, u64_max; lia.
Defined.

Definition tx_bytes : list byte := default [] (encode_transaction (transfer 0)).
Definition reply : list byte :=
  match wire_encode_blocks_response [block1; block2] with Ok out => out | _ => [] end.

Lemma wire_messages_roundtrip_witness :
  wire_decode_blocks_response reply = Ok [block1; block2]
  ∧ read_framed (mkStream (wire_frame reply ++ []) eof [] []) = (Ok reply, mkStream [] eof [] []).
Proof.
  destruct (wire_messages_roundtrip 7 (transfer 0) tx_bytes block1 block1_bytes [block1; block2] reply [] eof)
    as (_&_&_&_&Hread&Hdec).
  - unfold in_u64, u64_max. lia.
  - apply transfer_wf. unfold in_u64, u64_max. lia.
  - vm_compute. reflexivity.
  - apply block1_wf.
  - vm_compute. reflexivity.
  - constructor; [apply block1_wf|]. constructor; [apply block2_wf|constructor].
  - vm_compute. reflexivity.
  - split; [exact Hdec|exact Hread].
Defined.

(** A peer that greets, sends a block and hangs up; another thread does
    nothing. *)
Definition peer_stream : Stream :=
  mkStream (hello_frame genesis 0 ++ wire_frame ([byte_of_Z OP_BLOCK] ++ block1_bytes)) eof [] [].

Lemma default_policy_wf : policy_wf InboundPeerPolicy_default.
Proof. unfold policy_wf, in_u32, u32_max, InboundPeerPolicy_default. cbn. lia. Qed.

(** One round with a block, then an empty reply. *)
Definition conns (i : nat) : Res IoError Stream :=
  let blocks := match i with O => [block1] | _ => [] end in
  match wire_encode_blocks_response blocks with
  | Ok out => Ok (mkStream (ack_frame genesis 1 ++ wire_frame out) eof [] [])
  | _ => Err eof
  end.

Lemma conns_no_panic i : conns i ≠ Panic.
Proof. unfold conns. by destruct (wire_encode_blocks_response _). Qed.

(** A budget of one block: it is used up in the first round. *)
Lemma sync_safe_witness :
  ∃ n' d' bs, sync_from_peer_with_clock "peer:1" (mkBudget 5 1 1000) conns (λ _, 1700000101) (node0, disk0)
    = Some (Ok (mkOutcome 1 true), (n', d')) ∧ node_inv n' d' ∧ bc_blocks (ni_chain n') = bc_blocks (ni_chain node0) ++ bs
    ∧ sync_done "peer:1" (mkBudget 5 1 1000) conns node0 bs (Ok (mkOutcome 1 true)).
Proof.
  assert (fst <$> sync_from_peer_with_clock "peer:1" (mkBudget 5 1 1000) conns (λ _, 1700000101) (node0, disk0)
    = Some (Ok (mkOutcome 1 true))) as Hrun by (vm_compute; reflexivity).
  destruct (sync_safe "peer:1" (mkBudget 5 1 1000) conns (λ _, 1700000101) node0 disk0)
    as (r&n'&d'&bs&Heq&Hi&Hnp&Hbl&Hd).
  - apply conns_no_panic.
  - apply node0_inv.
  - unfold in_u32, u32_max. cbn. lia.
  - unfold in_u32, u32_max. cbn. lia.
  - rewrite Heq in Hrun. cbn in Hrun. injection Hrun as ->. exists n', d', bs. split; [exact Heq|]. split; [exact Hi|].
    split; [exact Hbl|exact Hd].
Defined.

(** The synchronisation appends the block and reports it. *)
Example sync_appends :
  (λ x, fst x) <$> sync_from_peer_with_clock "peer:1" (mkBudget 5 10 1000) conns (λ _, 1700000101) (node0, disk0)
  = Some (Ok (mkOutcome 1 false)).
Proof. vm_compute. reflexivity. Qed.
End SessionExample.
