(* ===== verification/Quota.v ===== *)
(** * The quotas of an inbound session ([network.rs])

    What a session reads from its connection, independently of the counters
    the loop keeps: the log of the frames with the clock and the node at the
    moment each was handled, and for every quota the kind of frame it is about,
    as a function of frame, clock and node. The loop's counters agree with the
    counts over the log, so the limits are limits on what the peer can make the
    node do. *)

From Stdlib Require Import ZArith Lia.
From stdpp Require Import base strings list gmap.
From S2P Require Import Prelude Bytes Io Crypto Transaction Wallet Block Encoding Genesis Ledger Mempool MempoolQueue Blockchain Storage StorageSpec Seen PeerBook Wire Node Session.

(** A frame that was read, with the clock and the node when it was handled. *)
Record Handled := mkHandled { hd_frame : list byte; hd_now : Z; hd_node : NodeInner * Disk }.

Section kinds.
Context `{CryptoLib}.

(** A transaction. *)
Definition is_tx (h : Handled) : bool :=
  match predecode_inbound_app_payload (hd_frame h) with Ok (PdTx _) => true | _ => false end.

(** The block of a frame that reaches a node which can still store it. *)
Definition offered_block (h : Handled) : option Block :=
  if bs_poisoned (ni_store (hd_node h).1) then None
  else match predecode_inbound_app_payload (hd_frame h) with Ok (PdBlock b) => Some b | _ => None end.

(** A block at or below the tip. *)
Definition is_stale (h : Handled) : bool :=
  match offered_block h with Some b => blk_height b <=? height (ni_chain (hd_node h).1) | None => false end.

(** A block above the tip that the chain refuses. *)
Definition is_invalid (h : Handled) : bool :=
  match offered_block h with
  | Some b =>
    negb (is_stale h)
    && match (append_network_block_persist b (hd_now h) (hd_node h)).1 with Err (PeerRejectedBlock _) => true | _ => false end
  | None => false
  end.

(** A frame that does not decode, or a request whose answer cannot be encoded. *)
Definition is_malformed (h : Handled) : bool :=
  match predecode_inbound_app_payload (hd_frame h) with
  | Err _ => true
  | Ok (PdGetBlocks start_height) =>
    negb (bs_poisoned (ni_store (hd_node h).1))
    && match wire_encode_blocks_response
               (blocks_from_height_limited (ni_chain (hd_node h).1) start_height (Z.to_nat MAX_BLOCKS_PER_BATCH)) with
       | Err _ => true
       | _ => false
       end
  | _ => false
  end.

Definition count (kind : Handled → bool) (log : list Handled) : Z := zlen (filter (λ h, kind h = true) log).

(** The counts over a log, in the form of the loop's counters. *)
Definition tally (log : list Handled) : Counters :=
  mkCounters (count is_malformed log) (zlen log) (count is_invalid log) (count is_stale log) (count is_tx log) (zlen log).

(** The quotas on what was read. A session ends with the frame that exceeds a
    quota. *)
Definition quotas_kept (p : InboundPeerPolicy) (log : list Handled) : Prop :=
  zlen log ≤ MAX_FRAMES_PER_INBOUND_SESSION ∧ zlen log ≤ max_app_frames_per_session p + 1
  ∧ count is_tx log ≤ max_inbound_tx_per_session p + 1
  ∧ count is_stale log ≤ max_stale_decoded_blocks_per_session p + 1
  ∧ count is_invalid log ≤ Z.max 1 (max_invalid_network_blocks_per_session p)
  ∧ count is_malformed log ≤ Z.max 1 (max_protocol_errors_per_session p).

(** ** The log of a session *)

(** The frame that a turn of the loop reads, if it reads one. *)
Definition frame_read (cn : Counters) (s : Stream) (now : Z) (node : NodeInner * Disk) : list Handled :=
  if MAX_FRAMES_PER_INBOUND_SESSION <? saturating_add32 (cn_frames_seen cn) 1 then []
  else match (read_framed s).1 with Ok frame => [mkHandled frame now node] | _ => [] end.

Fixpoint session_log (fuel : nat) (policy : InboundPeerPolicy) (others : nat → NodeInner * Disk → NodeInner * Disk)
    (clock : nat → Z) (cn : Counters) (s : Stream) (node : NodeInner * Disk) : list Handled :=
  match fuel with
  | O => []
  | S f =>
    let i := Z.to_nat (saturating_add32 (cn_frames_seen cn) 1) in
    frame_read cn s (clock i) (others i node)
    ++ match session_iter policy (others i) (clock i) cn s node with
       | (Some _, _, _, _) => []
       | (None, cn, s, node) => session_log f policy others clock cn s node
       end
  end.

(** All frames of a connection after the handshake. *)
Definition connection_log (policy : InboundPeerPolicy) (others : nat → NodeInner * Disk → NodeInner * Disk)
    (clock : nat → Z) (s : Stream) (node : NodeInner * Disk) : list Handled :=
  match peer_session_setup node.1 s with
  | (Ok _, s') => session_log session_fuel policy others clock counters_zero s' node
  | _ => []
  end.
End kinds.

(** ** Counters and counts *)

Section quota_props.
Context `{CryptoLaws}.

Lemma count_snoc kind log h : count kind (log ++ [h]) = count kind log + (if kind h then 1 else 0).
Proof.
  unfold count. rewrite filter_app, zlen_app. f_equal. rewrite filter_cons. case_decide as Hk; rewrite filter_nil.
  - by rewrite Hk.
  - by destruct (kind h).
Qed.

Lemma count_le kind log : 0 ≤ count kind log ≤ zlen log.
Proof. unfold count, zlen. pose proof (length_filter (λ h, kind h = true) log). lia. Qed.

(** The counts are far from the range of their type. *)
Lemma tally_small policy log :
  within_limits policy 1 (tally log) →
  cn_protocol_errors (tally log) ≤ 8192 ∧ cn_strikes (tally log) ≤ 8192 ∧ cn_stale (tally log) ≤ 8192 ∧ cn_tx (tally log) ≤ 8192.
Proof.
  intros Hl. pose proof (count_le is_malformed log). pose proof (count_le is_invalid log). pose proof (count_le is_stale log).
  pose proof (count_le is_tx log). unfold tally in *. limits.
Qed.

Lemma tally_nil : tally [] = counters_zero.
Proof. reflexivity. Qed.

Lemma tally_snoc log h :
  tally (log ++ [h])
  = mkCounters (cn_protocol_errors (tally log) + if is_malformed h then 1 else 0) (cn_app_frames (tally log) + 1)
      (cn_strikes (tally log) + if is_invalid h then 1 else 0) (cn_stale (tally log) + if is_stale h then 1 else 0)
      (cn_tx (tally log) + if is_tx h then 1 else 0) (cn_frames_seen (tally log) + 1).
Proof. unfold tally. rewrite !count_snoc, !zlen_app. reflexivity. Qed.

Lemma predecode_protocol frame e : predecode_inbound_app_payload frame = Err e → ∃ io, e = Protocol io.
Proof.
  unfold predecode_inbound_app_payload. destruct frame as [|o rest]; [intros [= <-]; eauto|].
  case_match; [unfold rbind; destruct (decode_transaction rest); intros [= <-]; eauto|].
  case_match; [unfold rbind; destruct (decode_block rest); intros [= <-]; eauto|].
  repeat case_match; intros [= <-]; eauto.
Qed.

(** A frame after which the session may go on was counted under its kind. *)
Lemma handle_frame_counts policy now frame cn node :
  cn_strikes cn ≤ 8192 → cn_stale cn ≤ 8192 → cn_tx cn ≤ 8192 →
  let '(r, cn', _) := handle_frame policy now frame cn node in
  let h := mkHandled frame now node in
  goes_on r = true →
  cn' = mkCounters (cn_protocol_errors cn) (cn_app_frames cn) (cn_strikes cn + if is_invalid h then 1 else 0)
          (cn_stale cn + if is_stale h then 1 else 0) (cn_tx cn + if is_tx h then 1 else 0) (cn_frames_seen cn)
  ∧ is_malformed h = match r with Err _ => true | _ => false end.
Proof.
  intros Hst Hsa Htx. destruct node as [n d]. unfold handle_frame, is_invalid, is_stale, offered_block, is_tx, is_malformed.
  cbn [hd_frame hd_now hd_node fst snd]. pose proof (predecode_no_panic frame) as Hnp.
  destruct (predecode_inbound_app_payload frame) as [decoded|e|]; [|..|done].
  2: { intros _. destruct (bs_poisoned _); rewrite !Z.add_0_r; by destruct cn. }
  assert (saturating_add32 (cn_tx cn) 1 = cn_tx cn + 1 ∧ saturating_add32 (cn_stale cn) 1 = cn_stale cn + 1
          ∧ saturating_add32 (cn_strikes cn) 1 = cn_strikes cn + 1) as (H1&H2&H3) by (pose proof u32_room; unfold saturating_add32; lia).
  destruct (negb _); [done|]. unfold apply_predecoded. cbn [cn_protocol_errors cn_app_frames cn_strikes cn_stale cn_tx cn_frames_seen].
  destruct (bs_poisoned (ni_store n)); [done|]. destruct decoded as [tx|b|h]; rewrite ?H1, ?H2, ?H3.
  - destruct (try_submit tx (ni_pool n)) as [[]]; intros Hgo; try done; by rewrite !Z.add_0_r.
  - destruct (blk_height b <=? height (ni_chain n)); cbn [negb andb].
    { destruct (_ <? _); intros Hgo; [done|]. by rewrite !Z.add_0_r. }
    destruct (append_network_block_persist b now (n, d)) as [[[]|f|] [n' d']]; cbn [fst]; [by rewrite !Z.add_0_r| |done].
    destruct f; cbn [counts_toward_invalid_block_budget]; try done. destruct (_ <=? cn_strikes cn + 1); [done|]. by rewrite !Z.add_0_r.
  - destruct (wire_encode_blocks_response _); intros Hgo; try done; by rewrite !Z.add_0_r.
Qed.

(** One turn of a session whose counters are the counts over its log. *)
Lemma session_iter_tally policy others now log s n d :
  policy_wf policy → within_limits policy 1 (tally log) →
  let entry := frame_read (tally log) s now (others (n, d)) in
  quotas_kept policy (log ++ entry)
  ∧ let '(o, cn', _, _) := session_iter policy others now (tally log) s (n, d) in o = None → cn' = tally (log ++ entry).
Proof.
  intros Hpol Hl entry. assert (∀ k, 0 ≤ count k entry ≤ zlen entry ∧ count k (log ++ entry) = count k log + count k entry) as Hcnt.
  { intros k. split; [apply count_le|]. unfold count. by rewrite filter_app, zlen_app. }
  assert (zlen entry ≤ 1 ∧ zlen log + zlen entry ≤ MAX_FRAMES_PER_INBOUND_SESSION) as [He1 He2].
  { unfold entry, frame_read. destruct (Z.ltb_spec MAX_FRAMES_PER_INBOUND_SESSION (saturating_add32 (cn_frames_seen (tally log)) 1)).
    - change (zlen (@nil Handled)) with 0. unfold tally in *. limits.
    - pose proof u32_room. destruct (read_framed s).1 as [frame| |]; [change (zlen [mkHandled frame now (others (n, d))]) with 1
        |change (zlen (@nil Handled)) with 0..]; unfold tally in *; limits. }
  split.
  { pose proof (Hcnt is_tx). pose proof (Hcnt is_stale). pose proof (Hcnt is_invalid). pose proof (Hcnt is_malformed).
    unfold quotas_kept. rewrite zlen_app. unfold tally, within_limits in Hl.
    cbn [cn_protocol_errors cn_app_frames cn_strikes cn_stale cn_tx cn_frames_seen] in Hl. split_and!; lia. }
  clear Hcnt He1 He2. unfold session_iter, entry, frame_read. clear entry.
  assert (saturating_add32 (cn_frames_seen (tally log)) 1 = cn_frames_seen (tally log) + 1) as -> by limits.
  destruct (MAX_FRAMES_PER_INBOUND_SESSION <? _); [done|].
  destruct (read_framed s) as [[frame|e|] s'].
  2: { by destruct (IoError_kind e); try (destruct (io_err_idle_timeout e)). }
  2: done.
  cbn [fst cn_app_frames cn_protocol_errors cn_strikes cn_stale cn_tx cn_frames_seen].
  destruct (u32_max <? _); [done|].
  destruct (Z.ltb_spec (max_app_frames_per_session policy) (cn_app_frames (tally log) + 1)); [done|].
  set (cn1 := mkCounters _ _ _ _ _ _). set (h := mkHandled frame now (others (n, d))).
  pose proof (handle_frame_counts policy now frame cn1 (others (n, d))) as Hc. fold h in Hc.
  destruct (handle_frame policy now frame cn1 (others (n, d))) as [[outcome cn2] node2].
  destruct (tally_small policy log Hl) as (?&Hs1&Hs2&Hs3). specialize (Hc Hs1 Hs2 Hs3).
  rewrite tally_snoc. cbn [cn1 cn_app_frames cn_protocol_errors cn_strikes cn_stale cn_tx cn_frames_seen] in Hc.
  assert (saturating_add32 (cn_protocol_errors (tally log)) 1 = cn_protocol_errors (tally log) + 1) as Hsat
    by (pose proof u32_room; unfold saturating_add32; lia).
  destruct outcome as [[resp|]|pe|]; [..|done].
  - destruct (write_framed resp s') as [[[]| |] s'']; [|done..]. intros _. destruct (Hc eq_refl) as [-> ->]. by rewrite Z.add_0_r.
  - intros _. destruct (Hc eq_refl) as [-> ->]. by rewrite Z.add_0_r.
  - destruct pe as [m|m|m|msg|e]; try done. destruct (Hc eq_refl) as [-> ->]. cbn [session_verdict cn_protocol_errors]. by rewrite Hsat.
Qed.

Lemma session_loop_tally fuel policy others clock log s n d :
  policy_wf policy → (∀ i n d, node_inv n d → node_inv (others i (n, d)).1 (others i (n, d)).2) →
  node_inv n d → within_limits policy 1 (tally log) →
  quotas_kept policy (log ++ session_log fuel policy others clock (tally log) s (n, d)).
Proof.
  intros Hpol Hoth. revert log s n d. induction fuel as [|fuel IH]; intros log s n d Hi Hl.
  { cbn [session_log]. rewrite app_nil_r. unfold quotas_kept, tally in *. limits. }
  cbn [session_log]. set (i := Z.to_nat _).
  pose proof (session_iter_spec policy (others i) (clock i) (tally log) s n d Hpol (Hoth i n d) Hi Hl) as Hit.
  destruct (session_iter_tally policy (others i) (clock i) log s n d Hpol Hl) as [Hq Hc].
  destruct (session_iter policy (others i) (clock i) (tally log) s (n, d)) as [[[o cn'] s'] [n' d']].
  destruct o as [r|]; [by rewrite app_nil_r|]. destruct Hit as (Hi'&Hl'&_). specialize (Hc eq_refl). subst cn'.
  rewrite (assoc_L (++)). by apply IH.
Qed.

(** C12: an inbound session is harmless whatever the peer sends. On a node that
    satisfies the invariant, and with other threads that preserve it, a
    session over any byte stream terminates, never panics, and ends with the
    invariant in force. The quotas bound the frames it reads, whatever the
    loop counts: at most 8192 and one more than [max_app_frames_per_session],
    and of these at most one more than the configured numbers of transactions
    and of stale blocks, and at most the configured numbers (or one) of invalid
    blocks and of malformed frames: the frame that exceeds a quota is the last
    one. *)
Theorem session_safe policy others clock s n d :
  policy_wf policy → (∀ i n d, node_inv n d → node_inv (others i (n, d)).1 (others i (n, d)).2) → node_inv n d →
  ∃ r cn s' n' d', peer_connection_loop policy others clock s (n, d) = Some (r, cn, s', (n', d'))
    ∧ r ≠ Panic ∧ node_inv n' d' ∧ quotas_kept policy (connection_log policy others clock s (n, d)).
Proof.
  intros Hpol Hoth Hi. unfold peer_connection_loop, connection_log. cbn [fst].
  assert (within_limits policy 1 (tally [])) as Hl by (rewrite tally_nil; unfold counters_zero; limits).
  pose proof (setup_no_panic n s) as Hnp. destruct (peer_session_setup n s) as [[[]|e|] s']; [| |done].
  - destruct (session_loop_spec session_fuel policy others clock counters_zero s' n d) as (r&cn&s2&n'&d'&->&Hr&_&Hi');
      [done..|unfold session_fuel, counters_zero; limits|].
    exists r, cn, s2, n', d'. split_and!; [done..|]. pose proof (session_loop_tally session_fuel policy others clock [] s' n d Hpol Hoth Hi Hl) as Hq.
    by rewrite tally_nil in Hq.
  - eexists _, _, _, _, _. split_and!; [done..|]. unfold quotas_kept, tally in *. limits.
Qed.
End quota_props.

(** ** A session, for the witness *)

Module QuotaExample.
Import ToyCrypto WalletExample BlockExample LedgerExample ChainExample SessionExample.

(** A peer that greets, sends the same transaction twice and a block. *)
Definition tx_frame : list byte := wire_frame ([byte_of_Z OP_TX] ++ tx_bytes).
Definition busy_stream : Stream :=
  mkStream (hello_frame genesis 0 ++ tx_frame ++ tx_frame ++ wire_frame ([byte_of_Z OP_BLOCK] ++ block1_bytes)) eof [] [].

(** One transaction per session. *)
Definition strict_policy : InboundPeerPolicy := mkInboundPolicy 128 120 (Some 60) 32 100000 24 8192 1.

Definition busy_log : list Handled := connection_log strict_policy (λ _ x, x) (λ _, 1700000101) busy_stream (node0, disk0).

(** The second transaction ends the session; the block is not read. *)
Lemma session_safe_witness :
  ∃ r cn s' n' d', peer_connection_loop strict_policy (λ _ x, x) (λ _, 1700000101) busy_stream (node0, disk0)
    = Some (r, cn, s', (n', d')) ∧ r ≠ Panic ∧ node_inv n' d'
    ∧ quotas_kept strict_policy busy_log ∧ zlen busy_log = 2 ∧ count is_tx busy_log = 2.
Proof.
  assert (zlen busy_log = 2 ∧ count is_tx busy_log = 2) as Hc by (vm_compute; split; reflexivity).
  destruct (session_safe strict_policy (λ _ x, x) (λ _, 1700000101) busy_stream node0 disk0) as (r&cn&s'&n'&d'&Hrun&Hr&Hi&Hq).
  - unfold policy_wf, in_u32, u32_max, strict_policy. cbn. lia.
  - intros i n d Hi. exact Hi.
  - apply node0_inv.
  - exists r, cn, s', n', d'. split; [exact Hrun|]. split; [exact Hr|]. split; [exact Hi|]. split; [exact Hq|exact Hc].
Defined.
End QuotaExample.
