(* ===== verification/Dialogue.v ===== *)
(** * Two nodes in conversation

    A client of [network.rs] ([pull_blocks_from_peer],
    [push_block_to_peer_with_timeouts], [push_tx_to_peer_with_timeouts]) on one
    end of a connection and the session of another node on the other end: what
    one writes is what the other reads. The client closes the connection when
    it is done, and the session then sees the end of the stream. *)

From Stdlib Require Import ZArith Lia.
From stdpp Require Import base strings list gmap.
From S2P Require Import Prelude Bytes Io Crypto Transaction Wallet Block Encoding Genesis Ledger Mempool MempoolQueue Blockchain Storage StorageSpec Seen PeerBook Wire Node Session.

Definition hangup : IoError := mkIoError UnexpectedEof "failed to fill whole buffer".

(** No other thread takes the lock during the session. *)
Definition alone : nat → NodeInner * Disk → NodeInner * Disk := λ _ node, node.

Section dialogue.
Context `{CryptoLib}.

(** The client sends exactly [sent] and returns [a], and the session on the
    other node reads it, answers what the client reads, ends regularly and
    leaves the node as [node']. *)
Definition conversation {A} (client : ST Stream string A) (sent : list byte) (a : A) (policy : InboundPeerPolicy)
    (clock : nat → Z) (node node' : NodeInner * Disk) : Prop :=
  ∃ replied cn,
    client (mkStream replied hangup [] []) = (Ok a, mkStream [] hangup sent [])
    ∧ peer_connection_loop policy alone clock (mkStream sent hangup [] []) node
      = Some (Ok tt, cn, mkStream [] hangup replied [], node').

Definition counted (cn : Counters) : Counters :=
  mkCounters (cn_protocol_errors cn) (cn_app_frames cn + 1) (cn_strikes cn) (cn_stale cn) (cn_tx cn) (cn_frames_seen cn + 1).

Definition reply_bytes (r : option (list byte)) : list byte := match r with Some resp => wire_frame resp | None => [] end.

Lemma saturating_succ32 z : 0 ≤ z < u32_max → saturating_add32 z 1 = z + 1.
Proof. unfold saturating_add32. lia. Qed.

(** A frame that is handled without an error. *)
Lemma session_iter_frame policy others now cn payload rest out node r cn' node' :
  in_u32 (max_app_frames_per_session policy) →
  0 ≤ cn_frames_seen cn < MAX_FRAMES_PER_INBOUND_SESSION → 0 ≤ cn_app_frames cn < max_app_frames_per_session policy →
  zlen payload ≤ MAX_WIRE_FRAME_BYTES →
  handle_frame policy now payload (counted cn) (others node) = (Ok r, cn', node') →
  match r with Some resp => zlen resp ≤ MAX_WIRE_FRAME_BYTES | None => True end →
  session_iter policy others now cn (mkStream (wire_frame payload ++ rest) hangup out []) node
  = (None, cn', mkStream rest hangup (out ++ reply_bytes r) [], node').
Proof.
  intros Hpol Hseen Happ Hlen Hh Hr. unfold session_iter, MAX_FRAMES_PER_INBOUND_SESSION, in_u32 in *. pose proof u32_room.
  rewrite saturating_succ32 by lia. destruct (Z.ltb_spec 8192 (cn_frames_seen cn + 1)); [lia|].
  rewrite read_framed_app by done. cbn [cn_app_frames cn_protocol_errors cn_strikes cn_stale cn_tx cn_frames_seen].
  destruct (Z.ltb_spec u32_max (cn_app_frames cn + 1)); [lia|].
  destruct (Z.ltb_spec (max_app_frames_per_session policy) (cn_app_frames cn + 1)); [lia|].
  fold (counted cn). rewrite Hh. destruct r as [resp|]; cbn [reply_bytes].
  - by rewrite write_framed_ok.
  - by rewrite app_nil_r.
Qed.

(** The other end has hung up. *)
Lemma session_iter_hangup policy others now cn out fs node :
  0 ≤ cn_frames_seen cn < MAX_FRAMES_PER_INBOUND_SESSION →
  ∃ cn', session_iter policy others now cn (mkStream [] hangup out fs) node = (Some (Ok tt), cn', mkStream [] hangup out fs, node).
Proof.
  intros Hseen. unfold session_iter, MAX_FRAMES_PER_INBOUND_SESSION in *. pose proof u32_room.
  rewrite saturating_succ32 by lia. destruct (Z.ltb_spec 8192 (cn_frames_seen cn + 1)); [lia|]. by eexists.
Qed.

End dialogue.

(** ** A session of one message *)

Section talk.
Context `{CryptoLaws}.

(** A whole session: greeting, one message, hang-up. *)
Lemma session_of_one policy clock n d g hex adv payload r cn' node' :
  in_u32 (max_app_frames_per_session policy) → 0 < max_app_frames_per_session policy →
  bs_poisoned (ni_store n) = false → state_commitment_hex g = Ok hex → state_commitment_hex (ni_genesis n) = Ok hex →
  in_u64 adv → in_u64 (height (ni_chain n)) → zlen payload ≤ MAX_WIRE_FRAME_BYTES →
  handle_frame policy (clock 1%nat) payload (counted counters_zero) (n, d) = (Ok r, cn', node') → cn_frames_seen cn' = 1 →
  match r with Some resp => zlen resp ≤ MAX_WIRE_FRAME_BYTES | None => True end →
  ∃ cn, peer_connection_loop policy alone clock (mkStream (hello_frame g adv ++ wire_frame payload) hangup [] []) (n, d)
    = Some (Ok tt, cn, mkStream [] hangup (ack_frame (ni_genesis n) (height (ni_chain n)) ++ reply_bytes r) [], node').
Proof.
  intros Hpol Hpos Hpo Hg Hn Hadv Hh Hlen Hrun Hseen Hr. unfold peer_connection_loop, peer_session_setup. cbn [fst]. rewrite Hpo.
  rewrite (responder_accepts g (ni_genesis n) hex) by done.
  assert (∃ k, session_fuel = S (S k)) as [k ->] by (exists (Z.to_nat 8191); unfold session_fuel, MAX_FRAMES_PER_INBOUND_SESSION; lia).
  cbn [session_loop]. rewrite <- (app_nil_r (wire_frame payload)).
  change (Z.to_nat (saturating_add32 (cn_frames_seen counters_zero) 1)) with 1%nat.
  rewrite (session_iter_frame policy (alone 1%nat) (clock 1%nat) counters_zero payload [] _ (n, d) r cn' node'); [|done|done| |done..].
  2: cbn; lia.
  destruct (session_iter_hangup policy (alone (Z.to_nat (saturating_add32 (cn_frames_seen cn') 1)))
    (clock (Z.to_nat (saturating_add32 (cn_frames_seen cn') 1))) cn' (ack_frame (ni_genesis n) (height (ni_chain n)) ++ reply_bytes r) [] node')
    as [cn ->]; [rewrite Hseen; unfold MAX_FRAMES_PER_INBOUND_SESSION; lia|]. by exists cn.
Qed.

(** ** Clients *)

(** What a client that wants the blocks from [start] sends. *)
Definition request (g : Genesis) (adv start : Z) : list byte :=
  hello_frame g adv ++ wire_frame (wire_encode_get_blocks start).

Lemma zlen_get_blocks h : zlen (wire_encode_get_blocks h) = 9.
Proof. unfold wire_encode_get_blocks, zlen, to_be_bytes_u64. rewrite length_app, length_be_bytes. done. Qed.

(** A reply to a block request, read by the one who asked. *)
Lemma pull_reads peer start g g' hex adv adv' blocks resp :
  state_commitment_hex g = Ok hex → state_commitment_hex g' = Ok hex → in_u64 adv → in_u64 adv' → in_u64 start →
  Forall wf_block blocks → wire_encode_blocks_response blocks = Ok resp →
  pull_on_stream peer start g adv (mkStream (ack_frame g' adv' ++ wire_frame resp) hangup [] [])
  = (Ok (take (Z.to_nat MAX_BLOCKS_PER_BATCH) blocks, zlen resp),
     mkStream [] hangup (hello_frame g adv ++ wire_frame (wire_encode_get_blocks start)) []).
Proof.
  intros Hg Hg' Ha Ha' Hs Hwf Henc. destruct (blocks_response_roundtrip blocks resp Hwf Henc) as [Hdec Hlen].
  unfold pull_on_stream, smap_err. unfold sbind at 1. rewrite (initiator_accepts g g' hex) by done. cbn [map_err].
  unfold sbind at 1. rewrite write_framed_ok by (by rewrite zlen_get_blocks).
  cbn [map_err]. unfold sbind at 1. rewrite <- (app_nil_r (wire_frame resp)), read_framed_app by done. cbn [map_err].
  unfold sbind, slift. by rewrite Hdec.
Qed.

Lemma push_writes what peer g g' hex adv adv' m :
  state_commitment_hex g = Ok hex → state_commitment_hex g' = Ok hex → in_u64 adv → in_u64 adv' → zlen m ≤ MAX_WIRE_FRAME_BYTES →
  push_on_stream what peer g adv (Some m) (mkStream (ack_frame g' adv') hangup [] [])
  = (Ok tt, mkStream [] hangup (hello_frame g adv ++ wire_frame m) []).
Proof.
  intros Hg Hg' Ha Ha' Hm. unfold push_on_stream, smap_err. unfold sbind at 1. rewrite <- (app_nil_r (ack_frame g' adv')).
  rewrite (initiator_accepts g g' hex) by done. cbn [map_err]. unfold sbind, slift. cbn [expect]. by rewrite write_framed_ok.
Qed.

(** ** What the session answers *)

(** The session of a healthy node is open to a peer of its genesis. *)
Record open_to (g : Genesis) (policy : InboundPeerPolicy) (n : NodeInner) : Prop := {
  ot_hex : ∃ hex, state_commitment_hex g = Ok hex ∧ state_commitment_hex (ni_genesis n) = Ok hex;
  ot_policy : in_u32 (max_app_frames_per_session policy) ∧ 0 < max_app_frames_per_session policy;
  ot_healthy : bs_poisoned (ni_store n) = false
}.

Lemma height_range n d : node_inv n d → in_u64 (height (ni_chain n)).
Proof.
  intros Hi. destruct (chain_last _ _ (nv_chain _ _ Hi)) as (tip&Hl&_&_&Hw). unfold height, blocks_height. rewrite Hl. apply Hw.
Qed.

(** Asking for blocks. *)
Lemma pull_conversation peer g policy clock n d adv start resp :
  node_inv n d → open_to g policy n → in_u64 adv → in_u64 start →
  let slice := take (Z.to_nat MAX_BLOCKS_PER_BATCH) (drop (Z.to_nat start) (bc_blocks (ni_chain n))) in
  wire_encode_blocks_response slice = Ok resp →
  conversation (pull_on_stream peer start g adv) (request g adv start) (slice, zlen resp) policy clock (n, d) (n, d).
Proof.
  intros Hi [(hex&Hg&Hn) [Hpol Hpos] Hpo] Ha Hs slice Henc. pose proof (height_range n d Hi) as Hh. pose proof (nv_chain _ _ Hi) as Hc.
  assert (Forall wf_block slice) as Hwf by (apply Forall_take, Forall_drop, (ci_wf _ _ Hc)).
  pose proof (blocks_response_roundtrip slice resp Hwf Henc) as [_ Hlen].
  destruct (session_of_one policy clock n d g hex adv (wire_encode_get_blocks start) (Some resp) (counted counters_zero) (n, d))
    as [cn Hrun]; try done.
  - unfold handle_frame. rewrite predecode_get_blocks by done. cbn [negb fst snd cn_strikes cn_stale counted counters_zero].
    unfold apply_predecoded. rewrite Hpo, (blocks_from_height_slice (ni_genesis n)); [|done|apply Hs]. fold slice. by rewrite Henc.
  - exists (ack_frame (ni_genesis n) (height (ni_chain n)) ++ wire_frame resp), cn.
    split; [|exact Hrun]. rewrite (pull_reads peer start g (ni_genesis n) hex adv _ slice resp) by done.
    unfold slice at 1. by rewrite take_take, Nat.min_id.
Qed.

(** A message without an answer. *)
Lemma push_conversation what peer g policy clock n d adv m cn' node' :
  node_inv n d → open_to g policy n → in_u64 adv → zlen m ≤ MAX_WIRE_FRAME_BYTES →
  handle_frame policy (clock 1%nat) m (counted counters_zero) (n, d) = (Ok None, cn', node') → cn_frames_seen cn' = 1 →
  conversation (push_on_stream what peer g adv (Some m)) (hello_frame g adv ++ wire_frame m) tt policy clock (n, d) node'.
Proof.
  intros Hi [(hex&Hg&Hn) [Hpol Hpos] Hpo] Ha Hm Hrun Hseen. pose proof (height_range n d Hi) as Hh.
  destruct (session_of_one policy clock n d g hex adv m None cn' node') as [cn Hs]; [done..|].
  exists (ack_frame (ni_genesis n) (height (ni_chain n))), cn. rewrite app_nil_r in Hs. split; [|exact Hs].
  by rewrite (push_writes what peer g (ni_genesis n) hex).
Qed.

(** The connection on which a node answers the request of a peer at height
    [h]. *)
Definition dial (policy : InboundPeerPolicy) (clock : nat → Z) (node : NodeInner * Disk) (g : Genesis) (h : Z) : Res IoError Stream :=
  match peer_connection_loop policy alone clock (mkStream (request g h (saturating_add h 1)) hangup [] []) node with
  | Some (_, _, s, _) => Ok (mkStream (st_out s) hangup [] [])
  | None => Err hangup
  end.

Lemma pull_dial policy clock node node' peer g h a :
  conversation (pull_on_stream peer (saturating_add h 1) g h) (request g h (saturating_add h 1)) a policy clock node node' →
  pull_blocks_from_peer (dial policy clock node g h) peer (saturating_add h 1) g h = Ok a.
Proof.
  intros (replied&cn&Hc&Hs). unfold dial. rewrite Hs. unfold pull_blocks_from_peer. cbn [map_err rbind st_out]. by rewrite Hc.
Qed.
End talk.
