(* ===== verification/Connect.v ===== *)
(** * Outbound connections ([network.rs])

    Opening a connection and the client calls with their default settings.
    Name resolution and [TcpStream::connect_timeout] are operating-system calls
    and parameters. Deadlines set on an open stream only decide which error its
    reads end with, so they do not appear. *)

From Stdlib Require Import ZArith Lia.
From stdpp Require Import base strings list gmap.
From S2P Require Import Prelude Bytes Io Crypto Transaction Wallet Block Encoding Genesis Ledger Mempool MempoolQueue Blockchain Storage StorageSpec Seen PeerBook Wire Node Session.

Definition PEER_CONNECT_TIMEOUT_SECS : Z := 10.

(** The network at one moment. *)
Record Network := mkNetwork {
  SocketAddr : Type;
  to_socket_addrs : string → Res IoError (list SocketAddr);
  connect_timeout : SocketAddr → Z → Res IoError Stream
}.

(** The first address of the peer is tried, and only that one. *)
Definition tcp_connect_peer (net : Network) (peer : string) : Res IoError Stream :=
  let? addrs := map_err (λ e, mkIoError InvalidInput (peer +:+ ": " +:+ IoError_display e)) (to_socket_addrs net peer) in
  let? addr := ok_or (head addrs) (mkIoError InvalidInput ("no socket addresses for " +:+ peer)) in
  connect_timeout net addr PEER_CONNECT_TIMEOUT_SECS.

Section connect.
Context `{CryptoLib}.

(** [nets i] is the network in round [i]. *)
Definition sync_from_peer (nets : nat → Network) (unix_now_secs : nat → Z) (peer : string) (budget : SyncWorkBudget)
    (node : NodeInner * Disk) : option (Res string SyncFromPeerOutcome * (NodeInner * Disk)) :=
  sync_from_peer_with_clock peer budget (λ i, tcp_connect_peer (nets i) peer) unix_now_secs node.

Definition push_block_to_peer (net : Network) (peer : string) (local_genesis : Genesis) (local_advisory_height : Z)
    (block : Block) : Res string unit * option Stream :=
  push_block_to_peer_with_timeouts (tcp_connect_peer net peer) peer local_genesis local_advisory_height block.

Definition push_tx_to_peer (net : Network) (peer : string) (local_genesis : Genesis) (local_advisory_height : Z)
    (tx : Transaction) : Res string unit * option Stream :=
  push_tx_to_peer_with_timeouts (tcp_connect_peer net peer) peer local_genesis local_advisory_height tx.
End connect.

(** The calls return. *)
Record net_ok (net : Network) : Prop := {
  no_resolve p : to_socket_addrs net p ≠ Panic;
  no_connect a t : connect_timeout net a t ≠ Panic
}.

Lemma tcp_connect_no_panic net peer : net_ok net → tcp_connect_peer net peer ≠ Panic.
Proof.
  intros [Hr Hc]. unfold tcp_connect_peer. apply rbind_no_panic; [apply map_err_no_panic, Hr|]. intros addrs.
  apply rbind_no_panic; [apply ok_or_no_panic|]. intros a. apply Hc.
Qed.

(** Catching up over any network that answers at all: no address, refusals, or
    any bytes. *)
Lemma sync_from_peer_spec `{CryptoLaws} nets clock peer budget n d :
  (∀ i, net_ok (nets i)) → node_inv n d → in_u32 (max_rounds_per_call budget) → in_u32 (max_blocks_per_call budget) →
  ∃ r n' d' bs, sync_from_peer nets clock peer budget (n, d) = Some (r, (n', d'))
    ∧ node_inv n' d' ∧ r ≠ Panic ∧ bc_blocks (ni_chain n') = bc_blocks (ni_chain n) ++ bs.
Proof.
  intros Hnet Hi Hr Hb.
  destruct (sync_spec peer budget (λ i, tcp_connect_peer (nets i) peer) clock n d) as (r&n'&d'&bs&Heq&Hi'&Hnp&Hbl&_); [|done..|].
  - intros i. by apply tcp_connect_no_panic.
  - by exists r, n', d', bs.
Qed.
