(* ===== verification/Slots.v ===== *)
(** * The pool of inbound session slots ([network.rs], [InboundSlotPool])

    The accept loop takes a slot before it spawns a session thread, and the
    thread gives it back when its permit is dropped. Both are retry loops on
    one atomic counter; a thread is the point it has reached in its loop, and
    every interleaving of their atomic steps is a path of [slot_step]. A weak
    compare-exchange may also fail spuriously. *)

From Stdlib Require Import ZArith Lia.
From stdpp Require Import base list relations.
From S2P Require Import Prelude.

(** Where a thread is: before its [load], with a loaded value in
    [try_acquire], holding a permit, in [drop] before and after its [load], or
    done ([refused] when no slot was free). *)
Inductive SlotThread :=
| Starting
| Acquiring (n : nat)
| Holding
| Dropping
| Releasing (c : nat)
| Finished (refused : bool).

Record SlotPool := mkSlotPool { sp_max : nat; sp_active : nat }.

Definition InboundSlotPool_new (max : nat) : SlotPool := mkSlotPool max 0.

(** One atomic step of [try_acquire]: the load, then one turn of the loop
    ([spurious]: the weak exchange fails although the values agree). *)
Definition try_acquire_step (spurious : bool) (p : SlotPool) (t : SlotThread) : option (SlotPool * SlotThread) :=
  match t with
  | Starting => Some (p, Acquiring (sp_active p))
  | Acquiring n =>
    if Nat.leb (sp_max p) n then Some (p, Finished true)
    else if Nat.eqb (sp_active p) n && negb spurious
    then Some (mkSlotPool (sp_max p) (n + 1), Holding)
    else Some (p, Acquiring (sp_active p))
  | _ => None
  end.

(** One atomic step of [drop]: the load of the counter, then the exchange, or
    the early exit on zero. *)
Definition drop_step (p : SlotPool) (t : SlotThread) : option (SlotPool * SlotThread) :=
  match t with
  | Holding => Some (p, Dropping)
  | Dropping => Some (p, Releasing (sp_active p))
  | Releasing c =>
    if Nat.eqb c 0 then Some (p, Finished false)
    else if Nat.eqb (sp_active p) c then Some (mkSlotPool (sp_max p) (c - 1), Finished false)
    else Some (p, Dropping)
  | _ => None
  end.

(** A step of some thread. *)
Inductive slot_step : SlotPool * list SlotThread → SlotPool * list SlotThread → Prop :=
| ss_acquire p ts i t sp p' t' :
    ts !! i = Some t → try_acquire_step sp p t = Some (p', t') → slot_step (p, ts) (p', <[ i := t' ]> ts)
| ss_drop p ts i t p' t' :
    ts !! i = Some t → drop_step p t = Some (p', t') → slot_step (p, ts) (p', <[ i := t' ]> ts).

(** The thread owns a slot. *)
Definition owns (t : SlotThread) : bool :=
  match t with Holding | Dropping | Releasing _ => true | _ => false end.

Definition owners (ts : list SlotThread) : nat := length (filter (λ t, owns t = true) ts).

Definition owns_n (t : SlotThread) : nat := if owns t then 1 else 0.

Lemma owners_cons t ts : owners (t :: ts) = (owns_n t + owners ts)%nat.
Proof. unfold owners, owns_n. rewrite filter_cons. destruct (owns t); [rewrite decide_True by done|rewrite decide_False by done]; done. Qed.

Lemma owners_insert ts i t t' :
  ts !! i = Some t → (owners (<[ i := t' ]> ts) + owns_n t = owners ts + owns_n t')%nat.
Proof.
  revert i. induction ts as [|x ts IH]; intros [|i] Hi; simpl in Hi; [done|done| |].
  - injection Hi as ->. change (<[ 0%nat := t' ]> (t :: ts)) with (t' :: ts). rewrite !owners_cons. lia.
  - change (<[ S i := t' ]> (x :: ts)) with (x :: <[ i := t' ]> ts). rewrite !owners_cons. specialize (IH i Hi). lia.
Qed.

Lemma owners_pos ts i t : ts !! i = Some t → owns t = true → (1 ≤ owners ts)%nat.
Proof.
  intros Hi Ho. assert (t ∈ filter (λ t, owns t = true) ts) as Hin.
  { apply list_elem_of_filter. split; [done|]. by eapply list_elem_of_lookup_2. }
  unfold owners. destruct (filter _ ts); [by apply elem_of_nil in Hin|simpl; lia].
Qed.

(** The counter is the number of live permits, never above the cap, and no
    thread in [drop] has read a zero. *)
Definition slots_inv (st : SlotPool * list SlotThread) : Prop :=
  sp_active st.1 = owners st.2 ∧ (sp_active st.1 ≤ sp_max st.1)%nat ∧ (Releasing 0 ∉ st.2).

Lemma not_zero_insert (ts : list SlotThread) (i : nat) t' : Releasing 0 ∉ ts → t' ≠ Releasing 0 → Releasing 0 ∉ <[ i := t' ]> ts.
Proof.
  intros Hn Ht Hin. apply list_elem_of_lookup in Hin as [j Hj].
  apply list_lookup_insert_Some in Hj as [(_&Heq&_)|[_ Hj]]; [congruence|]. apply Hn. by eapply list_elem_of_lookup_2.
Qed.

Lemma slot_step_inv st st' : slots_inv st → slot_step st st' → slots_inv st'.
Proof.
  intros Hi Hs. destruct Hs as [p ts i t sp p' t' Hl Hst|p ts i t p' t' Hl Hst]; destruct Hi as (Hact&Hmax&Hz);
    cbn [fst snd] in *; pose proof (owners_insert ts i t t' Hl) as Hown.
  - destruct t as [|n| | | |]; cbn [try_acquire_step] in Hst; [| |done..].
    { injection Hst as <- <-. unfold owns_n in Hown; cbn [owns] in Hown. unfold slots_inv. cbn [fst snd]. split_and!; [lia|done|by apply not_zero_insert]. }
    destruct (Nat.leb_spec (sp_max p) n) as [Hfull|Hroom].
    { injection Hst as <- <-. unfold owns_n in Hown; cbn [owns] in Hown. unfold slots_inv. cbn [fst snd]. split_and!; [lia|done|by apply not_zero_insert]. }
    destruct (Nat.eqb_spec (sp_active p) n) as [Heq|Hne]; [destruct sp|]; simpl in Hst; injection Hst as <- <-; unfold owns_n in Hown; cbn [owns] in Hown;
      unfold slots_inv; cbn [fst snd sp_active sp_max]; (split_and!; [lia|lia|by apply not_zero_insert]).
  - destruct t as [| | | |c|]; cbn [drop_step] in Hst; [done|done| | | |done].
    + injection Hst as <- <-. unfold owns_n in Hown; cbn [owns] in Hown. unfold slots_inv. cbn [fst snd]. split_and!; [lia|done|by apply not_zero_insert].
    + pose proof (owners_pos ts i _ Hl eq_refl). injection Hst as <- <-. unfold owns_n in Hown; cbn [owns] in Hown. unfold slots_inv. cbn [fst snd].
      split_and!; [lia|done|apply not_zero_insert; [done|]]. intros [= Hx]. lia.
    + destruct (Nat.eqb_spec c 0) as [->|Hc]; [by destruct Hz; eapply list_elem_of_lookup_2|].
      destruct (Nat.eqb_spec (sp_active p) c) as [Heq|Hne]; injection Hst as <- <-; unfold owns_n in Hown; cbn [owns] in Hown; unfold slots_inv;
        cbn [fst snd sp_active sp_max]; (split_and!; [lia|lia|by apply not_zero_insert]).
Qed.

Lemma slot_step_max st st' : slot_step st st' → sp_max st'.1 = sp_max st.1.
Proof.
  intros [p ts i t sp p' t' _ Hst|p ts i t p' t' _ Hst]; cbn [fst].
  - destruct t; cbn [try_acquire_step] in Hst; simplify_eq/=; [done|]. repeat case_match; by simplify_eq/=.
  - destruct t; cbn [drop_step] in Hst; simplify_eq/=; [done|done|]. repeat case_match; by simplify_eq/=.
Qed.

(** The inbound session cap holds under every interleaving. From a fresh
    pool, with any number of threads acquiring and dropping permits and any
    spurious failures of the weak exchange, the counter always equals the
    number of live permits and never exceeds the cap; no thread that drops a
    permit ever reads zero, so a slot is never lost. *)
Theorem slot_cap max n st :
  rtc slot_step (InboundSlotPool_new max, replicate n Starting) st →
  sp_active st.1 = owners st.2 ∧ (owners st.2 ≤ max)%nat ∧ (Releasing 0 ∉ st.2).
Proof.
  intros Hr. assert (slots_inv st ∧ sp_max st.1 = max) as [(Hact&Hmax&Hz) Hm].
  { remember (InboundSlotPool_new max, replicate n Starting) as st0 eqn:Hst0. revert Hst0.
    intros Hst0. assert (slots_inv st0 ∧ sp_max st0.1 = max) as Hinit.
    { subst st0. split; [|done]. split_and!; cbn [fst snd InboundSlotPool_new sp_active sp_max].
      - assert (owners (replicate n Starting) = 0%nat) as ->; [|done].
        clear. induction n as [|n IH]; [done|]. cbn [replicate]. by rewrite owners_cons, IH.
      - lia.
      - intros Hin. by apply elem_of_replicate in Hin as [? _]. }
    clear Hst0. induction Hr as [st|st1 st2 st3 Hs Hr IH]; [done|]. apply IH. destruct Hinit as [Hi Hm].
    split; [by eapply slot_step_inv|]. rewrite <- Hm. by apply slot_step_max. }
  split_and!; [done|lia|done].
Qed.

(** Two threads race for one slot: both read zero, one wins. *)
Definition race : SlotPool * list SlotThread := (mkSlotPool 1 1, [Holding; Finished true]).

Lemma slot_cap_witness : (owners race.2 ≤ 1)%nat.
Proof.
  refine (proj1 (proj2 (slot_cap 1 2 race _))).
  eapply rtc_l; [apply (ss_acquire _ _ 0 Starting false); reflexivity|].
  eapply rtc_l; [apply (ss_acquire _ _ 1 Starting false); reflexivity|].
  eapply rtc_l; [apply (ss_acquire _ _ 0 (Acquiring 0) false); reflexivity|].
  eapply rtc_l; [apply (ss_acquire _ _ 1 (Acquiring 0) false); reflexivity|].
  eapply rtc_l; [apply (ss_acquire _ _ 1 (Acquiring 1) false); reflexivity|].
  exact (rtc_refl _ race).
Defined.
