(* ===== verification/Args.v ===== *)
(** * Command line arguments ([main.rs])

    The three argument parsers. [run_args_exact] says which configurations
    [node run] can be started with. *)

From Stdlib Require Import ZArith Lia Ascii.
From stdpp Require Import base strings list.
From S2P Require Import Prelude Bytes Io Wire Node Session.

Definition WALLET_FILE : string := "wallet.seed".
Definition CHAIN_FILE : string := "chain.blocks".
Definition PENDING_TX_FILE : string := "pending_tx.tril".
Definition GENESIS_FILE : string := "genesis.toml".
Definition DEFAULT_INTERVAL_SECS : Z := 2.
Definition DEFAULT_MEMPOOL_CAPACITY : Z := 10000.
Definition MAX_MEMPOOL_CAPACITY : Z := 1000000.

(** ** [str::parse] for unsigned integers, [str::split] *)

Fixpoint parse_digits (max acc : Z) (s : string) : option Z :=
  match s with
  | "" => Some acc
  | String a s' =>
    let d := byte_to_Z (byte_of_ascii a) - 48 in
    if (0 <=? d) && (d <=? 9) then
      let acc := acc * 10 + d in
      if max <? acc then None else parse_digits max acc s'
    else None
  end.

(** [s.parse::<uN>()] with the largest value [max]: an optional plus sign and at
    least one digit. *)
Definition parse_uint (max : Z) (s : string) : option Z :=
  match s with
  | "" => None
  | String a s' =>
    if Ascii.eqb a "+"%char then
      match s' with "" => None | _ => parse_digits max 0 s' end
    else parse_digits max 0 s
  end.

Fixpoint split_on (c : ascii) (s : string) : list string :=
  match s with
  | "" => [""]
  | String a s' =>
    if Ascii.eqb a c then "" :: split_on c s'
    else
      match split_on c s' with
      | h :: t => String a h :: t
      | [] => [String a ""]
      end
  end.

(** ** [node run] *)

Record RunConfig := mkRunConfig {
  rc_data_dir : string;
  rc_genesis_flag : option string;
  rc_interval_secs : Z;
  rc_listen : option string;
  rc_peers : list string;
  rc_max_future_drift_secs : option Z;
  rc_inbound_peer_policy : InboundPeerPolicy;
  rc_mempool_capacity : Z
}.

(** The initial values of the local variables. *)
Definition run_defaults : RunConfig :=
  mkRunConfig "." None DEFAULT_INTERVAL_SECS None [] None InboundPeerPolicy_default DEFAULT_MEMPOOL_CAPACITY.

(** A [u32] limit of at least one. *)
Definition parse_limit (flag v : string) : Res string Z :=
  let? n := ok_or (parse_uint u32_max v) (flag +:+ " must be a u32 >= 1") in
  if n <? 1 then Err (flag +:+ " must be >= 1") else Ok n.

(** The effect of one flag with its value. *)
Definition run_flag (flag v : string) (c : RunConfig) : Res string RunConfig :=
  let 'mkRunConfig dir gen int lis peers drift pol cap := c in
  let 'mkInboundPolicy sess idle wr perr fr inv stale tx := pol in
  if String.eqb flag "--data-dir" then Ok (mkRunConfig v gen int lis peers drift pol cap)
  else if String.eqb flag "--genesis" then Ok (mkRunConfig dir (Some v) int lis peers drift pol cap)
  else if String.eqb flag "--interval-secs" then
    let? interval := ok_or (parse_uint u64_max v) "interval-secs must be a positive integer" in
    if interval =? 0 then Err "--interval-secs must be > 0"
    else Ok (mkRunConfig dir gen interval lis peers drift pol cap)
  else if String.eqb flag "--listen" then Ok (mkRunConfig dir gen int (Some v) peers drift pol cap)
  else if String.eqb flag "--peers" then
    Ok (mkRunConfig dir gen int lis (filter (λ s, s ≠ "") (str_trim <$> split_on ","%char v)) drift pol cap)
  else if String.eqb flag "--max-future-drift-secs" then
    let? d := ok_or (parse_uint u64_max v) "max-future-drift-secs must be a u64" in
    Ok (mkRunConfig dir gen int lis peers (Some d) pol cap)
  else if String.eqb flag "--max-inbound-peers" then
    let? n := ok_or (parse_uint u64_max v) "--max-inbound-peers must be a non-negative integer" in
    Ok (mkRunConfig dir gen int lis peers drift (mkInboundPolicy n idle wr perr fr inv stale tx) cap)
  else if String.eqb flag "--peer-idle-timeout-secs" then
    let? n := ok_or (parse_uint u64_max v) "--peer-idle-timeout-secs must be a positive integer" in
    if n =? 0 then Err "--peer-idle-timeout-secs must be >= 1"
    else Ok (mkRunConfig dir gen int lis peers drift (mkInboundPolicy sess n wr perr fr inv stale tx) cap)
  else if String.eqb flag "--peer-write-timeout-secs" then
    let? n := ok_or (parse_uint u64_max v) "--peer-write-timeout-secs must be a non-negative integer" in
    Ok (mkRunConfig dir gen int lis peers drift
          (mkInboundPolicy sess idle (if n =? 0 then None else Some n) perr fr inv stale tx) cap)
  else if String.eqb flag "--peer-max-wire-errors" then
    let? n := parse_limit flag v in
    Ok (mkRunConfig dir gen int lis peers drift (mkInboundPolicy sess idle wr n fr inv stale tx) cap)
  else if String.eqb flag "--peer-max-frames" then
    let? n := parse_limit flag v in
    Ok (mkRunConfig dir gen int lis peers drift (mkInboundPolicy sess idle wr perr n inv stale tx) cap)
  else if String.eqb flag "--peer-max-stale-blocks" then
    let? n := parse_limit flag v in
    Ok (mkRunConfig dir gen int lis peers drift (mkInboundPolicy sess idle wr perr fr inv n tx) cap)
  else if String.eqb flag "--peer-max-inbound-tx" then
    let? n := parse_limit flag v in
    Ok (mkRunConfig dir gen int lis peers drift (mkInboundPolicy sess idle wr perr fr inv stale n) cap)
  else if String.eqb flag "--mempool-capacity" then
    let? n := ok_or (parse_uint u64_max v) "--mempool-capacity must be a usize >= 1" in
    if n <? 1 then Err "--mempool-capacity must be >= 1"
    else if MAX_MEMPOOL_CAPACITY <? n
    then Err ("--mempool-capacity must be <= " +:+ fmt_uint MAX_MEMPOOL_CAPACITY +:+ " (local RAM bound)")
    else Ok (mkRunConfig dir gen int lis peers drift pol n)
  else Err ("unknown flag: " +:+ flag).

(** The error for a flag at the end of the arguments. *)
Definition run_missing (flag : string) : string :=
  if String.eqb flag "--genesis" then "--genesis needs a file path"
  else if String.eqb flag "--listen" then "--listen needs HOST:PORT"
  else if String.eqb flag "--peers" then "--peers needs comma-separated HOST:PORT list"
  else if bool_decide (flag ∈ ["--data-dir"; "--interval-secs"; "--max-future-drift-secs"; "--max-inbound-peers";
                               "--peer-idle-timeout-secs"; "--peer-write-timeout-secs"; "--peer-max-wire-errors";
                               "--peer-max-frames"; "--peer-max-stale-blocks"; "--peer-max-inbound-tx";
                               "--mempool-capacity"])
  then flag +:+ " needs a value"
  else "unknown flag: " +:+ flag.

Fixpoint parse_run_from (args : list string) (c : RunConfig) : Res string RunConfig :=
  match args with
  | [] => Ok c
  | flag :: rest =>
    match rest with
    | [] => Err (run_missing flag)
    | v :: rest' => let? c' := run_flag flag v c in parse_run_from rest' c'
    end
  end.

Definition parse_run_args (args : list string) : Res string RunConfig := parse_run_from args run_defaults.

(** ** [node init] and [node send] *)

Fixpoint parse_init_from (args : list string) (data_dir : string) (genesis_balance : option Z) :
    Res string (string * option Z) :=
  match args with
  | [] => Ok (data_dir, genesis_balance)
  | flag :: rest =>
    if String.eqb flag "--data-dir" then
      match rest with
      | [] => Err "--data-dir needs a value"
      | v :: rest' => parse_init_from rest' v genesis_balance
      end
    else if String.eqb flag "--genesis-balance" then
      match rest with
      | [] => Err "--genesis-balance needs a u64"
      | v :: rest' =>
        match parse_uint u64_max v with
        | None => Err "--genesis-balance must be a u64"
        | Some n => if n =? 0 then Err "--genesis-balance must be > 0" else parse_init_from rest' data_dir (Some n)
        end
      end
    else Err ("unknown flag: " +:+ flag)
  end.

Definition parse_init_args (args : list string) : Res string (string * option Z) := parse_init_from args "." None.

Fixpoint parse_send_from (args : list string) (data_dir : string) (genesis_path : option string) (rest : list string) :
    Res string (string * option string * list string) :=
  match args with
  | [] => Ok (data_dir, genesis_path, rest)
  | a :: args' =>
    if String.eqb a "--data-dir" then
      match args' with
      | [] => Err "--data-dir needs a value"
      | v :: args'' => parse_send_from args'' v genesis_path rest
      end
    else if String.eqb a "--genesis" then
      match args' with
      | [] => Err "--genesis needs a file path"
      | v :: args'' => parse_send_from args'' data_dir (Some v) rest
      end
    else parse_send_from args' data_dir genesis_path (rest ++ [a])
  end.

Definition parse_send_args (args : list string) : Res string (string * option string * list string) :=
  parse_send_from args "." None [].

(** ** The command *)

Inductive Command :=
| CmdInit (data_dir : string) (genesis_balance : option Z)
| CmdRun (config : RunConfig)
| CmdSend (data_dir : string) (genesis_flag : option string) (receiver : string) (amount fee : Z).

(** [run_cli] up to the call of the command; [args] starts with the name of the
    program. *)
Definition run_cli (args : list string) : Res string Command :=
  match args with
  | _ :: cmd :: rest =>
    if String.eqb cmd "init" then
      let? (dir, genesis_bal) := parse_init_args rest in
      Ok (CmdInit dir genesis_bal)
    else if String.eqb cmd "run" then
      let? config := parse_run_args rest in
      Ok (CmdRun config)
    else if String.eqb cmd "send" then
      let? (dir, genesis, rest) := parse_send_args rest in
      match rest with
      | receiver :: a :: more =>
        let? amount := ok_or (parse_uint u64_max a) "amount must be a u64" in
        let? fee := match more with
                    | f :: _ => ok_or (parse_uint u64_max f) "fee must be a u64"
                    | [] => Ok 1
                    end in
        Ok (CmdSend dir genesis receiver amount fee)
      | _ => Err "send: need RECEIVER AMOUNT [FEE]"
      end
    else Err "unknown command"
  | _ => Err "missing command"
  end.

(** ** Integers and lists on the command line *)

Lemma parse_digits_range max acc s n : 0 ≤ acc ≤ max → parse_digits max acc s = Some n → 0 ≤ n ≤ max.
Proof.
  revert acc. induction s as [|a s IH]; intros acc Ha; cbn [parse_digits]; [by intros [= <-]|].
  destruct (Z.leb_spec 0 (byte_to_Z (byte_of_ascii a) - 48)); cbn [andb]; [|done].
  destruct (_ <=? 9); [|done]. destruct (Z.ltb_spec max (acc * 10 + (byte_to_Z (byte_of_ascii a) - 48))); [done|].
  apply IH. lia.
Qed.

Lemma parse_uint_range max s n : 0 ≤ max → parse_uint max s = Some n → 0 ≤ n ≤ max.
Proof.
  intros Hm. unfold parse_uint. destruct s as [|a s]; [done|].
  destruct (Ascii.eqb a _); [destruct s; [done|]|]; apply parse_digits_range; lia.
Qed.

Lemma parse_digits_value max acc s :
  Forall is_digit_byte (str_bytes s) → 0 ≤ acc → acc * 10 ^ zlen (str_bytes s) + digits_value s ≤ max →
  parse_digits max acc s = Some (acc * 10 ^ zlen (str_bytes s) + digits_value s).
Proof.
  revert acc. induction s as [|a s IH]; intros acc Hd Ha Hle; cbn [parse_digits].
  { change (digits_value "") with 0. change (zlen (str_bytes "")) with 0. rewrite Z.pow_0_r. f_equal. lia. }
  rewrite str_bytes_cons in Hd. apply Forall_cons in Hd as [Hda Hd]. change (Ascii.byte_of_ascii a) with (byte_of_ascii a) in *.
  set (d := byte_to_Z (byte_of_ascii a) - 48). unfold is_digit_byte in Hda.
  assert (acc * 10 ^ zlen (str_bytes (String a s)) + digits_value (String a s)
          = (acc * 10 + d) * 10 ^ zlen (str_bytes s) + digits_value s) as Heq.
  { unfold digits_value. rewrite str_bytes_cons. cbn [foldl]. rewrite digits_value_acc.
    change (Ascii.byte_of_ascii a) with (byte_of_ascii a). fold d. unfold zlen. cbn [length].
    replace (Z.of_nat (S (length (str_bytes s)))) with (Z.of_nat (length (str_bytes s)) + 1) by lia.
    rewrite Z.pow_add_r by lia. lia. }
  rewrite Heq in *. assert (0 ≤ digits_value s) as Hpos.
  { unfold digits_value. clear -Hd. assert (∀ acc, 0 ≤ acc → 0 ≤ foldl (λ acc b, acc * 10 + (byte_to_Z b - 48)) acc (str_bytes s)) as Hf; [|by apply Hf].
    induction Hd as [|b l [Hb _] _ IH]; intros acc Hacc; simpl; [done|]. apply IH. lia. }
  assert (1 ≤ 10 ^ zlen (str_bytes s)) by (pose proof (Z.pow_pos_nonneg 10 (zlen (str_bytes s)) ltac:(lia) (zlen_nonneg _)); lia).
  destruct (Z.leb_spec 0 d); [|lia]. destruct (Z.leb_spec d 9); [|lia]. cbn [andb].
  destruct (Z.ltb_spec max (acc * 10 + d)); [nia|]. apply IH; [done|lia|done].
Qed.

(** Printed numbers are read back. *)
Lemma parse_uint_fmt max z : 0 ≤ z ≤ max → parse_uint max (fmt_uint z) = Some z.
Proof.
  intros Hz. pose proof (fmt_uint_digits z) as Hd. pose proof (digits_value_fmt z ltac:(lia)) as Hv.
  assert (parse_digits max 0 (fmt_uint z) = Some z) as Hp by (rewrite parse_digits_value; [f_equal; lia|done|lia|lia]).
  assert (fmt_uint z ≠ "") as Hne.
  { assert (∀ n x s, s ≠ "" → fmt_aux n x s ≠ "") as Hf.
    { clear. induction n as [|n IH]; intros x s Hs; [done|]. cbn [fmt_aux]. case_match; [done|]. by apply IH. }
    unfold fmt_uint. cbn [fmt_aux]. case_match; [done|]. by apply Hf. }
  unfold parse_uint. destruct (fmt_uint z) as [|a s] eqn:Hf; [done|].
  destruct (Ascii.eqb_spec a "+"%char) as [->|]; [|done]. rewrite str_bytes_cons in Hd. apply Forall_cons in Hd as [[Hlo _] _].
  by vm_compute in Hlo.
Qed.

Lemma split_on_app c p rest : split_on c p = [p] → split_on c (p +:+ String c rest) = p :: split_on c rest.
Proof.
  induction p as [|a p IH]; intros Hp.
  { change (split_on c (String c rest) = "" :: split_on c rest). cbn [split_on]. by rewrite Ascii.eqb_refl. }
  change (split_on c (String a (p +:+ String c rest)) = String a p :: split_on c rest). cbn [split_on] in *.
  destruct (Ascii.eqb a c); [by destruct p as [|? ?]; cbn [split_on] in Hp; [|destruct (Ascii.eqb _ _); [|destruct (split_on c p)]]|].
  destruct (split_on c p) as [|h t] eqn:Hs; [by destruct p; cbn [split_on] in Hs; [|destruct (Ascii.eqb _ _); [|destruct (split_on c p)]]|].
  injection Hp as -> ->. by rewrite IH.
Qed.

Lemma split_on_join c ps : ps ≠ [] → Forall (λ p, split_on c p = [p]) ps → split_on c (join (String c "") ps) = ps.
Proof.
  intros Hne Hps. induction Hps as [|p ps Hp Hps IH]; [done|]. destruct ps as [|q ps]; [done|].
  change (join (String c "") (p :: q :: ps)) with (p +:+ String c (join (String c "") (q :: ps))).
  rewrite split_on_app by done. by rewrite IH.
Qed.

(** ** The configurations of [node run] *)

Definition at_least_one (max z : Z) : Prop := 1 ≤ z ≤ max.

Record wf_run_config (c : RunConfig) : Prop := {
  wc_interval : at_least_one u64_max (rc_interval_secs c);
  wc_peers : Forall (λ p, p ≠ "") (rc_peers c);
  wc_drift : ∀ d, rc_max_future_drift_secs c = Some d → in_u64 d;
  wc_capacity : at_least_one MAX_MEMPOOL_CAPACITY (rc_mempool_capacity c);
  wc_sessions : in_u64 (max_concurrent_sessions (rc_inbound_peer_policy c));
  wc_idle : at_least_one u64_max (idle_read_timeout (rc_inbound_peer_policy c));
  wc_write : ∀ w, write_timeout (rc_inbound_peer_policy c) = Some w → at_least_one u64_max w;
  wc_errors : at_least_one u32_max (max_protocol_errors_per_session (rc_inbound_peer_policy c));
  wc_frames : at_least_one u32_max (max_app_frames_per_session (rc_inbound_peer_policy c));
  wc_stale : at_least_one u32_max (max_stale_decoded_blocks_per_session (rc_inbound_peer_policy c));
  wc_tx : at_least_one u32_max (max_inbound_tx_per_session (rc_inbound_peer_policy c));
  wc_invalid : max_invalid_network_blocks_per_session (rc_inbound_peer_policy c) = 24
}.

(** A peer address that survives the comma-separated list. *)
Definition plain_peer (p : string) : Prop := split_on ","%char p = [p] ∧ str_trim p = p.

(** The arguments that ask for a configuration. *)
Definition render (c : RunConfig) : list string :=
  let p := rc_inbound_peer_policy c in
  ["--data-dir"; rc_data_dir c]
  ++ match rc_genesis_flag c with Some g => ["--genesis"; g] | None => [] end
  ++ ["--interval-secs"; fmt_uint (rc_interval_secs c)]
  ++ match rc_listen c with Some l => ["--listen"; l] | None => [] end
  ++ ["--peers"; join "," (rc_peers c)]
  ++ match rc_max_future_drift_secs c with Some d => ["--max-future-drift-secs"; fmt_uint d] | None => [] end
  ++ ["--max-inbound-peers"; fmt_uint (max_concurrent_sessions p);
      "--peer-idle-timeout-secs"; fmt_uint (idle_read_timeout p);
      "--peer-write-timeout-secs"; fmt_uint (default 0 (write_timeout p));
      "--peer-max-wire-errors"; fmt_uint (max_protocol_errors_per_session p);
      "--peer-max-frames"; fmt_uint (max_app_frames_per_session p);
      "--peer-max-stale-blocks"; fmt_uint (max_stale_decoded_blocks_per_session p);
      "--peer-max-inbound-tx"; fmt_uint (max_inbound_tx_per_session p);
      "--mempool-capacity"; fmt_uint (rc_mempool_capacity c)].

Lemma parse_limit_ok flag v n : parse_limit flag v = Ok n → at_least_one u32_max n.
Proof.
  unfold parse_limit. destruct (parse_uint u32_max v) as [m|] eqn:Hp; [|done]. cbn [ok_or rbind].
  apply parse_uint_range in Hp; [|done]. destruct (Z.ltb_spec m 1); [done|]. intros [= <-]. split; lia.
Qed.

Lemma parse_limit_fmt flag n : at_least_one u32_max n → parse_limit flag (fmt_uint n) = Ok n.
Proof.
  intros [Hlo Hhi]. unfold parse_limit. rewrite parse_uint_fmt by lia. cbn [ok_or rbind].
  destruct (Z.ltb_spec n 1); [lia|done].
Qed.

Lemma u64_max_nonneg : 0 ≤ u64_max.
Proof. done. Qed.

(** The value of a numeric flag, of a limit. *)
Local Ltac num Hf v :=
  let n := fresh "n" in let Hn := fresh "Hn" in
  destruct (parse_uint u64_max v) as [n|] eqn:Hn; [|done]; cbn [ok_or rbind] in Hf;
  apply parse_uint_range in Hn; [|apply u64_max_nonneg].
Local Ltac limit Hf flag v :=
  let n := fresh "n" in let Hn := fresh "Hn" in
  destruct (parse_limit flag v) as [n| |] eqn:Hn; [|done..]; cbn [rbind] in Hf; apply parse_limit_ok in Hn.

Lemma run_flag_wf flag v c c' : wf_run_config c → run_flag flag v c = Ok c' → wf_run_config c'.
Proof.
  intros [] Hf. destruct c as [dir gen int lis peers drift [sess idle wr perr fr inv stale tx] cap].
  cbn [rc_interval_secs rc_peers rc_max_future_drift_secs rc_mempool_capacity rc_inbound_peer_policy max_concurrent_sessions
       idle_read_timeout write_timeout max_protocol_errors_per_session max_app_frames_per_session
       max_stale_decoded_blocks_per_session max_inbound_tx_per_session max_invalid_network_blocks_per_session] in *.
  unfold run_flag in Hf.
  repeat match type of Hf with (if String.eqb flag ?f then _ else _) = _ => destruct (String.eqb flag f) end;
    [by injection Hf as <-|by injection Hf as <-|..|done].
  - num Hf v. destruct (Z.eqb_spec n 0); [done|]. injection Hf as <-. split; cbn; try done. split; lia.
  - by injection Hf as <-.
  - injection Hf as <-. split; cbn; try done. apply Forall_forall. intros x Hx. by apply list_elem_of_filter in Hx as [? _].
  - num Hf v. injection Hf as <-. split; cbn; try done. by intros d [= <-].
  - num Hf v. injection Hf as <-. split; cbn; done.
  - num Hf v. destruct (Z.eqb_spec n 0); [done|]. injection Hf as <-. split; cbn; try done. split; lia.
  - num Hf v. injection Hf as <-. split; cbn; try done. destruct (Z.eqb_spec n 0); [done|]. intros w [= <-]. split; lia.
  - limit Hf flag v. injection Hf as <-. split; cbn; done.
  - limit Hf flag v. injection Hf as <-. split; cbn; done.
  - limit Hf flag v. injection Hf as <-. split; cbn; done.
  - limit Hf flag v. injection Hf as <-. split; cbn; done.
  - num Hf v. destruct (Z.ltb_spec n 1); [done|]. destruct (Z.ltb_spec MAX_MEMPOOL_CAPACITY n); [done|].
    injection Hf as <-. split; cbn; try done.
Qed.

Lemma run_defaults_wf : wf_run_config run_defaults.
Proof. split; try done. by intros w [= <-]. Qed.

Lemma parse_run_from_wf args c c' : wf_run_config c → parse_run_from args c = Ok c' → wf_run_config c'.
Proof.
  remember (length args) as n eqn:Hn. revert args c Hn. induction (lt_wf n) as [n _ IH].
  intros [|flag [|v rest]] c -> Hc; cbn [parse_run_from]; [by intros [= <-]|done|].
  destruct (run_flag flag v c) as [c1| |] eqn:Hf; [|done..]. cbn [rbind].
  apply (IH (length rest)); [simpl; lia|done|by eapply run_flag_wf].
Qed.

Lemma filter_plain ps : Forall (λ p, p ≠ "") ps → Forall plain_peer ps →
  filter (λ s, s ≠ "") (str_trim <$> split_on ","%char (join "," ps)) = ps.
Proof.
  intros Hne Hp. destruct ps as [|p ps]; [by vm_compute|].
  rewrite split_on_join; [|done|eapply Forall_impl; [exact Hp|by intros x [? _]]].
  assert (str_trim <$> p :: ps = p :: ps) as ->.
  { clear Hne. induction Hp as [|x l [_ Hx] _ IH]; [done|]. cbn [fmap list_fmap]. rewrite Hx. by f_equal. }
  apply filter_all. by apply Forall_forall.
Qed.

Lemma config_policy_wf c : wf_run_config c → policy_wf (rc_inbound_peer_policy c).
Proof.
  intros []. unfold policy_wf, in_u32, at_least_one in *. rewrite wc_invalid0. pose proof u32_room. split_and!; lia.
Qed.

Lemma run_flag_no_panic flag v c : run_flag flag v c ≠ Panic.
Proof.
  destruct c as [dir gen int lis peers drift [sess idle wr perr fr inv stale tx] cap]. unfold run_flag, parse_limit, ok_or, rbind.
  repeat (case_match; try done).
Qed.

Lemma parse_run_no_panic args c : parse_run_from args c ≠ Panic.
Proof.
  remember (length args) as n eqn:Hn. revert args c Hn. induction (lt_wf n) as [n _ IH].
  intros [|flag [|v rest]] c ->; [done..|]. cbn [parse_run_from]. apply rbind_no_panic; [apply run_flag_no_panic|].
  intros c'. apply (IH (length rest)); [simpl; lia|done].
Qed.

(** One flag of a rendered configuration. *)
Local Ltac flag :=
  match goal with
  | |- parse_run_from (?f :: ?v :: ?rest) ?c = _ =>
    change (parse_run_from (f :: v :: rest) c) with (rbind (run_flag f v c) (parse_run_from rest));
    unfold run_flag; cbn [String.eqb Ascii.eqb Bool.eqb]; rewrite ?parse_uint_fmt by (unfold at_least_one, in_u64 in *; lia);
    rewrite ?parse_limit_fmt by done; cbn [ok_or rbind]
  end.

Lemma render_parses c : wf_run_config c → Forall plain_peer (rc_peers c) → parse_run_args (render c) = Ok c.
Proof.
  intros [] Hp. destruct c as [dir gen int lis peers drift [sess idle wr perr fr inv stale tx] cap].
  cbn [rc_interval_secs rc_peers rc_max_future_drift_secs rc_mempool_capacity rc_inbound_peer_policy max_concurrent_sessions
       idle_read_timeout write_timeout max_protocol_errors_per_session max_app_frames_per_session
       max_stale_decoded_blocks_per_session max_inbound_tx_per_session max_invalid_network_blocks_per_session] in *. subst inv.
  unfold parse_run_args, run_defaults, InboundPeerPolicy_default, render.
  cbn [rc_data_dir rc_genesis_flag rc_listen rc_interval_secs rc_peers rc_max_future_drift_secs rc_mempool_capacity
       rc_inbound_peer_policy max_concurrent_sessions idle_read_timeout write_timeout max_protocol_errors_per_session
       max_app_frames_per_session max_stale_decoded_blocks_per_session max_inbound_tx_per_session app].
  assert (∀ n, default 0 wr = n → 0 ≤ n ≤ u64_max) as Hwr.
  { intros n <-. destruct wr as [w|]; [|done]. destruct (wc_write0 w eq_refl). simpl. lia. }
  assert ((if default 0 wr =? 0 then None else Some (default 0 wr)) = wr) as Hwr0.
  { destruct wr as [w|]; [|done]. destruct (wc_write0 w eq_refl). simpl. by destruct (Z.eqb_spec w 0); [lia|]. }
  assert (MAX_MEMPOOL_CAPACITY ≤ u64_max) by done.
  flag. destruct gen as [g|]; cbn [app]; [flag|]; flag; (destruct (Z.eqb_spec int 0); [unfold at_least_one in *; lia|]);
    cbn [rbind]; (destruct lis as [l|]; cbn [app]; [flag|]); flag; rewrite filter_plain by done;
    (destruct drift as [d|]; cbn [app]; [assert (in_u64 d) by (by apply wc_drift0); flag|]);
    do 2 flag; (destruct (Z.eqb_spec idle 0); [unfold at_least_one in *; lia|]); cbn [rbind];
    (match goal with |- parse_run_from (?f :: ?v :: ?rest) ?c = _ =>
       change (parse_run_from (f :: v :: rest) c) with (rbind (run_flag f v c) (parse_run_from rest)) end);
    unfold run_flag at 1; cbn [String.eqb Ascii.eqb Bool.eqb]; rewrite parse_uint_fmt by (by apply Hwr); cbn [ok_or rbind];
    do 5 flag; (destruct (Z.ltb_spec cap 1); [unfold at_least_one in *; lia|]);
    (destruct (Z.ltb_spec MAX_MEMPOOL_CAPACITY cap); [unfold at_least_one in *; lia|]); cbn [rbind parse_run_from];
    rewrite Hwr0; done.
Qed.

(** C26: the configurations [node run] accepts. Whatever the arguments, a
    parsed configuration has a positive interval, a pool capacity between one
    and a million, session limits that are positive [u32] values (so the
    session theorems apply), timeouts of at least a second, and no empty peer
    address; and conversely every such configuration, with peer addresses that
    contain no comma and no surrounding space, is what its rendered arguments
    parse to. Parsing always ends with a configuration or a message. *)
Theorem run_args_exact :
  (∀ args c, parse_run_args args = Ok c → wf_run_config c ∧ policy_wf (rc_inbound_peer_policy c))
  ∧ (∀ c, wf_run_config c → Forall plain_peer (rc_peers c) → parse_run_args (render c) = Ok c)
  ∧ (∀ args, parse_run_args args ≠ Panic).
Proof.
  split_and!; [|apply render_parses|].
  - intros args c Hc. apply parse_run_from_wf in Hc; [|apply run_defaults_wf]. split; [done|]. by apply config_policy_wf.
  - intros args. apply parse_run_no_panic.
Qed.
