(* ===== verification/Commands.v ===== *)
(** * The [init] and [send] commands ([main.rs], files of [genesis.rs])

    [init] writes a wallet and a genesis document, [send] signs a transfer with
    the wallet, taking the nonce from the chain on disk, and queues it for the
    node. *)

From Stdlib Require Import ZArith Lia.
From stdpp Require Import base strings list gmap.
From S2P Require Import Prelude Bytes Io Crypto Transaction Wallet Block Encoding Genesis Ledger Mempool MempoolQueue Blockchain Storage StorageSpec Restart PendingTx Toml PeerBook DataDirBind Wire Node Session Args.

Section commands.
Context `{CryptoLib} `{TomlDoc Genesis} `{TomlDoc BindFile}.

(** ** Genesis files *)

Definition genesis_from_path (path : string) : ST Disk string Genesis :=
  let! raw := smap_err IoError_display (fs_read_to_string path) in
  slift (from_toml_str toml_from_str raw).

Definition genesis_header (hex : string) : string :=
  "# Trilogicon V1 genesis — allocations at height 0 (before first non-genesis block)." +:+ nl
  +:+ "# State commitment (compare across nodes): " +:+ hex +:+ nl +:+ nl.

Definition write_to_path (g : Genesis) (path : string) : ST Disk string unit :=
  slift (map_err ProtocolError_display (validate_decl g)) ;;!
  let! body := slift (toml_to_string g) in
  let! hex := slift (map_err ProtocolError_display (state_commitment_hex g)) in
  let out := genesis_header hex +:+ body in
  smap_err IoError_display (fs_write path (str_bytes out)).

Definition resolve_genesis_path (data_dir : string) (genesis_flag : option string) : string :=
  default (path_join data_dir GENESIS_FILE) genesis_flag.

Definition load_genesis_for_cmd (data_dir : string) (genesis_flag : option string) : ST Disk string Genesis :=
  let p := resolve_genesis_path data_dir genesis_flag in
  let! ex := path_exists p in
  if negb ex
  then sfail ("genesis file not found: " +:+ p +:+ " (use `init --genesis-balance N` or --genesis PATH)")
  else smap_err (λ e, p +:+ ": " +:+ e) (genesis_from_path p).

(** ** Wallet file *)

Definition load_wallet (data_dir : string) : ST Disk IoError Wallet :=
  let path := path_join data_dir WALLET_FILE in
  let! raw := smap_err (λ e, match IoError_kind e with
                             | NotFound => mkIoError NotFound (path +:+ ": no wallet here — run `init --data-dir "
                                             +:+ data_dir +:+ "` first")
                             | _ => e
                             end) (fs_read path) in
  if negb (zlen raw =? 32)
  then sfail (mkIoError InvalidData ("expected 32-byte " +:+ path +:+ ", got " +:+ fmt_uint (zlen raw) +:+ " bytes"))
  else sret (from_seed raw).

(** ** [init] *)

(** [rng_bytes] is what the generator of the operating system returns. *)
Definition cmd_init (data_dir : string) (genesis_balance : option Z) (rng_bytes : list byte) : ST Disk string unit :=
  smap_err IoError_display io_call ;;!                               (* create_dir_all *)
  let path := path_join data_dir WALLET_FILE in
  let! ex := path_exists path in
  if ex then sfail (path +:+ " already exists; remove it first if you want a new wallet")
  else
    let w := generate_with_rng rng_bytes in
    smap_err IoError_display (fs_write path (seed_bytes w)) ;;!
    match genesis_balance with
    | None => sret tt
    | Some bal =>
      let gen_path := path_join data_dir GENESIS_FILE in
      let! gen_ex := path_exists gen_path in
      if gen_ex
      then sfail (gen_path +:+ " already exists; remove it first or omit --genesis-balance")
      else
        let g := mkGenesis [mkGenesisAllocation (Wallet_address w) bal] in
        write_to_path g gen_path ;;!
        let! _ := slift (map_err ProtocolError_display (state_commitment_hex g)) in
        sret tt
    end.

(** ** [send] *)

Definition load_message (chain_path : string) (e : StorageError) : string :=
  PFX_STARTUP +:+ " fail-closed: could not load chain " +:+ chain_path +:+ " — " +:+ StorageError_display e
  +:+ ". Repair or replace chain.blocks if corrupt or truncated. See docs/design_notes/v2_persistence_restart.md".

(** What [send] and [run] do first: the wallet, the genesis, the chain, and the
    binding of the directory. *)
Definition open_data_dir (data_dir : string) (genesis_flag : option string) (pid : Z) (clock : option Z) :
    ST Disk string (Wallet * Genesis * Blockchain) :=
  let! wallet := smap_err IoError_display (load_wallet data_dir) in
  let! genesis := load_genesis_for_cmd data_dir genesis_flag in
  verify_binding_if_present data_dir genesis ;;!
  let chain_path := path_join data_dir CHAIN_FILE in
  let! (chain, repaired) := smap_err (load_message chain_path) (load_blockchain_from_disk chain_path genesis) in
  ensure_binding_if_missing data_dir genesis pid clock ;;!
  sret (wallet, genesis, chain).

Definition cmd_send (data_dir : string) (genesis_flag : option string) (receiver : string) (amount fee : Z)
    (ts pid : Z) (clock : option Z) : ST Disk string unit :=
  smap_err IoError_display io_call ;;!                               (* create_dir_all *)
  let! (wallet, _, chain) := open_data_dir data_dir genesis_flag pid clock in
  let! account := slift (ok_or (get_account (bc_state chain) (Wallet_address wallet))
    "wallet address has no genesis allocation; add it to genesis.toml (same commitment as peers)") in
  let nonce := acc_nonce account in
  let! tx := slift (map_err ProtocolError_display (sign_transfer wallet (Address_new receiver) amount fee nonce ts)) in
  let pending := path_join data_dir PENDING_TX_FILE in
  smap_err IoError_display (append_pending_transaction pending tx).
End commands.
