(* ===== verification/Run.v ===== *)
(** * The [run] command ([main.rs])

    Start-up, the first catch-up, and the production loop. The loop never ends
    by itself: a run is described by the list of its iterations so far, each
    with what the environment did in it ([TickEnv]: the frames the session
    threads handled and what other processes did to files while the loop slept
    or gossiped, the clock readings, the connections). File calls fail as the disk says. Lines printed for the
    operator are left out. *)

From Stdlib Require Import ZArith Lia.
From stdpp Require Import base strings list gmap.
From S2P Require Import Prelude Bytes Io Crypto Transaction Wallet Block Encoding Genesis Ledger Mempool MempoolQueue Blockchain Storage StorageSpec Restart PendingTx Toml Seen PeerBook DataDirBind Wire Node Session Args Commands.

Definition GOSSIP_FAIL_THRESHOLD : Z := 5.
Definition GOSSIP_COOLDOWN_SECS : Z := 45.

(** What happens between two iterations: a session thread handles a frame
    under the lock, with its own policy, clock and counters, or another process
    works on files. *)
Inductive OtherStep :=
| OsFrame (policy : InboundPeerPolicy) (now : Z) (frame : list byte) (counters : Counters)
| OsFiles (f : Disk → Disk).

Record TickEnv := mkTickEnv {
  te_others : list OtherStep;
  te_retry_conns : nat → nat → Res IoError Stream;    (* peer, round *)
  te_retry_clock : nat → nat → Z;
  te_now : Z;
  te_now_sync : Z;
  te_sync_conns : nat → nat → Res IoError Stream;
  te_sync_clock : nat → nat → Z;
  te_book_clock : nat → Z;
  te_now_g : Z;
  te_push_conns : nat → Res IoError Stream
}.

(** What the environment does before the loop. *)
Record StartEnv := mkStartEnv {
  se_pid : Z;
  se_since_epoch : option Z;                          (* clock in nanoseconds, [None] before 1970 *)
  se_conns : nat → nat → Res IoError Stream;
  se_clock : nat → nat → Z;
  se_bind : Res IoError unit                           (* binding the listener *)
}.

Definition set_book (n : NodeInner) (b : PeerBook) : NodeInner :=
  mkNode (ni_genesis n) (ni_chain n) (ni_pool n) (ni_store n) (ni_seen_tx n) (ni_seen_block n) b.

(** The local variables of the loop, the node and the disk. *)
Record RunState := mkRunState {
  rs_node : NodeInner;
  rs_disk : Disk;
  rs_sealing_allowed : bool;
  rs_cooldown_until : gmap string Z;
  rs_fail_streak : gmap string Z
}.

Section run.
Context `{CryptoLib} `{TomlDoc Genesis} `{TomlDoc BindFile} `{TomlDoc PeerBookFile}.

(** ** Start-up *)

Definition start_node (cfg : RunConfig) (env : StartEnv) : ST Disk string (Wallet * NodeInner) :=
  let data_dir := rc_data_dir cfg in
  smap_err IoError_display io_call ;;!                               (* create_dir_all *)
  let run_lock_path := path_join data_dir NODE_RUN_LOCK_FILE in
  let! locked := smap_err (λ e, PFX_STARTUP +:+ " fail-closed: could not acquire run lock " +:+ run_lock_path
                                +:+ " — " +:+ IoError_display e) (try_acquire_exclusive run_lock_path) in
  if negb locked
  then sfail (PFX_STARTUP +:+ " fail-closed: another `node run` already holds this data directory (lock file "
              +:+ run_lock_path +:+ "). Stop the other process or use a different --data-dir.")
  else
    let! (wallet, genesis, chain) := open_data_dir data_dir (rc_genesis_flag cfg) (se_pid env) (se_since_epoch env) in
    let chain := match rc_max_future_drift_secs cfg with
                 | Some d => mkBlockchain (bc_blocks chain) (bc_state chain)
                               (mkConsensusParams (min_block_interval_secs (bc_consensus chain)) d)
                 | None => chain
                 end in
    let! store := smap_err IoError_display (open_append (path_join data_dir CHAIN_FILE)) in
    let! book := load_or_empty (path_in_data_dir data_dir) in
    let book := foldl (λ b p, merge_seed p b) book (rc_peers cfg) in
    save book (path_in_data_dir data_dir) ;;!
    sret (wallet, mkNode genesis chain (Mempool_new (Z.to_nat (rc_mempool_capacity cfg))) store
                    (SeenCache_new (Z.to_nat 50000)) (SeenCache_new (Z.to_nat 50000)) book).

(** ** Catching up with every configured peer *)

(** [for p in &peers { sync_from_peer(..) }]: whether all of them succeeded. *)
Fixpoint sync_peers (conns : nat → nat → Res IoError Stream) (clock : nat → nat → Z) (i : nat) (peers : list string)
    (all_ok : bool) (node : NodeInner * Disk) : option (Res string bool * (NodeInner * Disk)) :=
  match peers with
  | [] => Some (Ok all_ok, node)
  | p :: peers' =>
    match sync_from_peer_with_clock p SyncWorkBudget_default (conns i) (clock i) node with
    | None => None
    | Some (Panic, node') => Some (Panic, node')
    | Some (Ok _, node') => sync_peers conns clock (S i) peers' all_ok node'
    | Some (Err _, node') => sync_peers conns clock (S i) peers' false node'
    end
  end.

(** The first catch-up: whether sealing is allowed. *)
Definition initial_sync (cfg : RunConfig) (env : StartEnv) (node : NodeInner * Disk) :
    option (Res string bool * (NodeInner * Disk)) :=
  match rc_peers cfg with
  | [] => Some (Ok true, node)
  | peers =>
    match sync_peers (se_conns env) (se_clock env) 0 peers true node with
    | Some (Ok all_ok, (n, d)) =>
      match save (ni_peer_book n) (path_in_data_dir (rc_data_dir cfg)) d with
      | (Ok _, d') => Some (Ok all_ok, (n, d'))
      | (Err e, d') => Some (Err e, (n, d'))
      | (Panic, d') => Some (Panic, (n, d'))
      end
    | o => o
    end
  end.

(** ** One iteration *)

Definition hygiene (n : NodeInner) : NodeInner :=
  set_pool n (hygiene_vs_committed_ledger (bc_state (ni_chain n)) (ni_pool n)).2.

(** Sealing and persisting a block. *)
Definition seal_block (now : Z) (sealing_allowed : bool) (node : NodeInner * Disk) :
    Res string (option Block) * (NodeInner * Disk) :=
  let '(n, d) := node in
  if negb sealing_allowed then (Ok None, (n, d))
  else
    match append_block_from_mempool_pending_removal (ni_pool n) 64 now (ni_chain n) with
    | (Ok None, c) => (Ok None, (set_chain n c, d))
    | (Panic, c) => (Panic, (set_chain n c, d))
    | (Err _, c) => (Ok None, (hygiene (set_chain n c), d))
    | (Ok (Some hashes), c) =>
      match last (bc_blocks c) with
      | None => (Panic, (set_chain n c, d))
      | Some tip =>
        match store_append_block tip (ni_store n, d) with
        | (Ok _, (st, d')) =>
          (Ok (Some tip), (set_pool (set_store (set_chain n c) st) (remove_by_tx_hashes hashes (ni_pool n)), d'))
        | (Panic, (st, d')) => (Panic, (set_store (set_chain n c) st, d'))
        | (Err e, (st, d')) =>
          match rollback_last_block (ni_genesis n) c with
          | (Err _, c') => (Err "chain.blocks persist failed and rollback failed", (set_store (set_chain n c') st, d'))
          | (Ok _, c') => (Err (PFX_STORAGE +:+ " fail-closed: chain.blocks write failure — " +:+ IoError_display e),
                           (set_store (set_chain n c') st, d'))
          | (Panic, c') => (Panic, (set_store (set_chain n c') st, d'))
          end
        end
      end
    end.

(** Catching up with the peers that are not cooling down. *)
Fixpoint sync_targets (conns : nat → nat → Res IoError Stream) (clock : nat → nat → Z) (book_clock : nat → Z) (i : nat)
    (targets : list string) (node : NodeInner * Disk) : option (Res string unit * (NodeInner * Disk)) :=
  match targets with
  | [] => Some (Ok tt, node)
  | p :: targets' =>
    match sync_from_peer_with_clock p SyncWorkBudget_default (conns i) (clock i) node with
    | None => None
    | Some (Panic, node') => Some (Panic, node')
    | Some (Ok _, (n, d)) =>
      sync_targets conns clock book_clock (S i) targets' (set_book n (record_ok (book_clock i) p (ni_peer_book n)), d)
    | Some (Err e, (n, d)) =>
      if String.prefix FATAL_SYNC_PREFIX e then Some (Err e, (n, d))
      else sync_targets conns clock book_clock (S i) targets' (set_book n (record_fail (book_clock i) p (ni_peer_book n)), d)
    end
  end.

Definition sync_known_peers (cfg : RunConfig) (env : TickEnv) (node : NodeInner * Disk) :
    option (Res string unit * (NodeInner * Disk)) :=
  match rc_peers cfg with
  | [] => Some (Ok tt, node)
  | peers =>
    let targets := sync_candidates peers (ni_peer_book node.1) in
    let filtered := filter_available targets (te_now_sync env) (ni_peer_book node.1) in
    match sync_targets (te_sync_conns env) (te_sync_clock env) (te_book_clock env) 0 filtered node with
    | Some (Ok _, (n, d)) =>
      let '(r, d') := save (ni_peer_book n) (path_in_data_dir (rc_data_dir cfg)) d in Some (r, (n, d'))
    | o => o
    end
  end.

(** Retrying the first catch-up while sealing is not allowed. *)
Definition retry_sync (cfg : RunConfig) (env : TickEnv) (sealing_allowed : bool) (node : NodeInner * Disk) :
    option (Res string bool * (NodeInner * Disk)) :=
  if negb sealing_allowed && negb (Nat.eqb (length (rc_peers cfg)) 0)
  then sync_peers (te_retry_conns env) (te_retry_clock env) 0 (rc_peers cfg) true node
  else Some (Ok sealing_allowed, node).

(** After the drain: catch up, seal, catch up again. The sealed block, whether
    sealing is allowed now, and the node. *)
Definition tick_sealing (cfg : RunConfig) (env : TickEnv) (sealing_allowed : bool) (node : NodeInner * Disk) :
    option (Res string (option Block) * bool * (NodeInner * Disk)) :=
  match retry_sync cfg env sealing_allowed node with
  | None => None
  | Some (Panic, node) => Some (Panic, sealing_allowed, node)
  | Some (Err e, node) => Some (Err e, sealing_allowed, node)
  | Some (Ok sealing_allowed, (n, d)) =>
    match seal_block (te_now env) sealing_allowed (hygiene n, d) with
    | (Panic, node) => Some (Panic, sealing_allowed, node)
    | (Err e, node) => Some (Err e, sealing_allowed, node)
    | (Ok sealed, node) =>
      match sync_known_peers cfg env node with
      | None => None
      | Some (Panic, node) => Some (Panic, sealing_allowed, node)
      | Some (Err e, node) => Some (Err e, sealing_allowed, node)
      | Some (Ok _, node) => Some (Ok sealed, sealing_allowed, node)
      end
    end
  end.

(** The part of the iteration under the lock. *)
Definition tick_locked (cfg : RunConfig) (env : TickEnv) (sealing_allowed : bool) (node : NodeInner * Disk) :
    option (Res string (option Block) * bool * (NodeInner * Disk)) :=
  let '(n, d) := node in
  if bs_poisoned (ni_store n)
  then Some (Err (PFX_STORAGE +:+ " fail-closed: store poisoned in this process after a prior append/sync failure — stop; repair or restore chain.blocks before restart"),
             sealing_allowed, node)
  else
    match drain_pending_file (path_join (rc_data_dir cfg) PENDING_TX_FILE) (ni_pool n, d) with
    | (Panic, (pool, d1)) => Some (Panic, sealing_allowed, (set_pool n pool, d1))
    | (_, (pool, d1)) => tick_sealing cfg env sealing_allowed (set_pool n pool, d1)
    end.

(** Sending a sealed block to the configured peers: cooldowns and failure
    streaks. *)
Fixpoint gossip (env : TickEnv) (genesis : Genesis) (block : Block) (i : nat) (peers : list string)
    (cooldown streak : gmap string Z) : Res string unit * (gmap string Z * gmap string Z) :=
  match peers with
  | [] => (Ok tt, (cooldown, streak))
  | p :: peers' =>
    if match cooldown !! p with Some t => te_now_g env <? t | None => false end
    then gossip env genesis block (S i) peers' cooldown streak
    else
      match (push_block_to_peer_with_timeouts (te_push_conns env i) p genesis (blk_height block) block).1 with
      | Panic => (Panic, (cooldown, streak))
      | Ok _ => gossip env genesis block (S i) peers' cooldown (delete p streak)
      | Err _ =>
        let s := saturating_add32 (default 0 (streak !! p)) 1 in
        if GOSSIP_FAIL_THRESHOLD <=? s
        then gossip env genesis block (S i) peers' (<[ p := wrapping_add (te_now_g env) GOSSIP_COOLDOWN_SECS ]> cooldown)
               (<[ p := 0 ]> streak)
        else gossip env genesis block (S i) peers' cooldown (<[ p := s ]> streak)
      end
  end.

Definition other_step (node : NodeInner * Disk) (o : OtherStep) : NodeInner * Disk :=
  match o with
  | OsFrame policy now frame counters => (handle_frame policy now frame counters node).2
  | OsFiles f => (node.1, f node.2)
  end.

(** One iteration of the loop; an error ends the process. *)
Definition run_tick (cfg : RunConfig) (genesis : Genesis) (env : TickEnv) (rs : RunState) :
    option (Res string unit * RunState) :=
  match tick_locked cfg env (rs_sealing_allowed rs) (foldl other_step (rs_node rs, rs_disk rs) (te_others env)) with
  | None => None
  | Some (r, sealing_allowed, (n, d)) =>
    let rs' := mkRunState n d sealing_allowed (rs_cooldown_until rs) (rs_fail_streak rs) in
    match r with
    | Panic => Some (Panic, rs')
    | Err e => Some (Err e, rs')
    | Ok None => Some (Ok tt, rs')
    | Ok (Some block) =>
      let '(g, (cooldown, streak)) :=
        gossip env genesis block 0 (rc_peers cfg) (rs_cooldown_until rs) (rs_fail_streak rs) in
      Some (g, mkRunState n d sealing_allowed cooldown streak)
    end
  end.

Fixpoint run_ticks (cfg : RunConfig) (genesis : Genesis) (envs : list TickEnv) (rs : RunState) :
    option (Res string unit * RunState) :=
  match envs with
  | [] => Some (Ok tt, rs)
  | env :: envs' =>
    match run_tick cfg genesis env rs with
    | Some (Ok _, rs') => run_ticks cfg genesis envs' rs'
    | o => o
    end
  end.

(** The whole command, observed after the iterations [envs]. *)
Definition cmd_run (cfg : RunConfig) (start : StartEnv) (envs : list TickEnv) (d : Disk) :
    option (Res string unit * option RunState) :=
  match start_node cfg start d with
  | (Panic, _) => Some (Panic, None)
  | (Err e, _) => Some (Err e, None)
  | (Ok (wallet, n), d) =>
    match initial_sync cfg start (n, d) with
    | None => None
    | Some (r, (n, d)) =>
      let rs := mkRunState n d (match r with Ok b => b | _ => false end) ∅ ∅ in
      match r with
      | Panic => Some (Panic, Some rs)
      | Err e => Some (Err e, Some rs)
      | Ok _ =>
        match rc_listen cfg, se_bind start with
        | Some addr, Err e => Some (Err ("network listen " +:+ addr +:+ ": " +:+ IoError_display e), Some rs)
        | Some _, Panic => Some (Panic, Some rs)
        | _, _ => prod_map id Some <$> run_ticks cfg (ni_genesis n) envs rs
        end
      end
    end
  end.
End run.
