(* ===== verification/StartSpec.v ===== *)
(** * Start-up ([main.rs])

    The files around the block file (locks, binding, peer book, wallet,
    genesis, queue) never reach the block file, no call of the start panics,
    and a start that succeeds establishes [node_inv]: the chain in memory is
    the one in the file. *)

From Stdlib Require Import ZArith Lia Ascii.
From stdpp Require Import base strings list gmap.
From S2P Require Import Prelude Bytes Io Crypto Transaction Wallet Block Encoding Genesis Ledger Mempool MempoolQueue Blockchain Storage StorageSpec Restart PendingTx Toml Seen PeerBook DataDirBind Wire Node Session Args Commands Run.

(** The parser and the printer return. *)
Class TomlTotal (A : Type) `{TomlDoc A} : Prop := {
  toml_from_total s : toml_from_str s ≠ Panic;
  toml_to_total a : toml_to_string a ≠ Panic
}.

(** A parsed genesis has balances of type [u64]. *)
Class GenesisDocLaws `{TomlDoc Genesis} : Prop := {
  gd_total :: TomlTotal Genesis;
  gd_u64 s g : toml_from_str s = Ok g → wf_genesis g
}.

#[export] Hint Extern 0 (toml_from_str _ ≠ Panic) => apply toml_from_total : no_panic.
#[export] Hint Extern 0 (toml_to_string _ ≠ Panic) => apply toml_to_total : no_panic.

(** ** Other files of the directory *)

Lemma join_ne dir a b : a ≠ b → path_join dir a ≠ path_join dir b.
Proof. by intros Hne ?%path_join_inj. Qed.

Lemma file_name_ne a b : file_name a ≠ file_name b → a ≠ b.
Proof. by intros Hne ->. Qed.

Lemma queue_lock_ne dir queue name :
  split_last "/"%char name = None → name ≠ PENDING_TX_LOCK_FILE → pending_queue_lock_path queue ≠ path_join dir name.
Proof. intros Hs Hne. apply file_name_ne. unfold pending_queue_lock_path. rewrite !file_name_join by done. done. Qed.

Lemma queue_tmp_ne dir name :
  split_last "/"%char name = None → name ≠ "pending_tx.tril.tmp" →
  with_extension (path_join dir PENDING_TX_FILE) "tril.tmp" ≠ path_join dir name.
Proof.
  intros Hs Hne. apply file_name_ne. rewrite file_name_extension; rewrite !file_name_join by done; [|by vm_compute].
  intros Heq. apply Hne. by rewrite <- Heq.
Qed.

(** ** Frames *)

Section frames.
Context `{CryptoLib} `{TomlDoc Genesis} `{TomlDoc BindFile} `{TomlDoc PeerBookFile}.

Lemma load_wallet_keeps path dir : keeps path (load_wallet dir).
Proof. unfold load_wallet. solve_keeps. Qed.

Lemma load_genesis_keeps path dir flag : keeps path (load_genesis_for_cmd dir flag).
Proof.
  unfold load_genesis_for_cmd. solve_keeps. apply keeps_smap. unfold genesis_from_path. solve_keeps.
Qed.

Lemma read_binding_keeps path p e : keeps path (read_binding_and_verify p e).
Proof. unfold read_binding_and_verify. solve_keeps. Qed.

Lemma verify_binding_keeps path dir g : keeps path (verify_binding_if_present dir g).
Proof. unfold verify_binding_if_present. solve_keeps. apply read_binding_keeps. Qed.

Lemma install_binding_keeps path tmp p e : tmp ≠ path → p ≠ path → keeps path (install_binding tmp p e).
Proof.
  intros Ht Hp d. unfold install_binding. pose proof (keeps_fs_hard_link path tmp p Hp d) as Hl.
  destruct (fs_hard_link tmp p d) as [[[]|err|] d1]; cbn [snd] in Hl |- *; [by rewrite try_remove_keeps| |done].
  assert (d_files (read_binding_and_verify p e (try_remove_file tmp d1)).2 !! path = d_files d !! path) as Hr.
  { by rewrite read_binding_keeps, try_remove_keeps. }
  destruct (match IoError_kind err with AlreadyExists => true | _ => false end); [done|]. rewrite <- Hl. clear Hl Hr d.
  revert d1. apply keeps_bind; [apply keeps_path_exists|]. intros [|] d1; cbn [negb]; [by rewrite read_binding_keeps, try_remove_keeps|].
  unfold rename_binding. pose proof (keeps_fs_rename path tmp p Ht Hp d1) as Hn.
  destruct (fs_rename tmp p d1) as [[[]|err2|] d2]; cbn [snd] in Hn |- *; rewrite ?try_remove_keeps by done; congruence.
Qed.

Lemma write_binding_keeps path tmp p e text : tmp ≠ path → p ≠ path → keeps path (write_binding tmp p e text).
Proof.
  intros Ht Hp d. unfold write_binding.
  assert (keeps path (write_all_append tmp (str_bytes text) ;;! io_call)) as Hw by solve_keeps. specialize (Hw d).
  destruct ((write_all_append tmp (str_bytes text) ;;! io_call) d) as [[[]|err|] d1]; cbn [snd] in Hw |- *; [|by rewrite try_remove_keeps|done].
  by rewrite install_binding_keeps.
Qed.

Lemma create_binding_keeps path tmp p e text : tmp ≠ path → p ≠ path → keeps path (create_binding tmp p e text).
Proof.
  intros Ht Hp d. unfold create_binding. pose proof (keeps_open_create_new path tmp Ht d) as Ho.
  destruct (open_create_new tmp d) as [[[]|err|] d1]; cbn [snd] in Ho |- *; [by rewrite write_binding_keeps| |done].
  case_match; [|done]. rewrite <- Ho. clear Ho. revert d1. apply keeps_bind; [apply keeps_path_exists|]. intros [|] d1; [|done].
  by rewrite read_binding_keeps.
Qed.

(** The files that binding the directory works on. *)
Definition bind_touches (dir : string) (pid : Z) (clock : option Z) (path : string) : Prop :=
  path = path_join dir GENESIS_BIND_FILE ∨ path = path_join dir GENESIS_BIND_LOCK_FILE
  ∨ ∃ nanos, clock = Some nanos ∧ path = tmp_path dir pid nanos.

Lemma ensure_binding_frame dir path g pid clock :
  ¬ bind_touches dir pid clock path → keeps path (ensure_binding_if_missing dir g pid clock).
Proof.
  intros Hn. unfold bind_touches in Hn.
  assert (path_join dir GENESIS_BIND_LOCK_FILE ≠ path ∧ path_join dir GENESIS_BIND_FILE ≠ path) as [? ?] by naive_solver.
  unfold ensure_binding_if_missing. do 4 (apply keeps_bind; [solve_keeps|intros ?]). case_match; [apply read_binding_keeps|].
  apply keeps_bind; [by intros ?|]. intros text. destruct clock as [nanos|]; [|by intros d].
  intros d. apply create_binding_keeps; naive_solver.
Qed.

Lemma ensure_binding_keeps dir name g pid clock :
  name ≠ GENESIS_BIND_FILE → String.get 0 name ≠ Some "."%char →
  keeps (path_join dir name) (ensure_binding_if_missing dir g pid clock).
Proof.
  intros Hn1 Hn2. apply ensure_binding_frame. intros [Hx|[Hx|(nanos&_&Hx)]]; apply path_join_inj in Hx; [done| |]; subst; by apply Hn2.
Qed.

Lemma load_book_keeps path p : keeps path (load_or_empty p).
Proof. unfold load_or_empty. solve_keeps. Qed.

Lemma save_keeps path b p : p ≠ path → keeps path (save b p).
Proof. intros Hp. unfold save. solve_keeps. Qed.

Lemma write_pending_keeps path p payload :
  with_extension p "tril.tmp" ≠ path → p ≠ path → keeps path (write_pending_atomic p payload).
Proof.
  intros Ht Hp. unfold write_pending_atomic, rename_replace_pending_file. solve_keeps.
  intros d. case_match; [done|]. pose proof (keeps_try_call path d) as Hc. destruct (try_call d) as [[] d1]; cbn [snd] in *; [|done].
  by rewrite keeps_try_call.
Qed.
End frames.

(** ** No panic *)

Section no_panic.
Context `{CryptoLaws} `{GenesisDocLaws} `{TomlTotal BindFile} `{TomlTotal PeerBookFile}.

Lemma load_wallet_no_panic dir : panic_free (load_wallet dir).
Proof. unfold load_wallet. solve_panic_free. Qed.

Lemma genesis_from_path_no_panic p : panic_free (genesis_from_path p).
Proof.
  unfold genesis_from_path. apply panic_free_bind; [auto with no_panic|]. intros raw. apply panic_free_lift.
  unfold from_toml_str. apply rbind_no_panic; [auto with no_panic|].
  intros g. apply rbind_no_panic; [|done]. apply map_err_no_panic, validate_decl_no_panic.
Qed.

Lemma load_genesis_no_panic dir flag : panic_free (load_genesis_for_cmd dir flag).
Proof. unfold load_genesis_for_cmd. solve_panic_free. apply panic_free_smap, genesis_from_path_no_panic. Qed.

Lemma read_binding_no_panic p e : panic_free (read_binding_and_verify p e).
Proof. unfold read_binding_and_verify. solve_panic_free. Qed.

Hint Resolve read_binding_no_panic commitment_no_panic : no_panic.

Lemma verify_binding_no_panic dir g : panic_free (verify_binding_if_present dir g).
Proof. unfold verify_binding_if_present. solve_panic_free. Qed.

Lemma install_binding_no_panic tmp p e : panic_free (install_binding tmp p e).
Proof.
  intros d. unfold install_binding. pose proof (panic_free_hard_link tmp p d) as Hl.
  destruct (fs_hard_link tmp p d) as [[[]|err|] d1]; [done| |done].
  destruct (match IoError_kind err with AlreadyExists => true | _ => false end); [apply read_binding_no_panic|].
  clear Hl. revert d1. apply panic_free_bind; [auto with no_panic|]. intros [|] d1; cbn [negb]; [apply read_binding_no_panic|].
  unfold rename_binding. pose proof (panic_free_fs_rename tmp p d1) as Hr. by destruct (fs_rename tmp p d1) as [[[]|err2|] d2].
Qed.

Lemma create_binding_no_panic tmp p e text : panic_free (create_binding tmp p e text).
Proof.
  intros d. unfold create_binding. pose proof (panic_free_open_create_new tmp d) as Ho.
  destruct (open_create_new tmp d) as [[[]|err|] d1]; [| |done].
  - unfold write_binding. assert (panic_free (write_all_append tmp (str_bytes text) ;;! io_call)) as Hw by solve_panic_free.
    specialize (Hw d1). destruct ((write_all_append tmp (str_bytes text) ;;! io_call) d1) as [[[]|err|] d2]; [|done..].
    apply install_binding_no_panic.
  - case_match; [|done]. clear Ho. revert d1. apply panic_free_bind; [auto with no_panic|]. intros [|] d1; [apply read_binding_no_panic|done].
Qed.

(** Binding the directory needs a clock that stands after 1970. *)
Lemma ensure_binding_no_panic dir g pid clock : is_Some clock → panic_free (ensure_binding_if_missing dir g pid clock).
Proof.
  intros [nanos ->]. unfold ensure_binding_if_missing, since_epoch. assert (∀ hex, binding_text hex ≠ Panic) as Ht.
  { intros hex. apply rbind_no_panic; [apply toml_to_total|done]. }
  pose proof create_binding_no_panic. solve_panic_free.
Qed.

Lemma load_book_no_panic p : panic_free (load_or_empty p).
Proof. unfold load_or_empty. solve_panic_free. Qed.

Lemma save_no_panic b p : panic_free (save b p).
Proof. unfold save. solve_panic_free. Qed.

Lemma load_chain_no_panic path g : panic_free (load_blockchain_from_disk path g).
Proof.
  unfold load_blockchain_from_disk. apply panic_free_bind.
  - unfold read_all_blocks_repairing_tail. apply panic_free_bind; [auto with no_panic|]. intros ex. case_match; [by intros ?|].
    apply panic_free_bind; [apply panic_free_smap, panic_free_fs_read|]. intros data. case_match; [by intros ?|].
    destruct (file_format data) as [fmt off]. apply panic_free_bind.
    + apply panic_free_lift. set (body := drop _ data).
      assert ((match fmt with Legacy => parse_legacy_block_frames_prefix body | V2 => parse_v2_block_frames_prefix body end)
              = parse_prefix_from fmt (length body) body 0 []) as -> by (by destruct fmt).
      apply parse_prefix_total. unfold zlen. lia.
    + intros [blocks consumed]. apply panic_free_bind; [|by intros ??]. repeat case_match; try (by intros ?).
      apply panic_free_smap, panic_free_fs_write.
  - intros [blocks rep]. apply panic_free_bind.
    + apply panic_free_lift, map_err_no_panic. unfold from_genesis, State_from_genesis. repeat (apply rbind_no_panic; [|done]).
      apply sorted_pairs_no_panic.
    + intros c. apply panic_free_bind; [|by intros ??]. apply panic_free_lift, panic_free_exec.
      apply (panic_free_smap StorageReplay (sfor append_block blocks)), panic_free_for. intros b _. apply append_block_no_panic.
Qed.

Lemma open_append_no_panic path : panic_free (open_append path).
Proof. unfold open_append. solve_panic_free. Qed.

Lemma open_data_dir_no_panic dir flag pid clock : is_Some clock → panic_free (open_data_dir dir flag pid clock).
Proof.
  intros Hclock. unfold open_data_dir. apply panic_free_bind; [apply panic_free_smap, load_wallet_no_panic|]. intros w.
  apply panic_free_bind; [apply load_genesis_no_panic|]. intros g.
  apply panic_free_bind; [apply verify_binding_no_panic|]. intros _.
  apply panic_free_bind; [apply panic_free_smap, load_chain_no_panic|]. intros [c rep].
  apply panic_free_bind; [by apply ensure_binding_no_panic|]. by intros _ d.
Qed.

Lemma start_node_no_panic cfg env : is_Some (se_since_epoch env) → panic_free (start_node cfg env).
Proof.
  intros Hclock. unfold start_node. apply panic_free_bind; [apply panic_free_smap, panic_free_io|]. intros _.
  apply panic_free_bind; [apply panic_free_smap, panic_free_try_acquire|]. intros [|]; cbn [negb]; [|by intros ?].
  apply panic_free_bind; [by apply open_data_dir_no_panic|]. intros [[w g] c].
  apply panic_free_bind; [apply panic_free_smap, open_append_no_panic|]. intros st.
  apply panic_free_bind; [apply load_book_no_panic|]. intros b.
  apply panic_free_bind; [apply save_no_panic|]. by intros _ d.
Qed.
End no_panic.

(** ** What a successful start establishes *)

Definition chain_path (dir : string) : string := path_join dir CHAIN_FILE.

Section start.
Context `{CryptoLaws} `{GenesisDocLaws} `{TomlDoc BindFile} `{TomlDoc PeerBookFile}.

Lemma genesis_from_path_wf p d g d' : genesis_from_path p d = (Ok g, d') → wf_genesis g.
Proof.
  unfold genesis_from_path. intros (raw&d2&_&[= Hg <-])%sbind_ok.
  unfold from_toml_str, rbind in Hg. destruct (toml_from_str raw) as [g0| |] eqn:Hp; [|done..]. cbn [map_err] in Hg.
  destruct (validate_decl g0); [|done..]. injection Hg as <-. by eapply gd_u64.
Qed.

Lemma load_genesis_wf dir flag d g d' : load_genesis_for_cmd dir flag d = (Ok g, d') → wf_genesis g.
Proof.
  unfold load_genesis_for_cmd. intros (ex&d1&_&Hg)%sbind_ok. case_match; [done|].
  apply smap_ok in Hg. by eapply genesis_from_path_wf.
Qed.

(** The tolerance for future timestamps does not concern blocks on the chain. *)
Lemma chain_inv_drift g c d :
  chain_inv g c →
  chain_inv g (mkBlockchain (bc_blocks c) (bc_state c) (mkConsensusParams (min_block_interval_secs (bc_consensus c)) d)).
Proof. by intros []; split. Qed.

Lemma load_wallet_steady dir : steady (load_wallet dir).
Proof. unfold load_wallet. solve_steady. Qed.

Lemma load_genesis_steady dir flag : steady (load_genesis_for_cmd dir flag).
Proof. unfold load_genesis_for_cmd. solve_steady. apply steady_smap. unfold genesis_from_path. solve_steady. Qed.

Lemma verify_binding_steady dir g : steady (verify_binding_if_present dir g).
Proof. unfold verify_binding_if_present, read_binding_and_verify. solve_steady. Qed.

Lemma open_data_dir_sound dir flag pid clock d w g c d' :
  open_data_dir dir flag pid clock d = (Ok (w, g, c), d') → wf_genesis g ∧ chain_inv g c.
Proof.
  unfold open_data_dir. intros (w0&d1&_&Hx)%sbind_ok. apply sbind_ok in Hx as (g0&d2&Hg&Hx).
  apply sbind_ok in Hx as (u&d3&_&Hx). apply sbind_ok in Hx as ([c0 rep]&d4&Hl%smap_ok&Hx).
  apply sbind_ok in Hx as (u2&d5&_&Hx). injection Hx as -> -> -> _. split; [by eapply load_genesis_wf|].
  by destruct (load_sound _ _ _ _ _ _ Hl) as (?&_).
Qed.

Lemma open_data_dir_ok dir flag pid clock d w g c d' :
  stats_work d → open_data_dir dir flag pid clock d = (Ok (w, g, c), d') →
  wf_genesis g ∧ chain_inv g c ∧ holds_blocks (d_files d' !! chain_path dir) (drop 1 (bc_blocks c))
  ∧ ∃ repaired, cut_tail (d_files d !! chain_path dir) (d_files d' !! chain_path dir) repaired.
Proof.
  intros Hstat. unfold open_data_dir. intros (w0&d1&Hw%smap_ok&Hx)%sbind_ok. apply sbind_ok in Hx as (g0&d2&Hg&Hx).
  apply sbind_ok in Hx as (u&d3&Hv&Hx). apply sbind_ok in Hx as ([c0 rep]&d4&Hl%smap_ok&Hx).
  apply sbind_ok in Hx as (u2&d5&He&Hx). injection Hx as -> -> -> ->.
  assert (stats_work d3) as Hstat3.
  { pose proof (load_wallet_steady dir d Hstat) as Hs1. rewrite Hw in Hs1.
    pose proof (load_genesis_steady dir flag d1 Hs1) as Hs2. rewrite Hg in Hs2.
    pose proof (verify_binding_steady dir g d2 Hs2) as Hs3. by rewrite Hv in Hs3. }
  pose proof (load_wallet_keeps (chain_path dir) dir d) as Hk1. rewrite Hw in Hk1.
  pose proof (load_genesis_keeps (chain_path dir) dir flag d1) as Hk2. rewrite Hg in Hk2.
  pose proof (verify_binding_keeps (chain_path dir) dir g d2) as Hk3. rewrite Hv in Hk3.
  pose proof (ensure_binding_keeps dir CHAIN_FILE g pid clock ltac:(done) ltac:(done) d4) as Hk4. rewrite He in Hk4.
  cbn [snd] in *. fold (chain_path dir) in Hk4. destruct (load_sound _ _ _ _ _ _ Hl) as (Hi&_&Hh&Hcut).
  fold (chain_path dir) in Hh, Hcut. rewrite Hk4. rewrite Hk3, Hk2, Hk1 in Hcut.
  split_and!; [by eapply load_genesis_wf|done|by apply Hh; left|]. by exists rep.
Qed.

Lemma start_node_ok cfg env d w n d' :
  stats_work d → start_node cfg env d = (Ok (w, n), d') →
  node_inv n d' ∧ bs_path (ni_store n) = chain_path (rc_data_dir cfg) ∧ bs_poisoned (ni_store n) = false
  ∧ ∃ repaired before, cut_tail (d_files d !! chain_path (rc_data_dir cfg)) before repaired
      ∧ holds_blocks before (drop 1 (bc_blocks (ni_chain n))).
Proof.
  intros Hstat. unfold start_node. set (dir := rc_data_dir cfg). intros (u1&d1&Hio%smap_ok&Hx)%sbind_ok.
  apply sbind_ok in Hx as (locked&d2&Hlock%smap_ok&Hx). destruct locked; [|done]. cbn [negb] in Hx.
  apply sbind_ok in Hx as ([[w0 g] c]&d3&Hopen&Hx). apply sbind_ok in Hx as (st&d4&Hst%smap_ok&Hx).
  apply sbind_ok in Hx as (b&d5&Hb&Hx). apply sbind_ok in Hx as (u2&d6&Hs&Hx). injection Hx as -> <- ->.
  pose proof (keeps_io (chain_path dir) d) as Hk1. rewrite Hio in Hk1.
  pose proof (keeps_try_acquire (chain_path dir) (path_join dir NODE_RUN_LOCK_FILE) ltac:(by apply join_ne) d1) as Hk2.
  rewrite Hlock in Hk2. pose proof (load_book_keeps (chain_path dir) (path_in_data_dir dir) d4) as Hk3. rewrite Hb in Hk3.
  pose proof (save_keeps (chain_path dir) (foldl (λ b p, merge_seed p b) b (rc_peers cfg)) (path_in_data_dir dir)
    ltac:(by apply join_ne) d5) as Hk4. rewrite Hs in Hk4. cbn [snd] in *.
  assert (stats_work d2) as Hstat2.
  { pose proof (steady_io d Hstat) as Hs1. rewrite Hio in Hs1.
    pose proof (steady_try_acquire (path_join dir NODE_RUN_LOCK_FILE) d1 Hs1) as Hs2. by rewrite Hlock in Hs2. }
  destruct (open_data_dir_ok _ _ _ _ _ _ _ _ _ Hstat2 Hopen) as (Hg&Hi&Hh&rep&Hcut). rewrite Hk2, Hk1 in Hcut.
  destruct (open_append_holds _ _ _ _ _ Hh Hst) as (ps&Hsh&Hps&Hpath).
  assert (store_holds st (d_files d') ps) as Hsh'.
  { destruct Hsh as [Hpo Hf Hp1 Hp2]. split; [done| |done|done]. rewrite Hpath in *. by rewrite Hk4, Hk3, Hf. }
  split_and!; [split; cbn|done|by destruct Hsh|].
  - done.
  - destruct (rc_max_future_drift_secs cfg); [by apply chain_inv_drift|done].
  - apply pool_ok_new.
  - intros _. exists ps. split; [done|]. by destruct (rc_max_future_drift_secs cfg).
  - exists rep, (d_files d3 !! chain_path dir). split; [done|]. cbn. by destruct (rc_max_future_drift_secs cfg).
Qed.
End start.
