(* ===== verification/RunSpec.v ===== *)
(** * The running node keeps memory and disk together ([main.rs])

    Start-up establishes [node_inv] from any directory contents or refuses, and
    every iteration of the production loop keeps it, whatever the peers send,
    whatever file calls fail and whatever the sessions do in between. *)

From Stdlib Require Import ZArith Lia.
From stdpp Require Import base strings list gmap.
From S2P Require Import Prelude Bytes Io Crypto Transaction Wallet Block Encoding Genesis Ledger Mempool MempoolQueue Blockchain Storage StorageSpec Restart PendingTx Toml Seen PeerBook DataDirBind Wire Node Session Args Commands Run.

(** ** Sealed blocks fit into a frame *)

Section sizes.
Context `{CryptoLaws}.

Lemma str_bytes_len s : zlen (str_bytes s) = Z.of_nat (String.length s).
Proof. unfold zlen. induction s as [|a s IH]; [done|]. rewrite str_bytes_cons. simpl. lia. Qed.

Lemma hash_len m : zlen (str_bytes (hash_bytes m)) = 64.
Proof. rewrite str_bytes_len, hash_bytes_length. done. Qed.

Lemma valid_address_len a : Address_is_valid a = true → zlen (str_bytes a) ≤ 128.
Proof. unfold Address_is_valid. intros [_ Hl]%andb_prop. apply Nat.leb_le in Hl. rewrite str_bytes_len. lia. Qed.

Lemma verify_lengths m sig pk : verify_signature m sig pk = true → zlen pk = 32 ∧ zlen sig = 64.
Proof.
  unfold verify_signature, zlen. destruct (Nat.eqb_spec (length pk) 32); [|done]. destruct (Nat.eqb_spec (length sig) 64); [|done].
  intros _. lia.
Qed.

Lemma zlen_enc_bytes l : zlen (enc_bytes l) = 4 + zlen l.
Proof. unfold enc_bytes. by rewrite zlen_app, zlen_be_u32. Qed.

Lemma zlen_be_u64 z : zlen (to_be_bytes_u64 z) = 8.
Proof. unfold zlen, to_be_bytes_u64. by rewrite length_be_bytes. Qed.

(** The encoding of a valid transaction is short. *)
Lemma valid_tx_small t : valid_tx t → wf_tx t → nested_ok t ∧ zlen (tx_encoding t) ≤ 600.
Proof.
  intros (Hs&Hr&_&_&_&_&Hh&Hv&_) Hwf. apply valid_address_len in Hs, Hr. destruct (verify_lengths _ _ _ Hv) as [Hpk Hsig].
  assert (zlen (str_bytes (tx_tx_hash t)) = 64) as Hth by (rewrite Hh; apply hash_len).
  assert (zlen (tx_encoding t) ≤ 600) as Hlen.
  { unfold tx_encoding, tx_fields_bytes, enc_string. rewrite !zlen_app, !zlen_enc_bytes, !zlen_be_u64.
    assert (zlen TX_MAGIC ≤ 8) by (by vm_compute). change (zlen [byte_of_Z TX_FORMAT_VERSION]) with 1. change (zlen (@nil byte)) with 0. lia. }
  split; [|done]. unfold nested_ok, tx_encodable, fits_u32, u32_max. split_and!; (done || lia).
Qed.

Lemma zlen_enc_txs txs : Forall (λ t, zlen (tx_encoding t) ≤ 600) txs → zlen (enc_txs txs) ≤ 604 * zlen txs.
Proof.
  induction 1 as [|t txs Ht _ IH]; [by vm_compute|]. change (enc_txs (t :: txs)) with (enc_nested t ++ enc_txs txs).
  rewrite zlen_app. unfold enc_nested. rewrite zlen_enc_bytes. unfold zlen in *. rewrite length_cons. lia.
Qed.

(** Bytes that are enough for a block of 64 valid transactions. *)
Definition sealed_max : Z := 40000.

Lemma sealed_max_fits : sealed_max ≤ MAX_FRAME_BYTES.
Proof. by vm_compute. Qed.

(** A block of at most 64 valid transactions is encodable, within that size. *)
Lemma small_block_fits b :
  wf_block b → Forall valid_tx (blk_transactions b) → (length (blk_transactions b) ≤ 64)%nat →
  zlen (str_bytes (blk_previous_hash b)) ≤ 64 → zlen (str_bytes (blk_block_hash b)) = 64 →
  ∃ e, encode_block b = Some e ∧ zlen e ≤ sealed_max.
Proof.
  intros Hwf Hv Hn Hp Hh. exists (block_encoding b). pose proof Hwf as (_&_&_&_&Htx).
  assert (Forall (λ t, nested_ok t ∧ zlen (tx_encoding t) ≤ 600) (blk_transactions b)) as Hall.
  { apply Forall_forall. intros t Ht. rewrite Forall_forall in Hv, Htx. apply valid_tx_small; auto. }
  assert (zlen (blk_transactions b) ≤ 64) by (unfold zlen; lia). split.
  - apply encode_block_Some; [done|]. split; [|done]. unfold block_encodable, fits_u32, u32_max.
    split_and!; [done|lia|lia|lia|]. eapply Forall_impl; [exact Hall|]. by intros t [? _].
  - unfold block_encoding, block_fields_bytes, enc_string. rewrite !zlen_app, !zlen_enc_bytes, !zlen_be_u64, zlen_be_u32.
    assert (zlen (enc_txs (blk_transactions b)) ≤ 604 * zlen (blk_transactions b)).
    { apply zlen_enc_txs. eapply Forall_impl; [exact Hall|]. by intros t [_ ?]. }
    assert (zlen BLOCK_MAGIC ≤ 8) by (by vm_compute). change (zlen [byte_of_Z BLOCK_FORMAT_VERSION]) with 1.
    change (zlen (@nil byte)) with 0. unfold sealed_max. lia.
Qed.
End sizes.

(** ** Sealing *)

Section sealing.
Context `{CryptoLaws}.

Lemma pool_ok_wf m : pool_ok m → pool_wf m.
Proof.
  intros [Hm Hf]. split; [done|]. intros h t Ht. pose proof Hm as [Hv _ _].
  rewrite Forall_forall in Hf. apply Hf. apply (clone_fifo_elem _ _ t Hv).
  by rewrite (mv_hash _ _ Hv _ _ Ht).
Qed.

Lemma chain_tip_len g c tip :
  chain_inv g c → last (bc_blocks c) = Some tip → zlen (str_bytes (blk_block_hash tip)) ≤ 64.
Proof.
  intros Hi Hl. rewrite last_lookup in Hl. destruct (pred (length (bc_blocks c))) as [|n] eqn:Hn.
  - rewrite (ci_genesis _ _ Hi) in Hl. injection Hl as <-. by vm_compute.
  - pose proof (lookup_lt_Some _ _ _ Hl). assert (is_Some (bc_blocks c !! n)) as [a Ha] by (apply lookup_lt_is_Some; lia).
    destruct (ci_links _ _ Hi n a tip Ha Hl) as (Hv&_).
    apply block_basic_validate_ok in Hv as (_&_&_&_&->); [|rewrite (ci_heights _ _ Hi _ _ Hl); lia].
    unfold compute_block_hash. rewrite hash_len. done.
Qed.

(** What the chain does when it is asked to seal: it refuses and stays as it is,
    has nothing to do, or appends a small block of pool transactions. *)
Lemma pending_removal_cases g c m ts :
  wf_genesis g → chain_inv g c → pool_ok m → in_u64 ts →
  (∃ r, append_block_from_mempool_pending_removal m 64 ts c = (r, c) ∧ (r = Ok None ∨ ∃ e, r = Err e))
  ∨ ∃ b s', append_block_from_mempool_pending_removal m 64 ts c
      = (Ok (Some (tx_tx_hash <$> blk_transactions b)), mkBlockchain (bc_blocks c ++ [b]) s' (bc_consensus c))
    ∧ chain_inv g (mkBlockchain (bc_blocks c ++ [b]) s' (bc_consensus c))
    ∧ blk_transactions b ≠ [] ∧ blk_transactions b `sublist_of` clone_fifo m
    ∧ wf_block b ∧ blk_timestamp_unix b = ts ∧ ∃ e, encode_block b = Some e ∧ zlen e ≤ sealed_max.
Proof.
  intros Hg Hi Hm Hts. pose proof (pool_ok_wf m Hm) as Hwf.
  pose proof (pending_removal_inv g c m 64 ts Hg Hi Hwf Hts) as Hinv.
  destruct (append_block_from_mempool_pending_removal m 64 ts c) as [r c'] eqn:Hres. cbn [snd] in Hinv. symmetry in Hres. revert Hres.
  unfold append_block_from_mempool_pending_removal. unfold sbind at 1 2, sget, slift.
  destruct (seal_walk_run (mp_txs m) 64 (mp_order m) (bc_state c) [] (chain_inv_wf_state g c Hg Hi) (proj2 Hwf))
    as (out&s'&bl&Hrun&Hb); [simpl; lia|]. unfold ordered_candidates_for_seal.
  destruct bl; [destruct Hb as [e ->]; intros [= -> ->]; left; eauto|]. rewrite Hb.
  assert (ordered_candidates_for_seal m (bc_state c) 64 = Ok out) as Hc by done.
  destruct (candidates_ok _ _ _ _ (chain_inv_wf_state g c Hg Hi) Hwf Hc) as (Hval&Hwft&Hnd&_).
  destruct (SealRun_apply _ _ _ _ _ _ Hrun (chain_inv_wf_state g c Hg Hi) (proj2 Hm)) as (_&Hsub&Hle).
  cbn [app] in *. destruct (Nat.eqb_spec (length out) 0) as [Hz|Hnz]; [intros [= -> ->]; left; eauto|]. unfold sbind at 1.
  destruct (last (bc_blocks c)) as [tip|] eqn:Hl; [|intros [= -> ->]; left; eauto].
  cbn [ok_or blk_height blk_previous_hash blk_timestamp_unix blk_transactions]. set (b := mkBlock _ _ _ out (compute_block_hash _)).
  unfold sbind. destruct (append_block_cases b c) as [(tip'&s2&_&_&_&->)|(Hno&Hsame&_)].
  2: { pose proof (append_block_no_panic b c) as Hnp. destruct (append_block b c) as [[[]|e|] c2]; [done| |done].
       cbn [snd] in Hsame. subst c2. intros [= -> ->]. left. eauto. }
  intros [= -> ->]. right. exists b, s2.
  assert (wf_block b) as Hwb.
  { pose proof (ci_wf _ _ Hinv) as Hwb. cbn [bc_blocks] in Hwb. apply Forall_app in Hwb as [_ Hwb]. by apply Forall_cons in Hwb as [? _]. }
  split_and!; [done|done| |done|done|done|].
  - cbn [blk_transactions b]. by intros ->.
  - apply small_block_fits; [done|done|simpl in Hle; simpl; lia|by apply (chain_tip_len g c)|apply hash_len].
Qed.

(** The invariant only depends on the block file. *)
Lemma node_inv_files n d d' :
  node_inv n d → d_files d' !! bs_path (ni_store n) = d_files d !! bs_path (ni_store n) → node_inv n d'.
Proof.
  intros [Hg Hc Hp Hd] Heq. split; [done..|]. intros Hpo. destruct (Hd Hpo) as (ps&[]&Hps). exists ps.
  split; [|done]. split; [done|by rewrite Heq|done|done].
Qed.

Lemma node_inv_book n d b : node_inv n d → node_inv (set_book n b) d.
Proof. by intros []; split. Qed.

Lemma hygiene_node_inv n d : node_inv n d → node_inv (hygiene n) d.
Proof. intros Hi. apply node_inv_pool; [done|]. apply pool_ok_hygiene, Hi. Qed.

(** What one attempt to seal at the time [now] does. *)
Definition seal_post (now : Z) (allowed : bool) (n : NodeInner) (d : Disk)
    (res : Res string (option Block) * (NodeInner * Disk)) : Prop :=
  let '(r, (n', d')) := res in
  let chosen := (append_block_from_mempool_pending_removal (ni_pool n) 64 now (ni_chain n)).1 in
  node_inv n' d' ∧ same_home n n'
  ∧ match r with
    | Ok None =>
      d' = d ∧ (n' = n ∧ (allowed = false ∨ chosen = Ok None) ∨ allowed = true ∧ n' = hygiene n ∧ ∃ e, chosen = Err e)
    | Ok (Some b) =>
      allowed = true ∧ blk_transactions b ≠ [] ∧ blk_transactions b `sublist_of` clone_fifo (ni_pool n)
      ∧ bc_blocks (ni_chain n') = bc_blocks (ni_chain n) ++ [b] ∧ bs_poisoned (ni_store n') = false
      ∧ clone_fifo (ni_pool n') = filter (λ t, tx_tx_hash t ∉ tx_tx_hash <$> blk_transactions b) (clone_fifo (ni_pool n))
      ∧ is_Some (encode_block b)
    | Err _ => allowed = true ∧ ni_chain n' = ni_chain n ∧ ni_pool n' = ni_pool n ∧ bs_poisoned (ni_store n') = true
    | Panic => False
    end.

Lemma store_append_fits st d b e ps :
  store_holds st (d_files d) ps → encode_block b = Some e → zlen e ≤ MAX_FRAME_BYTES →
  (∃ st' d', store_append_block b (st, d) = (Ok tt, (st', d')) ∧ store_holds st' (d_files d') (ps ++ [e]))
  ∨ ∃ err st' d', store_append_block b (st, d) = (Err err, (st', d')) ∧ bs_poisoned st' = true.
Proof.
  intros Hh He Hle. unfold store_append_block, sbind, slift. rewrite He. cbn [expect].
  pose proof Hh as [Hpo Hf _ _]. destruct (append_payload_bytes st d e _ Hpo Hle Hf) as (k&d'&r&st'&Heq&_&Hr). rewrite Heq.
  destruct Hr as [(->&_&_)|[[err ->] Hp]]; [left|right; eauto 8]. eexists _, _. split; [done|]. by eapply store_holds_append.
Qed.

Lemma store_append_poisoned st d b e :
  bs_poisoned st = true → encode_block b = Some e → ∃ err, store_append_block b (st, d) = (Err err, (st, d)).
Proof.
  intros Hp He. unfold store_append_block, sbind, slift. rewrite He. cbn [expect]. unfold append_payload. rewrite Hp. eauto.
Qed.

Lemma seal_block_spec now allowed n d :
  node_inv n d → in_u64 now → seal_post now allowed n d (seal_block now allowed (n, d)).
Proof.
  intros Hi Hnow. pose proof Hi as [Hg Hc Hp Hd]. unfold seal_block. destruct allowed; cbn [negb]; [|by split_and!; eauto].
  destruct (pending_removal_cases _ _ _ now Hg Hc Hp Hnow) as [(r&Hr&[->|[e ->]])|(b&s'&Hr&Hc'&Hne&Hsub&Hwb&_&e&He&Hle)];
    unfold seal_post; rewrite Hr; cbn [fst].
  - assert (set_chain n (ni_chain n) = n) as -> by (by destruct n). split_and!; [done..|]. left. auto.
  - assert (set_chain n (ni_chain n) = n) as -> by (by destruct n).
    split_and!; [by apply hygiene_node_inv|done..|]. right. eauto.
  - cbn [bc_blocks]. rewrite last_snoc. pose proof (store_append_path b (ni_store n) d) as Hpath.
    assert (∀ err st' d', store_append_block b (ni_store n, d) = (Err err, (st', d')) → bs_poisoned st' = true →
      seal_post now true n d (match rollback_last_block (ni_genesis n) (mkBlockchain (bc_blocks (ni_chain n) ++ [b]) s' (bc_consensus (ni_chain n))) with
        | (Err _, c') => (Err "chain.blocks persist failed and rollback failed", (set_store (set_chain n c') st', d'))
        | (Ok _, c') => (Err (PFX_STORAGE +:+ " fail-closed: chain.blocks write failure — " +:+ IoError_display err), (set_store (set_chain n c') st', d'))
        | (Panic, c') => (Panic, (set_store (set_chain n c') st', d')) end)) as Hfail.
    { intros err st' d' Heq Hpo. rewrite rollback_after_append by done. rewrite Heq in Hpath. cbn [fst snd] in Hpath.
      split; [split; cbn; [done..|by rewrite Hpo]|]. done. }
    unfold seal_post in Hfail. rewrite Hr in Hfail. cbn [fst] in Hfail.
    destruct (bs_poisoned (ni_store n)) eqn:Hpo.
    { destruct (store_append_poisoned (ni_store n) d b e Hpo He) as [err Heq]. specialize (Hfail err _ _ Heq Hpo).
      rewrite Heq. exact Hfail. }
    destruct (Hd eq_refl) as (ps&Hh&Hps).
    pose proof sealed_max_fits.
    destruct (store_append_fits (ni_store n) d b e ps Hh He) as [(st'&d'&Heq&Hh')|(err&st'&d'&Heq&Hpo')]; [lia| |].
    2: { specialize (Hfail err _ _ Heq Hpo'). rewrite Heq. exact Hfail. }
    rewrite Heq in Hpath |- *. cbn [fst snd] in Hpath. clear Hfail.
    destruct (remove_by_tx_hashes_implements (tx_tx_hash <$> blk_transactions b) (ni_pool n) (proj1 Hp)) as [Hm' Habs].
    assert (clone_fifo (remove_by_tx_hashes (tx_tx_hash <$> blk_transactions b) (ni_pool n))
      = filter (λ t, tx_tx_hash t ∉ tx_tx_hash <$> blk_transactions b) (clone_fifo (ni_pool n))) as Hfifo by (by injection Habs).
    destruct (chain_last _ _ Hc) as (_&_&_&Hpos&_).
    split; [split; cbn; [done|done| |]|].
    + split; [done|]. rewrite Hfifo. eapply Forall_sublist; [apply sublist_filter|apply Hp].
    + intros _. exists (ps ++ [e]). split; [done|]. rewrite drop_app_le by lia. apply Forall2_app; [done|].
      constructor; [|constructor]. split; [by apply decode_encode_block|lia].
    + split; [done|]. split_and!; [done..| |done|by rewrite He]. apply Hh'.
Qed.
(** The block of a successful attempt: stamped with the time of the attempt, and
    small. *)
Lemma seal_facts now allowed n d b n' d' :
  node_inv n d → in_u64 now → seal_block now allowed (n, d) = (Ok (Some b), (n', d')) →
  bc_consensus (ni_chain n') = bc_consensus (ni_chain n) ∧ blk_timestamp_unix b = now
  ∧ ∃ e, encode_block b = Some e ∧ zlen e ≤ sealed_max.
Proof.
  intros [Hg Hc Hp _] Hnow. unfold seal_block. destruct allowed; cbn [negb]; [|done].
  destruct (pending_removal_cases _ _ _ now Hg Hc Hp Hnow) as [(r&->&[->|[e ->]])|(b'&s'&->&_&_&_&_&Hts&e&He&Hle)]; [done..|].
  cbn [bc_blocks]. rewrite last_snoc. destruct (store_append_block b' (ni_store n, d)) as [[[]|err|] [st d2]].
  - intros [= -> <- <-]. split_and!; [done|done|by exists e].
  - by destruct (rollback_last_block _ _) as [[[]| |] c].
  - done.
Qed.
End sealing.
