(* ===== verification/RunSafe.v ===== *)
(** * Every run of the node is safe ([main.rs])

    The iterations of the production loop keep [node_inv], whatever the peers
    send, whatever file calls fail and whatever the sessions do in between. *)

From Stdlib Require Import ZArith Lia Ascii.
From stdpp Require Import base strings list gmap.
From S2P Require Import Prelude Bytes Io Crypto Transaction Wallet Block Encoding Genesis Ledger Mempool MempoolQueue Blockchain Storage StorageSpec Restart PendingTx Toml Seen PeerBook DataDirBind Wire Node Session Args Commands Run StartSpec RunSpec.

(** ** Draining the queue *)

Section drain.
Context `{CryptoLaws}.

Lemma write_pending_no_panic path payload : panic_free (write_pending_atomic path payload).
Proof.
  unfold write_pending_atomic, rename_replace_pending_file. solve_panic_free.
  all: intros d; case_match; [done|]; by destruct (try_call d) as [[] d1].
Qed.

Lemma write_or_restore_kept dir payload before pool d :
  let res := write_or_restore (path_join dir PENDING_TX_FILE) payload before (pool, d) in
  res.1 ≠ Panic ∧ (res.2.1 = pool ∨ res.2.1 = restore_fifo before pool)
  ∧ d_files res.2.2 !! chain_path dir = d_files d !! chain_path dir.
Proof.
  unfold write_or_restore. set (path := path_join dir PENDING_TX_FILE).
  assert (path ≠ chain_path dir) as Hne by (by apply join_ne).
  assert (with_extension path "tril.tmp" ≠ chain_path dir) as Htmp by (by apply queue_tmp_ne).
  pose proof (write_pending_keeps (chain_path dir) path payload Htmp Hne d) as Hk.
  pose proof (write_pending_no_panic path payload d) as Hp.
  destruct (write_pending_atomic path payload d) as [[[]| |] d1]; [| |done]; cbn [fst snd] in *; eauto.
Qed.

Definition drain_kept (dir : string) (d : Disk) (res : Res string unit * (Mempool * Disk)) : Prop :=
  res.1 ≠ Panic ∧ pool_ok res.2.1 ∧ d_files res.2.2 !! chain_path dir = d_files d !! chain_path dir.

(** A drain, whatever the queue file holds. *)
Lemma drain_safe dir pool d : pool_ok pool → drain_kept dir d (drain_pending_file (path_join dir PENDING_TX_FILE) (pool, d)).
Proof.
  intros Hok. pose proof (proj1 Hok) as Hi. unfold drain_pending_file. set (path := path_join dir PENDING_TX_FILE).
  assert (∀ pool1, mp_capacity pool1 = mp_capacity pool → restore_fifo (clone_fifo pool) pool1 = pool) as Hrestore
    by (intros pool1 Hc; apply restore_clone; [apply Hi|done]).
  unfold sbind at 1. assert (pending_queue_lock_path path ≠ chain_path dir) as Hlock by (by apply queue_lock_ne).
  pose proof (keeps_acquire (chain_path dir) _ Hlock d) as Hk1. pose proof (panic_free_acquire (pending_queue_lock_path path) d) as Hp1.
  destruct (acquire_exclusive (pending_queue_lock_path path) d) as [[[]|e|] d1]; cbn [map_err fst snd] in *; [|done..].
  unfold sbind at 1, sget. cbn [fst snd]. unfold sbind at 1, drain_io at 1.
  pose proof (path_exists_files (E:=IoError) path d1) as [Hf1 [ex Hex]].
  destruct (path_exists path d1) as [r1 d1']. cbn [fst snd] in Hf1, Hex. subst r1. cbn [map_err].
  rewrite <- Hf1 in Hk1. clear Hf1. rename d1 into d0, d1' into d1. destruct ex; cbn [negb]; [|done].
  unfold sbind at 1, drain_io. pose proof (keeps_fs_read (chain_path dir) path d1) as Hk2. pose proof (panic_free_fs_read path d1) as Hp2.
  destruct (fs_read path d1) as [[data|e|] d2]; cbn [fst snd map_err] in *; [|split_and!; cbn; [done..|congruence]|done]. 
  assert (∀ res, drain_kept dir d2 res → drain_kept dir d res) as Hweak by (unfold drain_kept; intros res; by rewrite Hk2, Hk1).
  apply Hweak. clear Hweak Hk1 Hk2 Hp1 Hp2.
  unfold sbind at 1, slift at 1. pose proof (parse_pending_no_panic data) as Hp.
  destruct (parse_pending_file_bytes data) as [txs|e|] eqn:Hparse; [|done..]. apply parse_pending_ok in Hparse as (ps&Hdata&Hps).
  destruct (Nat.eqb (length txs) 0).
  { destruct (write_or_restore_kept dir [] (clone_fifo pool) pool d2) as (Hw1&Hw2&Hw3). fold path in Hw1, Hw2, Hw3.
    split_and!; [done| |done]. destruct Hw2 as [->| ->]; [done|by rewrite Hrestore]. }
  unfold sbind at 1. destruct (drain_from_spec txs 0 pool Hi) as (n&pool1&->&Hn&Hi1&Hc1&(added&Hq&Hsub)&_).
  cbn [Nat.add]. unfold sbind at 1, slift, encode_pending_payload.
  rewrite (encode_pending_from_ok (drop n ps) (drop n txs) []) by (by apply Forall2_drop). cbn [app].
  destruct (write_or_restore_kept dir (pending_frames (drop n ps)) (clone_fifo pool) pool1 d2) as (Hw1&Hw2&Hw3).
  fold path in Hw1, Hw2, Hw3. split_and!; [done| |done]. destruct Hw2 as [->| ->]; [|by rewrite Hrestore].
  split; [done|]. rewrite Hq. apply Forall_app. split; [apply Hok|]. apply (Forall_sublist _ _ txs).
  - etrans; [exact Hsub|]. apply sublist_take.
  - clear -Hps. induction Hps as [|p t ps txs [Hd _] _ IH]; constructor; [|done]. by apply decode_transaction_ok in Hd as [[? _] _].
Qed.
End drain.

(** ** Steps of a run *)

(** A step of a healthy run: the node stays at its genesis and its file, and its
    chain is only ever extended. *)
Definition grows (n n' : NodeInner) : Prop :=
  ni_genesis n' = ni_genesis n ∧ bs_path (ni_store n') = bs_path (ni_store n)
  ∧ bc_blocks (ni_chain n) `prefix_of` bc_blocks (ni_chain n').

#[export] Instance grows_preorder : PreOrder grows.
Proof. split; [done|]. intros n1 n2 n3 (Hg1&Hp1&Hb1) (Hg2&Hp2&Hb2). split_and!; [congruence..|by etrans]. Qed.

Lemma home_grows n n' : same_home n n' → bc_blocks (ni_chain n) `prefix_of` bc_blocks (ni_chain n') → grows n n'.
Proof. by intros (?&?&?) ?. Qed.

Lemma book_grows n b : grows n (set_book n b).
Proof. done. Qed.

Section steps.
Context `{CryptoLaws}.

(** A step that returned without panic. *)
Definition step_ok {A} (n : NodeInner) (o : option (Res string A * (NodeInner * Disk))) : Prop :=
  ∃ r n' d', o = Some (r, (n', d')) ∧ r ≠ Panic ∧ node_inv n' d' ∧ grows n n'.

Lemma step_ok_end {A} (r : Res string A) n n' d' :
  r ≠ Panic → node_inv n' d' → grows n n' → step_ok n (Some (r, (n', d'))).
Proof. intros. by exists r, n', d'. Qed.

Lemma step_ok_trans {A} (o : option (Res string A * (NodeInner * Disk))) n n1 :
  grows n n1 → step_ok n1 o → step_ok n o.
Proof. intros Hg (r&n'&d'&->&Hr&Hi&Hg'). apply step_ok_end; [done..|by etrans]. Qed.


Lemma predecoded_home decoded now policy n d k : same_home n (apply_predecoded decoded now policy (n, d, k)).2.1.1.
Proof.
  destruct k as [strikes stale]. unfold apply_predecoded. case_match; [done|]. destruct decoded as [tx|b|h].
  - destruct (try_submit tx (ni_pool n)) as [[]]; done.
  - case_match; [by case_match|]. pose proof (append_persist_home b now n d) as Hh.
    destruct (append_network_block_persist b now (n, d)) as [[[]|f|] [n' d']]; cbn [fst snd] in *; [|by repeat case_match|done].
    etrans; [exact Hh|]. apply hygiene_home.
  - by destruct (wire_encode_blocks_response _).
Qed.

(** Other processes leave the block file alone. *)
Definition other_ok (path : string) (o : OtherStep) : Prop :=
  match o with OsFrame _ _ _ _ => True | OsFiles f => ∀ d, d_files (f d) !! path = d_files d !! path end.

Lemma other_step_ok n d o :
  node_inv n d → other_ok (bs_path (ni_store n)) o →
  node_inv (other_step (n, d) o).1 (other_step (n, d) o).2 ∧ grows n (other_step (n, d) o).1.
Proof.
  intros Hi Ho. destruct o as [policy now frame cn|f]; cbn [other_step fst snd].
  - unfold handle_frame. destruct (predecode_inbound_app_payload frame) as [decoded| |] eqn:Hpre; [|done..].
    case_match; [done|]. cbn [fst snd cn_strikes cn_stale].
    pose proof (apply_predecoded_spec decoded now policy n d (cn_strikes cn, cn_stale cn) Hi (ex_intro _ frame Hpre)) as Hs.
    pose proof (predecoded_home decoded now policy n d (cn_strikes cn, cn_stale cn)) as Hh.
    destruct (apply_predecoded _ _ _ _) as [r [[n' d'] [k1 k2]]]. destruct Hs as (Hi'&_&Hp). split; [done|]. by apply home_grows.
  - split; [|done]. apply (node_inv_files n d); [done|]. apply Ho.
Qed.

Lemma others_ok os n d :
  node_inv n d → Forall (other_ok (bs_path (ni_store n))) os →
  let node := foldl other_step (n, d) os in node_inv node.1 node.2 ∧ grows n node.1.
Proof.
  revert n d. induction os as [|o os IH]; intros n d Hi Hos; [done|]. apply Forall_cons in Hos as [Ho Hos]. cbn [foldl].
  destruct (other_step_ok n d o Hi Ho) as [Hi' Hg]. destruct (other_step (n, d) o) as [n1 d1]. cbn [fst snd] in *.
  destruct (IH n1 d1 Hi') as [Hi2 Hg2]; [by destruct Hg as (_&->&_)|]. split; [done|by etrans].
Qed.

Lemma default_budget :
  in_u32 (max_rounds_per_call SyncWorkBudget_default) ∧ in_u32 (max_blocks_per_call SyncWorkBudget_default).
Proof. by vm_compute. Qed.

(** One catch-up. *)
Lemma sync_step p conns clock n d :
  (∀ i, conns i ≠ Panic) → node_inv n d → step_ok n (sync_from_peer_with_clock p SyncWorkBudget_default conns clock (n, d)).
Proof.
  intros Hc Hi. destruct default_budget as [Hb1 Hb2].
  destruct (sync_spec p SyncWorkBudget_default conns clock n d Hc Hi Hb1 Hb2) as (r&n'&d'&bs&Heq&Hi'&Hr&Hbs&_).
  rewrite Heq. apply step_ok_end; [done..|]. apply home_grows; [by eapply sync_home|]. rewrite Hbs. by apply prefix_app_r.
Qed.

Lemma sync_peers_ok conns clock i peers b n d :
  (∀ i j, conns i j ≠ Panic) → node_inv n d → step_ok n (sync_peers conns clock i peers b (n, d)).
Proof.
  intros Hc. revert i b n d. induction peers as [|p peers IH]; intros i b n d Hi; cbn [sync_peers]; [by apply step_ok_end|].
  destruct (sync_step p (conns i) (clock i) n d (Hc i) Hi) as (r&n1&d1&->&Hr&Hi1&Hg).
  destruct r as [o|e|]; [..|done]; (eapply step_ok_trans; [exact Hg|by apply IH]).
Qed.

Lemma sync_targets_ok conns clock bclock i targets n d :
  (∀ i j, conns i j ≠ Panic) → node_inv n d → step_ok n (sync_targets conns clock bclock i targets (n, d)).
Proof.
  intros Hc. revert i n d. induction targets as [|p targets IH]; intros i n d Hi; cbn [sync_targets]; [by apply step_ok_end|].
  destruct (sync_step p (conns i) (clock i) n d (Hc i) Hi) as (r&n1&d1&->&Hr&Hi1&Hg).
  assert (∀ b, step_ok n (sync_targets conns clock bclock (S i) targets (set_book n1 b, d1))) as Hnext.
  { intros b. eapply step_ok_trans; [exact Hg|]. eapply step_ok_trans; [apply (book_grows n1 b)|]. by apply IH, node_inv_book. }
  destruct r as [o|e|]; [apply Hnext| |done]. case_match; [by apply step_ok_end|apply Hnext].
Qed.

Lemma push_no_panic conn p g h b e :
  conn ≠ Panic → encode_block b = Some e → (push_block_to_peer_with_timeouts conn p g h b).1 ≠ Panic.
Proof.
  intros Hc He. unfold push_block_to_peer_with_timeouts, push_to_peer, block_message. rewrite He. destruct conn as [s|err|]; [|done..]. cbn [mbind option_bind].
  match goal with |- context [?m s] => assert (panic_free m) as Hm end.
  { unfold push_on_stream. apply panic_free_bind; [apply panic_free_smap, handshake_initiator_no_panic|]. intros _. apply panic_free_bind; [done|].
    intros m. apply panic_free_smap, write_framed_no_panic. }
  specialize (Hm s). by destruct (push_on_stream _ _ _ _ _ s) as [r s'].
Qed.

Lemma gossip_no_panic env g b e i peers cooldown streak :
  (∀ i, te_push_conns env i ≠ Panic) → encode_block b = Some e → (gossip env g b i peers cooldown streak).1 ≠ Panic.
Proof.
  intros Hc He. revert i cooldown streak. induction peers as [|p peers IH]; intros i cooldown streak; cbn [gossip]; [done|].
  destruct (match cooldown !! p with Some t => te_now_g env <? t | None => false end); [apply IH|].
  pose proof (push_no_panic (te_push_conns env i) p g (blk_height b) b e (Hc i) He) as Hp.
  destruct (push_block_to_peer_with_timeouts _ _ _ _ _).1; [apply IH| |done].
  destruct (_ <=? saturating_add32 _ _); apply IH.
Qed.
End steps.

(** ** Iterations *)

(** What is assumed of one iteration's environment: a clock within its type,
    connections that are made or refused, and other processes that do not write
    to the block file. *)
Record tick_env_ok (path : string) (env : TickEnv) : Prop := {
  tk_now : in_u64 (te_now env);
  tk_retry i j : te_retry_conns env i j ≠ Panic;
  tk_sync i j : te_sync_conns env i j ≠ Panic;
  tk_push i : te_push_conns env i ≠ Panic;
  tk_others : Forall (other_ok path) (te_others env)
}.

Section ticks.
Context `{CryptoLaws} `{TomlTotal PeerBookFile}.

(** The catch-up call with every peer of a list returned without an error, one
    after the other. A call that stopped at its work budget returns without an
    error too. *)
Inductive Synced (conns : nat → nat → Res IoError Stream) (clock : nat → nat → Z) :
    nat → list string → NodeInner * Disk → NodeInner * Disk → Prop :=
| Synced_nil i node : Synced conns clock i [] node node
| Synced_cons i p ps node o node1 node2 :
    sync_from_peer_with_clock p SyncWorkBudget_default (conns i) (clock i) node = Some (Ok o, node1) →
    Synced conns clock (S i) ps node1 node2 → Synced conns clock i (p :: ps) node node2.

Lemma sync_peers_true conns clock i peers b node node' :
  sync_peers conns clock i peers b node = Some (Ok true, node') ↔ b = true ∧ Synced conns clock i peers node node'.
Proof.
  revert i b node. induction peers as [|p peers IH]; intros i b node; cbn [sync_peers].
  { split; [intros [= -> ->]; by split; [|constructor]|]. intros [-> Hs]. by inversion Hs. }
  destruct (sync_from_peer_with_clock _ _ _ _ node) as [[[o|e|] node1]|] eqn:Hsync.
  - rewrite IH. split; intros [-> Hs]; (split; [done|]); [by econstructor|]. inversion Hs; subst. by simplify_eq.
  - rewrite IH. split; [by intros [? _]|]. intros [_ Hs]. inversion Hs; subst. by simplify_eq.
  - split; [done|]. intros [_ Hs]. inversion Hs; subst. by simplify_eq.
  - split; [done|]. intros [_ Hs]. inversion Hs; subst. by simplify_eq.
Qed.

Lemma save_safe b dir n d :
  node_inv n d → bs_path (ni_store n) = chain_path dir →
  let res := save b (path_in_data_dir dir) d in res.1 ≠ Panic ∧ node_inv n res.2.
Proof.
  intros Hi Hp. split; [apply save_no_panic|]. apply (node_inv_files n d); [done|]. rewrite Hp. apply save_keeps. by apply join_ne.
Qed.

Lemma sync_known_ok cfg env n d :
  node_inv n d → bs_path (ni_store n) = chain_path (rc_data_dir cfg) → (∀ i j, te_sync_conns env i j ≠ Panic) →
  step_ok n (sync_known_peers cfg env (n, d)).
Proof.
  intros Hi Hp Hc. unfold sync_known_peers. destruct (rc_peers cfg) as [|p peers]; [by apply step_ok_end|]. cbn [fst].
  set (targets := filter_available _ _ _).
  destruct (sync_targets_ok (te_sync_conns env) (te_sync_clock env) (te_book_clock env) 0 targets n d Hc Hi) as (r&n1&d1&->&Hr&Hi1&Hg).
  destruct r as [[]|e|]; [|by apply step_ok_end|done].
  destruct (save_safe (ni_peer_book n1) (rc_data_dir cfg) n1 d1 Hi1) as [Hs1 Hs2]; [destruct Hg as (_&->&_); done|].
  destruct (save _ _ d1) as [r d2]. by apply step_ok_end.
Qed.

Lemma retry_ok cfg env allowed n d :
  node_inv n d → (∀ i j, te_retry_conns env i j ≠ Panic) → step_ok n (retry_sync cfg env allowed (n, d)).
Proof. intros Hi Hc. unfold retry_sync. case_match; [by apply sync_peers_ok|by apply step_ok_end]. Qed.

(** What happened in an iteration that sealed the block [b], from the node
    after the drain to the node at the end: if sealing was not allowed yet, the
    catch-up call with every configured peer returned without an error; the
    stale transactions were removed from the pool; the attempt to seal took the
    block's transactions from this pool and left chain, file and pool in step;
    and the second catch-up only extended the chain. *)
Definition sealed_ok (cfg : RunConfig) (env : TickEnv) (allowed : bool) (node : NodeInner * Disk) (b : Block)
    (node' : NodeInner * Disk) : Prop :=
  ∃ n2 d2 n4 d4,
    (if allowed then (n2, d2) = node
     else rc_peers cfg ≠ [] ∧ Synced (te_retry_conns env) (te_retry_clock env) 0 (rc_peers cfg) node (n2, d2))
    ∧ seal_block (te_now env) true (hygiene n2, d2) = (Ok (Some b), (n4, d4))
    ∧ is_Some (encode_block b) ∧ blk_transactions b ≠ []
    ∧ blk_transactions b `sublist_of` clone_fifo (ni_pool (hygiene n2))
    ∧ bc_blocks (ni_chain n4) = bc_blocks (ni_chain n2) ++ [b] ∧ node_inv n4 d4 ∧ bs_poisoned (ni_store n4) = false
    ∧ clone_fifo (ni_pool n4)
      = filter (λ t, tx_tx_hash t ∉ tx_tx_hash <$> blk_transactions b) (clone_fifo (ni_pool (hygiene n2)))
    ∧ sync_known_peers cfg env (n4, d4) = Some (Ok tt, node')
    ∧ grows node.1 n2 ∧ grows n4 node'.1.

(** The part of an iteration under the lock, with [Q] of a sealed block and the
    final node. *)
Definition tick_ok (Q : Block → NodeInner * Disk → Prop) (n : NodeInner)
    (o : option (Res string (option Block) * bool * (NodeInner * Disk))) : Prop :=
  ∃ r allowed' n' d', o = Some (r, allowed', (n', d')) ∧ r ≠ Panic ∧ node_inv n' d' ∧ grows n n'
    ∧ match r with Ok (Some b) => allowed' = true ∧ is_Some (encode_block b) ∧ Q b (n', d') | _ => True end.

Lemma tick_ok_err Q n allowed' e n' d' :
  node_inv n' d' → grows n n' → tick_ok Q n (Some (Err e, allowed', (n', d'))).
Proof. intros. by exists (Err e), allowed', n', d'. Qed.

Lemma hygiene_grows n : grows n (hygiene n).
Proof. done. Qed.

Lemma seal_grows now allowed n d r n' d' : seal_post now allowed n d (r, (n', d')) → grows n n'.
Proof.
  intros (_&Hh&Hr). apply home_grows; [done|]. destruct r as [[b|]|e|]; [|..|done].
  2: destruct Hr as [_ [[-> _]|(_&->&_)]]; done.
  2: by destruct Hr as (_&->&_).
  destruct Hr as (_&_&_&->&_). by apply prefix_app_r.
Qed.

Lemma tick_sealing_ok cfg env allowed n d :
  tick_env_ok (chain_path (rc_data_dir cfg)) env → node_inv n d → bs_path (ni_store n) = chain_path (rc_data_dir cfg) →
  tick_ok (sealed_ok cfg env allowed (n, d)) n (tick_sealing cfg env allowed (n, d)).
Proof.
  intros Henv Hi Hpath. unfold tick_sealing.
  destruct (retry_ok cfg env allowed n d Hi (tk_retry _ _ Henv)) as (r2&n2&d2&Hretry&Hr2&Hi2&Hg2). rewrite Hretry.
  destruct r2 as [allowed2|e|]; [|by apply tick_ok_err|done].
  pose proof (seal_block_spec (te_now env) allowed2 (hygiene n2) d2 (hygiene_node_inv n2 d2 Hi2) (tk_now _ _ Henv)) as Hseal.
  destruct (seal_block _ _ _) as [r3 [n3 d3]] eqn:Hrun. pose proof (seal_grows _ _ _ _ _ _ _ Hseal) as Hg3.
  destruct Hseal as (Hi3&_&Hs). assert (grows n n3) as Hgn3 by (etrans; [exact Hg2|etrans; [apply (hygiene_grows n2)|exact Hg3]]).
  destruct r3 as [sealed|e|]; [|by apply tick_ok_err|done].
  destruct (sync_known_ok cfg env n3 d3 Hi3) as (r4&n4&d4&Hsync&Hr4&Hi4&Hg4); [destruct Hgn3 as (_&->&_); done|apply (tk_sync _ _ Henv)|].
  rewrite Hsync. assert (grows n n4) as Hgn4 by (by etrans). destruct r4 as [[]|e|]; [|by apply tick_ok_err|done].
  exists (Ok sealed), allowed2, n4, d4. split_and!; [done..|]. destruct sealed as [b|]; [|done].
  destruct Hs as (->&Hne&Hsub&Hbs&Hpo&Hfifo&He). split_and!; [done..|]. exists n2, d2, n3, d3. split_and!; [|done..].
  unfold retry_sync in Hretry. destruct allowed; cbn [negb andb] in Hretry; [by injection Hretry as <- <-|].
  destruct (rc_peers cfg) as [|p peers] eqn:Hpeers; [done|]. cbn [length Nat.eqb negb] in Hretry.
  split; [done|]. by apply sync_peers_true in Hretry as [_ Hsy].
Qed.

Lemma tick_locked_ok cfg env allowed n d :
  tick_env_ok (chain_path (rc_data_dir cfg)) env → node_inv n d → bs_path (ni_store n) = chain_path (rc_data_dir cfg) →
  tick_ok (λ b node', ∃ r pool1 d1,
             drain_pending_file (path_join (rc_data_dir cfg) PENDING_TX_FILE) (ni_pool n, d) = (r, (pool1, d1))
             ∧ sealed_ok cfg env allowed (set_pool n pool1, d1) b node') n
    (tick_locked cfg env allowed (n, d)).
Proof.
  intros Henv Hi Hpath. unfold tick_locked. destruct (bs_poisoned (ni_store n)); [by apply tick_ok_err|].
  destruct (drain_safe (rc_data_dir cfg) (ni_pool n) d (nv_pool _ _ Hi)) as (Hd1&Hd2&Hd3).
  destruct (drain_pending_file _ (ni_pool n, d)) as [rd [pool d1]]. cbn [fst snd] in *.
  destruct (tick_sealing_ok cfg env allowed (set_pool n pool) d1 Henv) as (r&a&n'&d'&Heq&Hr&Hi'&Hg'&Hs).
  - apply (node_inv_files _ d); [by apply node_inv_pool|]. cbn. by rewrite Hpath.
  - done.
  - exists r, a, n', d'. split_and!; [by destruct rd|done..|]. destruct r as [[b|]| |]; [|done..].
    destruct Hs as (->&He&Hs). split_and!; [done..|]. by exists rd, pool, d1.
Qed.

(** The loop between two iterations. *)
Definition run_inv (cfg : RunConfig) (n0 : NodeInner) (rs : RunState) : Prop :=
  node_inv (rs_node rs) (rs_disk rs) ∧ bs_path (ni_store (rs_node rs)) = chain_path (rc_data_dir cfg) ∧ grows n0 (rs_node rs).

Lemma run_tick_ok cfg g env n0 rs :
  tick_env_ok (chain_path (rc_data_dir cfg)) env → run_inv cfg n0 rs →
  ∃ r rs', run_tick cfg g env rs = Some (r, rs') ∧ r ≠ Panic ∧ run_inv cfg n0 rs'.
Proof.
  intros Henv (Hi&Hpath&Hg0). unfold run_tick. pose proof (tk_others _ _ Henv) as Hos. rewrite <- Hpath in Hos.
  destruct (others_ok (te_others env) _ _ Hi Hos) as [Hi1 Hg1]. cbn zeta in *.
  destruct (foldl other_step (rs_node rs, rs_disk rs) (te_others env)) as [n1 d1]. cbn [fst snd] in *.
  assert (bs_path (ni_store n1) = chain_path (rc_data_dir cfg)) as Hpath1 by (destruct Hg1 as (_&->&_); done).
  destruct (tick_locked_ok cfg env (rs_sealing_allowed rs) n1 d1 Henv Hi1 Hpath1) as (r&a&n2&d2&->&Hr&Hi2&Hg2&Hs).
  assert (∀ c s, run_inv cfg n0 (mkRunState n2 d2 a c s)) as Hinv.
  { intros c s. split_and!; [done|cbn; destruct Hg2 as (_&->&_); done|]. cbn. etrans; [exact Hg0|]. by etrans. }
  destruct r as [[b|]|e|]; [|eauto 6..|done]. destruct Hs as (->&[e He]&_).
  pose proof (gossip_no_panic env g b e 0 (rc_peers cfg) (rs_cooldown_until rs) (rs_fail_streak rs) (tk_push _ _ Henv) He) as Hgo.
  destruct (gossip _ _ _ _ _ _ _) as [rg [c s]]. eauto 6.
Qed.

Lemma run_ticks_ok cfg g envs n0 rs :
  Forall (tick_env_ok (chain_path (rc_data_dir cfg))) envs → run_inv cfg n0 rs →
  ∃ r rs', run_ticks cfg g envs rs = Some (r, rs') ∧ r ≠ Panic ∧ run_inv cfg n0 rs'.
Proof.
  intros He. revert rs. induction He as [|env envs Henv _ IH]; intros rs Hinv; cbn [run_ticks]; [eauto|].
  destruct (run_tick_ok cfg g env n0 rs Henv Hinv) as (r&rs1&->&Hr&Hinv1). destruct r as [[]|e|]; [by apply IH|eauto 6|done].
Qed.
End ticks.

(** ** The command *)

Section run_safe.
Context `{CryptoLaws} `{GenesisDocLaws} `{TomlTotal BindFile} `{TomlTotal PeerBookFile}.

Lemma initial_sync_ok cfg start n d :
  (∀ i j, se_conns start i j ≠ Panic) → node_inv n d → bs_path (ni_store n) = chain_path (rc_data_dir cfg) →
  step_ok n (initial_sync cfg start (n, d)).
Proof.
  intros Hc Hi Hp. unfold initial_sync. destruct (rc_peers cfg) as [|p peers]; [by apply step_ok_end|].
  destruct (sync_peers_ok (se_conns start) (se_clock start) 0 (p :: peers) true n d Hc Hi) as (r&n1&d1&->&Hr&Hi1&Hg).
  destruct r as [b|e|]; [|by apply step_ok_end|done].
  destruct (save_safe (ni_peer_book n1) (rc_data_dir cfg) n1 d1 Hi1) as [Hs1 Hs2]; [destruct Hg as (_&->&_); done|].
  destruct (save _ _ d1) as [[[]|e|] d2]; [by apply step_ok_end..|done].
Qed.

(** A whole run, whatever happens to it. *)
Lemma cmd_run_ok cfg start envs d :
  stats_work d → is_Some (se_since_epoch start) → (∀ i j, se_conns start i j ≠ Panic) → se_bind start ≠ Panic →
  Forall (tick_env_ok (chain_path (rc_data_dir cfg))) envs →
  ∃ r o, cmd_run cfg start envs d = Some (r, o) ∧ r ≠ Panic
    ∧ ∀ rs, o = Some rs → node_inv (rs_node rs) (rs_disk rs)
        ∧ ∃ w n0 d0, start_node cfg start d = (Ok (w, n0), d0) ∧ grows n0 (rs_node rs).
Proof.
  intros Hstat Hclock Hc Hb Henvs. unfold cmd_run. pose proof (start_node_no_panic cfg start Hclock d) as Hnp.
  destruct (start_node cfg start d) as [[[w n]|e|] d0] eqn:Hstart; [|by eexists _, _|done].
  destruct (start_node_ok _ _ _ _ _ _ Hstat Hstart) as (Hi&Hpath&_).
  destruct (initial_sync_ok cfg start n d0 Hc Hi Hpath) as (r&n1&d1&->&Hr&Hi1&Hg).
  assert (∀ rs, run_inv cfg n rs → node_inv (rs_node rs) (rs_disk rs)
    ∧ ∃ w0 n0 d2, (Ok (w, n), d0) = (@Ok string _ (w0, n0), d2) ∧ grows n0 (rs_node rs)) as Hout.
  { intros rs (?&_&?). split; [done|]. by exists w, n, d0. }
  set (rs := mkRunState n1 d1 _ ∅ ∅). assert (run_inv cfg n rs) as Hinv.
  { split_and!; [done|cbn; destruct Hg as (_&->&_); done|done]. }
  assert (∀ e, ∃ r o, Some (@Err string unit e, Some rs) = Some (r, o) ∧ r ≠ Panic
    ∧ ∀ rs, o = Some rs → node_inv (rs_node rs) (rs_disk rs)
        ∧ ∃ w0 n0 d2, (Ok (w, n), d0) = (@Ok string _ (w0, n0), d2) ∧ grows n0 (rs_node rs)) as Hstop.
  { intros e. eexists _, _. split_and!; [done..|]. intros rs' [= <-]. by apply Hout. }
  destruct r as [b|e|]; [|apply Hstop|done].
  destruct (run_ticks_ok cfg (ni_genesis n1) envs n rs Henvs Hinv) as (r&rs'&Hrun&Hr'&Hinv').
  assert (∃ r0 o, prod_map id Some <$> run_ticks cfg (ni_genesis n1) envs rs = Some (r0, o) ∧ r0 ≠ Panic
    ∧ ∀ rs, o = Some rs → node_inv (rs_node rs) (rs_disk rs)
        ∧ ∃ w0 n0 d2, (Ok (w, n), d0) = (@Ok string _ (w0, n0), d2) ∧ grows n0 (rs_node rs)) as Hgo.
  { rewrite Hrun. eexists _, _. split_and!; [done..|]. intros rs2 [= <-]. by apply Hout. }
  destruct (rc_listen cfg); [|exact Hgo]. destruct (se_bind start); [exact Hgo|apply Hstop|done].
Qed.

(** C2: the node keeps memory and disk together for as long as it runs. For any
    contents of the data directory, any command line configuration, any
    failures of file calls, any frames the inbound sessions handle between
    iterations, any connections and any bytes the peers send: after any number
    of iterations [node run] is still running or has stopped with an error,
    never a panic or an endless catch-up; the chain in memory is valid for the
    genesis, and unless the store is poisoned the block file holds exactly
    that chain; and the chain extends the one loaded at start-up. Assumed: no
    existence check of the process fails (after a failed one the loader
    forgets the chain), the clock stands after 1970 (start-up unwraps it), and
    no other process writes to the block file. *)
Theorem run_safe cfg start envs d :
  stats_work d → is_Some (se_since_epoch start) → (∀ i j, se_conns start i j ≠ Panic) → se_bind start ≠ Panic →
  Forall (tick_env_ok (chain_path (rc_data_dir cfg))) envs →
  ∃ r o, cmd_run cfg start envs d = Some (r, o) ∧ r ≠ Panic
    ∧ ∀ rs, o = Some rs → node_inv (rs_node rs) (rs_disk rs)
        ∧ ∃ w n0 d0, start_node cfg start d = (Ok (w, n0), d0) ∧ grows n0 (rs_node rs).
Proof. apply cmd_run_ok. Qed.

(** C6: a block is only sealed after a catch-up with every configured peer, and
    goes to memory, file and pool together. When the locked part of an
    iteration reports a sealed block, then from the node as the drain of the
    queue left it: sealing was already allowed, or the catch-up call with every
    configured peer returned without an error in this very iteration (possibly
    stopped by its work budget); the block was sealed by [seal_block] on the
    node after that, with its stale transactions removed; its transactions, at
    least one, are from that node's pool, in order; it was appended to that
    node's chain; the file then held exactly the new chain, and the pool had
    lost exactly the sealed transactions; and the catch-up after it succeeded
    and only extended the chain. *)
Theorem seal_only_synced cfg env allowed n d b allowed' n' d' :
  tick_env_ok (chain_path (rc_data_dir cfg)) env → node_inv n d → bs_path (ni_store n) = chain_path (rc_data_dir cfg) →
  tick_locked cfg env allowed (n, d) = Some (Ok (Some b), allowed', (n', d')) →
  allowed' = true ∧ node_inv n' d'
  ∧ ∃ r pool1 d1, drain_pending_file (path_join (rc_data_dir cfg) PENDING_TX_FILE) (ni_pool n, d) = (r, (pool1, d1))
      ∧ sealed_ok cfg env allowed (set_pool n pool1, d1) b (n', d').
Proof.
  intros Henv Hi Hp Ht. destruct (tick_locked_ok cfg env allowed n d Henv Hi Hp) as (r&a&n1&d1&Heq&_&Hi1&_&Hs).
  rewrite Ht in Heq. injection Heq as <- <- <- <-. destruct Hs as (->&_&Hs). done.
Qed.

(** C7: sealing is atomic. On a node whose file holds its chain, an attempt to
    seal either appends a non-empty block of pool transactions to the chain
    and to the file and takes exactly them out of the pool; or does nothing at
    all to node and disk, because sealing is not allowed or the pool has
    nothing to seal; or, when the pool's candidates are refused, only removes
    the stale transactions from the pool; or, when the file system fails,
    leaves chain and pool as they were, reports the error and poisons the
    store, so that nothing is written afterwards. It never panics, and keeps
    the node invariant in every case. *)
Theorem seal_atomic now allowed n d :
  node_inv n d → in_u64 now → seal_post now allowed n d (seal_block now allowed (n, d)).
Proof. apply seal_block_spec. Qed.
End run_safe.
