(* ===== verification/Server.v ===== *)
(** * The running process ([network.rs], [serve_tcp_listener]; [main.rs])

    The accept loop, the session threads and the production loop of [node run]
    as one transition system. Threads interleave at their accesses to what they
    share: the node behind its lock, the files, and the slot counter with its
    atomic operations ([Slots]). Reading from and writing to its connection
    concerns one session only and happens together with its next access to the
    node. Accepting takes one connection at a time, and a session thread owns
    its permit until its last action. *)

From Stdlib Require Import ZArith Lia.
From stdpp Require Import base strings list gmap relations.
From S2P Require Import Prelude Bytes Io Crypto Transaction Wallet Block Encoding Genesis Ledger Mempool MempoolQueue Blockchain Storage StorageSpec Seen PeerBook Toml DataDirBind Wire Node Session Quota Slots Args Commands Run StartSpec RunSpec RunSafe.

(** A session thread: before its handshake, in its loop, or returned. *)
Inductive Phase :=
| Fresh (s : Stream)
| Looping (cn : Counters) (s : Stream)
| Over (r : Res IoError unit).

(** An accepted connection: where it stands with its slot, and its session. *)
Record Conn := mkConn { co_slot : SlotThread; co_phase : Phase }.

(** The process: the state of the production loop with the shared node, the slot
    pool, the connections accepted so far, and how the process ended, if it
    did. *)
Record Server := mkServer {
  srv_run : RunState;
  srv_slots : SlotPool;
  srv_conns : list Conn;
  srv_exit : option (Res string unit)
}.

(** [spawn_incoming_loop], given what binding and asking for the address gave. *)
Definition spawn_incoming_loop (bind : Res IoError unit) (local_addr : Res IoError string) (policy : InboundPeerPolicy)
    (rs : RunState) : Res IoError (Server * string) :=
  let? _ := bind in
  let? addr := local_addr in
  Ok (mkServer rs (InboundSlotPool_new (Z.to_nat (max_concurrent_sessions policy))) [] None, addr).

(** In [try_acquire]. *)
Definition acquiring (t : SlotThread) : bool := match t with Starting | Acquiring _ => true | _ => false end.

Section server.
Context `{CryptoLib} `{TomlDoc PeerBookFile}.

Definition set_node (rs : RunState) (node : NodeInner * Disk) : RunState :=
  mkRunState node.1 node.2 (rs_sealing_allowed rs) (rs_cooldown_until rs) (rs_fail_streak rs).

(** One action of a session thread that holds its permit: the handshake, a turn
    of the loop. *)
Definition session_action (policy : InboundPeerPolicy) (now : Z) (p : Phase) (node : NodeInner * Disk) :
    option (Phase * (NodeInner * Disk)) :=
  match p with
  | Fresh s =>
    match peer_session_setup node.1 s with
    | (Ok _, s') => Some (Looping counters_zero s', node)
    | (Err e, _) => Some (Over (Err e), node)
    | (Panic, _) => Some (Over Panic, node)
    end
  | Looping cn s =>
    match session_iter policy (λ x, x) now cn s node with
    | (None, cn', s', node') => Some (Looping cn' s', node')
    | (Some r, _, _, node') => Some (Over r, node')
    end
  | Over _ => None
  end.

(** The frames that such an action reads from its connection. *)
Definition action_reads (now : Z) (p : Phase) (node : NodeInner * Disk) : list Handled :=
  match p with Looping cn s => frame_read cn s now node | _ => [] end.

(** A step, with the frames that were read in it and the number of the
    connection they came from. *)
Inductive server_step (cfg : RunConfig) (genesis : Genesis) (policy : InboundPeerPolicy) :
    Server → list (nat * Handled) → Server → Prop :=
(* the accept loop *)
| sst_accept rs p cs s :
    Forall (λ c, acquiring (co_slot c) = false) cs →
    server_step cfg genesis policy (mkServer rs p cs None) [] (mkServer rs p (cs ++ [mkConn Starting (Fresh s)]) None)
| sst_acquire rs p cs i t ph spurious p' t' :
    cs !! i = Some (mkConn t ph) → try_acquire_step spurious p t = Some (p', t') →
    server_step cfg genesis policy (mkServer rs p cs None) [] (mkServer rs p' (<[ i := mkConn t' ph ]> cs) None)
(* a session thread *)
| sst_session rs p cs i ph now ph' node' :
    cs !! i = Some (mkConn Holding ph) → session_action policy now ph (rs_node rs, rs_disk rs) = Some (ph', node') →
    server_step cfg genesis policy (mkServer rs p cs None) (pair i <$> action_reads now ph (rs_node rs, rs_disk rs))
      (mkServer (set_node rs node') p (<[ i := mkConn Holding ph' ]> cs) None)
| sst_drop rs p cs i t r p' t' :
    cs !! i = Some (mkConn t (Over r)) → drop_step p t = Some (p', t') →
    server_step cfg genesis policy (mkServer rs p cs None) [] (mkServer rs p' (<[ i := mkConn t' (Over r) ]> cs) None)
(* the production loop; an error ends the process *)
| sst_tick rs p cs env r rs' :
    tick_env_ok (chain_path (rc_data_dir cfg)) env → te_others env = [] → run_tick cfg genesis env rs = Some (r, rs') →
    server_step cfg genesis policy (mkServer rs p cs None) []
      (mkServer rs' p cs (match r with Ok _ => None | _ => Some r end))
(* another process changes files other than the block file *)
| sst_files rs p cs f :
    other_ok (chain_path (rc_data_dir cfg)) (OsFiles f) →
    server_step cfg genesis policy (mkServer rs p cs None) [] (mkServer (set_node rs (rs_node rs, f (rs_disk rs))) p cs None).

(** A run of the process with everything its sessions read. *)
Inductive server_run (cfg : RunConfig) (genesis : Genesis) (policy : InboundPeerPolicy) (s0 : Server) :
    list (nat * Handled) → Server → Prop :=
| server_run_start : server_run cfg genesis policy s0 [] s0
| server_run_step log s l s' :
    server_run cfg genesis policy s0 log s → server_step cfg genesis policy s l s' →
    server_run cfg genesis policy s0 (log ++ l) s'.

(** What was read from one connection. *)
Definition read_from (i : nat) (log : list (nat * Handled)) : list Handled := (filter (λ e, e.1 = i) log).*2.
End server.

Section server_props.
Context `{CryptoLaws} `{TomlTotal PeerBookFile}.

(** ** Session threads *)

(** A session thread with what it has read: it runs only while it holds a
    permit, and its counters are the counts over its log. *)
Definition conn_ok (policy : InboundPeerPolicy) (log : list Handled) (c : Conn) : Prop :=
  match co_phase c with
  | Fresh _ => (co_slot c ≠ Dropping ∧ ∀ k, co_slot c ≠ Releasing k) ∧ log = []
  | Looping cn _ => co_slot c = Holding ∧ within_limits policy 1 cn ∧ cn = tally log
  | Over r => acquiring (co_slot c) = false ∧ r ≠ Panic ∧ quotas_kept policy log
  end.

Lemma within_quotas policy log : policy_wf policy → within_limits policy 1 (tally log) → quotas_kept policy log.
Proof. intros Hpol Hl. unfold quotas_kept, tally in *. limits. Qed.

Lemma session_iter_grows policy now cn s n d :
  node_inv n d → grows n (session_iter policy (λ x, x) now cn s (n, d)).2.1.
Proof.
  intros Hi. unfold session_iter. case_match; [done|]. destruct (read_framed s) as [[frame|e|] s']; [|by repeat case_match|done].
  do 2 (case_match; [done|]). set (cn1 := mkCounters _ _ _ _ _ _).
  pose proof (proj2 (other_step_ok n d (OsFrame policy now frame cn1) Hi I)) as Hg. cbn [other_step] in Hg.
  destruct (handle_frame policy now frame cn1 (n, d)) as [[o cn2] [n2 d2]]. cbn [fst snd] in Hg.
  destruct o as [[resp|]|pe|]; [|done| |done].
  - by destruct (write_framed resp s') as [[[]| |] ?].
  - by destruct (session_verdict policy pe cn2).
Qed.

Lemma session_action_ok policy now ph n d ph' n' d' log :
  policy_wf policy → node_inv n d → conn_ok policy log (mkConn Holding ph) →
  session_action policy now ph (n, d) = Some (ph', (n', d')) →
  node_inv n' d' ∧ grows n n' ∧ conn_ok policy (log ++ action_reads now ph (n, d)) (mkConn Holding ph').
Proof.
  intros Hpol Hi Hok. destruct ph as [s|cn s|r]; cbn [session_action action_reads]; [| |done].
  - destruct Hok as [_ ->]. pose proof (setup_no_panic n s) as Hnp. cbn [fst app].
    assert (within_limits policy 1 (tally [])) as Hl by (rewrite tally_nil; unfold counters_zero; limits).
    destruct (peer_session_setup n s) as [[[]|e|] s']; [| |done]; intros [= <- <- <-]; split_and!; [done..|by split_and!|done|done|].
    split_and!; [done..|by apply within_quotas].
  - destruct Hok as (_&Hl&->). pose proof (session_iter_spec policy (λ x, x) now (tally log) s n d Hpol (λ x, x) Hi Hl) as Hs.
    pose proof (session_iter_grows policy now (tally log) s n d Hi) as Hg.
    destruct (session_iter_tally policy (λ x, x) now log s n d Hpol Hl) as [Hq Ht].
    destruct (session_iter policy (λ x, x) now (tally log) s (n, d)) as [[[[r|] cn'] s'] [n1 d1]]; cbn [snd fst] in Hg.
    + destruct Hs as (Hi'&Hr&_). by intros [= <- <- <-].
    + destruct Hs as (Hi'&Hl'&_). intros [= <- <- <-]. specialize (Ht eq_refl). by subst cn'.
Qed.

(** ** The whole process *)

Definition server_slots (s : Server) : SlotPool * list SlotThread := (srv_slots s, co_slot <$> srv_conns s).

Record server_inv (cfg : RunConfig) (policy : InboundPeerPolicy) (n0 : NodeInner) (log : list (nat * Handled)) (s : Server) : Prop := {
  sri_run : run_inv cfg n0 (srv_run s);
  sri_slots : slots_inv (server_slots s);
  sri_max : sp_max (srv_slots s) = Z.to_nat (max_concurrent_sessions policy);
  sri_conns i c : srv_conns s !! i = Some c → conn_ok policy (read_from i log) c;
  sri_log i : srv_conns s !! i = None → read_from i log = [];
  sri_exit : srv_exit s ≠ Some Panic
}.

Lemma slot_insert (cs : list Conn) i t ph :
  co_slot <$> <[ i := mkConn t ph ]> cs = <[ i := t ]> (co_slot <$> cs).
Proof. by rewrite list_fmap_insert. Qed.

Lemma slots_accept p ts : slots_inv (p, ts) → slots_inv (p, ts ++ [Starting]).
Proof.
  intros (Ha&Hm&Hz). unfold slots_inv in *. cbn [fst snd] in *. split_and!; [|done|].
  - rewrite Ha. unfold owners. by rewrite filter_app, length_app, Nat.add_0_r.
  - intros [?|Hin%list_elem_of_singleton]%elem_of_app; [by apply Hz|done].
Qed.

Lemma conn_acquire policy log sp p t ph p' t' :
  conn_ok policy log (mkConn t ph) → try_acquire_step sp p t = Some (p', t') → conn_ok policy log (mkConn t' ph).
Proof.
  unfold conn_ok. cbn [co_phase co_slot]. intros Hok Hst. destruct ph as [s|cn s|r].
  - destruct Hok as [Hok ->]. split; [|done].
    destruct t as [|k| | | |]; cbn [try_acquire_step] in Hst; [by injection Hst as <- <-| |done..]. repeat case_match; by simplify_eq/=.
  - by destruct Hok as [-> _].
  - by destruct t, Hok.
Qed.

Lemma conn_drop policy log p t r p' t' :
  conn_ok policy log (mkConn t (Over r)) → drop_step p t = Some (p', t') → conn_ok policy log (mkConn t' (Over r)).
Proof.
  unfold conn_ok. cbn [co_phase co_slot]. intros (_&Hr&Hq) Hst. split; [|done].
  destruct t; cbn [drop_step] in Hst; [done|done|by injection Hst as <- <-|by injection Hst as <- <-| |done].
  repeat case_match; by simplify_eq/=.
Qed.

Lemma run_inv_step cfg n0 rs n' d' :
  run_inv cfg n0 rs → node_inv n' d' → grows (rs_node rs) n' → run_inv cfg n0 (set_node rs (n', d')).
Proof. intros (_&Hp&Hg) Hi Hg'. split_and!; [done|cbn; destruct Hg' as (_&->&_); done|by etrans]. Qed.

Lemma read_from_app i l1 l2 : read_from i (l1 ++ l2) = read_from i l1 ++ read_from i l2.
Proof. unfold read_from. by rewrite filter_app, fmap_app. Qed.

Lemma read_from_own i hs : read_from i (pair i <$> hs) = hs.
Proof. induction hs as [|h hs IH]; [done|]. unfold read_from in *. rewrite fmap_cons, filter_cons_True, fmap_cons by done. by rewrite IH. Qed.

Lemma read_from_other i j hs : i ≠ j → read_from i (pair j <$> hs) = [].
Proof. intros Hne. induction hs as [|h hs IH]; [done|]. unfold read_from in *. by rewrite fmap_cons, filter_cons_False. Qed.

(** One connection changes and reads [hs]. *)
Lemma conns_insert policy (cs : list Conn) i c c' log hs :
  cs !! i = Some c → (∀ j x, cs !! j = Some x → conn_ok policy (read_from j log) x) →
  conn_ok policy (read_from i log ++ hs) c' →
  ∀ j x, <[ i := c' ]> cs !! j = Some x → conn_ok policy (read_from j (log ++ (pair i <$> hs))) x.
Proof.
  intros Hl Hall Hc' j x Hj. rewrite read_from_app. destruct (decide (j = i)) as [->|Hne].
  - rewrite list_lookup_insert_eq in Hj by (by eapply lookup_lt_Some). injection Hj as <-. by rewrite read_from_own.
  - rewrite list_lookup_insert_ne in Hj by done. rewrite read_from_other, app_nil_r by done. by apply Hall.
Qed.

Lemma conns_insert_none (cs : list Conn) i c c' log (hs : list Handled) :
  cs !! i = Some c → (∀ j, cs !! j = None → read_from j log = []) →
  ∀ j, <[ i := c' ]> cs !! j = None → read_from j (log ++ (pair i <$> hs)) = [].
Proof.
  intros Hl Hall j Hj. rewrite read_from_app. destruct (decide (j = i)) as [->|Hne].
  - by rewrite list_lookup_insert_eq in Hj by (by eapply lookup_lt_Some).
  - rewrite list_lookup_insert_ne in Hj by done. rewrite read_from_other by done. by rewrite Hall.
Qed.

Lemma server_step_inv cfg genesis policy n0 log s l s' :
  policy_wf policy → server_inv cfg policy n0 log s → server_step cfg genesis policy s l s' →
  server_inv cfg policy n0 (log ++ l) s'.
Proof.
  intros Hpol [Hrun Hsl Hmax Hcs Hnone Hex] Hstep.
  destruct Hstep as [rs p cs st Hidle|rs p cs i t ph sp p' t' Hl Hst|rs p cs i ph now ph' node' Hl Hact|rs p cs i t r p' t' Hl Hst
    |rs p cs env r rs' Henv Hoth Htick|rs p cs f Hf]; unfold server_slots in *; cbn [srv_run srv_slots srv_conns srv_exit] in *.
  - rewrite app_nil_r. split; try done; cbn [srv_conns]; unfold server_slots; cbn [srv_slots srv_conns].
    + rewrite fmap_app. by apply slots_accept.
    + intros i c [Hc|(Hle&Hc)]%lookup_app_Some; [by apply Hcs|]. apply list_lookup_singleton_Some in Hc as [Hz <-].
      split; [done|]. apply Hnone, lookup_ge_None. lia.
    + intros i Hi%lookup_ge_None. apply Hnone, lookup_ge_None. rewrite length_app in Hi. lia.
  - assert (slot_step (p, co_slot <$> cs) (p', <[ i := t' ]> (co_slot <$> cs))) as Hs.
    { eapply ss_acquire; [|exact Hst]. by rewrite list_lookup_fmap, Hl. }
    split; try done; unfold server_slots; cbn [srv_slots srv_conns].
    + rewrite slot_insert. by eapply slot_step_inv.
    + apply slot_step_max in Hs. cbn [fst] in Hs. by rewrite Hs.
    + apply (conns_insert policy cs i _ _ log [] Hl Hcs). rewrite app_nil_r. eapply conn_acquire; [|exact Hst]. by apply Hcs.
    + by apply (conns_insert_none cs i _ _ log [] Hl).
  - destruct node' as [n' d']. destruct Hrun as (Hi&Hpath&Hg0).
    destruct (session_action_ok policy now ph _ _ ph' n' d' (read_from i log) Hpol Hi (Hcs _ _ Hl) Hact) as (Hi'&Hg&Hc).
    split; unfold server_slots; cbn [srv_run srv_slots srv_conns srv_exit]; [by apply run_inv_step| |done| | |done].
    + rewrite slot_insert, list_insert_id; [done|]. by rewrite list_lookup_fmap, Hl.
    + by apply (conns_insert policy cs i _ _ log _ Hl Hcs).
    + by apply (conns_insert_none cs i _ _ log _ Hl).
  - assert (slot_step (p, co_slot <$> cs) (p', <[ i := t' ]> (co_slot <$> cs))) as Hs.
    { eapply ss_drop; [|exact Hst]. by rewrite list_lookup_fmap, Hl. }
    split; try done; unfold server_slots; cbn [srv_slots srv_conns].
    + rewrite slot_insert. by eapply slot_step_inv.
    + apply slot_step_max in Hs. cbn [fst] in Hs. by rewrite Hs.
    + apply (conns_insert policy cs i _ _ log [] Hl Hcs). rewrite app_nil_r. eapply conn_drop; [|exact Hst]. by apply Hcs.
    + by apply (conns_insert_none cs i _ _ log [] Hl).
  - destruct (run_tick_ok cfg genesis env n0 rs Henv Hrun) as (r'&rs''&Heq&Hr&Hrun'). rewrite Htick in Heq. injection Heq as <- <-.
    rewrite app_nil_r. split; try done. cbn [srv_exit]. by destruct r.
  - rewrite app_nil_r. split; try done. cbn [srv_run]. destruct Hrun as (Hi&Hpath&Hg). apply run_inv_step; [done| |done].
    apply (node_inv_files _ (rs_disk rs)); [done|]. rewrite Hpath. apply Hf.
Qed.

(** The sessions that are being served. *)
Definition in_session (c : Conn) : bool := match co_phase c with Looping _ _ => true | _ => false end.
Definition sessions (s : Server) : nat := length (filter (λ c, in_session c = true) (srv_conns s)).

Lemma sessions_own (cs : list Conn) :
  (∀ i c, cs !! i = Some c → in_session c = true → co_slot c = Holding) →
  (length (filter (λ c, in_session c = true) cs) ≤ owners (co_slot <$> cs))%nat.
Proof.
  induction cs as [|c cs IH]; intros Hc; [done|]. specialize (IH (λ i, Hc (S i))). specialize (Hc 0%nat c eq_refl).
  rewrite fmap_cons, owners_cons, filter_cons. unfold owns_n. case_decide as Hin; [|destruct (owns _); lia].
  rewrite (Hc Hin). cbn [owns length]. lia.
Qed.

(** C3: the running process is safe under every interleaving. From a node that
    satisfies the invariant, let the accept loop, any number of session threads
    with arbitrary peers, the production loop and other processes that leave
    the block file alone take steps in any order, and let [log] be all frames
    that were read, each with its connection. Then the node invariant holds,
    the chain has only grown, at most [max_concurrent_sessions] sessions are
    served at the same time, each holding a slot that the counter accounts for;
    what was read from each connection, counted in the log, is within the
    quotas; and neither a session thread nor the production loop has panicked. *)
Theorem server_safe cfg genesis policy rs bind local_addr s0 addr log s :
  policy_wf policy → node_inv (rs_node rs) (rs_disk rs) → bs_path (ni_store (rs_node rs)) = chain_path (rc_data_dir cfg) →
  spawn_incoming_loop bind local_addr policy rs = Ok (s0, addr) → server_run cfg genesis policy s0 log s →
  node_inv (rs_node (srv_run s)) (rs_disk (srv_run s))
  ∧ bc_blocks (ni_chain (rs_node rs)) `prefix_of` bc_blocks (ni_chain (rs_node (srv_run s)))
  ∧ (sessions s ≤ Z.to_nat (max_concurrent_sessions policy))%nat
  ∧ sp_active (srv_slots s) = owners (co_slot <$> srv_conns s)
  ∧ (∀ i, quotas_kept policy (read_from i log))
  ∧ (∀ i c, srv_conns s !! i = Some c →
       match co_phase c with
       | Fresh _ => True
       | Looping _ _ => co_slot c = Holding
       | Over r => r ≠ Panic
       end)
  ∧ srv_exit s ≠ Some Panic.
Proof.
  intros Hpol Hi Hpath Hspawn Hsteps. assert (server_inv cfg policy (rs_node rs) log s) as [(Hi'&_&Hg) Hsl Hmax Hcs Hnone Hex].
  { assert (server_inv cfg policy (rs_node rs) [] s0) as Hinit.
    { revert Hspawn. unfold spawn_incoming_loop. destruct bind as [[]| |]; [|done..]. destruct local_addr; [|done..]. intros [= <- _].
      split; try done. split_and!; [done|cbn; lia|]. by intros ?%elem_of_nil. }
    clear Hspawn Hi Hpath. induction Hsteps as [|log s l s' _ IH Hst]; [done|]. by eapply server_step_inv. }
  assert (quotas_kept policy []) as Hq0.
  { apply within_quotas; [done|]. rewrite tally_nil. unfold counters_zero. limits. }
  destruct Hsl as (Hact&Hle&_). cbn [server_slots fst snd] in *. split_and!; [done|apply Hg| |done| | |done].
  - assert ((sessions s ≤ owners (co_slot <$> srv_conns s))%nat); [|lia]. apply sessions_own. intros i c Hc. specialize (Hcs i c Hc).
    unfold conn_ok, in_session in *. by destruct (co_phase c); [|intros _; apply Hcs|].
  - intros i. destruct (srv_conns s !! i) as [c|] eqn:Hc; [|by rewrite (Hnone i Hc)]. specialize (Hcs i c Hc). unfold conn_ok in Hcs.
    destruct (co_phase c); [by destruct Hcs as [_ ->]| |apply Hcs]. destruct Hcs as (_&Hl&->). by apply within_quotas.
  - intros i c Hc. specialize (Hcs i c Hc). unfold conn_ok in Hcs. by destruct (co_phase c); [|apply Hcs|apply Hcs].
Qed.
End server_props.
