(* ===== verification/SendSpec.v ===== *)
(** * What [send] queues ([main.rs])

    With a clock after 1970 [node send] never panics, and only ever appends to
    the queue; when it reports success, the queue ends in a complete frame of a valid transfer with
    the nonce the chain on disk expects next. *)

From Stdlib Require Import ZArith Lia Ascii.
From stdpp Require Import base strings list gmap.
From S2P Require Import Prelude Bytes Io Crypto Transaction Wallet Block Encoding Genesis Ledger Mempool MempoolQueue Blockchain Storage StorageSpec Restart PendingTx Toml Seen PeerBook DataDirBind Wire Node Session Args Commands Run StartSpec RunSpec.

Definition queue_path (dir : string) : string := path_join dir PENDING_TX_FILE.

(** ** Appending to the queue *)

Lemma open_create_data path d :
  file_data (open_create path d).2 path = file_data d path
  ∧ ((open_create path d).1 = Ok tt → is_Some (d_files (open_create path d).2 !! path)).
Proof.
  unfold open_create, sbind, sget, file_data. destruct (io_call_files d) as [Hf Hr]. destruct (io_call d) as [r d1]. cbn [fst snd] in *.
  rewrite <- Hf. destruct Hr as [->|[e ->]]; [|done]. destruct (d_files d1 !! path) as [c|] eqn:Hc; cbn [sret sput fst snd].
  - by rewrite Hc.
  - cbn [set_file d_files]. rewrite lookup_insert_eq. eauto.
Qed.

Lemma append_pending_spec path tx e d :
  pending_queue_lock_path path ≠ path → encode_transaction tx = Some e → zlen e ≤ u32_max →
  ∃ k r d', append_pending_transaction path tx d = (r, d')
    ∧ file_data d' path = file_data d path ++ take k (pending_frame e)
    ∧ ((r = Ok tt ∧ k = length (pending_frame e)) ∨ ∃ err, r = Err err).
Proof.
  intros Hlock He Hle. unfold append_pending_transaction.
  assert (∀ err d', file_data d' path = file_data d path →
    ∃ k r d2, (@Err IoError unit err, d') = (r, d2) ∧ file_data d2 path = file_data d path ++ take k (pending_frame e)
      ∧ ((r = Ok tt ∧ k = length (pending_frame e)) ∨ ∃ err0, r = Err err0)) as Hstop.
  { intros err d' Hd. exists 0%nat, (Err err), d'. rewrite take_0, app_nil_r. eauto. }
  unfold sbind at 1, smap_err. pose proof (keeps_acquire path _ Hlock d) as Hk. pose proof (panic_free_acquire (pending_queue_lock_path path) d) as Hp.
  destruct (acquire_exclusive _ d) as [[[]|err|] d1]; cbn [map_err fst snd] in *; [|apply Hstop; unfold file_data; by rewrite Hk|done].
  unfold sbind at 1, slift. rewrite He. cbn [expect]. destruct (Z.ltb_spec u32_max (zlen e)); [lia|].
  assert (file_data d1 path = file_data d path) as Hd1 by (unfold file_data; by rewrite Hk). clear Hk Hp.
  unfold sbind at 1. destruct (open_create_data path d1) as [Ho1 Ho2]. pose proof (panic_free_open_create path d1) as Hp.
  destruct (open_create path d1) as [[[]|err|] d2]; cbn [fst snd] in *; [|apply Hstop; congruence|done].
  destruct (Ho2 eq_refl) as [c Hc]. unfold sbind. destruct (write_all_append_files path (pending_frame e) d2 c Hc) as (k&Hf&Hr).
  fold (pending_frame e). assert (c = file_data d path) as -> by (rewrite <- Hd1, <- Ho1; unfold file_data; by rewrite Hc).
  destruct (write_all_append path (pending_frame e) d2) as [r d3]. cbn [fst snd] in *.
  assert (file_data d3 path = file_data d path ++ take k (pending_frame e)) as Hd3
    by (unfold file_data at 1; by rewrite Hf, lookup_insert_eq).
  destruct Hr as [[-> ->]|[err ->]]; [|by exists k, (Err err), d3; eauto].
  destruct (io_call_files d3) as [Hf3 Hr3]. destruct (io_call d3) as [r3 d4]. cbn [fst snd] in *.
  exists (length (pending_frame e)), r3, d4. split; [done|]. split; [unfold file_data at 1; by rewrite Hf3|].
  destruct Hr3 as [->|[err ->]]; eauto.
Qed.

(** ** Signed transfers *)

Section signed.
Context `{CryptoLaws}.

Lemma sign_transfer_inv w r a f n ts tx :
  sign_transfer w r a f n ts = Ok tx →
  valid_tx tx ∧ tx_sender tx = Wallet_address w ∧ tx_receiver tx = r ∧ tx_amount tx = a ∧ tx_fee tx = f
  ∧ tx_nonce tx = n ∧ tx_timestamp_unix tx = ts.
Proof.
  intros Hs. assert (a ≠ 0 ∧ Address_is_valid r = true) as [Ha Hr].
  { unfold sign_transfer in Hs. destruct (Z.eqb_spec a 0); [done|]. by destruct (Address_is_valid r). }
  destruct (sign_transfer_ok w r a f n ts Ha Hr) as (tx'&Heq&Hv&Hrest). rewrite Hs in Heq. injection Heq as <-.
  split; [by apply tx_basic_validate_ok|done].
Qed.

Lemma sign_transfer_wf w r a f n ts tx :
  sign_transfer w r a f n ts = Ok tx → in_u64 a → in_u64 f → in_u64 n → in_u64 ts → utf8_valid (str_bytes r) = true → wf_tx tx.
Proof.
  intros Hs Ha Hf Hn Hts Hr. destruct (sign_transfer_inv _ _ _ _ _ _ _ Hs) as ((_&_&_&_&_&_&Hh&_&_)&Hse&Hre&Hta&Htf&Htn&Htt).
  unfold wf_tx. rewrite Hse, Hre, Hh, Hta, Htf, Htn, Htt. split_and!; try done; apply utf8_valid_ascii, hash_bytes_ascii.
Qed.

Lemma signed_encodes w r a f n ts tx :
  sign_transfer w r a f n ts = Ok tx → in_u64 a → in_u64 f → in_u64 n → in_u64 ts → utf8_valid (str_bytes r) = true →
  encode_transaction tx = Some (tx_encoding tx) ∧ pending_as (tx_encoding tx) tx.
Proof.
  intros Hs Ha Hf Hn Hts Hr. pose proof (sign_transfer_wf _ _ _ _ _ _ _ Hs Ha Hf Hn Hts Hr) as Hwf.
  destruct (sign_transfer_inv _ _ _ _ _ _ _ Hs) as (Hv&_). destruct (valid_tx_small tx Hv Hwf) as [[Henc _] Hlen].
  split; [apply encode_transaction_Some; split; [apply Henc|done]|].
  split; [by apply decode_transaction_ok|]. unfold MAX_PENDING_TX_FRAME. lia.
Qed.
End signed.

(** ** The directory *)

Section directory.
Context `{CryptoLaws} `{GenesisDocLaws} `{TomlDoc BindFile}.

Lemma load_chain_keeps path p g : p ≠ path → keeps path (load_blockchain_from_disk p g).
Proof.
  intros Hne. unfold load_blockchain_from_disk, read_all_blocks_repairing_tail.
  assert (∀ data, keeps path (storage_io (fs_write p data))) as Hw by (intros data; by apply keeps_smap, keeps_fs_write).
  assert (keeps path (storage_io (fs_read p))) as Hr by apply keeps_smap, keeps_fs_read.
  apply keeps_bind; [|intros [bs rep]; apply keeps_bind; [by intros ?|intros c; apply keeps_bind; by intros ?]].
  apply keeps_bind; [auto with keeps|]. intros ex. case_match; [by intros ?|]. apply keeps_bind; [done|]. intros data.
  case_match; [by intros ?|]. destruct (file_format data) as [fmt off]. apply keeps_bind; [by intros ?|]. intros [bs k].
  apply keeps_bind; [|by intros ??]. repeat case_match; (done || by intros ?).
Qed.

(** Opening the directory works on the block file and the binding only. *)
Lemma open_data_dir_frame dir flag pid clock path :
  path ≠ chain_path dir → ¬ bind_touches dir pid clock path → keeps path (open_data_dir dir flag pid clock).
Proof.
  intros Hc Hb. unfold open_data_dir. apply keeps_bind; [apply keeps_smap, load_wallet_keeps|]. intros w.
  apply keeps_bind; [apply load_genesis_keeps|]. intros g. apply keeps_bind; [apply verify_binding_keeps|]. intros _.
  apply keeps_bind; [by apply keeps_smap, load_chain_keeps|]. intros [c rep].
  apply keeps_bind; [by apply ensure_binding_frame|]. by intros _ d.
Qed.

Lemma not_bind_touched dir pid clock name :
  name ≠ GENESIS_BIND_FILE → String.get 0 name ≠ Some "."%char → ¬ bind_touches dir pid clock (path_join dir name).
Proof. intros Hn1 Hn2 [Hx|[Hx|(nanos&_&Hx)]]; apply path_join_inj in Hx; [done| |]; subst; by apply Hn2. Qed.

Lemma open_data_dir_queue dir flag pid clock : keeps (queue_path dir) (open_data_dir dir flag pid clock).
Proof. apply open_data_dir_frame; [by apply join_ne|by apply not_bind_touched]. Qed.

Lemma load_chain_files path g d : cut_file (d_files d !! path) (d_files (load_blockchain_from_disk path g d).2 !! path).
Proof.
  pose proof (repairing_files path d) as Hr. unfold load_blockchain_from_disk, sbind at 1.
  destruct (read_all_blocks_repairing_tail path d) as [[[bs rep]| |] d1]; [|exact Hr..]. cbn [snd] in Hr. unfold sbind, slift.
  by destruct (chain_from_genesis g); [destruct (exec_on _ _)|..].
Qed.

Lemma open_data_dir_chain dir flag pid clock d :
  cut_file (d_files d !! chain_path dir) (d_files (open_data_dir dir flag pid clock d).2 !! chain_path dir).
Proof.
  unfold open_data_dir. unfold sbind at 1, smap_err at 1. pose proof (load_wallet_keeps (chain_path dir) dir d) as Hk1.
  destruct (load_wallet dir d) as [[w|e|] d1]; cbn [snd map_err] in *; rewrite <- Hk1; [|by left..].
  unfold sbind at 1. pose proof (load_genesis_keeps (chain_path dir) dir flag d1) as Hk2.
  destruct (load_genesis_for_cmd dir flag d1) as [[g|e|] d2]; cbn [snd] in *; rewrite <- Hk2; [|by left..].
  unfold sbind at 1. pose proof (verify_binding_keeps (chain_path dir) dir g d2) as Hk3.
  destruct (verify_binding_if_present dir g d2) as [[[]|e|] d3]; cbn [snd] in *; rewrite <- Hk3; [|by left..].
  unfold sbind at 1, smap_err at 1. pose proof (load_chain_files (chain_path dir) g d3) as Hl. fold (chain_path dir).
  destruct (load_blockchain_from_disk (chain_path dir) g d3) as [[[c rep]|e|] d4]; cbn [snd map_err] in *; [|exact Hl..].
  assert (d_files (sbind (ensure_binding_if_missing dir g pid clock) (λ _, sret (w, g, c)) d4).2 !! chain_path dir
          = d_files d4 !! chain_path dir) as ->; [|done].
  apply keeps_bind; [by apply ensure_binding_keeps|by intros ??].
Qed.

Lemma load_wallet_ok dir d w d' :
  load_wallet dir d = (Ok w, d') →
  ∃ seed, d_files d !! path_join dir WALLET_FILE = Some seed ∧ length seed = 32%nat ∧ w = from_seed seed.
Proof.
  unfold load_wallet. intros (raw&d1&Hr&Hx)%sbind_ok. apply smap_ok in Hr. unfold fs_read in Hr.
  apply sbind_ok in Hr as (u&d2&Hio&Hr). apply sbind_ok in Hr as (d3&d4&[= <- <-]&Hr). apply slift_ok in Hr as [Hr ->].
  destruct (io_call_files d) as [Hf _]. rewrite Hio in Hf. cbn [snd] in Hf. rewrite Hf in Hr.
  destruct (d_files d !! _) as [seed|]; [|done]. injection Hr as ->. exists raw.
  destruct (Z.eqb_spec (zlen raw) 32) as [Hl|]; [|done]. injection Hx as <- _. split_and!; [done| |done]. unfold zlen in Hl. lia.
Qed.

Lemma open_data_dir_wallet dir flag pid clock d w g c d' :
  open_data_dir dir flag pid clock d = (Ok (w, g, c), d') →
  ∃ seed, d_files d !! path_join dir WALLET_FILE = Some seed ∧ length seed = 32%nat ∧ w = from_seed seed.
Proof.
  unfold open_data_dir. intros (w0&d1&Hw%smap_ok&Hx)%sbind_ok. apply sbind_ok in Hx as (g0&d2&_&Hx).
  apply sbind_ok in Hx as (u&d3&_&Hx). apply sbind_ok in Hx as ([c0 rep]&d4&_&Hx).
  apply sbind_ok in Hx as (u2&d5&_&Hx). injection Hx as -> _ _ _. by eapply load_wallet_ok.
Qed.

End directory.
(** ** The command *)

Section send.
Context `{CryptoLaws} `{GenesisDocLaws} `{TomlTotal BindFile}.

Lemma append_pending_keeps path p tx : pending_queue_lock_path p ≠ path → p ≠ path → keeps path (append_pending_transaction p tx).
Proof. intros Hl Hp. unfold append_pending_transaction. solve_keeps. Qed.

(** Queueing a signed transfer. *)
Definition queued_after (dir : string) (tx : Transaction) (d : Disk) (res : Res IoError unit * Disk) : Prop :=
  let q := queue_path dir in
  res.1 ≠ Panic ∧ file_data d q `prefix_of` file_data res.2 q ∧ d_files res.2 !! chain_path dir = d_files d !! chain_path dir
  ∧ (res.1 = Ok tt → ∀ txs, parse_pending_file_bytes (file_data d q) = Ok txs →
       parse_pending_file_bytes (file_data res.2 q) = Ok (txs ++ [tx])).

Lemma queue_signed dir w r a f n ts tx d :
  sign_transfer w r a f n ts = Ok tx → in_u64 a → in_u64 f → in_u64 n → in_u64 ts → utf8_valid (str_bytes r) = true →
  queued_after dir tx d (append_pending_transaction (queue_path dir) tx d).
Proof.
  intros Hsign Ha Hf Hn Hts Hutf. destruct (signed_encodes _ _ _ _ _ _ _ Hsign Ha Hf Hn Hts Hutf) as [Henc Hpend].
  assert (pending_queue_lock_path (queue_path dir) ≠ queue_path dir) as Hlock by (by apply queue_lock_ne).
  assert (zlen (tx_encoding tx) ≤ u32_max) as Hle by (destruct Hpend as [_ Hl]; unfold MAX_PENDING_TX_FRAME, u32_max in *; lia).
  destruct (append_pending_spec (queue_path dir) tx _ d Hlock Henc Hle) as (k&res&d2&Happ&Hd2&Hr).
  pose proof (append_pending_keeps (chain_path dir) (queue_path dir) tx ltac:(by apply queue_lock_ne) ltac:(by apply join_ne) d) as Hk.
  rewrite Happ in Hk |- *. unfold queued_after. cbn [fst snd] in *. rewrite Hd2. split_and!.
  - by destruct Hr as [[-> _]|[err ->]].
  - by apply prefix_app_r.
  - done.
  - destruct Hr as [[-> ->]|[err ->]]; [|done]. intros _ txs Htxs. rewrite firstn_all. by apply queue_extends.
Qed.

(** What is true when the directory has been opened and the transfer signed. *)
Definition signed_from (dir receiver : string) (amount fee ts : Z) (d d' : Disk) (tx : Transaction) : Prop :=
  ∃ seed g c acc,
    d_files d !! path_join dir WALLET_FILE = Some seed ∧ wf_genesis g ∧ chain_inv g c
    ∧ holds_blocks (d_files d' !! chain_path dir) (drop 1 (bc_blocks c))
    ∧ get_account (bc_state c) (Wallet_address (from_seed seed)) = Some acc
    ∧ sign_transfer (from_seed seed) (Address_new receiver) amount fee (acc_nonce acc) ts = Ok tx
    ∧ tx_basic_validate tx = Ok tt.

(** The files that [send] works on besides the block file. *)
Definition send_touches (dir : string) (pid : Z) (clock : option Z) (path : string) : Prop :=
  path = queue_path dir ∨ path = pending_queue_lock_path (queue_path dir) ∨ bind_touches dir pid clock path.

Lemma append_pending_no_send dir pid clock tx path :
  ¬ send_touches dir pid clock path → keeps path (append_pending_transaction (queue_path dir) tx).
Proof. intros Hn. unfold send_touches in Hn. apply append_pending_keeps; naive_solver. Qed.

(** [send] on the files it does not own. *)
Lemma cmd_send_frame dir flag receiver amount fee ts pid clock path :
  path ≠ chain_path dir → ¬ send_touches dir pid clock path → keeps path (cmd_send dir flag receiver amount fee ts pid clock).
Proof.
  intros Hc Hn. assert (¬ bind_touches dir pid clock path) as Hb by (unfold send_touches in Hn; naive_solver).
  unfold cmd_send. apply keeps_bind; [auto with keeps|]. intros _.
  apply keeps_bind; [by apply open_data_dir_frame|]. intros [[w g] c]. apply keeps_bind; [by intros ?|]. intros acc.
  apply keeps_bind; [by intros ?|]. intros tx. by apply keeps_smap, (append_pending_no_send dir pid clock).
Qed.

(** A whole call of [send]. *)
Lemma cmd_send_ok dir flag receiver amount fee ts pid clock d :
  is_Some clock →
  in_u64 amount → in_u64 fee → in_u64 ts → utf8_valid (str_bytes (Address_new receiver)) = true →
  let '(r, d') := cmd_send dir flag receiver amount fee ts pid clock d in
  r ≠ Panic ∧ file_data d (queue_path dir) `prefix_of` file_data d' (queue_path dir)
  ∧ cut_file (d_files d !! chain_path dir) (d_files d' !! chain_path dir)
  ∧ (r = Ok tt → stats_work d → ∃ tx, signed_from dir receiver amount fee ts d d' tx
       ∧ (∃ repaired, cut_tail (d_files d !! chain_path dir) (d_files d' !! chain_path dir) repaired)
       ∧ ∀ txs, parse_pending_file_bytes (file_data d (queue_path dir)) = Ok txs →
           parse_pending_file_bytes (file_data d' (queue_path dir)) = Ok (txs ++ [tx])).
Proof.
  intros Hclock Ha Hf Hts Hutf. set (q := queue_path dir). unfold cmd_send. unfold sbind at 1, smap_err at 1. pose proof (steady_io d) as Hst0.
  destruct (io_call_files d) as [Hf0 Hr0]. destruct (io_call d) as [r0 d0]. cbn [fst snd] in *. rewrite <- Hf0.
  assert (file_data d0 q = file_data d q) as Hd0 by (unfold file_data; by rewrite Hf0). rewrite <- Hd0.
  destruct Hr0 as [->|[e ->]]; cbn [map_err]; [|by split_and!; [..|left|]].
  unfold sbind at 1. pose proof (open_data_dir_no_panic dir flag pid clock Hclock d0) as Hnp. pose proof (open_data_dir_queue dir flag pid clock d0) as Hq.
  pose proof (open_data_dir_chain dir flag pid clock d0) as Hcut.
  destruct (open_data_dir dir flag pid clock d0) as [[[[w g] c]|e|] d1] eqn:Hopen; cbn [fst snd] in *; [| |done].
  all: assert (file_data d1 q = file_data d0 q) as Hd1 by (unfold file_data, q; by rewrite Hq). 2: by rewrite Hd1.
  destruct (open_data_dir_wallet _ _ _ _ _ _ _ _ _ Hopen) as (seed&Hseed&Hlen&->).
  unfold sbind at 1, slift at 1. destruct (get_account _ _) as [acc|] eqn:Hacc; cbn [ok_or]; [|by rewrite Hd1].
  unfold sbind, slift. destruct (sign_transfer _ _ _ _ _ _) as [tx|err|] eqn:Hsign; cbn [map_err]; [|by rewrite Hd1|].
  2: { revert Hsign. unfold sign_transfer. by repeat case_match. }
  destruct (open_data_dir_sound _ _ _ _ _ _ _ _ _ Hopen) as [Hg Hc].
  assert (in_u64 (acc_nonce acc)) as Hn by (apply (wf_state_lookup _ _ _ (chain_inv_wf_state g c Hg Hc) Hacc)).
  destruct (queue_signed dir _ _ _ _ _ _ _ d1 Hsign Ha Hf Hn Hts Hutf) as (Hq1&Hq2&Hq3&Hq4). fold (queue_path dir). fold q in Hq1, Hq2, Hq3, Hq4 |- *.
  unfold smap_err. destruct (append_pending_transaction q tx d1) as [r d2]. cbn [fst snd] in *. rewrite Hd1 in *. rewrite Hq3. split_and!.
  - by apply map_err_no_panic.
  - done.
  - done.
  - destruct r as [[]|err|]; [|done..]. intros _ Hstat. destruct (open_data_dir_ok _ _ _ _ _ _ _ _ _ (Hst0 Hstat) Hopen) as (_&_&Hh&Hrep).
    exists tx. split_and!; [|done|by apply Hq4].
    exists seed, g, c, acc. rewrite Hq3, <- Hf0. split_and!; try done. apply tx_basic_validate_ok. by eapply sign_transfer_inv.
Qed.

(** C19: with a clock after 1970, [node send] never panics, and whatever file
    calls fail it changes no file but these: the queue file, which it only
    appends to, the queue's lock file, the files of the directory's binding,
    and the block file, which it leaves as it is or, when it ends in a torn
    frame, cuts. When it reports success and no existence check failed, the
    block file lost at most three torn bytes, the transfer it queued is a valid
    transaction signed by the wallet of the directory, its nonce is the
    account's nonce on the valid chain that the block file holds, and a queue
    that was readable is afterwards the same queue followed by exactly this
    transaction. *)
Theorem send_queues dir flag receiver amount fee ts pid clock d :
  is_Some clock →
  in_u64 amount → in_u64 fee → in_u64 ts → utf8_valid (str_bytes (Address_new receiver)) = true →
  let '(r, d') := cmd_send dir flag receiver amount fee ts pid clock d in
  r ≠ Panic
  ∧ (∀ p, p ≠ chain_path dir → ¬ send_touches dir pid clock p → d_files d' !! p = d_files d !! p)
  ∧ file_data d (queue_path dir) `prefix_of` file_data d' (queue_path dir)
  ∧ cut_file (d_files d !! chain_path dir) (d_files d' !! chain_path dir)
  ∧ (r = Ok tt → stats_work d → ∃ tx, signed_from dir receiver amount fee ts d d' tx
       ∧ (∃ repaired, cut_tail (d_files d !! chain_path dir) (d_files d' !! chain_path dir) repaired)
       ∧ ∀ txs, parse_pending_file_bytes (file_data d (queue_path dir)) = Ok txs →
           parse_pending_file_bytes (file_data d' (queue_path dir)) = Ok (txs ++ [tx])).
Proof.
  intros Hclock Ha Hf Hts Hutf. pose proof (cmd_send_ok dir flag receiver amount fee ts pid clock d Hclock Ha Hf Hts Hutf) as Hs.
  pose proof (λ p, cmd_send_frame dir flag receiver amount fee ts pid clock p) as Hk.
  destruct (cmd_send dir flag receiver amount fee ts pid clock d) as [r d'] eqn:Heq. destruct Hs as (Hs1&Hs2&Hs3&Hs4).
  split_and!; [done| |done..]. intros p Hp1 Hp2. specialize (Hk p Hp1 Hp2 d). by rewrite Heq in Hk.
Qed.
End send.
