(* ===== verification/InitSpec.v ===== *)
(** * What [init] writes ([main.rs], [genesis.rs])

    A directory made by [node init] can be opened by [node send] and [node
    run]: the wallet and the genesis document read back, and nothing that
    already exists is overwritten. *)

From Stdlib Require Import ZArith Lia Ascii.
From stdpp Require Import base strings list gmap.
From S2P Require Import Prelude Bytes Io Crypto Transaction Wallet Block Encoding Genesis Ledger Mempool MempoolQueue Blockchain Storage StorageSpec Restart PendingTx Toml Seen PeerBook DataDirBind Wire Node Session Args Commands Run StartSpec.

(** ** Text *)

Lemma comment_text_app a b : comment_text a = true → comment_text b = true → comment_text (a +:+ b) = true.
Proof.
  unfold comment_text. rewrite str_bytes_app, forallb_app. intros [-> Ha]%andb_prop [-> Hb]%andb_prop. cbn [andb].
  by apply utf8_valid_app.
Qed.

Section text.
Context `{CryptoLaws} `{TomlLaws Genesis}.

Lemma hex_comment_text s : Forall is_hex_byte (str_bytes s) → comment_text s = true.
Proof.
  intros Hs. unfold comment_text. rewrite utf8_valid_ascii by (eapply Forall_impl; [exact Hs|]; intros b [?|?]; lia).
  rewrite andb_true_r. apply forallb_forall. intros b Hb%list_elem_of_In. rewrite Forall_forall in Hs. specialize (Hs b Hb).
  unfold comment_byte. destruct Hs as [?|?]; apply orb_true_iff; right; apply andb_true_iff;
    (split; [apply Z.leb_le; lia|apply negb_true_iff, Z.eqb_neq; lia]).
Qed.

Lemma commitment_hex_bytes g hex : state_commitment_hex g = Ok hex → Forall is_hex_byte (str_bytes hex).
Proof.
  unfold state_commitment_hex, rbind. destruct (state_commitment_raw32 g); [|done..]. intros [= <-]. apply hex_encode_hex.
Qed.

Lemma genesis_header_decorated hex body : comment_text hex = true → decorated body (genesis_header hex +:+ body).
Proof.
  intros Hh. unfold genesis_header. rewrite !str_app_assoc.
  change ("# Trilogicon V1 genesis — allocations at height 0 (before first non-genesis block)." +:+ nl +:+ ?x)
    with ("#" +:+ " Trilogicon V1 genesis — allocations at height 0 (before first non-genesis block)." +:+ nl +:+ x).
  apply decorated_comment; [vm_compute; reflexivity|].
  replace ("# State commitment (compare across nodes): " +:+ hex +:+ nl +:+ nl +:+ body)
    with ("#" +:+ (" State commitment (compare across nodes): " +:+ hex) +:+ nl +:+ (nl +:+ body)) by (by rewrite str_app_assoc).
  apply decorated_comment; [|apply decorated_blank, decorated_body]. apply comment_text_app; [vm_compute; reflexivity|done].
Qed.
End text.

(** ** Files *)

Definition wallet_path (dir : string) : string := path_join dir WALLET_FILE.
Definition genesis_path (dir : string) : string := path_join dir GENESIS_FILE.

Lemma fs_read_file path data d : d_faults d = [] → d_files d !! path = Some data → fs_read path d = (Ok data, d).
Proof. intros Hf Hd. unfold fs_read, sbind, sget, slift. by rewrite (io_ok d Hf), Hd. Qed.

Section init.
Context `{CryptoLaws} `{TomlLaws Genesis} `{!TomlTotal Genesis}.

Lemma load_wallet_written dir seed d :
  length seed = 32%nat → d_faults d = [] → d_files d !! wallet_path dir = Some seed → load_wallet dir d = (Ok (from_seed seed), d).
Proof.
  intros Hl Hf Hd. unfold load_wallet, sbind, smap_err. rewrite (fs_read_file (path_join dir WALLET_FILE) seed d Hf Hd). cbn [map_err].
  unfold zlen. by rewrite Hl.
Qed.

Lemma genesis_written g path d d' :
  write_to_path g path d = (Ok tt, d') →
  ∃ hex body, d_files d' !! path = Some (str_bytes (genesis_header hex +:+ body)) ∧ state_commitment_hex g = Ok hex
    ∧ toml_to_string g = Ok body ∧ validate_decl g = Ok tt.
Proof.
  unfold write_to_path. intros (u&d1&[Hv ->]%slift_ok&Hx)%sbind_ok. apply sbind_ok in Hx as (body&d2&[Hb ->]%slift_ok&Hx).
  apply sbind_ok in Hx as (hex&d3&[Hh ->]%slift_ok&Hx). apply smap_ok, fs_write_ok in Hx. exists hex, body. rewrite Hx, lookup_insert_eq.
  destruct u, (validate_decl g) as [[]| |]; [|done..]. destruct (state_commitment_hex g) as [h| |]; [|done..]. by injection Hh as ->.
Qed.

Lemma load_genesis_written dir g d0 d :
  write_to_path g (genesis_path dir) d0 = (Ok tt, d) → d_faults d = [] → load_genesis_for_cmd dir None d = (Ok g, d).
Proof.
  intros Hw Hf. destruct (genesis_written _ _ _ _ Hw) as (hex&body&Hd&Hh&Hb&Hv).
  pose proof (commitment_hex_bytes _ _ Hh) as Hhex. unfold load_genesis_for_cmd, resolve_genesis_path. cbn [default].
  fold (genesis_path dir). unfold sbind at 1. rewrite path_exists_ok, bool_decide_true by (done || by rewrite Hd). cbn [negb].
  unfold smap_err, genesis_from_path, sbind, smap_err, fs_read_to_string, sbind at 1. rewrite (fs_read_file _ _ _ Hf Hd).
  unfold slift. rewrite from_utf8_str.
  - cbn [ok_or map_err]. unfold from_toml_str.
    rewrite (toml_print_parse _ _ _ Hb (genesis_header_decorated hex body (hex_comment_text _ Hhex))). cbn [map_err rbind]. by rewrite Hv.
  - rewrite str_bytes_app. apply utf8_valid_app; [|by eapply toml_utf8]. unfold genesis_header. rewrite !str_bytes_app.
    repeat (apply utf8_valid_app; [(vm_compute; reflexivity) || by apply utf8_valid_ascii; eapply Forall_impl; [exact Hhex|]; intros b [?|?]; lia|]).
    vm_compute. reflexivity.
Qed.

Lemma write_to_path_keeps path g p : p ≠ path → keeps path (write_to_path g p).
Proof. intros Hp. unfold write_to_path. solve_keeps. Qed.

Lemma write_to_path_no_panic g p : panic_free (write_to_path g p).
Proof.
  unfold write_to_path. pose proof (validate_decl_no_panic g). pose proof (commitment_no_panic g).
  apply panic_free_bind; [auto with no_panic|]. intros _. apply panic_free_bind; [auto with no_panic|]. intros body.
  apply panic_free_bind; [auto with no_panic|]. intros hex. auto with no_panic.
Qed.

(** A whole call of [init]. *)
Lemma cmd_init_ok dir bal rng d :
  stats_work d → length rng = 32%nat →
  let '(r, d') := cmd_init dir bal rng d in
  r ≠ Panic
  ∧ (∀ c, d_files d !! wallet_path dir = Some c → r ≠ Ok tt ∧ d_files d' !! wallet_path dir = Some c)
  ∧ (∀ c, d_files d !! genesis_path dir = Some c → d_files d' !! genesis_path dir = Some c)
  ∧ (r = Ok tt → d_faults d' = [] →
       load_wallet dir d' = (Ok (generate_with_rng rng), d')
       ∧ ∀ b, bal = Some b →
           load_genesis_for_cmd dir None d'
           = (Ok (mkGenesis [mkGenesisAllocation (Wallet_address (generate_with_rng rng)) b]), d')).
Proof.
  intros Hst Hlen. set (w := generate_with_rng rng). pose proof (steady_io d Hst) as Hst0.
  assert (wallet_path dir ≠ genesis_path dir) as Hne by (by apply join_ne).
  unfold cmd_init. fold (wallet_path dir) (genesis_path dir). unfold sbind at 1, smap_err at 1.
  destruct (io_call_files d) as [Hf Hr]. destruct (io_call d) as [r0 d0]. cbn [fst snd] in *.
  destruct Hr as [->|[e ->]]; cbn [map_err]; rewrite <- Hf; [|done]. clear Hf Hst d. unfold sbind at 1.
  destruct (path_exists_works (E:=string) (wallet_path dir) d0 Hst0) as (d0'&->&Hf&Hst). rewrite <- Hf. clear Hf Hst0 d0. rename d0' into d0.
  case_bool_decide as Hex; [done|]. apply eq_None_not_Some in Hex. fold w. pose proof (steady_fs_write (wallet_path dir) (seed_bytes w) d0 Hst) as Hst1.
  unfold sbind at 1, smap_err at 1. pose proof (keeps_fs_write (genesis_path dir) (wallet_path dir) (seed_bytes w) Hne d0) as Hk.
  pose proof (panic_free_fs_write (wallet_path dir) (seed_bytes w) d0) as Hp. rewrite Hex, <- Hk.
  destruct (fs_write _ _ d0) as [[[]|e|] d1] eqn:Hw; cbn [map_err fst snd] in *; [|done..]. apply fs_write_ok in Hw.
  assert (d_files d1 !! wallet_path dir = Some (seed_bytes w)) as Hw' by (rewrite Hw; apply lookup_insert_eq). clear Hw. rename Hw' into Hw.
  assert (seed_bytes w = rng) as Hseed by (by apply sk_bytes_roundtrip). rewrite Hseed in Hw.
  destruct bal as [b|]; cycle 1.
  { split_and!; [done..|]. intros _ Hfl. split; [|done]. by apply load_wallet_written. }
  unfold sbind at 1. destruct (path_exists_works (E:=string) (genesis_path dir) d1 Hst1) as (d1'&->&Hf1&_).
  rewrite <- Hf1 in *. clear Hf1 Hst1 Hp d1. rename d1' into d1. case_bool_decide as Hex2; [done|]. unfold sbind at 1.
  set (g := mkGenesis _). pose proof (write_to_path_keeps (wallet_path dir) g (genesis_path dir) ltac:(done) d1) as Hk2.
  pose proof (write_to_path_no_panic g (genesis_path dir) d1) as Hp2. apply eq_None_not_Some in Hex2. rewrite Hex2.
  destruct (write_to_path g (genesis_path dir) d1) as [[[]|e|] d2] eqn:Hg; cbn [fst snd] in *; [|done..].
  destruct (genesis_written _ _ _ _ Hg) as (hex&body&_&Hh&_). unfold sbind, slift. rewrite Hh. cbn [map_err sret].
  split_and!; [done..|]. intros _ Hfl. split.
  - apply load_wallet_written; [done..|]. by rewrite Hk2.
  - intros b' [= <-]. by eapply load_genesis_written.
Qed.

(** C24: a directory made by [node init] can be used, and [init] destroys
    nothing, whatever file calls fail as long as no existence check does (a
    failed one lets it overwrite the wallet). It never panics; an existing
    wallet makes it fail and stays as it is, an existing genesis document stays
    as it is; and when it reports success and file calls work from then on, the
    wallet file reads back as the generated wallet, and with a genesis balance
    the genesis document reads back as the genesis that gives this balance to
    the wallet's address. *)
Theorem init_readable dir bal rng d :
  stats_work d → length rng = 32%nat →
  let '(r, d') := cmd_init dir bal rng d in
  r ≠ Panic
  ∧ (∀ c, d_files d !! wallet_path dir = Some c → r ≠ Ok tt ∧ d_files d' !! wallet_path dir = Some c)
  ∧ (∀ c, d_files d !! genesis_path dir = Some c → d_files d' !! genesis_path dir = Some c)
  ∧ (r = Ok tt → d_faults d' = [] →
       load_wallet dir d' = (Ok (generate_with_rng rng), d')
       ∧ ∀ b, bal = Some b →
           load_genesis_for_cmd dir None d'
           = (Ok (mkGenesis [mkGenesisAllocation (Wallet_address (generate_with_rng rng)) b]), d')).
Proof. apply cmd_init_ok. Qed.
End init.
