(* ===== verification/Main.v ===== *)
(** * The program ([main.rs], [main])

    From the command line to the exit status. The operating system hands over
    arguments as byte strings; the call that collects them panics when one is
    not valid UTF-8, before anything else happens. *)

From Stdlib Require Import ZArith Lia.
From stdpp Require Import base strings list gmap.
From S2P Require Import Prelude Bytes Io Crypto Transaction Wallet Block Encoding Genesis Ledger Mempool MempoolQueue Blockchain Storage StorageSpec Restart PendingTx Toml Seen PeerBook DataDirBind Wire Node Session Args Commands Run StartSpec RunSpec RunSafe SendSpec InitSpec.





Section main.
Context `{CryptoLib} `{TomlDoc Genesis} `{TomlDoc BindFile} `{TomlDoc PeerBookFile}.


End main.

(** ** The arguments that reach a command *)







Section main_props.
Context `{CryptoLaws} `{GenesisDocLaws} `{TomlTotal BindFile} `{TomlTotal PeerBookFile}.




End main_props.
