(* ===== verification/LiveSpec.v ===== *)
(** * Queued transfers get sealed ([main.rs], [pending_tx_file.rs])

    On a node without peers whose file calls work, one iteration moves the queue
    file into the pool and seals everything that is due: from the file of
    [node send] to a block in memory and on disk. *)

From Stdlib Require Import ZArith Lia Ascii.
From stdpp Require Import base strings list gmap.
From S2P Require Import Prelude Bytes Io Crypto Transaction Wallet Block Encoding Genesis Ledger Mempool MempoolQueue Blockchain Storage StorageSpec Restart PendingTx Toml Seen PeerBook DataDirBind Wire Node Session Args Commands Run StartSpec RunSpec RunSafe SendSpec.

(** ** Calls that work *)

Lemma next_ok d : d_faults d = [] → next_outcome d = (IoOk, d).
Proof. intros Hf. unfold next_outcome. by rewrite Hf. Qed.

Lemma write_append_works path data d :
  d_faults d = [] → write_all_append path data d = (Ok tt, set_file path (file_data d path ++ data) d).
Proof. intros Hf. unfold write_all_append. by rewrite next_ok. Qed.

Lemma fs_write_works path data d : d_faults d = [] → fs_write path data d = (Ok tt, set_file path data d).
Proof. intros Hf. unfold fs_write. by rewrite next_ok. Qed.

Lemma open_create_works path d :
  d_faults d = [] → ∃ d', open_create path d = (Ok tt, d') ∧ d_faults d' = [] ∧ ∀ p, p ≠ path → d_files d' !! p = d_files d !! p.
Proof.
  intros Hf. unfold open_create, sbind, sget. rewrite (io_ok d Hf). destruct (d_files d !! path); [by exists d|].
  exists (set_file path [] d). split_and!; [done|done|]. intros p Hp. cbn [set_file d_files]. by rewrite lookup_insert_ne.
Qed.

Lemma acquire_works path d :
  d_faults d = [] → ∃ d', acquire_exclusive path d = (Ok tt, d') ∧ d_faults d' = [] ∧ ∀ p, p ≠ path → d_files d' !! p = d_files d !! p.
Proof.
  intros Hf. destruct (open_create_works path d Hf) as (d'&Ho&Hf'&Hk). exists d'. split_and!; [|done..].
  unfold acquire_exclusive, sbind. by rewrite Ho, (io_ok d' Hf').
Qed.

Lemma write_pending_works path payload d :
  d_faults d = [] → ∃ d', write_pending_atomic path payload d = (Ok tt, d') ∧ d_faults d' = [] ∧ d_files d' !! path = Some payload.
Proof.
  intros Hf. set (tmp := with_extension path "tril.tmp"). set (d1 := set_file tmp payload d).
  assert (d_faults d1 = []) as Hf1 by done.
  exists (mkDisk (<[ path := payload ]> (delete tmp (d_files d1))) (d_faults d1)). split_and!; [|done|apply lookup_insert_eq].
  unfold write_pending_atomic, rename_replace_pending_file, fs_rename. unfold sbind at 1. rewrite (fs_write_works _ _ _ Hf). fold tmp d1.
  unfold sbind at 1. rewrite (io_ok d1 Hf1). unfold sbind at 1. rewrite (io_ok d1 Hf1). unfold sbind at 1 2. rewrite (io_ok d1 Hf1).
  unfold sbind, sget. assert (d_files d1 !! tmp = Some payload) as -> by apply lookup_insert_eq. cbn [sput].
  case_match; [done|]. unfold try_call at 1. rewrite io_ok by done. cbn [snd]. unfold try_call. by rewrite io_ok.
Qed.

Lemma append_payload_works p st d :
  bs_poisoned st = false → zlen p ≤ MAX_FRAME_BYTES → d_faults d = [] →
  ∃ st' d', append_payload p (st, d) = (Ok tt, (st', d')) ∧ d_faults d' = [].
Proof.
  intros Hpo Hle Hf. unfold append_payload. rewrite Hpo. assert (MAX_FRAME_BYTES ≤ u32_max) by (by vm_compute).
  destruct (Z.ltb_spec u32_max (zlen p)); [lia|]. destruct (Z.ltb_spec MAX_FRAME_BYTES (zlen p)); [lia|].
  assert (∃ st' d', append_frame (zlen p) p (st, d) = (Ok tt, (st', d')) ∧ d_faults d' = []) as (st'&d'&->&?); [|by exists st', d'].
  unfold append_frame, sbind, sget, sput, sret, on_disk. cbn [fst snd]. case_decide.
  - rewrite (write_append_works _ _ d Hf). rewrite io_ok by done. cbn [fst snd]. rewrite write_append_works by done.
    rewrite io_ok by done. by eexists _, _.
  - rewrite (write_append_works _ _ d Hf). rewrite io_ok by done. by eexists _, _.
Qed.

(** Appending to the block file changes no other file. *)
Lemma append_payload_keeps p st d path :
  bs_path st ≠ path → d_files (append_payload p (st, d)).2.2 !! path = d_files d !! path.
Proof.
  intros Hp. assert (∀ len s, bs_path s.1 = bs_path st →
    d_files (append_frame len p s).2.2 !! path = d_files s.2 !! path) as Hframe.
  { intros len [st0 d0] Hst. cbn [fst snd] in *. unfold append_frame, sbind, sget, sput, sret, on_disk. cbn [fst snd].
    assert (∀ data d, d_files (write_all_append (bs_path st0) data d).2 !! path = d_files d !! path) as Hw
      by (intros data d2; apply keeps_write_append; by rewrite Hst).
    assert (∀ d, d_files (io_call d).2 !! path = d_files d !! path) as Hio by (intros d2; apply keeps_io).
    repeat (case_match; simplify_eq/=); repeat match goal with
      | Hx : write_all_append _ ?data ?d = (_, ?d') |- _ => pose proof (Hw data d); rewrite Hx in *; clear Hx; cbn [snd] in *
      | Hx : io_call ?d = (_, ?d') |- _ => pose proof (Hio d); rewrite Hx in *; clear Hx; cbn [snd] in *
      end; congruence. }
  unfold append_payload. do 3 (case_match; [done|]). pose proof (Hframe (zlen p) (st, d) eq_refl) as Hk.
  by destruct (append_frame (zlen p) p (st, d)) as [[[]|e|] [st' d']].
Qed.

Lemma store_append_keeps b st d path :
  bs_path st ≠ path → d_files (store_append_block b (st, d)).2.2 !! path = d_files d !! path.
Proof.
  intros Hp. unfold store_append_block, sbind, slift. destruct (encode_block b) as [e|]; [|done]. by apply append_payload_keeps.
Qed.

(** ** The pool takes the whole queue *)

Section live.
Context `{CryptoLaws}.

Lemma existsb_fresh {A} `{EqDecision A} (f : Transaction → A) (test : Transaction → bool) t l :
  (∀ u, test u = true → f u = f t) → f t ∉ f <$> l → existsb test l = false.
Proof.
  intros Htest Hni. apply not_true_is_false. intros (u&Hu&Ht)%existsb_exists. apply Hni. rewrite <- (Htest u Ht).
  apply list_elem_of_fmap_2. by apply list_elem_of_In.
Qed.

Lemma drain_accepts t m :
  mp_inv m → valid_tx t → (tx_tx_hash t ∉ tx_tx_hash <$> clone_fifo m) → (tx_slot t ∉ tx_slot <$> clone_fifo m) →
  (length (clone_fifo m) < mp_capacity m)%nat →
  ∃ m', try_submit_pending_drain t m = (Ok tt, m') ∧ mp_inv m' ∧ clone_fifo m' = clone_fifo m ++ [t] ∧ mp_capacity m' = mp_capacity m.
Proof.
  intros Hi Hv Hh Hs Hroom. destruct (try_submit_pending_drain_implements t m Hi) as [Hr [Hi' Ha]].
  assert (q_admit q_keeping t (mp_abs m) = (Ok tt, mkQueue (mp_capacity m) (clone_fifo m ++ [t]))) as Hq.
  { unfold q_admit. assert (tx_basic_validate t = Ok tt) as -> by (by apply tx_basic_validate_ok). cbn [q_txs mp_abs q_capacity].
    assert (existsb (same_hash t) (clone_fifo m) = false) as ->.
    { apply (existsb_fresh tx_tx_hash _ t); [|done]. by intros u Hu%String.eqb_eq. }
    assert (existsb (same_slot t) (clone_fifo m) = false) as ->.
    { apply (existsb_fresh tx_slot _ t); [|done]. intros u [Hu1%String.eqb_eq Hu2%Z.eqb_eq]%andb_prop. unfold tx_slot. congruence. }
    unfold q_keeping. cbn [q_txs mp_abs q_capacity]. destruct (Nat.ltb_spec (length (clone_fifo m)) (mp_capacity m)); [done|lia]. }
  rewrite Hq in *. destruct (try_submit_pending_drain t m) as [r m']. cbn [fst snd] in *. subst r. injection Ha as Hc Hf. by exists m'.
Qed.

Lemma drain_all txs i m :
  mp_inv m → Forall valid_tx txs → NoDup (tx_tx_hash <$> clone_fifo m ++ txs) → NoDup (tx_slot <$> clone_fifo m ++ txs) →
  (length (clone_fifo m ++ txs) ≤ mp_capacity m)%nat →
  ∃ m', drain_from txs i m = (Ok (i + length txs)%nat, m') ∧ mp_inv m' ∧ clone_fifo m' = clone_fifo m ++ txs.
Proof.
  intros Hi Hv. revert i m Hi. induction Hv as [|t txs Ht _ IH]; intros i m Hi Hh Hs Hlen; cbn [drain_from length].
  { exists m. rewrite Nat.add_0_r, app_nil_r. done. }
  assert (∀ l : list Transaction, l ++ t :: txs = (l ++ [t]) ++ txs) as Happ by (intros l; by rewrite <- (assoc_L (++))).
  destruct (drain_accepts t m Hi Ht) as (m1&->&Hi1&Hf1&Hc1).
  - rewrite fmap_app in Hh. apply NoDup_app in Hh as (_&Hd&_). intros Hin. apply (Hd _ Hin). by left.
  - rewrite fmap_app in Hs. apply NoDup_app in Hs as (_&Hd&_). intros Hin. apply (Hd _ Hin). by left.
  - rewrite length_app in Hlen. cbn [length] in Hlen. lia.
  - rewrite Happ, <- Hf1 in *. rewrite <- Hc1 in Hlen. destruct (IH (S i) m1 Hi1 Hh Hs Hlen) as (m'&->&Hi'&Hf').
    exists m'. rewrite Nat.add_succ_r. done.
Qed.

(** ** Everything due is selected *)

Lemma applied_valid txs s s' :
  wf_state s → Forall wf_tx txs → apply_transactions txs s = (Ok tt, s') → Forall valid_tx txs.
Proof.
  intros Hs Hw. revert s Hs. induction Hw as [|t txs Ht Hw IH]; intros s Hs Ha; [constructor|].
  destruct (apply_transactions_cons _ _ _ _ Hs Ht Ha) as [Hc Ha']. constructor; [apply Hc|]. by eapply IH; [apply wf_apply_effect|].
Qed.

Lemma SealRun_all txs s s' n :
  wf_state s → Forall wf_tx txs → apply_transactions txs s = (Ok tt, s') → (length txs ≤ n)%nat → SealRun s n txs txs s' false.
Proof.
  intros Hs Hw. revert s n Hs. induction Hw as [|t txs Ht Hw IH]; intros s n Hs Ha Hn.
  { injection Ha as <-. constructor. }
  destruct (apply_transactions_cons _ _ _ _ Hs Ht Ha) as [Hc Ha']. destruct n as [|n]; [simpl in Hn; lia|].
  constructor; [done|]. apply IH; [by apply wf_apply_effect|done|simpl in Hn; lia].
Qed.

Lemma candidates_all m s s' :
  pool_ok m → wf_state s → apply_transactions (clone_fifo m) s = (Ok tt, s') → (length (clone_fifo m) ≤ 64)%nat →
  ordered_candidates_for_seal m s 64 = Ok (clone_fifo m).
Proof.
  intros Hm Hs Ha Hn. destruct (seal_walk_run (mp_txs m) 64 (mp_order m) s [] Hs (proj2 (pool_ok_wf m Hm))) as (out&s2&b&Hr&Hb); [simpl; lia|].
  pose proof (SealRun_all (clone_fifo m) s s' 64 Hs (proj2 Hm) Ha Hn) as Hall. fold (clone_fifo m) in Hr.
  destruct (SealRun_det _ _ _ _ _ _ _ _ _ Hr Hall) as (->&_&->). exact Hb.
Qed.

(** Hygiene keeps a pool whose transactions apply one after the other. *)
Lemma hygiene_keeps_due m s s' :
  pool_ok m → wf_state s → apply_transactions (clone_fifo m) s = (Ok tt, s') →
  clone_fifo (hygiene_vs_committed_ledger s m).2 = clone_fifo m.
Proof.
  intros Hm Hs Ha. destruct (hygiene_implements s m (proj1 Hm)) as [_ [_ Habs]]. injection Habs as _ Hf. rewrite Hf. cbn [q_txs mp_abs].
  destruct (apply_transactions_run _ _ _ Hs (proj2 Hm) Ha) as (_&_&_&_&Hn). pose proof (proj2 Hm) as Hw.
  assert (drop_while (λ t, head_drops t s) (clone_fifo m) = clone_fifo m) as ->.
  { destruct (clone_fifo m) as [|t txs]; [done|]. apply Forall_cons in Hw as [Hw _]. cbn [drop_while].
    destruct (apply_transactions_cons _ _ _ _ Hs Hw Ha) as [(Hv&[acc Hacc]&Hno&Hbal&_) _].
    assert (head_drops t s = false) as ->; [|done]. unfold head_drops, get_account.
    assert (tx_basic_validate t = Ok tt) as -> by (by apply tx_basic_validate_ok). unfold nonce_of, balance_of in *. rewrite Hacc in *.
    pose proof (wf_state_lookup _ _ _ Hs Hacc) as Hwa. destruct (Z.ltb_spec (tx_nonce t) (acc_nonce acc)); [lia|].
    destruct (Z.ltb_spec (acc_nonce acc) (tx_nonce t)); [lia|]. destruct (checked_add _ _) as [k|] eqn:Hk.
    - apply checked_add_Some in Hk as [_ ->]. destruct (Z.ltb_spec (acc_balance acc) (tx_amount t + tx_fee t)); [lia|done].
    - apply checked_add_None in Hk. destruct Hwa as (_&Hb&_). unfold in_u64 in Hb. lia. }
  apply filter_all. intros t Ht. specialize (Hn t Ht). unfold is_stale, get_account, nonce_of in *.
  destruct (accounts s !! tx_sender t); [|done]. destruct (Z.ltb_spec (tx_nonce t) (acc_nonce a)); [lia|done].
Qed.
Lemma pending_wf ps txs : Forall2 pending_as ps txs → Forall wf_tx txs.
Proof. induction 1 as [|p t ps txs [Hd _] _ IH]; constructor; [|done]. by apply decode_transaction_ok in Hd as [[? _] _]. Qed.

(** Sealing only writes the block file. *)
Lemma seal_keeps_file now allowed n d path :
  bs_path (ni_store n) ≠ path → d_files (seal_block now allowed (n, d)).2.2 !! path = d_files d !! path.
Proof.
  intros Hp. unfold seal_block. destruct allowed; [|done]. cbn [negb].
  destruct (append_block_from_mempool_pending_removal _ _ _ _) as [[[hashes|]|e|] c]; [|done..].
  destruct (last (bc_blocks c)) as [tip|]; [|done]. pose proof (store_append_keeps tip (ni_store n) d path Hp) as Hk.
  destruct (store_append_block tip (ni_store n, d)) as [[[]|e|] [st d']]; cbn [snd] in Hk; [done| |done].
  by destruct (rollback_last_block (ni_genesis n) c) as [[[]| |] c'].
Qed.

(** ** One iteration *)

(** Draining a readable queue when calls work. *)
Lemma drain_works dir pool d data txs :
  mp_inv pool → d_faults d = [] → d_files d !! queue_path dir = Some data → parse_pending_file_bytes data = Ok txs →
  Forall valid_tx txs → NoDup (tx_tx_hash <$> clone_fifo pool ++ txs) → NoDup (tx_slot <$> clone_fifo pool ++ txs) →
  (length (clone_fifo pool ++ txs) ≤ mp_capacity pool)%nat →
  ∃ pool' d', drain_pending_file (queue_path dir) (pool, d) = (Ok tt, (pool', d'))
    ∧ clone_fifo pool' = clone_fifo pool ++ txs ∧ d_faults d' = [] ∧ d_files d' !! queue_path dir = Some [].
Proof.
  intros Hi Hf Hd Hparse Hv Hh Hs Hlen. pose proof Hparse as (ps&Hdata&Hps)%parse_pending_ok. set (q := queue_path dir) in *.
  unfold drain_pending_file. unfold sbind at 1. destruct (acquire_works (pending_queue_lock_path q) d Hf) as (d1&->&Hf1&Hk1).
  cbn [map_err]. unfold sbind at 1, sget. cbn [fst snd]. rewrite <- Hk1 in Hd by (intros Heq; symmetry in Heq; revert Heq; by apply queue_lock_ne).
  unfold sbind at 1, drain_io at 1. rewrite path_exists_ok, Hd, bool_decide_true by done. cbn [map_err negb]. unfold sbind at 1, drain_io.
  assert (fs_read q d1 = (Ok data, d1)) as -> by (unfold fs_read, sbind, sget, slift; by rewrite (io_ok d1 Hf1), Hd).
  cbn [map_err]. unfold sbind at 1, slift at 1. rewrite Hparse. destruct (Nat.eqb_spec (length txs) 0) as [->%nil_length_inv|Hnz].
  { unfold write_or_restore. destruct (write_pending_works q [] d1 Hf1) as (d2&->&Hf2&Hq2). exists pool, d2. by rewrite app_nil_r. }
  unfold sbind at 1. destruct (drain_all txs 0 pool Hi Hv Hh Hs Hlen) as (m'&->&_&Hfifo). cbn [Nat.add].
  unfold sbind, slift, encode_pending_payload. rewrite (encode_pending_from_ok (drop (length txs) ps) _ []) by (by apply Forall2_drop).
  cbn [app]. assert (drop (length txs) ps = []) as -> by (apply drop_ge; by rewrite (Forall2_length _ _ _ Hps)).
  unfold write_or_restore. destruct (write_pending_works q (pending_frames []) d1 Hf1) as (d2&->&Hf2&Hq2). by exists m', d2.
Qed.

(** Sealing a pool that applies, when calls work. *)
Lemma seal_works now n d tip s' :
  node_inv n d → bs_poisoned (ni_store n) = false → d_faults d = [] → in_u64 now →
  clone_fifo (ni_pool n) ≠ [] → (length (clone_fifo (ni_pool n)) ≤ 64)%nat →
  apply_transactions (clone_fifo (ni_pool n)) (bc_state (ni_chain n)) = (Ok tt, s') →
  last (bc_blocks (ni_chain n)) = Some tip → blk_height tip + 1 ≤ u64_max →
  blk_timestamp_unix tip + min_block_interval_secs (bc_consensus (ni_chain n)) ≤ now →
  let b := sealed_block tip (clone_fifo (ni_pool n)) now in
  ∃ n' d', seal_block now true (n, d) = (Ok (Some b), (n', d'))
    ∧ bc_blocks (ni_chain n') = bc_blocks (ni_chain n) ++ [b] ∧ bc_state (ni_chain n') = s'
    ∧ clone_fifo (ni_pool n') = [].
Proof.
  intros Hi Hpo Hf Hnow Hne Hlen Ha Hl Hroom Htime b. pose proof Hi as [Hg Hc Hp _].
  pose proof (chain_inv_wf_state _ _ Hg Hc) as Hs. pose proof (candidates_all _ _ _ Hp Hs Ha Hlen) as Hcand.
  destruct (seal_append _ _ _ 64 now _ _ Hg Hc (pool_ok_wf _ Hp) Hnow Hl Hroom Htime Hcand Hne) as (Hwb&s2&Ha2&Hseal).
  rewrite Ha in Ha2. injection Ha2 as <-. fold b in Hseal, Hwb.
  assert (∃ e, encode_block b = Some e ∧ zlen e ≤ sealed_max) as (e&He&Hle).
  { apply small_block_fits; [done|by eapply applied_valid; [| |exact Ha]; [|apply Hp]|done|by apply (chain_tip_len _ _ _ Hc)|apply hash_len]. }
  pose proof sealed_max_fits. destruct (append_payload_works e (ni_store n) d Hpo) as (st&d'&Happ&_); [lia|done|].
  pose proof (seal_block_spec now true n d Hi Hnow) as Hspec. revert Hspec. unfold seal_block. cbn [negb].
  rewrite Hseal. cbn [bc_blocks]. rewrite last_snoc. unfold store_append_block, sbind, slift. rewrite He. cbn [expect]. rewrite Happ.
  intros (_&_&_&_&_&_&_&Hpool&_). eexists _, _. split_and!; [done..|]. rewrite Hpool. apply filter_none.
  intros t Ht Hni. apply Hni. by apply list_elem_of_fmap_2.
Qed.

Context `{TomlDoc PeerBookFile}.

(** C8: queued transfers get sealed. On a healthy node without peers whose file
    calls work, let the pool followed by the readable queue file be at most 64
    transactions with distinct ids that fit into the pool and apply to the
    committed state one after the other. Then one iteration seals exactly
    these transactions, in this order, into a block on top of the tip; the
    ledger becomes the state they lead to; queue file and pool are empty; and
    memory and file still agree. *)
Theorem queued_gets_sealed cfg env n d data txs s' tip :
  node_inv n d → bs_path (ni_store n) = chain_path (rc_data_dir cfg) → bs_poisoned (ni_store n) = false →
  d_faults d = [] → rc_peers cfg = [] → in_u64 (te_now env) →
  d_files d !! queue_path (rc_data_dir cfg) = Some data → parse_pending_file_bytes data = Ok txs →
  let all := clone_fifo (ni_pool n) ++ txs in
  all ≠ [] → (length all ≤ 64)%nat → (length all ≤ mp_capacity (ni_pool n))%nat → NoDup (tx_tx_hash <$> all) →
  apply_transactions all (bc_state (ni_chain n)) = (Ok tt, s') →
  last (bc_blocks (ni_chain n)) = Some tip → blk_height tip + 1 ≤ u64_max →
  blk_timestamp_unix tip + min_block_interval_secs (bc_consensus (ni_chain n)) ≤ te_now env →
  ∃ n' d', tick_locked cfg env true (n, d) = Some (Ok (Some (sealed_block tip all (te_now env))), true, (n', d'))
    ∧ bc_blocks (ni_chain n') = bc_blocks (ni_chain n) ++ [sealed_block tip all (te_now env)]
    ∧ bc_state (ni_chain n') = s' ∧ clone_fifo (ni_pool n') = []
    ∧ d_files d' !! queue_path (rc_data_dir cfg) = Some [] ∧ node_inv n' d'.
Proof.
  intros Hi Hpath Hpo Hf Hpeers Hnow Hd Hparse all Hne H64 Hcap Hh Ha Hl Hroom Htime. pose proof Hi as [Hg Hc Hp _].
  pose proof (chain_inv_wf_state _ _ Hg Hc) as Hs. set (dir := rc_data_dir cfg) in *.
  assert (Forall wf_tx all) as Hw.
  { apply Forall_app. split; [apply Hp|]. apply parse_pending_ok in Hparse as (ps&_&Hps). by eapply pending_wf. }
  pose proof (applied_valid _ _ _ Hs Hw Ha) as Hv. destruct (apply_transactions_run _ _ _ Hs Hw Ha) as (_&_&_&Hslots&_).
  destruct (drain_works dir (ni_pool n) d data txs (proj1 Hp) Hf Hd Hparse) as (pool1&d1&Hdrain&Hfifo1&Hf1&Hq1); [|done..|].
  { by apply Forall_app in Hv as [_ ?]. }
  destruct (drain_safe dir (ni_pool n) d Hp) as (_&Hp1&Hk1). fold (queue_path dir) in Hp1, Hk1. rewrite Hdrain in Hp1, Hk1. cbn [fst snd] in *.
  set (n1 := hygiene (set_pool n pool1)). assert (node_inv n1 d1) as Hi1.
  { apply hygiene_node_inv. apply (node_inv_files _ d); [by apply node_inv_pool|]. cbn. by rewrite Hpath. }
  assert (clone_fifo (ni_pool n1) = all) as Hfifo.
  { fold all in Hfifo1. rewrite <- Hfifo1. apply (hygiene_keeps_due pool1 _ s'); [done..|]. by rewrite Hfifo1. }
  destruct (seal_works (te_now env) n1 d1 tip s' Hi1 Hpo Hf1 Hnow) as (n2&d2&Hseal&Hb2&Hs2&Hf2); rewrite ?Hfifo in *; [done..|].
  pose proof (seal_block_spec (te_now env) true n1 d1 Hi1 Hnow) as Hspec. rewrite Hseal in Hspec. destruct Hspec as (Hi2&_).
  pose proof (seal_keeps_file (te_now env) true n1 d1 (queue_path dir)) as Hkeep. rewrite Hseal in Hkeep. cbn [snd] in Hkeep.
  exists n2, d2. split_and!; [|done..| |done].
  - unfold tick_locked. rewrite Hpo. fold dir. fold (queue_path dir). rewrite Hdrain. unfold tick_sealing, retry_sync. cbn [negb andb].
    change (hygiene (set_pool n pool1)) with n1. rewrite Hseal. unfold sync_known_peers. by rewrite Hpeers.
  - rewrite Hkeep; [done|]. cbn. rewrite Hpath. by apply join_ne.
Qed.
End live.
