(* ===== verification/Converge.v ===== *)
(** * Nodes converge

    A node that catches up from an honest, healthy peer whose chain extends its
    own ends with the peer's chain and ledger, and a block pushed to a peer on
    the same chain is appended there. Both ends run the code of [network.rs],
    over the conversations of [Dialogue]. *)

From Stdlib Require Import ZArith Lia.
From stdpp Require Import base strings list gmap.
From S2P Require Import Prelude Bytes Io Crypto Transaction Wallet Block Encoding Genesis Ledger Mempool MempoolQueue Blockchain Storage StorageSpec Seen PeerBook Wire Node Session Dialogue Args Commands Run RunSpec LiveSpec.

(** ** Replies that fit into a frame *)

(** The block has an encoding of at most [size] bytes. *)
Definition encodes_within (size : Z) (b : Block) : Prop := ∃ e, encode_block b = Some e ∧ zlen e ≤ size.

(** The largest reply for blocks of that size. *)
Definition batch_limit (size : Z) : Z := 5 + 64 * (4 + size).

Lemma encode_response_works size out blocks :
  Forall (encodes_within size) blocks → zlen out + zlen blocks * (4 + size) ≤ MAX_WIRE_FRAME_BYTES →
  ∃ res, encode_response_blocks out blocks = Ok res ∧ zlen res ≤ zlen out + zlen blocks * (4 + size).
Proof.
  intros Hb. revert out. induction Hb as [|b blocks (e&He&Hle) Hb IH]; intros out Hfit; cbn [encode_response_blocks].
  { exists out. split; [done|]. change (zlen (@nil Block)) with 0. lia. }
  assert (zlen (b :: blocks) = 1 + zlen blocks) as Hz by (unfold zlen; simpl length; lia). rewrite Hz in *.
  pose proof (zlen_nonneg blocks). pose proof (zlen_nonneg out). pose proof (zlen_nonneg e).
  rewrite He. cbn [expect rbind]. assert (MAX_WIRE_FRAME_BYTES ≤ u32_max) by (by vm_compute).
  destruct (Z.ltb_spec u32_max (zlen e)); [nia|].
  assert (zlen (out ++ to_be_bytes_u32 (zlen e) ++ e) = zlen out + 4 + zlen e) as Hout by (rewrite !zlen_app, zlen_be_u32; lia).
  rewrite Hout. destruct (Z.ltb_spec MAX_WIRE_FRAME_BYTES (zlen out + 4 + zlen e)); [nia|].
  destruct (IH (out ++ to_be_bytes_u32 (zlen e) ++ e)) as (res&Hr&Hlen); [rewrite Hout; nia|].
  exists res. split; [exact Hr|]. rewrite Hout in Hlen. nia.
Qed.

Lemma response_works size blocks :
  0 ≤ size → Forall (encodes_within size) blocks → batch_limit size ≤ MAX_WIRE_FRAME_BYTES → zlen blocks ≤ MAX_BLOCKS_PER_BATCH →
  ∃ resp, wire_encode_blocks_response blocks = Ok resp ∧ zlen resp ≤ batch_limit size.
Proof.
  intros Hsz Hb Hlim Hlen. unfold wire_encode_blocks_response, batch_limit, MAX_BLOCKS_PER_BATCH in *. pose proof (zlen_nonneg blocks).
  rewrite Z.min_l by done. rewrite take_ge by (unfold zlen; lia).
  assert (zlen ([byte_of_Z OP_BLOCKS] ++ to_be_bytes_u32 (zlen blocks)) = 5) as H5 by (rewrite zlen_app, zlen_be_u32; done).
  destruct (encode_response_works size ([byte_of_Z OP_BLOCKS] ++ to_be_bytes_u32 (zlen blocks)) blocks) as (res&Hr&Hres);
    [done|rewrite H5; nia|]. exists res. split; [done|]. rewrite H5 in Hres. nia.
Qed.

(** A reply that would exceed a frame is not shortened but refused. *)
Lemma encode_response_overflows out blocks encs :
  Forall2 (λ b e, encode_block b = Some e) blocks encs → zlen out ≤ MAX_WIRE_FRAME_BYTES →
  MAX_WIRE_FRAME_BYTES < zlen out + zlen (batch_bytes encs) → ∃ err, encode_response_blocks out blocks = Err err.
Proof.
  intros Hencs. revert out. induction Hencs as [|b e blocks encs He Hencs IH]; intros out Hout Hover; cbn [encode_response_blocks].
  { change (zlen (batch_bytes [])) with 0 in Hover. lia. }
  rewrite He. cbn [expect rbind]. case_match; [eauto|].
  change (batch_bytes (e :: encs)) with (wire_frame e ++ batch_bytes encs) in Hover. rewrite zlen_app, zlen_wire_frame in Hover.
  assert (zlen (out ++ to_be_bytes_u32 (zlen e) ++ e) = zlen out + 4 + zlen e) as Hz by (rewrite !zlen_app, zlen_be_u32; lia).
  destruct (Z.ltb_spec MAX_WIRE_FRAME_BYTES (zlen (out ++ to_be_bytes_u32 (zlen e) ++ e))); [eauto|]. apply IH; lia.
Qed.

Lemma response_overflows blocks encs :
  Forall2 (λ b e, encode_block b = Some e) blocks encs → zlen blocks ≤ MAX_BLOCKS_PER_BATCH →
  MAX_WIRE_FRAME_BYTES < 5 + zlen (batch_bytes encs) → ∃ err, wire_encode_blocks_response blocks = Err err.
Proof.
  intros Hencs Hlen Hover. unfold wire_encode_blocks_response. pose proof (zlen_nonneg blocks).
  rewrite Z.min_l by done. rewrite take_ge by (unfold zlen; lia). eapply encode_response_overflows; [exact Hencs|..];
    rewrite zlen_app, zlen_be_u32; [done|]. change (zlen [byte_of_Z OP_BLOCKS]) with 1. lia.
Qed.

Section converge.
Context `{CryptoLaws}.

(** ** One block *)

(** A healthy node whose file calls work. *)
Record healthy (n : NodeInner) (d : Disk) : Prop := {
  he_inv : node_inv n d;
  he_store : bs_poisoned (ni_store n) = false;
  he_calls : d_faults d = []
}.

Lemma append_persist_works n d b now tip s' size :
  healthy n d → wf_block b → encodes_within size b → size ≤ MAX_FRAME_BYTES →
  last (bc_blocks (ni_chain n)) = Some tip → extends (bc_consensus (ni_chain n)) tip b →
  apply_transactions (blk_transactions b) (bc_state (ni_chain n)) = (Ok tt, s') →
  blk_timestamp_unix b ≤ now + max_future_drift_secs (bc_consensus (ni_chain n)) →
  ∃ n' d', append_network_block_persist b now (n, d) = (Ok tt, (n', d')) ∧ healthy n' d'
    ∧ ni_chain n' = mkBlockchain (bc_blocks (ni_chain n) ++ [b]) s' (bc_consensus (ni_chain n))
    ∧ ni_pool n' = ni_pool n ∧ ni_genesis n' = ni_genesis n.
Proof.
  intros [Hi Hpo Hf] Hwf (e&He&Hle) Hsize Hl Hext Ha Ht.
  pose proof (append_persist_spec n d b e now Hi (decode_encode_block _ _ Hwf He)) as Hspec. revert Hspec.
  unfold append_network_block_persist. rewrite Hpo.
  assert (try_append_network_block b now (ni_chain n)
    = (Ok tt, mkBlockchain (bc_blocks (ni_chain n) ++ [b]) s' (bc_consensus (ni_chain n)))) as ->.
  { unfold try_append_network_block, sbind, sget, slift, validate_block_vs_local_time.
    assert (in_u64 (blk_timestamp_unix b)) as [_ Hu] by apply Hwf.
    destruct (Z.ltb_spec (saturating_add now (max_future_drift_secs (bc_consensus (ni_chain n)))) (blk_timestamp_unix b));
      [unfold saturating_add in *; lia|].
    destruct (append_block_cases b (ni_chain n)) as [(tip'&s2&_&_&Ha2&->)|(_&_&Hno)]; [|destruct Hno; by exists tip, s'].
    rewrite Ha in Ha2. by injection Ha2 as ->. }
  cbn [bc_blocks]. rewrite last_snoc. unfold store_append_block, sbind, slift. rewrite He. cbn [expect].
  destruct (append_payload_works e (ni_store n) d Hpo) as (st&d'&->&Hf'); [lia|done|].
  intros (Hi'&Hpool&_&Hpo'). eexists _, d'. split_and!; [done|by split|done..].
Qed.

(** ** A batch *)

(** The node is on the way to the chain [c]. *)
Record follows (c : Blockchain) (n : NodeInner) (d : Disk) : Prop := {
  fo_healthy : healthy n d;
  fo_consensus : bc_consensus (ni_chain n) = bc_consensus c;
  fo_prefix : bc_blocks (ni_chain n) `prefix_of` bc_blocks c
}.

(** What the peer's chain has to satisfy for the follower to accept it. *)
Record acceptable (c : Blockchain) (clock : nat → Z) (size : Z) : Prop := {
  ac_size : Forall (encodes_within size) (bc_blocks c);
  ac_time i b : b ∈ bc_blocks c → blk_timestamp_unix b ≤ clock i + max_future_drift_secs (bc_consensus c)
}.

Lemma follow_step c n d b rest now size :
  chain_inv (ni_genesis n) c → follows c n d → bc_blocks c = bc_blocks (ni_chain n) ++ b :: rest →
  encodes_within size b → size ≤ MAX_FRAME_BYTES → blk_timestamp_unix b ≤ now + max_future_drift_secs (bc_consensus c) →
  ∃ n' d', append_network_block_persist b now (n, d) = (Ok tt, (n', d')) ∧ follows c n' d'
    ∧ bc_blocks (ni_chain n') = bc_blocks (ni_chain n) ++ [b] ∧ ni_pool n' = ni_pool n ∧ ni_genesis n' = ni_genesis n.
Proof.
  intros Hc [Hh Hcons _] Hsplit Hsz Hfit Htime. pose proof (nv_chain _ _ (he_inv _ _ Hh)) as Hcn.
  destruct (chain_last _ _ Hcn) as (tip&Hl&_&Hpos&_).
  assert (b ∈ bc_blocks c) as Hb by (rewrite Hsplit; apply elem_of_app; right; left).
  assert (extends (bc_consensus (ni_chain n)) tip b) as Hext.
  { rewrite Hcons. rewrite last_lookup in Hl. apply (ci_links _ _ Hc (pred (length (bc_blocks (ni_chain n))))); rewrite Hsplit.
    - by apply lookup_app_l_Some.
    - rewrite lookup_app_r by lia. by replace (S _ - _)%nat with 0%nat by lia. }
  assert (∃ s', apply_transactions (blk_transactions b) (bc_state (ni_chain n)) = (Ok tt, s')) as [s' Ha].
  { pose proof (ci_replay _ _ Hc) as Hr. rewrite Hsplit, cons_middle, (assoc_L (++)) in Hr.
    assert (bc_blocks (ni_chain n) ≠ []) as Hne by (destruct (bc_blocks (ni_chain n)); [simpl in Hpos; lia|done]).
    apply recompute_prefix in Hr as [s' Hr]; [|by destruct (bc_blocks (ni_chain n))].
    rewrite recompute_snoc, (ci_replay _ _ Hcn) in Hr by done. exists s'. by apply exec_on_ok. }
  destruct (append_persist_works n d b now tip s' size Hh) as (n'&d'&Heq&Hh'&Hch&Hpool&Hg); try done.
  - apply (Forall_forall wf_block (bc_blocks c)); [apply (ci_wf _ _ Hc)|done].
  - by rewrite Hcons.
  - exists n', d'. rewrite Hch. split_and!; [done| |done..]. split; [done|by rewrite Hch|]. rewrite Hch. cbn [bc_blocks].
    exists rest. by rewrite Hsplit, <- (assoc_L (++)).
Qed.

Lemma append_batch_follows c bs n d rest clock total max size :
  chain_inv (ni_genesis n) c → follows c n d → acceptable c clock size → size ≤ MAX_FRAME_BYTES →
  bc_blocks c = bc_blocks (ni_chain n) ++ bs ++ rest → total + zlen bs < max →
  ∃ n' d', append_batch max clock bs total (n, d) = (Ok (total + zlen bs, false), (n', d')) ∧ follows c n' d'
    ∧ bc_blocks (ni_chain n') = bc_blocks (ni_chain n) ++ bs ∧ ni_pool n' = ni_pool n ∧ ni_genesis n' = ni_genesis n.
Proof.
  intros Hc Hn Hac Hfit. revert n d total Hc Hn. induction bs as [|b bs IH]; intros n d total Hc Hn Hsplit Hmax; cbn [append_batch].
  { exists n, d. rewrite app_nil_r. change (zlen (@nil Block)) with 0. rewrite Z.add_0_r. done. }
  assert (zlen (b :: bs) = 1 + zlen bs) as Hz by (unfold zlen; simpl length; lia). rewrite Hz in *. pose proof (zlen_nonneg bs).
  assert (b ∈ bc_blocks c) as Hb by (rewrite Hsplit; apply elem_of_app; right; left).
  destruct (follow_step c n d b (bs ++ rest) (clock (Z.to_nat total)) size Hc Hn Hsplit) as (n1&d1&Heq&Hn1&Hb1&Hp1&Hg1);
    [by apply (Forall_forall _ (bc_blocks c)); [apply Hac|]|done|by apply Hac|].
  unfold sbind, smap_err. rewrite Heq. cbn [map_err]. destruct (Z.leb_spec max (total + 1)); [lia|].
  destruct (IH n1 d1 (total + 1)) as (n2&d2&->&Hn2&Hb2&Hp2&Hg2); [by rewrite Hg1|done|by rewrite Hb1, <- (assoc_L (++))|lia|].
  exists n2, d2. rewrite Hb2, Hb1, Hp2, Hg2, <- (assoc_L (++)). split_and!; [do 3 f_equal; lia|done..].
Qed.

(** A slice of a valid chain after its prefix is a linear batch. *)
Lemma linear_slice g c P bs rest i tip :
  chain_inv g c → bc_blocks c = P ++ bs ++ rest → last P = Some tip →
  linear_from i (saturating_add (blk_height tip) 1) (blk_block_hash tip) bs = Ok tt.
Proof.
  intros Hc. revert P i tip. induction bs as [|b bs IH]; intros P i tip Hsplit Hl; [done|]. cbn [linear_from].
  rewrite last_lookup in Hl. assert (0 < length P)%nat as Hpos by (destruct P; [done|simpl; lia]).
  assert (bc_blocks c !! pred (length P) = Some tip) as Htip by (rewrite Hsplit; by apply lookup_app_l_Some).
  assert (bc_blocks c !! S (pred (length P)) = Some b) as Hb.
  { rewrite Hsplit, lookup_app_r by lia. by replace (S _ - _)%nat with 0%nat by lia. }
  destruct (ci_links _ _ Hc _ _ _ Htip Hb) as (->&_&->&_). cbn [map_err rbind].
  pose proof (ci_heights _ _ Hc _ _ Htip) as Hht. pose proof (ci_heights _ _ Hc _ _ Hb) as Hhb.
  assert (in_u64 (blk_height b)) as [_ Hu].
  { apply (Forall_lookup_1 wf_block _ _ _ (ci_wf _ _ Hc) Hb). }
  assert (blk_height b = saturating_add (blk_height tip) 1) as Hsucc by (unfold saturating_add; lia).
  rewrite <- Hsucc, Z.eqb_refl, String.eqb_refl. cbn [negb]. apply (IH (P ++ [b])); [by rewrite Hsplit, <- (assoc_L (++))|apply last_snoc].
Qed.

(** ** The whole catch-up *)

(** A peer that answers: its chain, and what it takes to be served by it. *)
Record serves (g : Genesis) (policy : InboundPeerPolicy) (size : Z) (nB : NodeInner) (dB : Disk) : Prop := {
  sv_inv : node_inv nB dB;
  sv_genesis : ni_genesis nB = g;
  sv_open : open_to g policy nB;
  sv_size : 0 ≤ size ≤ MAX_FRAME_BYTES ∧ batch_limit size ≤ MAX_WIRE_FRAME_BYTES;
  sv_blocks : Forall (encodes_within size) (bc_blocks (ni_chain nB));
  sv_room : height (ni_chain nB) < u64_max
}.

(** One request to it. *)
Lemma pull_served g policy size nB dB peer clock P rest :
  serves g policy size nB dB → bc_blocks (ni_chain nB) = P ++ rest → P ≠ [] →
  let h := zlen P - 1 in
  ∃ nbytes, pull_blocks_from_peer (dial policy clock (nB, dB) g h) peer (saturating_add h 1) g h
      = Ok (take (Z.to_nat MAX_BLOCKS_PER_BATCH) rest, nbytes) ∧ 0 ≤ nbytes ≤ batch_limit size.
Proof.
  intros [Hi Hg Hopen [[Hsz0 Hsz1] Hlim] Hbl Hroom] Hsplit Hne h.
  rewrite (height_length _ _ (nv_chain _ _ Hi)), Hsplit, length_app in Hroom.
  assert (0 < length P)%nat as Hpos by (destruct P; [done|simpl; lia]).
  assert (0 ≤ h ∧ h + 1 ≤ u64_max) as [Hh0 Hh1] by (unfold h, zlen; lia).
  assert (saturating_add h 1 = zlen P) as Hstart by (unfold saturating_add, h in *; lia).
  set (slice := take (Z.to_nat MAX_BLOCKS_PER_BATCH) rest).
  assert (take (Z.to_nat MAX_BLOCKS_PER_BATCH) (drop (Z.to_nat (saturating_add h 1)) (bc_blocks (ni_chain nB))) = slice) as Hslice.
  { rewrite Hstart, Hsplit. unfold zlen. by rewrite Nat2Z.id, drop_app_length. }
  destruct (response_works size slice) as (resp&Hresp&Hlen); [done| |done| |].
  { apply Forall_take. rewrite Hsplit in Hbl. by apply Forall_app in Hbl as [_ ?]. }
  { unfold slice, zlen, MAX_BLOCKS_PER_BATCH. rewrite length_take. lia. }
  exists (zlen resp). split; [|pose proof (zlen_nonneg resp); lia]. apply (pull_dial _ _ _ (nB, dB)).
  rewrite <- Hslice. apply pull_conversation; [done|done| | |by rewrite Hslice].
  - unfold in_u64. lia.
  - rewrite Hstart. unfold in_u64, h in *. lia.
Qed.

(** Full batches, a last one, and the empty answer. *)
Definition rounds_needed (missing : Z) : Z := (missing + 63) / 64 + 1.

Lemma rounds_needed_step missing :
  0 < missing → rounds_needed (missing - Z.min 64 missing) = rounds_needed missing - 1.
Proof.
  intros Hm. unfold rounds_needed. destruct (Z.le_ge_cases missing 64) as [Hle|Hge].
  - rewrite Z.min_r, Z.sub_diag by lia. change ((0 + 63) / 64) with 0.
    rewrite (Z.div_unique (missing + 63) 64 1 (missing - 1)); lia.
  - rewrite Z.min_l by lia. replace (missing + 63) with ((missing - 64 + 63) + 1 * 64) by lia. rewrite Z.div_add; lia.
Qed.

Lemma rounds_needed_pos missing : 0 ≤ missing → 1 ≤ rounds_needed missing.
Proof. intros. unfold rounds_needed. pose proof (Z.div_pos (missing + 63) 64). lia. Qed.

(** What is left of a budget suffices. *)
Record affords (budget : SyncWorkBudget) (size missing total rounds wire : Z) : Prop := {
  af_blocks : 0 ≤ total ∧ total + missing < max_blocks_per_call budget;
  af_rounds : 0 ≤ rounds ∧ rounds + rounds_needed missing ≤ max_rounds_per_call budget ≤ u32_max;
  af_wire : 0 ≤ wire ∧ wire + (rounds_needed missing - 1) * batch_limit size < max_wire_bytes_per_call budget ≤ u64_max
}.

Lemma affords_step budget size missing total rounds wire nbytes :
  affords budget size missing total rounds wire → 0 < missing → 0 ≤ size → 0 ≤ nbytes ≤ batch_limit size →
  saturating_add32 rounds 1 = rounds + 1 ∧ saturating_add wire nbytes = wire + nbytes
  ∧ wire + nbytes ≤ max_wire_bytes_per_call budget
  ∧ affords budget size (missing - Z.min 64 missing) (total + Z.min 64 missing) (rounds + 1) (wire + nbytes).
Proof.
  intros [[Ht Hb] [Hr Hr2] [Hw Hw2]] Hm Hs Hn. pose proof (rounds_needed_step missing Hm) as Hstep.
  pose proof (rounds_needed_pos (missing - Z.min 64 missing)) as Hpos.
  assert (0 ≤ batch_limit size) by (unfold batch_limit; lia).
  assert (wire + nbytes + (rounds_needed missing - 2) * batch_limit size < max_wire_bytes_per_call budget) by lia.
  assert (0 ≤ (rounds_needed missing - 2) * batch_limit size) by (apply Z.mul_nonneg_nonneg; lia).
  split_and!; [unfold saturating_add32; lia|unfold saturating_add; lia|lia|].
  split; [lia|rewrite Hstep; lia|rewrite Hstep]. replace (rounds_needed missing - 1 - 1) with (rounds_needed missing - 2) by lia. lia.
Qed.

(** The blocks of one reply are accepted. *)
Lemma reply_follows g nB n d rest clock total max size :
  chain_inv g (ni_chain nB) → ni_genesis n = g → follows (ni_chain nB) n d → acceptable (ni_chain nB) clock size →
  size ≤ MAX_FRAME_BYTES → bc_blocks (ni_chain nB) = bc_blocks (ni_chain n) ++ rest →
  let slice := take (Z.to_nat MAX_BLOCKS_PER_BATCH) rest in
  let rest' := drop (Z.to_nat MAX_BLOCKS_PER_BATCH) rest in
  slice ≠ [] → total + zlen slice < max →
  validate_linear_sync_batch (ni_chain n) slice = Ok tt
  ∧ ∃ n' d', append_batch max clock slice total (n, d) = (Ok (total + zlen slice, false), (n', d')) ∧ follows (ni_chain nB) n' d'
    ∧ bc_blocks (ni_chain nB) = bc_blocks (ni_chain n') ++ rest' ∧ zlen rest' = zlen rest - zlen slice
    ∧ height (ni_chain n') = height (ni_chain n) + zlen slice ∧ ni_pool n' = ni_pool n ∧ ni_genesis n' = g.
Proof.
  intros HcB Hg Hn Hac Hfit Hsplit slice rest' Hne Hmax. pose proof (nv_chain _ _ (he_inv _ _ (fo_healthy _ _ _ Hn))) as Hcn.
  assert (rest = slice ++ rest') as Hcut by (symmetry; apply take_drop).
  destruct (chain_last _ _ Hcn) as (tip&Hl&_&Hpos&_). split.
  { unfold validate_linear_sync_batch. destruct (Nat.eqb_spec (length slice) 0) as [Hz|_]; [done|]. rewrite Hl. cbn [ok_or rbind].
    apply (linear_slice g (ni_chain nB) (bc_blocks (ni_chain n)) slice rest'); [done| |done]. by rewrite <- Hcut. }
  destruct (append_batch_follows (ni_chain nB) slice n d rest' clock total max size) as (n1&d1&Heq&Hn1&Hb1&Hp1&Hg1);
    [by rewrite Hg|done|done|done|by rewrite <- Hcut|done|].
  exists n1, d1. split_and!; [done|done|by rewrite Hb1, <- (assoc_L (++)), <- Hcut| | |done|by rewrite Hg1].
  - unfold rest', slice, zlen. rewrite length_take, length_drop. lia.
  - rewrite (height_length _ _ (nv_chain _ _ (he_inv _ _ (fo_healthy _ _ _ Hn1)))), (height_length _ _ Hcn), Hb1, length_app. unfold zlen. lia.
Qed.

Lemma sync_loop_follows fuel g policy size nB dB peer budget conns clock clockB total rounds wire n d rest :
  serves g policy size nB dB → ni_genesis n = g → follows (ni_chain nB) n d → acceptable (ni_chain nB) clock size →
  bc_blocks (ni_chain nB) = bc_blocks (ni_chain n) ++ rest →
  affords budget size (zlen rest) total rounds wire → rounds_needed (zlen rest) ≤ Z.of_nat fuel →
  (∀ j, conns (Z.to_nat rounds + j)%nat
        = dial policy clockB (nB, dB) g (Z.min (height (ni_chain n) + 64 * Z.of_nat j) (height (ni_chain nB)))) →
  ∃ n' d', sync_loop fuel peer budget conns clock total rounds wire (n, d) = Some (Ok (total + zlen rest, false), (n', d'))
    ∧ follows (ni_chain nB) n' d' ∧ bc_blocks (ni_chain n') = bc_blocks (ni_chain nB)
    ∧ ni_pool n' = ni_pool n ∧ ni_genesis n' = g.
Proof.
  intros HB Hg Hn Hac. pose proof (sv_size _ _ _ _ _ HB) as [[Hs0 Hs1] _]. pose proof (nv_chain _ _ (sv_inv _ _ _ _ _ HB)) as HcB.
  rewrite (sv_genesis _ _ _ _ _ HB) in HcB.
  revert total rounds wire n d rest Hg Hn. induction fuel as [|fuel IH]; intros total rounds wire n d rest Hg Hn Hsplit Haf Hfuel Hconns.
  { pose proof (rounds_needed_pos (zlen rest) (zlen_nonneg rest)). lia. }
  pose proof (nv_chain _ _ (he_inv _ _ (fo_healthy _ _ _ Hn))) as Hcn. rewrite Hg in Hcn.
  destruct (chain_last _ _ Hcn) as (tip&Hl&_&Hpos&_). pose proof (zlen_nonneg rest) as Hrest.
  assert (bc_blocks (ni_chain n) ≠ []) as Hne by (destruct (bc_blocks (ni_chain n)); [simpl in Hpos; lia|done]).
  assert (height (ni_chain n) = zlen (bc_blocks (ni_chain n)) - 1) as Hh by apply (height_length _ _ Hcn).
  assert (height (ni_chain nB) = zlen (bc_blocks (ni_chain n)) + zlen rest - 1) as HhB.
  { rewrite (height_length _ _ HcB), Hsplit, length_app. unfold zlen. lia. }
  cbn [sync_loop fst snd]. pose proof Haf as [[Ht Hb] [Hr Hr2] [Hw Hw2]]. pose proof (rounds_needed_pos (zlen rest) Hrest) as Hrp.
  assert (0 ≤ (rounds_needed (zlen rest) - 1) * batch_limit size) by (apply Z.mul_nonneg_nonneg; unfold batch_limit; lia).
  destruct (Z.leb_spec (max_blocks_per_call budget) total); [lia|].
  destruct (Z.leb_spec (max_rounds_per_call budget) rounds); [lia|].
  destruct (Z.leb_spec (max_wire_bytes_per_call budget) wire); [lia|].
  destruct (pull_served g policy size nB dB peer clockB (bc_blocks (ni_chain n)) rest HB Hsplit Hne) as (nbytes&Hpull&Hnb).
  pose proof (Hconns 0%nat) as Hconn. rewrite Nat.add_0_r, Z.mul_0_r, Z.add_0_r, Z.min_l in Hconn by lia.
  rewrite Hconn, Hg, Hh, Hpull. set (slice := take (Z.to_nat MAX_BLOCKS_PER_BATCH) rest).
  assert (zlen slice = Z.min 64 (zlen rest)) as Hslice by (unfold slice, zlen, MAX_BLOCKS_PER_BATCH; rewrite length_take; lia).
  destruct (Nat.eqb_spec (length slice) 0) as [Hz|Hnz].
  { assert (rest = []) as -> by (apply nil_length_inv; unfold zlen in *; lia). rewrite app_nil_r in Hsplit.
    exists n, d. change (zlen (@nil Block)) with 0. rewrite Z.add_0_r. by rewrite Hsplit. }
  assert (0 < zlen rest) as Hm by (unfold zlen in *; lia).
  destruct (reply_follows g nB n d rest clock total (max_blocks_per_call budget) size HcB Hg Hn Hac Hs1 Hsplit)
    as (Hlin&n1&d1&Hbatch&Hn1&Hsplit1&Hdrop&Hh1&Hp1&Hg1); [by intros Hx; apply Hnz; fold slice in Hx; rewrite Hx|fold slice; lia|].
  fold slice in Hlin, Hbatch, Hdrop, Hh1. rewrite Hlin.
  destruct (affords_step budget size (zlen rest) total rounds wire nbytes Haf Hm Hs0 Hnb) as (->&->&Hwb&Haf').
  destruct (Z.eqb_spec (saturating_sub32 (max_blocks_per_call budget) total) 0) as [Hroom|_]; [unfold saturating_sub32 in Hroom; lia|].
  assert (Z.min (zlen slice) (saturating_sub32 (max_blocks_per_call budget) total) = zlen slice) as -> by (unfold saturating_sub32; lia).
  rewrite take_ge by (unfold zlen; lia). rewrite Hbatch.
  rewrite Z.ltb_irrefl. destruct (Z.ltb_spec (max_wire_bytes_per_call budget) (wire + nbytes)); [lia|].
  destruct (IH (total + zlen slice) (rounds + 1) (wire + nbytes) n1 d1 (drop (Z.to_nat MAX_BLOCKS_PER_BATCH) rest))
    as (n2&d2&Hrun&Hn2&Hb2&Hp2&Hg2); [done|done|done| | | |].
  - rewrite Hdrop, Hslice. exact Haf'.
  - rewrite Hdrop, Hslice, rounds_needed_step by done. lia.
  - intros j. replace (Z.to_nat (rounds + 1) + j)%nat with (Z.to_nat rounds + S j)%nat by lia. rewrite Hconns. f_equal. lia.
  - exists n2, d2. rewrite Hrun, Hp2, Hdrop. split_and!; [do 4 f_equal; lia|done..].
Qed.

(** C4: catching up converges. Let a healthy node with working file calls have a
    chain that is a prefix of a healthy peer's chain, under the same genesis
    and time policy, with clock readings that accept the peer's time stamps,
    and let the peer's blocks have encodings of at most [size] bytes so that
    64 of them fit into a frame. If the budget admits the missing blocks and
    the rounds they take, then the call, whose connections are answered by
    the session loop of the peer, appends exactly the missing blocks, reports
    that it is caught up, and leaves the node with the chain and the ledger of
    the peer and with its own file in step. *)
Theorem sync_converges g policy size nB dB peer budget conns clock clockB n d rest :
  serves g policy size nB dB → healthy n d → ni_genesis n = g →
  bc_consensus (ni_chain n) = bc_consensus (ni_chain nB) → bc_blocks (ni_chain nB) = bc_blocks (ni_chain n) ++ rest →
  acceptable (ni_chain nB) clock size → affords budget size (zlen rest) 0 0 0 →
  (∀ j, conns j = dial policy clockB (nB, dB) g (Z.min (height (ni_chain n) + 64 * Z.of_nat j) (height (ni_chain nB)))) →
  ∃ n' d', sync_from_peer_with_clock peer budget conns clock (n, d) = Some (Ok (mkOutcome (zlen rest) false), (n', d'))
    ∧ ni_chain n' = ni_chain nB ∧ healthy n' d'.
Proof.
  intros HB Hh Hg Hcons Hsplit Hac Haf Hconns. pose proof (rounds_needed_pos (zlen rest) (zlen_nonneg rest)) as Hrp.
  unfold sync_from_peer_with_clock. cbn [fst]. rewrite (he_store _ _ Hh).
  assert (validate_sync_work_budget budget = Ok tt) as ->.
  { destruct Haf as [? ? ?]. pose proof (zlen_nonneg rest). assert (0 ≤ size) by apply (sv_size _ _ _ _ _ HB).
    assert (0 ≤ (rounds_needed (zlen rest) - 1) * batch_limit size) by (apply Z.mul_nonneg_nonneg; unfold batch_limit; lia).
    unfold validate_sync_work_budget.
    destruct (Z.eqb_spec (max_rounds_per_call budget) 0); [lia|]. destruct (Z.eqb_spec (max_blocks_per_call budget) 0); [lia|].
    destruct (Z.eqb_spec (max_wire_bytes_per_call budget) 0); [lia|done]. }
  destruct (sync_loop_follows (sync_fuel budget) g policy size nB dB peer budget conns clock clockB 0 0 0 n d rest)
    as (n'&d'&->&Hn'&Hb&_&Hg'); [done|done| |done|done|done| |done|].
  { split; [done|done|]. rewrite Hsplit. by apply prefix_app_r. }
  { unfold sync_fuel. destruct Haf as [_ Hr _]. lia. }
  cbn [mbind option_bind fst snd]. destruct Hn' as [[Hi' Hpo' Hf'] Hc' _].
  assert (ni_chain n' = ni_chain nB) as Hchain.
  { pose proof (ci_replay _ _ (nv_chain _ _ Hi')) as Hr. pose proof (ci_replay _ _ (nv_chain _ _ (sv_inv _ _ _ _ _ HB))) as HrB.
    rewrite Hg', Hb in Hr. rewrite (sv_genesis _ _ _ _ _ HB), Hr in HrB. injection HrB as HrB.
    destruct (ni_chain n'), (ni_chain nB). cbn in *. by subst. }
  rewrite Z.add_0_l. destruct (0 <? zlen rest).
  - eexists _, d'. split; [done|]. rewrite hygiene_chain. split; [done|]. split; [by apply hygiene_inv| |done].
    unfold mempool_hygiene_after_ledger_advance. by destruct (hygiene_vs_committed_ledger _ _).
  - exists n', d'. done.
Qed.

(** ** A new block *)

(** A block pushed to a peer that lacks only that block of the chain [c]. *)
Lemma push_block_delivers g policy size nB dB peer clockB c b adv :
  healthy nB dB → open_to g policy nB → in_u64 adv → chain_inv (ni_genesis nB) c →
  bc_consensus (ni_chain nB) = bc_consensus c → bc_blocks c = bc_blocks (ni_chain nB) ++ [b] →
  encodes_within size b → size + 1 ≤ MAX_WIRE_FRAME_BYTES →
  blk_timestamp_unix b ≤ clockB 1%nat + max_future_drift_secs (bc_consensus c) →
  ∃ sent nB' dB', conversation (push_on_stream "gossip" peer g adv (block_message b)) sent tt policy clockB (nB, dB) (nB', dB')
    ∧ ni_chain nB' = c ∧ healthy nB' dB'
    ∧ ni_pool nB' = (hygiene_vs_committed_ledger (bc_state c) (ni_pool nB)).2.
Proof.
  intros Hh Hopen Hadv Hc Hcons Hsplit Hsz Hfit Ht. pose proof Hsz as (e&He&Hle). pose proof (he_inv _ _ Hh) as Hi.
  assert (wf_block b) as Hwf.
  { apply (Forall_forall wf_block (bc_blocks c)); [apply (ci_wf _ _ Hc)|]. rewrite Hsplit. apply elem_of_app. right. left. }
  assert (height (ni_chain nB) < blk_height b) as Hnew.
  { rewrite (height_length _ _ (nv_chain _ _ Hi)).
    rewrite (ci_heights _ _ Hc (length (bc_blocks (ni_chain nB))) b); [lia|]. rewrite Hsplit. by apply list_lookup_middle. }
  destruct (follow_step c nB dB b [] (clockB 1%nat) size) as (n1&d1&Heq&[Hh1 Hc1 _]&Hb1&Hp1&Hg1); [done| |done|done| |done|].
  { split; [done|done|]. rewrite Hsplit. by apply prefix_app_r. }
  { assert (MAX_WIRE_FRAME_BYTES ≤ MAX_FRAME_BYTES) by done. lia. }
  assert (ni_chain n1 = c) as Hchain.
  { pose proof (ci_replay _ _ (nv_chain _ _ (he_inv _ _ Hh1))) as Hr. pose proof (ci_replay _ _ Hc) as Hr2.
    rewrite Hg1, Hb1, <- Hsplit, Hr2 in Hr. injection Hr as Hr. rewrite <- Hsplit in Hb1.
    destruct (ni_chain n1), c. cbn in *. by subst. }
  destruct (mempool_hygiene_after_ledger_advance n1) as [k nB'] eqn:Hhy.
  assert (ni_chain nB' = ni_chain n1 ∧ node_inv nB' d1) as [Hk Hi'].
  { pose proof (hygiene_chain n1) as H1. pose proof (hygiene_inv n1 d1 (he_inv _ _ Hh1)) as H2. by rewrite Hhy in H1, H2. }
  assert (ni_pool nB' = (hygiene_vs_committed_ledger (bc_state c) (ni_pool nB)).2 ∧ bs_poisoned (ni_store nB') = false) as [Hpool Hpo].
  { revert Hhy. unfold mempool_hygiene_after_ledger_advance. rewrite Hchain, Hp1.
    destruct (hygiene_vs_committed_ledger (bc_state c) (ni_pool nB)) as [k' pool]. intros [= _ <-]. split; [done|apply (he_store _ _ Hh1)]. }
  eexists _, nB', d1. split; [|split_and!; [by rewrite Hk|by split; [|done|apply (he_calls _ _ Hh1)]|done]].
  unfold block_message. rewrite He. cbn [mbind option_bind]. eapply push_conversation; [done|done|done| | |].
  - rewrite zlen_app. change (zlen [byte_of_Z OP_BLOCK]) with 1. lia.
  - unfold handle_frame. rewrite (predecode_block b e) by done. cbn [negb fst snd cn_strikes cn_stale counted counters_zero].
    unfold apply_predecoded. rewrite (he_store _ _ Hh). destruct (Z.leb_spec (blk_height b) (height (ni_chain nB))); [lia|].
    rewrite Heq, Hhy. done.
  - done.
Qed.

(** A transaction pushed to a peer is offered to its pool. *)
Lemma push_tx_delivers g policy n d peer clock t e adv :
  healthy n d → open_to g policy n → in_u64 adv → wf_tx t → encode_transaction t = Some e → zlen e < MAX_WIRE_FRAME_BYTES →
  0 < max_inbound_tx_per_session policy →
  ∃ sent, conversation (push_on_stream "push_tx" peer g adv (tx_message t)) sent tt policy clock (n, d)
    (set_pool n (try_submit t (ni_pool n)).2, d).
Proof.
  intros [Hi Hpo _] Hopen Hadv Hwf He Hlen Hquota. eexists. unfold tx_message. rewrite He. cbn [mbind option_bind].
  eapply push_conversation; [done|done|done| | |].
  - rewrite zlen_app. change (zlen [byte_of_Z OP_TX]) with 1. lia.
  - unfold handle_frame. rewrite (predecode_tx t e) by done. cbn [cn_tx cn_strikes cn_stale counted counters_zero fst snd].
    change (saturating_add32 0 1) with 1. destruct (Z.leb_spec 1 (max_inbound_tx_per_session policy)); [|lia]. cbn [negb].
    unfold apply_predecoded. rewrite Hpo. pose proof (try_submit_no_panic t (ni_pool n) (proj1 (nv_pool _ _ Hi))) as Hnp.
    by destruct (try_submit t (ni_pool n)) as [[[]|err|] pool].
  - done.
Qed.

(** C5: a sealed block spreads. Let two healthy nodes with the same genesis have
    the same chain. When one seals a block, the block it pushes to the other,
    whose file calls work and whose clock is behind by no more than the
    permitted drift, is read by the session loop there and appended: afterwards
    both nodes have the same chain and ledger, each with its own file holding
    that chain (in whichever format), and the pool of the other node is cleaned
    against the new ledger. *)
Theorem sealed_block_spreads now allowed nA dA nA' dA' b policy nB dB peer clockB :
  node_inv nA dA → in_u64 now → seal_block now allowed (nA, dA) = (Ok (Some b), (nA', dA')) →
  healthy nB dB → ni_genesis nB = ni_genesis nA → ni_chain nB = ni_chain nA → open_to (ni_genesis nA) policy nB →
  now ≤ clockB 1%nat + max_future_drift_secs (bc_consensus (ni_chain nA)) →
  ∃ sent nB' dB',
    conversation (push_on_stream "gossip" peer (ni_genesis nA) (blk_height b) (block_message b)) sent tt policy clockB (nB, dB) (nB', dB')
    ∧ ni_chain nB' = ni_chain nA' ∧ node_inv nA' dA' ∧ bs_poisoned (ni_store nA') = false ∧ healthy nB' dB'
    ∧ ni_pool nB' = (hygiene_vs_committed_ledger (bc_state (ni_chain nA')) (ni_pool nB)).2.
Proof.
  intros HA Hnow Hseal HB Hg Hch Hopen Hclock. pose proof (seal_block_spec now allowed nA dA HA Hnow) as Hspec.
  destruct (seal_facts now allowed nA dA b nA' dA' HA Hnow Hseal) as (Hcons&Hts&Hsz). rewrite Hseal in Hspec.
  destruct Hspec as (Hi'&(Hg'&_)&_&_&_&Hbl&Hgood&_). pose proof (nv_chain _ _ Hi') as Hc'. rewrite Hg', <- Hg in Hc'.
  destruct (push_block_delivers (ni_genesis nA) policy sealed_max nB dB peer clockB (ni_chain nA') b (blk_height b))
    as (sent&nB'&dB'&Hconv&Hchain&Hh&Hpool); [done|done| |done|by rewrite Hch|by rewrite Hch|done|done|by rewrite Hts, Hcons|].
  - apply (Forall_forall wf_block (bc_blocks (ni_chain nA'))); [apply (ci_wf _ _ Hc')|]. rewrite Hbl. apply elem_of_app. right. left.
  - by exists sent, nB', dB'.
Qed.

(** ** A batch that does not fit *)

(** A request that fails on the other side is answered by the end of the
    stream. *)
Lemma dial_refused policy clock nB dB g h err peer :
  node_inv nB dB → open_to g policy nB → in_u64 h → in_u64 (saturating_add h 1) →
  wire_encode_blocks_response (blocks_from_height_limited (ni_chain nB) (saturating_add h 1) (Z.to_nat MAX_BLOCKS_PER_BATCH)) = Err err →
  ∃ e, pull_blocks_from_peer (dial policy clock (nB, dB) g h) peer (saturating_add h 1) g h = Err e.
Proof.
  intros Hi [(hex&Hg&Hn) [Hpol Hpos] Hpo] Hh Hs Henc. pose proof (height_range nB dB Hi) as HhB.
  assert (∃ r cn, peer_connection_loop policy alone clock (mkStream (request g h (saturating_add h 1)) hangup [] []) (nB, dB)
    = Some (r, cn, mkStream [] hangup (ack_frame (ni_genesis nB) (height (ni_chain nB))) [], (nB, dB))) as (r&cn&Hrun).
  { unfold peer_connection_loop, peer_session_setup, request. cbn [fst]. rewrite Hpo.
    rewrite (responder_accepts g (ni_genesis nB) hex) by done.
    assert (∃ k, session_fuel = S (S k)) as [k ->] by (exists (Z.to_nat 8191); unfold session_fuel, MAX_FRAMES_PER_INBOUND_SESSION; lia).
    cbn [session_loop]. set (out := ack_frame _ _). rewrite <- (app_nil_r (wire_frame _)).
    unfold session_iter at 1. change (saturating_add32 (cn_frames_seen counters_zero) 1) with 1. cbn [Z.ltb].
    change (MAX_FRAMES_PER_INBOUND_SESSION <? 1) with false. rewrite read_framed_app by (by rewrite zlen_get_blocks).
    cbn [cn_app_frames counters_zero]. change (u32_max <? 0 + 1) with false.
    destruct (Z.ltb_spec (max_app_frames_per_session policy) (0 + 1)); [lia|].
    unfold handle_frame. rewrite predecode_get_blocks by done. cbn [negb alone fst snd cn_strikes cn_stale].
    unfold apply_predecoded. rewrite Hpo, Henc. cbn [session_verdict]. case_match; [by eexists _, _|].
    edestruct session_iter_hangup as [cn ->]; [|by eexists _, _]. done. }
  unfold dial. rewrite Hrun. unfold pull_blocks_from_peer, pull_on_stream. cbn [map_err rbind st_out]. unfold smap_err. unfold sbind at 1.
  rewrite <- (app_nil_r (ack_frame _ _)), (initiator_accepts g (ni_genesis nB) hex) by done. cbn [map_err]. unfold sbind at 1.
  rewrite write_framed_ok by (by rewrite zlen_get_blocks). by eexists.
Qed.

(** When the next 64 blocks of the peer together exceed a frame, no catch-up from
    that peer ever gets past this height, whatever its budget. *)
Theorem oversized_batch_stalls_sync g policy nB dB peer budget clock clockB n d rest encs :
  node_inv nB dB → open_to g policy nB → height (ni_chain nB) < u64_max →
  healthy n d → ni_genesis n = g → bc_blocks (ni_chain nB) = bc_blocks (ni_chain n) ++ rest →
  Forall2 (λ b e, encode_block b = Some e) (take (Z.to_nat MAX_BLOCKS_PER_BATCH) rest) encs →
  MAX_WIRE_FRAME_BYTES < 5 + zlen (batch_bytes encs) →
  0 < max_rounds_per_call budget → 0 < max_blocks_per_call budget → 0 < max_wire_bytes_per_call budget →
  ∃ e, sync_from_peer_with_clock peer budget (λ _, dial policy clockB (nB, dB) g (height (ni_chain n))) clock (n, d) = Some (Err e, (n, d)).
Proof.
  intros HiB Hopen Hroom [Hi Hpo _] Hg Hsplit Hencs Hover Hr Hb Hw. pose proof (height_range n d Hi) as [Hh0 _].
  pose proof (nv_chain _ _ Hi) as Hc. pose proof (nv_chain _ _ HiB) as HcB. destruct (chain_last _ _ Hc) as (_&_&_&Hpos&_).
  rewrite (height_length _ _ HcB), Hsplit, length_app in Hroom. pose proof (height_length _ _ Hc) as Hh.
  assert (saturating_add (height (ni_chain n)) 1 = zlen (bc_blocks (ni_chain n))) as Hstart by (unfold saturating_add, zlen; lia).
  destruct (response_overflows _ _ Hencs) as [err Herr]; [unfold zlen, MAX_BLOCKS_PER_BATCH; rewrite length_take; lia|done|].
  destruct (dial_refused policy clockB nB dB g (height (ni_chain n)) err peer HiB Hopen) as [e He].
  - unfold in_u64. lia.
  - rewrite Hstart. unfold in_u64, zlen. lia.
  - rewrite (blocks_from_height_slice _ _ _ _ HcB), Hstart, Hsplit by (rewrite Hstart; apply zlen_nonneg).
    unfold zlen. rewrite Nat2Z.id, drop_app_length. exact Herr.
  - exists e. unfold sync_from_peer_with_clock, validate_sync_work_budget. cbn [fst]. rewrite Hpo.
    destruct (Z.eqb_spec (max_rounds_per_call budget) 0); [lia|]. destruct (Z.eqb_spec (max_blocks_per_call budget) 0); [lia|].
    destruct (Z.eqb_spec (max_wire_bytes_per_call budget) 0); [lia|]. unfold sync_fuel. cbn [sync_loop fst].
    destruct (Z.leb_spec (max_blocks_per_call budget) 0); [lia|]. destruct (Z.leb_spec (max_rounds_per_call budget) 0); [lia|].
    destruct (Z.leb_spec (max_wire_bytes_per_call budget) 0); [lia|]. rewrite Hg, He. done.
Qed.
End converge.
