(* ===== verification/DevUi.v ===== *)
(** * The development test interface ([dev-test-ui/src/main.rs])

    A local web page over a data directory: it reads the chain, the queue, the
    wallet and the peer book, and queues transfers. A request handler runs the
    blocking function of the same name and turns its result into a response; a
    panic of that function is the failed join. The rendering of responses as
    JSON and the HTTP server are left out. *)

From Stdlib Require Import ZArith Lia Ascii.
From stdpp Require Import base strings list gmap.
From S2P Require Import Prelude Bytes Io Crypto Transaction Wallet Block Encoding Genesis Ledger Mempool MempoolQueue Blockchain Storage StorageSpec Restart PendingTx Toml Seen PeerBook DataDirBind Wire Node Session Args Commands.

Definition WARN : string := "LOCAL TESTING ONLY — not a wallet; not for production; localhost binding only.".
Definition MEMPOOL_NOTE : string :=
  "Mempool lives inside a running `node run` process only; this UI reads disk (chain + pending file) and cannot show live mempool size.".

(** ** Responses *)

Record BlockSummary := mkBlockSummary {
  bsum_height : Z;
  bsum_block_hash : string;
  bsum_tx_count : nat;
  bsum_timestamp_unix : Z
}.

Record TxSummary := mkTxSummary {
  tsum_tx_hash : string;
  tsum_sender : string;
  tsum_receiver : string;
  tsum_amount : Z;
  tsum_fee : Z;
  tsum_nonce : Z
}.

Record OverviewOut := mkOverviewOut {
  ov_warning : string;
  ov_data_dir : string;
  ov_height : Z;
  ov_tip_hash : string;
  ov_chain_error : option string;
  ov_pending_tx_count : option nat;
  ov_pending_error : option string;
  ov_node_run_active : bool;
  ov_mempool_note : string;
  ov_wallet_address : option string;
  ov_peer_seed_addrs : list string;
  ov_blocks : list BlockSummary
}.

Record ActivityOut := mkActivityOut {
  ac_warning : string;
  ac_blocks : list BlockSummary;
  ac_recent_txs : list TxSummary;
  ac_error : option string
}.

Record AccountOut := mkAccountOut {
  ao_address : string;
  ao_found : bool;
  ao_balance : option Z;
  ao_nonce : option Z;
  ao_error : option string
}.

Record WalletOut := mkWalletOut {
  wo_address : option string;
  wo_balance : option Z;
  wo_committed_next_nonce : option Z;
  wo_error : option string
}.

Record PathsOut := mkPathsOut {
  po_genesis : string;
  po_chain_blocks : string;
  po_pending_tx : string;
  po_wallet_seed : string;
  po_genesis_bind : string;
  po_run_lock : string;
  po_peer_book : string
}.

Record SetupOut := mkSetupOut {
  so_warning : string;
  so_data_dir : string;
  so_paths : PathsOut;
  so_example_commands : list string
}.

Record SendBody := mkSendBody {
  sb_receiver : string;
  sb_amount : Z;
  sb_fee : Z;
  sb_nonce : option Z
}.

(** The addresses of a peer book, without the other fields. *)
Record PeerAddrs := mkPeerAddrs { pa_peers : list string }.

(** [(StatusCode, Json(..))] *)
Inductive Response (A : Type) :=
| RespOk (body : A)
| RespBadRequest (error : string)
| RespInternalError.                               (* task join failed *)
Arguments RespOk {A} body.
Arguments RespBadRequest {A} error.
Arguments RespInternalError {A}.

Definition summary (b : Block) : BlockSummary :=
  mkBlockSummary (blk_height b) (blk_block_hash b) (length (blk_transactions b)) (blk_timestamp_unix b).

Definition tx_summary (t : Transaction) : TxSummary :=
  mkTxSummary (tx_tx_hash t) (tx_sender t) (tx_receiver t) (tx_amount t) (tx_fee t) (tx_nonce t).

(** [let n = blocks.len().min(k); blocks.iter().skip(blocks.len() - n)] *)
Definition last_blocks (k : nat) (blocks : list Block) : list Block :=
  let n := Nat.min (length blocks) k in drop (length blocks - n) blocks.

(** A block's transactions, until forty are shown. *)
Fixpoint push_txs (out : list TxSummary) (txs : list Transaction) : list TxSummary :=
  match txs with
  | [] => out
  | tx :: txs' => if Nat.leb 40 (length out) then out else push_txs (out ++ [tx_summary tx]) txs'
  end.

(** [{:?}] of an [Option<u64>] *)
Definition debug_total (o : option Z) : string :=
  match o with Some t => "Some(" +:+ fmt_uint t +:+ ")" | None => "None" end.

Section ui.
Context `{CryptoLib} `{TomlDoc Genesis} `{TomlDoc BindFile} `{TomlDoc PeerAddrs}.

(** ** Reading the directory *)

Definition ui_load_genesis (data_dir : string) : ST Disk string Genesis :=
  let p := path_join data_dir GENESIS_FILE in
  let! ex := path_exists p in
  if negb ex then sfail ("genesis missing: " +:+ p +:+ " (run `node init --data-dir ...` first)")
  else smap_err (λ e, p +:+ ": " +:+ e) (genesis_from_path p).

Definition load_chain_readonly (data_dir : string) (genesis : Genesis) : ST Disk string Blockchain :=
  let! blocks := smap_err StorageError_display (read_all_blocks (path_join data_dir CHAIN_FILE)) in
  let! chain := slift (map_err ProtocolError_display (from_genesis genesis)) in
  slift (exec_on (smap_err ProtocolError_display (sfor append_block blocks)) chain).

Definition ui_load_wallet (data_dir : string) : ST Disk string Wallet :=
  let path := path_join data_dir WALLET_FILE in
  let! raw := smap_err (λ e, path +:+ ": " +:+ IoError_display e) (fs_read path) in
  if negb (zlen raw =? 32) then sfail (path +:+ ": expected 32-byte seed") else sret (from_seed raw).

(** [match m { Ok(x) => .., Err(e) => .. }] on the result of a call. *)
Definition try_st {E A} (m : ST Disk E A) : ST Disk string (Res E A) := λ d,
  match m d with
  | (Panic, d') => (Panic, d')
  | (r, d') => (Ok r, d')
  end.

Definition res_ok {E A} (r : Res E A) : option A := match r with Ok a => Some a | _ => None end.
Definition res_err {E A} (r : Res E A) : option E := match r with Err e => Some e | _ => None end.

(** ** Overview *)

Definition pending_status (pending_path : string) (r : Res IoError (list byte)) : Res string (option nat * option string) :=
  match r with
  | Ok bytes =>
    match parse_pending_file_bytes bytes with
    | Ok v => Ok (Some (length v), None)
    | Err e => Ok (None, Some e)
    | Panic => Panic
    end
  | Err e =>
    match IoError_kind e with
    | NotFound => Ok (Some 0%nat, None)
    | _ => Ok (None, Some (pending_path +:+ ": " +:+ IoError_display e))
    end
  | Panic => Panic
  end.

(** The page, once the run lock has been probed. *)
Definition overview_page (data_dir : string) (genesis : Genesis) (node_run_active : bool) : ST Disk string OverviewOut :=
  let! chain_result := try_st (load_chain_readonly data_dir genesis) in
  let pending_path := path_join data_dir PENDING_TX_FILE in
  let! read := try_st (fs_read pending_path) in
  let! (pending_tx_count, pending_error) := slift (pending_status pending_path read) in
  let! wallet := try_st (ui_load_wallet data_dir) in
  let wallet_address := Wallet_address <$> res_ok wallet in
  let! peers := try_st (fs_read_to_string (path_in_data_dir data_dir)) in
  let! parsed := slift (match res_ok peers with
                        | Some s => match toml_from_str s with Panic => Panic | r => Ok (res_ok r) end
                        | None => Ok None
                        end) in
  let peer_seed_addrs := from_option pa_peers [] parsed in
  let blocks := match res_ok chain_result with
                | Some chain => summary <$> last_blocks 15 (bc_blocks chain)
                | None => []
                end in
  let '(h, tip_hash) := match res_ok chain_result with
                        | Some c => (height c, from_option blk_block_hash "" (last (bc_blocks c)))
                        | None => (0, "")
                        end in
  sret (mkOverviewOut WARN data_dir h tip_hash (res_err chain_result) pending_tx_count pending_error node_run_active
          MEMPOOL_NOTE wallet_address peer_seed_addrs blocks).

Definition overview_inner (data_dir : string) : ST Disk string OverviewOut :=
  let! genesis := ui_load_genesis data_dir in
  let! lock := try_st (try_acquire_exclusive (path_join data_dir NODE_RUN_LOCK_FILE)) in
  overview_page data_dir genesis (match lock with Ok false => true | _ => false end).

(** ** Activity, accounts, wallet *)

Definition activity_inner (data_dir : string) : ST Disk string ActivityOut :=
  let! genesis := ui_load_genesis data_dir in
  let! chain := load_chain_readonly data_dir genesis in
  let shown := last_blocks 20 (bc_blocks chain) in
  sret (mkActivityOut WARN (summary <$> shown) (foldl (λ out b, push_txs out (blk_transactions b)) [] shown) None).

Definition account_inner (data_dir addr : string) : ST Disk string AccountOut :=
  let! r := try_st (let! genesis := ui_load_genesis data_dir in load_chain_readonly data_dir genesis) in
  match r with
  | Ok chain =>
    match get_account (bc_state chain) (Address_new addr) with
    | Some ac => sret (mkAccountOut addr true (Some (acc_balance ac)) (Some (acc_nonce ac)) None)
    | None => sret (mkAccountOut addr false None None None)
    end
  | Err e => sret (mkAccountOut addr false None None (Some e))
  | Panic => slift Panic
  end.

Definition wallet_state_inner (data_dir : string) : ST Disk string WalletOut :=
  let! w := try_st (ui_load_wallet data_dir) in
  match w with
  | Err e => sret (mkWalletOut None None None (Some e))
  | Panic => slift Panic
  | Ok wallet =>
    let addr := Wallet_address wallet in
    let! r := try_st (let! genesis := ui_load_genesis data_dir in load_chain_readonly data_dir genesis) in
    match r with
    | Err e => sret (mkWalletOut (Some addr) None None (Some e))
    | Panic => slift Panic
    | Ok chain =>
      match get_account (bc_state chain) (Wallet_address wallet) with
      | Some ac => sret (mkWalletOut (Some addr) (Some (acc_balance ac)) (Some (acc_nonce ac)) None)
      | None => sret (mkWalletOut (Some addr) None None
                        (Some "wallet address has no account on this chain (check genesis allocations)"))
      end
    end
  end.

(** ** Queueing a transfer *)

Definition send_message (body : SendBody) (tx : Transaction) (nonce committed_nonce balance : Z) : string :=
  let msg := "queued tx " +:+ tx_tx_hash tx +:+ " -> " +:+ sb_receiver body +:+ " amount " +:+ fmt_uint (sb_amount body)
             +:+ " fee " +:+ fmt_uint (sb_fee body) +:+ " nonce " +:+ fmt_uint nonce
             +:+ " (pending_tx.tril — run `node run` to seal)" in
  let msg := match sb_nonce body with
             | Some _ =>
               msg +:+ nl +:+ "NOTE: dev-test override nonce — committed next nonce was " +:+ fmt_uint committed_nonce
               +:+ ". Stale (nonce < " +:+ fmt_uint committed_nonce +:+ ") or gap (nonce > " +:+ fmt_uint committed_nonce
               +:+ ") txs exercise mempool/seal rejection paths; see stderr on `node run`."
             | None => msg
             end in
  let total := checked_add (sb_amount body) (sb_fee body) in
  if match total with Some t => balance <? t | None => true end
  then msg +:+ nl +:+ "NOTE: amount+fee (" +:+ debug_total total +:+ ") vs committed balance " +:+ fmt_uint balance
       +:+ " — expect seal or hygiene to reject insufficient balance."
  else msg.

Definition send_inner (data_dir : string) (body : SendBody) (ts pid : Z) (clock : option Z) : ST Disk string string :=
  let! wallet := ui_load_wallet data_dir in
  let! genesis := ui_load_genesis data_dir in
  verify_binding_if_present data_dir genesis ;;!
  let! chain := load_chain_readonly data_dir genesis in
  let! acct := slift (ok_or (get_account (bc_state chain) (Wallet_address wallet))
    "wallet address has no account on this chain genesis; fix genesis.toml") in
  let committed_nonce := acc_nonce acct in
  let nonce := default committed_nonce (sb_nonce body) in
  let! tx := slift (map_err ProtocolError_display
    (sign_transfer wallet (Address_new (sb_receiver body)) (sb_amount body) (sb_fee body) nonce ts)) in
  smap_err IoError_display (append_pending_transaction (path_join data_dir PENDING_TX_FILE) tx) ;;!
  ensure_binding_if_missing data_dir genesis pid clock ;;!
  sret (send_message body tx nonce committed_nonce (acc_balance acct)).

(** ** Request handlers *)

Definition overview_error (data_dir e : string) : OverviewOut :=
  mkOverviewOut WARN data_dir 0 "" (Some e) None None false MEMPOOL_NOTE None [] [].

Definition get_overview (data_dir : string) (d : Disk) : Response OverviewOut * Disk :=
  match overview_inner data_dir d with
  | (Ok json, d') => (RespOk json, d')
  | (Err e, d') => (RespOk (overview_error data_dir e), d')
  | (Panic, d') => (RespInternalError, d')
  end.

Definition get_activity (data_dir : string) (d : Disk) : Response ActivityOut * Disk :=
  match activity_inner data_dir d with
  | (Ok json, d') => (RespOk json, d')
  | (Err e, d') => (RespOk (mkActivityOut WARN [] [] (Some e)), d')
  | (Panic, d') => (RespInternalError, d')
  end.

Definition ui_get_account (data_dir addr : string) (d : Disk) : Response AccountOut * Disk :=
  match account_inner data_dir addr d with
  | (Ok r, d') => (RespOk r, d')
  | (_, d') => (RespInternalError, d')
  end.

Definition get_wallet (data_dir : string) (d : Disk) : Response WalletOut * Disk :=
  match wallet_state_inner data_dir d with
  | (Ok json, d') => (RespOk json, d')
  | (_, d') => (RespInternalError, d')
  end.

Definition get_setup (data_dir : string) : SetupOut :=
  mkSetupOut WARN data_dir
    (mkPathsOut (path_join data_dir GENESIS_FILE) (path_join data_dir CHAIN_FILE) (path_join data_dir PENDING_TX_FILE)
       (path_join data_dir WALLET_FILE) (path_join data_dir GENESIS_BIND_FILE) (path_join data_dir NODE_RUN_LOCK_FILE)
       (path_in_data_dir data_dir))
    ["cd ../node && cargo run -- run --data-dir " +:+ data_dir +:+ " --listen 127.0.0.1:9333 --interval-secs 2";
     "cargo run --manifest-path dev-test-ui/Cargo.toml -- --data-dir " +:+ data_dir].

Definition post_send (data_dir : string) (body : SendBody) (ts pid : Z) (clock : option Z) (d : Disk) : Response string * Disk :=
  match send_inner data_dir body ts pid clock d with
  | (Ok msg, d') => (RespOk msg, d')
  | (Err e, d') => (RespBadRequest e, d')
  | (Panic, d') => (RespInternalError, d')
  end.
End ui.

(** ** Starting the server *)

Inductive UiStart :=
| UiHelp
| UiServe (data_dir listen : string).

(** The loop over the arguments; [Err] is [exit(1)]. *)
Fixpoint ui_args (args : list string) (data_dir listen : string) : Res string (string * string) :=
  match args with
  | [] => Ok (data_dir, listen)
  | flag :: rest =>
    if String.eqb flag "--data-dir" then
      match rest with v :: rest' => ui_args rest' v listen | [] => Panic end
    else if String.eqb flag "--listen" then
      match rest with v :: rest' => ui_args rest' data_dir v | [] => Panic end
    else Err ("unknown arg: " +:+ flag)
  end.

(** [canonicalize] is the file-system call of that name. *)
Definition ui_main (canonicalize : string → option string) (os_args : list (list byte)) : Res string UiStart :=
  let? args := expect (mapM from_utf8 os_args) in                    (* env::args() panics on other arguments *)
  if existsb (λ a, String.eqb a "-h" || String.eqb a "--help") args then Ok UiHelp
  else
    let? (data_dir, listen) := ui_args args "data-a" "127.0.0.1:9847" in
    if negb (String.prefix "127.0.0.1:" listen) && negb (String.eqb listen "127.0.0.1")
    then Err ("Refusing to bind " +:+ listen +:+ ": use 127.0.0.1 only (local testing tool).")
    else
      let listen := if String.eqb listen "127.0.0.1" then "127.0.0.1:9847" else listen in
      Ok (UiServe (default data_dir (canonicalize data_dir)) listen).
