(* ===== verification/DevUiSpec.v ===== *)
(** * What the development test interface may do ([dev-test-ui/src/main.rs])

    Its pages do not touch the directory and never fail a request, and the chain
    they show is the one the node would load. *)

From Stdlib Require Import ZArith Lia Ascii.
From stdpp Require Import base strings list gmap.
From S2P Require Import Prelude Bytes Io Crypto Transaction Wallet Block Encoding Genesis Ledger Mempool MempoolQueue Blockchain Storage StorageSpec Restart PendingTx Toml Seen PeerBook DataDirBind Wire Node Session Args Commands Run StartSpec RunSpec SendSpec DevUi.

(** ** Reading *)

Lemma reads_only {E A} (m : ST Disk E A) d : (∀ path, keeps path m) → d_files (m d).2 = d_files d.
Proof. intros Hk. apply map_eq. intros path. apply Hk. Qed.

Lemma keeps_try_st {E A} path (m : ST Disk E A) : keeps path m → keeps path (try_st m).
Proof. intros Hk d. unfold try_st. specialize (Hk d). by destruct (m d) as [[]]. Qed.

Lemma panic_free_try_st {E A} (m : ST Disk E A) : panic_free m → panic_free (try_st m).
Proof. intros Hp d. unfold try_st. specialize (Hp d). by destruct (m d) as [[]]. Qed.

(** A call whose result is looked at never gives a panic to look at. *)
Lemma try_st_ok {E A} (m : ST Disk E A) d r d' : try_st m d = (Ok r, d') → r ≠ Panic ∧ m d = (r, d').
Proof. unfold try_st. destruct (m d) as [[]]; intros [= <- <-]; done. Qed.

Lemma panic_free_try_bind {E A B} (m : ST Disk E A) (k : Res E A → ST Disk string B) :
  panic_free m → (∀ r, r ≠ Panic → panic_free (k r)) → panic_free (sbind (try_st m) k).
Proof.
  intros Hm Hk d. unfold sbind. pose proof (panic_free_try_st m Hm d) as Hp.
  destruct (try_st m d) as [[r| |] d'] eqn:Hr; [|done..]. apply Hk. by apply try_st_ok in Hr as [? _].
Qed.

Section pages.
Context `{CryptoLaws} `{GenesisDocLaws} `{TomlTotal BindFile} `{TomlTotal PeerAddrs}.

Lemma ui_genesis_keeps path dir : keeps path (ui_load_genesis dir).
Proof. unfold ui_load_genesis. solve_keeps. apply keeps_smap. unfold genesis_from_path. solve_keeps. Qed.

Lemma ui_wallet_keeps path dir : keeps path (ui_load_wallet dir).
Proof. unfold ui_load_wallet. solve_keeps. Qed.

Lemma readonly_keeps path dir g : keeps path (load_chain_readonly dir g).
Proof.
  unfold load_chain_readonly. apply keeps_bind; [|by intros bs; solve_keeps]. apply keeps_smap.
  unfold read_all_blocks. apply keeps_bind; [auto with keeps|]. intros ex. case_match; [by intros ?|].
  apply keeps_bind; [apply keeps_smap, keeps_fs_read|]. intros data. case_match; [by intros ?|].
  by destruct (file_format data) as [fmt off]; intros ?.
Qed.

Lemma loaded_keeps path dir : keeps path (let! g := ui_load_genesis dir in load_chain_readonly dir g).
Proof. apply keeps_bind; [apply ui_genesis_keeps|]. intros g. apply readonly_keeps. Qed.

Lemma ui_genesis_no_panic dir : panic_free (ui_load_genesis dir).
Proof. unfold ui_load_genesis. solve_panic_free. apply panic_free_smap, genesis_from_path_no_panic. Qed.

Lemma ui_wallet_no_panic dir : panic_free (ui_load_wallet dir).
Proof. unfold ui_load_wallet. solve_panic_free. Qed.

Lemma read_all_no_panic path : panic_free (read_all_blocks path).
Proof.
  unfold read_all_blocks. apply panic_free_bind; [auto with no_panic|]. intros ex. case_match; [by intros ?|].
  apply panic_free_bind; [apply panic_free_smap, panic_free_fs_read|]. intros data. case_match; [by intros ?|].
  destruct (file_format data) as [fmt off]. apply panic_free_lift. set (body := drop _ data).
  assert ((match fmt with Legacy => parse_legacy_block_frames body | V2 => parse_v2_block_frames body end)
          = parse_strict_from fmt (length body) body 0 []) as -> by (by destruct fmt).
  apply parse_strict_total. unfold zlen. lia.
Qed.

Lemma readonly_no_panic dir g : panic_free (load_chain_readonly dir g).
Proof.
  unfold load_chain_readonly. apply panic_free_bind; [apply panic_free_smap, read_all_no_panic|]. intros bs. apply panic_free_bind.
  - apply panic_free_lift, map_err_no_panic. unfold from_genesis, State_from_genesis. repeat (apply rbind_no_panic; [|done]).
    apply sorted_pairs_no_panic.
  - intros c. apply panic_free_lift, panic_free_exec, panic_free_smap, panic_free_for. intros b _. apply append_block_no_panic.
Qed.

Lemma loaded_no_panic dir : panic_free (let! g := ui_load_genesis dir in load_chain_readonly dir g).
Proof. apply panic_free_bind; [apply ui_genesis_no_panic|]. intros g. apply readonly_no_panic. Qed.

(** ** The four pages *)

Lemma overview_page_keeps path dir g active : keeps path (overview_page dir g active).
Proof.
  unfold overview_page.
  apply keeps_bind; [apply keeps_try_st, readonly_keeps|]. intros c. apply keeps_bind; [apply keeps_try_st, keeps_fs_read|]. intros rd.
  apply keeps_bind; [by intros ?|]. intros [cnt perr]. apply keeps_bind; [apply keeps_try_st, ui_wallet_keeps|]. intros w.
  apply keeps_bind; [apply keeps_try_st, keeps_read_to_string|]. intros ps. apply keeps_bind; [by intros ?|]. intros pa.
  by destruct (match res_ok c with Some c0 => _ | None => _ end); intros ?.
Qed.

Lemma overview_keeps path dir : path_join dir NODE_RUN_LOCK_FILE ≠ path → keeps path (overview_inner dir).
Proof.
  intros Hl. unfold overview_inner. apply keeps_bind; [apply ui_genesis_keeps|]. intros g.
  apply keeps_bind; [by apply keeps_try_st, keeps_try_acquire|]. intros lock. apply overview_page_keeps.
Qed.

Lemma overview_page_no_panic dir g active : panic_free (overview_page dir g active).
Proof.
  unfold overview_page.
  apply panic_free_try_bind; [apply readonly_no_panic|]. intros c _. apply panic_free_try_bind; [apply panic_free_fs_read|]. intros rd Hrd.
  apply panic_free_bind.
  { apply panic_free_lift. unfold pending_status. destruct rd as [bytes|e|]; [|by destruct (IoError_kind e)|done].
    pose proof (parse_pending_no_panic bytes). by destruct (parse_pending_file_bytes bytes). }
  intros [cnt perr]. apply panic_free_try_bind; [apply ui_wallet_no_panic|]. intros w _.
  apply panic_free_try_bind; [apply panic_free_read_to_string|]. intros ps _. apply panic_free_bind.
  { apply panic_free_lift. destruct (res_ok ps) as [s|]; [|done]. pose proof (toml_from_total (A := PeerAddrs) s). by destruct (toml_from_str s). }
  intros pa. by destruct (match res_ok c with Some c0 => _ | None => _ end); intros ?.
Qed.

Lemma overview_no_panic dir : panic_free (overview_inner dir).
Proof.
  unfold overview_inner. apply panic_free_bind; [apply ui_genesis_no_panic|]. intros g.
  apply panic_free_try_bind; [apply panic_free_try_acquire|]. intros lock _. apply overview_page_no_panic.
Qed.

Lemma activity_keeps path dir : keeps path (activity_inner dir).
Proof.
  unfold activity_inner. apply keeps_bind; [apply ui_genesis_keeps|]. intros g.
  apply keeps_bind; [apply readonly_keeps|]. by intros c d.
Qed.

Lemma activity_no_panic dir : panic_free (activity_inner dir).
Proof.
  unfold activity_inner. apply panic_free_bind; [apply ui_genesis_no_panic|]. intros g.
  apply panic_free_bind; [apply readonly_no_panic|]. by intros c d.
Qed.

Lemma account_keeps path dir addr : keeps path (account_inner dir addr).
Proof. unfold account_inner. apply keeps_bind; [apply keeps_try_st, loaded_keeps|]. intros [c| |]; [case_match|..]; by intros ?. Qed.

Lemma wallet_keeps path dir : keeps path (wallet_state_inner dir).
Proof.
  unfold wallet_state_inner. apply keeps_bind; [apply keeps_try_st, ui_wallet_keeps|]. intros [w| |]; [|by intros ?..].
  apply keeps_bind; [apply keeps_try_st, loaded_keeps|]. intros [c| |]; [case_match|..]; by intros ?.
Qed.

(** These two report their errors in the page: the handler has none. *)
Lemma account_total dir addr d : ∃ out d', account_inner dir addr d = (Ok out, d').
Proof.
  unfold account_inner, sbind. pose proof (panic_free_try_st _ (loaded_no_panic dir) d) as Hp.
  destruct (try_st _ d) as [[r|e|] d'] eqn:Hr; [| |done].
  - apply try_st_ok in Hr as [Hr _]. destruct r as [c|e|]; [case_match|..]; [by eexists _, _..|done].
  - exfalso. revert Hr. unfold try_st. by destruct ((_ : ST _ _ _) d) as [[]].
Qed.

Lemma wallet_total dir d : ∃ out d', wallet_state_inner dir d = (Ok out, d').
Proof.
  unfold wallet_state_inner, sbind at 1. pose proof (panic_free_try_st _ (ui_wallet_no_panic dir) d) as Hp.
  destruct (try_st (ui_load_wallet dir) d) as [[r|e|] d1] eqn:Hr; [| |done].
  2: { exfalso. revert Hr. unfold try_st. by destruct (ui_load_wallet dir d) as [[]]. }
  apply try_st_ok in Hr as [Hr _]. destruct r as [w|e|]; [|by eexists _, _|done].
  unfold sbind. clear Hp. pose proof (panic_free_try_st _ (loaded_no_panic dir) d1) as Hp.
  destruct (try_st _ d1) as [[r|e|] d2] eqn:Hr2; [| |done].
  - apply try_st_ok in Hr2 as [Hr2 _]. destruct r as [c|e|]; [case_match|..]; [by eexists _, _..|done].
  - exfalso. revert Hr2. unfold try_st. by destruct ((_ : ST _ _ _) d1) as [[]].
Qed.
End pages.

(** ** The run lock *)

(** At most creates an empty file at [path]. *)
Definition may_create {E A} (path : string) (m : ST Disk E A) : Prop :=
  ∀ d, d_files (m d).2 !! path = d_files d !! path ∨ (d_files d !! path = None ∧ d_files (m d).2 !! path = Some []).

Lemma may_create_then {E A B} path (m : ST Disk E A) (k : A → ST Disk E B) :
  may_create path m → (∀ a, keeps path (k a)) → may_create path (sbind m k).
Proof.
  intros Hm Hk d. unfold sbind. specialize (Hm d). destruct (m d) as [[a| |] d']; [|done..]. cbn [snd] in Hm. by rewrite Hk.
Qed.

Lemma keeps_then_create {E A B} path (m : ST Disk E A) (k : A → ST Disk E B) :
  keeps path m → (∀ a, may_create path (k a)) → may_create path (sbind m k).
Proof.
  intros Hm Hk d. unfold sbind. specialize (Hm d). destruct (m d) as [[a| |] d'] eqn:Hr; cbn [snd] in Hm; [|by left..].
  rewrite <- Hm. apply Hk.
Qed.

Lemma try_acquire_creates path : may_create path (try_acquire_exclusive path).
Proof.
  apply may_create_then.
  - intros d. unfold open_create, sbind, sget. destruct (io_call_files d) as [Hf Hr]. destruct (io_call d) as [r d1]. cbn [fst snd] in *.
    rewrite <- Hf. destruct Hr as [->|[e ->]]; [|by left]. destruct (d_files d1 !! path) as [c|] eqn:Hc; cbn [sret sput snd]; [by left|].
    right. split; [done|]. cbn [set_file d_files]. apply lookup_insert_eq.
  - intros _ d. pose proof (keeps_io path d) as Hk. by destruct (io_call d) as [[[]|e|] d'].
Qed.

Lemma may_create_try_st {E A} path (m : ST Disk E A) : may_create path m → may_create path (try_st m).
Proof. intros Hk d. unfold try_st. specialize (Hk d). by destruct (m d) as [[]]. Qed.

Lemma overview_creates `{CryptoLib} `{TomlDoc Genesis} `{TomlDoc PeerAddrs} dir :
  may_create (path_join dir NODE_RUN_LOCK_FILE) (overview_inner dir).
Proof.
  unfold overview_inner. apply keeps_then_create; [apply ui_genesis_keeps|]. intros g.
  apply may_create_then; [apply may_create_try_st, try_acquire_creates|]. intros lock. apply overview_page_keeps.
Qed.

(** ** Reading without repair *)

Lemma io_ok_bind {A} (k : unit → ST Disk IoError A) d : d_faults d = [] → sbind io_call k d = k tt d.
Proof. intros Hf. unfold sbind. by rewrite io_ok. Qed.

Lemma fs_read_clean path d data : d_faults d = [] → d_files d !! path = Some data → storage_io (fs_read path) d = (Ok data, d).
Proof. intros Hf Hd. unfold storage_io, fs_read. rewrite (io_ok_bind _ d Hf). unfold sbind, sget, slift. by rewrite Hd. Qed.

Lemma read_all_clean path d data :
  d_faults d = [] → d_files d !! path = Some data → 0 < zlen data →
  read_all_blocks path d
  = (let '(fmt, off) := file_format data in
     let body := drop (Z.to_nat off) data in parse_strict_from fmt (length body) body 0 [], d).
Proof.
  intros Hf Hd Hpos. unfold read_all_blocks, sbind at 1. rewrite path_exists_ok, Hd, bool_decide_true by done. cbn [negb].
  unfold sbind at 1. rewrite (fs_read_clean _ _ _ Hf Hd). destruct (Z.eqb_spec (zlen data) 0); [lia|].
  destruct (file_format data) as [fmt off]. by destruct fmt.
Qed.

(** The repairing reader, where it repairs nothing. *)
Lemma repairing_clean path d data bs :
  d_faults d = [] → d_files d !! path = Some data → 0 < zlen data →
  read_all_blocks_repairing_tail path d = (Ok (bs, false), d)
  ↔ (let '(fmt, off) := file_format data in
     let body := drop (Z.to_nat off) data in
     ∃ consumed, parse_prefix_from fmt (length body) body 0 [] = Ok (bs, consumed) ∧ zlen data ≤ off + consumed).
Proof.
  intros Hf Hd Hpos. unfold read_all_blocks_repairing_tail, sbind at 1. rewrite path_exists_ok, Hd, bool_decide_true by done. cbn [negb].
  unfold sbind at 1. rewrite (fs_read_clean _ _ _ Hf Hd). destruct (Z.eqb_spec (zlen data) 0); [lia|].
  destruct (file_format data) as [fmt off]. cbn zeta. set (body := drop (Z.to_nat off) data).
  assert ((match fmt with Legacy => parse_legacy_block_frames_prefix body | V2 => parse_v2_block_frames_prefix body end)
          = parse_prefix_from fmt (length body) body 0 []) as -> by (by destruct fmt).
  unfold sbind at 1, slift. destruct (parse_prefix_from _ _ _ _ _) as [[blocks consumed]| |]; [|naive_solver..].
  destruct (Z.ltb_spec (off + consumed) (zlen data)).
  - split; [|intros (k&[= <- <-]&?); lia]. unfold sbind. intros Hx. exfalso. revert Hx. by repeat case_match.
  - split; [intros [= <-]; by exists consumed|]. by intros (k&[= <- <-]&_).
Qed.

(** The strict reader succeeds exactly where the repairing one has nothing to
    repair. *)
Lemma read_agree path d bs :
  d_faults d = [] → zlen (file_data d path) ≤ isize_max →
  read_all_blocks path d = (Ok bs, d) ↔ read_all_blocks_repairing_tail path d = (Ok (bs, false), d).
Proof.
  intros Hf Hmax. unfold file_data in Hmax. destruct (d_files d !! path) as [data|] eqn:Hd.
  2: { unfold read_all_blocks, read_all_blocks_repairing_tail, sbind. rewrite !path_exists_ok, Hd by done.
       rewrite !bool_decide_false by (by intros [? ?]). split; by intros [= <-]. }
  change (default [] (Some data)) with data in Hmax. pose proof (zlen_nonneg data).
  destruct (decide (zlen data = 0)) as [Hz|Hnz].
  { assert (read_all_blocks path d = (Ok [], d)) as ->.
    { unfold read_all_blocks, sbind at 1. rewrite path_exists_ok, Hd, bool_decide_true by done. cbn [negb].
      unfold sbind at 1. by rewrite (fs_read_clean _ _ _ Hf Hd), Hz. }
    assert (read_all_blocks_repairing_tail path d = (Ok ([], false), d)) as ->.
    { unfold read_all_blocks_repairing_tail, sbind at 1. rewrite path_exists_ok, Hd, bool_decide_true by done. cbn [negb].
      unfold sbind at 1. by rewrite (fs_read_clean _ _ _ Hf Hd), Hz. }
    split; by intros [= <-]. }
  rewrite (read_all_clean path d data), (repairing_clean path d data) by (done || lia).
  destruct (file_format data) as [fmt off] eqn:Hfmt. destruct (file_format_head _ _ _ Hfmt) as [Hoff Hdata]. cbn zeta.
  set (body := drop (Z.to_nat off) data) in *. pose proof (zlen_nonneg (file_head fmt)) as Hhead.
  assert (zlen data = off + zlen body) as Hlen by (rewrite Hdata, zlen_app; lia).
  assert (parse_strict_from fmt (length body) body 0 [] = Ok bs ↔ ∃ ps, body = frames fmt ps ∧ Forall2 stored_as ps bs) as Hex
    by (apply parse_strict_exact; lia).
  split.
  - intros [= (ps&Hb&Hall)%Hex]. exists (zlen body). split; [by eapply parse_prefix_complete; [..|lia]|lia].
  - intros (consumed&Hp&Hle). f_equal. apply Hex.
    destruct (parse_prefix_sound _ _ _ _ _ _ _ _ (at_pos_start body) Hp) as (ps&bs'&tail&Hb&->&Hall&He). exists ps. split; [|done].
    assert (zlen body = zlen (frames fmt ps) + zlen tail) as Hlb by (rewrite Hb at 1; apply zlen_app).
    assert (tail = []) as -> by (apply nil_length_inv; unfold zlen in *; lia). by rewrite app_nil_r in Hb.
Qed.

Section agreement.
Context `{CryptoLaws}.

(** A clean read of the chain. *)
Lemma readonly_agree dir g d c :
  d_faults d = [] → zlen (file_data d (chain_path dir)) ≤ isize_max →
  load_chain_readonly dir g d = (Ok c, d) ↔ load_blockchain_from_disk (chain_path dir) g d = (Ok (c, false), d).
Proof.
  intros Hf Hmax. pose proof (λ bs, read_agree (chain_path dir) d bs Hf Hmax) as Hread. split.
  - unfold load_chain_readonly. intros (bs&d1&Hr%smap_ok&Hx)%sbind_ok. fold (chain_path dir) in Hr.
    apply sbind_ok in Hx as (c0&d2&[Hg ->]%slift_ok&Hx). apply slift_ok in Hx as [Hx <-]. apply Hread in Hr.
    unfold load_blockchain_from_disk, sbind at 1. rewrite Hr. unfold sbind, slift, chain_from_genesis.
    destruct (from_genesis g) as [c1| |]; [|done..]. injection Hg as ->. cbn [map_err]. unfold exec_on, smap_err in *.
    destruct (sfor append_block bs c0) as [[[]| |] c2]; [|done..]. by injection Hx as ->.
  - unfold load_blockchain_from_disk. intros ([bs rep]&d1&Hr&Hx)%sbind_ok. apply sbind_ok in Hx as (c0&d2&[Hg ->]%slift_ok&Hx).
    apply sbind_ok in Hx as (c1&d3&[Hs ->]%slift_ok&Hx). injection Hx as -> -> ->. apply Hread in Hr.
    unfold load_chain_readonly, sbind at 1. fold (chain_path dir). unfold smap_err at 1. rewrite Hr. cbn [map_err].
    unfold chain_from_genesis in Hg. destruct (from_genesis g) as [c1| |] eqn:Hg1; [|done..]. injection Hg as ->.
    unfold sbind, slift. cbn [map_err]. f_equal. unfold exec_on, smap_err in *.
    destruct (sfor append_block bs c0) as [[[]| |] c2]; [|done..]. by injection Hs as ->.
Qed.

Context `{GenesisDocLaws} `{TomlTotal BindFile} `{TomlTotal PeerAddrs}.

(** C36: the pages of the test interface do not disturb the node. Whatever the
    directory holds and whatever file calls fail, no request for the
    overview, the activity, an account or the wallet fails with an internal
    error; the last three leave every file as it was, and the overview at most
    creates the empty run lock file. *)
Theorem ui_reads_only dir addr d :
  let lock := path_join dir NODE_RUN_LOCK_FILE in
  ((get_activity dir d).1 ≠ RespInternalError ∧ d_files (get_activity dir d).2 = d_files d)
  ∧ ((ui_get_account dir addr d).1 ≠ RespInternalError ∧ d_files (ui_get_account dir addr d).2 = d_files d)
  ∧ ((get_wallet dir d).1 ≠ RespInternalError ∧ d_files (get_wallet dir d).2 = d_files d)
  ∧ (get_overview dir d).1 ≠ RespInternalError
  ∧ (d_files (get_overview dir d).2 = d_files d
     ∨ d_files d !! lock = None ∧ d_files (get_overview dir d).2 = <[ lock := [] ]> (d_files d)).
Proof.
  intros lock. split_and!.
  1, 2: unfold get_activity; pose proof (activity_no_panic dir d); pose proof (reads_only (activity_inner dir) d (λ p, activity_keeps p dir));
    by destruct (activity_inner dir d) as [[]].
  1, 2: unfold ui_get_account; destruct (account_total dir addr d) as (out&d'&Heq);
    pose proof (reads_only (account_inner dir addr) d (λ p, account_keeps p dir addr)) as Hk; by rewrite Heq in *.
  1, 2: unfold get_wallet; destruct (wallet_total dir d) as (out&d'&Heq);
    pose proof (reads_only (wallet_state_inner dir) d (λ p, wallet_keeps p dir)) as Hk; by rewrite Heq in *.
  - unfold get_overview. pose proof (overview_no_panic dir d). by destruct (overview_inner dir d) as [[]].
  - assert ((get_overview dir d).2 = (overview_inner dir d).2) as -> by (unfold get_overview; by destruct (overview_inner dir d) as [[]]).
    destruct (overview_creates dir d) as [Hsame|[Hnone Hnew]].
    + left. apply map_eq. intros p. destruct (decide (p = lock)) as [->|Hp]; [done|]. by apply overview_keeps.
    + right. split; [done|]. apply map_eq. intros p. destruct (decide (p = lock)) as [->|Hp]; [by rewrite lookup_insert_eq|].
      rewrite lookup_insert_ne by done. by apply overview_keeps.
Qed.

(** The test interface shows the chain the node would load. On a directory
    whose files can be read, the read-only loader succeeds with a chain iff the
    node's loader returns that chain without having to repair the file; and
    then the account page reports exactly the balance and nonce of that
    chain's state. *)
Theorem ui_chain_agrees dir g d c addr :
  d_faults d = [] → zlen (file_data d (chain_path dir)) ≤ isize_max → ui_load_genesis dir d = (Ok g, d) →
  (load_chain_readonly dir g d = (Ok c, d) ↔ load_blockchain_from_disk (chain_path dir) g d = (Ok (c, false), d))
  ∧ (load_blockchain_from_disk (chain_path dir) g d = (Ok (c, false), d) →
     ui_get_account dir addr d
     = (RespOk (match get_account (bc_state c) (Address_new addr) with
                | Some ac => mkAccountOut addr true (Some (acc_balance ac)) (Some (acc_nonce ac)) None
                | None => mkAccountOut addr false None None None
                end), d)).
Proof.
  intros Hf Hmax Hg. split; [by apply readonly_agree|]. intros Hc%readonly_agree; [|done..].
  unfold ui_get_account, account_inner, sbind at 1, try_st, sbind. rewrite Hg, Hc. by destruct (get_account _ _).
Qed.
(** ** Queueing a transfer *)

Lemma ui_genesis_wf dir d g d' : ui_load_genesis dir d = (Ok g, d') → wf_genesis g.
Proof.
  unfold ui_load_genesis. intros (ex&d1&_&Hg)%sbind_ok. case_match; [done|]. apply smap_ok in Hg. by eapply genesis_from_path_wf.
Qed.

Lemma read_all_sound path d bs d' : read_all_blocks path d = (Ok bs, d') → ∃ ps, Forall2 stored_as ps bs.
Proof.
  unfold read_all_blocks. intros (ex&d1&_&Hx)%sbind_ok. case_match; [injection Hx as <- <-; by exists []|].
  apply sbind_ok in Hx as (data&d2&_&Hx). case_match; [injection Hx as <- <-; by exists []|].
  destruct (file_format data) as [fmt off]. apply slift_ok in Hx as [Hx _]. set (body := drop _ data) in *.
  assert (parse_strict_from fmt (length body) body 0 [] = Ok bs) as Hp by (by destruct fmt).
  destruct (parse_strict_sound _ _ _ _ _ _ _ (at_pos_start body) Hp) as (ps&bs'&_&->&Hall). by exists ps.
Qed.

Lemma readonly_sound dir g d c d' : load_chain_readonly dir g d = (Ok c, d') → chain_inv g c.
Proof.
  unfold load_chain_readonly. intros (bs&d1&Hr%smap_ok&Hx)%sbind_ok. destruct (read_all_sound _ _ _ _ Hr) as [ps Hps].
  apply sbind_ok in Hx as (c0&d2&[Hg ->]%slift_ok&Hx). apply slift_ok in Hx as [Hx _].
  destruct (from_genesis g) as [c1| |] eqn:Hfg; [|done..]. injection Hg as ->. unfold exec_on, smap_err in Hx.
  fold (append_blocks bs) in Hx. pose proof (append_blocks_inv g bs c0 (loaded_genesis_inv _ _ Hfg) (stored_wf _ _ Hps)) as Hi.
  destruct (append_blocks bs c0) as [[[]| |] c2]; [|done..]. by injection Hx as ->.
Qed.

Lemma ensure_binding_queue dir g pid clock : keeps (queue_path dir) (ensure_binding_if_missing dir g pid clock).
Proof. by apply ensure_binding_keeps. Qed.

(** With a clock after 1970 [POST /api/send] never fails with an internal error and only appends to the
    queue; on success the queue is the old one followed by exactly one transfer
    signed by the wallet, with the requested nonce or the committed one. *)
Theorem ui_send_queues dir body ts pid clock d :
  is_Some clock → in_u64 (sb_amount body) → in_u64 (sb_fee body) → (∀ n, sb_nonce body = Some n → in_u64 n) → in_u64 ts →
  utf8_valid (str_bytes (Address_new (sb_receiver body))) = true →
  let '(r, d') := post_send dir body ts pid clock d in
  r ≠ RespInternalError ∧ file_data d (queue_path dir) `prefix_of` file_data d' (queue_path dir)
  ∧ (∀ msg, r = RespOk msg → ∃ w nonce tx,
       sign_transfer w (Address_new (sb_receiver body)) (sb_amount body) (sb_fee body) nonce ts = Ok tx
       ∧ (∀ n, sb_nonce body = Some n → nonce = n)
       ∧ ∀ txs, parse_pending_file_bytes (file_data d (queue_path dir)) = Ok txs →
           parse_pending_file_bytes (file_data d' (queue_path dir)) = Ok (txs ++ [tx])).
Proof.
  intros Hclock Ha Hf Hno Hts Hutf. set (q := queue_path dir). unfold post_send, send_inner.
  unfold sbind at 1. pose proof (ui_wallet_no_panic dir d) as Hp1. pose proof (ui_wallet_keeps q dir d) as Hk1.
  destruct (ui_load_wallet dir d) as [[w|e|] d1]; cbn [fst snd] in *; [|by unfold file_data; rewrite Hk1|done].
  unfold sbind at 1. pose proof (ui_genesis_no_panic dir d1) as Hp2. pose proof (ui_genesis_keeps q dir d1) as Hk2. rewrite Hk1 in Hk2.
  destruct (ui_load_genesis dir d1) as [[g|e|] d2] eqn:Hgen; cbn [fst snd] in *; [|by unfold file_data; rewrite Hk2|done].
  unfold sbind at 1. pose proof (verify_binding_no_panic dir g d2) as Hp3. pose proof (verify_binding_keeps q dir g d2) as Hk3. rewrite Hk2 in Hk3.
  destruct (verify_binding_if_present dir g d2) as [[[]|e|] d3]; cbn [fst snd] in *; [|by unfold file_data; rewrite Hk3|done].
  unfold sbind at 1. pose proof (readonly_no_panic dir g d3) as Hp4. pose proof (readonly_keeps q dir g d3) as Hk4. rewrite Hk3 in Hk4.
  destruct (load_chain_readonly dir g d3) as [[c|e|] d4] eqn:Hchain; cbn [fst snd] in *; [|by unfold file_data; rewrite Hk4|done].
  assert (file_data d4 q = file_data d q) as Hd4 by (unfold file_data; by rewrite Hk4).
  unfold sbind at 1, slift at 1. destruct (get_account _ _) as [acc|] eqn:Hacc; cbn [ok_or]; [|by rewrite Hd4].
  unfold sbind at 1, slift at 1. set (nonce := default (acc_nonce acc) (sb_nonce body)).
  destruct (sign_transfer _ _ _ _ _ _) as [tx|err|] eqn:Hsign; cbn [map_err]; [|by rewrite Hd4|].
  2: { revert Hsign. unfold sign_transfer. by repeat case_match. }
  assert (in_u64 nonce) as Hn.
  { unfold nonce. destruct (sb_nonce body) as [n|]; [by apply Hno|]. cbn [default].
    pose proof (ui_genesis_wf _ _ _ _ Hgen) as Hg. pose proof (readonly_sound _ _ _ _ _ Hchain) as Hc.
    apply (wf_state_lookup _ _ _ (chain_inv_wf_state g c Hg Hc) Hacc). }
  destruct (queue_signed dir _ _ _ _ _ _ _ d4 Hsign Ha Hf Hn Hts Hutf) as (Hq1&Hq2&_&Hq4). fold (queue_path dir). fold q in Hq1, Hq2, Hq4 |- *.
  unfold sbind at 1, smap_err. destruct (append_pending_transaction q tx d4) as [[[]|e|] d5]; cbn [fst snd map_err] in *; rewrite Hd4 in *; [|done..].
  unfold sbind. pose proof (ensure_binding_no_panic dir g pid clock Hclock d5) as Hp6. pose proof (ensure_binding_queue dir g pid clock d5) as Hk6. fold q in Hk6.
  destruct (ensure_binding_if_missing dir g pid clock d5) as [[[]|e|] d6]; cbn [fst snd] in *;
    (assert (file_data d6 q = file_data d5 q) as Hd6 by (unfold file_data; by rewrite Hk6)); rewrite ?Hd6; [|done..].
  split_and!; [done|by rewrite Hd6|]. intros msg _. exists w, nonce, tx. split_and!; [done| |rewrite Hd6; by apply Hq4].
  intros n Hnn. unfold nonce. by rewrite Hnn.
Qed.
End agreement.

(** The server only ever listens on the loopback address. *)
Theorem ui_localhost canonicalize args dir listen :
  ui_main canonicalize args = Ok (UiServe dir listen) → String.prefix "127.0.0.1:" listen = true.
Proof.
  unfold ui_main, rbind at 1. destruct (expect _) as [os_args'| |]; [|done..]. case_match; [done|]. unfold rbind. destruct (ui_args _ _ _) as [[dd l]| |]; [|done..].
  destruct (String.prefix "127.0.0.1:" l) eqn:Hp, (String.eqb l "127.0.0.1") eqn:He; cbn [negb andb]; try done; by intros [= _ <-].
Qed.
