(* ===== verification/RunExample.v ===== *)
(** * A node on a small data directory

    A directory with a wallet, a genesis document and one queued transfer, and
    runs on it, at which the theorems about the commands are applied. *)

From Stdlib Require Import ZArith Lia Ascii.
From stdpp Require Import base strings list gmap.
From S2P Require Import Prelude Bytes Io Crypto Transaction Wallet Block Encoding Genesis Ledger Mempool MempoolQueue Blockchain Storage StorageSpec Restart PendingTx Toml Seen PeerBook DataDirBind Wire Node Session Args Commands Run StartSpec RunSpec RunSafe SendSpec InitSpec LiveSpec DevUi DevUiSpec.

Module RunExample.
Import ToyCrypto WalletExample BlockExample LedgerExample ChainExample SessionExample.

(** ** Documents *)

Instance allocation_eq_dec : EqDecision GenesisAllocation.
Proof. solve_decision. Defined.
Instance genesis_eq_dec : EqDecision Genesis.
Proof. solve_decision. Defined.

Instance genesis_doc : TomlDoc Genesis := ToyToml.one_doc genesis.
Instance bind_doc : TomlDoc BindFile := ToyToml.one_doc (mkBindFile hex).

(** A peer book is always printed as [x] and read as empty. *)
Instance book_doc : TomlDoc PeerBookFile := {|
  toml_from_str := λ _, Ok (mkPeerBookFile 1 []);
  toml_to_string := λ _, Ok "x"
|}.

Lemma one_total {A} `{EqDecision A} (a : A) : @TomlTotal A (ToyToml.one_doc a).
Proof.
  split.
  - intros s. cbn. destruct (ToyToml.skip_lines false s) as [|c s']; [done|]. by destruct (_ && _).
  - intros x. cbn. by case_decide.
Qed.

Instance genesis_doc_laws : GenesisDocLaws.
Proof.
  split; [apply one_total|]. intros s g. cbn. destruct (ToyToml.skip_lines false s) as [|c s']; [done|].
  destruct (_ && _); [|done]. intros [= <-]. apply genesis_wf.
Qed.
Instance bind_doc_total : TomlTotal BindFile := one_total _.
Instance book_doc_total : TomlTotal PeerBookFile.
Proof. done. Qed.

(** ** A run *)

Definition queue : list byte := match encode_pending_payload [transfer 0] with Ok l => l | _ => [] end.

Definition dir0 : Disk :=
  mkDisk {[ path_join "data" WALLET_FILE := be_bytes 32 1; path_join "data" GENESIS_FILE := str_bytes "x";
            path_join "data" PENDING_TX_FILE := queue ]} [].

Definition solo : RunConfig := mkRunConfig "data" None 5 None [] None InboundPeerPolicy_default 10.
Definition refused : Res IoError Stream := Err (mkIoError Other "Connection refused").
Definition start : StartEnv := mkStartEnv 7 (Some 99) (λ _ _, refused) (λ _ _, 0) (Ok tt).

(** A session delivers the second transfer before the first is drained from the
    queue. *)
Definition tick1 : TickEnv :=
  mkTickEnv [OsFrame InboundPeerPolicy_default 1700000050 ([byte_of_Z OP_TX] ++ default [] (encode_transaction (transfer 1))) counters_zero]
    (λ _ _, refused) (λ _ _, 0) 1700000100 1700000100 (λ _ _, refused) (λ _ _, 0) (λ _, 0) 1700000101 (λ _, refused).

(** Another process empties the queue. *)
Definition tick2 : TickEnv :=
  mkTickEnv [OsFiles (λ d, set_file (path_join "data" PENDING_TX_FILE) [] d)]
    (λ _ _, refused) (λ _ _, 0) 1700000200 1700000200 (λ _ _, refused) (λ _ _, 0) (λ _, 0) 1700000201 (λ _, refused).

Lemma tick1_ok : tick_env_ok (chain_path "data") tick1.
Proof. split; try done. repeat constructor. Qed.

Lemma tick2_ok : tick_env_ok (chain_path "data") tick2.
Proof.
  split; try done. repeat constructor. intros d. cbn [set_file d_files].
  rewrite lookup_insert_ne; [done|by apply join_ne].
Qed.

Definition ran : option (Res string unit * option RunState) := cmd_run solo start [tick1; tick2] dir0.

Definition sealed_nonces (rs : RunState) : list (list Z) :=
  (λ b, tx_nonce <$> blk_transactions b) <$> bc_blocks (ni_chain (rs_node rs)).

(** The transfers are sealed in the order of their nonces. *)
Lemma ran_seals :
  match ran with Some (Ok _, Some rs) => sealed_nonces rs | _ => [] end = [[]; [0]; [1]].
Proof. vm_compute. reflexivity. Qed.

Lemma run_safe_witness :
  ∃ rs, ran = Some (Ok tt, Some rs) ∧ node_inv (rs_node rs) (rs_disk rs) ∧ sealed_nonces rs = [[]; [0]; [1]].
Proof.
  destruct (run_safe solo start [tick1; tick2] dir0) as (r&o&Hrun&Hr&Hout); [reflexivity|by eexists|done|done| |].
  { constructor; [apply tick1_ok|]. constructor; [apply tick2_ok|constructor]. }
  fold ran in Hrun. pose proof ran_seals as Hs. rewrite Hrun in *. destruct r as [[]|e|]; [|done..].
  destruct o as [rs|]; [|done]. exists rs. split; [reflexivity|]. split; [|exact Hs]. apply (proj1 (Hout rs eq_refl)).
Defined.

(** ** A peer that is ahead

    Sealing is not allowed until the configured peer has been caught up with; it
    has the block of the first two transfers. *)

Definition with_peer : RunConfig := mkRunConfig "data" None 5 None ["peer:1"] None InboundPeerPolicy_default 10.

Definition node1 : NodeInner :=
  mkNode genesis chain0 (Mempool_new 10) (mkBlockStore (chain_path "data") false V2 false)
    (SeenCache_new 2) (SeenCache_new 2) PeerBook_default.
Definition queue2 : list byte := match encode_pending_payload [transfer 2] with Ok l => l | _ => [] end.
Definition disk1 : Disk :=
  mkDisk {[ chain_path "data" := []; path_join "data" PENDING_TX_FILE := queue2 ]} [].

Lemma node1_inv : node_inv node1 disk1.
Proof.
  split; [apply genesis_wf|apply (nv_chain _ _ node0_inv)|apply pool_ok_new|].
  intros _. exists []. split; [|constructor]. split; [reflexivity|vm_compute; reflexivity|done|done].
Qed.

Definition tick3 : TickEnv :=
  mkTickEnv [] (λ _, conns) (λ _ _, 1700000101) 1700000300 1700000300 (λ _ _, refused) (λ _ _, 0) (λ _, 1700000301)
    1700000301 (λ _, refused).

Lemma tick3_ok : tick_env_ok (chain_path "data") tick3.
Proof. split; try done. intros i j. apply conns_no_panic. Qed.

Lemma seal_only_synced_witness :
  match tick_locked with_peer tick3 false (node1, disk1) with
  | Some (Ok (Some b), allowed', (n', d')) =>
    allowed' = true ∧ node_inv n' d' ∧ (tx_nonce <$> blk_transactions b) = [2]
    ∧ ∃ n2 d2, Synced (te_retry_conns tick3) (te_retry_clock tick3) 0 ["peer:1"]
        (set_pool node1 (drain_pending_file (path_join "data" PENDING_TX_FILE) (ni_pool node1, disk1)).2.1,
         (drain_pending_file (path_join "data" PENDING_TX_FILE) (ni_pool node1, disk1)).2.2) (n2, d2)
      ∧ blk_transactions b `sublist_of` clone_fifo (ni_pool (hygiene n2))
  | _ => False
  end.
Proof.
  assert (match tick_locked with_peer tick3 false (node1, disk1) with
          | Some (Ok (Some b), _, _) => (tx_nonce <$> blk_transactions b) = [2] | _ => False end) as Hrun by (vm_compute; reflexivity).
  pose proof (seal_only_synced with_peer tick3 false node1 disk1) as Hs.
  destruct (tick_locked with_peer tick3 false (node1, disk1)) as [[[[[b|]|e|] a] [n' d']]|]; [|exact Hrun..].
  destruct (Hs b a n' d' tick3_ok node1_inv eq_refl eq_refl) as (Ha&Hi&r&pool1&d1&Hdrain&Hok).
  split; [exact Ha|]. split; [exact Hi|]. split; [exact Hrun|]. cbn [rc_data_dir with_peer] in Hdrain. rewrite Hdrain. cbn [fst snd].
  destruct Hok as (n2&d2&n4&d4&[_ Hsync]&_&_&_&Hsub&_). exists n2, d2. split; [exact Hsync|exact Hsub].
Defined.

(** ** A full disk *)

Definition pool1 : Mempool := (try_submit (transfer 0) (Mempool_new 10)).2.
Definition node2 : NodeInner := set_pool node1 pool1.

Lemma node2_inv d : d_files d = d_files disk1 → node_inv node2 d.
Proof.
  intros Hd. apply node_inv_pool.
  - apply (node_inv_files node1 disk1); [apply node1_inv|by rewrite Hd].
  - apply pool_ok_submit; [apply pool_ok_new|]. apply transfer_wf. unfold in_u64, u64_max. lia.
Qed.

Definition full : Disk := mkDisk (d_files disk1) [IoOk; IoFail (Some 3%nat) (mkIoError Other "No space left on device")].

Lemma seal_atomic_witness :
  ∃ e n' d', seal_block 1700000100 true (node2, full) = (Err e, (n', d'))
    ∧ node_inv n' d' ∧ ni_chain n' = chain0 ∧ ni_pool n' = pool1 ∧ bs_poisoned (ni_store n') = true.
Proof.
  pose proof (seal_atomic 1700000100 true node2 full (node2_inv full eq_refl)) as Hs.
  assert (match seal_block 1700000100 true (node2, full) with (Err _, _) => True | _ => False end) as Hrun
    by (vm_compute; constructor).
  destruct (seal_block 1700000100 true (node2, full)) as [[o|e|] [n' d']]; [destruct Hrun| |destruct Hrun].
  destruct Hs as (Hi&_&_&Hc&Hp&Hpo); [unfold in_u64, u64_max; lia|]. exists e, n', d'. split; [reflexivity|].
  split; [exact Hi|]. split; [exact Hc|]. split; [exact Hp|exact Hpo].
Defined.

(** ** A pooled and a queued transfer *)

Definition queue1 : list byte := match encode_pending_payload [transfer 1] with Ok l => l | _ => [] end.
Definition disk2 : Disk :=
  mkDisk {[ chain_path "data" := []; queue_path "data" := queue1 ]} [].

Lemma node2_inv_disk2 : node_inv node2 disk2.
Proof. apply (node_inv_files node2 disk1); [by apply node2_inv|vm_compute; reflexivity]. Qed.

Definition after2 : State := (apply_transactions [transfer 0; transfer 1] (bc_state chain0)).2.

Lemma queued_gets_sealed_witness :
  ∃ n' d', tick_locked solo tick2 true (node2, disk2)
      = Some (Ok (Some (sealed_block Block_genesis [transfer 0; transfer 1] 1700000200)), true, (n', d'))
    ∧ bc_state (ni_chain n') = after2 ∧ clone_fifo (ni_pool n') = [] ∧ node_inv n' d'.
Proof.
  destruct (queued_gets_sealed solo tick2 node2 disk2 queue1 [transfer 1] after2 Block_genesis) as (n'&d'&Hrun&_&Hs&Hp&_&Hi).
  - apply node2_inv_disk2.
  - reflexivity.
  - reflexivity.
  - reflexivity.
  - reflexivity.
  - split; vm_compute; discriminate.
  - vm_compute; reflexivity.
  - vm_compute; reflexivity.
  - vm_compute; discriminate.
  - vm_compute; lia.
  - vm_compute; lia.
  - apply (bool_decide_unpack _). vm_compute; constructor.
  - vm_compute; reflexivity.
  - reflexivity.
  - vm_compute; discriminate.
  - vm_compute; discriminate.
  - exists n', d'. split; [exact Hrun|]. split; [exact Hs|]. split; [exact Hp|exact Hi].
Defined.

(** ** Restarting on a torn file *)

Definition torn : Disk :=
  mkDisk {[ "chain.blocks" := CHAIN_FILE_MAGIC_V2 ++ frame V2 block1_bytes ++ [Byte.x00; Byte.x01] ]} [].

Lemma restart_consistent_witness :
  ∃ c d1 st d3, load_blockchain_from_disk "chain.blocks" genesis torn = (Ok (c, true), d1)
    ∧ open_append "chain.blocks" d1 = (Ok st, d3) ∧ chain_inv genesis c ∧ bc_blocks c = [Block_genesis; block1]
    ∧ ∃ ps, store_holds st (d_files d3) ps ∧ Forall2 stored_as ps [block1].
Proof.
  assert (match load_blockchain_from_disk "chain.blocks" genesis torn with
          | (Ok (c, true), d1) => bc_blocks c = [Block_genesis; block1]
              ∧ match open_append "chain.blocks" d1 with (Ok _, _) => True | _ => False end
          | _ => False end) as Hrun by (vm_compute; split; constructor).
  pose proof (restart_consistent "chain.blocks" genesis torn) as Hrc.
  destruct (load_blockchain_from_disk "chain.blocks" genesis torn) as [[[c [|]]|e|] d1]; try destruct Hrun as [].
  destruct (open_append "chain.blocks" d1) as [[st|e|] d3] eqn:Hopen; [|match goal with Hx : False |- _ => destruct Hx end..].
  destruct (Hrc c true d1 eq_refl) as (Hi&_&Hh). destruct (Hh d1 st d3 eq_refl Hopen (or_introl eq_refl)) as (ps&Hps&Hall&_).
  exists c, d1, st, d3. repeat (split; [first [reflexivity | assumption]|]). exists ps. split; [exact Hps|].
  match goal with Hb : bc_blocks c = _ |- _ => rewrite Hb in Hall end. exact Hall.
Defined.

(** The existence check fails: the block is forgotten, and the store still holds
    it. *)
Definition unlucky : Disk :=
  mkDisk {[ "chain.blocks" := CHAIN_FILE_MAGIC_V2 ++ frame V2 block1_bytes ]} [IoStat false].

Definition other1 : Block := seal (mkBlock 1 "GENESIS_HASH" 1700000500 [transfer 0] "").

Lemma failed_check_forgets_chain_witness :
  ∃ c st d2 st' d3, load_blockchain_from_disk "chain.blocks" genesis unlucky = (Ok (c, false), mkDisk (d_files unlucky) [])
    ∧ bc_blocks c = [Block_genesis] ∧ open_append "chain.blocks" (mkDisk (d_files unlucky) []) = (Ok st, d2)
    ∧ store_append_block other1 (st, d2) = (Ok tt, (st', d3))
    ∧ is_ok (load_blockchain_from_disk "chain.blocks" genesis (mkDisk (d_files d3) [])).1 = false.
Proof.
  assert (∃ c, from_genesis genesis = Ok c ∧ extends (bc_consensus c) Block_genesis other1) as (c&Hc&Hx)
    by (eexists; split; [vm_compute; reflexivity|repeat split; vm_compute; reflexivity]).
  assert (∃ st d2 st' d3, open_append "chain.blocks" (mkDisk (d_files unlucky) []) = (Ok st, d2)
    ∧ store_append_block other1 (st, d2) = (Ok tt, (st', d3)) ∧ zlen (file_data d3 "chain.blocks") ≤ isize_max)
    as (st&d2&st'&d3&Ho&Ha&Hmax).
  { eexists _, _, _, _. split; [vm_compute; reflexivity|]. split; [vm_compute; reflexivity|vm_compute; discriminate]. }
  assert (holds_blocks (d_files unlucky !! "chain.blocks") [block1]) as Hh.
  { right. exists V2, [block1_bytes]. split; [vm_compute; reflexivity|]. split; [|discriminate].
    constructor; [|constructor]. split; [apply block1_decodes|vm_compute; discriminate]. }
  destruct (failed_check_forgets_chain "chain.blocks" genesis unlucky [] c [block1] st d2 eq_refl Hc ltac:(discriminate) Hh Ho)
    as (Hl&Hb&Hlost).
  destruct (Hlost other1 st' d3) as [_ Hno]; [|exact Hx|exact Ha|].
  - apply (bool_decide_unpack _). vm_compute. exact I.
  - exists c, st, d2, st', d3. split; [exact Hl|]. split; [exact Hb|]. split; [exact Ho|]. split; [exact Ha|exact (Hno Hmax genesis)].
Defined.

(** A load after two bytes of the next frame. *)
Definition working : Disk := mkDisk (d_files StorageExample.disk1) [].
Definition appended : Res IoError unit * (BlockStore * Disk) := append_payload StorageExample.payload1 (StorageExample.store1, working).

Lemma repair_races_append_witness :
  let old := file_data working StorageExample.path in
  let full := drop (length old) (file_data appended.2.2 StorageExample.path) in
  recover StorageExample.path {[ StorageExample.path := old ++ take 2 full ]} = (Ok ([StorageExample.empty_block], true), Some old)
  ∧ ∀ repaired, (recover StorageExample.path {[ StorageExample.path := old ++ drop 2 full ]}).1
      ≠ Ok ([StorageExample.empty_block; block1], repaired).
Proof.
  assert (appended.1 = Ok tt) as Hok by (vm_compute; reflexivity). intros old full. unfold full.
  destruct appended as [r [st' d']] eqn:Happ. cbn [fst snd] in *. subst r. clear full. set (full := drop (length old) _).
  pose proof (repair_races_append StorageExample.store1 working [StorageExample.payload0] [StorageExample.empty_block]
    StorageExample.payload1 block1 st' d' 2 {[ StorageExample.path := old ++ take 2 full ]} StorageExample.store1_holds
    ltac:(discriminate) StorageExample.payload0_list StorageExample.payload1_stored StorageExample.small_file ltac:(lia) Happ
    (lookup_insert_eq _ _ _)) as Hrace.
  change (bs_path StorageExample.store1) with StorageExample.path in Hrace.
  destruct (recover StorageExample.path _) as [loaded kept]. destruct Hrace as (_&Hl&Hk&Hlost). subst loaded kept.
  split; [reflexivity|]. intros repaired. exact (Hlost _ repaired (lookup_insert_eq _ _ _)).
Defined.

(** ** Queueing a transfer *)

Lemma send_queues_witness :
  ∃ tx d', cmd_send "data" None "bob" 5 1 1700000000 7 (Some 99) dir0 = (Ok tt, d')
    ∧ signed_from "data" "bob" 5 1 1700000000 dir0 d' tx
    ∧ parse_pending_file_bytes (file_data d' (queue_path "data")) = Ok ([transfer 0] ++ [tx]).
Proof.
  assert (match cmd_send "data" None "bob" 5 1 1700000000 7 (Some 99) dir0 with (Ok _, _) => True | _ => False end) as Hrun
    by (vm_compute; constructor).
  assert (parse_pending_file_bytes (file_data dir0 (queue_path "data")) = Ok [transfer 0]) as Hq by (vm_compute; reflexivity).
  pose proof (send_queues "data" None "bob" 5 1 1700000000 7 (Some 99) dir0) as Hs.
  destruct (cmd_send "data" None "bob" 5 1 1700000000 7 (Some 99) dir0) as [[[]|e|] d']; [|destruct Hrun..].
  destruct Hs as (_&Hother&_&_&Hs); [by eexists|unfold in_u64, u64_max; lia..|vm_compute; reflexivity|].
  destruct (Hs eq_refl eq_refl) as (tx&Htx&_&Hparse). exists tx, d'. split; [reflexivity|]. split; [exact Htx|apply Hparse, Hq].
Defined.

(** ** The pages of the test interface *)

Instance addrs_doc : TomlDoc PeerAddrs := {|
  toml_from_str := λ _, Ok (mkPeerAddrs ["peer:1"]);
  toml_to_string := λ _, Ok "x"
|}.
Instance addrs_total : TomlTotal PeerAddrs.
Proof. done. Qed.

(** The directory with one block in the file. *)
Definition dir1 : Disk := set_file (chain_path "data") (CHAIN_FILE_MAGIC_V2 ++ frame V2 block1_bytes) dir0.

Lemma ui_reads_only_witness :
  d_files (get_activity "data" dir1).2 = d_files dir1
  ∧ (get_overview "data" dir1).1 ≠ RespInternalError
  ∧ d_files (get_overview "data" dir1).2 !! chain_path "data" = d_files dir1 !! chain_path "data".
Proof.
  destruct (ui_reads_only "data" "bob" dir1) as ((_&Ha)&_&_&Ho&Hf). split; [exact Ha|]. split; [exact Ho|].
  destruct Hf as [-> |[_ ->]]; [reflexivity|]. apply lookup_insert_ne. discriminate.
Defined.

Lemma ui_chain_agrees_witness :
  ∃ c, load_blockchain_from_disk (chain_path "data") genesis dir1 = (Ok (c, false), dir1) ∧ bc_blocks c = [Block_genesis; block1]
    ∧ load_chain_readonly "data" genesis dir1 = (Ok c, dir1)
    ∧ ui_get_account "data" "bob" dir1 = (RespOk (mkAccountOut "bob" true (Some 10) (Some 0) None), dir1).
Proof.
  assert (∃ c, load_blockchain_from_disk (chain_path "data") genesis dir1 = (Ok (c, false), dir1)
    ∧ bc_blocks c = [Block_genesis; block1] ∧ get_account (bc_state c) "bob" = Some (mkAccount "bob" 10 0)) as (c&Hl&Hb&Hacc).
  { eexists. split; [vm_compute; reflexivity|]. split; vm_compute; reflexivity. }
  destruct (ui_chain_agrees "data" genesis dir1 c "bob") as [[_ Hro] Hpage]; [reflexivity|vm_compute; discriminate|vm_compute; reflexivity|].
  exists c. split; [exact Hl|]. split; [exact Hb|]. split; [exact (Hro Hl)|]. specialize (Hpage Hl).
  change (Address_new "bob") with "bob" in Hpage. rewrite Hacc in Hpage. exact Hpage.
Defined.

End RunExample.

(** A directory made by [init]. *)
Module InitExample.
Import ToyCrypto WalletExample RunExample.

Definition seed : list byte := be_bytes 32 1.
Definition gen : Genesis := mkGenesis [mkGenesisAllocation (Wallet_address (generate_with_rng seed)) 100].
Instance gen_doc : TomlDoc Genesis := ToyToml.one_doc gen.
Instance gen_laws : TomlLaws Genesis := ToyToml.one_laws gen.
Instance gen_total : TomlTotal Genesis := one_total gen.

Definition made : Res string unit * Disk := cmd_init "data" (Some 100) seed (mkDisk ∅ []).

Lemma init_readable_witness :
  made.1 = Ok tt ∧ load_genesis_for_cmd "data" None made.2 = (Ok gen, made.2)
  ∧ load_wallet "data" made.2 = (Ok (generate_with_rng seed), made.2).
Proof.
  assert (made.1 = Ok tt ∧ d_faults made.2 = []) as [Hok Hf] by (vm_compute; split; reflexivity).
  pose proof (init_readable "data" (Some 100) seed (mkDisk ∅ []) eq_refl eq_refl) as Hi. fold made in Hi.
  destruct made as [r d'] eqn:Hm. cbn [fst snd] in *. destruct Hi as (_&_&_&Hi). destruct (Hi Hok Hf) as [Hw Hg].
  split; [exact Hok|]. split; [apply (Hg 100 eq_refl)|exact Hw].
Defined.
End InitExample.
