(* ===== verification/NetExample.v ===== *)
(** * Small networks

    Nodes at which the theorems about conversations, the running process and
    the program are applied. *)

From Stdlib Require Import ZArith Lia Ascii.
From stdpp Require Import base strings list gmap relations.
From S2P Require Import Prelude Bytes Io Crypto Transaction Wallet Block Encoding Genesis Ledger Mempool MempoolQueue Blockchain Storage StorageSpec Restart PendingTx Toml Seen PeerBook DataDirBind Wire Node Session Quota Dialogue Slots Args Commands Run StartSpec RunSpec RunSafe Server SendSpec InitSpec Main LiveSpec Converge DevUi DevUiSpec RunExample.

Module NetExample.
Import ToyCrypto WalletExample BlockExample LedgerExample ChainExample SessionExample RunExample.

(** ** A peer that is two blocks ahead *)

Definition block2_bytes : list byte := default [] (encode_block block2).
Definition ahead : NodeInner :=
  mkNode genesis chain2 (Mempool_new 10) (mkBlockStore "chain.blocks" false V2 true) (SeenCache_new 2) (SeenCache_new 2) PeerBook_default.
Definition ahead_disk : Disk :=
  mkDisk {[ "chain.blocks" := CHAIN_FILE_MAGIC_V2 ++ frame V2 block1_bytes ++ frame V2 block2_bytes ]} [].

Lemma chain2_blocks : bc_blocks chain2 = [Block_genesis; block1; block2].
Proof. vm_compute. reflexivity. Qed.

Lemma ahead_inv : node_inv ahead ahead_disk.
Proof.
  split; [apply genesis_wf|apply reachable_inv; [apply genesis_wf|apply chain2_reachable]|apply pool_ok_new|].
  intros _. exists [block1_bytes; block2_bytes]. split.
  - split; [reflexivity|vm_compute; reflexivity|intros [_ [=]]|discriminate].
  - change (ni_chain ahead) with chain2. rewrite chain2_blocks. change (drop 1 [Block_genesis; block1; block2]) with [block1; block2].
    constructor; [split; [apply block1_decodes|vm_compute; discriminate]|]. constructor; [|constructor].
    split; [|vm_compute; discriminate]. apply decode_encode_block; [apply block2_wf|vm_compute; reflexivity].
Qed.

Lemma genesis_open n : ni_genesis n = genesis → bs_poisoned (ni_store n) = false → open_to genesis InboundPeerPolicy_default n.
Proof.
  intros Hg Hpo. split; [exists hex; rewrite Hg; split; apply genesis_commits| |exact Hpo].
  unfold in_u32, u32_max, InboundPeerPolicy_default. cbn. lia.
Qed.

Lemma chain2_small : Forall (encodes_within sealed_max) (bc_blocks chain2).
Proof. rewrite chain2_blocks. repeat (constructor; [eexists; split; [vm_compute; reflexivity|vm_compute; discriminate]|]). constructor. Qed.

Lemma ahead_serves : serves genesis InboundPeerPolicy_default sealed_max ahead ahead_disk.
Proof.
  split; [apply ahead_inv|reflexivity|by apply genesis_open| |apply chain2_small|by vm_compute].
  unfold sealed_max, MAX_FRAME_BYTES, batch_limit, MAX_WIRE_FRAME_BYTES. lia.
Qed.

Definition answered (j : nat) : Res IoError Stream :=
  dial InboundPeerPolicy_default (λ _, 1700000300) (ahead, ahead_disk) genesis (Z.min (height chain0 + 64 * Z.of_nat j) (height chain2)).

Lemma sync_converges_witness :
  ∃ n' d', sync_from_peer_with_clock "peer:1" SyncWorkBudget_default answered (λ _, 1700000300) (node0, disk0)
    = Some (Ok (mkOutcome 2 false), (n', d')) ∧ ni_chain n' = chain2 ∧ healthy n' d'.
Proof.
  apply (sync_converges genesis InboundPeerPolicy_default sealed_max ahead ahead_disk "peer:1" SyncWorkBudget_default answered
    (λ _, 1700000300) (λ _, 1700000300) node0 disk0 [block1; block2]).
  - apply ahead_serves.
  - split; [apply node0_inv|reflexivity|reflexivity].
  - reflexivity.
  - vm_compute; reflexivity.
  - vm_compute; reflexivity.
  - split; [apply chain2_small|]. intros i b Hb.
    assert (Forall (λ b, blk_timestamp_unix b ≤ 1700000300) (bc_blocks chain2)) as Hall.
    { rewrite chain2_blocks. repeat (constructor; [vm_compute; discriminate|]). constructor. }
    rewrite Forall_forall in Hall. specialize (Hall b Hb). assert (0 ≤ max_future_drift_secs (bc_consensus (ni_chain ahead))) by (by vm_compute).
    lia.
  - split; vm_compute; intuition discriminate.
  - intros j. reflexivity.
Defined.

(** ** A sealed block reaches the other node *)

Definition sealed1 : Res string (option Block) * (NodeInner * Disk) := seal_block 1700000100 true (node2, disk1).
Definition seal_result : option (Block * (NodeInner * Disk)) := match sealed1 with (Ok (Some b), node) => Some (b, node) | _ => None end.

Lemma sealed_block_spreads_witness :
  match seal_result with
  | Some (b, (nA, dA)) => ∃ sent nB dB,
      conversation (push_on_stream "gossip" "peer:1" genesis (blk_height b) (block_message b)) sent tt
        InboundPeerPolicy_default (λ _, 1700000090) (node0, disk0) (nB, dB)
      ∧ ni_chain nB = ni_chain nA ∧ length (bc_blocks (ni_chain nB)) = 2%nat ∧ node_inv nA dA ∧ healthy nB dB
  | None => False
  end.
Proof.
  assert (match seal_result with Some (_, (nA, _)) => length (bc_blocks (ni_chain nA)) = 2%nat | None => False end) as Hrun
    by (vm_compute; reflexivity).
  unfold seal_result in *. destruct sealed1 as [[[b|]|e|] [nA dA]] eqn:Hseal; [|exact Hrun..].
  destruct (sealed_block_spreads 1700000100 true node2 disk1 nA dA b InboundPeerPolicy_default node0 disk0 "peer:1" (λ _, 1700000090))
    as (sent&nB&dB&Hc&Hch&HiA&_&Hh&_).
  - apply node2_inv. reflexivity.
  - unfold in_u64, u64_max. lia.
  - exact Hseal.
  - split; [apply node0_inv|reflexivity|reflexivity].
  - reflexivity.
  - reflexivity.
  - apply genesis_open; reflexivity.
  - vm_compute. discriminate.
  - exists sent, nB, dB. split; [exact Hc|]. split; [exact Hch|]. rewrite Hch. split; [exact Hrun|]. split; [exact HiA|exact Hh].
Defined.

(** ** A connection is accepted and delivers a block *)

Definition rs1 : RunState := mkRunState node1 disk1 true ∅ ∅.
Definition served (rs : RunState) (slots : SlotPool) (c : Conn) : Server := mkServer rs slots [c] None.
Definition greeted : Stream := mkStream (wire_frame ([byte_of_Z OP_BLOCK] ++ block1_bytes)) eof (ack_frame genesis 0) [].
Definition after_block : option (Phase * (NodeInner * Disk)) :=
  session_action InboundPeerPolicy_default 1700000101 (Looping counters_zero greeted) (node1, disk1).

Definition block_log : list (nat * Handled) := pair 0%nat <$> frame_read counters_zero greeted 1700000101 (node1, disk1).

Lemma server_safe_witness :
  match after_block with
  | Some (ph, node) =>
    let s := served (set_node rs1 node) (mkSlotPool 128 1) (mkConn Holding ph) in
    node_inv (rs_node (srv_run s)) (rs_disk (srv_run s)) ∧ (sessions s ≤ 128)%nat
    ∧ quotas_kept InboundPeerPolicy_default (read_from 0 block_log) ∧ zlen (read_from 0 block_log) = 1
    ∧ bc_blocks (ni_chain (rs_node (srv_run s))) = [Block_genesis; block1]
  | None => False
  end.
Proof.
  assert (match after_block with Some (_, (n, _)) => bc_blocks (ni_chain n) = [Block_genesis; block1] | None => False end) as Hrun
    by (vm_compute; reflexivity).
  assert (zlen (read_from 0 block_log) = 1) as Hone by (vm_compute; reflexivity).
  destruct after_block as [[ph [n d]]|] eqn:Hact; [|exact Hrun].
  destruct (server_safe solo genesis InboundPeerPolicy_default rs1 (Ok tt) (Ok "127.0.0.1:9000")
    (mkServer rs1 (mkSlotPool 128 0) [] None) "127.0.0.1:9000" block_log
    (served (set_node rs1 (n, d)) (mkSlotPool 128 1) (mkConn Holding ph))) as (Hi&_&Hs&_&Hq&_).
  - apply default_policy_wf.
  - apply node1_inv.
  - reflexivity.
  - vm_compute; reflexivity.
  - apply (server_run_step _ _ _ _ [] (served rs1 (mkSlotPool 128 1) (mkConn Holding (Looping counters_zero greeted)))).
    2: { apply sst_session with (i := 0%nat) (ph := Looping counters_zero greeted) (now := 1700000101) (ph' := ph) (node' := (n, d));
           [reflexivity|exact Hact]. }
    apply (server_run_step _ _ _ _ [] (served rs1 (mkSlotPool 128 1) (mkConn Holding (Fresh peer_stream))) []).
    2: { apply sst_session with (i := 0%nat) (ph := Fresh peer_stream) (now := 0) (ph' := Looping counters_zero greeted) (node' := (node1, disk1));
           [reflexivity|]. vm_compute; reflexivity. }
    apply (server_run_step _ _ _ _ [] (served rs1 (mkSlotPool 128 0) (mkConn (Acquiring 0) (Fresh peer_stream))) []).
    2: { apply (sst_acquire solo genesis InboundPeerPolicy_default rs1 (mkSlotPool 128 0) [mkConn (Acquiring 0) (Fresh peer_stream)] 0
           (Acquiring 0) (Fresh peer_stream) false (mkSlotPool 128 1) Holding); reflexivity. }
    apply (server_run_step _ _ _ _ [] (served rs1 (mkSlotPool 128 0) (mkConn Starting (Fresh peer_stream))) []).
    2: { apply (sst_acquire solo genesis InboundPeerPolicy_default rs1 (mkSlotPool 128 0) [mkConn Starting (Fresh peer_stream)] 0
           Starting (Fresh peer_stream) false (mkSlotPool 128 0) (Acquiring 0)); reflexivity. }
    apply (server_run_step _ _ _ _ [] (mkServer rs1 (mkSlotPool 128 0) [] None) []); [apply server_run_start|].
    apply sst_accept with (s := peer_stream). constructor.
  - split; [exact Hi|]. split; [exact Hs|]. split; [apply Hq|]. split; [exact Hone|exact Hrun].
Defined.

(** ** The program *)


End NetExample.
